(* ===== verification/_CoqProject ===== *)
-Q . S2P
Prelude.v
AddressRecord.v
Bins.v
Binner.v
Pow2Bins.v
AllocatorStrategy.v
Symmetry.v
Heap.v
Teams.v
ROQueue.v
Coalesce.v
Util.v
MPITransport.v
Progress.v
Clusters.v
ROContext.v
Endian.v
Segments.v
QueuePair.v
SendQueue.v
Locks.v
WGState.v
Barrier.v
Onesided.v
IBColl.v
Allreduce.v
Ring.v
Gcen.v
Host.v
IBContext.v
Connection.v
Network.v
Dispatch.v
Api.v
HostApi.v
Delivery.v
Ipc.v
ROBackend.v
Lifecycle.v
IBBackend.v
