(* ===== verification/Prelude.v ===== *)
(** * ROC_SHMEM: a verification library

    ROC_SHMEM is an OpenSHMEM runtime for AMD GPUs: processing elements, one
    per process, share a symmetric heap and communicate with one-sided
    operations that GPU threads start.  This library models the parts of
    [library/src] that decide correctness and proves what they promise.

    ** The program and its parts

    - [memory/]: the symmetric heap.  Every processing element makes the same
      allocation calls; a power-of-two allocator hands out blocks, and the same
      calls must give the same offsets everywhere, since a remote address is a
      local one moved to the peer's heap.
    - [team.cpp], [team_tracker.cpp], [roc_shmem.cpp] and the team functions of
      [gpu_ib/backend_ib.cpp]: groups of processing elements, how they are
      split, numbered and given work arrays from a shared pool.
    - [reverse_offload/]: the backend that offloads network operations from the
      GPU to the host.  The threads of a work-group put commands into a ring
      ([context_ro_device.cpp]); host threads take them out ([backend_ro.cpp])
      and pass them to the transport ([mpi_transport.cpp]), which issues MPI
      calls and tells the GPU when they complete.
    - [gpu_ib/]: the backend in which GPU threads drive the InfiniBand card
      themselves: they write work requests into a queue pair's memory, ring its
      doorbell and poll for completions ([queue_pair.cpp],
      [segment_builder.cpp], [endian.cpp], [thread_policy.cpp]); barriers and
      collectives are made of puts, gets and flags ([gpu_ib_gpu_coll.cpp],
      [gpu_ib_gpu_templates.hpp]).
    - [wg_state.cpp], [wg_team_ctxs_policy.cpp], [device_mutex.cpp],
      [backend_bc.cpp]: what a work-group owns while it runs, the locks around
      shared contexts, and the contexts the host tracks.
    - [wf_coal_policy.cpp], [ipc_policy.cpp], [util.cpp]: compile-time policies
      and device helpers of the operations.
    - [gpu_ib/connection.cpp] with its two kinds of connection and
      [gpu_ib/network_policy.cpp]: what the host sets up before the GPU can
      use the card.
    - [host/]: operations that the host starts itself, on MPI windows over the
      symmetric heap.
    - [roc_shmem_gpu.cpp], [roc_shmem.cpp]: the public functions, which go
      through [context_device.cpp] and [context_host.cpp] to the selected
      backend ([backend_type.hpp]).

    ** Files and what they model

    - [Prelude.v]: machine integers with explicit wrap-around, the result
      monad in which a failed assertion, an [exit] or a bad access is a value,
      tactics and list lemmas.
    - [AddressRecord.v], [Bins.v], [Binner.v]: [class AddressRecord],
      [class Bin] over an ordered map, [class Binner].
    - [Pow2Bins.v]: [class Pow2Bins]; its invariant [wf] says that free and
      handed-out blocks are disjoint pieces of the arena of the right sizes.
      Theorems: [alloc] and [free] on every branch, the constructor, the
      accounting, the errors.
    - [AllocatorStrategy.v]: the interface [ShmemAllocatorStrategy] as a type
      class with an abstract allocator, and the refinement by [Pow2Bins].
    - [Symmetry.v], [Heap.v]: the allocator commutes with moving the heap;
      [MemoryAllocator], [HeapMemory], [SingleHeap], [SymmetricHeap],
      [WindowInfo], [RemoteHeapInfo].  Theorems: symmetric pointers and window
      offsets, accounting, start-up from the environment.
    - [Teams.v]: [Team], [TeamTracker], the pool bit mask, splits and
      destruction.  Theorems: translation, membership, agreement on pool
      indices, disjoint work arrays, clean-up.
    - [ROQueue.v]: the command ring as a step relation over any number of
      device threads, the worker that visits the ring, one access to shared
      memory at a time, and the other workers, which write the same buffer.
      Theorems: first-in first-out without loss, duplication or change, in runs in
      which the refill of the read index, a load and a store, does not move it
      back, and when the element is read in place or by one worker; a work-group
      with one thread at a time has such runs only; progress of the host; and a run
      that loses a command for each of the two conditions.
    - [Coalesce.v]: the wavefront-level merging of adjacent messages, shown to
      transfer the same bytes.
    - [Util.v]: thread indices and the device copies.
    - [MPITransport.v], [Progress.v], [Clusters.v]: the transport.  Its MPI
      calls go to a log; [Progress.v] has the invariant of its bookkeeping over
      all interleavings of commands and completions, the meaning of [progress]
      and of quiets, and that the engine finishes; [Clusters.v] the two-step
      all-to-all and collect.
    - [ROContext.v]: the device operations as lists of effects, the coalescing
      policies behind a class, and the way of a command from the call on the
      device to the operation of the transport.
    - [Endian.v], [Segments.v], [QueuePair.v]: byte swapping, the segments of a
      work request as bytes in memory, and the queue pair: posting by the
      thread policies, doorbells, quiets, atomics.  A class gives the layout of
      the card's headers.  Theorem: the card reads from memory the request that
      was meant.
    - [SendQueue.v]: the queue pair together with a card that reads requests from
      the send queue at any time after the doorbell, executes them and writes
      completions.  Theorems: as long as no slot is written again before its
      request is executed, a quiet returns only when everything posted has been
      executed as it was meant, and it ends; the one place where a slot can be
      written too early; and a run in which a request is lost there.
    - [Locks.v], [WGState.v]: the mutexes as step relations over wavefronts, with
      mutual exclusion and release; buffer tokens, dynamic shared memory, the
      pool of team descriptions, tracked contexts.
    - [Barrier.v]: the two barriers as a step relation over the elements and the
      flags on their way.  Theorems: nobody leaves before all have entered, in
      any number of barriers, and all leave.
    - [Onesided.v]: programs of transfers, quiets and barriers that run
      concurrently, transfers completing at any time; when the outcome does not
      depend on the interleaving.  [IBColl.v] has the collectives as such
      programs, with their outcome and termination for teams whose stride is a
      power of two, the assertion that stops the others, and the runs in which the
      broadcast by puts and the all-to-all of Bruck go wrong.
    - [Allreduce.v]: the choice of the reduction algorithm and the direct
      reduction over members and network, its outcome and termination, and the
      run in which two reductions in a row block.
    - [Ring.v]: the ring reduction over members and network; an invariant that
      counts the rounds of every member and the messages that arrived gives its
      outcome for the sizes that [to_all] chooses, its termination, and that no
      run is stuck.
    - [Gcen.v]: the clustered all-to-all and collect of the InfiniBand backend, as
      programs of transfers and flags.  Theorems: the clustered all-to-all is right,
      ends, and leaves its buffers; runs in which the other variants release a
      source too early, and one that blocks.
    - [Host.v]: the host interface: windows and their pool, one-sided
      operations with what is pending at the target and locally, the HDPs that
      hold writes back, quiets, communicators of active sets, collectives.
    - [IBContext.v]: the device context of the InfiniBand backend: all
      point-to-point operations, coalesced or not, on the queue pair of the
      target.  Theorems: what is transferred, that blocking operations have
      completed, that contexts in use share no queue pair.
    - [Connection.v], [Network.v]: the transitions of the queue pairs, the
      exchange of their numbers, registration of memory, the first requests.
      Theorems: set-up returns or fails as a whole, and at its end every context
      reaches the queue pair of the process it means.
    - [Dispatch.v], [Api.v], [HostApi.v]: the dispatch macros with locking and
      counting, the device functions with contexts and teams, the host functions
      from initialisation to finalisation.  Theorems: every device call on an
      open context runs the right method of the backend for the process that is
      meant; which results come back; host contexts and barriers.
    - [Delivery.v]: the layers together.  Theorems: a transfer on a context of a
      team becomes, with InfiniBand, a request that the card reads as the
      transfer meant, on the connection with the process of the member, and with
      reverse offload the MPI call for it.
    - [Ipc.v]: the exchange of memory handles between the processes of a node and the
      table of mapped heaps.  Theorem: the addresses that the contexts compute from
      it are those of the same offset in the heap of the peer.
    - [ROBackend.v]: the constructor of the reverse-offload backend with its settings,
      the memory of rings, status bytes and windows, and the handles of the contexts.
      Theorems: contexts in use have rings and status bytes of their own, each ring
      served by one worker; the settings for which the fixed sizes do not fit.
    - [Lifecycle.v]: the main thread, the workers and the progress engine from their
      start to the teardown, as a step relation.  Theorems: nothing gets stuck, every
      teardown ends with all threads stopped; no command is lost or duplicated on the
      way when the workers do not share a buffer for the element, that is with one
      worker or with the rings in host memory; a run in which two workers lose a
      command and pass another on twice, and one in which commands are left behind.
    - [IBBackend.v]: set-up and teardown of the InfiniBand backend, over [Heap.v],
      [HostApi.v], [Teams.v], [Ipc.v] and [Network.v].  Theorems: the arrays of all teams
      are disjoint pieces of the heap with initial values, the teardown gives the memory
      and the windows back; the arrays of the team of all processes are null, as is the
      largest pool with the default settings.

    ** Conventions

    Pointers, sizes and C integers are [Z]; a wrap-around is written where the
    code has one ([u32], [s32], [u64], ...).  Code that is not part of the
    repository is a parameter: the system allocators and their state, the
    [MPI_*] functions on addresses, the reduction over team members, the
    completions that [MPI_Testsome] reports.  Loops that are not structural
    take fuel: the splitting and the assignment of bins are bounded by the
    number of bins and by the size of the heap, [destroy_all] by the number of
    teams, the copies by the size, the polling loop by 64, the rounds of the
    algorithms of Bruck by 31 (the number of elements is an [int]), the search
    for a free buffer by the number of buffers; in each case the theorems show
    that the fuel suffices, since they state that the function returns.  A wait
    for a value in memory takes the list of values that the loads see
    ([QueuePair.v]) or is a step that is not enabled (the step relations).  The
    claims are numbered C1, C2, ... in their doc comments.

    ** Not modelled

    Of the InfiniBand backend the memory of its queues, the end of the network, and the
    network set-up with dynamic connections as a whole (their parts are modelled).  Of
    the reverse-offload backend the creation of teams.  Hardware registers, timers and
    printing.  Files that the build does not compile
    ([transport.cpp], [openshmem_transport.cpp], [ro_net_gpu.cpp]), clients and tests.
    The weak memory model of the GPU is not modelled: the fences of the code are taken to
    order the steps of the command ring, of the queue pair and of the flags.  The fields
    of a queue element are stored in one step before its flag, and copied to the host in
    one step.  The card of [SendQueue.v] is next to callers of which one at a time uses
    the queue pair, and reports no errors.  Reductions are over integers. *)
From stdpp Require Export base tactics list numbers option gmap relations.
From Stdlib Require Export ZArith Lia.

Local Open Scope Z_scope.

(** ** Machine integers *)

(** Reduction to an unsigned integer of [w] bits. *)
Definition uwrap (w x : Z) : Z := x `mod` 2 ^ w.

(** Reduction to a two's complement integer of [w] bits. *)
Definition swrap (w x : Z) : Z := (x + 2 ^ (w - 1)) `mod` 2 ^ w - 2 ^ (w - 1).

Abbreviation u8 := (uwrap 8).
Abbreviation u16 := (uwrap 16).
Abbreviation u32 := (uwrap 32).
Abbreviation u64 := (uwrap 64).
Abbreviation s32 := (swrap 32).
Abbreviation s64 := (swrap 64).

(** The null pointer; pointers are 64-bit addresses. *)
Definition nullptr : Z := 0.

Definition INT_MIN : Z := - 2 ^ 31.
Definition INT_MAX : Z := 2 ^ 31 - 1.
Definition UINT_MAX : Z := 2 ^ 32 - 1.

Create HintDb shmem.

Lemma uwrap_small w x : 0 ≤ x < 2 ^ w → uwrap w x = x.
Proof. apply Z.mod_small. Qed.

Lemma uwrap_range w x : 0 ≤ w → 0 ≤ uwrap w x < 2 ^ w.
Proof. intros. apply Z.mod_pos_bound. lia. Qed.

Lemma swrap_small w x : 0 < w → - 2 ^ (w - 1) ≤ x < 2 ^ (w - 1) → swrap w x = x.
Proof.
  intros Hw Hx. unfold swrap.
  assert (2 ^ w = 2 * 2 ^ (w - 1)).
  { rewrite <- Z.pow_succ_r by lia. f_equal. lia. }
  rewrite Z.mod_small; lia.
Qed.

Lemma s32_small x : INT_MIN ≤ x ≤ INT_MAX → s32 x = x.
Proof. unfold INT_MIN, INT_MAX. intros. apply swrap_small; lia. Qed.

Lemma s32_range x : INT_MIN ≤ s32 x ≤ INT_MAX.
Proof.
  unfold swrap, INT_MIN, INT_MAX. change (2 ^ (32 - 1)) with (2 ^ 31).
  pose proof (Z.mod_pos_bound (x + 2 ^ 31) (2 ^ 32) ltac:(lia)). lia.
Qed.

Lemma s32_id_iff x : s32 x = x ↔ INT_MIN ≤ x ≤ INT_MAX.
Proof. split; [intros <-; apply s32_range|apply s32_small]. Qed.

(** Conversion to a wider type first makes no difference. *)
Lemma s32_s64 x : s32 (s64 x) = s32 x.
Proof.
  unfold swrap. f_equal. change (2 ^ (64 - 1)) with (2 ^ 31 * 2 ^ 32).
  replace (_ - 2 ^ 31 * 2 ^ 32 + 2 ^ (32 - 1)) with ((x + 2 ^ 31 * 2 ^ 32) `mod` 2 ^ 64 + (2 ^ 31 - 2 ^ 31 * 2 ^ 32))
    by (change (2 ^ (32 - 1)) with (2 ^ 31); lia).
  rewrite <- Zplus_mod_idemp_l, Z.mod_mod_divide by (by exists (2 ^ 32)).
  rewrite Zplus_mod_idemp_l. by f_equal; lia.
Qed.

Lemma s32_u64 x : s32 (u64 x) = s32 x.
Proof.
  unfold swrap, uwrap. f_equal.
  rewrite <- Zplus_mod_idemp_l, Z.mod_mod_divide by (by exists (2 ^ 32)).
  by rewrite Zplus_mod_idemp_l.
Qed.

(** Indices of a window of [n] are told apart by their remainders. *)
Lemma mod_window n r i j :
  0 < n → r ≤ i < r + n → r ≤ j < r + n → i `mod` n = j `mod` n → i = j.
Proof.
  intros Hn Hi Hj H. pose proof (Z.div_mod i n ltac:(lia)). pose proof (Z.div_mod j n ltac:(lia)).
  assert (i / n = j / n); [|lia]. nia.
Qed.

(** ** Faults and the result monad *)

(** What can stop the program: a failed [assert], an [exit], a pointer used
    where it may not be, a trap; [OutOfFuel] is the model's own answer when a
    bounded loop did not reach its exit. *)
Inductive fault :=
  | AssertFailed
  | BadAccess
  | ExitProgram (code : Z)
  | Trap
  | OutOfFuel.

Inductive result (A : Type) :=
  | Ok (a : A)
  | Fail (f : fault).
Arguments Ok {A} a.
Arguments Fail {A} f.

#[export] Instance result_ret : MRet result := λ A a, Ok a.
#[export] Instance result_bind : MBind result := λ A B k m,
  match m with Ok a => k a | Fail f => Fail f end.
#[export] Instance result_fmap : FMap result := λ A B g m,
  match m with Ok a => Ok (g a) | Fail f => Fail f end.

#[export] Instance fault_eq_dec : EqDecision fault.
Proof. solve_decision. Defined.

(** The [assert] macro of <cassert>. *)
Definition assert_ (b : bool) : result unit :=
  if b then Ok tt else Fail AssertFailed.

(** A value the program needs to be there (a lookup that the C++ code does
    without a check). *)
Definition must {A} (o : option A) : result A :=
  match o with Some a => Ok a | None => Fail BadAccess end.

(** [returns m P]: the computation [m] returns, and its value satisfies [P]. *)
Definition returns {A} (m : result A) (P : A → Prop) : Prop :=
  match m with Ok a => P a | Fail _ => False end.

Section returns.
Context {A B : Type}.
Implicit Types (m : result A) (k : A → result B).

Lemma returns_ok a (P : A → Prop) : P a → returns (Ok a) P.
Proof. done. Qed.

Lemma returns_bind m k (P : A → Prop) (Q : B → Prop) :
  returns m P → (∀ a, P a → returns (k a) Q) → returns (m ≫= k) Q.
Proof. destruct m; naive_solver. Qed.

Lemma returns_mono m (P Q : A → Prop) :
  returns m P → (∀ a, P a → Q a) → returns m Q.
Proof. destruct m; naive_solver. Qed.

Lemma returns_iff m (P : A → Prop) : returns m P ↔ ∃ a, m = Ok a ∧ P a.
Proof. destruct m; naive_solver. Qed.

Lemma bind_Ok_inv m k b :
  m ≫= k = Ok b → ∃ a, m = Ok a ∧ k a = Ok b.
Proof. destruct m; naive_solver. Qed.
End returns.

Lemma returns_assert b (P : unit → Prop) : b = true → P tt → returns (assert_ b) P.
Proof. by intros ->. Qed.

Lemma assert_Ok_inv b : assert_ b = Ok tt → b = true.
Proof. by destruct b. Qed.

(** Split a hypothesis [e = Ok _] on a chain of binds. *)
Ltac inv_ok :=
  repeat match goal with
  | H : assert_ _ = Ok _ |- _ => apply assert_Ok_inv in H
  | H : _ ≫= _ = Ok _ |- _ =>
      let E := fresh "E" in
      apply bind_Ok_inv in H as (? & E & H); simplify_eq/=
  | H : (Fail _ : result _) = Ok _ |- _ => discriminate H
  | x : unit |- _ => destruct x
  end.

(** Linear arithmetic with quotients and remainders by constants. *)
Ltac div_lia := Z.to_euclidean_division_equations; lia.

(** Decide the test of a boolean [if] in the goal. *)
Ltac case_if :=
  match goal with
  | |- context [if ?b then _ else _] => destruct b eqn:?
  end.

(** ** Lists *)

(** A sum in which one summand changes. *)
Lemma sum_update {A} `{!EqDecision A} (f g : A → nat) (l : list A) (x : A) :
  NoDup l → x ∈ l → (∀ y, y ≠ x → g y = f y) →
  (sum_list_with g l + f x = sum_list_with f l + g x)%nat.
Proof.
  intros Hl Hx Hg. induction Hl as [|y l Hy Hl IH]; [by apply not_elem_of_nil in Hx|]. cbn.
  destruct (decide (y = x)) as [->|Hne].
  - assert (sum_list_with g l = sum_list_with f l); [|lia].
    clear -Hy Hg. induction l as [|z l IH]; [done|]. cbn. rewrite Hg by set_solver. rewrite IH by set_solver. done.
  - rewrite (Hg y Hne). pose proof (IH ltac:(set_solver)). lia.
Qed.

Lemma alter_take_drop {A} (f : A → A) (l : list A) (i : nat) (x : A) :
  l !! i = Some x → alter f i l = take i l ++ f x :: drop (S i) l.
Proof.
  revert i. induction l as [|a l IH]; intros [|i]; simpl; [done|done|by intros [= ->]|].
  intros H. f_equal. by apply IH.
Qed.

(** *** Pairwise relations *)

Fixpoint pairwise {A} (R : A → A → Prop) (l : list A) : Prop :=
  match l with
  | [] => True
  | a :: l' => Forall (R a) l' ∧ pairwise R l'
  end.

Section pairwise.
Context {A : Type} (R : A → A → Prop) `{!Symmetric R}.

Lemma pairwise_app l1 l2 :
  pairwise R (l1 ++ l2) ↔
  pairwise R l1 ∧ pairwise R l2 ∧ ∀ a b, a ∈ l1 → b ∈ l2 → R a b.
Proof.
  induction l1 as [|a l1 IH]; simpl.
  - set_solver.
  - rewrite Forall_app, IH, !Forall_forall. set_solver.
Qed.

#[export] Instance pairwise_perm : Proper ((≡ₚ) ==> iff) (pairwise R).
Proof.
  intros l1 l2 Hp. induction Hp as [|x l1 l2 Hp IH|x y l|l1 l2 l3 _ IH1 _ IH2]; simpl.
  - done.
  - assert (Forall (R x) l1 ↔ Forall (R x) l2) by (rewrite !Forall_forall; by setoid_rewrite Hp). tauto.
  - rewrite !Forall_cons. split; intros [[Hxy ?] [? ?]]; split_and!; auto.
  - by rewrite IH1.
Qed.
End pairwise.

(** *** Filters *)

Lemma filter_ext_in {A} (P Q : A → Prop) `{!∀ x, Decision (P x), !∀ x, Decision (Q x)} (l : list A) :
  (∀ x, x ∈ l → P x ↔ Q x) → filter P l = filter Q l.
Proof.
  induction l as [|x l IH]; intros Hl; [done|]. rewrite !filter_cons, IH by set_solver.
  pose proof (Hl x ltac:(set_solver)). do 2 case_decide; tauto.
Qed.

Lemma filter_none {A} (P : A → Prop) `{!∀ x, Decision (P x)} (l : list A) :
  (∀ x, x ∈ l → ¬ P x) → filter P l = [].
Proof.
  induction l as [|x l IH]; intros Hl; [done|]. rewrite filter_cons_False by set_solver.
  apply IH. set_solver.
Qed.

(** *** Sums *)

Fixpoint zsum {A} (f : A → Z) (l : list A) : Z :=
  match l with [] => 0 | x :: l' => f x + zsum f l' end.

Section zsum.
Context {A : Type} (f : A → Z).

Lemma zsum_app l1 l2 : zsum f (l1 ++ l2) = zsum f l1 + zsum f l2.
Proof. induction l1; cbn; lia. Qed.

Lemma zsum_nonneg l : Forall (λ x, 0 ≤ f x) l → 0 ≤ zsum f l.
Proof. induction 1; cbn; lia. Qed.

Lemma zsum_zero l : Forall (λ x, 0 ≤ f x) l → zsum f l ≤ 0 → Forall (λ x, f x = 0) l.
Proof.
  induction 1 as [|x l Hx Hl IH]; intros Hs; [done|].
  cbn in Hs. pose proof (zsum_nonneg l Hl). constructor; [lia|apply IH; lia].
Qed.

Lemma zsum_le g l : Forall (λ x, f x ≤ g x) l → zsum f l ≤ zsum g l.
Proof. induction 1; cbn; lia. Qed.

(** The sum around one element that is exchanged. *)
Lemma zsum_insert l i x y : l !! i = Some x → zsum f (<[i := y]> l) = zsum f l - f x + f y.
Proof.
  revert i. induction l as [|z l IH]; intros [|i] Hi; simplify_eq/=; [lia|].
  rewrite IH by done. lia.
Qed.

Lemma zsum_at_least l i x : Forall (λ x, 0 ≤ f x) l → l !! i = Some x → f x ≤ zsum f l.
Proof.
  intros Hl. revert i. induction Hl as [|z l Hz Hl IH]; intros [|i] Hi; simplify_eq/=.
  - pose proof (zsum_nonneg l Hl). lia.
  - specialize (IH i Hi). lia.
Qed.

Lemma zsum_two l i j x y :
  Forall (λ x, 0 ≤ f x) l → l !! i = Some x → l !! j = Some y → i ≠ j → f x + f y ≤ zsum f l.
Proof.
  intros Hl. revert i j. induction Hl as [|z l Hz Hl IH]; intros [|i] [|j] Hi Hj Hne; simplify_eq/=.
  - pose proof (zsum_at_least l j y Hl Hj). lia.
  - pose proof (zsum_at_least l i x Hl Hi). lia.
  - pose proof (IH i j Hi Hj ltac:(lia)). lia.
Qed.
End zsum.

(** ** Reachable states *)

Lemma rtc_invariant {S} (R : S → S → Prop) (I : S → Prop) (s0 : S) :
  I s0 → (∀ s s', R s s' → I s → I s') → ∀ s, rtc R s0 s → I s.
Proof.
  intros H0 Hstep. apply rtc_ind_r; [done|]. intros s s' _ Hs HI. by eapply Hstep.
Qed.
