(* ===== verification/AddressRecord.v ===== *)
(** * Address records

    [memory/address_record.hpp]: a raw pointer and the size of the memory it
    points to, with the two operations that halve a record and join two
    halves again.  The geometry of records (disjointness, containment in an
    arena) that the allocator's invariant speaks about is defined here too. *)
From S2P Require Import Prelude.

Local Open Scope Z_scope.

(** [class AddressRecord]: a [char*] and a [size_t]. *)
Record AddressRecord := AR {
  address_ : Z;
  size_ : Z
}.

#[export] Instance AddressRecord_eq_dec : EqDecision AddressRecord.
Proof. solve_decision. Defined.

(** The default constructor: the empty record, which signifies "invalid". *)
Definition AR_default : AddressRecord := AR nullptr 0.

Definition get_address (r : AddressRecord) : Z := address_ r.
Definition get_size (r : AddressRecord) : Z := size_ r.

(** [AddressRecord::split]. *)
Definition split (r : AddressRecord) : result (AddressRecord * AddressRecord) :=
  _ ← assert_ (negb (address_ r =? nullptr));
  _ ← assert_ (negb (size_ r =? 0));
  let half_size := Z.shiftr (size_ r) 1 in
  _ ← assert_ (negb (half_size =? 0));
  let e1 := AR (address_ r) half_size in
  let e2 := AR (u64 (address_ r + half_size)) half_size in
  Ok (e1, e2).

(** [AddressRecord::combine]. *)
Definition combine (r other : AddressRecord) : result AddressRecord :=
  _ ← assert_ (negb (address_ r =? nullptr));
  _ ← assert_ (negb (get_address other =? nullptr));
  let this_smaller := address_ r <? get_address other in
  let smaller_addr := if this_smaller then address_ r else get_address other in
  let larger_addr := if this_smaller then get_address other else address_ r in
  _ ← assert_ (size_ r =? get_size other);
  let combined_size := u64 (size_ r + size_ r) in
  _ ← assert_ (u64 (smaller_addr + size_ r) =? larger_addr);
  Ok (AR smaller_addr combined_size).

(** ** Geometry *)

(** The half-open byte ranges of two records do not meet. *)
Definition disj (r1 r2 : AddressRecord) : Prop :=
  address_ r1 + size_ r1 ≤ address_ r2 ∨ address_ r2 + size_ r2 ≤ address_ r1.

#[export] Instance disj_sym : Symmetric disj.
Proof. unfold disj, Symmetric. lia. Qed.

(** [r] lies inside [s]. *)
Definition inside (r s : AddressRecord) : Prop :=
  address_ s ≤ address_ r ∧ address_ r + size_ r ≤ address_ s + size_ s.

(** A record that stands for memory of the address space: not null, of
    positive size, and not running past the end of a 64-bit space. *)
Definition real_block (r : AddressRecord) : Prop :=
  0 < address_ r ∧ 0 < size_ r ∧ address_ r + size_ r < 2 ^ 64.

(** Byte total of a list of records. *)
Definition total (l : list AddressRecord) : Z := foldr (λ r a, size_ r + a) 0 l.

Lemma total_app l1 l2 : total (l1 ++ l2) = total l1 + total l2.
Proof. induction l1; simpl; lia. Qed.

#[export] Instance total_perm : Proper ((≡ₚ) ==> eq) total.
Proof. induction 1; simpl; lia. Qed.

Lemma inside_trans r s t : inside r s → inside s t → inside r t.
Proof. unfold inside. lia. Qed.

Lemma disj_inside r r' s : inside r' r → disj r s → disj r' s.
Proof. unfold disj, inside. lia. Qed.

#[export] Hint Resolve inside_trans disj_inside : shmem.

(** Splitting a real block of even size succeeds, and the two halves are
    disjoint, lie inside the block and make up all of it. *)
Lemma split_spec r :
  real_block r → (size_ r) `mod` 2 = 0 →
  returns (split r) (λ '(r1, r2),
    r1 = AR (address_ r) (size_ r / 2) ∧
    r2 = AR (address_ r + size_ r / 2) (size_ r / 2) ∧
    real_block r1 ∧ real_block r2 ∧ disj r1 r2 ∧ inside r1 r ∧ inside r2 r ∧
    size_ r1 + size_ r2 = size_ r).
Proof.
  intros (Ha & Hs & Hend) Hev.
  pose proof (Z.div_mod (size_ r) 2 ltac:(lia)).
  unfold split, nullptr. rewrite Z.shiftr_div_pow2, Z.pow_1_r by lia.
  rewrite !(proj2 (Z.eqb_neq _ 0)) by lia. simpl.
  rewrite uwrap_small by lia.
  unfold real_block, disj, inside; simpl. split_and!; try done; lia.
Qed.
