(* ===== verification/Bins.v ===== *)
(** * Bins

    [memory/bin.hpp] (a stack of records) and the [std::map<size_t, Bin>] that
    the binner and the allocator share.  The map is an association list in
    ascending key order; a forward iterator is the index of the entry it
    points to, and [end()] is the length of the list. *)
From S2P Require Import Prelude AddressRecord.

Local Open Scope Z_scope.

(** ** [class Bin]: a stack, its top at the head of the list. *)
Module Bin.
Definition empty {T} (b : list T) : bool :=
  match b with [] => true | _ :: _ => false end.
Definition size {T} (b : list T) : nat := length b.
Definition put {T} (b : list T) (element : T) : list T := element :: b.
Definition get {T} (b : list T) : result (T * list T) :=
  match b with
  | [] => Fail AssertFailed
  | top :: rest => Ok (top, rest)
  end.

Lemma empty_nil {T} (b : list T) : empty b = true ↔ b = [].
Proof. by destruct b. Qed.
End Bin.

(** ** The map from bin sizes to bins *)

Abbreviation BIN_T := (list AddressRecord).
Abbreviation BINS_T := (list (Z * list AddressRecord)).

(** [std::map::insert]: in key order, and nothing for a key that is there. *)
Fixpoint bins_insert (k : Z) (bin : BIN_T) (bins : BINS_T) : BINS_T :=
  match bins with
  | [] => [(k, bin)]
  | (k', bin') :: rest =>
      if k <? k' then (k, bin) :: bins
      else if k =? k' then bins
      else (k', bin') :: bins_insert k bin rest
  end.

(** [std::map::find]. *)
Fixpoint bins_find (k : Z) (bins : BINS_T) : nat :=
  match bins with
  | [] => 0
  | (k', _) :: rest => if k =? k' then 0 else S (bins_find k rest)
  end.

(** [std::map::lower_bound]: the first entry whose key is not less. *)
Fixpoint bins_lower_bound (k : Z) (bins : BINS_T) : nat :=
  match bins with
  | [] => 0
  | (k', _) :: rest => if k <=? k' then 0 else S (bins_lower_bound k rest)
  end.

(** All records held by the bins. *)
Definition free_records (bins : BINS_T) : list AddressRecord :=
  mjoin (bins.*2).

(** ** Well-formed bins

    The bin sizes are the consecutive powers of two from [2 ^ e] on, and a bin
    holds only records of its size. *)
Fixpoint bins_wf (e : Z) (bins : BINS_T) : Prop :=
  match bins with
  | [] => True
  | (k, bin) :: rest =>
      k = 2 ^ e ∧ Forall (λ r, size_ r = k) bin ∧ bins_wf (e + 1) rest
  end.

Lemma bins_wf_app e l1 l2 :
  bins_wf e (l1 ++ l2) ↔ bins_wf e l1 ∧ bins_wf (e + Z.of_nat (length l1)) l2.
Proof.
  revert e. induction l1 as [|[k b] l1 IH]; intros e; simpl.
  - rewrite Z.add_0_r. tauto.
  - rewrite IH. rewrite Nat2Z.inj_succ.
    replace (e + 1 + Z.of_nat (length l1)) with (e + Z.succ (Z.of_nat (length l1))) by lia.
    tauto.
Qed.

Lemma bins_wf_lookup e bins i k b :
  bins_wf e bins → bins !! i = Some (k, b) →
  k = 2 ^ (e + Z.of_nat i) ∧ Forall (λ r, size_ r = k) b.
Proof.
  intros Hwf Hi. rewrite <- (take_drop_middle _ _ _ Hi) in Hwf.
  apply bins_wf_app in Hwf as [_ Hwf]. simpl in Hwf.
  rewrite length_take_le in Hwf by (apply lookup_lt_Some in Hi; lia). tauto.
Qed.

Lemma free_records_app l1 l2 :
  free_records (l1 ++ l2) = free_records l1 ++ free_records l2.
Proof. unfold free_records. by rewrite fmap_app, join_app. Qed.

Lemma free_records_cons k b rest :
  free_records ((k, b) :: rest) = b ++ free_records rest.
Proof. done. Qed.

(** Every record held by well-formed bins has a bin's size. *)
Lemma bins_wf_record_size e bins r :
  bins_wf e bins → r ∈ free_records bins →
  ∃ i : nat, (i < length bins)%nat ∧ size_ r = 2 ^ (e + Z.of_nat i).
Proof.
  intros Hwf Hr. apply list_elem_of_join in Hr as (b & Hrb & Hb).
  apply list_elem_of_fmap in Hb as ([k b'] & -> & Hb).
  apply list_elem_of_lookup in Hb as [i Hi].
  destruct (bins_wf_lookup _ _ _ _ _ Hwf Hi) as [-> Hall].
  exists i. split; [by eapply lookup_lt_Some|].
  rewrite Forall_forall in Hall. by apply Hall.
Qed.

Lemma bins_lower_bound_le k bins : (bins_lower_bound k bins ≤ length bins)%nat.
Proof. induction bins as [|[k' b] rest IH]; simpl; [done|]. case_if; lia. Qed.

(** [lower_bound] finds the smallest bin size that is not less than [k]. *)
Lemma bins_lower_bound_spec k bins i s b :
  bins_lower_bound k bins = i → bins !! i = Some (s, b) →
  k ≤ s ∧ ∀ j s' b', (j < i)%nat → bins !! j = Some (s', b') → s' < k.
Proof.
  revert i. induction bins as [|[k' b'] rest IH]; intros i; simpl; [by intros <-|].
  case_if; intros <-; simpl.
  - intros [= -> ->]. split; [lia|]. intros; lia.
  - intros Hi. destruct (IH _ eq_refl Hi) as [? Hlt]. split; [done|].
    intros [|j] s' b'' Hj; simpl; [intros [= -> ->]; lia|]. apply Hlt. lia.
Qed.

(** When there is no such bin, every bin is too small. *)
Lemma bins_lower_bound_end k bins i s b :
  bins_lower_bound k bins = length bins → bins !! i = Some (s, b) → s < k.
Proof.
  revert i. induction bins as [|[k' b'] rest IH]; intros i; simpl; [done|].
  case_if; [lia|]. intros [= ?]. destruct i as [|i]; simpl; [intros [= -> ->]; lia|].
  by apply IH.
Qed.

(** In well-formed bins an exact match is what [lower_bound] finds. *)
Lemma bins_find_lower_bound e k bins :
  0 ≤ e → bins_wf e bins → (bins_find k bins < length bins)%nat →
  bins_find k bins = bins_lower_bound k bins.
Proof.
  revert e. induction bins as [|[k' b] rest IH]; intros e He; simpl; [lia|].
  intros (-> & _ & Hwf) Hlt.
  destruct (k =? 2 ^ e) eqn:Ek; [by rewrite (proj2 (Z.leb_le _ _)) by lia|].
  destruct (k <=? 2 ^ e) eqn:El.
  - exfalso. assert (Hk : k < 2 ^ (e + 1)) by (rewrite Z.pow_add_r; lia).
    clear Ek El IH. apply Nat.succ_lt_mono in Hlt.
    revert e He Hwf Hk Hlt. induction rest as [|[k' b'] rest IH]; intros e He; simpl; [lia|].
    intros (-> & _ & Hwf) Hk. rewrite (proj2 (Z.eqb_neq _ _)) by lia.
    intros Hlt. apply (IH (e + 1)); try lia; [done|].
    rewrite Z.pow_add_r; lia.
  - f_equal. apply (IH (e + 1)); [lia|done|lia].
Qed.

Lemma bins_find_le k bins : (bins_find k bins ≤ length bins)%nat.
Proof. induction bins as [|[k' b] rest IH]; simpl; [done|]. case_if; lia. Qed.

(** A bin size is found at its own position. *)
Lemma bins_find_pow2 e bins (i : nat) :
  0 ≤ e → bins_wf e bins → (i < length bins)%nat →
  bins_find (2 ^ (e + Z.of_nat i)) bins = i.
Proof.
  revert e i. induction bins as [|[k b] rest IH]; intros e i He; simpl; [lia|].
  intros (-> & _ & Hwf) Hi. destruct i as [|i].
  - by rewrite Z.add_0_r, Z.eqb_refl.
  - replace (e + Z.of_nat (S i)) with (e + 1 + Z.of_nat i) by lia.
    rewrite (proj2 (Z.eqb_neq _ _)); [by rewrite IH by (done || lia)|].
    intros Heq%Z.pow_inj_r; lia.
Qed.
