(* ===== verification/Binner.v ===== *)
(** * The binner

    [memory/binner.hpp]: computes the bin sizes for a heap and hands the heap
    memory out to the bins, the largest chunks first. *)
From S2P Require Import Prelude AddressRecord Bins.

Local Open Scope Z_scope.

(** [constants.hpp]: minimum object alignment of the symmetric heap. *)
Definition ALIGNMENT : Z := 128.

(** ** Bit positions *)

(** The builtins behind [clz_fn]: leading zero bits of a [w]-bit value. *)
Fixpoint clz_fn (w : nat) (v : Z) : Z :=
  match w with
  | O => 0
  | S w' => if Z.testbit v (Z.of_nat w') then 0 else 1 + clz_fn w' v
  end.

(** [find_first_set_one] at a type of [w] bits. *)
Definition find_first_set_one (w : nat) (v : Z) : Z :=
  if v =? 0 then UINT_MAX
  else
    let num_bits := Z.of_nat w in
    let num_leading_zeroes := clz_fn w v in
    let last_zero_bit_position := u64 (num_bits - num_leading_zeroes) in
    let first_one_bit_position := u64 (last_zero_bit_position - 1) in
    u32 first_one_bit_position.

(** ** [class Binner] *)

(** [bins_] points to the bins to build ([None] is the null pointer of the
    default constructor), [heap_] is what is left to hand out. *)
Record Binner := mkBinner {
  bins_ : option BINS_T;
  heap_ : AddressRecord
}.

Definition Binner_default : Binner := mkBinner None AR_default.

(** [std::generate] with the closure that yields [pow(2, position++)]. *)
Fixpoint generate_pow2 (n : nat) (bit_position_align : Z) : list Z :=
  match n with
  | O => []
  | S n' => 2 ^ bit_position_align :: generate_pow2 n' (bit_position_align + 1)
  end.

(** The primary constructor. *)
Definition Binner_new (bins : BINS_T) (heap_ptr heap_size : Z) : result Binner :=
  let bit_position_heap := find_first_set_one 64 heap_size in
  _ ← assert_ (negb (bit_position_heap =? UINT_MAX));
  let bit_position_align := find_first_set_one 32 ALIGNMENT in
  _ ← assert_ (negb (bit_position_align =? UINT_MAX));
  _ ← assert_ (bit_position_align <=? bit_position_heap);
  let difference_in_position := u32 (bit_position_heap - bit_position_align) in
  let vector_size := u32 (difference_in_position + 1) in
  let v := generate_pow2 (Z.to_nat vector_size) bit_position_align in
  Ok (mkBinner (Some (foldl (λ b x, bins_insert x [] b) bins v))
               (AR heap_ptr heap_size)).

(** [Binner::ignore_unaligned_heap_memory]. *)
Definition ignore_unaligned_heap_memory (heap : AddressRecord) : AddressRecord :=
  let heap_ptr := get_address heap in
  let off_by_bytes := heap_ptr `mod` ALIGNMENT in
  if negb (off_by_bytes =? 0) then
    let required_offset := u64 (ALIGNMENT - off_by_bytes) in
    AR (u64 (heap_ptr + required_offset)) (u64 (get_size heap - required_offset))
  else heap.

(** The reverse walk of [assign_heap_chunk]: the first bin, from the largest
    down, whose size the chunk has; a record of that size goes into it. *)
Fixpoint assign_rev (rbins : BINS_T) (chunk size : Z) : option (Z * BINS_T) :=
  match rbins with
  | [] => None
  | (bin_size, bin) :: rest =>
      if bin_size <=? size then
        Some (bin_size, (bin_size, Bin.put bin (AR chunk bin_size)) :: rest)
      else
        match assign_rev rest chunk size with
        | None => None
        | Some (s, rest') => Some (s, (bin_size, bin) :: rest')
        end
  end.

(** [Binner::assign_heap_chunk]. *)
Definition assign_heap_chunk (bins : BINS_T) (address_record : AddressRecord)
    : AddressRecord * BINS_T :=
  let memory_chunk := get_address address_record in
  let memory_chunk_size := get_size address_record in
  match assign_rev (rev bins) memory_chunk memory_chunk_size with
  | None => (AR nullptr 0, bins)
  | Some (bin_size, rbins) =>
      (AR (u64 (memory_chunk + bin_size)) (u64 (memory_chunk_size - bin_size)),
       rev rbins)
  end.

(** The loop of [Binner::assign_heap_memory_to_bins]. *)
Fixpoint assign_loop (fuel : nat) (bins : BINS_T) (chunk : AddressRecord)
    : result BINS_T :=
  if get_address chunk =? nullptr then Ok bins
  else
    match fuel with
    | O => Fail OutOfFuel
    | S fuel' =>
        let '(chunk', bins') := assign_heap_chunk bins chunk in
        assign_loop fuel' bins' chunk'
    end.

(** [Binner::assign_heap_memory_to_bins]: every bin takes at most one chunk,
    and one more round finds that nothing fits, so the number of bins plus one
    bounds the rounds. *)
Definition assign_heap_memory_to_bins (bins : BINS_T) (heap : AddressRecord)
    : result BINS_T :=
  assign_loop (S (length bins)) bins heap.

(** [Binner::assign_heap_to_bins]. *)
Definition assign_heap_to_bins (b : Binner) : result Binner :=
  match bins_ b with
  | None => Fail AssertFailed
  | Some bins =>
      _ ← assert_ (negb (get_address (heap_ b) =? nullptr));
      _ ← assert_ (negb (get_size (heap_ b) =? 0));
      let heap := ignore_unaligned_heap_memory (heap_ b) in
      bins' ← assign_heap_memory_to_bins bins heap;
      Ok (mkBinner (Some bins') heap)
  end.

(** ** Bit positions: lemmas *)

Lemma clz_fn_spec w v :
  0 < v < 2 ^ Z.of_nat w → clz_fn w v = Z.of_nat w - 1 - Z.log2 v.
Proof.
  induction w as [|w IH]; [simpl; lia|].
  intros [Hv Hlt]. cbn [clz_fn]. destruct (Z.testbit v (Z.of_nat w)) eqn:Hb.
  - assert (Z.log2 v < Z.of_nat (S w)) by (apply Z.log2_lt_pow2; lia).
    assert (¬ Z.log2 v < Z.of_nat w); [|lia].
    intros Hl. rewrite Z.bits_above_log2 in Hb by lia. done.
  - assert (Z.log2 v < Z.of_nat (S w)) by (apply Z.log2_lt_pow2; lia).
    assert (Z.log2 v ≠ Z.of_nat w) by (intros He; rewrite <- He, Z.bit_log2 in Hb; done).
    rewrite IH; [lia|]. split; [done|]. apply Z.log2_lt_cancel.
    rewrite Z.log2_pow2; lia.
Qed.

Lemma find_first_set_one_log2 (w : nat) v :
  (w ≤ 64)%nat → 0 < v < 2 ^ Z.of_nat w → find_first_set_one w v = Z.log2 v.
Proof.
  intros Hw Hv. unfold find_first_set_one.
  rewrite (proj2 (Z.eqb_neq v 0)), (clz_fn_spec w v) by lia.
  assert (Z.log2 v < Z.of_nat w) by (apply Z.log2_lt_pow2; lia).
  pose proof (Z.log2_nonneg v).
  rewrite (uwrap_small 64 (_ - (_ - _))), (uwrap_small 64 (_ - 1)), uwrap_small by lia. lia.
Qed.

(** ** The bins of a new binner *)

Definition empty_bins (n : nat) (e : Z) : BINS_T :=
  (λ s, (s, [])) <$> generate_pow2 n e.

Lemma length_generate_pow2 n e : length (generate_pow2 n e) = n.
Proof. revert e. induction n; intros; simpl; auto. Qed.

Lemma generate_pow2_snoc n e :
  generate_pow2 (S n) e = generate_pow2 n e ++ [2 ^ (e + Z.of_nat n)].
Proof.
  revert e. induction n as [|n IH]; intros e.
  - simpl. by rewrite Z.add_0_r.
  - change (generate_pow2 (S (S n)) e) with (2 ^ e :: generate_pow2 (S n) (e + 1)).
    rewrite IH. replace (e + 1 + Z.of_nat n) with (e + Z.of_nat (S n)) by lia. done.
Qed.

Lemma empty_bins_wf n e : bins_wf e (empty_bins n e).
Proof. revert e. induction n; intros; simpl; eauto. Qed.

Lemma empty_bins_free n e : free_records (empty_bins n e) = [].
Proof. revert e. induction n as [|n IH]; intros e; [done|]. apply IH. Qed.

Lemma bins_insert_snoc e k b bins :
  0 ≤ e → bins_wf e bins → 2 ^ (e + Z.of_nat (length bins)) ≤ k →
  bins_insert k b bins = bins ++ [(k, b)].
Proof.
  revert e. induction bins as [|[k' b'] rest IH]; intros e He; simpl; [done|].
  intros (-> & _ & Hwf) Hk.
  assert (2 ^ e < 2 ^ (e + Z.of_nat (S (length rest)))) by (apply Z.pow_lt_mono_r; lia).
  rewrite (proj2 (Z.ltb_ge _ _)), (proj2 (Z.eqb_neq _ _)) by lia.
  f_equal. apply (IH (e + 1)); [lia|done|].
  replace (e + 1 + Z.of_nat (length rest)) with (e + Z.of_nat (S (length rest))) by lia.
  done.
Qed.

Lemma build_bins n e :
  0 ≤ e → foldl (λ b x, bins_insert x [] b) [] (generate_pow2 n e) = empty_bins n e.
Proof.
  intros He. induction n as [|n IH]; [done|].
  unfold empty_bins. rewrite !generate_pow2_snoc, foldl_snoc, IH, fmap_app. simpl.
  apply (bins_insert_snoc e); [done|apply empty_bins_wf|].
  unfold empty_bins. by rewrite length_fmap, length_generate_pow2.
Qed.

(** The constructor succeeds for every heap of at least [ALIGNMENT] bytes and
    builds one bin per power of two from [ALIGNMENT] up to the heap size. *)
Lemma Binner_new_spec ptr size :
  ALIGNMENT ≤ size < 2 ^ 64 →
  Binner_new [] ptr size =
    Ok (mkBinner (Some (empty_bins (Z.to_nat (Z.log2 size - 6)) 7)) (AR ptr size)).
Proof.
  unfold ALIGNMENT. intros Hs.
  unfold Binner_new. rewrite find_first_set_one_log2 by (simpl; lia).
  change (find_first_set_one 32 ALIGNMENT) with 7.
  assert (7 ≤ Z.log2 size) by (apply Z.log2_le_pow2; lia).
  assert (Z.log2 size < 64) by (apply Z.log2_lt_pow2; lia).
  unfold UINT_MAX. rewrite !(proj2 (Z.eqb_neq _ _)), (proj2 (Z.leb_le _ _)) by lia.
  simpl. rewrite (uwrap_small 32 (_ - _)), uwrap_small by lia.
  rewrite build_bins by lia. do 3 f_equal. f_equal. lia.
Qed.

(** A heap of less than [ALIGNMENT] bytes trips an assertion. *)
Lemma Binner_new_small bins ptr size :
  0 ≤ size < ALIGNMENT → Binner_new bins ptr size = Fail AssertFailed.
Proof.
  unfold ALIGNMENT. intros Hs. unfold Binner_new.
  destruct (decide (size = 0)) as [->|Hz]; [done|].
  rewrite find_first_set_one_log2 by (simpl; lia).
  change (find_first_set_one 32 ALIGNMENT) with 7.
  assert (Z.log2 size < 7) by (apply Z.log2_lt_pow2; lia).
  pose proof (Z.log2_nonneg size).
  unfold UINT_MAX. rewrite !(proj2 (Z.eqb_neq _ _)) by lia. simpl.
  by rewrite (proj2 (Z.leb_gt _ _)) by lia.
Qed.

(** ** Handing out the heap *)

Lemma assign_rev_Some rb chunk size k rb' :
  assign_rev rb chunk size = Some (k, rb') →
  ∃ r1 b r2, rb = r1 ++ (k, b) :: r2 ∧ rb' = r1 ++ (k, AR chunk k :: b) :: r2 ∧
    k ≤ size ∧ Forall (λ p, size < p.1) r1.
Proof.
  revert k rb'. induction rb as [|[s b] rest IH]; intros k rb'; simpl; [done|].
  case_if; [intros [= <- <-]|].
  - exists [], b, rest. split_and!; [done..|lia|done].
  - destruct (assign_rev rest chunk size) as [[s' rest']|]; [|done].
    intros [= <- <-]. destruct (IH _ _ eq_refl) as (r1 & b' & r2 & -> & -> & ? & ?).
    exists ((s, b) :: r1), b', r2. split_and!; [done..|]. constructor; [simpl; lia|done].
Qed.

Lemma assign_rev_None rb chunk size :
  assign_rev rb chunk size = None → Forall (λ p, size < p.1) rb.
Proof.
  induction rb as [|[s b] rest IH]; simpl; [done|]. case_if; [done|].
  destruct (assign_rev rest chunk size) as [[]|]; [done|].
  intros _. constructor; [simpl; lia|auto].
Qed.

(** One round: nothing fits, or the largest bin that fits takes a chunk. *)
Lemma assign_heap_chunk_spec bins chunk e :
  0 ≤ e → bins_wf e bins → 0 ≤ size_ chunk < 2 ^ (e + Z.of_nat (length bins)) →
  (size_ chunk < 2 ^ e ∧ assign_heap_chunk bins chunk = (AR nullptr 0, bins)) ∨
  (∃ l1 b l2 k, bins = l1 ++ (k, b) :: l2 ∧ k = 2 ^ (e + Z.of_nat (length l1)) ∧
     k ≤ size_ chunk < 2 * k ∧
     assign_heap_chunk bins chunk =
       (AR (u64 (address_ chunk + k)) (u64 (size_ chunk - k)),
        l1 ++ (k, AR (address_ chunk) k :: b) :: l2)).
Proof.
  intros He Hwf Hs. unfold assign_heap_chunk, get_address, get_size.
  destruct (assign_rev _ _ _) as [[k rb']|] eqn:Ha.
  - right. apply assign_rev_Some in Ha as (r1 & b & r2 & Hrev & -> & Hk & Hr1).
    apply (f_equal (@rev _)) in Hrev. rewrite rev_involutive, rev_app_distr in Hrev.
    simpl in Hrev. rewrite <- app_assoc in Hrev. simpl in Hrev. subst bins.
    exists (rev r2), b, (rev r1), k.
    rewrite rev_app_distr. simpl. rewrite <- app_assoc. simpl.
    apply bins_wf_app in Hwf as [_ (-> & _ & Hwf)].
    split_and!; try done. rewrite length_app in Hs. simpl in Hs.
    rewrite <- Z.pow_succ_r by lia.
    destruct (rev r1) as [|[k' b'] l2] eqn:Er1; simpl in *.
    + eapply Z.lt_le_trans; [apply Hs|]. apply Z.pow_le_mono_r; lia.
    + destruct Hwf as [-> _]. rewrite Forall_forall in Hr1.
      assert ((2 ^ (e + Z.of_nat (length (rev r2)) + 1), b') ∈ r1) as Hin.
      { rewrite list_elem_of_In, in_rev, Er1. by left. }
      apply Hr1 in Hin. simpl in Hin.
      replace (Z.succ (e + Z.of_nat (length (rev r2)))) with
        (e + Z.of_nat (length (rev r2)) + 1) by lia. done.
  - left. apply assign_rev_None in Ha. split; [|done].
    destruct bins as [|[k b] rest]; [simpl in Hs; rewrite Z.add_0_r in Hs; lia|].
    destruct Hwf as [-> _]. rewrite Forall_forall in Ha.
    apply (Ha (2 ^ e, b)). rewrite list_elem_of_In, <- in_rev. by left.
Qed.

(** A block the allocator may hand out: real, aligned, and inside the arena. *)
Definition arena_block (arena r : AddressRecord) : Prop :=
  real_block r ∧ address_ r `mod` ALIGNMENT = 0 ∧ inside r arena.

Lemma arena_block_weaken a a' r : inside a a' → arena_block a r → arena_block a' r.
Proof. intros ? (?&?&?). split_and!; eauto with shmem. Qed.

Lemma pow2_align i : 2 ^ (7 + Z.of_nat i) = 2 ^ Z.of_nat i * ALIGNMENT.
Proof. unfold ALIGNMENT. rewrite Z.pow_add_r by lia. lia. Qed.

Lemma assign_loop_spec fuel m bins chunk :
  bins_wf 7 bins → (m ≤ length bins)%nat → (m < fuel)%nat →
  0 < address_ chunk → address_ chunk + size_ chunk < 2 ^ 64 →
  address_ chunk `mod` ALIGNMENT = 0 → 0 ≤ size_ chunk < 2 ^ (7 + Z.of_nat m) →
  returns (assign_loop fuel bins chunk) (λ bins',
    bins_wf 7 bins' ∧ length bins' = length bins ∧
    ∃ new, free_records bins' ≡ₚ new ++ free_records bins ∧
      Forall (arena_block chunk) new ∧ pairwise disj new ∧
      total new = ALIGNMENT * (size_ chunk / ALIGNMENT)).
Proof.
  revert m bins chunk. induction fuel as [|fuel IH]; intros m bins chunk Hwf Hm Hf; [lia|].
  intros Ha Hend Hal Hs. cbn [assign_loop]. unfold get_address, nullptr at 1.
  rewrite (proj2 (Z.eqb_neq (address_ chunk) 0)) by lia.
  assert (2 ^ (7 + Z.of_nat m) ≤ 2 ^ (7 + Z.of_nat (length bins)))
    by (apply Z.pow_le_mono_r; lia).
  destruct (assign_heap_chunk_spec bins chunk 7) as
    [[Hlt ->]|(l1 & b & l2 & k & -> & Hk & Hks & ->)]; [lia|done|lia| |].
  - replace (assign_loop fuel bins (AR nullptr 0)) with (Ok bins) by (by destruct fuel).
    split_and!; [done..|]. exists []. split_and!; try done.
    unfold ALIGNMENT. simpl. rewrite Z.div_small by lia. lia.
  - rewrite pow2_align in Hk.
    assert (0 < 2 ^ Z.of_nat (length l1)) by lia.
    assert (length l1 < m)%nat as Hl.
    { apply Nat2Z.inj_lt. enough (7 + Z.of_nat (length l1) < 7 + Z.of_nat m) by lia.
      apply (Z.pow_lt_mono_r_iff 2); [lia..|]. rewrite pow2_align. lia. }
    unfold ALIGNMENT in *. rewrite !uwrap_small by lia.
    eapply returns_mono; [apply (IH (length l1)); simpl|].
    + apply bins_wf_app in Hwf as [H1 (Hk' & H2 & H3)]. apply bins_wf_app.
      split; [done|]. split_and!; [done| |done]. by constructor.
    + rewrite !length_app; simpl. lia.
    + lia.
    + lia.
    + lia.
    + rewrite Hk. rewrite Z.mul_comm, Z.add_comm, Z.mul_comm, Z.add_comm.
      rewrite Z.mod_add by lia. done.
    + rewrite pow2_align. unfold ALIGNMENT. lia.
    + simpl. intros bins' (Hwf' & Hlen & new & Hp & Hall & Hdis & Htot).
      rewrite !length_app in Hlen |- *; simpl in *.
      split_and!; [done..|]. exists (AR (address_ chunk) k :: new).
      split_and!.
      * rewrite Hp, !free_records_app, !free_records_cons. simpl.
        rewrite <- Permutation_middle, <- Permutation_middle. done.
      * constructor.
        { unfold arena_block, real_block, inside, ALIGNMENT. simpl. split_and!; lia. }
        eapply Forall_impl; [apply Hall|]. intros r. apply arena_block_weaken.
        unfold inside. simpl. lia.
      * simpl. split; [|done]. eapply Forall_impl; [apply Hall|].
        intros r (_ & _ & Hin). unfold inside, disj in *. simpl in *. lia.
      * simpl. rewrite Htot, Hk.
        replace (size_ chunk - 2 ^ Z.of_nat (length l1) * 128) with
          (size_ chunk + (- 2 ^ Z.of_nat (length l1)) * 128) by lia.
        rewrite Z.div_add by lia. lia.
Qed.

Lemma ignore_unaligned_spec ptr size :
  0 < ptr → ALIGNMENT ≤ size → ptr + size < 2 ^ 64 →
  let pad := (- ptr) `mod` ALIGNMENT in
  ignore_unaligned_heap_memory (AR ptr size) = AR (ptr + pad) (size - pad) ∧
  (ptr + pad) `mod` ALIGNMENT = 0 ∧ 0 ≤ pad < ALIGNMENT.
Proof.
  unfold ignore_unaligned_heap_memory, ALIGNMENT, get_address, get_size. simpl.
  intros Hp Hs Hend.
  pose proof (Z.mod_pos_bound ptr 128 ltac:(lia)).
  destruct (ptr `mod` 128 =? 0) eqn:E; simpl.
  - rewrite Z.mod_opp_l_z by lia. rewrite Z.add_0_r, Z.sub_0_r. split_and!; [done|lia..].
  - rewrite Z.mod_opp_l_nz by lia. rewrite !uwrap_small by (rewrite ?uwrap_small; lia).
    split_and!; [done| |lia..].
    rewrite Z.add_mod, (Z.mod_small (128 - _)) by lia.
    replace (ptr `mod` 128 + (128 - ptr `mod` 128)) with 128 by lia. done.
Qed.

(** Building the bins and handing the heap to them succeeds for every heap of
    at least [ALIGNMENT] bytes.  The records are disjoint aligned blocks of the
    heap, and together they are all of it but for the bytes before the first
    aligned address and a remainder of less than [ALIGNMENT] bytes. *)
Lemma binner_spec ptr size :
  0 < ptr → ALIGNMENT ≤ size → ptr + size < 2 ^ 64 →
  let pad := (- ptr) `mod` ALIGNMENT in
  returns (b ← Binner_new [] ptr size; assign_heap_to_bins b) (λ b',
    ∃ bins, bins_ b' = Some bins ∧ bins_wf 7 bins ∧
      length bins = Z.to_nat (Z.log2 size - 6) ∧
      Forall (arena_block (AR ptr size)) (free_records bins) ∧
      pairwise disj (free_records bins) ∧
      total (free_records bins) = ALIGNMENT * ((size - pad) / ALIGNMENT)).
Proof.
  intros Hp Hs Hend. cbn zeta.
  destruct (ignore_unaligned_spec ptr size Hp Hs Hend) as (Hig & Hal & Hpad).
  unfold ALIGNMENT in Hs.
  rewrite Binner_new_spec by (unfold ALIGNMENT; lia). simpl.
  unfold assign_heap_to_bins. simpl. unfold get_address, get_size, nullptr. simpl.
  rewrite !(proj2 (Z.eqb_neq _ 0)) by lia. simpl. rewrite Hig.
  set (n := Z.to_nat (Z.log2 size - 6)). unfold assign_heap_memory_to_bins.
  assert (length (empty_bins n 7) = n) as Hn
    by (unfold empty_bins; by rewrite length_fmap, length_generate_pow2).
  assert (7 ≤ Z.log2 size) by (apply Z.log2_le_pow2; lia).
  eapply returns_bind; [apply (assign_loop_spec _ n)|]; simpl; try lia.
  - apply empty_bins_wf.
  - unfold ALIGNMENT in *. replace (7 + Z.of_nat n) with (Z.succ (Z.log2 size)) by lia.
    pose proof (Z.log2_spec size). lia.
  - intros bins (Hwf & Hlen & new & Hnew & Hall & Hdis & Htot).
    rewrite empty_bins_free, app_nil_r in Hnew.
    exists bins. split_and!; [done..|congruence| |by rewrite Hnew|by rewrite Hnew].
    rewrite Hnew. eapply Forall_impl; [apply Hall|]. intros r.
    apply arena_block_weaken. unfold inside. simpl. lia.
Qed.
