(* ===== verification/Pow2Bins.v ===== *)
(** * The power-of-two allocator

    [memory/pow2_bins.hpp]: an allocation strategy that keeps free records in
    bins of power-of-two sizes, splits larger records when a bin runs empty,
    and remembers the records it has handed out. *)
From S2P Require Import Prelude AddressRecord Bins Binner.

Local Open Scope Z_scope.

(** [class Pow2Bins].  The [binner_] member is used by the constructor only
    and keeps no state that a later operation reads. *)
Record Pow2Bins := mkPow2Bins {
  p2_bins : BINS_T;
  proffered_ : gmap Z AddressRecord
}.

(** The primary constructor of [Pow2Bins], for the heap memory's pointer and size. *)
Definition Pow2Bins_new (heap_ptr heap_size : Z) : result Pow2Bins :=
  binner_ ← Binner_new [] heap_ptr heap_size;
  binner_ ← assign_heap_to_bins binner_;
  bins ← must (bins_ binner_);
  Ok (mkPow2Bins bins ∅).

(** ** Operations on an iterator

    A forward iterator [it] is represented by the bins from [it] to the end;
    [std::next] is the tail. *)

(** [Pow2Bins::split_larger_bin]. *)
Fixpoint split_larger_bin (it : BINS_T) : result BINS_T :=
  match it with
  | [] => Fail AssertFailed
  | (k, bin) :: next =>
      match next with
      | [] => Ok it
      | (_, next_bin) :: _ =>
          next' ← (if Bin.empty next_bin then split_larger_bin next else Ok next);
          match next' with
          | [] => Fail BadAccess
          | (k', next_bin') :: rest =>
              if Bin.empty next_bin' then Ok ((k, bin) :: next')
              else
                '(record, next_bin'') ← Bin.get next_bin';
                '(smaller, larger) ← split record;
                Ok ((k, Bin.put (Bin.put bin larger) smaller)
                    :: (k', next_bin'') :: rest)
          end
      end
  end.

(** [Pow2Bins::try_to_ensure_bin_has_records]. *)
Definition try_to_ensure_bin_has_records (it : BINS_T) : result BINS_T :=
  match it with
  | [] => Fail BadAccess
  | (_, bin) :: _ =>
      if negb (Bin.empty bin) then Ok it else split_larger_bin it
  end.

(** [Pow2Bins::retrieve_record_from_bin]. *)
Definition retrieve_record_from_bin (it : BINS_T)
    : result (AddressRecord * BINS_T) :=
  it' ← try_to_ensure_bin_has_records it;
  match it' with
  | [] => Fail BadAccess
  | (k, bin) :: rest =>
      if Bin.empty bin then Ok (AR_default, it')
      else
        '(record, bin') ← Bin.get bin;
        Ok (record, (k, bin') :: rest)
  end.

(** ** Operations on the allocator *)

(** [Pow2Bins::emplace_in_proffered]. *)
Definition emplace_in_proffered (st : Pow2Bins) (record : AddressRecord)
    : result Pow2Bins :=
  _ ← assert_ (negb (get_address record =? nullptr));
  Ok (mkPow2Bins (p2_bins st) (<[get_address record := record]> (proffered_ st))).

(** [Pow2Bins::retrieve_from_proffered]. *)
Definition retrieve_from_proffered (st : Pow2Bins) (ptr : Z)
    : result (AddressRecord * Pow2Bins) :=
  _ ← assert_ (negb (ptr =? nullptr));
  match proffered_ st !! ptr with
  | None => Fail AssertFailed
  | Some record =>
      Ok (record, mkPow2Bins (p2_bins st) (delete ptr (proffered_ st)))
  end.

(** [Pow2Bins::emplace_record_in_bin]. *)
Definition emplace_record_in_bin (st : Pow2Bins) (record : AddressRecord)
    : result Pow2Bins :=
  let record_size := get_size record in
  let bins_it := bins_find record_size (p2_bins st) in
  _ ← assert_ (negb (bins_it =? length (p2_bins st))%nat);
  Ok (mkPow2Bins (alter (λ '(k, bin), (k, Bin.put bin record)) bins_it (p2_bins st))
                 (proffered_ st)).

(** The closure [do_request_using] of [Pow2Bins::alloc]: [p] is the current
    value of [*ptr], and the new one is returned. *)
Definition do_request_using (st : Pow2Bins) (p : Z) (it : nat)
    : result (Z * Pow2Bins) :=
  if (it =? length (p2_bins st))%nat then Ok (p, st)
  else
    '(record, it') ← retrieve_record_from_bin (drop it (p2_bins st));
    let st1 := mkPow2Bins (take it (p2_bins st) ++ it') (proffered_ st) in
    st2 ← (if negb (get_address record =? nullptr)
           then emplace_in_proffered st1 record else Ok st1);
    Ok (get_address record, st2).

(** [Pow2Bins::alloc]: [ptr] is the address of the caller's handle, and the
    value stored there is returned. *)
Definition alloc (st : Pow2Bins) (ptr request_size : Z) : result (Z * Pow2Bins) :=
  _ ← assert_ (negb (ptr =? nullptr));
  let p := nullptr in
  if request_size =? 0 then Ok (p, st)
  else
    '(p, st) ← do_request_using st p (bins_find request_size (p2_bins st));
    if negb (p =? nullptr) then Ok (p, st)
    else do_request_using st p (bins_lower_bound request_size (p2_bins st)).

(** [Pow2Bins::free]. *)
Definition free (st : Pow2Bins) (ptr : Z) : result Pow2Bins :=
  '(record, st) ← retrieve_from_proffered st ptr;
  emplace_record_in_bin st record.

(** [Pow2Bins::amount_proffered]. *)
Definition amount_proffered (st : Pow2Bins) : Z :=
  map_fold (λ _ record size, u64 (size + get_size record)) 0 (proffered_ st).

(** ** Splitting refines a collection of blocks

    [refines l l']: [l'] comes from [l] by cutting blocks up, which keeps the
    total, keeps every block inside any arena that held the old ones, and
    keeps disjointness, whatever other blocks are around. *)
Definition refines (l l' : list AddressRecord) : Prop :=
  total l' = total l ∧
  (∀ arena, Forall (arena_block arena) l → Forall (arena_block arena) l') ∧
  (∀ frame, pairwise disj (l ++ frame) → pairwise disj (l' ++ frame)).

#[export] Instance refines_refl : Reflexive refines.
Proof. done. Qed.

#[export] Instance refines_trans : Transitive refines.
Proof. intros l1 l2 l3 (?&?&?) (?&?&?). split_and!; [congruence|naive_solver..]. Qed.

#[export] Instance refines_perm : Proper ((≡ₚ) ==> (≡ₚ) ==> iff) refines.
Proof.
  assert (∀ l1 l2 k1 k2, l1 ≡ₚ l2 → k1 ≡ₚ k2 → refines l1 k1 → refines l2 k2) as H.
  { intros l1 l2 k1 k2 Hl Hk (Ht & Ha & Hd). split_and!.
    - by rewrite <- Hl, <- Hk.
    - intros a. rewrite <- Hl, <- Hk. auto.
    - intros f. rewrite <- Hl, <- Hk. auto. }
  intros l1 l2 Hl k1 k2 Hk. split; apply H; done.
Qed.

Lemma refines_app l l' k : refines l l' → refines (l ++ k) (l' ++ k).
Proof.
  intros (Ht & Ha & Hd). split_and!.
  - rewrite !total_app. lia.
  - intros a. rewrite !Forall_app. naive_solver.
  - intros f. rewrite <- !app_assoc. auto.
Qed.

Lemma refines_app_l l l' k : refines l l' → refines (k ++ l) (k ++ l').
Proof. rewrite !(Permutation_app_comm k). apply refines_app. Qed.

Lemma refines_split r r1 r2 :
  real_block r → size_ r `mod` 256 = 0 → split r = Ok (r1, r2) →
  refines [r] [r1; r2].
Proof.
  intros Hr H256 Hsp.
  assert (size_ r `mod` 2 = 0) as H2.
  { rewrite (Z.div_mod (size_ r) 256), H256 by lia.
    rewrite Z.add_0_r. replace (256 * (size_ r / 256)) with (size_ r / 256 * 128 * 2) by lia.
    apply Z.mod_mul. lia. }
  pose proof (split_spec r Hr H2) as Hs. rewrite Hsp in Hs.
  destruct Hs as (E1 & E2 & Hr1 & Hr2 & H12 & Hi1 & Hi2 & Hsz).
  assert (size_ r / 2 = 128 * (size_ r / 256)) as Hhalf
    by (rewrite (Z.div_mod (size_ r) 256) at 1 by lia; rewrite H256;
        replace (256 * (size_ r / 256) + 0) with (128 * (size_ r / 256) * 2) by lia;
        apply Z.div_mul; lia).
  split_and!.
  - simpl. lia.
  - intros a. rewrite !Forall_cons. intros [(_ & Hal & Hin) _].
    split_and!; [..|constructor]; (split_and!; [done| |by eauto with shmem]);
      subst; simpl; [done|].
    unfold ALIGNMENT in *. rewrite Hhalf, (Z.mul_comm 128), Z.mod_add by lia. done.
  - intros f. simpl. intros [Hf Hp]. split_and!; [|..|done].
    + constructor; [done|]. eapply Forall_impl; [done|]. eauto with shmem.
    + eapply Forall_impl; [done|]. eauto with shmem.
Qed.

(** ** Iterator operations: specifications *)

Section iterator.
Context (arena : AddressRecord).

(** Bins from exponent [e] on whose records are blocks of the arena. *)
Definition good_bins (e : Z) (bins : BINS_T) : Prop :=
  bins_wf e bins ∧ Forall (arena_block arena) (free_records bins).

(** [bins'] has the shape of [bins], and its records refine those of [bins]
    with the records [out] taken away. *)
Definition evolves (e : Z) (bins : BINS_T) (out : list AddressRecord)
    (bins' : BINS_T) : Prop :=
  bins_wf e bins' ∧ length bins' = length bins ∧
  refines (free_records bins) (out ++ free_records bins').

Definition head_bin (bins : BINS_T) : BIN_T :=
  match bins with [] => [] | (_, b) :: _ => b end.

Lemma good_bins_cons e k b rest :
  good_bins e ((k, b) :: rest) ↔
  k = 2 ^ e ∧ Forall (λ r, size_ r = 2 ^ e ∧ arena_block arena r) b ∧
  good_bins (e + 1) rest.
Proof.
  unfold good_bins. simpl. rewrite free_records_cons, Forall_app, Forall_and.
  naive_solver.
Qed.

Lemma evolves_good e bins out bins' :
  good_bins e bins → evolves e bins out bins' →
  Forall (arena_block arena) out ∧ good_bins e bins'.
Proof.
  intros [_ Ha] (Hwf & _ & _ & Har & _). specialize (Har arena Ha).
  rewrite Forall_app in Har. unfold good_bins. naive_solver.
Qed.

Lemma pow2_mod_256 e : 8 ≤ e → 2 ^ e `mod` 256 = 0.
Proof.
  intros. replace e with (e - 8 + 8) by lia. rewrite Z.pow_add_r by lia.
  apply Z.mod_mul. done.
Qed.

(** Splitting a record one bin up gives two records of this bin's size. *)
Lemma split_record e r :
  7 ≤ e → size_ r = 2 ^ (e + 1) → arena_block arena r →
  ∃ r1 r2, split r = Ok (r1, r2) ∧ size_ r1 = 2 ^ e ∧ size_ r2 = 2 ^ e ∧
    refines [r] [r1; r2].
Proof.
  intros He Hrs [Hreal _].
  assert (size_ r `mod` 256 = 0) as H256 by (rewrite Hrs; apply pow2_mod_256; lia).
  assert (size_ r / 2 = 2 ^ e) as Hhalf.
  { rewrite Hrs, Z.pow_add_r by lia. apply Z.div_mul. lia. }
  assert (size_ r `mod` 2 = 0) as H2.
  { rewrite Hrs, Z.pow_add_r, Z.pow_1_r by lia. apply Z.mod_mul. lia. }
  pose proof (split_spec r Hreal H2) as Hsp.
  destruct (split r) as [[r1 r2]|] eqn:Esp; [|done].
  exists r1, r2. destruct Hsp as (-> & -> & _). split_and!; try done.
  by apply refines_split.
Qed.

(** Moving the two halves of a record one bin down. *)
Lemma evolves_pull_down e k b next k' r b' rest r1 r2 :
  bins_wf e ((k, b) :: next) → evolves (e + 1) next [] ((k', r :: b') :: rest) →
  size_ r1 = 2 ^ e → size_ r2 = 2 ^ e → refines [r] [r1; r2] →
  evolves e ((k, b) :: next) [] ((k, r1 :: r2 :: b) :: (k', b') :: rest).
Proof.
  intros (Hk & Hb & _) (Hwf & Hlen & Href) H1 H2 Hsp. simpl in Hwf, Hlen.
  destruct Hwf as (Hk' & [_ Hb']%Forall_cons & Hrest).
  split_and!.
  - simpl. split_and!; [done| |done..]. repeat constructor; [congruence..|done].
  - simpl. by rewrite <- Hlen.
  - rewrite !free_records_cons. simpl in *. rewrite free_records_cons in Href.
    assert (refines (free_records next) (r1 :: r2 :: b' ++ free_records rest)) as Hr.
    { rewrite Href. by apply (refines_app [r] [r1; r2] (b' ++ free_records rest)). }
    apply (refines_app_l _ _ b) in Hr. by rewrite <- !Permutation_middle in Hr.
Qed.

Lemma evolves_refl e bins : bins_wf e bins → evolves e bins [] bins.
Proof. done. Qed.

(** Splitting never trips an assertion; afterwards the bin at the iterator
    is empty only if there was nothing to split, and then nothing changed. *)
Lemma split_larger_bin_spec e bins :
  7 ≤ e → bins ≠ [] → good_bins e bins →
  returns (split_larger_bin bins) (λ bins',
    evolves e bins [] bins' ∧
    (head_bin bins' = [] → free_records bins = []) ∧
    (free_records bins = [] → bins' = bins)).
Proof.
  revert e. induction bins as [|[k b] next IH]; intros e He Hne Hg; [done|].
  assert (bins_wf e ((k, b) :: next)) as Hwf by apply Hg.
  apply good_bins_cons in Hg as (_ & _ & Hgn).
  destruct next as [|[k1 b1] next'].
  { simpl. split_and!; [by apply evolves_refl|by intros ->|done]. }
  cbn [split_larger_bin]. set (next := (k1, b1) :: next') in *.
  eapply (returns_bind _ _ (λ next2, evolves (e + 1) next [] next2 ∧
    (head_bin next2 = [] → free_records next = []) ∧
    (free_records next = [] → next2 = next))).
  { destruct (Bin.empty b1) eqn:Eb; [apply IH; [lia|done|done]|].
    split_and!; [apply evolves_refl, Hgn| |done].
    simpl. by intros ->. }
  intros next2 (Hev & Hemp & Hsame).
  destruct (evolves_good _ _ _ _ Hgn Hev) as [_ Hg2].
  destruct next2 as [|[k' [|r b']] rest]; [by destruct Hev as (_ & ? & _)|..]; simpl.
  - specialize (Hemp eq_refl). rewrite (Hsame Hemp).
    split_and!; [by apply evolves_refl|by intros ->|done].
  - apply good_bins_cons in Hg2 as (_ & [[Hrs Hra] _]%Forall_cons & _).
    destruct (split_record e r He Hrs Hra) as (r1 & r2 & -> & Hr1 & Hr2 & Href).
    simpl. split_and!; [by eapply evolves_pull_down|done|].
    intros [_ Hnil]%app_eq_nil. specialize (Hsame Hnil).
    change (free_records next = []) in Hnil. by rewrite <- Hsame in Hnil.
Qed.

(** Taking the top record of the bin at the iterator. *)
Lemma evolves_take e k r b rest bins :
  evolves e bins [] ((k, r :: b) :: rest) → evolves e bins [r] ((k, b) :: rest).
Proof.
  intros ((Hk & [_ Hb]%Forall_cons & Hrest) & Hlen & Href). by split_and!.
Qed.

Lemma retrieve_record_spec e bins :
  7 ≤ e → bins ≠ [] → good_bins e bins →
  returns (retrieve_record_from_bin bins) (λ '(r, bins'),
    (r = AR_default ∧ bins' = bins ∧ free_records bins = []) ∨
    (size_ r = 2 ^ e ∧ evolves e bins [r] bins')).
Proof.
  intros He Hne Hg. unfold retrieve_record_from_bin.
  eapply (returns_bind _ _ (λ bins', evolves e bins [] bins' ∧
    (head_bin bins' = [] → free_records bins = []) ∧
    (free_records bins = [] → bins' = bins))).
  - unfold try_to_ensure_bin_has_records. destruct bins as [|[k b] rest]; [done|].
    destruct b as [|r b]; [by apply split_larger_bin_spec|].
    simpl. split_and!; [apply evolves_refl, Hg|done|done].
  - intros bins' (Hev & Hemp & Hsame).
    destruct (evolves_good _ _ _ _ Hg Hev) as [_ Hg'].
    destruct bins' as [|[k [|r b]] rest]; [by destruct Hev as (_ & ? & _), bins|..]; simpl.
    + left. specialize (Hemp eq_refl). rewrite Hsame by done. done.
    + right. apply good_bins_cons in Hg' as (_ & [[Hrs _] _]%Forall_cons & _).
      split; [done|]. by apply evolves_take.
Qed.
End iterator.

(** ** The invariant of the allocator *)

(** Every record the allocator knows: handed out or free. *)
Definition records (st : Pow2Bins) : list AddressRecord :=
  (map_to_list (proffered_ st)).*2 ++ free_records (p2_bins st).

(** [wf arena st]: the bins are well-formed; a record handed out is filed under
    its address and has the size of a bin; all records are aligned blocks of
    the arena, pairwise disjoint, and hold no more bytes than the arena. *)
Record wf (arena : AddressRecord) (st : Pow2Bins) : Prop := {
  wf_bins : bins_wf 7 (p2_bins st);
  wf_proffered : map_Forall (λ p r, address_ r = p ∧
    ∃ i : nat, (i < length (p2_bins st))%nat ∧ size_ r = 2 ^ (7 + Z.of_nat i))
    (proffered_ st);
  wf_arena : Forall (arena_block arena) (records st);
  wf_disj : pairwise disj (records st);
  wf_total : total (records st) ≤ size_ arena
}.

Lemma records_insert p r m bins :
  m !! p = None →
  records (mkPow2Bins bins (<[p := r]> m)) ≡ₚ r :: records (mkPow2Bins bins m).
Proof. intros Hp. unfold records. simpl. by rewrite map_to_list_insert. Qed.

Lemma records_delete st p r :
  proffered_ st !! p = Some r →
  records st ≡ₚ r :: records (mkPow2Bins (p2_bins st) (delete p (proffered_ st))).
Proof.
  intros Hp. rewrite <- records_insert by apply lookup_delete_eq.
  rewrite insert_delete_id by done. done.
Qed.

Section allocator.
Context (arena : AddressRecord).
Implicit Types st : Pow2Bins.

(** A record that is disjoint from everything handed out is not filed yet. *)
Lemma fresh_address st r :
  wf arena st → 0 < size_ r →
  Forall (λ r', disj r r') (map_to_list (proffered_ st)).*2 →
  proffered_ st !! address_ r = None.
Proof.
  intros Hwf Hs Hd. destruct (proffered_ st !! address_ r) as [r'|] eqn:E; [|done].
  exfalso. destruct (wf_proffered _ _ Hwf _ _ E) as [Ha _].
  assert (r' ∈ (map_to_list (proffered_ st)).*2) as Hin.
  { apply list_elem_of_fmap. exists (address_ r, r'). split; [done|].
    by apply elem_of_map_to_list. }
  assert (arena_block arena r') as [(_ & Hr' & _) _].
  { pose proof (wf_arena _ _ Hwf) as Hall. unfold records in Hall.
    apply Forall_app in Hall as [Hall _]. rewrite Forall_forall in Hall. auto. }
  rewrite Forall_forall in Hd. specialize (Hd _ Hin). unfold disj in Hd. lia.
Qed.

Lemma wf_good_bins st (i : nat) :
  wf arena st → good_bins arena (7 + Z.of_nat i) (drop i (p2_bins st)) ∨
  (length (p2_bins st) < i)%nat.
Proof.
  intros Hwf. destruct (decide (i ≤ length (p2_bins st))%nat) as [Hi|]; [left|right; lia].
  pose proof (wf_bins _ _ Hwf) as Hb. pose proof (wf_arena _ _ Hwf) as Ha.
  unfold records in Ha. rewrite <- (take_drop i (p2_bins st)) in Hb, Ha.
  apply bins_wf_app in Hb as [_ Hb]. rewrite length_take_le in Hb by done.
  rewrite free_records_app, !Forall_app in Ha. split; [done|]. apply Ha.
Qed.

(** The state after the record [r] was taken out of the bins from [i] on. *)
Lemma wf_take_record st (i : nat) r it' :
  wf arena st → (i < length (p2_bins st))%nat → size_ r = 2 ^ (7 + Z.of_nat i) →
  evolves (7 + Z.of_nat i) (drop i (p2_bins st)) [r] it' →
  let st' := mkPow2Bins (take i (p2_bins st) ++ it')
                        (<[address_ r := r]> (proffered_ st)) in
  proffered_ st !! address_ r = None ∧ arena_block arena r ∧ wf arena st' ∧
  total (records st') = total (records st).
Proof.
  intros Hwf Hi Hr Hev st'.
  assert (refines (records st)
    (r :: records (mkPow2Bins (take i (p2_bins st) ++ it') (proffered_ st)))) as Href.
  { unfold records. simpl. destruct Hev as (_ & _ & Href).
    rewrite <- (take_drop i (p2_bins st)) at 1. rewrite !free_records_app.
    apply (refines_app_l _ _ ((map_to_list (proffered_ st)).*2 ++
      free_records (take i (p2_bins st)))) in Href.
    rewrite <- !app_assoc in Href. simpl in Href. by rewrite <- !Permutation_middle in Href. }
  destruct Href as (Ht & Ha & Hd).
  specialize (Ha _ (wf_arena _ _ Hwf)). specialize (Hd []).
  rewrite !app_nil_r in Hd. specialize (Hd (wf_disj _ _ Hwf)).
  assert (arena_block arena r) as Hra by (by apply Forall_cons in Ha as [? _]).
  assert (proffered_ st !! address_ r = None) as Hfresh.
  { apply fresh_address; [done|apply Hra|]. simpl in Hd.
    destruct Hd as [Hd _]. unfold records in Hd. by apply Forall_app in Hd as [? _]. }
  unfold st'. pose proof (records_insert _ r _ (take i (p2_bins st) ++ it') Hfresh) as Hp.
  split_and!; [done|done| |by rewrite Hp].
  destruct Hev as (Hwf' & Hlen & _). rewrite length_drop in Hlen.
  assert (length (take i (p2_bins st) ++ it') = length (p2_bins st)) as Hlen'
    by (rewrite length_app, length_take_le; lia).
  pose proof (wf_total _ _ Hwf).
  split; rewrite ?Hp; [|..|done|lia]; simpl; [|..|done].
  - apply bins_wf_app. rewrite length_take_le by lia. split; [|done].
    pose proof (wf_bins _ _ Hwf) as Hb. rewrite <- (take_drop i (p2_bins st)) in Hb.
    by apply bins_wf_app in Hb as [? _].
  - rewrite Hlen'. apply map_Forall_insert_2; [eauto|apply Hwf].
Qed.

(** [do_request_using] at a bin never faults: it leaves everything as it is
    when no bin from there on holds a record, and hands out a record of the
    bin's size otherwise. *)
Lemma do_request_using_spec st p (it : nat) :
  wf arena st → (it ≤ length (p2_bins st))%nat →
  returns (do_request_using st p it) (λ '(p', st'),
    (p' = (if (it =? length (p2_bins st))%nat then p else nullptr) ∧ st' = st ∧
     free_records (drop it (p2_bins st)) = []) ∨
    (∃ r, p' = address_ r ∧ (it < length (p2_bins st))%nat ∧
       size_ r = 2 ^ (7 + Z.of_nat it) ∧ arena_block arena r ∧
       proffered_ st !! p' = None ∧ proffered_ st' = <[p' := r]> (proffered_ st) ∧
       wf arena st' ∧ total (records st') = total (records st))).
Proof.
  intros Hwf Hit. unfold do_request_using.
  destruct (it =? length (p2_bins st))%nat eqn:E.
  { apply Nat.eqb_eq in E. left. split_and!; [done..|]. by rewrite E, drop_all. }
  apply Nat.eqb_neq in E.
  destruct (wf_good_bins st it Hwf) as [Hg|]; [|lia].
  assert (drop it (p2_bins st) ≠ []) as Hne
    by (intros Hn; apply (f_equal length) in Hn; rewrite length_drop in Hn; simpl in Hn; lia).
  eapply returns_bind; [eapply (retrieve_record_spec arena); [|exact Hne|exact Hg]; lia|].
  intros [r it'] [(-> & -> & Hnil)|[Hrs Hev]]; simpl.
  - left. rewrite take_drop. by destruct st.
  - destruct (wf_take_record st it r it') as (Hf & Hra & Hwf' & Htot); [done|lia|done..|].
    unfold emplace_in_proffered, get_address, nullptr.
    rewrite (proj2 (Z.eqb_neq (address_ r) 0)) by (destruct Hra as [[? _] _]; lia).
    simpl. right. exists r. split_and!; try done. lia.
Qed.

(** [r] serves a request of [n] bytes: it is an aligned block of the arena of
    at least [n] bytes, of the least bin size that is large enough. *)
Definition serves (st : Pow2Bins) (n : Z) (r : AddressRecord) : Prop :=
  arena_block arena r ∧ n ≤ size_ r ∧
  ∀ s b, (s, b) ∈ p2_bins st → n ≤ s → size_ r ≤ s.

Lemma lower_bound_serves st n r (it := bins_lower_bound n (p2_bins st)) :
  wf arena st → (it < length (p2_bins st))%nat →
  size_ r = 2 ^ (7 + Z.of_nat it) → arena_block arena r → serves st n r.
Proof.
  intros Hwf Hit Hs Hra. destruct (lookup_lt_is_Some_2 _ _ Hit) as [[k b] Hk].
  destruct (bins_lower_bound_spec _ _ _ _ _ eq_refl Hk) as [Hle Hlt].
  destruct (bins_wf_lookup _ _ _ _ _ (wf_bins _ _ Hwf) Hk) as [-> _].
  split_and!; [done|lia|]. intros s b' Hin Hns.
  apply list_elem_of_lookup in Hin as [j Hj].
  destruct (decide (j < it)%nat) as [Hji|Hji]; [specialize (Hlt _ _ _ Hji Hj); lia|].
  destruct (bins_wf_lookup _ _ _ _ _ (wf_bins _ _ Hwf) Hj) as [-> _].
  rewrite Hs. apply Z.pow_le_mono_r; lia.
Qed.

(** When the bins from the lower bound on are empty, no free record is large
    enough for the request. *)
Lemma lower_bound_exhausted st n :
  wf arena st → free_records (drop (bins_lower_bound n (p2_bins st)) (p2_bins st)) = [] →
  Forall (λ r, size_ r < n) (free_records (p2_bins st)).
Proof.
  intros Hwf Hnil. rewrite Forall_forall. intros r Hr.
  set (i := bins_lower_bound n (p2_bins st)) in *.
  assert (r ∈ free_records (take i (p2_bins st))) as Hr'.
  { rewrite <- (take_drop i (p2_bins st)), free_records_app, Hnil, app_nil_r in Hr. done. }
  apply list_elem_of_join in Hr' as (b & Hrb & Hb).
  apply list_elem_of_fmap in Hb as ([k b'] & -> & Hb).
  apply list_elem_of_lookup in Hb as [j Hj]. apply lookup_take_Some in Hj as [Hj Hji].
  destruct (bins_wf_lookup _ _ _ _ _ (wf_bins _ _ Hwf) Hj) as [Hk Hall].
  rewrite Forall_forall in Hall. rewrite (Hall _ Hrb).
  destruct (p2_bins st !! i) as [[s' b'']|] eqn:Ei.
  - by eapply (bins_lower_bound_spec n _ i s' b'' eq_refl Ei).
  - eapply (bins_lower_bound_end n _ j); [|done]. apply lookup_ge_None in Ei.
    pose proof (bins_lower_bound_le n (p2_bins st)). unfold i in Ei. lia.
Qed.

(** The two outcomes of a request. *)
Definition alloc_outcome (st : Pow2Bins) (n : Z) (res : Z * Pow2Bins) : Prop :=
  let '(p, st') := res in
  (p = nullptr ∧ st' = st ∧
     (n = 0 ∨ Forall (λ r, size_ r < n) (free_records (p2_bins st)))) ∨
  (∃ r, p = address_ r ∧ serves st n r ∧ n ≠ 0 ∧
     proffered_ st !! p = None ∧ proffered_ st' = <[p := r]> (proffered_ st) ∧
     wf arena st' ∧ total (records st') = total (records st)).

Lemma do_request_end st p : do_request_using st p (length (p2_bins st)) = Ok (p, st).
Proof. unfold do_request_using. by rewrite Nat.eqb_refl. Qed.

Lemma do_request_lower_bound st n :
  wf arena st → n ≠ 0 →
  returns (do_request_using st nullptr (bins_lower_bound n (p2_bins st)))
    (alloc_outcome st n).
Proof.
  intros Hwf Hn. pose proof (bins_lower_bound_le n (p2_bins st)) as Hle.
  eapply returns_mono; [apply (do_request_using_spec st nullptr _ Hwf Hle)|].
  intros [p st'] [(-> & -> & Hnil)|(r & -> & Hlt & Hs & Hra & Hrest)].
  - left. split_and!; [by case_if|done|right; by apply lower_bound_exhausted].
  - right. exists r. split; [done|]. split; [by apply lower_bound_serves|done].
Qed.

Lemma alloc_outcome_holds st ptr n :
  wf arena st → ptr ≠ nullptr → returns (alloc st ptr n) (alloc_outcome st n).
Proof.
  intros Hwf Hptr. unfold alloc. rewrite (proj2 (Z.eqb_neq _ _) Hptr). simpl.
  destruct (n =? 0) eqn:En.
  { left. split_and!; [done..|left; lia]. }
  assert (n ≠ 0) as Hn by lia.
  destruct (decide (bins_find n (p2_bins st) < length (p2_bins st))%nat) as [Hf|Hf].
  - rewrite (bins_find_lower_bound 7) by (done || apply Hwf).
    eapply returns_bind; [by apply do_request_lower_bound|].
    intros [p st'] Hout. destruct (p =? nullptr) eqn:Ep; simpl; [|done].
    destruct Hout as [(-> & -> & _)|(r & -> & ([[Hr _] _] & _) & _)];
      [by apply do_request_lower_bound|unfold nullptr in Ep; lia].
  - assert (bins_find n (p2_bins st) = length (p2_bins st)) as ->.
    { pose proof (bins_find_le n (p2_bins st)). lia. }
    rewrite do_request_end. by apply do_request_lower_bound.
Qed.

(** Returning a record to the bin of its size. *)
Lemma emplace_record_spec bins m r (i : nat) :
  bins_wf 7 bins → (i < length bins)%nat → size_ r = 2 ^ (7 + Z.of_nat i) →
  returns (emplace_record_in_bin (mkPow2Bins bins m) r) (λ st',
    proffered_ st' = m ∧ bins_wf 7 (p2_bins st') ∧
    length (p2_bins st') = length bins ∧
    free_records (p2_bins st') ≡ₚ r :: free_records bins).
Proof.
  intros Hb Hi Hr. destruct (lookup_lt_is_Some_2 _ _ Hi) as [[k b] Hk].
  assert (bins_find (size_ r) bins = i) as Hfind.
  { rewrite Hr. by apply bins_find_pow2. }
  unfold emplace_record_in_bin, get_size. simpl. rewrite Hfind.
  rewrite (proj2 (Nat.eqb_neq _ _)) by lia. simpl.
  destruct (bins_wf_lookup _ _ _ _ _ Hb Hk) as [Hk7 Hall].
  pose proof (take_drop_middle _ _ _ Hk) as Hsplit.
  rewrite (alter_take_drop _ _ _ _ Hk).
  split_and!; [done|..].
  - rewrite <- Hsplit in Hb. apply bins_wf_app in Hb as [H1 (H2 & H3 & H4)].
    apply bins_wf_app. split; [done|]. split_and!; [done| |done].
    constructor; [congruence|done].
  - apply (f_equal length) in Hsplit. rewrite length_app in Hsplit |- *. done.
  - apply (f_equal free_records) in Hsplit. rewrite <- Hsplit.
    simpl. rewrite !free_records_app, !free_records_cons.
    simpl. by rewrite <- Permutation_middle.
Qed.

Lemma free_outcome st p r :
  wf arena st → proffered_ st !! p = Some r →
  returns (free st p) (λ st',
    wf arena st' ∧ proffered_ st' = delete p (proffered_ st) ∧
    free_records (p2_bins st') ≡ₚ r :: free_records (p2_bins st) ∧
    total (records st') = total (records st)).
Proof.
  intros Hwf Hp. unfold free, retrieve_from_proffered.
  destruct (wf_proffered _ _ Hwf _ _ Hp) as [Ha (i & Hi & Hs)].
  assert (p ≠ nullptr) as Hnn.
  { pose proof (wf_arena _ _ Hwf) as Hall. rewrite (records_delete _ _ _ Hp) in Hall.
    apply Forall_cons in Hall as [[[? _] _] _]. unfold nullptr. lia. }
  rewrite (proj2 (Z.eqb_neq _ _) Hnn), Hp. simpl.
  eapply returns_mono; [eapply emplace_record_spec; [apply Hwf|done|done]|].
  intros [bins' m'] H. simpl in H. destruct H as (-> & Hb & Hlen & Hperm).
  assert (records (mkPow2Bins bins' (delete p (proffered_ st))) ≡ₚ records st) as Hrec.
  { rewrite (records_delete _ _ _ Hp). unfold records. simpl.
    rewrite Hperm. by rewrite <- Permutation_middle. }
  split_and!; [|done|done|by rewrite Hrec].
  split; rewrite ?Hrec; try apply Hwf; [done|]. simpl. rewrite Hlen.
  by apply map_Forall_delete, Hwf.
Qed.
End allocator.

(** The bytes handed out, without the machine's wrap-around. *)
Definition proffered_total (st : Pow2Bins) : Z :=
  total (map_to_list (proffered_ st)).*2.

Lemma arena_total_nonneg arena l : Forall (arena_block arena) l → 0 ≤ total l.
Proof. induction 1 as [|r l ((_&?&_)&_) ? IH]; simpl; lia. Qed.

Lemma proffered_total_bound arena st :
  wf arena st →
  0 ≤ proffered_total st ∧
  proffered_total st + total (free_records (p2_bins st)) ≤ size_ arena ∧
  0 ≤ total (free_records (p2_bins st)).
Proof.
  intros Hwf. pose proof (wf_total _ _ Hwf) as Ht. pose proof (wf_arena _ _ Hwf) as Ha.
  unfold records in Ht, Ha. rewrite total_app in Ht. apply Forall_app in Ha as [H1 H2].
  apply arena_total_nonneg in H1, H2. unfold proffered_total. lia.
Qed.

Lemma u64_sum_total l :
  Forall (λ r, 0 ≤ size_ r) l → total l < 2 ^ 64 →
  0 ≤ total l ∧ foldr (λ r size, u64 (size + get_size r)) 0 l = total l.
Proof.
  induction 1 as [|r l Hr Hl IH]; intros Hlt; [done|]. simpl in *.
  assert (0 ≤ total l) by (clear -Hl; induction Hl; simpl; lia).
  split; [lia|]. rewrite (proj2 (IH ltac:(lia))). unfold get_size.
  rewrite uwrap_small; lia.
Qed.

Lemma amount_proffered_foldr st :
  amount_proffered st =
  foldr (λ r size, u64 (size + get_size r)) 0 (map_to_list (proffered_ st)).*2.
Proof.
  unfold amount_proffered. rewrite map_fold_foldr.
  induction (map_to_list (proffered_ st)) as [|[p r] l IH]; [done|].
  rewrite fmap_cons. cbn. by rewrite IH.
Qed.

Lemma amount_proffered_total arena st :
  wf arena st → size_ arena < 2 ^ 64 → amount_proffered st = proffered_total st.
Proof.
  intros Hwf Hs. destruct (proffered_total_bound _ _ Hwf) as (_ & Hle & Hfree).
  pose proof (wf_arena _ _ Hwf) as Ha. unfold records in Ha. apply Forall_app in Ha as [Ha _].
  rewrite amount_proffered_foldr. unfold proffered_total in *.
  apply u64_sum_total; [|lia]. eapply Forall_impl; [apply Ha|].
  intros r [(_&?&_) _]. lia.
Qed.

Lemma Pow2Bins_new_spec heap_ptr heap_size :
  0 < heap_ptr → ALIGNMENT ≤ heap_size → heap_ptr + heap_size < 2 ^ 64 →
  returns (Pow2Bins_new heap_ptr heap_size) (λ st,
    wf (AR heap_ptr heap_size) st ∧ proffered_ st = ∅ ∧
    length (p2_bins st) = Z.to_nat (Z.log2 heap_size - 6) ∧
    total (free_records (p2_bins st)) =
      ALIGNMENT * ((heap_size - (- heap_ptr) `mod` ALIGNMENT) / ALIGNMENT)).
Proof.
  intros Hp Hs Hend. pose proof (binner_spec _ _ Hp Hs Hend) as Hb. cbn zeta in Hb.
  unfold Pow2Bins_new.
  apply returns_iff in Hb as (b & Hnew & bins & Hbins & Hwf & Hlen & Ha & Hd & Ht).
  destruct (Binner_new [] heap_ptr heap_size) as [b0|]; [|done]. simpl in *.
  rewrite Hnew. simpl. rewrite Hbins. simpl.
  split_and!; [|done..].
  split; unfold records; simpl; rewrite ?map_to_list_empty; try done.
  simpl. rewrite Ht. pose proof (Z.mod_pos_bound (- heap_ptr) ALIGNMENT ltac:(done)).
  pose proof (Z.mul_div_le (heap_size - (- heap_ptr) `mod` ALIGNMENT) ALIGNMENT ltac:(done)).
  lia.
Qed.

(** ** Properties *)

(** Building the allocator over a heap of at least [ALIGNMENT] bytes trips
    no assertion, ends with the invariant in force and nothing handed out, and
    the free records cover the heap except for the bytes below the first
    aligned address and a tail of less than [ALIGNMENT] bytes. *)
Theorem Pow2Bins_new_correct heap_ptr heap_size :
  0 < heap_ptr → ALIGNMENT ≤ heap_size → heap_ptr + heap_size < 2 ^ 64 →
  returns (Pow2Bins_new heap_ptr heap_size) (λ st,
    wf (AR heap_ptr heap_size) st ∧ proffered_ st = ∅ ∧
    length (p2_bins st) = Z.to_nat (Z.log2 heap_size - 6) ∧
    total (free_records (p2_bins st)) =
      ALIGNMENT * ((heap_size - (- heap_ptr) `mod` ALIGNMENT) / ALIGNMENT)).
Proof. apply Pow2Bins_new_spec. Qed.

Lemma Pow2Bins_new_correct_witness :
  returns (Pow2Bins_new 4100 1000) (λ st,
    wf (AR 4100 1000) st ∧ proffered_ st = ∅ ∧
    length (p2_bins st) = 3%nat ∧ total (free_records (p2_bins st)) = 768).
Proof. apply (Pow2Bins_new_correct 4100 1000); done. Defined.

(** C1: A request never trips an assertion or runs into a bad access.  It
    returns the null pointer and leaves the allocator unchanged only when the
    size is zero or every free record is smaller than the request; otherwise
    it hands out a record that was not handed out before, that is an aligned
    block of the heap of the least bin size that fits, and after it the
    invariant holds again (in particular the block is disjoint from every
    other block) and no byte was lost. *)
Theorem alloc_correct arena st ptr n :
  wf arena st → ptr ≠ nullptr → returns (alloc st ptr n) (alloc_outcome arena st n).
Proof. apply alloc_outcome_holds. Qed.

(** A small heap of 1000 bytes at address 4096. *)
Definition small_heap : Pow2Bins :=
  mkPow2Bins
    [(128, [AR 4864 128]); (256, [AR 4608 256]); (512, [AR 4096 512])] ∅.

Lemma small_heap_new : Pow2Bins_new 4096 1000 = Ok small_heap.
Proof. reflexivity. Qed.

Lemma small_heap_wf : wf (AR 4096 1000) small_heap.
Proof.
  split; simpl.
  - split_and!; repeat constructor.
  - apply map_Forall_empty.
  - repeat constructor; simpl; lia.
  - unfold disj. simpl. repeat constructor; simpl; lia.
  - done.
Qed.

Lemma alloc_correct_witness :
  returns (alloc small_heap 1 100) (alloc_outcome (AR 4096 1000) small_heap 100).
Proof. apply (alloc_correct (AR 4096 1000)); [apply small_heap_wf|done]. Defined.

(** C2: Releasing a block that is handed out always succeeds: exactly this block
    goes back to the bins, the other live blocks stay, the invariant holds and
    no byte is lost. *)
Theorem free_correct arena st p r :
  wf arena st → proffered_ st !! p = Some r →
  returns (free st p) (λ st',
    wf arena st' ∧ proffered_ st' = delete p (proffered_ st) ∧
    free_records (p2_bins st') ≡ₚ r :: free_records (p2_bins st) ∧
    total (records st') = total (records st)).
Proof. apply free_outcome. Qed.

(** The small heap with its 512-byte block handed out. *)
Definition small_heap_512 : Pow2Bins :=
  mkPow2Bins [(128, [AR 4864 128]); (256, [AR 4608 256]); (512, [])]
             {[ 4096 := AR 4096 512 ]}.

Lemma small_heap_alloc_512 : alloc small_heap 1 300 = Ok (4096, small_heap_512).
Proof. reflexivity. Qed.

Lemma small_heap_512_wf : wf (AR 4096 1000) small_heap_512.
Proof.
  pose proof (alloc_outcome_holds (AR 4096 1000) small_heap 1 300 small_heap_wf ltac:(done)) as H.
  rewrite small_heap_alloc_512 in H. destruct H as [[? _]|(r & _ & _ & _ & _ & _ & H & _)]; done.
Qed.

Lemma free_correct_witness :
  returns (free small_heap_512 4096) (λ st',
    wf (AR 4096 1000) st' ∧ proffered_ st' = delete 4096 (proffered_ small_heap_512) ∧
    free_records (p2_bins st') ≡ₚ AR 4096 512 :: free_records (p2_bins small_heap_512) ∧
    total (records st') = total (records small_heap_512)).
Proof. apply free_correct; [apply small_heap_512_wf|reflexivity]. Defined.

(** Releasing the null pointer, an address that was never handed out, or a
    block a second time fails the assertion in [retrieve_from_proffered]; no
    state is reached in which a block is in the bins twice. *)
Theorem free_invalid st p :
  (p = nullptr ∨ proffered_ st !! p = None → free st p = Fail AssertFailed) ∧
  (∀ st', free st p = Ok st' → free st' p = Fail AssertFailed).
Proof.
  assert (∀ st, p = nullptr ∨ proffered_ st !! p = None → free st p = Fail AssertFailed) as H.
  { intros st0 Hp. unfold free, retrieve_from_proffered.
    destruct (p =? nullptr) eqn:E; [done|]. simpl.
    destruct Hp as [->| ->]; [discriminate E|done]. }
  split; [apply H|]. intros st' Hf. apply H. right.
  unfold free, retrieve_from_proffered, emplace_record_in_bin in Hf. inv_ok.
  destruct (proffered_ st !! p) as [r|]; [|done]. simplify_eq/=.
  inv_ok. simplify_eq/=. apply lookup_delete_eq.
Qed.

(** A block handed out for a request can be released at once, and then the
    same blocks are live as before the request and the invariant holds. *)
Theorem alloc_free_roundtrip arena st ptr n p st' :
  wf arena st → alloc st ptr n = Ok (p, st') → p ≠ nullptr →
  returns (free st' p) (λ st'', wf arena st'' ∧ proffered_ st'' = proffered_ st ∧
    total (free_records (p2_bins st'')) = total (free_records (p2_bins st))).
Proof.
  intros Hwf Hal Hp. destruct (ptr =? nullptr) eqn:Eptr.
  { unfold alloc in Hal. by rewrite Eptr in Hal. }
  pose proof (alloc_outcome_holds arena st ptr n Hwf ltac:(lia)) as H. rewrite Hal in H.
  destruct H as [[? _]|(r & _ & _ & _ & Hf & Hins & Hwf' & Htot)]; [done|].
  eapply returns_mono; [apply (free_outcome arena _ _ r Hwf'); rewrite Hins; apply lookup_insert_eq|].
  intros st'' (Hwf'' & Hdel & Hperm & Htot'').
  rewrite Hins, delete_insert_id in Hdel by done. split_and!; [done..|].
  rewrite Htot in Htot''. unfold records in Htot''. rewrite Hdel, !total_app in Htot''. lia.
Qed.

Lemma alloc_free_roundtrip_witness :
  returns (free small_heap_512 4096) (λ st'', wf (AR 4096 1000) st'' ∧
    proffered_ st'' = proffered_ small_heap ∧
    total (free_records (p2_bins st'')) = total (free_records (p2_bins small_heap))).
Proof.
  apply (alloc_free_roundtrip (AR 4096 1000) small_heap 1 300);
    [apply small_heap_wf|reflexivity|done].
Defined.

(** The amount reported as handed out is the exact byte total of the live
    blocks, its 64-bit sum never wraps, and with the free bytes it never
    exceeds the heap. *)
Theorem amount_proffered_correct arena st :
  wf arena st → size_ arena < 2 ^ 64 →
  amount_proffered st = proffered_total st ∧
  0 ≤ amount_proffered st ∧
  amount_proffered st + total (free_records (p2_bins st)) ≤ size_ arena.
Proof.
  intros Hwf Hs. rewrite (amount_proffered_total arena) by done.
  destruct (proffered_total_bound _ _ Hwf) as (? & ? & _). done.
Qed.

Lemma amount_proffered_correct_witness :
  amount_proffered small_heap_512 = proffered_total small_heap_512 ∧
  0 ≤ amount_proffered small_heap_512 ∧
  amount_proffered small_heap_512 + total (free_records (p2_bins small_heap_512)) ≤ 1000.
Proof. apply (amount_proffered_correct (AR 4096 1000)); [apply small_heap_512_wf|done]. Defined.
