(* ===== verification/AllocatorStrategy.v ===== *)
(** * The allocation strategy interface

    [memory/shmem_allocator_strategy.hpp] declares the interface that a heap
    uses: [alloc] and [free].  Here the interface is a type class whose laws
    state the contract against an abstract allocator, a finite map from live
    addresses to the bytes they own; [Pow2Bins] is an instance, and a client
    that issues any sequence of calls is proved against the interface only. *)
From S2P Require Import Prelude AddressRecord Bins Binner Pow2Bins.

Local Open Scope Z_scope.

(** ** The abstract allocator *)

(** The abstract state: live address to its size. *)
Abbreviation live_map := (gmap Z Z).

(** A request may be refused; otherwise the answer is a new aligned block of
    the arena, large enough, that meets no live block. *)
Definition abs_alloc (arena : AddressRecord) (m : live_map) (n p : Z) (m' : live_map) : Prop :=
  (p = nullptr ∧ m' = m) ∨
  (∃ s, n ≠ 0 ∧ n ≤ s ∧ arena_block arena (AR p s) ∧ m !! p = None ∧
     map_Forall (λ q t, disj (AR p s) (AR q t)) m ∧ m' = <[p := s]> m).

Definition abs_free (m : live_map) (p : Z) (m' : live_map) : Prop :=
  is_Some (m !! p) ∧ m' = delete p m.

(** What a user of the allocator relies on. *)
Definition live_ok (arena : AddressRecord) (m : live_map) : Prop :=
  map_Forall (λ p s, arena_block arena (AR p s)) m ∧
  ∀ p q s t, m !! p = Some s → m !! q = Some t → p ≠ q → disj (AR p s) (AR q t).

Lemma live_ok_empty arena : live_ok arena ∅.
Proof. split; [apply map_Forall_empty|]. intros p q s t H. by rewrite lookup_empty in H. Qed.

Lemma abs_alloc_live_ok arena m n p m' :
  live_ok arena m → abs_alloc arena m n p m' → live_ok arena m'.
Proof.
  intros [Ha Hd] [[_ ->]|(s & _ & _ & Hb & Hf & Hdis & ->)]; [done|].
  split; [by apply map_Forall_insert_2|].
  intros p1 p2 s1 s2. rewrite !lookup_insert_Some.
  intros [[<- <-]|[? H1]] [[<- <-]|[? H2]] Hne; [done|..].
  - by apply Hdis.
  - symmetry. by apply Hdis.
  - by apply Hd.
Qed.

Lemma abs_free_live_ok arena m p m' : live_ok arena m → abs_free m p m' → live_ok arena m'.
Proof.
  intros [Ha Hd] [_ ->]. split; [by apply map_Forall_delete|].
  intros p1 p2 s1 s2 [_ H1]%lookup_delete_Some [_ H2]%lookup_delete_Some. by apply Hd.
Qed.

(** ** [class ShmemAllocatorStrategy] *)

Class ShmemAllocatorStrategy (A : Type) := {
  strat_alloc : A → Z → Z → result (Z * A);
  strat_free : A → Z → result A;
  (** the representation invariant and the abstraction function *)
  strat_inv : AddressRecord → A → Prop;
  strat_live : A → live_map;
  strat_alloc_law arena a ptr n :
    strat_inv arena a → ptr ≠ nullptr →
    returns (strat_alloc a ptr n) (λ '(p, a'),
      strat_inv arena a' ∧ abs_alloc arena (strat_live a) n p (strat_live a'));
  strat_free_law arena a p :
    strat_inv arena a → is_Some (strat_live a !! p) →
    returns (strat_free a p) (λ a',
      strat_inv arena a' ∧ abs_free (strat_live a) p (strat_live a'));
  strat_free_bad a p :
    strat_live a !! p = None → strat_free a p = Fail AssertFailed
}.

(** ** [Pow2Bins] implements the interface *)

Definition live (st : Pow2Bins) : live_map := size_ <$> proffered_ st.

Lemma proffered_disj arena st r p q s :
  wf arena st → proffered_ st !! p = Some r → proffered_ st !! q = Some s → p ≠ q → disj r s.
Proof.
  intros Hwf Hp Hq Hne. pose proof (wf_disj _ _ Hwf) as Hd.
  rewrite (records_delete _ _ _ Hp) in Hd. destruct Hd as [Hd _].
  rewrite Forall_forall in Hd. apply Hd. unfold records. simpl.
  apply elem_of_app. left. apply list_elem_of_fmap. exists (q, s). split; [done|].
  apply elem_of_map_to_list. by rewrite lookup_delete_ne.
Qed.

Lemma alloc_abs arena st ptr n :
  wf arena st → ptr ≠ nullptr →
  returns (alloc st ptr n) (λ '(p, st'),
    wf arena st' ∧ abs_alloc arena (live st) n p (live st')).
Proof.
  intros Hwf Hptr. eapply returns_mono; [by apply (alloc_outcome_holds arena)|].
  intros [p st'] [(-> & -> & _)|(r & -> & (Hra & Hn & _) & Hn0 & Hf & Hins & Hwf' & _)].
  { split; [done|by left]. }
  split; [done|]. right. exists (size_ r). destruct r as [a s]. simpl in *.
  unfold live. rewrite Hins, fmap_insert, lookup_fmap, Hf. split_and!; try done.
  intros q t Hq. apply lookup_fmap_Some in Hq as ([q' t'] & <- & Hq). simpl.
  assert (q' = q) as ->.
  { destruct (wf_proffered _ _ Hwf _ _ Hq) as [Hq' _]. done. }
  apply (proffered_disj arena st' _ a q); [done|rewrite Hins..|].
  - apply lookup_insert_eq.
  - rewrite lookup_insert_ne; [done|]. intros <-. congruence.
  - intros <-. congruence.
Qed.

Lemma free_abs arena st p :
  wf arena st → is_Some (live st !! p) →
  returns (free st p) (λ st', wf arena st' ∧ abs_free (live st) p (live st')).
Proof.
  intros Hwf Hp. pose proof Hp as [s Hs]. unfold live in Hs.
  apply lookup_fmap_Some in Hs as (r & _ & Hr).
  eapply returns_mono; [by apply (free_outcome arena)|].
  intros st' (Hwf' & Hdel & _). split; [done|]. split; [done|].
  unfold live. by rewrite Hdel, fmap_delete.
Qed.

Lemma free_not_live st p : live st !! p = None → free st p = Fail AssertFailed.
Proof.
  unfold live. rewrite lookup_fmap, fmap_None. intros Hp.
  unfold free, retrieve_from_proffered. rewrite Hp. by destruct (p =? nullptr).
Qed.

#[export] Instance Pow2Bins_strategy : ShmemAllocatorStrategy Pow2Bins := {
  strat_alloc := alloc;
  strat_free := free;
  strat_inv := wf;
  strat_live := live;
  strat_alloc_law := alloc_abs;
  strat_free_law := free_abs;
  strat_free_bad := free_not_live
}.

(** ** Clients of the interface *)

(** A call on the allocator; a release names the pointer. *)
Inductive call :=
  | CAlloc (n : Z)
  | CFree (p : Z).

Section client.
Context {A : Type} `{!ShmemAllocatorStrategy A}.
Implicit Types a : A.

(** A history: the calls with what they returned. *)
Inductive history : A → list (call * Z) → A → Prop :=
  | history_nil a : history a [] a
  | history_alloc a n ptr p a' h a'' :
      ptr ≠ nullptr → strat_alloc a ptr n = Ok (p, a') →
      history a' h a'' → history a ((CAlloc n, p) :: h) a''
  | history_free a p a' h a'' :
      strat_free a p = Ok a' →
      history a' h a'' → history a ((CFree p, nullptr) :: h) a''.

(** The abstract run of a history. *)
Inductive abs_history (arena : AddressRecord) : live_map → list (call * Z) → live_map → Prop :=
  | abs_history_nil m : abs_history arena m [] m
  | abs_history_alloc m n p m' h m'' :
      abs_alloc arena m n p m' → abs_history arena m' h m'' →
      abs_history arena m ((CAlloc n, p) :: h) m''
  | abs_history_free m p m' h m'' :
      abs_free m p m' → abs_history arena m' h m'' →
      abs_history arena m ((CFree p, nullptr) :: h) m''.

Lemma history_refines arena a h a' :
  history a h a' → strat_inv arena a →
  strat_inv arena a' ∧ abs_history arena (strat_live a) h (strat_live a').
Proof.
  induction 1 as [a|a n ptr p a1 h a2 Hptr Hal _ IH|a p a1 h a2 Hfr _ IH]; intros Hinv.
  - split; [done|constructor].
  - pose proof (strat_alloc_law arena a ptr n Hinv Hptr) as H. rewrite Hal in H.
    destruct H as [Hinv1 Habs]. destruct (IH Hinv1) as [? ?].
    split; [done|by econstructor].
  - destruct (strat_live a !! p) as [s|] eqn:E.
    + pose proof (strat_free_law arena a p Hinv ltac:(eauto)) as H. rewrite Hfr in H.
      destruct H as [Hinv1 Habs]. destruct (IH Hinv1) as [? ?].
      split; [done|by econstructor].
    + by rewrite (strat_free_bad _ _ E) in Hfr.
Qed.

Lemma abs_history_live_ok arena m h m' :
  abs_history arena m h m' → live_ok arena m → live_ok arena m'.
Proof. induction 1; eauto using abs_alloc_live_ok, abs_free_live_ok. Qed.
End client.

(** ** Properties *)

(** C3: Refinement.  Every sequence of calls on a [Pow2Bins] allocator built
    over a heap is a run of the abstract allocator with the same answers, and
    after it the live blocks are aligned, inside the heap and pairwise
    disjoint. *)
Theorem Pow2Bins_refines heap_ptr heap_size st h st' :
  0 < heap_ptr → ALIGNMENT ≤ heap_size → heap_ptr + heap_size < 2 ^ 64 →
  Pow2Bins_new heap_ptr heap_size = Ok st → history st h st' →
  abs_history (AR heap_ptr heap_size) ∅ h (live st') ∧
  live_ok (AR heap_ptr heap_size) (live st').
Proof.
  intros Hp Hs Hend Hnew Hh.
  pose proof (Pow2Bins_new_spec _ _ Hp Hs Hend) as H. rewrite Hnew in H.
  destruct H as (Hwf & Hempty & _).
  destruct (history_refines (AR heap_ptr heap_size) _ _ _ Hh Hwf) as [_ Habs].
  assert (strat_live st = ∅) as E by (cbn; unfold live; by rewrite Hempty).
  rewrite E in Habs. split; [done|].
  eapply abs_history_live_ok; [exact Habs|apply live_ok_empty].
Qed.

Definition small_history : list (call * Z) := [(CAlloc 300, 4096); (CFree 4096, nullptr)].

Lemma Pow2Bins_refines_witness :
  abs_history (AR 4096 1000) ∅ small_history (live small_heap) ∧
  live_ok (AR 4096 1000) (live small_heap).
Proof.
  apply (Pow2Bins_refines 4096 1000 small_heap); [done..|].
  eapply (history_alloc _ _ 1); [done|apply small_heap_alloc_512|].
  eapply history_free; [vm_compute; reflexivity|]. apply history_nil.
Defined.
