(* ===== verification/Symmetry.v ===== *)
(** * Symmetric allocation

    The heap is symmetric because every processing element runs the same
    allocator on its own heap: two processing elements whose heaps lie [d]
    bytes apart ([d] a multiple of the alignment) and that make the same calls
    must get addresses [d] bytes apart, so that an offset from the heap base
    names the same object everywhere.  Here that is proved for the binner and
    the allocator: they commute with moving the heap. *)
From S2P Require Import Prelude AddressRecord Bins Binner Pow2Bins.

Local Open Scope Z_scope.

(** ** Moving records, bins and allocators *)

Section shift.
Context (d : Z).

Definition shift_ptr (p : Z) : Z := if p =? nullptr then nullptr else p + d.

Definition shift_record (r : AddressRecord) : AddressRecord :=
  AR (address_ r + d) (size_ r).

Definition shift_bins (bins : BINS_T) : BINS_T :=
  (λ kb : Z * list AddressRecord, (kb.1, shift_record <$> kb.2)) <$> bins.

Definition shift (st : Pow2Bins) : Pow2Bins :=
  mkPow2Bins (shift_bins (p2_bins st))
             (kmap (λ p, p + d) (shift_record <$> proffered_ st)).

Definition shift_result (res : Z * Pow2Bins) : Z * Pow2Bins :=
  (shift_ptr res.1, shift res.2).
End shift.

#[export] Instance add_inj d : Inj (=) (=) (λ p : Z, p + d).
Proof. intros p q. lia. Qed.

Lemma shift_bins_cons d k b bins :
  shift_bins d ((k, b) :: bins) = (k, shift_record d <$> b) :: shift_bins d bins.
Proof. done. Qed.

Lemma shift_bins_app d l1 l2 : shift_bins d (l1 ++ l2) = shift_bins d l1 ++ shift_bins d l2.
Proof. apply fmap_app. Qed.

Lemma shift_bins_rev d l : shift_bins d (rev l) = rev (shift_bins d l).
Proof. apply map_rev. Qed.

Lemma shift_bins_take d i l : take i (shift_bins d l) = shift_bins d (take i l).
Proof. symmetry. apply fmap_take. Qed.

Lemma shift_bins_drop d i l : drop i (shift_bins d l) = shift_bins d (drop i l).
Proof. symmetry. apply fmap_drop. Qed.

Lemma length_shift_bins d bins : length (shift_bins d bins) = length bins.
Proof. apply length_fmap. Qed.

Lemma shift_bins_find d k bins : bins_find k (shift_bins d bins) = bins_find k bins.
Proof. induction bins as [|[k' b] rest IH]; [done|]. simpl. by rewrite IH. Qed.

Lemma shift_bins_lower_bound d k bins :
  bins_lower_bound k (shift_bins d bins) = bins_lower_bound k bins.
Proof. induction bins as [|[k' b] rest IH]; [done|]. simpl. by rewrite IH. Qed.

(** ** The operations commute with the move *)

Section moved.
Context (arena : AddressRecord) (d : Z).
(** the heap before and after the move lies in the address space *)
Context (Hlo : 0 < address_ arena) (Hlo' : 0 < address_ arena + d).
Context (Hhi : address_ arena + size_ arena < 2 ^ 64).
Context (Hhi' : address_ arena + d + size_ arena < 2 ^ 64).

Lemma moved_null r : arena_block arena r →
  (get_address (shift_record d r) =? nullptr) = false ∧
  (get_address r =? nullptr) = false.
Proof.
  intros ((? & _) & _ & ? & _). unfold get_address, nullptr. simpl. split; lia.
Qed.

Lemma not_default r : arena_block arena r → r ≠ AR_default.
Proof. intros [[Hr _] _] ->. by apply Z.lt_irrefl in Hr. Qed.

Lemma split_shift r :
  arena_block arena r →
  split (shift_record d r) =
  (λ rr, (shift_record d rr.1, shift_record d rr.2)) <$> split r.
Proof.
  intros Hr. pose proof (moved_null r Hr) as [H1 H2].
  destruct Hr as ((Ha & Hs & _) & _ & Hin1 & Hin2).
  unfold split. unfold get_address in H1, H2. rewrite H1, H2. simpl.
  destruct (size_ r =? 0); [done|]. simpl.
  destruct (Z.shiftr (size_ r) 1 =? 0); [done|]. simpl.
  assert (0 ≤ Z.shiftr (size_ r) 1 ≤ size_ r).
  { rewrite Z.shiftr_div_pow2, Z.pow_1_r by lia.
    pose proof (Z.div_mod (size_ r) 2 ltac:(lia)).
    pose proof (Z.mod_pos_bound (size_ r) 2 ltac:(lia)). lia. }
  unfold shift_record. simpl. rewrite !uwrap_small by lia.
  do 2 f_equal. f_equal. lia.
Qed.

(** The last part of [split_larger_bin]: halve a record of the next bin. *)
Definition pull (k : Z) (b : BIN_T) (next : BINS_T) : result BINS_T :=
  match next with
  | [] => Fail BadAccess
  | (k', next_bin) :: rest =>
      if Bin.empty next_bin then Ok ((k, b) :: next)
      else
        '(record, next_bin') ← Bin.get next_bin;
        '(smaller, larger) ← split record;
        Ok ((k, Bin.put (Bin.put b larger) smaller) :: (k', next_bin') :: rest)
  end.

(** The bins from the next one on, once they were given a chance to split. *)
Definition ensured (next : BINS_T) : result BINS_T :=
  if Bin.empty (head_bin next) then split_larger_bin next else Ok next.

Lemma split_larger_bin_cons k b next :
  next ≠ [] → split_larger_bin ((k, b) :: next) = ensured next ≫= pull k b.
Proof. by destruct next as [|[]]. Qed.

Lemma ensured_good e bins :
  7 ≤ e → bins ≠ [] → good_bins arena e bins → returns (ensured bins) (good_bins arena e).
Proof.
  intros He Hne Hg. unfold ensured. case_if; [|done].
  eapply returns_mono; [by apply (split_larger_bin_spec arena e)|].
  intros bins' [Hev _]. by destruct (evolves_good _ _ _ _ _ Hg Hev).
Qed.

Lemma ensured_shift bins :
  split_larger_bin (shift_bins d bins) = shift_bins d <$> split_larger_bin bins →
  ensured (shift_bins d bins) = shift_bins d <$> ensured bins.
Proof.
  intros H. unfold ensured. rewrite H.
  assert (Bin.empty (head_bin (shift_bins d bins)) = Bin.empty (head_bin bins)) as ->
    by (by destruct bins as [|[k [|]]]).
  by case_if.
Qed.

Lemma pull_shift e k b next :
  good_bins arena e next →
  pull k (shift_record d <$> b) (shift_bins d next) = shift_bins d <$> pull k b next.
Proof.
  intros Hg. destruct next as [|[k' [|r b']] rest]; [done|done|].
  apply good_bins_cons in Hg as (_ & [[_ Hr] _]%Forall_cons & _).
  simpl. rewrite (split_shift r Hr). by destruct (split r) as [[r1 r2]|].
Qed.

Lemma split_larger_bin_shift e bins :
  7 ≤ e → good_bins arena e bins →
  split_larger_bin (shift_bins d bins) = shift_bins d <$> split_larger_bin bins.
Proof.
  revert e. induction bins as [|[k b] next IH]; intros e He Hg; [done|].
  apply good_bins_cons in Hg as (_ & _ & Hgn).
  destruct (decide (next = [])) as [->|Hne]; [done|].
  rewrite shift_bins_cons, !split_larger_bin_cons by (done || by destruct next).
  rewrite ensured_shift by (apply (IH (e + 1)); [lia|done]).
  pose proof (ensured_good (e + 1) next ltac:(lia) Hne Hgn) as Hret.
  destruct (ensured next) as [next2|]; [|done]. by apply (pull_shift (e + 1)).
Qed.

Lemma retrieve_record_shift e bins :
  7 ≤ e → bins ≠ [] → good_bins arena e bins →
  retrieve_record_from_bin (shift_bins d bins) =
  (λ rb, (if decide (rb.1 = AR_default) then AR_default else shift_record d rb.1,
          shift_bins d rb.2)) <$> retrieve_record_from_bin bins.
Proof.
  intros He Hne Hg. unfold retrieve_record_from_bin.
  assert (∀ l, l ≠ [] → try_to_ensure_bin_has_records l = ensured l) as Htry.
  { by intros [|[k [|]] ?]. }
  rewrite !Htry by (done || by destruct bins).
  rewrite ensured_shift by (by apply (split_larger_bin_shift e)).
  pose proof (ensured_good e bins He Hne Hg) as Hret.
  destruct (ensured bins) as [[|[k' [|r b']] rest]|]; [done|done| |done].
  apply good_bins_cons in Hret as (_ & [[_ Hr] _]%Forall_cons & _).
  simpl. by rewrite decide_False by (by apply not_default).
Qed.

Lemma do_request_shift st p it :
  wf arena st → (it ≤ length (p2_bins st))%nat →
  do_request_using (shift d st) (shift_ptr d p) it =
  shift_result d <$> do_request_using st p it.
Proof.
  intros Hwf Hit. unfold do_request_using. simpl. rewrite length_shift_bins.
  destruct (it =? length (p2_bins st))%nat eqn:E; [done|]. apply Nat.eqb_neq in E.
  destruct (wf_good_bins arena st it Hwf) as [Hg|]; [|lia].
  assert (drop it (p2_bins st) ≠ []) as Hne
    by (intros Hn; apply (f_equal length) in Hn; rewrite length_drop in Hn; simpl in Hn; lia).
  rewrite shift_bins_take, shift_bins_drop.
  rewrite (retrieve_record_shift (7 + Z.of_nat it)) by (done || lia).
  pose proof (retrieve_record_spec arena (7 + Z.of_nat it) _ ltac:(lia) Hne Hg) as Hret.
  destruct (retrieve_record_from_bin _) as [[r it']|]; [|done]. simpl in *.
  destruct Hret as [(-> & -> & _)|[Hs Hev]].
  - rewrite decide_True by done. simpl. by rewrite <- shift_bins_app.
  - destruct (wf_take_record arena st it r it') as (Hf & Hra & _); [done|lia|done..|].
    pose proof (moved_null r Hra) as [H1 H2].
    rewrite decide_False by (by apply not_default).
    unfold emplace_in_proffered. rewrite H1, H2. simpl.
    unfold shift_result, shift, shift_ptr, get_address in *. simpl. rewrite H2.
    rewrite shift_bins_app, fmap_insert, (kmap_insert (λ p, p + d)). done.
Qed.

Lemma do_request_shift_null st it :
  wf arena st → (it ≤ length (p2_bins st))%nat →
  do_request_using (shift d st) nullptr it =
  shift_result d <$> do_request_using st nullptr it.
Proof. apply (do_request_shift st nullptr). Qed.

Lemma alloc_shift st ptr n :
  wf arena st → alloc (shift d st) ptr n = shift_result d <$> alloc st ptr n.
Proof.
  intros Hwf. unfold alloc. destruct (ptr =? nullptr) eqn:Eptr; [done|]. simpl.
  destruct (n =? 0); [done|].
  rewrite shift_bins_find. rewrite do_request_shift_null by (done || apply bins_find_le).
  pose proof (do_request_using_spec arena st nullptr (bins_find n (p2_bins st)) Hwf
    (bins_find_le _ _)) as Hret.
  destruct (do_request_using st nullptr (bins_find n (p2_bins st))) as [[p st']|]; [|done].
  simpl.
  assert (negb (shift_ptr d p =? nullptr) = negb (p =? nullptr) ∧
          (p = nullptr → st' = st)) as [-> Hst].
  { destruct Hret as [(-> & -> & _)|(r & -> & _ & _ & Hra & _)].
    - split; [|done]. by case_if.
    - destruct (moved_null r Hra) as [H1 H2]. unfold shift_ptr, get_address in *.
      rewrite H2. simpl in H1. rewrite H1. split; [done|]. intros E. by rewrite E in H2. }
  destruct (p =? nullptr) eqn:Ep; simpl; [|done].
  rewrite (Hst ltac:(lia)). rewrite shift_bins_lower_bound.
  assert (p = nullptr) as -> by lia.
  rewrite do_request_shift_null by (done || apply bins_lower_bound_le). done.
Qed.

Lemma free_shift st p :
  wf arena st → free (shift d st) (p + d) = shift d <$> free st p.
Proof.
  intros Hwf. unfold free, retrieve_from_proffered. simpl.
  rewrite (lookup_kmap (λ p, p + d)), lookup_fmap.
  destruct (proffered_ st !! p) as [r|] eqn:Hp;
    [|by destruct (p + d =? nullptr), (p =? nullptr)].
  destruct (wf_proffered _ _ Hwf _ _ Hp) as [<- _].
  assert (arena_block arena r) as Hra.
  { pose proof (wf_arena _ _ Hwf) as Hall. rewrite (records_delete _ _ _ Hp) in Hall.
    by apply Forall_cons in Hall as [? _]. }
  destruct (moved_null r Hra) as [H1 H2]. unfold get_address in H1, H2. simpl in H1.
  rewrite H1, H2. simpl.
  unfold emplace_record_in_bin. simpl. rewrite shift_bins_find, length_shift_bins.
  unfold get_size. simpl.
  destruct (bins_find (size_ r) (p2_bins st) =? length (p2_bins st))%nat eqn:E; [done|].
  apply Nat.eqb_neq in E. simpl. unfold shift. simpl. f_equal. f_equal.
  - set (i := bins_find _ _) in *.
    pose proof (bins_find_le (size_ r) (p2_bins st)).
    destruct (lookup_lt_is_Some_2 (p2_bins st) i ltac:(lia)) as [[k b] Hk].
    rewrite (alter_take_drop _ _ _ _ Hk), shift_bins_app, shift_bins_cons.
    rewrite (alter_take_drop _ _ i (k, shift_record d <$> b)).
    + by rewrite shift_bins_take, shift_bins_drop.
    + unfold shift_bins. by rewrite list_lookup_fmap, Hk.
  - by rewrite fmap_delete, (kmap_delete (λ p, p + d)).
Qed.
End moved.

(** ** The constructor commutes with the move *)

Section moved_binner.
Context (d : Z) (Hd : d `mod` ALIGNMENT = 0).

Lemma assign_rev_shift rbins chunk size :
  assign_rev (shift_bins d rbins) (chunk + d) size =
  (λ kb, (kb.1, shift_bins d kb.2)) <$> assign_rev rbins chunk size.
Proof.
  induction rbins as [|[k b] rest IH]; [done|]. rewrite shift_bins_cons. simpl.
  destruct (k <=? size); [done|]. rewrite IH.
  by destruct (assign_rev rest chunk size) as [[]|].
Qed.

(** One round moves with the heap, except that the end marker stays null. *)
Lemma assign_heap_chunk_shift bins c :
  Forall (λ kb, 0 ≤ kb.1) bins →
  0 ≤ address_ c → 0 ≤ address_ c + d → 0 ≤ size_ c →
  address_ c + size_ c < 2 ^ 64 → address_ c + d + size_ c < 2 ^ 64 →
  (assign_heap_chunk bins c = (AR_default, bins) ∧
   assign_heap_chunk (shift_bins d bins) (shift_record d c) =
     (AR_default, shift_bins d bins)) ∨
  (∃ k bins', 0 ≤ k ≤ size_ c ∧ bins'.*1 = bins.*1 ∧
   assign_heap_chunk bins c = (AR (address_ c + k) (size_ c - k), bins') ∧
   assign_heap_chunk (shift_bins d bins) (shift_record d c) =
     (shift_record d (AR (address_ c + k) (size_ c - k)), shift_bins d bins')).
Proof.
  intros Hk Ha Ha' Hs He He'. unfold assign_heap_chunk, get_address, get_size.
  rewrite <- shift_bins_rev. simpl. rewrite assign_rev_shift.
  destruct (assign_rev (rev bins) (address_ c) (size_ c)) as [[k rb]|] eqn:E; [right|by left].
  apply assign_rev_Some in E as (r1 & b & r2 & Hrev & -> & Hle & _).
  assert (bins = rev r2 ++ (k, b) :: rev r1) as ->.
  { rewrite <- (rev_involutive bins), Hrev, rev_app_distr. simpl. by rewrite <- app_assoc. }
  apply Forall_app in Hk as [_ [Hk _]%Forall_cons]. simpl in Hk.
  exists k, (rev (r1 ++ (k, AR (address_ c) k :: b) :: r2)). simpl.
  rewrite !uwrap_small by lia. split_and!; [lia|lia| |done|].
  - rewrite rev_app_distr. simpl. by rewrite <- app_assoc, !fmap_app.
  - rewrite <- shift_bins_rev. unfold shift_record. simpl. do 2 f_equal. lia.
Qed.

Lemma assign_loop_shift fuel bins c :
  Forall (λ kb, 0 ≤ kb.1) bins →
  0 < address_ c → 0 < address_ c + d → 0 ≤ size_ c →
  address_ c + size_ c < 2 ^ 64 → address_ c + d + size_ c < 2 ^ 64 →
  assign_loop fuel (shift_bins d bins) (shift_record d c) =
  shift_bins d <$> assign_loop fuel bins c.
Proof.
  revert bins c. induction fuel as [|fuel IH]; intros bins c Hk Ha Ha' Hs He He';
    cbn [assign_loop]; unfold get_address, nullptr; simpl;
    rewrite !(proj2 (Z.eqb_neq _ 0)) by lia; [done|].
  destruct (assign_heap_chunk_shift bins c) as
    [[-> ->]|(k & bins' & Hk' & Hkeys & -> & ->)]; try lia; [done|by destruct fuel|].
  apply IH; simpl; try lia.
  apply (proj1 (Forall_fmap fst (Z.le 0) bins')). rewrite Hkeys. by apply Forall_fmap.
Qed.

Lemma ignore_unaligned_shift r :
  0 < address_ r → ALIGNMENT ≤ size_ r →
  address_ r + size_ r < 2 ^ 64 → 0 < address_ r + d → address_ r + d + size_ r < 2 ^ 64 →
  ignore_unaligned_heap_memory (shift_record d r) =
  shift_record d (ignore_unaligned_heap_memory r).
Proof.
  destruct r as [a s]. simpl. intros Ha Hs He Ha' He'.
  destruct (ignore_unaligned_spec a s) as (-> & _); [done..|].
  unfold shift_record. simpl.
  destruct (ignore_unaligned_spec (a + d) s) as (-> & _); [lia|done|lia|].
  assert ((- (a + d)) `mod` ALIGNMENT = (- a) `mod` ALIGNMENT) as ->.
  { rewrite <- (Z_mod_plus_full (- (a + d)) (d / ALIGNMENT) ALIGNMENT).
    f_equal. pose proof (Z.div_mod d ALIGNMENT ltac:(done)). lia. }
  f_equal. lia.
Qed.

Lemma Pow2Bins_new_shift ptr size :
  0 < ptr → 0 < ptr + d → ALIGNMENT ≤ size →
  ptr + size < 2 ^ 64 → ptr + d + size < 2 ^ 64 →
  Pow2Bins_new (ptr + d) size = shift d <$> Pow2Bins_new ptr size.
Proof.
  intros Hp Hp' Hs He He'. unfold Pow2Bins_new.
  assert (ALIGNMENT = 128) as Hal by done.
  rewrite !Binner_new_spec by lia. simpl.
  unfold assign_heap_to_bins. simpl. unfold get_address, get_size, nullptr. simpl.
  rewrite !(proj2 (Z.eqb_neq _ 0)) by lia. simpl.
  pose proof (ignore_unaligned_shift (AR ptr size)) as Hig. simpl in Hig.
  unfold shift_record in Hig at 1. simpl in Hig. rewrite Hig by lia.
  destruct (ignore_unaligned_spec ptr size) as (-> & _ & Hpad); [done..|].
  unfold assign_heap_memory_to_bins.
  set (bins := empty_bins _ _).
  assert (shift_bins d bins = bins) as Hsh.
  { unfold bins, empty_bins, shift_bins. rewrite <- list_fmap_compose. done. }
  pose proof (assign_loop_shift (S (length bins)) bins
    (AR (ptr + (- ptr) `mod` ALIGNMENT) (size - (- ptr) `mod` ALIGNMENT))) as Hloop.
  rewrite Hsh in Hloop. rewrite Hloop; clear Hloop; [|simpl; try lia..].
  - destruct (assign_loop _ _ _) as [bins'|]; [|done]. simpl. unfold shift. simpl.
    by rewrite fmap_empty, kmap_empty.
  - unfold bins, empty_bins. apply Forall_fmap. unfold compose. simpl.
    clear. generalize 7. induction (Z.to_nat (Z.log2 size - 6)) as [|n IH]; intros z;
      constructor; [apply Z.pow_nonneg; lia|apply IH].
Qed.
End moved_binner.
