(* ===== verification/Heap.v ===== *)
(** * Heaps

    The layers around the allocation strategy: [memory/memory_allocator.cpp]
    (a uniform wrapper of the system's allocators), [memory/heap_memory.hpp],
    [memory/single_heap.cpp] with the size it reads from the environment,
    [memory/window_info.hpp], [memory/remote_heap_info.hpp] and
    [memory/symmetric_heap.hpp]. *)
From S2P Require Import Prelude AddressRecord Bins Binner Pow2Bins.
From S2P Require Import AllocatorStrategy Symmetry.

Local Open Scope Z_scope.

Definition EXIT_FAILURE : Z := 1.
Definition hipSuccess : Z := 0.

(** The macro [CHECK_HIP] of [util.hpp]. *)
Definition CHECK_HIP (error : Z) : result unit :=
  if negb (error =? hipSuccess) then Fail (ExitProgram EXIT_FAILURE) else Ok tt.

(** ** [class MemoryAllocator]

    The wrapped functions belong to the system; each takes the system's state
    [W] and gives the new one.  A function that writes through a [void**]
    returns what it writes, [None] when it leaves the handle alone. *)
Section MemoryAllocator.
Context {W : Type}.

Record MemoryAllocator := mkMemoryAllocator {
  _managed : bool;
  _alloc_posix_memalign : option (W → Z → Z → Z * option Z * W);
  _alignment : Z;
  _alloc : option (W → Z → Z * W);
  _free : option (W → Z → W);
  _hip_alloc : option (W → Z → Z * option Z * W);
  _hip_alloc_with_flags : option (W → Z → Z → Z * option Z * W);
  _hip_free : option (W → Z → Z * W);
  _flags : Z
}.

(** The four constructors. *)
Definition MA_hip_flags hip_alloc_fn hip_free_fn flags : MemoryAllocator :=
  mkMemoryAllocator false None 0 None None None (Some hip_alloc_fn) (Some hip_free_fn) flags.
Definition MA_hip hip_alloc_fn hip_free_fn : MemoryAllocator :=
  mkMemoryAllocator false None 0 None None (Some hip_alloc_fn) None (Some hip_free_fn) 0.
Definition MA_std alloc_fn free_fn : MemoryAllocator :=
  mkMemoryAllocator false None 0 (Some alloc_fn) (Some free_fn) None None None 0.
Definition MA_posix posix_align_fn free_fn alignment : MemoryAllocator :=
  mkMemoryAllocator false (Some posix_align_fn) alignment None (Some free_fn) None None None 0.

(** [MemoryAllocator::allocate]: [void_ptr] is the handle's address, [old]
    what it holds before the call; the result is what it holds after. *)
Definition allocate (m : MemoryAllocator) (w : W) (void_ptr old size : Z)
    : result (Z * W) :=
  _ ← assert_ (negb (void_ptr =? nullptr));
  match _alloc m with
  | Some f =>
      let '(p, w') := f w size in
      _ ← assert_ (negb (p =? nullptr));
      Ok (p, w')
  | None =>
      match _alloc_posix_memalign m with
      | Some f =>
          _ ← assert_ (negb (_alignment m =? 0));
          let '(_, out, w') := f w (_alignment m) size in
          let p := default old out in
          _ ← assert_ (negb (p =? nullptr));
          Ok (p, w')
      | None =>
          match _hip_alloc m with
          | Some f =>
              let '(error, out, w') := f w size in
              _ ← CHECK_HIP error;
              Ok (default old out, w')
          | None =>
              match _hip_alloc_with_flags m with
              | Some f =>
                  let '(error, out, w') := f w size (_flags m) in
                  _ ← CHECK_HIP error;
                  Ok (default old out, w')
              | None => Fail AssertFailed
              end
          end
      end
  end.

(** [MemoryAllocator::deallocate]. *)
Definition deallocate (m : MemoryAllocator) (w : W) (ptr : Z) : result W :=
  if ptr =? nullptr then Ok w
  else
    match _free m with
    | Some f => Ok (f w ptr)
    | None =>
        match _hip_free m with
        | Some f =>
            let '(error, w') := f w ptr in
            _ ← CHECK_HIP error;
            Ok w'
        | None => Fail AssertFailed
        end
    end.

(** [MemoryAllocator::is_managed]. *)
Definition is_managed (m : MemoryAllocator) : bool := _managed m.

(** ** [class HeapMemory] *)

Record HeapMemory := mkHeapMemory {
  allocator_ : MemoryAllocator;
  up_ : Z;
  hm_size_ : Z
}.

(** The secondary constructor; [temp] is what the uninitialised local holds. *)
Definition HeapMemory_sized (m : MemoryAllocator) (w : W) (temp size : Z)
    : result (HeapMemory * W) :=
  '(temp, w) ← allocate m w 1 temp size;
  _ ← assert_ (negb (temp =? nullptr));
  Ok (mkHeapMemory m temp size, w).

Definition gibibyte_ : Z := Z.shiftl 1 30.

Definition HeapMemory_default (m : MemoryAllocator) (w : W) (temp : Z) :=
  HeapMemory_sized m w temp gibibyte_.

Definition get_ptr (h : HeapMemory) : Z := up_ h.
Definition hm_get_size (h : HeapMemory) : Z := hm_size_ h.

(** Move assignment [h = HeapMemory{..}]: the owning pointer releases the
    old block with a default-constructed copy of the allocator, which is the
    same allocator type. *)
Definition HeapMemory_assign (h h' : HeapMemory) (w : W) : result (HeapMemory * W) :=
  w ← deallocate (allocator_ h) w (up_ h);
  Ok (h', w).
End MemoryAllocator.
Arguments MemoryAllocator : clear implicits.
Arguments HeapMemory : clear implicits.

(** ** The heap size in the environment

    [std::istream >> size_t] on the bytes of the variable: white space, an
    optional sign, decimal digits; zero when there is no digit, the largest
    value when the number is too large, and the negated number modulo [2 ^ 64]
    after a minus sign. *)

Definition is_space (c : Z) : bool := (c =? 32) || ((9 <=? c) && (c <=? 13)).
Definition is_digit (c : Z) : bool := (48 <=? c) && (c <=? 57).

Fixpoint skip_space (s : list Z) : list Z :=
  match s with
  | c :: s' => if is_space c then skip_space s' else s
  | [] => []
  end.

Fixpoint digits_value (acc : Z) (s : list Z) : Z :=
  match s with
  | c :: s' => if is_digit c then digits_value (10 * acc + (c - 48)) s' else acc
  | [] => acc
  end.

Definition extract_size_t (s : list Z) : Z :=
  let s := skip_space s in
  let '(neg, s) :=
    match s with
    | c :: s' => if c =? 45 then (true, s') else if c =? 43 then (false, s') else (false, s)
    | [] => (false, [])
    end in
  let v := digits_value 0 s in
  if 2 ^ 64 <=? v then 2 ^ 64 - 1 else if neg : bool then u64 (- v) else v.

(** ** [class SingleHeap] *)

Section SingleHeap.
Context {W : Type}.

Record SingleHeap := mkSingleHeap {
  heap_mem_ : HeapMemory W;
  strat_ : Pow2Bins
}.

(** [SingleHeap::SingleHeap]: the members' initialisers, then the body;
    [getenv_] is what [getenv("ROC_SHMEM_HEAP_SIZE")] returns. *)
Definition SingleHeap_new (m : MemoryAllocator W) (w : W) (temp : Z)
    (getenv_ : option (list Z)) : result (SingleHeap * W) :=
  '(heap_mem, w) ← HeapMemory_default m w temp;
  strat ← Pow2Bins_new (get_ptr heap_mem) (hm_get_size heap_mem);
  match getenv_ with
  | None => Ok (mkSingleHeap heap_mem strat, w)
  | Some heap_size_cstr =>
      let heap_size := extract_size_t heap_size_cstr in
      '(new_mem, w) ← HeapMemory_sized m w temp heap_size;
      '(heap_mem, w) ← HeapMemory_assign heap_mem new_mem w;
      strat ← Pow2Bins_new (get_ptr heap_mem) (hm_get_size heap_mem);
      Ok (mkSingleHeap heap_mem strat, w)
  end.

(** [SingleHeap::malloc] with the handle at [ptr]. *)
Definition malloc (h : SingleHeap) (ptr size : Z) : result (Z * SingleHeap) :=
  '(p, strat) ← alloc (strat_ h) ptr size;
  Ok (p, mkSingleHeap (heap_mem_ h) strat).

(** [SingleHeap::free]. *)
Definition heap_free (h : SingleHeap) (ptr : Z) : result SingleHeap :=
  if ptr =? nullptr then Ok h
  else
    strat ← free (strat_ h) ptr;
    Ok (mkSingleHeap (heap_mem_ h) strat).

(** [SingleHeap::realloc] and [SingleHeap::malign] are stubs of the source. *)
Definition realloc (h : SingleHeap) (ptr size : Z) : Z := nullptr.
Definition malign (h : SingleHeap) (alignment size : Z) : Z := nullptr.

Definition get_base_ptr (h : SingleHeap) : Z := get_ptr (heap_mem_ h).
Definition heap_get_size (h : SingleHeap) : Z := hm_get_size (heap_mem_ h).
Definition get_used (h : SingleHeap) : Z := amount_proffered (strat_ h).
Definition get_avail (h : SingleHeap) : Z := u64 (heap_get_size h - get_used h).

(** The heap's block as a record: the arena of its strategy. *)
Definition heap_arena (h : SingleHeap) : AddressRecord :=
  AR (get_base_ptr h) (heap_get_size h).

Definition heap_ok (h : SingleHeap) : Prop :=
  0 < get_base_ptr h ∧ ALIGNMENT ≤ heap_get_size h ∧
  get_base_ptr h + heap_get_size h < 2 ^ 64 ∧ wf (heap_arena h) (strat_ h).
End SingleHeap.
Arguments SingleHeap : clear implicits.

(** ** [class WindowInfo] *)

Record WindowInfo := mkWindowInfo {
  win_start_ : Z;
  win_end_ : Z
}.

Definition WindowInfo_new (start size : Z) : WindowInfo :=
  mkWindowInfo start (u64 (start + size)).

Section window.
(** The two MPI calls on addresses. *)
Context (MPI_Get_address : Z → Z) (MPI_Aint_diff : Z → Z → Z).

(** [WindowInfo::get_offset]. *)
Definition get_offset (w : WindowInfo) (dest : Z) : result Z :=
  _ ← assert_ (win_start_ w <=? dest);
  _ ← assert_ (win_start_ w <=? dest);
  _ ← assert_ (dest <? win_end_ w);
  let dest_disp := MPI_Get_address dest in
  let start_disp := MPI_Get_address (win_start_ w) in
  Ok (MPI_Aint_diff dest_disp start_disp).
End window.

(** ** [class RemoteHeapInfo] *)

(** The buffer that a processing element brings to the collective of the
    constructor: null everywhere but for its own heap's base. *)
Definition heap_bases_before (num_pes my_pe : nat) (heap_ptr : Z) : list Z :=
  <[my_pe := heap_ptr]> (replicate num_pes nullptr).

(** The constructors of all processing elements together: [MPI_Allgather]
    (in place) takes every rank's buffer and gives every rank's result. *)
Definition RemoteHeapInfo_new (MPI_Allgather : list (list Z) → list (list Z))
    (heap_ptrs : list Z) : list (list Z) :=
  MPI_Allgather (imap (λ me p, heap_bases_before (length heap_ptrs) me p) heap_ptrs).

(** ** Lemmas *)

Section heap_lemmas.
Context {W : Type}.
Implicit Types h : SingleHeap W.

Lemma malloc_spec h ptr n :
  heap_ok h → ptr ≠ nullptr →
  returns (malloc h ptr n) (λ '(p, h'),
    heap_ok h' ∧ heap_mem_ h' = heap_mem_ h ∧
    alloc_outcome (heap_arena h) (strat_ h) n (p, strat_ h')).
Proof.
  intros (Hb & Hs & He & Hwf) Hptr. unfold malloc.
  eapply returns_bind; [by apply (alloc_outcome_holds (heap_arena h))|].
  intros [p st'] Hout. cbn. split; [|done]. split_and!; try done.
  destruct Hout as [(_ & -> & _)|(r & _ & _ & _ & _ & _ & Hwf' & _)]; [by destruct h|done].
Qed.

Lemma heap_free_spec h p :
  heap_ok h → p = nullptr ∨ is_Some (proffered_ (strat_ h) !! p) →
  returns (heap_free h p) (λ h',
    heap_ok h' ∧ heap_mem_ h' = heap_mem_ h ∧
    (p = nullptr → h' = h) ∧
    (p ≠ nullptr → proffered_ (strat_ h') = delete p (proffered_ (strat_ h)))).
Proof.
  intros (Hb & Hs & He & Hwf) Hp. unfold heap_free.
  destruct (p =? nullptr) eqn:E; [by split_and!; try lia|].
  destruct Hp as [Hp|[r Hr]]; [lia|].
  eapply returns_bind; [by apply (free_outcome (heap_arena h))|].
  intros st' (Hwf' & Hdel & _). cbn. split; [by split_and!|]. split_and!; [done|lia|done].
Qed.
End heap_lemmas.

(** ** Programs of symmetric calls *)

(** A call that every processing element makes; a release names the result of
    an earlier allocation by its position. *)
Inductive scall :=
  | SMalloc (n : Z)
  | SFree (i : nat).

Section symmetric_program.
Context {W : Type}.
Implicit Types h : SingleHeap W.

(** What one processing element computes: the pointers, in order.  The
    [SymmetricHeap] methods delegate to its [SingleHeap]. *)
Fixpoint run (h : SingleHeap W) (ptrs : list Z) (calls : list scall)
    : result (list Z * SingleHeap W) :=
  match calls with
  | [] => Ok (ptrs, h)
  | SMalloc n :: rest =>
      '(p, h') ← malloc h 1 n;
      run h' (ptrs ++ [p]) rest
  | SFree i :: rest =>
      p ← must (ptrs !! i);
      h' ← heap_free h p;
      run h' ptrs rest
  end.

Definition in_arena (arena : AddressRecord) (p : Z) : Prop :=
  p = nullptr ∨ address_ arena ≤ p < address_ arena + size_ arena.

Section two_heaps.
Context (d : Z).

(** The same heap, [d] bytes further on. *)
Definition moved_heap h : SingleHeap W :=
  mkSingleHeap (mkHeapMemory (allocator_ (heap_mem_ h)) (get_base_ptr h + d)
                             (heap_get_size h))
               (shift d (strat_ h)).

Context (arena : AddressRecord).
Context (Hlo : 0 < address_ arena) (Hlo' : 0 < address_ arena + d).
Context (Hhi : address_ arena + size_ arena < 2 ^ 64).
Context (Hhi' : address_ arena + d + size_ arena < 2 ^ 64).

Lemma shift_ptr_null p : in_arena arena p →
  (shift_ptr d p =? nullptr) = (p =? nullptr).
Proof.
  unfold shift_ptr, nullptr. intros [->|Hp]; [done|].
  rewrite (proj2 (Z.eqb_neq p 0)) by lia. apply Z.eqb_neq. lia.
Qed.

Lemma run_moved calls : ∀ h (ptrs : list Z),
  wf arena (strat_ h) → Forall (in_arena arena) ptrs →
  run (moved_heap h) (shift_ptr d <$> ptrs) calls =
  (λ res : list Z * SingleHeap W, (shift_ptr d <$> res.1, moved_heap res.2)) <$> run h ptrs calls.
Proof.
  induction calls as [|[n|i] rest IH]; intros h ptrs Hwf Hptrs; [done|..]; cbn [run].
  - unfold malloc. simpl. rewrite (alloc_shift arena d) by done.
    pose proof (alloc_outcome_holds arena (strat_ h) 1 n Hwf ltac:(done)) as Hout.
    destruct (alloc (strat_ h) 1 n) as [[p st']|]; [|done]. cbn.
    rewrite <- (IH (mkSingleHeap (heap_mem_ h) st') (ptrs ++ [p])).
    + by rewrite fmap_app.
    + destruct Hout as [(_ & -> & _)|(r & _ & _ & _ & _ & _ & ? & _)]; done.
    + apply Forall_app. split; [done|]. constructor; [|done].
      destruct Hout as [(-> & _)|(r & -> & ((Hr & _ & Hin) & _) & _)]; [by left|right].
      destruct Hr as (_ & ? & _), Hin as [? ?]. lia.
  - rewrite list_lookup_fmap. destruct (ptrs !! i) as [p|] eqn:Ep; [|done]. cbn.
    assert (in_arena arena p) as Hp by (by eapply Forall_lookup).
    unfold heap_free. rewrite shift_ptr_null by done.
    destruct (p =? nullptr) eqn:En; [by apply IH|]. simpl.
    assert (shift_ptr d p = p + d) as -> by (unfold shift_ptr; by rewrite En).
    rewrite (free_shift arena d) by done.
    destruct (free (strat_ h) p) as [st'|] eqn:Ef; [|done]. cbn.
    rewrite <- (IH (mkSingleHeap (heap_mem_ h) st') ptrs); [done| |done].
    destruct (proffered_ (strat_ h) !! p) as [r|] eqn:Er.
    + pose proof (free_outcome arena _ _ _ Hwf Er) as H. rewrite Ef in H. apply H.
    + rewrite free_not_live in Ef; [done|]. unfold live. by rewrite lookup_fmap, Er.
Qed.
End two_heaps.
End symmetric_program.

Lemma run_new_moved {W} (m : MemoryAllocator W) base d size calls st1 st2 :
  0 < base → 0 < base + d → ALIGNMENT ≤ size →
  base + size < 2 ^ 64 → base + d + size < 2 ^ 64 → d `mod` ALIGNMENT = 0 →
  Pow2Bins_new base size = Ok st1 → Pow2Bins_new (base + d) size = Ok st2 →
  run (mkSingleHeap (mkHeapMemory m (base + d) size) st2) [] calls =
  (λ res : list Z * SingleHeap W, (shift_ptr d <$> res.1, moved_heap d res.2)) <$>
    run (mkSingleHeap (mkHeapMemory m base size) st1) [] calls.
Proof.
  intros Hb Hb' Hs He He' Hd H1 H2.
  rewrite (Pow2Bins_new_shift d Hd), H1 in H2 by done. simplify_eq/=.
  pose proof (Pow2Bins_new_spec base size Hb Hs He) as Hwf. rewrite H1 in Hwf.
  destruct Hwf as [Hwf _].
  exact (run_moved d (AR base size) Hb Hb' He He' calls
    (mkSingleHeap (mkHeapMemory m base size) st1) [] Hwf ltac:(constructor)).
Qed.

(** Every pointer a program gets is null or inside the heap. *)
Lemma run_in_arena {W} arena calls : ∀ (h : SingleHeap W) ptrs ptrs' h',
  wf arena (strat_ h) → Forall (in_arena arena) ptrs →
  run h ptrs calls = Ok (ptrs', h') → Forall (in_arena arena) ptrs'.
Proof.
  induction calls as [|[n|i] rest IH]; intros h ptrs ptrs' h' Hwf Hptrs; cbn [run].
  - by intros [= <- <-].
  - unfold malloc.
    pose proof (alloc_outcome_holds arena (strat_ h) 1 n Hwf ltac:(done)) as Hout.
    destruct (alloc (strat_ h) 1 n) as [[p st']|]; [|done]. cbn.
    apply IH; destruct Hout as
      [(-> & -> & _)|(r & -> & ((Hr & _ & Hin) & _) & _ & _ & _ & Hwf' & _)]; try done.
    + apply Forall_app. split; [done|]. constructor; [by left|done].
    + apply Forall_app. split; [done|]. constructor; [right|done].
      destruct Hr as (_ & ? & _), Hin as [? ?]. lia.
  - destruct (ptrs !! i) as [p|]; [|done]. cbn. unfold heap_free.
    destruct (p =? nullptr); [by apply IH|].
    destruct (free (strat_ h) p) as [st'|] eqn:Ef; [|done]. cbn. apply IH; [|done].
    destruct (proffered_ (strat_ h) !! p) as [r|] eqn:Er.
    + pose proof (free_outcome arena _ _ _ Hwf Er) as H. rewrite Ef in H. apply H.
    + rewrite free_not_live in Ef; [done|]. unfold live. by rewrite lookup_fmap, Er.
Qed.

Section window_lemmas.
Context (MPI_Get_address : Z → Z) (MPI_Aint_diff : Z → Z → Z).
(** The difference of two addresses is what the MPI calls compute. *)
Context (Aint_diff_spec : ∀ a b, 0 ≤ b ≤ a → a - b < 2 ^ 63 →
  MPI_Aint_diff (MPI_Get_address a) (MPI_Get_address b) = a - b).

Lemma get_offset_spec start size p :
  0 < start → 0 ≤ size < 2 ^ 63 → start + size < 2 ^ 64 →
  get_offset MPI_Get_address MPI_Aint_diff (WindowInfo_new start size) p =
  if (start <=? p) && (p <? start + size) then Ok (p - start) else Fail AssertFailed.
Proof.
  intros Hs He H63. unfold get_offset, WindowInfo_new. simpl.
  destruct (start <=? p) eqn:E1; [|done]. simpl. rewrite uwrap_small by lia.
  destruct (p <? start + size) eqn:E2; [|done]. simpl.
  rewrite Aint_diff_spec by lia. done.
Qed.
End window_lemmas.

(** ** Decimal numbers *)

(** The decimal digits of [n], as bytes, the most significant first. *)
Fixpoint decimal (fuel : nat) (n : Z) : list Z :=
  match fuel with
  | O => []
  | S f => if n <? 10 then [48 + n] else decimal f (n / 10) ++ [48 + n `mod` 10]
  end.

Lemma digits_value_app s1 : ∀ acc s2,
  Forall (λ c, is_digit c = true) s1 →
  digits_value acc (s1 ++ s2) = digits_value (digits_value acc s1) s2.
Proof.
  induction s1 as [|c s1 IH]; intros acc s2; [done|].
  intros [Hc Hs]%Forall_cons. simpl. rewrite Hc. by apply IH.
Qed.

Lemma is_digit_spec n : 0 ≤ n < 10 → is_digit (48 + n) = true.
Proof. unfold is_digit. lia. Qed.

Lemma decimal_spec fuel : ∀ n, 0 ≤ n < 10 ^ Z.of_nat fuel → (0 < fuel)%nat →
  Forall (λ c, is_digit c = true) (decimal fuel n) ∧
  digits_value 0 (decimal fuel n) = n ∧ decimal fuel n ≠ [].
Proof.
  induction fuel as [|f IH]; intros n Hn Hf; [lia|]. cbn [decimal].
  destruct (n <? 10) eqn:E.
  - cbn [digits_value]. rewrite is_digit_spec by lia. split_and!; [|lia|done].
    constructor; [apply is_digit_spec; lia|done].
  - assert (0 ≤ n `mod` 10 < 10) by (apply Z.mod_pos_bound; lia).
    assert (0 < f)%nat by (destruct f; [simpl in Hn|]; lia).
    destruct (IH (n / 10)) as (Hd & Hv & Hne); [|done|].
    { split; [apply Z.div_pos; lia|]. apply Z.div_lt_upper_bound; [lia|].
      rewrite Nat2Z.inj_succ, Z.pow_succ_r in Hn by lia. lia. }
    split_and!.
    + apply Forall_app. split; [done|]. constructor; [by apply is_digit_spec|done].
    + rewrite digits_value_app, Hv by done. cbn [digits_value].
      rewrite is_digit_spec by lia. pose proof (Z.div_mod n 10). lia.
    + by destruct (decimal f (n / 10)).
Qed.

Lemma digit_not_special c : is_digit c = true →
  is_space c = false ∧ (c =? 45) = false ∧ (c =? 43) = false.
Proof. unfold is_digit, is_space. lia. Qed.

(** ** Properties *)

(** C26: Symmetric allocation.  Two processing elements whose heaps have the
    same size and bases a multiple of [ALIGNMENT] apart run the same program of
    allocations and releases with the same success or failure, and every
    pointer of one is the pointer of the other moved by the distance of the
    bases. *)
Theorem symmetric_pointers {W} (m : MemoryAllocator W) base d size calls st1 st2 :
  0 < base → 0 < base + d → ALIGNMENT ≤ size →
  base + size < 2 ^ 64 → base + d + size < 2 ^ 64 → d `mod` ALIGNMENT = 0 →
  Pow2Bins_new base size = Ok st1 → Pow2Bins_new (base + d) size = Ok st2 →
  run (mkSingleHeap (mkHeapMemory m (base + d) size) st2) [] calls =
  (λ res : list Z * SingleHeap W, (shift_ptr d <$> res.1, moved_heap d res.2)) <$>
    run (mkSingleHeap (mkHeapMemory m base size) st1) [] calls.
Proof. apply run_new_moved. Qed.

(** A system allocator for the examples: a bump pointer. *)
Definition bump_allocator : MemoryAllocator Z :=
  MA_hip_flags (λ w size _, (hipSuccess, Some w, w + size)) (λ w _, (hipSuccess, w)) 0.

Definition pow2_or_empty (r : result Pow2Bins) : Pow2Bins :=
  match r with Ok st => st | Fail _ => mkPow2Bins [] ∅ end.

Definition sample_program : list scall :=
  [SMalloc 100; SMalloc 300; SFree 0; SMalloc 600; SMalloc 200].

Lemma symmetric_pointers_witness :
  let st1 := pow2_or_empty (Pow2Bins_new 4096 1000) in
  let st2 := pow2_or_empty (Pow2Bins_new (4096 + 1280) 1000) in
  run (mkSingleHeap (mkHeapMemory bump_allocator (4096 + 1280) 1000) st2) [] sample_program =
  (λ res : list Z * SingleHeap Z, (shift_ptr 1280 <$> res.1, moved_heap 1280 res.2)) <$>
    run (mkSingleHeap (mkHeapMemory bump_allocator 4096 1000) st1) [] sample_program.
Proof. apply symmetric_pointers; done. Defined.

Example sample_program_run :
  fst <$> run (mkSingleHeap (mkHeapMemory bump_allocator 4096 1000) small_heap) []
    sample_program = Ok [4864; 4096; 0; 4608].
Proof. vm_compute. reflexivity. Qed.

(** The displacement used for one-sided communication is the same on every
    processing element.  For the [i]-th allocation of a program, the window of
    each processing element accepts its pointer, and the offsets are equal and
    lie inside the window. *)
Theorem symmetric_window_offset {W} (m : MemoryAllocator W)
    MPI_Get_address MPI_Aint_diff base d size calls st1 st2 ptrs1 ptrs2 h1 h2 i p1 p2 :
  (∀ a b, 0 ≤ b ≤ a → a - b < 2 ^ 63 →
     MPI_Aint_diff (MPI_Get_address a) (MPI_Get_address b) = a - b) →
  0 < base → 0 < base + d → ALIGNMENT ≤ size < 2 ^ 63 →
  base + size < 2 ^ 64 → base + d + size < 2 ^ 64 → d `mod` ALIGNMENT = 0 →
  Pow2Bins_new base size = Ok st1 → Pow2Bins_new (base + d) size = Ok st2 →
  run (mkSingleHeap (mkHeapMemory m base size) st1) [] calls = Ok (ptrs1, h1) →
  run (mkSingleHeap (mkHeapMemory m (base + d) size) st2) [] calls = Ok (ptrs2, h2) →
  ptrs1 !! i = Some p1 → ptrs2 !! i = Some p2 → p1 ≠ nullptr →
  ∃ off, 0 ≤ off < size ∧
    get_offset MPI_Get_address MPI_Aint_diff (WindowInfo_new base size) p1 = Ok off ∧
    get_offset MPI_Get_address MPI_Aint_diff (WindowInfo_new (base + d) size) p2 = Ok off.
Proof.
  intros Hmpi Hb Hb' [Hs H63] He He' Hd H1 H2 Hr1 Hr2 Hp1 Hp2 Hnn.
  assert (0 ≤ size) by (unfold ALIGNMENT in Hs; lia).
  pose proof (run_new_moved m base d size calls st1 st2 Hb Hb' Hs He He' Hd H1 H2) as Hrun.
  rewrite Hr1, Hr2 in Hrun. simplify_eq/=.
  rewrite list_lookup_fmap, Hp1 in Hp2. simplify_eq/=.
  pose proof (Pow2Bins_new_spec base size Hb Hs He) as Hwf. rewrite H1 in Hwf.
  destruct Hwf as [Hwf _].
  pose proof (run_in_arena (AR base size) calls
    (mkSingleHeap (mkHeapMemory m base size) st1) [] _ _ Hwf ltac:(constructor) Hr1) as Hin.
  destruct (Forall_lookup_1 _ _ _ _ Hin Hp1) as [|Hin1]; [done|]. simpl in Hin1.
  exists (p1 - base). split; [lia|].
  rewrite !(get_offset_spec _ _ Hmpi) by lia. unfold shift_ptr.
  rewrite (proj2 (Z.eqb_neq _ _) Hnn).
  rewrite !(proj2 (Z.leb_le _ _)), !(proj2 (Z.ltb_lt _ _)) by lia. simpl.
  split; [done|]. f_equal. lia.
Qed.

Lemma symmetric_window_offset_witness :
  ∃ off, 0 ≤ off < 1000 ∧
    get_offset id Z.sub (WindowInfo_new 4096 1000) 4608 = Ok off ∧
    get_offset id Z.sub (WindowInfo_new (4096 + 1280) 1000) 5888 = Ok off.
Proof.
  eapply (symmetric_window_offset bump_allocator id Z.sub 4096 1280 1000 sample_program
    small_heap (shift 1280 small_heap) _ _ _ _ 3%nat); try done; vm_compute; reflexivity.
Defined.

(** A heap size given as a decimal number in the environment is read back
    exactly, whatever white space comes before and whatever text that does not
    start with a digit comes after. *)
Theorem extract_decimal n spaces rest :
  0 ≤ n < 2 ^ 64 → Forall (λ c, is_space c = true) spaces →
  (∀ c, head rest = Some c → is_digit c = false) →
  extract_size_t (spaces ++ decimal 20 n ++ rest) = n.
Proof.
  intros Hn Hsp Hrest. destruct (decimal_spec 20 n) as (Hd & Hv & Hne); [lia..|].
  generalize dependent (decimal 20 n). intros ds Hd Hv Hne.
  unfold extract_size_t.
  assert (skip_space (spaces ++ ds ++ rest) = ds ++ rest) as ->.
  { induction Hsp as [|c sp Hc Hsp IH]; simpl; [|by rewrite Hc].
    destruct ds as [|c s]; [done|]. apply Forall_cons in Hd as [Hc _].
    simpl. by rewrite (proj1 (digit_not_special c Hc)). }
  assert (digits_value 0 (ds ++ rest) = n) as Hval.
  { rewrite digits_value_app, Hv by done. destruct rest as [|c rest]; [done|].
    simpl. by rewrite (Hrest c eq_refl). }
  destruct ds as [|c s]; [done|]. apply Forall_cons in Hd as [Hc _].
  destruct (digit_not_special c Hc) as (_ & E1 & E2). cbn [app] in Hval |- *. rewrite E1, E2, Hval.
  by rewrite (proj2 (Z.leb_gt _ _)) by lia.
Qed.

Lemma extract_decimal_witness :
  extract_size_t ([32; 32] ++ decimal 20 1048576 ++ [75]) = 1048576.
Proof. apply extract_decimal; [lia|repeat constructor|by intros c [= <-]]. Defined.

(** The constructor of the heap.  With a size in the environment it first
    builds a heap of one gibibyte, then allocates the requested one, releases
    the first, and ends with an empty well-formed heap over the new block. *)
Theorem SingleHeap_new_correct {W} (m : MemoryAllocator W) w temp s p0 w0 p w1 w2 :
  allocate m w 1 temp gibibyte_ = Ok (p0, w0) → 0 < p0 → p0 + gibibyte_ < 2 ^ 64 →
  allocate m w0 1 temp (extract_size_t s) = Ok (p, w1) → 0 < p →
  ALIGNMENT ≤ extract_size_t s → p + extract_size_t s < 2 ^ 64 →
  deallocate m w1 p0 = Ok w2 →
  returns (SingleHeap_new m w temp (Some s)) (λ '(h, w'),
    w' = w2 ∧ heap_ok h ∧ get_base_ptr h = p ∧ heap_get_size h = extract_size_t s ∧
    get_used h = 0 ∧ get_avail h = extract_size_t s).
Proof.
  intros Ha0 Hp0 He0 Ha Hp Hs He Hde. unfold SingleHeap_new, HeapMemory_default, HeapMemory_sized.
  rewrite Ha0. simpl. unfold nullptr. rewrite (proj2 (Z.eqb_neq p0 0)) by lia. simpl.
  unfold get_ptr, hm_get_size. simpl.
  eapply returns_bind; [by apply (Pow2Bins_new_spec p0 gibibyte_)|]. intros st0 _.
  rewrite Ha. simpl. unfold nullptr. rewrite (proj2 (Z.eqb_neq p 0)) by lia. simpl.
  unfold HeapMemory_assign. simpl. rewrite Hde. simpl.
  eapply returns_bind; [by apply (Pow2Bins_new_spec p (extract_size_t s))|].
  intros st (Hwf & Hempty & _). simpl. split; [done|]. split; [by split_and!|].
  assert (amount_proffered st = 0) as Hz by (unfold amount_proffered; by rewrite Hempty, map_fold_empty).
  split_and!; [done|done|done|]. unfold get_avail, heap_get_size, hm_get_size, get_used. simpl.
  rewrite Hz, Z.sub_0_r, uwrap_small; [done|]. unfold ALIGNMENT in Hs. lia.
Qed.

Lemma SingleHeap_new_correct_witness :
  returns (SingleHeap_new bump_allocator 65536 0 (Some (decimal 20 4096))) (λ '(h, w'),
    w' = 65536 + gibibyte_ + 4096 ∧ heap_ok h ∧ get_base_ptr h = 65536 + gibibyte_ ∧
    heap_get_size h = 4096 ∧ get_used h = 0 ∧ get_avail h = 4096).
Proof.
  eapply (SingleHeap_new_correct bump_allocator 65536 0 (decimal 20 4096) 65536);
    try reflexivity; vm_compute; done.
Defined.

(** A heap size below [ALIGNMENT] in the environment (also a value that is
    not a number, which is read as zero) never yields a heap: the constructor
    stops, at the latest at an assertion of the binner. *)
Theorem SingleHeap_too_small {W} (m : MemoryAllocator W) w temp s h w' :
  0 ≤ extract_size_t s < ALIGNMENT → SingleHeap_new m w temp (Some s) ≠ Ok (h, w').
Proof.
  intros Hs Hnew.
  assert (∀ p st, Pow2Bins_new p (extract_size_t s) ≠ Ok st) as Hbad.
  { intros p st. unfold Pow2Bins_new. by rewrite Binner_new_small. }
  unfold SingleHeap_new, HeapMemory_default, HeapMemory_sized, HeapMemory_assign in Hnew.
  repeat match goal with
  | H : (match ?x with (_, _) => _ end) = Ok _ |- _ => destruct x
  | H : _ ≫= _ = Ok _ |- _ => apply bind_Ok_inv in H as (? & ? & H)
  end.
  simplify_eq/=. by eapply Hbad.
Qed.

Lemma SingleHeap_too_small_witness :
  SingleHeap_new bump_allocator 65536 0 (Some [49; 50]) ≠
    Ok (mkSingleHeap (mkHeapMemory bump_allocator 1 12) small_heap, 0).
Proof. apply SingleHeap_too_small. vm_compute. split; done. Defined.

(** Used and available bytes add up to the size of the heap, the
    subtraction in [get_avail] never wraps, and the free records are within
    the available bytes. *)
Theorem heap_accounting {W} (h : SingleHeap W) :
  heap_ok h →
  get_used h + get_avail h = heap_get_size h ∧ 0 ≤ get_used h ∧
  total (free_records (p2_bins (strat_ h))) ≤ get_avail h.
Proof.
  intros (Hb & Hs & He & Hwf). unfold get_avail, get_used.
  destruct (proffered_total_bound _ _ Hwf) as (H1 & H2 & H3). simpl in H2.
  rewrite (amount_proffered_total _ _ Hwf) by (simpl; lia).
  rewrite uwrap_small by lia. lia.
Qed.

Lemma heap_accounting_witness :
  let h := mkSingleHeap (mkHeapMemory bump_allocator 4096 1000) small_heap_512 in
  get_used h + get_avail h = heap_get_size h ∧ 0 ≤ get_used h ∧
  total (free_records (p2_bins (strat_ h))) ≤ get_avail h.
Proof. apply heap_accounting. split_and!; [done..|apply small_heap_512_wf]. Defined.

(** The wrapper around the system's allocators never reports success with a
    null pointer from [malloc] or [posix_memalign] (an assertion stops the
    program), leaves the program through [exit] when HIP reports an error, and
    does nothing when asked to release a null pointer. *)
Theorem allocate_failures {W} (m : MemoryAllocator W) w vp old size :
  (∀ p w', allocate m w vp old size = Ok (p, w') →
     is_Some (_alloc m) ∨ is_Some (_alloc_posix_memalign m) → p ≠ nullptr) ∧
  (∀ f error out w', vp ≠ nullptr → m = MA_hip_flags f (default (λ w _, (0, w)) (_hip_free m)) (_flags m) →
     f w size (_flags m) = (error, out, w') → error ≠ hipSuccess →
     allocate m w vp old size = Fail (ExitProgram EXIT_FAILURE)) ∧
  deallocate m w nullptr = Ok w.
Proof.
  split_and!; [..|done].
  - intros p w' Hal Hm. unfold allocate in Hal. inv_ok.
    destruct (_alloc m) as [f|] eqn:Ef.
    { destruct (f w size) as [q wq]. inv_ok. simplify_eq. lia. }
    destruct (_alloc_posix_memalign m) as [f|] eqn:Eg; [|by destruct Hm as [[]|[]]].
    inv_ok. destruct (f w (_alignment m) size) as [[e out] wq]. inv_ok. simplify_eq. lia.
  - intros f error out w' Hvp -> Hf Herr. unfold allocate. simpl in *.
    rewrite (proj2 (Z.eqb_neq _ _) Hvp). simpl. rewrite Hf.
    unfold CHECK_HIP. by rewrite (proj2 (Z.eqb_neq _ _) Herr).
Qed.

(** After the constructors of all processing elements, each of them holds
    the heap bases of all, in order of rank.  The hypothesis is what the
    standard says of an in-place [MPI_Allgather]: every rank receives, at
    position [i], what rank [i] had at position [i]. *)
Theorem heap_bases_exchanged MPI_Allgather heap_ptrs :
  (∀ bufs : list (list Z), Forall (λ b, length b = length bufs) bufs →
     MPI_Allgather bufs =
       (λ _, imap (λ i b, nth i b 0) bufs) <$> bufs) →
  RemoteHeapInfo_new MPI_Allgather heap_ptrs = replicate (length heap_ptrs) heap_ptrs.
Proof.
  intros Hag. unfold RemoteHeapInfo_new. rewrite Hag.
  - apply list_eq. intros i. rewrite list_lookup_fmap, list_lookup_imap.
    destruct (decide (i < length heap_ptrs)%nat) as [Hi|Hi].
    + rewrite lookup_replicate_2 by done.
      destruct (lookup_lt_is_Some_2 _ _ Hi) as [p Hp]. rewrite Hp. simpl. f_equal.
      apply list_eq. intros j. rewrite !list_lookup_imap.
      destruct (heap_ptrs !! j) as [q|] eqn:Hq; [|done]. simpl. f_equal.
      apply nth_lookup_Some, list_lookup_insert_eq.
      rewrite length_replicate. by eapply lookup_lt_Some.
    + rewrite lookup_ge_None_2 by lia. simpl. symmetry. apply lookup_ge_None_2.
      rewrite length_replicate. lia.
  - rewrite length_imap. apply Forall_forall. intros b Hb.
    apply elem_of_lookup_imap in Hb as (i & p & -> & _). unfold heap_bases_before.
    by rewrite length_insert, length_replicate.
Qed.

Lemma heap_bases_exchanged_witness :
  RemoteHeapInfo_new (λ bufs, (λ _, imap (λ i b, nth i b 0) bufs) <$> bufs) [4096; 8192; 640] =
  replicate 3 [4096; 8192; 640].
Proof. apply heap_bases_exchanged. done. Defined.
