(* ===== verification/Teams.v ===== *)
(** * Teams

    [team.cpp], [team_tracker.cpp/.hpp], the teams interface of [roc_shmem.cpp]
    (lines 252-402), and the team part of the GPU-IB backend
    ([gpu_ib/backend_ib.cpp], [gpu_ib/gpu_ib_team.cpp]): strided sub-teams,
    translation of processing elements between teams, the tracker of user
    teams, and the bit mask from which the processing elements of a new team
    agree on a free set of work arrays. *)
From S2P Require Import Prelude.

Local Open Scope Z_scope.

(** [ROC_SHMEM_TEAM_INVALID] is the null handle. *)
Definition ROC_SHMEM_TEAM_INVALID : Z := nullptr.

(** ** [class TeamInfo] and [class Team]

    [log_stride] (a double) is left out; handles are the addresses of the team
    objects. *)
Record TeamInfo := mkTeamInfo {
  parent_team : Z;
  pe_start : Z;
  stride : Z;
  ti_size : Z
}.

Record Team := mkTeam {
  world_size : Z;
  my_pe_in_world : Z;
  tinfo_wrt_parent : TeamInfo;
  tinfo_wrt_world : TeamInfo;
  num_pes : Z;
  my_pe : Z;
  mpi_comm : Z;
  pool_index_ : Z
}.

(** [Team::get_pe_in_world]. *)
Definition get_pe_in_world (t : Team) (pe : Z) : Z :=
  let start := pe_start (tinfo_wrt_world t) in
  let str := stride (tinfo_wrt_world t) in
  s32 (start + s32 (str * pe)).

(** [Team::get_pe_in_my_team]; [%] and [/] truncate towards zero. *)
Definition get_pe_in_my_team (t : Team) (pe_in_world : Z) : Z :=
  let start := pe_start (tinfo_wrt_world t) in
  let str := stride (tinfo_wrt_world t) in
  if pe_in_world <? start then -1
  else if negb (Z.rem (s32 (pe_in_world - start)) str =? 0) then -1
  else
    let pe_in_my_team := Z.quot (s32 (pe_in_world - start)) str in
    if num_pes t <=? pe_in_my_team then -1 else pe_in_my_team.

(** The team objects in memory. *)
Abbreviation team_store := (gmap Z Team).

(** [team_translate_pe]. *)
Definition team_translate_pe (ts : team_store) (src_team src_pe dst_team : Z) : result Z :=
  if (src_team =? ROC_SHMEM_TEAM_INVALID) || (dst_team =? ROC_SHMEM_TEAM_INVALID) then Ok (-1)
  else
    src_team_obj ← must (ts !! src_team);
    dst_team_obj ← must (ts !! dst_team);
    let src_pe_in_world := get_pe_in_world src_team_obj src_pe in
    Ok (get_pe_in_my_team dst_team_obj src_pe_in_world).

(** ** [class TeamTracker] *)

Record TeamTracker := mkTeamTracker {
  teams_ : list Z;
  max_num_teams_ : Z;
  team_world_ : Z
}.

(** [TeamTracker::TeamTracker]; the argument is the value of
    [ROC_SHMEM_MAX_NUM_TEAMS] as [atoi] reads it, if the variable is set. *)
Definition TeamTracker_new (value : option Z) : TeamTracker :=
  mkTeamTracker [] (default 40 value) nullptr.

(** [TeamTracker::track]. *)
Definition track (tr : TeamTracker) (team : Z) : TeamTracker :=
  if team =? ROC_SHMEM_TEAM_INVALID then tr
  else mkTeamTracker (teams_ tr ++ [team]) (max_num_teams_ tr) (team_world_ tr).

(** [std::find] followed by [erase]: remove the first occurrence. *)
Fixpoint erase_first (team : Z) (l : list Z) : option (list Z) :=
  match l with
  | [] => None
  | t :: l' => if t =? team then Some l' else cons t <$> erase_first team l'
  end.

(** [TeamTracker::untrack]. *)
Definition untrack (tr : TeamTracker) (team : Z) : result TeamTracker :=
  match erase_first team (teams_ tr) with
  | None => Fail AssertFailed
  | Some l => Ok (mkTeamTracker l (max_num_teams_ tr) (team_world_ tr))
  end.

Definition get_num_user_teams (tr : TeamTracker) : Z := Z.of_nat (length (teams_ tr)).
Definition get_max_num_teams (tr : TeamTracker) : Z := max_num_teams_ tr.

(** ** The pool of work arrays (GPU-IB backend) *)

Definition CHAR_BIT : Z := 8.
Abbreviation s8 := (swrap 8).

(** [get_ls_non_zero_bit]: the loop from [bit_i] with [n] bits to go. *)
Fixpoint ls_non_zero_bit_loop (bitmask : list Z) (n : nat) (bit_i : Z) : result Z :=
  match n with
  | O => Ok (-1)
  | S n' =>
      let byte_i := Z.quot bit_i CHAR_BIT in
      byte ← must (bitmask !! Z.to_nat byte_i);
      if negb (Z.land byte (Z.shiftl 1 (Z.rem bit_i CHAR_BIT)) =? 0) then Ok bit_i
      else ls_non_zero_bit_loop bitmask n' (bit_i + 1)
  end.

Definition get_ls_non_zero_bit (bitmask : list Z) (mask_length : Z) : result Z :=
  ls_non_zero_bit_loop bitmask (Z.to_nat mask_length) 0.

(** Setting a bit in the mask, [mask[bit / 8] |= 1 << (bit % 8)]. *)
Definition set_bit (bitmask : list Z) (bit : Z) : result (list Z) :=
  let byte_i := Z.to_nat (Z.quot bit CHAR_BIT) in
  byte ← must (bitmask !! byte_i);
  Ok (<[byte_i := s8 (Z.lor byte (Z.shiftl 1 (Z.rem bit CHAR_BIT)))]> bitmask).

(** Clearing a bit, [mask[bit / 8] &= ~(1 << (bit % 8))]. *)
Definition clear_bit (bitmask : list Z) (bit : Z) : result (list Z) :=
  let byte_i := Z.to_nat (Z.quot bit CHAR_BIT) in
  byte ← must (bitmask !! byte_i);
  Ok (<[byte_i := s8 (Z.land byte (Z.lnot (Z.shiftl 1 (Z.rem bit CHAR_BIT))))]> bitmask).

(** The loop of [GPUIBBackend::teams_init] that marks bits as available. *)
Fixpoint set_bits (bitmask : list Z) (n : nat) (bit_i : Z) : result (list Z) :=
  match n with
  | O => Ok bitmask
  | S n' => m ← set_bit bitmask bit_i; set_bits m n' (bit_i + 1)
  end.

Definition bitmask_size (max_num_teams : Z) : Z :=
  if negb (Z.rem max_num_teams CHAR_BIT =? 0)
  then Z.quot max_num_teams CHAR_BIT + 1 else Z.quot max_num_teams CHAR_BIT.

(** The mask that [GPUIBBackend::teams_init] builds. *)
Definition init_bitmask (max_num_teams : Z) : result (list Z) :=
  set_bits (replicate (Z.to_nat (bitmask_size max_num_teams)) 0)
    (Z.to_nat (max_num_teams - 1)) 1.

(** ** The backend as the teams interface sees it *)

Record Backend := mkBackend {
  b_num_pes : Z;
  b_my_pe : Z;
  team_tracker : TeamTracker;
  pool_bitmask_ : list Z;
  team_objs : team_store
}.

(** What the world outside decides in one call: the address of a new object
    ([hipMalloc]), the mask after the bitwise-and reduction over the new team
    ([MPI_Allreduce]) and the new communicator ([MPI_Comm_split]). *)
Record oracle := mkOracle {
  new_address : Z;
  reduced_bitmask_ : list Z;
  team_comm : Z
}.

(** [enum class Status], the values used here. *)
Definition ROC_SHMEM_TOO_MANY_TEAMS_ERROR : Z := 3.
Definition ROC_SHMEM_SUCCESS : Z := 4.

(** [GPUIBBackend::create_new_team]: the status, the handle and the state. *)
Definition create_new_team (b : Backend) (o : oracle) (info_parent info_world : TeamInfo)
    (n my_pe_in_new_team : Z) : result (Z * Z * Backend) :=
  let max_num_teams := get_max_num_teams (team_tracker b) in
  common_index ← get_ls_non_zero_bit (reduced_bitmask_ o) max_num_teams;
  if common_index <? 0 then
    Ok (ROC_SHMEM_TOO_MANY_TEAMS_ERROR, ROC_SHMEM_TEAM_INVALID, b)
  else
    mask ← clear_bit (pool_bitmask_ b) common_index;
    let new_team_obj := mkTeam (b_num_pes b) (b_my_pe b) info_parent info_world n
                               my_pe_in_new_team (team_comm o) common_index in
    Ok (ROC_SHMEM_SUCCESS, new_address o,
        mkBackend (b_num_pes b) (b_my_pe b) (team_tracker b) mask
                  (<[new_address o := new_team_obj]> (team_objs b))).

(** [GPUIBBackend::team_destroy]. *)
Definition backend_team_destroy (b : Backend) (team : Z) : result Backend :=
  team_obj ← must (team_objs b !! team);
  mask ← set_bit (pool_bitmask_ b) (pool_index_ team_obj);
  Ok (mkBackend (b_num_pes b) (b_my_pe b) (team_tracker b) mask
                (delete team (team_objs b))).

(** [pe_in_active_set]; the quotient is computed before the checks. *)
Definition pe_in_active_set (start str size pe : Z) : Z :=
  let translated_pe := Z.quot (s32 (pe - start)) str in
  if (pe <? start) || negb (Z.rem (s32 (pe - start)) str =? 0) || (size <=? translated_pe)
  then -1 else translated_pe.

(** [roc_shmem_team_split_strided]: the return code, the new handle, the state. *)
Definition team_split_strided (b : Backend) (o : oracle) (parent start str size : Z)
    : result (Z * Z * Backend) :=
  let num_user_teams := get_num_user_teams (team_tracker b) in
  let max_num_teams := get_max_num_teams (team_tracker b) in
  if max_num_teams - 1 <=? num_user_teams then
    Ok (ROC_SHMEM_TOO_MANY_TEAMS_ERROR, ROC_SHMEM_TEAM_INVALID, b)
  else if parent =? ROC_SHMEM_TEAM_INVALID then Ok (0, ROC_SHMEM_TEAM_INVALID, b)
  else
    parent_team_obj ← must (team_objs b !! parent);
    if (start <? 0) || (num_pes parent_team_obj <=? start) || (size <? 1) ||
       (num_pes parent_team_obj <? size) || (str <? 1) then
      Ok (-1, ROC_SHMEM_TEAM_INVALID, b)
    else
      let pe_start_in_world := get_pe_in_world parent_team_obj start in
      let stride_in_world := s32 (str * stride (tinfo_wrt_world parent_team_obj)) in
      let pe_end_in_world := s32 (pe_start_in_world + s32 (stride_in_world * (size - 1))) in
      if b_num_pes b <? pe_end_in_world then Ok (-1, ROC_SHMEM_TEAM_INVALID, b)
      else
        let my_pe_in_world := b_my_pe b in
        let my_pe_in_new_team :=
          pe_in_active_set pe_start_in_world stride_in_world size my_pe_in_world in
        let team_info_wrt_parent := mkTeamInfo parent start str size in
        let team_world := team_world_ (team_tracker b) in
        let team_info_wrt_world := mkTeamInfo team_world pe_start_in_world stride_in_world size in
        if my_pe_in_new_team <? 0 then Ok (0, ROC_SHMEM_TEAM_INVALID, b)
        else
          '(_, new_team, b') ← create_new_team b o team_info_wrt_parent team_info_wrt_world
                                 size my_pe_in_new_team;
          Ok (0, new_team,
              mkBackend (b_num_pes b') (b_my_pe b') (track (team_tracker b') new_team)
                        (pool_bitmask_ b') (team_objs b')).

(** [roc_shmem_team_destroy]; [team_world_] is [ROC_SHMEM_TEAM_WORLD]. *)
Definition team_destroy (b : Backend) (team : Z) : result Backend :=
  if (team =? ROC_SHMEM_TEAM_INVALID) || (team =? team_world_ (team_tracker b)) then Ok b
  else
    tr ← untrack (team_tracker b) team;
    backend_team_destroy
      (mkBackend (b_num_pes b) (b_my_pe b) tr (pool_bitmask_ b) (team_objs b)) team.

(** [TeamTracker::destroy_all] with the backend's [team_destroy]: from the back;
    the fuel is the number of tracked teams. *)
Fixpoint destroy_all_loop (fuel : nat) (b : Backend) : result Backend :=
  match rev (teams_ (team_tracker b)) with
  | [] => Ok b
  | team :: rest =>
      match fuel with
      | O => Fail OutOfFuel
      | S fuel' =>
          b' ← backend_team_destroy b team;
          destroy_all_loop fuel'
            (mkBackend (b_num_pes b') (b_my_pe b')
               (mkTeamTracker (rev rest) (max_num_teams_ (team_tracker b'))
                              (team_world_ (team_tracker b')))
               (pool_bitmask_ b') (team_objs b'))
      end
  end.

Definition destroy_all (b : Backend) : result Backend :=
  destroy_all_loop (length (teams_ (team_tracker b))) b.

(** ** Team sizes and handles at the interface *)

Definition roc_shmem_team_n_pes (ts : team_store) (team : Z) : result Z :=
  if team =? ROC_SHMEM_TEAM_INVALID then Ok (-1)
  else t ← must (ts !! team); Ok (num_pes t).

Definition roc_shmem_team_my_pe (ts : team_store) (team : Z) : result Z :=
  if team =? ROC_SHMEM_TEAM_INVALID then Ok (-1)
  else t ← must (ts !! team); Ok (my_pe t).

(** ** The work arrays of a team ([GPUIBTeam::GPUIBTeam]) *)

Definition ROC_SHMEM_BARRIER_SYNC_SIZE : Z := 256.
Definition ROC_SHMEM_REDUCE_SYNC_SIZE : Z := 256.
Definition ROC_SHMEM_BCAST_SYNC_SIZE : Z := ROC_SHMEM_BARRIER_SYNC_SIZE.
Definition ROC_SHMEM_ALLTOALL_SYNC_SIZE : Z := ROC_SHMEM_BARRIER_SYNC_SIZE + 1.
Definition ROC_SHMEM_REDUCE_MIN_WRKDATA_SIZE : Z := 1024.
Definition ROC_SHMEM_ATA_MAX_WRKDATA_SIZE : Z := 4 * 1024 * 1024.
Definition sizeof_long : Z := 8.
Definition sizeof_double : Z := 8.

(** The six pools as the byte offset of a team's array and its length. *)
Inductive work_array := barrier_pSync | reduce_pSync | bcast_pSync | alltoall_pSync | pWrk | pAta.

Definition array_bytes (a : work_array) : Z :=
  match a with
  | barrier_pSync => sizeof_long * ROC_SHMEM_BARRIER_SYNC_SIZE
  | reduce_pSync => sizeof_long * ROC_SHMEM_REDUCE_SYNC_SIZE
  | bcast_pSync => sizeof_long * ROC_SHMEM_BCAST_SYNC_SIZE
  | alltoall_pSync => sizeof_long * ROC_SHMEM_ALLTOALL_SYNC_SIZE
  | pWrk => sizeof_double * ROC_SHMEM_REDUCE_MIN_WRKDATA_SIZE
  | pAta => sizeof_double * ROC_SHMEM_ATA_MAX_WRKDATA_SIZE
  end.

(** What [GPUIBBackend::teams_init] allocates for the pool of [a]. *)
Definition pool_bytes (max_num_teams : Z) (a : work_array) : Z :=
  array_bytes a * max_num_teams.

(** Where the constructor points the member [a] of a team, from the pool's base. *)
Definition array_address (pool_base : work_array → Z) (pool_index : Z) (a : work_array) : Z :=
  pool_base a + array_bytes a * pool_index.

(** ** Translation lemmas *)

(** A team whose members' world ranks fit in an [int]. *)
Definition team_wf (t : Team) : Prop :=
  0 ≤ pe_start (tinfo_wrt_world t) ∧ 1 ≤ stride (tinfo_wrt_world t) ∧ 1 ≤ num_pes t ∧
  pe_start (tinfo_wrt_world t) + stride (tinfo_wrt_world t) * num_pes t ≤ INT_MAX.

(** The world rank of a member, without wrap-around. *)
Definition world_rank (t : Team) (i : Z) : Z :=
  pe_start (tinfo_wrt_world t) + stride (tinfo_wrt_world t) * i.

Lemma get_pe_in_world_rank t i :
  team_wf t → 0 ≤ i ≤ num_pes t → get_pe_in_world t i = world_rank t i.
Proof.
  unfold team_wf, get_pe_in_world, world_rank, INT_MAX. intros (?&?&?&?) Hi.
  rewrite !s32_small; unfold INT_MIN, INT_MAX; [done|nia..|].
  rewrite s32_small; unfold INT_MIN, INT_MAX; nia.
Qed.

(** The strided-set test shared by [get_pe_in_my_team] and [pe_in_active_set]. *)
Lemma strided_index start str n w :
  0 ≤ start → 1 ≤ str → start ≤ w → INT_MIN ≤ w - start ≤ INT_MAX →
  (Z.rem (s32 (w - start)) str = 0 ∧ Z.quot (s32 (w - start)) str < n) ↔
  ∃ i, 0 ≤ i < n ∧ w = start + str * i ∧ Z.quot (s32 (w - start)) str = i.
Proof.
  intros Hs Hst Hw Hr. rewrite s32_small by done.
  rewrite Z.rem_mod_nonneg, Z.quot_div_nonneg by lia. split.
  - intros [Hm Hq]. exists ((w - start) / str).
    pose proof (Z.div_mod (w - start) str ltac:(lia)).
    pose proof (Z.div_pos (w - start) str ltac:(lia) ltac:(lia)). lia.
  - intros (i & Hi & -> & Hq). replace (start + str * i - start) with (i * str) in * by lia.
    rewrite Z.mod_mul, Z.div_mul by lia. lia.
Qed.

Lemma get_pe_in_my_team_iff t w i :
  team_wf t → 0 ≤ w ≤ INT_MAX →
  get_pe_in_my_team t w = i ∧ i ≠ -1 ↔ 0 ≤ i < num_pes t ∧ w = world_rank t i.
Proof.
  unfold world_rank. intros (Hs & Hst & Hn & Hmax) Hw. unfold get_pe_in_my_team, INT_MAX in *.
  set (start := pe_start _) in *. set (str := stride _) in *.
  destruct (w <? start) eqn:E1; [split; [lia|nia]|].
  pose proof (strided_index start str (num_pes t) w Hs Hst ltac:(lia)
    ltac:(unfold INT_MIN, INT_MAX; lia)) as Hidx.
  destruct (Z.rem (s32 (w - start)) str =? 0) eqn:E2; simpl.
  - destruct (num_pes t <=? Z.quot (s32 (w - start)) str) eqn:E3.
    + split; [lia|]. intros [Hi Hwi].
      assert (Z.quot (s32 (w - start)) str = i) as Hq; [|lia].
      rewrite s32_small, Z.quot_div_nonneg by (unfold INT_MIN, INT_MAX; lia).
      rewrite Hwi. replace (start + str * i - start) with (i * str) by lia. apply Z.div_mul. lia.
    + destruct (proj1 Hidx ltac:(lia)) as (j & Hj & Hwj & ->).
      split; [intros [<- _]; lia|]. intros [Hi Hwi]. split; nia.
  - split; [lia|]. intros [Hi Hwi].
    assert (Z.rem (s32 (w - start)) str = 0); [|lia].
    rewrite s32_small, Z.rem_mod_nonneg by (unfold INT_MIN, INT_MAX; lia).
    rewrite Hwi. replace (start + str * i - start) with (i * str) by lia. apply Z.mod_mul. lia.
Qed.

(** The active-set test is the team's own translation. *)
Lemma pe_in_active_set_team t pe :
  pe_in_active_set (pe_start (tinfo_wrt_world t)) (stride (tinfo_wrt_world t)) (num_pes t) pe =
  get_pe_in_my_team t pe.
Proof.
  unfold pe_in_active_set, get_pe_in_my_team.
  destruct (pe <? _); [done|]. destruct (Z.rem _ _ =? 0); simpl; [|done].
  by destruct (num_pes t <=? _).
Qed.

(** ** Bit mask lemmas *)

(** Bit [i] of a mask, in the logical layout. *)
Definition bit_of (mask : list Z) (i : Z) : bool :=
  match mask !! Z.to_nat (i / 8) with
  | Some byte => Z.testbit byte (i `mod` 8)
  | None => false
  end.

Lemma s8_testbit x k : 0 ≤ k < 8 → Z.testbit (s8 x) k = Z.testbit x k.
Proof.
  intros Hk. rewrite <- (Z.mod_pow2_bits_low (s8 x) 8 k), <- (Z.mod_pow2_bits_low x 8 k) by lia.
  f_equal. unfold swrap. change (2 ^ (8 - 1)) with 128. change (2 ^ 8) with 256.
  rewrite Zminus_mod_idemp_l. f_equal. lia.
Qed.

Lemma testbit_one_shift i k : 0 ≤ i → 0 ≤ k →
  Z.testbit (Z.shiftl 1 i) k = (i =? k).
Proof.
  intros. rewrite Z.shiftl_mul_pow2, Z.mul_1_l by lia.
  destruct (i =? k) eqn:E.
  - replace k with i by lia. by apply Z.pow2_bits_true.
  - apply Z.pow2_bits_false. lia.
Qed.

Lemma land_bit byte k : 0 ≤ k → negb (Z.land byte (Z.shiftl 1 k) =? 0) = Z.testbit byte k.
Proof.
  intros Hk. destruct (Z.testbit byte k) eqn:E.
  - apply negb_true_iff, Z.eqb_neq. intros H. apply (f_equal (λ x, Z.testbit x k)) in H.
    rewrite Z.land_spec, E, testbit_one_shift, Z.eqb_refl, Z.bits_0 in H by lia. done.
  - apply negb_false_iff, Z.eqb_eq. apply Z.bits_inj'. intros n Hn.
    rewrite Z.land_spec, testbit_one_shift, Z.bits_0 by lia.
    destruct (k =? n) eqn:Ek; [|by rewrite andb_false_r].
    replace n with k by lia. by rewrite E.
Qed.

(** Updating the byte of bit [i] with an operation that acts on bit [i] only. *)
Lemma update_bit mask i byte byte' v :
  0 ≤ i → mask !! Z.to_nat (i / 8) = Some byte →
  (∀ k, 0 ≤ k < 8 → Z.testbit byte' k = if k =? i `mod` 8 then v else Z.testbit byte k) →
  ∀ j, 0 ≤ j → bit_of (<[Z.to_nat (i / 8) := byte']> mask) j = if j =? i then v else bit_of mask j.
Proof.
  intros Hi Hb Hop j Hj. unfold bit_of.
  pose proof (Z.div_mod i 8 ltac:(lia)). pose proof (Z.div_mod j 8 ltac:(lia)).
  pose proof (Z.mod_pos_bound i 8 ltac:(lia)). pose proof (Z.mod_pos_bound j 8 ltac:(lia)).
  assert (0 ≤ i / 8 ∧ 0 ≤ j / 8) as [? ?] by (split; apply Z.div_pos; lia).
  destruct (decide (j / 8 = i / 8)) as [Hq|Hq].
  - rewrite Hq, list_lookup_insert_eq, Hb by (by eapply lookup_lt_Some).
    rewrite Hop by lia. assert ((j `mod` 8 =? i `mod` 8) = (j =? i)) as -> by lia. done.
  - rewrite list_lookup_insert_ne by lia. by rewrite (proj2 (Z.eqb_neq j i)) by (intros ->; lia).
Qed.

Lemma byte_in_range (mask : list Z) i :
  0 ≤ i < 8 * Z.of_nat (length mask) → ∃ byte, mask !! Z.to_nat (i / 8) = Some byte.
Proof.
  intros Hi. apply lookup_lt_is_Some_2.
  assert (0 ≤ i / 8 < Z.of_nat (length mask))
    by (split; [apply Z.div_pos|apply Z.div_lt_upper_bound]; lia). lia.
Qed.

Lemma quot_rem_8 i : 0 ≤ i → Z.quot i CHAR_BIT = i / 8 ∧ Z.rem i CHAR_BIT = i `mod` 8 ∧
  0 ≤ i `mod` 8 < 8.
Proof.
  intros. unfold CHAR_BIT. rewrite Z.quot_div_nonneg, Z.rem_mod_nonneg by lia.
  pose proof (Z.mod_pos_bound i 8). lia.
Qed.

Lemma set_bit_spec mask i :
  0 ≤ i < 8 * Z.of_nat (length mask) →
  returns (set_bit mask i) (λ mask', length mask' = length mask ∧
    ∀ j, 0 ≤ j → bit_of mask' j = if j =? i then true else bit_of mask j).
Proof.
  intros Hi. unfold set_bit. destruct (quot_rem_8 i) as (-> & -> & Hm); [lia|].
  destruct (byte_in_range mask i Hi) as [byte Hb]. rewrite Hb. simpl.
  split; [apply length_insert|]. apply (update_bit _ _ byte); [lia|done|].
  intros k Hk. rewrite s8_testbit, Z.lor_spec, testbit_one_shift by lia.
  rewrite (Z.eqb_sym k). by destruct (i `mod` 8 =? k); rewrite ?orb_true_r, ?orb_false_r.
Qed.

Lemma clear_bit_spec mask i :
  0 ≤ i < 8 * Z.of_nat (length mask) →
  returns (clear_bit mask i) (λ mask', length mask' = length mask ∧
    ∀ j, 0 ≤ j → bit_of mask' j = if j =? i then false else bit_of mask j).
Proof.
  intros Hi. unfold clear_bit. destruct (quot_rem_8 i) as (-> & -> & Hm); [lia|].
  destruct (byte_in_range mask i Hi) as [byte Hb]. rewrite Hb. simpl.
  split; [apply length_insert|]. apply (update_bit _ _ byte); [lia|done|].
  intros k Hk. rewrite s8_testbit, Z.land_spec, Z.lnot_spec, testbit_one_shift by lia.
  rewrite (Z.eqb_sym k). by destruct (i `mod` 8 =? k); rewrite ?andb_false_r, ?andb_true_r.
Qed.

(** The search finds the least set bit below the bound, or none. *)
Lemma ls_loop_spec mask n i :
  0 ≤ i → i + Z.of_nat n ≤ 8 * Z.of_nat (length mask) →
  returns (ls_non_zero_bit_loop mask n i) (λ r,
    (r = -1 ∧ ∀ j, i ≤ j < i + Z.of_nat n → bit_of mask j = false) ∨
    (i ≤ r < i + Z.of_nat n ∧ bit_of mask r = true ∧
     ∀ j, i ≤ j < r → bit_of mask j = false)).
Proof.
  revert i. induction n as [|n IH]; intros i Hi Hn; cbn [ls_non_zero_bit_loop].
  { left. split; [done|lia]. }
  destruct (quot_rem_8 i Hi) as (-> & -> & Hm).
  destruct (byte_in_range mask i) as [byte Hb]; [lia|]. rewrite Hb. simpl.
  rewrite land_bit by lia.
  assert (bit_of mask i = Z.testbit byte (i `mod` 8)) as Hbit by (unfold bit_of; by rewrite Hb).
  rewrite <- Hbit. destruct (bit_of mask i) eqn:E.
  - right. split_and!; [lia..|done|lia].
  - eapply returns_mono; [apply IH; lia|].
    assert (∀ r, (∀ j, i + 1 ≤ j < r → bit_of mask j = false) →
      ∀ j, i ≤ j < r → bit_of mask j = false) as Hext.
    { intros r Hr j Hj. destruct (decide (j = i)) as [->|]; [done|]. apply Hr. lia. }
    intros r [[-> Hall]|(Hr & Hs & Hall)].
    + left. split; [done|]. apply Hext. intros j Hj. apply Hall. lia.
    + right. split_and!; [lia..|done|]. by apply Hext.
Qed.

Lemma get_ls_spec mask n :
  0 ≤ n ≤ 8 * Z.of_nat (length mask) →
  returns (get_ls_non_zero_bit mask n) (λ r,
    (r = -1 ∧ ∀ j, 0 ≤ j < n → bit_of mask j = false) ∨
    (0 ≤ r < n ∧ bit_of mask r = true ∧ ∀ j, 0 ≤ j < r → bit_of mask j = false)).
Proof.
  intros Hn. unfold get_ls_non_zero_bit.
  eapply returns_mono; [apply ls_loop_spec; lia|]. rewrite Z2Nat.id by lia. done.
Qed.

Lemma set_bits_spec n : ∀ mask i,
  0 ≤ i → i + Z.of_nat n ≤ 8 * Z.of_nat (length mask) →
  returns (set_bits mask n i) (λ mask', length mask' = length mask ∧
    ∀ j, 0 ≤ j → bit_of mask' j = ((i <=? j) && (j <? i + Z.of_nat n)) || bit_of mask j).
Proof.
  induction n as [|n IH]; intros mask i Hi Hn; cbn [set_bits].
  - split; [done|]. intros j Hj.
    assert (((i <=? j) && (j <? i + Z.of_nat 0)) = false) as ->; [|done].
    rewrite Z.add_0_r. lia.
  - eapply returns_bind; [apply set_bit_spec; lia|]. intros m [Hlen Hm].
    eapply returns_mono; [apply IH; lia|]. intros m' [Hlen' Hm']. split; [congruence|].
    intros j Hj. rewrite Hm', Hm by lia. replace (Z.of_nat (S n)) with (Z.of_nat n + 1) by lia.
    destruct (j =? i) eqn:E.
    + rewrite (proj2 (Z.leb_le i j)), (proj2 (Z.ltb_lt j (i + (Z.of_nat n + 1)))) by lia.
      by rewrite orb_true_r.
    + replace (i + 1 <=? j) with (i <=? j) by lia.
      by replace (i + 1 + Z.of_nat n) with (i + (Z.of_nat n + 1)) by lia.
Qed.

Lemma bitmask_size_spec n : 0 ≤ n → n ≤ 8 * bitmask_size n ∧ 0 ≤ bitmask_size n.
Proof.
  intros Hn. unfold bitmask_size. destruct (quot_rem_8 n Hn) as (-> & -> & Hm).
  pose proof (Z.div_mod n 8 ltac:(lia)). pose proof (Z.div_pos n 8 Hn ltac:(lia)).
  case_if; lia.
Qed.

(** ** The invariant of the backend's teams *)

(** Handles that are in use: the world team and the tracked user teams. *)
Definition handles (b : Backend) : list Z :=
  team_world_ (team_tracker b) :: teams_ (team_tracker b).

Definition max_teams (b : Backend) : Z := get_max_num_teams (team_tracker b).

(** The pool: the mask has a bit per team, a team's bit is cleared while it
    lives, and no two live teams share an index. *)
Record pool_ok (b : Backend) : Prop := {
  pool_max : 1 ≤ max_teams b;
  pool_length : Z.of_nat (length (pool_bitmask_ b)) = bitmask_size (max_teams b);
  pool_taken : map_Forall (λ _ t, 0 ≤ pool_index_ t < max_teams b ∧
    bit_of (pool_bitmask_ b) (pool_index_ t) = false) (team_objs b);
  pool_inj : ∀ h1 h2 t1 t2, team_objs b !! h1 = Some t1 → team_objs b !! h2 = Some t2 →
    pool_index_ t1 = pool_index_ t2 → h1 = h2
}.

(** The tracker: the handles are distinct, not null, and exactly the live objects. *)
Record tracker_ok (b : Backend) : Prop := {
  handles_nodup : NoDup (handles b);
  handles_valid : ROC_SHMEM_TEAM_INVALID ∉ handles b;
  handles_live : ∀ h, h ∈ handles b ↔ is_Some (team_objs b !! h)
}.

(** What the outside guarantees in a collective creation: a new address, and a
    mask that is the bitwise and of masks that include this one's. *)
Record oracle_ok (b : Backend) (o : oracle) : Prop := {
  oracle_fresh : team_objs b !! new_address o = None;
  oracle_nonnull : new_address o ≠ ROC_SHMEM_TEAM_INVALID;
  oracle_length : length (reduced_bitmask_ o) = length (pool_bitmask_ b);
  oracle_band : ∀ i, bit_of (reduced_bitmask_ o) i = true → bit_of (pool_bitmask_ b) i = true
}.

Lemma pool_in_range b i : pool_ok b → 0 ≤ i < max_teams b →
  0 ≤ i < 8 * Z.of_nat (length (pool_bitmask_ b)).
Proof.
  intros Hb Hi. rewrite (pool_length _ Hb).
  pose proof (bitmask_size_spec (max_teams b)). lia.
Qed.

(** What a creation does to the pool. *)
Definition created (b : Backend) (o : oracle) (n my : Z) (info_p info_w : TeamInfo)
    (res : Z * Z * Backend) : Prop :=
  let '(status, h, b') := res in
  (status = ROC_SHMEM_TOO_MANY_TEAMS_ERROR ∧ h = ROC_SHMEM_TEAM_INVALID ∧ b' = b ∧
     ∀ i, 0 ≤ i < max_teams b → bit_of (reduced_bitmask_ o) i = false) ∨
  (∃ i, status = ROC_SHMEM_SUCCESS ∧ h = new_address o ∧
     0 ≤ i < max_teams b ∧ bit_of (reduced_bitmask_ o) i = true ∧
     (∀ j, 0 ≤ j < i → bit_of (reduced_bitmask_ o) j = false) ∧
     team_tracker b' = team_tracker b ∧
     team_objs b' = <[h := mkTeam (b_num_pes b) (b_my_pe b) info_p info_w n my
                             (team_comm o) i]> (team_objs b) ∧
     (∀ j, 0 ≤ j → bit_of (pool_bitmask_ b') j =
                   if j =? i then false else bit_of (pool_bitmask_ b) j) ∧
     length (pool_bitmask_ b') = length (pool_bitmask_ b)).

Lemma create_new_team_spec b o info_p info_w n my :
  pool_ok b → oracle_ok b o →
  returns (create_new_team b o info_p info_w n my) (created b o n my info_p info_w).
Proof.
  intros Hb Ho. unfold create_new_team.
  assert (0 ≤ max_teams b ≤ 8 * Z.of_nat (length (reduced_bitmask_ o))) as Hlen.
  { rewrite (oracle_length _ _ Ho), (pool_length _ Hb). pose proof (pool_max _ Hb).
    pose proof (bitmask_size_spec (max_teams b)). lia. }
  eapply returns_bind; [apply (get_ls_spec _ _ Hlen)|].
  intros i [[-> Hnone]|(Hi & Hset & Hleast)].
  { simpl. left. done. }
  rewrite (proj2 (Z.ltb_ge _ _)) by lia.
  eapply returns_bind; [apply clear_bit_spec, pool_in_range; done|].
  intros mask [Hl Hm]. simpl. right. exists i. split_and!; try done; lia.
Qed.

Lemma created_pool_ok b o n my info_p info_w res :
  pool_ok b → oracle_ok b o → created b o n my info_p info_w res → pool_ok res.2.
Proof.
  intros Hb Ho. destruct res as [[status h] b']. simpl.
  intros [(_ & _ & -> & _)|(i & _ & -> & Hi & Hset & _ & Htr & Hobj & Hbits & Hlen)]; [done|].
  assert (max_teams b' = max_teams b) as Hmax by (unfold max_teams; by rewrite Htr).
  pose proof (oracle_band _ _ Ho _ Hset) as Hown.
  assert (∀ h t, team_objs b !! h = Some t → pool_index_ t ≠ i) as Hne.
  { intros h t Ht. destruct (pool_taken _ Hb _ _ Ht) as [_ Hc]. congruence. }
  split; rewrite ?Hmax.
  - apply Hb.
  - rewrite Hlen. apply Hb.
  - rewrite Hobj. apply map_Forall_insert_2.
    + split; [done|]. rewrite Hbits by (simpl; lia). simpl. by rewrite Z.eqb_refl.
    + intros h t Ht. destruct (pool_taken _ Hb _ _ Ht) as [Hr Hc]. split; [done|].
      rewrite Hbits by lia. by case_if.
  - rewrite Hobj. intros h1 h2 t1 t2.
    intros [[<- <-]|[_ H1]]%lookup_insert_Some [[<- <-]|[_ H2]]%lookup_insert_Some; simpl;
      [done|intros E; by apply Hne in H2|intros E; by apply Hne in H1|by apply Hb].
Qed.

(** Releasing a live team. *)
Lemma backend_team_destroy_spec b h t :
  pool_ok b → team_objs b !! h = Some t →
  returns (backend_team_destroy b h) (λ b', pool_ok b' ∧
    team_tracker b' = team_tracker b ∧ team_objs b' = delete h (team_objs b) ∧
    ∀ j, 0 ≤ j → bit_of (pool_bitmask_ b') j =
                 if j =? pool_index_ t then true else bit_of (pool_bitmask_ b) j).
Proof.
  intros Hb Ht. unfold backend_team_destroy. rewrite Ht. simpl.
  destruct (pool_taken _ Hb _ _ Ht) as [Hr Hc].
  eapply returns_bind; [apply set_bit_spec, pool_in_range; done|].
  intros mask [Hl Hm]. simpl. split; [|done].
  split; simpl.
  - apply Hb.
  - rewrite Hl. apply Hb.
  - intros h' t' [Hne Ht']%lookup_delete_Some.
    destruct (pool_taken _ Hb _ _ Ht') as [Hr' Hc']. split; [done|].
    rewrite Hm by lia. rewrite (proj2 (Z.eqb_neq _ _)); [done|].
    intros E. by apply Hne, (pool_inj _ Hb _ _ _ _ Ht Ht').
  - intros h1 h2 t1 t2 [_ H1]%lookup_delete_Some [_ H2]%lookup_delete_Some. by apply Hb.
Qed.

(** ** The tracker *)

Lemma erase_first_spec h l : h ∈ l → NoDup l →
  ∃ l', erase_first h l = Some l' ∧ l ≡ₚ h :: l'.
Proof.
  induction l as [|x l IH]; [set_solver|]. intros Hin [Hx Hnd]%NoDup_cons. simpl.
  destruct (x =? h) eqn:E.
  - apply Z.eqb_eq in E as ->. eauto.
  - destruct IH as (l' & -> & Hp); [|done|].
    { apply elem_of_cons in Hin as [->|]; [lia|done]. }
    exists (x :: l'). split; [done|]. rewrite Hp. apply Permutation_swap.
Qed.

Lemma erase_first_None h l : h ∉ l → erase_first h l = None.
Proof.
  induction l as [|x l IH]; [done|]. intros [Hne Hn]%not_elem_of_cons. simpl.
  rewrite (proj2 (Z.eqb_neq _ _)) by done. by rewrite IH.
Qed.

Definition backend_ok (b : Backend) : Prop := pool_ok b ∧ tracker_ok b.

Lemma pool_ok_tracker b tr :
  pool_ok b → max_num_teams_ tr = max_num_teams_ (team_tracker b) →
  pool_ok (mkBackend (b_num_pes b) (b_my_pe b) tr (pool_bitmask_ b) (team_objs b)).
Proof.
  intros Hb Htr.
  assert (max_teams (mkBackend (b_num_pes b) (b_my_pe b) tr (pool_bitmask_ b) (team_objs b)) =
          max_teams b) as Hmax by done.
  split; rewrite ?Hmax; apply Hb.
Qed.

Lemma track_created_ok b o n my info_p info_w status h b' :
  backend_ok b → oracle_ok b o → created b o n my info_p info_w (status, h, b') →
  backend_ok (mkBackend (b_num_pes b') (b_my_pe b') (track (team_tracker b') h)
                        (pool_bitmask_ b') (team_objs b')).
Proof.
  intros [Hp Ht] Ho Hc. pose proof (created_pool_ok _ _ _ _ _ _ _ Hp Ho Hc) as Hp'. simpl in Hp'.
  split.
  { apply pool_ok_tracker; [done|]. unfold track. by case_if. }
  destruct Hc as [(_ & -> & -> & _)|(i & _ & -> & _ & _ & _ & Htr & Hobj & _)].
  { unfold track. simpl. by destruct b. }
  unfold track. rewrite (proj2 (Z.eqb_neq _ _)) by apply Ho. rewrite Htr.
  assert (new_address o ∉ handles b) as Hnew.
  { rewrite (handles_live _ Ht). rewrite (oracle_fresh _ _ Ho). by intros []. }
  assert (∀ tb, handles (mkBackend (b_num_pes b') (b_my_pe b')
            (mkTeamTracker (teams_ (team_tracker b) ++ [new_address o])
               (max_num_teams_ (team_tracker b)) (team_world_ (team_tracker b)))
            (pool_bitmask_ b') tb) ≡ₚ new_address o :: handles b) as Hperm.
  { intros tb. unfold handles. simpl. rewrite <- Permutation_cons_append.
    apply Permutation_swap. }
  split.
  - rewrite Hperm. apply NoDup_cons. split; [done|apply Ht].
  - rewrite Hperm. apply not_elem_of_cons. split; [|apply Ht].
    pose proof (oracle_nonnull _ _ Ho). congruence.
  - intros h. rewrite Hperm, elem_of_cons, (handles_live _ Ht). simpl.
    rewrite Hobj. destruct (decide (h = new_address o)) as [->|Hne].
    + rewrite lookup_insert_eq. split; [done|by left].
    + rewrite lookup_insert_ne by done. split; [intros [|]; done|by right].
Qed.

Lemma split_ok b o parent start str size :
  backend_ok b → oracle_ok b o → (parent = ROC_SHMEM_TEAM_INVALID ∨ parent ∈ handles b) →
  returns (team_split_strided b o parent start str size) (λ '(_, h, b'),
    backend_ok b' ∧ (h = ROC_SHMEM_TEAM_INVALID → b' = b)).
Proof.
  intros Hb Ho Hpar. unfold team_split_strided.
  destruct (_ <=? get_num_user_teams _); [done|].
  destruct (parent =? ROC_SHMEM_TEAM_INVALID) eqn:E; [done|].
  destruct Hpar as [|Hpar]; [lia|]. apply (handles_live _ (proj2 Hb)) in Hpar as [t Ht].
  rewrite Ht. simpl. case_if; [done|]. case_if; [done|]. case_if; [done|].
  eapply returns_bind; [apply create_new_team_spec; [apply Hb|done]|].
  intros [[status h] b'] Hc. simpl. split; [by eapply track_created_ok|].
  intros ->. destruct Hc as [(_ & _ & -> & _)|(i & _ & H & _)].
  - unfold track. simpl. by destruct b.
  - pose proof (oracle_nonnull _ _ Ho). congruence.
Qed.

Lemma tracker_ok_remove b b' h :
  tracker_ok b → handles b ≡ₚ h :: handles b' → team_objs b' = delete h (team_objs b) →
  tracker_ok b'.
Proof.
  intros Ht Hperm Hobj.
  pose proof (handles_nodup _ Ht) as Hnd. rewrite Hperm in Hnd. apply NoDup_cons in Hnd as [Hni Hnd].
  pose proof (handles_valid _ Ht) as Hv. rewrite Hperm in Hv. apply not_elem_of_cons in Hv as [_ Hv].
  split; [done|done|]. intros k. rewrite Hobj. destruct (decide (k = h)) as [->|Hne].
  - rewrite lookup_delete_eq. split; [done|by intros []].
  - rewrite lookup_delete_ne by done. rewrite <- (handles_live _ Ht), Hperm, (elem_of_cons _ k h).
    split; [by right|by intros [|]].
Qed.

Lemma destroy_ok b h :
  backend_ok b → h ∈ teams_ (team_tracker b) →
  returns (team_destroy b h) (λ b', backend_ok b' ∧
    handles b ≡ₚ h :: handles b' ∧ team_objs b' = delete h (team_objs b)).
Proof.
  intros [Hp Ht] Hin. unfold team_destroy.
  pose proof (handles_nodup _ Ht) as Hnd. apply NoDup_cons in Hnd as [Hw Hnd].
  assert (h ∈ handles b) as Hh by (by right).
  rewrite (proj2 (Z.eqb_neq h ROC_SHMEM_TEAM_INVALID)), (proj2 (Z.eqb_neq h (team_world_ _))).
  2:{ intros ->. done. }
  2:{ intros ->. by apply (handles_valid _ Ht). }
  simpl. unfold untrack.
  destruct (erase_first_spec h _ Hin Hnd) as (l' & -> & Hperm). simpl.
  pose proof (proj1 (handles_live _ Ht h) Hh) as [t Hobj].
  eapply returns_mono.
  { apply (backend_team_destroy_spec _ h t); [by apply pool_ok_tracker|done]. }
  intros b' (Hp' & Htr & Hobj' & _). simpl in Htr, Hobj'.
  assert (handles b ≡ₚ h :: handles b') as Hhp.
  { unfold handles. rewrite Htr. simpl. rewrite Hperm. apply Permutation_swap. }
  split; [|done]. split; [done|]. by eapply tracker_ok_remove.
Qed.

(** The tracker's sweep at finalisation. *)
Lemma destroy_all_loop_spec fuel : ∀ b,
  backend_ok b → (length (teams_ (team_tracker b)) ≤ fuel)%nat →
  returns (destroy_all_loop fuel b) (λ b', backend_ok b' ∧
    teams_ (team_tracker b') = [] ∧ team_world_ (team_tracker b') = team_world_ (team_tracker b)).
Proof.
  induction fuel as [|fuel IH]; intros b Hb Hlen; cbn [destroy_all_loop].
  { destruct (teams_ (team_tracker b)) eqn:E; [|simpl in Hlen; lia]. simpl. by rewrite E. }
  destruct (rev (teams_ (team_tracker b))) as [|h rest] eqn:E.
  { apply (f_equal (@rev _)) in E. rewrite rev_involutive in E. done. }
  assert (teams_ (team_tracker b) = rev rest ++ [h]) as Hteams.
  { apply (f_equal (@rev _)) in E. by rewrite rev_involutive in E. }
  destruct Hb as [Hp Ht].
  assert (h ∈ handles b) as Hin by (right; rewrite Hteams; set_solver).
  pose proof (proj1 (handles_live _ Ht h) Hin) as [t Hobj].
  eapply returns_bind; [by apply (backend_team_destroy_spec b h t)|].
  intros b' (Hp' & Htr & Hobj' & _).
  assert (handles b ≡ₚ h :: team_world_ (team_tracker b) :: rev rest) as Hperm.
  { unfold handles. rewrite Hteams, <- Permutation_cons_append. apply Permutation_swap. }
  eapply returns_mono; [apply IH|]; simpl.
  - split; [by apply pool_ok_tracker|]. apply (tracker_ok_remove b _ h); [done| |done].
    rewrite Hperm. unfold handles. simpl. by rewrite Htr.
  - rewrite length_rev. rewrite Hteams, length_app, length_rev in Hlen. simpl in Hlen. lia.
  - by rewrite Htr.
Qed.

(** A new backend over [n] processing elements, as the constructor leaves it:
    the world team at index 0 and every other index free. *)
Definition world_team (n me world : Z) : Team :=
  mkTeam n me (mkTeamInfo nullptr 0 1 n) (mkTeamInfo nullptr 0 1 n) n me 0 0.

Definition Backend_new (n me world : Z) (max : option Z) : result Backend :=
  let tr := TeamTracker_new max in
  mask ← init_bitmask (max_num_teams_ tr);
  Ok (mkBackend n me (mkTeamTracker [] (max_num_teams_ tr) world) mask
                {[ world := world_team n me world ]}).

Lemma init_bitmask_spec max :
  1 ≤ max →
  returns (init_bitmask max) (λ mask, Z.of_nat (length mask) = bitmask_size max ∧
    ∀ j, 0 ≤ j → bit_of mask j = (1 <=? j) && (j <? max)).
Proof.
  intros Hmax. destruct (bitmask_size_spec max) as [Hsz Hnn]; [lia|]. unfold init_bitmask.
  eapply returns_mono; [apply set_bits_spec; rewrite ?length_replicate; lia|].
  intros mask [Hlen Hbits]. rewrite length_replicate in Hlen. split; [lia|].
  intros j Hj. rewrite Hbits by done.
  replace (1 + Z.of_nat (Z.to_nat (max - 1))) with max by lia.
  unfold bit_of at 1. destruct (replicate _ 0 !! Z.to_nat (j / 8)) as [byte|] eqn:E.
  - apply lookup_replicate in E as [-> _]. by rewrite Z.bits_0, orb_false_r.
  - by rewrite orb_false_r.
Qed.

Lemma Backend_new_ok n me world max :
  world ≠ nullptr → 1 ≤ default 40 max → returns (Backend_new n me world max) backend_ok.
Proof.
  intros Hw Hmax. unfold Backend_new. simpl.
  eapply returns_bind; [by apply init_bitmask_spec|].
  intros mask [Hlen Hbits]. cbn. split; split; unfold max_teams, handles; simpl.
  - done.
  - done.
  - apply map_Forall_singleton. simpl. split; [lia|]. by rewrite Hbits.
  - intros h1 h2 t1 t2 [<- _]%lookup_singleton_Some [<- _]%lookup_singleton_Some. done.
  - apply NoDup_singleton.
  - unfold ROC_SHMEM_TEAM_INVALID. set_solver.
  - intros h. destruct (decide (h = world)) as [->|Hne].
    + rewrite lookup_singleton_eq. split; [done|set_solver].
    + rewrite lookup_singleton_ne by done. split; [set_solver|by intros []].
Qed.

(** A step of the teams interface on one processing element. *)
Inductive team_step (b : Backend) : Backend → Prop :=
  | step_split o parent start str size code h b' :
      oracle_ok b o → team_split_strided b o parent start str size = Ok (code, h, b') →
      team_step b b'
  | step_destroy h b' : team_destroy b h = Ok b' → team_step b b'.

Lemma team_step_ok b b' : backend_ok b → team_step b b' → backend_ok b'.
Proof.
  intros Hb [o parent start str size code h b1 Ho Hs|h b1 Hd].
  - destruct (decide (parent = ROC_SHMEM_TEAM_INVALID ∨ parent ∈ handles b)) as [Hp|Hp].
    + pose proof (split_ok b o parent start str size Hb Ho Hp) as H. rewrite Hs in H. apply H.
    + unfold team_split_strided in Hs.
      destruct (_ <=? get_num_user_teams _); [by simplify_eq|].
      destruct (parent =? ROC_SHMEM_TEAM_INVALID) eqn:E; [lia|].
      destruct (team_objs b !! parent) as [t|] eqn:Et; [|done].
      exfalso. apply Hp. right. apply (handles_live _ (proj2 Hb)). eauto.
  - destruct (decide (h ∈ teams_ (team_tracker b))) as [Hin|Hin].
    + pose proof (destroy_ok b h Hb Hin) as H. rewrite Hd in H. apply H.
    + unfold team_destroy, untrack in Hd. rewrite erase_first_None in Hd by done.
      case_match; by simplify_eq.
Qed.

(** The team that a successful split puts in the store. *)
Lemma split_new_team b o parent start str size h b' t :
  backend_ok b → oracle_ok b o → team_objs b !! parent = Some t →
  team_split_strided b o parent start str size = Ok (0, h, b') → h ≠ ROC_SHMEM_TEAM_INVALID →
  let w0 := get_pe_in_world t start in
  let sw := s32 (str * stride (tinfo_wrt_world t)) in
  let my := pe_in_active_set w0 sw size (b_my_pe b) in
  0 ≤ start < num_pes t ∧ 1 ≤ size ≤ num_pes t ∧ 1 ≤ str ∧ 0 ≤ my ∧
  s32 (w0 + s32 (sw * (size - 1))) ≤ b_num_pes b ∧
  ∃ i, team_objs b' !! h = Some (mkTeam (b_num_pes b) (b_my_pe b)
    (mkTeamInfo parent start str size)
    (mkTeamInfo (team_world_ (team_tracker b)) w0 sw size) size my (team_comm o) i).
Proof.
  intros Hb Ho Ht Hs Hh. unfold team_split_strided in Hs.
  destruct (_ <=? get_num_user_teams _); [done|].
  destruct (parent =? ROC_SHMEM_TEAM_INVALID) eqn:E; [by simplify_eq|].
  rewrite Ht in Hs. simpl in Hs. case_match eqn:E1; [done|]. case_match eqn:E2; [done|].
  case_match eqn:E3; [by simplify_eq|].
  rewrite !orb_false_iff in E1. apply bind_Ok_inv in Hs as ([[st h0] b1] & Hc & Hs). simplify_eq/=.
  pose proof (create_new_team_spec b o (mkTeamInfo parent start str size)
    (mkTeamInfo (team_world_ (team_tracker b)) (get_pe_in_world t start)
       (s32 (str * stride (tinfo_wrt_world t))) size) size
    (pe_in_active_set (get_pe_in_world t start) (s32 (str * stride (tinfo_wrt_world t))) size
       (b_my_pe b)) (proj1 Hb) Ho) as H.
  rewrite Hc in H. destruct H as [(_ & -> & _)|(i & _ & -> & _ & _ & _ & _ & Hobj & _)]; [done|].
  split_and!; try lia. exists i. rewrite Hobj. apply lookup_insert_eq.
Qed.

(** The ranks of members are [int]s, and translate back to their numbers. *)
Lemma world_rank_int t i : team_wf t → 0 ≤ i < num_pes t → 0 ≤ world_rank t i ≤ INT_MAX.
Proof. unfold world_rank. intros (? & ? & ? & ?) Hi. nia. Qed.

Lemma get_pe_in_my_team_of t i :
  team_wf t → 0 ≤ i < num_pes t → get_pe_in_my_team t (world_rank t i) = i.
Proof.
  intros Hwf Hi. apply (get_pe_in_my_team_iff t (world_rank t i) i Hwf); [by apply world_rank_int|done].
Qed.

(** A rank on the grid of the team beyond its last member is none of its members. *)
Lemma get_pe_in_my_team_none t i :
  team_wf t → 0 ≤ world_rank t i ≤ INT_MAX → num_pes t ≤ i → get_pe_in_my_team t (world_rank t i) = -1.
Proof.
  intros Hwf Hr Hi. destruct (decide (get_pe_in_my_team t (world_rank t i) = -1)) as [|Hn]; [done|].
  destruct (proj1 (get_pe_in_my_team_iff t _ _ Hwf Hr) (conj eq_refl Hn)) as [Hk E].
  revert Hk E. generalize (get_pe_in_my_team t (world_rank t i)) as k. unfold world_rank. intros k Hk E. destruct Hwf as (_ & Hst & _ & _). nia.
Qed.

(** The numbers that a split computes do not wrap around. *)
Lemma split_small t start str size :
  team_wf t → 0 ≤ start < num_pes t → 1 ≤ size ≤ num_pes t → 1 ≤ str →
  world_rank t start + str * stride (tinfo_wrt_world t) * size ≤ INT_MAX →
  0 ≤ str * stride (tinfo_wrt_world t) ≤ INT_MAX ∧
  s32 (world_rank t start + s32 (str * stride (tinfo_wrt_world t) * (size - 1))) =
    world_rank t start + str * stride (tinfo_wrt_world t) * (size - 1).
Proof.
  intros (Hw1 & Hw2 & Hw3 & Hw4) Hst Hsz Hstr Hov. unfold world_rank in *.
  assert (0 ≤ str * stride (tinfo_wrt_world t)) by nia.
  assert (0 ≤ stride (tinfo_wrt_world t) * start) by nia.
  set (sw := str * stride (tinfo_wrt_world t)) in *. assert (0 ≤ sw * (size - 1) ≤ sw * size)
    by (split; [apply Z.mul_nonneg_nonneg|apply Z.mul_le_mono_nonneg_l]; lia).
  split; [nia|]. rewrite (s32_small (sw * _)) by (unfold INT_MIN; lia).
  apply s32_small. unfold INT_MIN. lia.
Qed.

(** ** Properties *)

(** C35: Translation between teams.  For a valid member of the source team, the
    answer is a member number of the destination team exactly when that member
    is the same processing element of the world, and -1 otherwise. *)
Theorem translate_pe_correct ts src dst s d i j :
  src ≠ ROC_SHMEM_TEAM_INVALID → dst ≠ ROC_SHMEM_TEAM_INVALID →
  ts !! src = Some s → ts !! dst = Some d → team_wf s → team_wf d → 0 ≤ i < num_pes s →
  ∃ r, team_translate_pe ts src i dst = Ok r ∧
    (r = j ∧ j ≠ -1 ↔ 0 ≤ j < num_pes d ∧ world_rank s i = world_rank d j).
Proof.
  intros Hsrc Hdst Hs Hd Hws Hwd Hi. unfold team_translate_pe.
  rewrite (proj2 (Z.eqb_neq _ _) Hsrc), (proj2 (Z.eqb_neq _ _) Hdst), Hs, Hd. simpl.
  eexists. split; [done|]. rewrite (get_pe_in_world_rank s) by (done || lia).
  apply get_pe_in_my_team_iff; [done|].
  unfold world_rank. destruct Hws as (?&?&?&?). nia.
Qed.

Definition even_team : Team :=
  mkTeam 8 2 (mkTeamInfo 100 0 2 4) (mkTeamInfo 100 0 2 4) 4 1 0 1.
Definition late_team : Team :=
  mkTeam 8 2 (mkTeamInfo 100 2 1 3) (mkTeamInfo 100 2 1 3) 3 0 0 2.

Lemma translate_pe_correct_witness :
  ∃ r, team_translate_pe {[ 200 := even_team; 300 := late_team ]} 200 2 300 = Ok r ∧
    (r = 2 ∧ 2 ≠ -1 ↔ 0 ≤ 2 < 3 ∧ world_rank even_team 2 = world_rank late_team 2).
Proof.
  apply (translate_pe_correct _ 200 300 even_team late_team); try done;
    unfold team_wf, INT_MAX; simpl; lia.
Defined.

(** C36: A strided split of a well-formed parent, where the ranks asked for do not
    leave [int]: when the call succeeds with a team, the new team has
    the requested size; its member [i] is the processing element that is member
    [start + stride * i] of the parent when the parent has that many, and no member
    of the parent otherwise; every member is a processing element of the world but
    possibly the last, which the check lets be one too high; and the number
    stored as this processing element's own is the one at which the new team
    lists it. *)
Theorem split_members b o parent start str size h b' t :
  backend_ok b → oracle_ok b o → team_objs b !! parent = Some t → team_wf t →
  0 ≤ b_my_pe b ≤ INT_MAX →
  world_rank t start + str * stride (tinfo_wrt_world t) * size ≤ INT_MAX →
  team_split_strided b o parent start str size = Ok (0, h, b') → h ≠ ROC_SHMEM_TEAM_INVALID →
  ∃ t', team_objs b' !! h = Some t' ∧ team_wf t' ∧ num_pes t' = size ∧
    (∀ i, 0 ≤ i < size →
       let w := get_pe_in_world t' i in
       get_pe_in_my_team t' w = i ∧
       w = world_rank t (start + str * i) ∧
       get_pe_in_my_team t w = (if start + str * i <? num_pes t then start + str * i else -1) ∧
       0 ≤ w ≤ b_num_pes b ∧ (w = b_num_pes b → i = size - 1)) ∧
    0 ≤ my_pe t' < size ∧ get_pe_in_world t' (my_pe t') = b_my_pe b.
Proof.
  intros Hb Ho Ht Hwf Hme Hov Hs Hh.
  destruct (split_new_team _ _ _ _ _ _ _ _ _ Hb Ho Ht Hs Hh) as
    (Hst & Hsz & Hstr & Hmy & Hend & i & Hobj).
  rewrite (get_pe_in_world_rank t) in Hmy, Hend, Hobj by (done || lia).
  pose proof Hwf as (Hw1 & Hw2 & Hw3 & Hw4). pose proof (split_small t start str size Hwf Hst Hsz Hstr Hov) as [Hsm1 Hsm2].
  rewrite (s32_small (str * _)) in Hmy, Hend, Hobj by (unfold INT_MIN in *; nia).
  rewrite Hsm2 in Hend. eexists. split; [exact Hobj|].
  match goal with |- team_wf ?T ∧ _ => set (t' := T) end.
  assert (team_wf t') as Hwf' by (split_and!; simpl; unfold world_rank in *; nia).
  assert (my_pe t' = get_pe_in_my_team t' (b_my_pe b)) as Hget
    by (rewrite <- pe_in_active_set_team; done).
  destruct (proj1 (get_pe_in_my_team_iff t' (b_my_pe b) (my_pe t') Hwf' Hme)) as [Hr Heq].
  { split; [done|]. simpl. lia. }
  split; [done|]. split; [done|]. split; [|split; [exact Hr|]].
  - intros k Hk. change size with (num_pes t') in Hk. rewrite (get_pe_in_world_rank t') by (done || lia).
    assert (world_rank t' k = world_rank t (start + str * k)) as Hwk
      by (unfold world_rank at 1; simpl; unfold world_rank; lia).
    assert (0 ≤ world_rank t' k ≤ INT_MAX) as Hrk by (by apply world_rank_int).
    cbn zeta. split; [by apply get_pe_in_my_team_of|]. split; [done|]. split.
    + rewrite Hwk in Hrk |- *. case_if.
      * apply get_pe_in_my_team_of; [done|]. nia.
      * apply get_pe_in_my_team_none; [done..|nia].
    + rewrite Hwk. simpl in Hk. unfold world_rank in *. split; nia.
  - rewrite (get_pe_in_world_rank t') by (done || lia). by symmetry.
Qed.

Definition result_or {A} (a : A) (r : result A) : A := match r with Ok x => x | Fail _ => a end.

Definition empty_backend : Backend := mkBackend 0 0 (mkTeamTracker [] 0 0) [] ∅.

(** Eight processing elements, this one is number 3, and at most five teams. *)
Definition b8 : Backend := result_or empty_backend (Backend_new 8 3 100 (Some 5)).
Definition o8 : oracle := mkOracle 200 [30] 7.

Lemma b8_ok : backend_ok b8.
Proof. exact (Backend_new_ok 8 3 100 (Some 5) ltac:(done) ltac:(done)). Qed.

Lemma o8_ok : oracle_ok b8 o8.
Proof. by split. Qed.

(** The split of the world from 1 with a stride of 2 gives the team of 1, 3 and 5. *)
Lemma split_members_witness :
  ∃ t', team_objs (result_or (0, 0, b8) (team_split_strided b8 o8 100 1 2 3)).2 !! 200 = Some t' ∧
    num_pes t' = 3 ∧ get_pe_in_world t' 2 = 5 ∧ get_pe_in_my_team (world_team 8 3 100) 5 = 5 ∧
    0 ≤ my_pe t' < 3 ∧ get_pe_in_world t' (my_pe t') = 3.
Proof.
  destruct (split_members b8 o8 100 1 2 3 200
    (result_or (0, 0, b8) (team_split_strided b8 o8 100 1 2 3)).2 (world_team 8 3 100) b8_ok o8_ok
    eq_refl ltac:(unfold team_wf, INT_MAX; simpl; lia) ltac:(done) ltac:(done) eq_refl ltac:(done))
    as (t' & E & _ & Hn & Hm & Hme & Hp).
  exists t'. destruct (Hm 2 ltac:(lia)) as (_ & Hw & Hb & _). rewrite Hw in Hb.
  split; [exact E|]. split; [exact Hn|]. split; [rewrite Hw; reflexivity|]. split; [exact Hb|].
  split; [exact Hme|exact Hp].
Defined.

(** The bound that the split checks.  In every team it creates the last
    member's world rank is at most the number of processing elements; the
    check admits equality, so a team can contain a rank that no processing
    element has, and a sub-team can leave its parent. *)
Theorem split_end_bound :
  (∀ b o parent start str size h b' t,
     backend_ok b → oracle_ok b o → team_objs b !! parent = Some t → team_wf t →
     world_rank t start + str * stride (tinfo_wrt_world t) * size ≤ INT_MAX →
     team_split_strided b o parent start str size = Ok (0, h, b') →
     h ≠ ROC_SHMEM_TEAM_INVALID →
     world_rank t (start + str * (size - 1)) ≤ b_num_pes b) ∧
  (∃ b o h b' t', backend_ok b ∧ oracle_ok b o ∧
     team_split_strided b o 100 1 1 8 = Ok (0, h, b') ∧ team_objs b' !! h = Some t' ∧
     world_rank t' 7 = b_num_pes b ∧ world_rank t' 7 = 8) ∧
  (∃ b o h b' parent t', backend_ok b ∧ oracle_ok b o ∧
     team_split_strided b o 200 1 1 3 = Ok (0, h, b') ∧
     team_objs b !! 200 = Some parent ∧ team_objs b' !! h = Some t' ∧
     get_pe_in_my_team parent (get_pe_in_world t' 2) = -1).
Proof.
  split_and!.
  - intros b o parent start str size h b' t Hb Ho Ht Hwf Hov Hs Hh.
    destruct (split_new_team _ _ _ _ _ _ _ _ _ Hb Ho Ht Hs Hh) as (Hst & Hsz & Hstr & _ & Hend & _).
    rewrite (get_pe_in_world_rank t) in Hend by (done || lia).
    destruct (split_small t start str size Hwf Hst Hsz Hstr Hov) as [Hsm1 Hsm2].
    rewrite (s32_small (str * _)), Hsm2 in Hend by (unfold INT_MIN in *; lia).
    unfold world_rank in *. lia.
  - eexists b8, o8, 200, _, _.
    split; [apply b8_ok|]. split; [apply o8_ok|]. split; [vm_compute; reflexivity|].
    split; [vm_compute; reflexivity|]. done.
  - set (b1 := (result_or (0, 0, b8) (team_split_strided b8 o8 100 1 1 3)).2).
    eexists b1, (mkOracle 300 [28] 7), 300, _, _, _. split_and!.
    + pose proof (split_ok b8 o8 100 1 1 3 b8_ok o8_ok ltac:(right; by left)) as H.
      unfold b1. destruct (team_split_strided b8 o8 100 1 1 3) as [[[]]|]; [apply H|done].
    + by split; vm_compute.
    + vm_compute. reflexivity.
    + vm_compute. reflexivity.
    + vm_compute. reflexivity.
    + vm_compute. reflexivity.
Qed.

(** Whatever sequence of splits and releases a processing element makes, two
    live teams never share a work array: for each of the six pools, the arrays
    of distinct teams are disjoint and lie inside the pool. *)
Theorem team_arrays_disjoint n me world max b0 b h1 h2 t1 t2 (pool_base : work_array → Z) a :
  world ≠ nullptr → 1 ≤ default 40 max → Backend_new n me world max = Ok b0 →
  rtc team_step b0 b → team_objs b !! h1 = Some t1 → team_objs b !! h2 = Some t2 → h1 ≠ h2 →
  let lo t := array_address pool_base (pool_index_ t) a in
  (lo t1 + array_bytes a ≤ lo t2 ∨ lo t2 + array_bytes a ≤ lo t1) ∧
  pool_base a ≤ lo t1 ∧ lo t1 + array_bytes a ≤ pool_base a + pool_bytes (max_teams b) a.
Proof.
  intros Hw Hmax Hnew Hsteps H1 H2 Hne.
  assert (backend_ok b) as [Hp _].
  { pose proof (Backend_new_ok n me world max Hw Hmax) as H0. rewrite Hnew in H0. simpl in H0.
    clear Hnew H1 H2. induction Hsteps as [|b1 b2 b3 Hstep _ IH]; [done|].
    apply IH. by eapply team_step_ok. }
  destruct (pool_taken _ Hp _ _ H1) as [Hr1 _]. destruct (pool_taken _ Hp _ _ H2) as [Hr2 _].
  assert (pool_index_ t1 ≠ pool_index_ t2) as Hidx.
  { intros E. by apply Hne, (pool_inj _ Hp _ _ _ _ H1 H2). }
  assert (0 < array_bytes a) by (by destruct a).
  unfold array_address, pool_bytes. split_and!; [|nia..].
  destruct (decide (pool_index_ t1 < pool_index_ t2)); [left|right]; nia.
Qed.

Lemma team_arrays_disjoint_witness :
  let b := (result_or (0, 0, b8) (team_split_strided b8 o8 100 1 2 3)).2 in
  let lo t := array_address (λ _, 1000) (pool_index_ t) pWrk in
  let t1 := world_team 8 3 100 in
  let t2 := mkTeam 8 3 (mkTeamInfo 100 1 2 3) (mkTeamInfo 100 1 2 3) 3 1 7 1 in
  (lo t1 + array_bytes pWrk ≤ lo t2 ∨ lo t2 + array_bytes pWrk ≤ lo t1) ∧
  1000 ≤ lo t1 ∧ lo t1 + array_bytes pWrk ≤ 1000 + pool_bytes (max_teams b) pWrk.
Proof.
  intros b lo t1 t2.
  apply (team_arrays_disjoint 8 3 100 (Some 5) b8 b 100 200 t1 t2 (λ _, 1000)); try done.
  eapply rtc_l; [|apply rtc_refl].
  eapply (step_split _ o8 100 1 2 3 0 200); [apply o8_ok|reflexivity].
Defined.

(** At finalisation every team the user left behind is destroyed exactly
    once: the sweep returns, the tracker is empty, and only the world team's
    object is left. *)
Theorem destroy_all_correct b :
  backend_ok b →
  returns (destroy_all b) (λ b', backend_ok b' ∧ teams_ (team_tracker b') = [] ∧
    ∀ h, is_Some (team_objs b' !! h) ↔ h = team_world_ (team_tracker b)).
Proof.
  intros Hb. eapply returns_mono; [by apply destroy_all_loop_spec|].
  intros b' (Hb' & Hnil & Hw). split_and!; [done..|]. intros h.
  rewrite <- (handles_live _ (proj2 Hb')). unfold handles. rewrite Hnil, Hw. set_solver.
Qed.

Lemma destroy_all_correct_witness :
  let b := (result_or (0, 0, b8) (team_split_strided b8 o8 100 1 2 3)).2 in
  returns (destroy_all b) (λ b', backend_ok b' ∧ teams_ (team_tracker b') = [] ∧
    ∀ h, is_Some (team_objs b' !! h) ↔ h = 100).
Proof.
  intros b. apply destroy_all_correct.
  pose proof (split_ok b8 o8 100 1 2 3 b8_ok o8_ok ltac:(right; by left)) as H.
  unfold b. destruct (team_split_strided b8 o8 100 1 2 3) as [[[]]|]; [apply H|done].
Defined.

(** C37: The members of a new team agree on its work arrays.  Two processing
    elements with the same limit that obtain the same reduced mask both return the
    same status.  They are refused exactly when the mask has no bit below the
    limit; otherwise both take the index of the least bit of the mask, which is
    free on both of them. *)
Theorem pool_index_agreement b1 b2 o1 o2 ip1 iw1 n1 m1 ip2 iw2 n2 m2 :
  pool_ok b1 → pool_ok b2 → oracle_ok b1 o1 → oracle_ok b2 o2 →
  max_teams b1 = max_teams b2 → reduced_bitmask_ o1 = reduced_bitmask_ o2 →
  ∃ s h1 h2 b1' b2',
    create_new_team b1 o1 ip1 iw1 n1 m1 = Ok (s, h1, b1') ∧
    create_new_team b2 o2 ip2 iw2 n2 m2 = Ok (s, h2, b2') ∧
    (s = ROC_SHMEM_SUCCESS ∨ s = ROC_SHMEM_TOO_MANY_TEAMS_ERROR) ∧
    (s = ROC_SHMEM_TOO_MANY_TEAMS_ERROR ↔
       ∀ j, 0 ≤ j < max_teams b1 → bit_of (reduced_bitmask_ o1) j = false) ∧
    (s = ROC_SHMEM_SUCCESS → ∃ i, pool_index_ <$> team_objs b1' !! h1 = Some i ∧
       pool_index_ <$> team_objs b2' !! h2 = Some i ∧ 0 ≤ i < max_teams b1 ∧
       bit_of (reduced_bitmask_ o1) i = true ∧
       (∀ j, 0 ≤ j < i → bit_of (reduced_bitmask_ o1) j = false) ∧
       bit_of (pool_bitmask_ b1) i = true ∧ bit_of (pool_bitmask_ b2) i = true).
Proof.
  intros Hb1 Hb2 Ho1 Ho2 Hmax Hred.
  pose proof (create_new_team_spec b1 o1 ip1 iw1 n1 m1 Hb1 Ho1) as H1.
  pose proof (create_new_team_spec b2 o2 ip2 iw2 n2 m2 Hb2 Ho2) as H2.
  apply returns_iff in H1 as ([[s1 h1] b1'] & -> & H1).
  apply returns_iff in H2 as ([[s2 h2] b2'] & -> & H2).
  destruct H1 as [(-> & _ & _ & Hn1)|(i1 & -> & -> & Hi1 & Hs1 & Hl1 & _ & Hobj1 & _)],
           H2 as [(-> & _ & _ & Hn2)|(i2 & -> & -> & Hi2 & Hs2 & Hl2 & _ & Hobj2 & _)].
  - do 5 eexists. split; [done|]. split; [done|]. split; [by right|]. split; [done|]. intros H. discriminate H.
  - rewrite <- Hred in Hs2. rewrite Hn1 in Hs2 by lia. done.
  - rewrite Hred in Hs1. rewrite Hn2 in Hs1 by lia. done.
  - assert (i2 = i1) as ->.
    { rewrite <- Hred in Hs2, Hl2. destruct (Z.lt_trichotomy i1 i2) as [Hlt|[?|Hlt]]; [|done|].
      - rewrite Hl2 in Hs1 by lia. done.
      - rewrite Hl1 in Hs2 by lia. done. }
    do 5 eexists. split; [done|]. split; [done|]. split; [by left|]. split.
    { split; [done|]. intros Hn. rewrite Hn in Hs1 by done. done. }
    intros _. exists i1. rewrite Hobj1, Hobj2, !lookup_insert_eq.
    destruct Hi1. split_and!; [done..|by apply (oracle_band _ _ Ho1)|by apply (oracle_band _ _ Ho2)].
Qed.

(** The mask 30 has the bits 1 to 4: both take index 1. *)
Lemma pool_index_agreement_witness :
  ∃ s h1 h2 b1' b2',
    create_new_team b8 o8 (mkTeamInfo 100 1 2 3) (mkTeamInfo 100 1 2 3) 3 1 = Ok (s, h1, b1') ∧
    create_new_team b8 o8 (mkTeamInfo 100 1 2 3) (mkTeamInfo 100 1 2 3) 3 0 = Ok (s, h2, b2') ∧
    s = ROC_SHMEM_SUCCESS ∧
    pool_index_ <$> team_objs b1' !! h1 = Some 1 ∧ pool_index_ <$> team_objs b2' !! h2 = Some 1.
Proof.
  destruct (pool_index_agreement b8 b8 o8 o8 (mkTeamInfo 100 1 2 3) (mkTeamInfo 100 1 2 3) 3 1
    (mkTeamInfo 100 1 2 3) (mkTeamInfo 100 1 2 3) 3 0 (proj1 b8_ok) (proj1 b8_ok) o8_ok o8_ok eq_refl eq_refl)
    as (s & h1 & h2 & b1' & b2' & E1 & E2 & Hor & Hno & Hyes).
  exists s, h1, h2, b1', b2'. split; [exact E1|]. split; [exact E2|].
  assert (s = ROC_SHMEM_SUCCESS) as Hs.
  { destruct Hor as [|Hr]; [done|]. rewrite Hno in Hr. specialize (Hr 1 ltac:(change (max_teams b8) with 5; lia)). discriminate Hr. }
  split; [exact Hs|]. destruct (Hyes Hs) as (i & -> & -> & Hi & Hbit & Hleast & _).
  assert (i = 1) as ->; [|done].
  destruct (decide (1 < i)) as [Hlt|]; [specialize (Hleast 1 ltac:(lia)); discriminate Hleast|].
  assert (i = 0 ∨ i = 1) as [->|]; [lia|discriminate Hbit|done].
Defined.
