(* ===== verification/ROQueue.v ===== *)
(** * The reverse-offload command queue

    The ring through which the GPU hands commands to the host:
    [reverse_offload/ro_net_internal.hpp] (the element, the descriptor),
    [isFull] and [build_queue_element] of [reverse_offload/context_ro_device.cpp]
    (the producers: the threads of a work-group), [ro_net_process_queue] and
    [ro_net_poll] of [reverse_offload/backend_ro.cpp] (the consumer: the worker
    that visits the ring).  A visit goes by steps: the copy of the element into
    [queue_element_cache_] when the ring is in GPU memory, the test of its flag,
    the insertion, the reset of the flag and the increment of the read index.
    The cache is one for all workers, so visits to other rings may change it
    between any two of these steps, unless there is one worker.  The device's
    refill of its read index is a load and a store.  The stores of an element's
    fields are one step, and so is its copy.  Shown: what the host inserts is
    what was claimed, in order, in the runs where no store of an older value
    moves the device's read index back and the cache is not shared
    ([fifo_step], [own_cache]); and a run that loses a command without
    either. *)
From S2P Require Import Prelude.

Local Open Scope Z_scope.

(** ** Data *)

(** [enum ro_net_cmds]. *)
Inductive ro_net_cmds :=
  | RO_NET_PUT | RO_NET_P | RO_NET_GET | RO_NET_PUT_NBI | RO_NET_GET_NBI
  | RO_NET_AMO_FOP | RO_NET_AMO_FCAS | RO_NET_FENCE | RO_NET_QUIET | RO_NET_FINALIZE
  | RO_NET_TO_ALL | RO_NET_TEAM_TO_ALL | RO_NET_SYNC | RO_NET_BARRIER_ALL
  | RO_NET_BROADCAST | RO_NET_TEAM_BROADCAST | RO_NET_ALLTOALL | RO_NET_FCOLLECT.

#[export] Instance ro_net_cmds_eq_dec : EqDecision ro_net_cmds.
Proof. solve_decision. Defined.

(** [enum ro_net_types]. *)
Inductive ro_net_types :=
  | RO_NET_FLOAT | RO_NET_CHAR | RO_NET_DOUBLE | RO_NET_INT
  | RO_NET_LONG | RO_NET_LONG_LONG | RO_NET_SHORT | RO_NET_LONG_DOUBLE.

(** [enum ROC_SHMEM_OP] of [roc_shmem.hpp]. *)
Inductive ROC_SHMEM_OP :=
  | ROC_SHMEM_SUM | ROC_SHMEM_MAX | ROC_SHMEM_MIN | ROC_SHMEM_PROD
  | ROC_SHMEM_AND | ROC_SHMEM_OR | ROC_SHMEM_XOR.

(** [struct queue_element]. *)
Record queue_element := mkElement {
  valid : bool;
  qe_type : ro_net_cmds;
  qe_PE : Z;
  qe_size : Z;
  qe_src : Z;
  qe_dst : Z;
  qe_threadId : Z;
  qe_logPE_stride : Z;
  qe_PE_size : Z;
  qe_pWrk : Z;
  qe_pSync : Z;
  qe_op : ROC_SHMEM_OP;
  qe_datatype : ro_net_types;
  qe_PE_root : Z;
  qe_team_comm : Z
}.

(** The arguments of [build_queue_element]; [a_value] is the little-endian
    number in the bytes that [src] points to, read for inline commands. *)
Record cmd_args := mkArgs {
  a_type : ro_net_cmds;
  a_dst : Z;
  a_src : Z;
  a_value : Z;
  a_size : Z;
  a_pe : Z;
  a_logPE_stride : Z;
  a_PE_size : Z;
  a_PE_root : Z;
  a_pWrk : Z;
  a_pSync : Z;
  a_team_comm : Z;
  a_win_id : Z;
  a_blocking : bool;
  a_op : ROC_SHMEM_OP;
  a_datatype : ro_net_types
}.

(** ** [isFull] *)
Definition isFull (read_idx write_idx queue_size : Z) : bool :=
  u64 (queue_size - u64 (write_idx - read_idx)) =? 0.

(** ** Filling in an element: lines 829-887 of [build_queue_element] *)

(** [memcpy] of the [n] low bytes of [v] over the word [old]. *)
Definition overwrite_low (n v old : Z) : Z :=
  v `mod` 2 ^ (8 * n) + 2 ^ (8 * n) * (old / 2 ^ (8 * n)).

(** The fields every command sets. *)
Definition pack_common (a : cmd_args) (threadId : Z) (old : queue_element) : queue_element :=
  mkElement (valid old) (a_type a) (a_pe a) (s32 (a_size a))
    (if decide (a_type a = RO_NET_P) then overwrite_low (a_size a) (a_value a) (qe_src old)
     else a_src a)
    (a_dst a) threadId (qe_logPE_stride old) (qe_PE_size old) (qe_pWrk old) (qe_pSync old)
    (qe_op old) (qe_datatype old) (qe_PE_root old) (qe_team_comm old).

(** The fields that depend on the command. *)
Definition pack_extra (a : cmd_args) (e : queue_element) : queue_element :=
  let '(mkElement v ty pe sz src dst th lstr psz wrk sync op dt root comm) := e in
  match a_type a with
  | RO_NET_AMO_FOP => mkElement v ty pe sz src dst th lstr psz wrk sync (a_op a) dt root comm
  | RO_NET_AMO_FCAS => mkElement v ty pe sz src dst th lstr psz (a_pWrk a) sync op dt root comm
  | RO_NET_TO_ALL =>
      mkElement v ty pe sz src dst th (a_logPE_stride a) (a_PE_size a) (a_pWrk a) (a_pSync a)
                (a_op a) (a_datatype a) root comm
  | RO_NET_TEAM_TO_ALL =>
      mkElement v ty pe sz src dst th lstr psz wrk sync (a_op a) (a_datatype a) root (a_team_comm a)
  | RO_NET_BROADCAST =>
      mkElement v ty pe sz src dst th (a_logPE_stride a) (a_PE_size a) wrk (a_pSync a)
                op (a_datatype a) (a_PE_root a) comm
  | RO_NET_TEAM_BROADCAST =>
      mkElement v ty pe sz src dst th lstr psz wrk sync op (a_datatype a) (a_PE_root a) (a_team_comm a)
  | RO_NET_ALLTOALL | RO_NET_FCOLLECT =>
      mkElement v ty pe sz src dst th lstr psz (a_pWrk a) sync op (a_datatype a) root (a_team_comm a)
  | RO_NET_SYNC => mkElement v ty pe sz src dst th lstr psz wrk sync op dt root (a_team_comm a)
  | _ => e
  end.

Definition pack (a : cmd_args) (threadId : Z) (old : queue_element) : queue_element :=
  pack_extra a (pack_common a threadId old).

Definition set_valid (b : bool) (e : queue_element) : queue_element :=
  let '(mkElement _ ty pe sz src dst th lstr psz wrk sync op dt root comm) := e in
  mkElement b ty pe sz src dst th lstr psz wrk sync op dt root comm.

(** ** The queue *)

(** Where a thread is in [build_queue_element]: about to test whether the
    queue is full at the slot it read, holding a read index it loaded from
    memory, owner of a slot, or about to raise the slot's valid flag. *)
Inductive pc :=
  | PCheck (write_slot : Z) (a : cmd_args)
  | PLoaded (write_slot v : Z) (a : cmd_args)
  | PClaimed (write_slot : Z) (a : cmd_args)
  | PWritten (write_slot : Z) (a : cmd_args).

(** Where the worker that visits this queue is in [ro_net_process_queue]. *)
Inductive host_pc := HIdle | HFetched | HTested | HInserted | HCleared.

#[export] Instance host_pc_eq_dec : EqDecision host_pc.
Proof. solve_decision. Defined.

(** [bp->gpu_queue] (true unless [RO_NET_CPU_QUEUE] is set) and
    [bp->num_threads], the number of worker threads. *)
Record ro_config := mkConfig { cfg_gpu_queue : bool; cfg_num_threads : Z }.

(** The ring, the host's read index (in the descriptor), the work-group's copy
    of it and the write index (in the handle), the threads, what the host has
    passed on to the transport, as a record of the history only which thread
    claimed which slot for which command, the worker that visits the queue, and
    the one [queue_element_cache_] of the backend. *)
Record qstate := mkQ {
  q_slots : list queue_element;
  host_read_idx : Z;
  read_idx : Z;
  write_idx : Z;
  pcs : gmap Z pc;
  inserted : list queue_element;
  claims : list (Z * cmd_args);
  hpc : host_pc;
  queue_element_cache_ : queue_element
}.

Definition queue_size (s : qstate) : Z := Z.of_nat (length (q_slots s)).

(** The slot of an index. *)
Definition slot (s : qstate) (i : Z) : nat := Z.to_nat (i `mod` queue_size s).

(** ** The host *)

Definition at_read (s : qstate) : result queue_element :=
  must (q_slots s !! slot s (host_read_idx s)).

(** [next_element]: a pointer to the backend's cache, or to the slot. *)
Definition next_element (c : ro_config) (s : qstate) : result queue_element :=
  if cfg_gpu_queue c then Ok (queue_element_cache_ s) else at_read s.

(** The copy of the slot into the cache (lines 339-363). *)
Definition host_fetch (c : ro_config) (s : qstate) : result qstate :=
  cache ← (if cfg_gpu_queue c then at_read s else Ok (queue_element_cache_ s));
  Ok (mkQ (q_slots s) (host_read_idx s) (read_idx s) (write_idx s) (pcs s) (inserted s)
        (claims s) HFetched cache).

(** [if (next_element->valid)] (line 375). *)
Definition host_test (c : ro_config) (s : qstate) : result (bool * qstate) :=
  e ← next_element c s;
  Ok (valid e, mkQ (q_slots s) (host_read_idx s) (read_idx s) (write_idx s) (pcs s) (inserted s)
        (claims s) (if valid e then HTested else HIdle) (queue_element_cache_ s)).

(** [transport_.insertRequest] of a new copy of the element (line 385). *)
Definition host_insert (c : ro_config) (s : qstate) : result qstate :=
  e ← next_element c s;
  Ok (mkQ (q_slots s) (host_read_idx s) (read_idx s) (write_idx s) (pcs s) (inserted s ++ [e])
        (claims s) HInserted (queue_element_cache_ s)).

(** [bp->queues[queue_idx][read_slot].valid = 0] (line 392). *)
Definition host_clear (s : qstate) : result qstate :=
  e ← at_read s;
  Ok (mkQ (<[slot s (host_read_idx s) := set_valid false e]> (q_slots s)) (host_read_idx s)
        (read_idx s) (write_idx s) (pcs s) (inserted s) (claims s) HCleared (queue_element_cache_ s)).

(** [queue_desc->read_idx++] (line 397). *)
Definition host_advance (s : qstate) : qstate :=
  mkQ (q_slots s) (u64 (host_read_idx s + 1)) (read_idx s) (write_idx s) (pcs s) (inserted s)
    (claims s) HIdle (queue_element_cache_ s).

(** [ROBackend::ro_net_process_queue], run without interruption. *)
Definition ro_net_process_queue (c : ro_config) (s : qstate) : result (bool * qstate) :=
  s1 ← host_fetch c s;
  '(valid, s2) ← host_test c s1;
  if valid : bool then
    s3 ← host_insert c s2;
    s4 ← host_clear s3;
    Ok (true, host_advance s4)
  else Ok (false, s2).

(** The next of its steps. *)
Definition host_step (c : ro_config) (s : qstate) : result qstate :=
  match hpc s with
  | HIdle => host_fetch c s
  | HFetched => '(_, s') ← host_test c s; Ok s'
  | HTested => host_insert c s
  | HInserted => host_clear s
  | HCleared => Ok (host_advance s)
  end.

(** The inner loop of [ROBackend::ro_net_poll]: [left] requests may still be
    taken in this visit. *)
Fixpoint drain (c : ro_config) (left : nat) (s : qstate) : result (Z * qstate) :=
  match left with
  | O => Ok (0, s)
  | S left' =>
      '(processed_req, s') ← ro_net_process_queue c s;
      if processed_req : bool then
        '(n, s'') ← drain c left' s';
        Ok (n + 1, s'')
      else Ok (0, s')
  end.

Definition drain_queue (c : ro_config) (s : qstate) : result (Z * qstate) := drain c 64 s.

(** The queues that a worker thread visits in one round of [ro_net_poll]. *)
Fixpoint poll_indices (fuel : nat) (i num_threads num_wg : Z) : list Z :=
  match fuel with
  | O => []
  | S f => if i <? num_wg then i :: poll_indices f (i + num_threads) num_threads num_wg else []
  end.

(** ** The device: [build_queue_element] as a step relation

    The refill of the work-group's read index is the two steps that the
    hardware makes of the load instruction whose target is [handle->read_idx]:
    a load into a register and a store of the register (line 812). *)

(** A device thread's move, and the thread's next place. *)
Definition dev_move (s : qstate) (t : Z) (p : pc) (r w : Z) : qstate :=
  mkQ (q_slots s) (host_read_idx s) r w (<[t := p]> (pcs s)) (inserted s) (claims s)
    (hpc s) (queue_element_cache_ s).

(** The thread takes the slot [w]. *)
Definition dev_claim (s : qstate) (t w : Z) (a : cmd_args) : qstate :=
  mkQ (q_slots s) (host_read_idx s) (read_idx s) (u64 (w + 1)) (<[t := PClaimed w a]> (pcs s))
    (inserted s) (claims s ++ [(t, a)]) (hpc s) (queue_element_cache_ s).

(** The thread stores to the slot [w] it owns. *)
Definition dev_store (s : qstate) (w : Z) (e : queue_element) (ps : gmap Z pc) : qstate :=
  mkQ (<[slot s w := e]> (q_slots s)) (host_read_idx s) (read_idx s) (write_idx s) ps
    (inserted s) (claims s) (hpc s) (queue_element_cache_ s).

(** A worker copies an element of another queue into the cache. *)
Definition other_copy (s : qstate) (e : queue_element) : qstate :=
  mkQ (q_slots s) (host_read_idx s) (read_idx s) (write_idx s) (pcs s) (inserted s) (claims s)
    (hpc s) e.

(** The steps of the threads of the work-group, of the worker of this queue,
    and of the visits to other queues, of which this queue sees only what they
    leave in the cache: the same worker makes them between its visits to this
    queue, other workers at any time. *)
Inductive qstep (c : ro_config) (s : qstate) : qstate → Prop :=
  | dev_start t a :
      pcs s !! t = None →
      qstep c s (dev_move s t (PCheck (write_idx s) a) (read_idx s) (write_idx s))
  | dev_refill_load t w a :
      pcs s !! t = Some (PCheck w a) → isFull (read_idx s) w (queue_size s) = true →
      qstep c s (dev_move s t (PLoaded w (host_read_idx s) a) (read_idx s) (write_idx s))
  | dev_refill_store t w v a :
      pcs s !! t = Some (PLoaded w v a) →
      qstep c s (dev_move s t (PCheck w a) v (write_idx s))
  | dev_cas_fail t w a :
      pcs s !! t = Some (PCheck w a) → isFull (read_idx s) w (queue_size s) = false →
      write_idx s ≠ w →
      qstep c s (dev_move s t (PCheck (write_idx s) a) (read_idx s) (write_idx s))
  | dev_cas_ok t w a :
      pcs s !! t = Some (PCheck w a) → isFull (read_idx s) w (queue_size s) = false →
      write_idx s = w →
      qstep c s (dev_claim s t w a)
  | dev_write t w a old :
      pcs s !! t = Some (PClaimed w a) → q_slots s !! slot s w = Some old →
      qstep c s (dev_store s w (pack a t old) (<[t := PWritten w a]> (pcs s)))
  | dev_publish t w a e :
      pcs s !! t = Some (PWritten w a) → q_slots s !! slot s w = Some e →
      qstep c s (dev_store s w (set_valid true e) (delete t (pcs s)))
  | host_move s' :
      host_step c s = Ok s' → qstep c s s'
  | host_other e :
      cfg_gpu_queue c = true → hpc s = HIdle ∨ 1 < cfg_num_threads c → qstep c s (other_copy s e).

(** A step by which the work-group's copy of the read index does not go back. *)
Definition fifo_step (c : ro_config) (s s' : qstate) : Prop :=
  qstep c s s' ∧ read_idx s ≤ read_idx s'.

(** A step of a handle that one thread at a time uses: a call starts when no
    other is running. *)
Definition serial_step (c : ro_config) (s s' : qstate) : Prop :=
  qstep c s s' ∧ (∀ t u, is_Some (pcs s' !! t) → is_Some (pcs s' !! u) → t = u).

(** Nobody else writes the cache while the worker of a queue uses it. *)
Definition own_cache (c : ro_config) : Prop := cfg_gpu_queue c = false ∨ cfg_num_threads c ≤ 1.

(** An empty queue of [n] slots. *)
Definition empty_element : queue_element :=
  mkElement false RO_NET_PUT 0 0 0 0 0 0 0 0 0 ROC_SHMEM_SUM RO_NET_INT 0 0.

Definition q_init (n : nat) : qstate :=
  mkQ (replicate n empty_element) 0 0 0 ∅ [] [] HIdle empty_element.

(** ** Lemmas *)

Lemma valid_set b e : valid (set_valid b e) = b.
Proof. by destruct e. Qed.

Lemma valid_pack a t e : valid (pack a t e) = valid e.
Proof. unfold pack, pack_extra. by destruct e, a as [[]]. Qed.

Lemma isFull_iff r w n :
  0 ≤ n < 2 ^ 63 → - 2 ^ 62 < w - r ≤ n → isFull r w n = true ↔ w - r = n.
Proof.
  intros Hn Hw. unfold isFull, uwrap. rewrite Z.eqb_eq, Zminus_mod_idemp_r.
  split; [|intros ->; by rewrite Z.sub_diag].
  intros H. apply Z.mod_divide in H as [k Hk]; [|done].
  assert (k = 0); [|lia]. assert (- 2 ^ 64 < n - (w - r) < 2 ^ 64); lia.
Qed.

Section queue_invariant.
Implicit Types s : qstate.

(** The host has cleared the flag of the slot [i] but not counted it yet. *)
Definition cleared s (i : Z) : bool :=
  bool_decide (hpc s = HCleared) && (i =? host_read_idx s).

(** The thread is filling in slot [i]. *)
Definition owns s (t i : Z) (a : cmd_args) : Prop :=
  pcs s !! t = Some (PClaimed i a) ∨ pcs s !! t = Some (PWritten i a).

(** The slot of index [i] in a queue whose first unread index is at most [i]:
    owned by the thread that claimed it, filled but not published, ready for
    the host, or free. *)
Definition slot_ok s (i : Z) : Prop :=
  ∃ e, q_slots s !! slot s i = Some e ∧
    if i <? write_idx s then
      ∃ t a, claims s !! Z.to_nat i = Some (t, a) ∧
        ((pcs s !! t = Some (PClaimed i a) ∧ valid e = false) ∨
         (pcs s !! t = Some (PWritten i a) ∧ valid e = false ∧ ∃ old, e = pack a t old) ∨
         (¬ owns s t i a ∧ ∃ old, e = set_valid (negb (cleared s i)) (pack a t old)))
    else valid e = false.

Definition pc_ok s (t : Z) (p : pc) : Prop :=
  match p with
  | PCheck w _ => 0 ≤ w ≤ write_idx s
  | PLoaded w v _ => 0 ≤ w ≤ write_idx s ∧ 0 ≤ v ≤ host_read_idx s
  | PClaimed w a | PWritten w a =>
      host_read_idx s ≤ w < write_idx s ∧ claims s !! Z.to_nat w = Some (t, a)
  end.

(** [e] is the command [ta] as its thread published it. *)
Definition carries (e : queue_element) (ta : Z * cmd_args) : Prop :=
  ∃ old, e = set_valid true (pack ta.2 ta.1 old).

(** The command at the read index is published. *)
Definition published s : Prop :=
  ∃ t a, claims s !! Z.to_nat (host_read_idx s) = Some (t, a) ∧ ¬ owns s t (host_read_idx s) a.

(** What the worker knows at each place: a valid copy is the slot itself. *)
Definition host_ok (c : ro_config) s : Prop :=
  let cached := cfg_gpu_queue c = true →
    q_slots s !! slot s (host_read_idx s) = Some (queue_element_cache_ s) in
  match hpc s with
  | HIdle => True
  | HFetched => valid (queue_element_cache_ s) = true → cached
  | HTested => published s ∧ cached
  | HInserted | HCleared => published s
  end.

(** The number of commands passed on: the one in hand counts once inserted. *)
Definition passed s : Z :=
  host_read_idx s + match hpc s with HInserted | HCleared => 1 | _ => 0 end.

Record queue_ok (c : ro_config) s : Prop := {
  qk_size : 0 < queue_size s < 2 ^ 62;
  qk_idx : 0 ≤ read_idx s ≤ host_read_idx s ∧ host_read_idx s ≤ write_idx s ∧
           write_idx s ≤ read_idx s + queue_size s ∧ write_idx s < 2 ^ 64;
  qk_claims : Z.of_nat (length (claims s)) = write_idx s;
  qk_pcs : map_Forall (pc_ok s) (pcs s);
  qk_slots : ∀ i, host_read_idx s ≤ i < host_read_idx s + queue_size s → slot_ok s i;
  qk_host : host_ok c s;
  qk_fifo : Forall2 carries (inserted s) (take (Z.to_nat (passed s)) (claims s))
}.

Lemma slot_lt s i : 0 < queue_size s → (slot s i < length (q_slots s))%nat.
Proof.
  intros Hn. unfold slot, queue_size in *.
  pose proof (Z.mod_pos_bound i (Z.of_nat (length (q_slots s))) Hn). lia.
Qed.

Lemma slot_inj s i j :
  0 < queue_size s → host_read_idx s ≤ i < host_read_idx s + queue_size s →
  host_read_idx s ≤ j < host_read_idx s + queue_size s → slot s i = slot s j → i = j.
Proof.
  unfold slot. intros Hn Hi Hj H. apply (mod_window (queue_size s) (host_read_idx s)); try done.
  pose proof (Z.mod_pos_bound i (queue_size s) Hn).
  pose proof (Z.mod_pos_bound j (queue_size s) Hn). lia.
Qed.

(** The thread that claimed an index of the window is the one the history names. *)
Lemma claims_lookup_app s ta i :
  0 ≤ i < write_idx s → Z.of_nat (length (claims s)) = write_idx s →
  (claims s ++ [ta]) !! Z.to_nat i = claims s !! Z.to_nat i.
Proof. intros Hi Hl. apply lookup_app_l. lia. Qed.

(** Changing only a thread's own state, to and from states that own no slot. *)
Lemma slot_ok_pcs s s' t i :
  q_slots s' = q_slots s → write_idx s' = write_idx s → claims s' = claims s →
  hpc s' = hpc s → host_read_idx s' = host_read_idx s →
  (∀ u, u ≠ t → pcs s' !! u = pcs s !! u) →
  (∀ w a, ¬ owns s t w a) → (∀ w a, ¬ owns s' t w a) →
  slot_ok s i → slot_ok s' i.
Proof.
  intros Hs Hw Hc Hh Hr Hoth Hold Hnew (e & He & Hi). exists e.
  unfold slot_ok, owns, cleared, slot, queue_size in *. rewrite Hs, Hw, Hc, Hh, Hr. split; [done|].
  destruct (i <? write_idx s); [|done]. destruct Hi as (u & a & Hcl & Hcase).
  exists u, a. split; [done|]. destruct (decide (u = t)) as [->|Hne].
  - specialize (Hold i a). specialize (Hnew i a).
    destruct Hcase as [[? _]|[[? _]|(_ & ?)]]; [tauto..|]. right; right. done.
  - by rewrite Hoth.
Qed.

(** What the worker has read stays published. *)
Lemma published_mono s s' :
  host_read_idx s' = host_read_idx s →
  (∀ ta, claims s !! Z.to_nat (host_read_idx s) = Some ta →
         claims s' !! Z.to_nat (host_read_idx s) = Some ta ∧
         (owns s' ta.1 (host_read_idx s) ta.2 → owns s ta.1 (host_read_idx s) ta.2)) →
  published s → published s'.
Proof.
  intros Hr H (t & a & Hc & Ho). destruct (H _ Hc) as [Hc' Ho'].
  exists t, a. rewrite Hr. split; [done|]. intros Hn. by apply Ho, Ho'.
Qed.

Lemma host_ok_mono c s s' :
  hpc s' = hpc s → host_read_idx s' = host_read_idx s →
  queue_element_cache_ s' = queue_element_cache_ s →
  (∀ e, valid e = true → q_slots s !! slot s (host_read_idx s) = Some e →
        q_slots s' !! slot s' (host_read_idx s') = Some e) →
  (hpc s = HTested → cfg_gpu_queue c = true → valid (queue_element_cache_ s) = true) →
  (published s → published s') →
  host_ok c s → host_ok c s'.
Proof.
  intros Hh Hr Hc Hs Hv Hp. unfold host_ok. rewrite Hh, Hc. destruct (hpc s); try tauto.
  - intros H Hv' Hg. by apply Hs, H.
  - intros [H1 H2]. split; [tauto|]. intros Hg. apply Hs; [by apply Hv|by apply H2].
Qed.
End queue_invariant.

(** *** The steps that own no slot *)

Section thread_steps.
Context (c : ro_config).
Implicit Types s : qstate.

(** An unpublished slot is not valid; a published one is. *)
Lemma published_slot s :
  queue_ok c s → published s →
  host_read_idx s < write_idx s ∧ ∃ t a old,
    claims s !! Z.to_nat (host_read_idx s) = Some (t, a) ∧
    ¬ owns s t (host_read_idx s) a ∧
    q_slots s !! slot s (host_read_idx s) =
      Some (set_valid (negb (cleared s (host_read_idx s))) (pack a t old)).
Proof.
  intros Hok (t & a & Hc & Ho). pose proof (qk_idx _ _ Hok). pose proof (qk_size _ _ Hok).
  pose proof (qk_claims _ _ Hok).
  assert (host_read_idx s < write_idx s) by (apply lookup_lt_Some in Hc; lia). split; [done|].
  destruct (qk_slots _ _ Hok (host_read_idx s) ltac:(lia)) as (e & He & Hst).
  rewrite (proj2 (Z.ltb_lt _ _)) in Hst by lia. destruct Hst as (t' & a' & Hc' & Hcase).
  rewrite Hc in Hc'. simplify_eq. unfold owns in *.
  destruct Hcase as [[? _]|[[? _]|(_ & old & ->)]]; [tauto..|]. by exists t', a', old.
Qed.

Lemma not_cleared s i : hpc s ≠ HCleared → cleared s i = false.
Proof. intros H. unfold cleared. by rewrite bool_decide_eq_false_2. Qed.

(** A valid slot at the read index carries the command claimed there. *)
Lemma valid_at_read s e :
  queue_ok c s → hpc s ≠ HCleared →
  q_slots s !! slot s (host_read_idx s) = Some e → valid e = true →
  published s ∧ ∃ ta, claims s !! Z.to_nat (host_read_idx s) = Some ta ∧ carries e ta.
Proof.
  intros Hok Hh He Hv. pose proof (qk_idx _ _ Hok). pose proof (qk_size _ _ Hok).
  destruct (qk_slots _ _ Hok (host_read_idx s) ltac:(lia)) as (e' & He' & Hst).
  rewrite He in He'. simplify_eq.
  destruct (host_read_idx s <? write_idx s) eqn:E; [|congruence].
  destruct Hst as (t & a & Hc & Hcase). unfold published, owns in *.
  destruct Hcase as [[_ ?]|[(_ & ? & _)|(H1 & old & ->)]]; [congruence..|].
  rewrite not_cleared by done. split; [by exists t, a|]. exists (t, a). split; [done|]. by exists old.
Qed.

(** A worker that has tested the flag has a valid element in hand. *)
Lemma tested_valid s :
  queue_ok c s → hpc s = HTested → cfg_gpu_queue c = true → valid (queue_element_cache_ s) = true.
Proof.
  intros Hok Hh Hg. pose proof (qk_host _ _ Hok) as Hc. unfold host_ok in Hc. rewrite Hh in Hc.
  destruct Hc as [Hp Hc]. destruct (published_slot s Hok Hp) as (_ & t & a & old & _ & _ & He).
  rewrite (Hc Hg) in He. simplify_eq. rewrite He, valid_set, not_cleared; [done|]. congruence.
Qed.

(** A thread that owns no slot moves, and owns none after it. *)
Lemma queue_ok_move s t p r :
  queue_ok c s → (∀ w a, ¬ owns s t w a) →
  (∀ w a, p ≠ PClaimed w a ∧ p ≠ PWritten w a) →
  pc_ok s t p → read_idx s ≤ r ≤ host_read_idx s →
  queue_ok c (dev_move s t p r (write_idx s)).
Proof.
  intros Hok Hold Hp Hpc Hr. pose proof Hok as [Hn Hidx Hcl Hpcs Hslots Hhost Hfifo].
  assert (∀ w a, ¬ owns (dev_move s t p r (write_idx s)) t w a) as Hnew.
  { intros w a. unfold owns. simpl. rewrite lookup_insert_eq. destruct (Hp w a).
    intros [[= ?]|[= ?]]; congruence. }
  split; unfold queue_size in *; simpl; try done; [lia| | |].
  - apply map_Forall_insert_2; [by destruct p|]. intros u q Hq. specialize (Hpcs u q Hq).
    by destruct q.
  - intros i Hi. apply (slot_ok_pcs s _ t); try done; [|by apply Hslots].
    intros u Hu. simpl. by rewrite lookup_insert_ne.
  - eapply (host_ok_mono c s); [done..|by apply tested_valid| |done].
    apply published_mono; [done|]. intros [u a] Hu. split; [done|]. simpl.
    destruct (decide (u = t)) as [->|Hne]; [intros Ho; by destruct (Hnew _ _ Ho)|].
    unfold owns. simpl. by rewrite lookup_insert_ne.
Qed.

(** A successful compare-and-swap takes a free slot. *)
Lemma queue_ok_cas s t w a :
  queue_ok c s → pcs s !! t = Some (PCheck w a) →
  isFull (read_idx s) w (queue_size s) = false → write_idx s = w → w + 1 < 2 ^ 64 →
  queue_ok c (dev_claim s t w a).
Proof.
  intros Hok Ht Hfull Hw Hlt. pose proof Hok as [Hn Hidx Hcl Hpcs Hslots Hhost Hfifo].
  assert (w - read_idx s ≠ queue_size s) as Hne.
  { intros E. apply isFull_iff in E; [congruence|lia|lia]. }
  assert ((claims s ++ [(t, a)]) !! Z.to_nat w = Some (t, a)) as Hnew.
  { rewrite lookup_app_r by lia. replace (Z.to_nat w - length (claims s))%nat with 0%nat by lia.
    done. }
  unfold dev_claim. rewrite uwrap_small by lia.
  split; unfold queue_size in *; simpl; try done; [lia| | | | |].
  - rewrite length_app. simpl. lia.
  - apply map_Forall_insert_2; [split; [simpl; lia|done]|].
    intros u p Hp. specialize (Hpcs u p Hp). destruct p; simpl in *; [lia|lia|..].
    + split; [lia|]. rewrite claims_lookup_app by lia. apply Hpcs.
    + split; [lia|]. rewrite claims_lookup_app by lia. apply Hpcs.
  - intros i Hi. destruct (Hslots i Hi) as (e & He & Hst). exists e.
    split; [done|]. simpl. destruct (decide (i = w)) as [->|Hiw].
    + rewrite (proj2 (Z.ltb_lt _ _)) by lia. rewrite (proj2 (Z.ltb_ge _ _)) in Hst by lia.
      exists t, a. split; [done|]. left. by rewrite lookup_insert_eq.
    + replace (i <? w + 1) with (i <? write_idx s) by lia.
      destruct (i <? write_idx s) eqn:Ei; [|done]. destruct Hst as (u & b & Hc & Hcase).
      exists u, b. rewrite claims_lookup_app by lia. split; [done|]. unfold owns in *. simpl.
      destruct (decide (u = t)) as [->|Hu].
      * rewrite Ht in Hcase. rewrite lookup_insert_eq.
        destruct Hcase as [[? _]|[[? _]|(_ & ?)]]; [done|done|]. right; right.
        split; [naive_solver congruence|done].
      * by rewrite lookup_insert_ne by done.
  - eapply (host_ok_mono c s); [done..|by apply tested_valid| |done].
    apply published_mono; [done|]. intros [u b] Hu. simpl. pose proof (lookup_lt_Some _ _ _ Hu).
    rewrite claims_lookup_app by lia. split; [done|]. unfold owns. simpl.
    destruct (decide (u = t)) as [->|Hne']; [|by rewrite lookup_insert_ne].
    rewrite lookup_insert_eq. intros [[= ? ?]|[= ?]]. lia.
  - rewrite take_app_le; [done|]. unfold passed in *. simpl.
    apply Forall2_length in Hfifo. pose proof (published_slot s Hok) as Hp.
    unfold host_ok in Hhost. destruct (hpc s); first [lia|specialize (Hp Hhost); lia].
Qed.

(** Writing to the slot a thread owns leaves the other slots alone. *)
Lemma slot_ok_write s t w e' ps :
  queue_ok c s → host_read_idx s ≤ w < write_idx s →
  (∀ u, u ≠ t → ps !! u = pcs s !! u) →
  (∀ i a, i ≠ w → ¬ owns s t i a) →
  (∀ i a, i ≠ w → ps !! t ≠ Some (PClaimed i a) ∧ ps !! t ≠ Some (PWritten i a)) →
  slot_ok (dev_store s w e' ps) w →
  ∀ i, host_read_idx s ≤ i < host_read_idx s + queue_size s → slot_ok (dev_store s w e' ps) i.
Proof.
  intros [Hn Hidx Hcl Hpcs Hslots Hhost Hfifo] Hw Hoth Hold Hnew Hok' i Hi.
  destruct (decide (i = w)) as [->|Hne]; [done|].
  destruct (Hslots i Hi) as (e & He & Hst). exists e.
  assert (slot (dev_store s w e' ps) i = slot s i) as Hsl
    by (unfold slot, queue_size; simpl; by rewrite length_insert).
  rewrite Hsl. unfold dev_store, owns in *. simpl. split.
  { rewrite list_lookup_insert_ne; [done|]. intros E.
    apply Hne. symmetry. apply (slot_inj s); [lia|lia|done|done]. }
  destruct (i <? write_idx s); [|done]. destruct Hst as (u & a & Hcl' & Hcase).
  exists u, a. split; [done|]. destruct (decide (u = t)) as [->|Hu]; [|by rewrite Hoth].
  specialize (Hold i a Hne). specialize (Hnew i a Hne) as [? ?].
  destruct Hcase as [[? _]|[[? _]|(_ & ?)]]; [tauto..|]. right; right. split; [tauto|done].
Qed.

End thread_steps.

(** *** The steps on an owned slot, and the host's steps *)

Section owner_steps.
Context (c : ro_config).
Implicit Types s : qstate.

Lemma queue_size_store s w e ps : queue_size (dev_store s w e ps) = queue_size s.
Proof. unfold queue_size. simpl. by rewrite length_insert. Qed.

Lemma slot_store s w e ps i : slot (dev_store s w e ps) i = slot s i.
Proof. unfold slot. by rewrite queue_size_store. Qed.

(** A thread that owns slot [w] finds it as the invariant says. *)
Lemma owner_slot s t w a :
  queue_ok c s → owns s t w a →
  host_read_idx s ≤ w < write_idx s ∧ claims s !! Z.to_nat w = Some (t, a) ∧
  ∃ e, q_slots s !! slot s w = Some e ∧ valid e = false ∧
    (pcs s !! t = Some (PWritten w a) → ∃ old, e = pack a t old).
Proof.
  intros Hok Ho. pose proof Hok as [Hn Hidx Hcl Hpcs Hslots Hhost Hfifo].
  assert (host_read_idx s ≤ w < write_idx s ∧ claims s !! Z.to_nat w = Some (t, a)) as [Hw Hc]
    by (destruct Ho as [Ht|Ht]; apply (Hpcs _ _ Ht)).
  split_and!; [lia|lia|done|]. destruct (Hslots w ltac:(lia)) as (e & He & Hst).
  rewrite (proj2 (Z.ltb_lt _ _)) in Hst by lia. destruct Hst as (t' & a' & Hc' & Hcase).
  rewrite Hc in Hc'. simplify_eq. exists e.
  destruct Hcase as [[? ?]|[(? & ? & ?)|[? _]]]; [|done|done].
  split_and!; [done..|congruence].
Qed.

(** A thread's store to its slot leaves what the worker has read. *)
Lemma host_ok_store s t w a e ps :
  queue_ok c s → owns s t w a →
  (∀ u i b, ps !! u = Some (PClaimed i b) ∨ ps !! u = Some (PWritten i b) → owns s u i b) →
  host_ok c (dev_store s w e ps).
Proof.
  intros Hok Ho Hps. destruct (owner_slot s t w a Hok Ho) as (Hw & Hc & e0 & He0 & Hv0 & _).
  pose proof (qk_size _ _ Hok). pose proof (qk_idx _ _ Hok).
  eapply (host_ok_mono c s); [done..| |by apply (tested_valid c)| |by apply (qk_host _ _ Hok)].
  - intros e1 Hv1 He1. rewrite slot_store. simpl.
    rewrite list_lookup_insert_ne; [done|]. intros E. rewrite <- E in He1. simpl in He1. congruence.
  - apply published_mono; [done|]. intros [u b] Hu. split; [done|]. simpl. apply Hps.
Qed.

Lemma queue_ok_write s t w a old :
  queue_ok c s → pcs s !! t = Some (PClaimed w a) → q_slots s !! slot s w = Some old →
  queue_ok c (dev_store s w (pack a t old) (<[t := PWritten w a]> (pcs s))).
Proof.
  intros Hok Ht Hold. pose proof Hok as [Hn Hidx Hcl Hpcs Hslots Hhost Hfifo].
  destruct (owner_slot s t w a Hok (or_introl Ht)) as (Hw & Hc & e & He & Hv & _).
  rewrite Hold in He. simplify_eq.
  split; rewrite ?queue_size_store; simpl; try done.
  - apply map_Forall_insert_2; [done|]. intros u p Hp. specialize (Hpcs u p Hp). by destruct p.
  - apply (slot_ok_write c s t); [done|done| | | |].
    + intros u Hu. by rewrite lookup_insert_ne.
    + intros i b Hi. unfold owns. rewrite Ht. naive_solver congruence.
    + intros i b Hi. rewrite lookup_insert_eq. split; congruence.
    + exists (pack a t e). rewrite slot_store. simpl. split.
      { apply list_lookup_insert_eq, slot_lt. lia. }
      rewrite (proj2 (Z.ltb_lt _ _)) by lia. exists t, a. split; [done|]. right; left.
      rewrite lookup_insert_eq, valid_pack. eauto.
  - apply (host_ok_store s t w a); [done|by left|]. intros u i b.
    destruct (decide (u = t)) as [->|Hu]; [|by rewrite lookup_insert_ne].
    rewrite lookup_insert_eq. intros [[=]|[= -> ->]]. by left.
Qed.

Lemma queue_ok_publish s t w a e :
  queue_ok c s → pcs s !! t = Some (PWritten w a) → q_slots s !! slot s w = Some e →
  queue_ok c (dev_store s w (set_valid true e) (delete t (pcs s))).
Proof.
  intros Hok Ht He0. pose proof Hok as [Hn Hidx Hcl Hpcs Hslots Hhost Hfifo].
  destruct (owner_slot s t w a Hok (or_intror Ht)) as (Hw & Hc & e' & He & Hv & Hp).
  rewrite He0 in He. simplify_eq. destruct (Hp Ht) as [old ->].
  assert (cleared s w = false) as Hcl'.
  { unfold cleared. destruct (decide (hpc s = HCleared)) as [Hh|]; [|by rewrite bool_decide_eq_false_2].
    unfold host_ok in Hhost. rewrite Hh in Hhost. destruct Hhost as (u & b & Hu & Hno).
    destruct (Z.eqb_spec w (host_read_idx s)) as [->|]; [|by rewrite andb_false_r].
    rewrite Hc in Hu. simplify_eq. exfalso. apply Hno. by right. }
  split; rewrite ?queue_size_store; simpl; try done.
  - apply map_Forall_delete. intros u p Hp'. specialize (Hpcs u p Hp'). by destruct p.
  - apply (slot_ok_write c s t); [done|done| | | |].
    + intros u Hu. by rewrite lookup_delete_ne.
    + intros i b Hi. unfold owns. rewrite Ht. naive_solver congruence.
    + intros i b Hi. by rewrite lookup_delete_eq.
    + eexists. rewrite slot_store. simpl. split.
      { apply list_lookup_insert_eq, slot_lt. lia. }
      rewrite (proj2 (Z.ltb_lt _ _)) by lia. exists t, a. split; [done|]. right; right.
      unfold owns, cleared in *. simpl. rewrite lookup_delete_eq, Hcl'.
      split; [naive_solver|]. by exists old.
  - apply (host_ok_store s t w a); [done|by right|]. intros u i b.
    destruct (decide (u = t)) as [->|Hu]; [|by rewrite lookup_delete_ne].
    rewrite lookup_delete_eq. naive_solver.
Qed.

Lemma at_read_Ok s e : at_read s = Ok e → q_slots s !! slot s (host_read_idx s) = Some e.
Proof. unfold at_read. destruct (q_slots s !! slot s (host_read_idx s)); naive_solver. Qed.

Lemma slot_ok_host s s' i :
  q_slots s' = q_slots s → write_idx s' = write_idx s → claims s' = claims s → pcs s' = pcs s →
  cleared s' i = cleared s i → slot_ok s i → slot_ok s' i.
Proof.
  intros Hs Hw Hc Hp Hcl (e & He & H). exists e.
  unfold slot_ok, owns, slot, queue_size in *. by rewrite Hs, Hw, Hc, Hp, Hcl.
Qed.

(** The worker moves between two places at which the slot is not cleared. *)
Lemma queue_ok_host s h cache ins :
  let s' := mkQ (q_slots s) (host_read_idx s) (read_idx s) (write_idx s) (pcs s) ins (claims s) h cache in
  queue_ok c s → hpc s ≠ HCleared → h ≠ HCleared → host_ok c s' →
  Forall2 carries ins (take (Z.to_nat (passed s')) (claims s)) → queue_ok c s'.
Proof.
  intros s' [Hn Hidx Hcl Hpcs Hslots Hhost Hfifo] Hne Hne' Hh Hf.
  subst s'. split; try done.
  - intros i Hi. apply (slot_ok_host s); [done..| |by apply Hslots]. by rewrite !not_cleared.
Qed.

(** The element in the worker's hands, once it has tested the flag. *)
Lemma next_element_tested s e :
  queue_ok c s → hpc s = HTested → next_element c s = Ok e →
  q_slots s !! slot s (host_read_idx s) = Some e ∧ valid e = true.
Proof.
  intros Hok Hh Hne. pose proof (qk_host _ _ Hok) as H. unfold host_ok in H. rewrite Hh in H.
  destruct H as [Hp Hc]. destruct (published_slot c s Hok Hp) as (_ & t & a & old & _ & _ & He).
  assert (q_slots s !! slot s (host_read_idx s) = Some e) as Hs.
  { unfold next_element, at_read in Hne. destruct (cfg_gpu_queue c).
    - simplify_eq. by apply Hc.
    - by destruct (q_slots s !! slot s (host_read_idx s)); simplify_eq/=. }
  split; [done|]. rewrite He in Hs. simplify_eq. rewrite valid_set, not_cleared; [done|]. congruence.
Qed.

Lemma queue_ok_clear s s' :
  queue_ok c s → hpc s = HInserted → host_clear s = Ok s' → queue_ok c s'.
Proof.
  intros Hok Hh Hs. pose proof Hok as [Hn Hidx Hcl Hpcs Hslots Hhost Hfifo].
  unfold host_ok in Hhost. rewrite Hh in Hhost.
  destruct (published_slot c s Hok Hhost) as (Hlt & t & a & old & Hc & Ho & He).
  unfold host_clear, at_read in Hs. rewrite He in Hs. simpl in Hs. simplify_eq.
  set (s' := mkQ _ _ _ _ _ _ _ _ _).
  assert (∀ i, slot s' i = slot s i) as Hsl
    by (intros i; unfold s', slot, queue_size; simpl; by rewrite length_insert).
  split; try done.
  - unfold s', queue_size in *. simpl. by rewrite length_insert.
  - unfold s', queue_size in *. simpl. rewrite length_insert. done.
  - assert (queue_size s' = queue_size s) as Hq by (unfold s', queue_size; simpl; by rewrite length_insert).
    intros i Hi. rewrite Hq in Hi. change (host_read_idx s') with (host_read_idx s) in Hi.
    destruct (decide (i = host_read_idx s)) as [->|Hne].
    + eexists. rewrite Hsl. split; [apply list_lookup_insert_eq, slot_lt; lia|].
      unfold s' at 1. simpl. rewrite (proj2 (Z.ltb_lt _ _)) by lia. exists t, a.
      split; [done|]. right; right. split; [done|]. exists old.
      unfold cleared, s'. simpl. rewrite Z.eqb_refl. simpl.
      by destruct (pack a t old).
    + destruct (Hslots i Hi) as (e & He' & Hst). exists e. rewrite Hsl. split.
      { unfold s'. simpl. rewrite list_lookup_insert_ne; [done|]. intros E.
        apply Hne. symmetry. by apply (slot_inj s); [lia|lia|lia|]. }
      unfold cleared, owns, s' in *. simpl in *.
      rewrite (proj2 (Z.eqb_neq i _)), andb_false_r in * by done. done.
  - unfold passed in *. rewrite Hh in Hfifo. done.
Qed.

Lemma queue_ok_advance s :
  queue_ok c s → hpc s = HCleared → queue_ok c (host_advance s).
Proof.
  intros Hok Hh. pose proof Hok as [Hn Hidx Hcl Hpcs Hslots Hhost Hfifo].
  unfold host_ok in Hhost. rewrite Hh in Hhost.
  destruct (published_slot c s Hok Hhost) as (Hlt & t & a & old & Hc & Ho & He).
  unfold host_advance. rewrite uwrap_small by lia. unfold queue_size in *.
  split; unfold queue_size, slot in *; simpl; try done; [lia| | |].
  - intros u p Hp. specialize (Hpcs u p Hp). unfold owns in Ho.
    destruct p as [w b|w v b|w b|w b]; simpl in *; try lia;
      destruct Hpcs as [Hr Hcl']; (split; [|done]);
      (assert (w ≠ host_read_idx s); [|lia]); intros ->; rewrite Hc in Hcl'; simplify_eq; tauto.
  - intros i Hi. destruct (decide (i = host_read_idx s + Z.of_nat (length (q_slots s)))) as [->|Hne].
    + unfold cleared in He. rewrite Hh, Z.eqb_refl in He. eexists. unfold slot, queue_size. simpl.
      replace ((host_read_idx s + Z.of_nat (length (q_slots s))) `mod` Z.of_nat (length (q_slots s)))
        with (host_read_idx s `mod` Z.of_nat (length (q_slots s)))
        by (rewrite <- (Z_mod_plus_full _ 1 (Z.of_nat (length (q_slots s)))); f_equal; lia).
      split; [exact He|].
      rewrite (proj2 (Z.ltb_ge _ _)) by lia. apply valid_set.
    + destruct (Hslots i ltac:(lia)) as (e & He' & Hst). exists e. split; [done|].
      unfold cleared, owns in *. simpl in *.
      rewrite (proj2 (Z.eqb_neq i (host_read_idx s))), andb_false_r in Hst by lia. done.
  - unfold passed in *. rewrite Hh in Hfifo. simpl. by rewrite Z.add_0_r.
Qed.

Lemma host_step_ok s s' : queue_ok c s → host_step c s = Ok s' → queue_ok c s'.
Proof.
  intros Hok Hs. pose proof Hok as [Hn Hidx Hcl Hpcs Hslots Hhost Hfifo]. unfold host_step in Hs.
  destruct (hpc s) eqn:Hh.
  - apply bind_Ok_inv in Hs as (cache & Hc & [= <-]).
    apply queue_ok_host; try done; [congruence| |].
    + unfold host_ok. simpl. intros _ Hg. rewrite Hg in Hc. by apply at_read_Ok in Hc.
    + unfold passed in *. by rewrite Hh in Hfifo.
  - apply bind_Ok_inv in Hs as ([v s1] & Ht & [= <-]).
    apply bind_Ok_inv in Ht as (e & He & [= <- <-]). unfold host_ok in Hhost. rewrite Hh in Hhost.
    apply queue_ok_host; try done; [congruence|by destruct (valid e)| |].
    + unfold host_ok. simpl. destruct (valid e) eqn:Hv; [|done]. unfold next_element in He.
      assert (q_slots s !! slot s (host_read_idx s) = Some e ∧
              (cfg_gpu_queue c = true → queue_element_cache_ s = e)) as [Hs Hc].
      { destruct (cfg_gpu_queue c).
        - simplify_eq. split; [by apply Hhost|done].
        - split; [by apply at_read_Ok|done]. }
      split; [|intros Hg; by rewrite (Hc Hg)].
      apply (valid_at_read c s e) in Hs as [Hp _]; [done|done|congruence|done].
    + unfold passed in *. rewrite Hh in Hfifo. simpl. by destruct (valid e).
  - apply bind_Ok_inv in Hs as (e & He & [= <-]).
    destruct (next_element_tested s e Hok Hh He) as [Hsl Hv].
    destruct (valid_at_read c s e Hok ltac:(congruence) Hsl Hv) as (Hp & ta & Hta & Hcar).
    apply queue_ok_host; try done; [congruence|].
    unfold passed in *. rewrite Hh, Z.add_0_r in Hfifo. simpl.
    replace (Z.to_nat (host_read_idx s + 1)) with (S (Z.to_nat (host_read_idx s))) by lia.
    rewrite (take_S_r _ _ ta) by done. apply Forall2_app; [done|]. by constructor.
  - by apply (queue_ok_clear s).
  - simplify_eq. by apply queue_ok_advance.
Qed.

(** Visits to other queues, by the worker that owns the cache. *)
Lemma queue_ok_other s e :
  queue_ok c s → cfg_gpu_queue c = true → hpc s = HIdle → queue_ok c (other_copy s e).
Proof.
  intros Hok Hg Hh. pose proof (qk_fifo _ _ Hok) as Hf. unfold other_copy.
  apply queue_ok_host; rewrite ?Hh; try done.
  unfold passed in *. by rewrite Hh in Hf.
Qed.

Lemma qstep_claims s s' : qstep c s s' → ∃ l, claims s' = claims s ++ l.
Proof.
  destruct 1 as [| | | | | | |s' Hs|]; simpl; try (exists []; by rewrite app_nil_r); [by eexists|].
  exists []. rewrite app_nil_r. unfold host_step in Hs.
  destruct (hpc s); unfold host_fetch, host_test, host_insert, host_clear in Hs;
    repeat (apply bind_Ok_inv in Hs as (? & ? & Hs)); repeat (case_match; simplify_eq/=);
    repeat match goal with H : (_ ← _; _) = Ok _ |- _ => apply bind_Ok_inv in H as (? & ? & H) end;
    by simplify_eq/=.
Qed.

Lemma queue_step_ok s s' :
  own_cache c → queue_ok c s → fifo_step c s s' → Z.of_nat (length (claims s')) < 2 ^ 64 →
  queue_ok c s'.
Proof.
  intros Hoc Hok [Hstep Hmono] Hlen. pose proof (qk_idx _ _ Hok) as Hidx.
  pose proof (qk_pcs _ _ Hok) as Hpcs. pose proof (qk_claims _ _ Hok) as Hcl.
  destruct Hstep as [t a Ht|t w a Ht Hfull|t w v a Ht|t w a Ht Hf Hne|t w a Ht Hf Heq
    |t w a old Ht Hsl|t w a e Ht Hsl|s' Hp|e Hg Ho]; simpl in *.
  - apply queue_ok_move; [done|..]; unfold owns; rewrite ?Ht; simpl; naive_solver lia.
  - pose proof (Hpcs _ _ Ht) as Hw. simpl in Hw.
    apply queue_ok_move; [done|..]; unfold owns; rewrite ?Ht; simpl; naive_solver lia.
  - pose proof (Hpcs _ _ Ht) as Hw. simpl in Hw.
    apply queue_ok_move; [done|..]; unfold owns; rewrite ?Ht; simpl; naive_solver lia.
  - apply queue_ok_move; [done|..]; unfold owns; rewrite ?Ht; simpl; naive_solver lia.
  - apply queue_ok_cas; try done. rewrite length_app in Hlen. simpl in Hlen. lia.
  - by apply queue_ok_write.
  - by apply (queue_ok_publish s t w a).
  - by apply (host_step_ok s).
  - apply queue_ok_other; [done|done|]. destruct Hoc; [congruence|]. destruct Ho; [done|lia].
Qed.

Lemma q_init_ok n : (0 < n)%nat → Z.of_nat n < 2 ^ 62 → queue_ok c (q_init n).
Proof.
  intros Hn Hb. unfold q_init.
  split; unfold queue_size; simpl; rewrite ?length_replicate; try lia; try done.
  intros i Hi. exists empty_element. unfold slot, queue_size. simpl.
  rewrite length_replicate. split.
  - apply lookup_replicate_2. pose proof (Z.mod_pos_bound i (Z.of_nat n)). lia.
  - by rewrite (proj2 (Z.ltb_ge _ _)) by lia.
Qed.

Lemma fifo_claims s s' : rtc (fifo_step c) s s' → ∃ l, claims s' = claims s ++ l.
Proof.
  induction 1 as [s|s1 s2 s3 [Hs _] _ [l IH]]; [exists []; by rewrite app_nil_r|].
  apply qstep_claims in Hs as [l' E]. exists (l' ++ l). by rewrite IH, E, app_assoc.
Qed.

Lemma queue_run_ok s s' :
  own_cache c → queue_ok c s → rtc (fifo_step c) s s' → Z.of_nat (length (claims s')) < 2 ^ 64 →
  queue_ok c s'.
Proof.
  intros Hoc Hok Hr Hl. induction Hr as [|s1 s2 s3 Hstep Hr IH]; [done|]. apply IH; [|done].
  eapply queue_step_ok; [done..|]. apply fifo_claims in Hr as [l E].
  rewrite E, length_app in Hl. lia.
Qed.

Lemma queue_reachable_ok n s :
  (0 < n)%nat → Z.of_nat n < 2 ^ 62 → own_cache c → rtc (fifo_step c) (q_init n) s →
  Z.of_nat (length (claims s)) < 2 ^ 64 → queue_ok c s.
Proof. intros Hn Hb Hoc Hr Hl. eapply queue_run_ok; [done|by apply q_init_ok|done..]. Qed.
End owner_steps.

(** ** Polling *)

Section polling.
Context (c : ro_config).
Implicit Types s : qstate.

(** What one uninterrupted call of [ro_net_process_queue] computes. *)
Lemma process_eq s e :
  q_slots s !! slot s (host_read_idx s) = Some e →
  let cache := if cfg_gpu_queue c then e else queue_element_cache_ s in
  ro_net_process_queue c s = Ok (valid e,
    if valid e then
      mkQ (<[slot s (host_read_idx s) := set_valid false e]> (q_slots s)) (u64 (host_read_idx s + 1))
        (read_idx s) (write_idx s) (pcs s) (inserted s ++ [e]) (claims s) HIdle cache
    else
      mkQ (q_slots s) (host_read_idx s) (read_idx s) (write_idx s) (pcs s) (inserted s) (claims s)
        HIdle cache).
Proof.
  intros He. destruct s as [ss hr r w ps ins cl h ca]. unfold slot, queue_size in He. simpl in He.
  unfold ro_net_process_queue, host_fetch, host_test, host_insert, host_clear, next_element,
    at_read, slot, queue_size. simpl.
  destruct (cfg_gpu_queue c); repeat (simpl; rewrite ?He); destruct (valid e); simpl; try done;
    by repeat (rewrite ?He; simpl).
Qed.

(** It is a run of the worker's steps. *)
Lemma process_steps s b s' :
  hpc s = HIdle → ro_net_process_queue c s = Ok (b, s') → rtc (λ u u', host_step c u = Ok u') s s'.
Proof.
  intros Hh Hp. unfold ro_net_process_queue in Hp.
  apply bind_Ok_inv in Hp as (s1 & H1 & Hp). apply bind_Ok_inv in Hp as ([v s2] & H2 & Hp).
  assert (hpc s1 = HFetched) as Hh1 by (by apply bind_Ok_inv in H1 as (? & _ & [= <-])).
  assert (v = true → hpc s2 = HTested) as Hh2
    by (apply bind_Ok_inv in H2 as (e & _ & [= <- <-]); simpl; by intros ->).
  eapply rtc_l; [unfold host_step; by rewrite Hh|].
  eapply rtc_l; [unfold host_step; by rewrite Hh1, H2|]. destruct v; [|by simplify_eq].
  apply bind_Ok_inv in Hp as (s3 & H3 & Hp). apply bind_Ok_inv in Hp as (s4 & H4 & [= <- <-]).
  assert (hpc s3 = HInserted) as Hh3 by (by apply bind_Ok_inv in H3 as (? & _ & [= <-])).
  assert (hpc s4 = HCleared) as Hh4 by (by apply bind_Ok_inv in H4 as (? & _ & [= <-])).
  eapply rtc_l; [unfold host_step; by rewrite (Hh2 eq_refl)|].
  eapply rtc_l; [unfold host_step; by rewrite Hh3|].
  apply rtc_once. unfold host_step. by rewrite Hh4.
Qed.

Lemma process_total s :
  queue_ok c s → hpc s = HIdle →
  returns (ro_net_process_queue c s) (λ '(b, s'), queue_ok c s' ∧ hpc s' = HIdle ∧
    claims s' = claims s ∧ host_read_idx s' = host_read_idx s + (if b : bool then 1 else 0) ∧
    ∃ e, q_slots s !! slot s (host_read_idx s) = Some e ∧ valid e = b ∧
      inserted s' = inserted s ++ (if b then [e] else []) ∧ (b = false → q_slots s' = q_slots s)).
Proof.
  intros Hok Hh. pose proof (qk_size _ _ Hok) as Hn. pose proof (qk_idx _ _ Hok) as Hidx.
  destruct (lookup_lt_is_Some_2 (q_slots s) (slot s (host_read_idx s))) as [e He];
    [apply slot_lt; lia|].
  pose proof (process_eq s e He) as Hp. simpl in Hp. rewrite Hp. simpl. split.
  { apply process_steps in Hp; [|done]. clear -Hok Hp.
    induction Hp as [|s1 s2 s3 H1 _ IH]; [done|]. apply IH. by eapply host_step_ok. }
  destruct (valid e) eqn:Hv; simpl; [|split_and!; [done|done|lia|exists e; rewrite app_nil_r; by split_and!]].
  destruct (valid_at_read c s e Hok ltac:(congruence) He Hv) as [Hpub _].
  destruct (published_slot c s Hok Hpub) as [Hlt _]. rewrite uwrap_small by lia.
  split_and!; [done|done|lia|]. exists e. by split_and!.
Qed.

Lemma drain_spec left : ∀ s, queue_ok c s → hpc s = HIdle →
  returns (drain c left s) (λ '(n, s'), queue_ok c s' ∧ hpc s' = HIdle ∧ 0 ≤ n ≤ Z.of_nat left ∧
    host_read_idx s' = host_read_idx s + n ∧ claims s' = claims s ∧
    (n < Z.of_nat left → ∃ e, q_slots s' !! slot s' (host_read_idx s') = Some e ∧
                              valid e = false)).
Proof.
  induction left as [|left IH]; intros s Hok Hh; cbn [drain].
  { split_and!; [done|done|lia..|done|lia]. }
  eapply returns_bind; [by apply process_total|].
  intros [[] s1] (Hok1 & Hh1 & Hc1 & Hr1 & e & He & Hv & _ & Hs); simpl.
  - eapply returns_bind; [by apply IH|]. intros [n s2] (Hok2 & Hh2 & Hn & Hr2 & Hc2 & Hlast). simpl.
    split_and!; [done|done|lia|lia|lia|congruence|]. intros Hlt. apply Hlast. lia.
  - split_and!; [done|done|lia|lia|lia|done|]. intros _. exists e. rewrite Hr1, Z.add_0_r.
    unfold slot, queue_size in *. by rewrite (Hs eq_refl).
Qed.
End polling.

Lemma poll_indices_elem fuel : ∀ i T num_wg k,
  0 < T → 0 ≤ i → num_wg ≤ i + Z.of_nat fuel * T →
  k ∈ poll_indices fuel i T num_wg ↔ i ≤ k < num_wg ∧ (k - i) `mod` T = 0.
Proof.
  induction fuel as [|fuel IH]; intros i T num_wg k HT Hi Hf; cbn [poll_indices].
  { split; [set_solver|lia]. }
  destruct (i <? num_wg) eqn:E; [|split; [set_solver|lia]].
  rewrite elem_of_cons, IH by lia.
  assert ((k - (i + T)) `mod` T = (k - i) `mod` T) as ->.
  { rewrite <- (Z_mod_plus_full (k - (i + T)) 1 T). f_equal. lia. }
  split.
  - intros [->|[Hk Hm]]; (split; [lia|]); [|done].
    rewrite Z.sub_diag. by apply Z.mod_0_l; lia.
  - intros [Hk Hm]. destruct (decide (k = i)) as [->|Hne]; [by left|right]. split; [|done].
    apply Z.mod_divide in Hm as [q Hq]; [|lia].
    assert (1 ≤ q) by (destruct (Z.le_gt_cases q 0); nia). nia.
Qed.

(** Queue [k] belongs to worker [k mod T]. *)
Lemma poll_indices_mod T num_wg tid k :
  0 < T → 0 ≤ tid < T → 0 ≤ k < num_wg →
  k ∈ poll_indices (Z.to_nat num_wg) tid T num_wg ↔ tid = k `mod` T.
Proof.
  intros HT Htid Hk. rewrite poll_indices_elem by nia. split.
  - intros [_ Hm]. apply Z.mod_divide in Hm as [q Hq]; [|lia].
    rewrite <- (Z.mod_small tid T) by lia.
    replace k with (tid + q * T) by lia. by rewrite Z_mod_plus_full.
  - intros ->. pose proof (Z.mod_le k T). split; [lia|].
    replace (k - k `mod` T) with (k / T * T) by (pose proof (Z.div_mod k T); lia).
    apply Z.mod_mul. lia.
Qed.

(** ** Executing a schedule

    A schedule says who takes the next step; running it gives an execution of
    the step relation, in which every step satisfies [ok]. *)
Inductive event :=
  | EStart (t : Z) (a : cmd_args)
  | EDevice (t : Z)
  | EHost
  | EOther (e : queue_element).

Definition exec_device (s : qstate) (t : Z) : option qstate :=
  match pcs s !! t with
  | None => None
  | Some (PCheck w a) =>
      if isFull (read_idx s) w (queue_size s) then
        Some (dev_move s t (PLoaded w (host_read_idx s) a) (read_idx s) (write_idx s))
      else if write_idx s =? w then Some (dev_claim s t w a)
      else Some (dev_move s t (PCheck (write_idx s) a) (read_idx s) (write_idx s))
  | Some (PLoaded w v a) => Some (dev_move s t (PCheck w a) v (write_idx s))
  | Some (PClaimed w a) =>
      old ← q_slots s !! slot s w;
      Some (dev_store s w (pack a t old) (<[t := PWritten w a]> (pcs s)))
  | Some (PWritten w a) =>
      e ← q_slots s !! slot s w;
      Some (dev_store s w (set_valid true e) (delete t (pcs s)))
  end.

Definition exec1 (c : ro_config) (s : qstate) (ev : event) : option qstate :=
  match ev with
  | EStart t a =>
      match pcs s !! t with
      | None => Some (dev_move s t (PCheck (write_idx s) a) (read_idx s) (write_idx s))
      | Some _ => None
      end
  | EDevice t => exec_device s t
  | EHost => match host_step c s with Ok s' => Some s' | Fail _ => None end
  | EOther e =>
      if cfg_gpu_queue c && (bool_decide (hpc s = HIdle) || (1 <? cfg_num_threads c))
      then Some (other_copy s e) else None
  end.

Fixpoint exec (ok : qstate → qstate → bool) (c : ro_config) (s : qstate) (evs : list event) :
    option qstate :=
  match evs with
  | [] => Some s
  | ev :: rest => s' ← exec1 c s ev; if ok s s' then exec ok c s' rest else None
  end.

Definition always (s s' : qstate) : bool := true.

Definition read_idx_grows (s s' : qstate) : bool := read_idx s <=? read_idx s'.

Lemma exec1_sound c s ev s' : exec1 c s ev = Some s' → qstep c s s'.
Proof.
  destruct ev as [t a|t| |e]; simpl.
  - destruct (pcs s !! t) eqn:E; [done|]. intros [= <-]. by apply dev_start.
  - unfold exec_device. destruct (pcs s !! t) as [[w a|w v a|w a|w a]|] eqn:E; [..|done].
    + destruct (isFull (read_idx s) w (queue_size s)) eqn:Ef.
      * intros [= <-]. by apply dev_refill_load.
      * destruct (write_idx s =? w) eqn:Ew; intros [= <-].
        -- apply dev_cas_ok; [done|done|lia].
        -- eapply dev_cas_fail; [done|done|lia].
    + intros [= <-]. by eapply dev_refill_store.
    + destruct (q_slots s !! slot s w) eqn:Es; [|done]. intros [= <-]. by eapply dev_write.
    + destruct (q_slots s !! slot s w) eqn:Es; [|done]. intros [= <-]. by eapply dev_publish.
  - destruct (host_step c s) as [s1|] eqn:E; [|done]. intros [= <-]. by apply host_move.
  - destruct (cfg_gpu_queue c) eqn:Eg; [|done]. simpl.
    destruct (bool_decide (hpc s = HIdle) || (1 <? cfg_num_threads c)) eqn:Eo; [|done].
    intros [= <-]. apply host_other; [done|].
    apply orb_true_iff in Eo as [Eo%bool_decide_eq_true|Eo]; [by left|right; lia].
Qed.

Lemma exec_sound ok c evs : ∀ s s',
  exec ok c s evs = Some s' → rtc (λ u u', qstep c u u' ∧ ok u u' = true) s s'.
Proof.
  induction evs as [|ev rest IH]; simpl; intros s s'; [intros [= <-]; done|].
  destruct (exec1 c s ev) as [s1|] eqn:E; [|done]. simpl. destruct (ok s s1) eqn:Eo; [|done].
  intros H. eapply rtc_l; [|by apply IH]. split; [by apply exec1_sound in E|done].
Qed.

Lemma exec_always c evs s s' : exec always c s evs = Some s' → rtc (qstep c) s s'.
Proof.
  intros H%exec_sound. eapply rtc_subrel; [|exact H]. by intros ?? [? _].
Qed.

Lemma exec_fifo c evs s s' : exec read_idx_grows c s evs = Some s' → rtc (fifo_step c) s s'.
Proof.
  intros H%exec_sound. eapply rtc_subrel; [|exact H].
  intros u u' [? Hle]. split; [done|]. unfold read_idx_grows in Hle. lia.
Qed.

(** ** When the read index cannot go back *)

(** A thread that has loaded a read index has loaded one that is not older
    than the work-group's. *)
Definition loads_fresh (s : qstate) : Prop :=
  ∀ t w v a, pcs s !! t = Some (PLoaded w v a) → read_idx s ≤ v.

Lemma serial_step_fifo c s s' :
  queue_ok c s → loads_fresh s → serial_step c s s' → fifo_step c s s' ∧ loads_fresh s'.
Proof.
  intros Hok Hl [Hstep Hser]. pose proof (qk_idx _ _ Hok) as Hidx.
  assert (∀ t p r w, (∀ w' v a, p ≠ PLoaded w' v a ∨ r ≤ v) → read_idx s = r →
    loads_fresh (dev_move s t p r w)) as Hmove.
  { intros t p r w Hp <- u w' v a. simpl.
    destruct (decide (u = t)) as [->|Hu]; [|rewrite lookup_insert_ne by done; by apply Hl].
    rewrite lookup_insert_eq. intros [= ->]. destruct (Hp w' v a); [done|done]. }
  assert (∀ ps ss hr wi ins cl h ca, (∀ u w v a, ps !! u = Some (PLoaded w v a) →
    pcs s !! u = Some (PLoaded w v a)) → loads_fresh (mkQ ss hr (read_idx s) wi ps ins cl h ca)) as Hkeep.
  { intros ps ss hr wi ins cl h ca Hps u w v a Hu. by eapply Hl, Hps. }
  destruct Hstep as [t a Ht|t w a Ht Hfull|t w v a Ht|t w a Ht Hf Hne|t w a Ht Hf Heq
    |t w a old Ht Hsl|t w a e Ht Hsl|s' Hp|e Hg Ho].
  - split; [split; [by constructor|done]|]. apply Hmove; [by left|done].
  - split; [split; [by apply dev_refill_load|done]|]. apply Hmove; [|done].
    intros w' v b. destruct (decide (v = host_read_idx s)); [right; lia|left; congruence].
  - pose proof (Hl _ _ _ _ Ht) as Hv. split; [split; [by eapply dev_refill_store|done]|].
    intros u w' v' b Hu. simpl in Hu. destruct (decide (u = t)) as [->|Hne].
    { by rewrite lookup_insert_eq in Hu. }
    destruct Hne. symmetry. apply Hser; [simpl; rewrite lookup_insert_eq; by eexists|by eexists].
  - split; [split; [by eapply dev_cas_fail|done]|]. apply Hmove; [by left|done].
  - split; [split; [by apply dev_cas_ok|done]|]. apply Hkeep. intros u w' v b.
    destruct (decide (u = t)) as [->|]; [by rewrite lookup_insert_eq|by rewrite lookup_insert_ne].
  - split; [split; [by apply dev_write|done]|]. apply Hkeep. intros u w' v b.
    destruct (decide (u = t)) as [->|]; [by rewrite lookup_insert_eq|by rewrite lookup_insert_ne].
  - split; [split; [by eapply dev_publish|done]|]. apply Hkeep. intros u w' v b.
    destruct (decide (u = t)) as [->|]; [by rewrite lookup_delete_eq|by rewrite lookup_delete_ne].
  - assert (read_idx s' = read_idx s ∧ pcs s' = pcs s) as [Hr Hps].
    { clear -Hp. unfold host_step in Hp. destruct (hpc s);
        unfold host_fetch, host_test, host_insert, host_clear in Hp;
        repeat match goal with
        | H : (_ ← _; _) = Ok _ |- _ => apply bind_Ok_inv in H as (? & ? & H)
        | H : Ok _ = Ok _ |- _ => injection H as <-
        | x : bool * qstate |- _ => destruct x; simplify_eq/=
        end; done. }
    split; [split; [by apply host_move|lia]|]. intros u w v a. rewrite Hr, Hps. apply Hl.
  - split; [split; [by apply host_other|done]|]. by apply Hkeep.
Qed.

(** When the calls on a handle do not overlap, the copy of the read index
    never goes back. *)
Lemma serial_runs_fifo c n s :
  (0 < n)%nat → Z.of_nat n < 2 ^ 62 → own_cache c → rtc (serial_step c) (q_init n) s →
  Z.of_nat (length (claims s)) < 2 ^ 64 → rtc (fifo_step c) (q_init n) s.
Proof.
  intros Hn Hb Hoc Hr Hlen.
  enough (rtc (fifo_step c) (q_init n) s ∧ loads_fresh s) as [? _] by done.
  revert s Hr Hlen.
  apply (rtc_ind_r (λ s, Z.of_nat (length (claims s)) < 2 ^ 64 →
    rtc (fifo_step c) (q_init n) s ∧ loads_fresh s)).
  { intros _. split; [done|]. intros t w v a. simpl. by rewrite lookup_empty. }
  intros s1 s2 _ Hstep IH Hlen.
  assert (Z.of_nat (length (claims s1)) < 2 ^ 64) as Hl1.
  { destruct (qstep_claims c s1 s2 (proj1 Hstep)) as [l E]. rewrite E, length_app in Hlen. lia. }
  destruct (IH Hl1) as [Hr1 Hf1].
  destruct (serial_step_fifo c s1 s2) as [H1 H2]; [by eapply queue_reachable_ok|done|done|].
  split; [by eapply rtc_r|done].
Qed.

(** ** Properties *)

(** C4: The command queue is first-in first-out.  In every state that is
    reachable by steps of the threads and of the worker, what the host has
    passed to the transport is exactly the sequence of commands in the order
    their slots were claimed, each one complete, none lost and none twice; at
    most one of them is not yet counted by the read index, at most [queue_size]
    commands are unread, and a slot is never overwritten before the host has
    read it.  This holds with the queue in host memory for any number of
    workers and with the queue in GPU memory (the default) for one worker (the
    default), for runs in which no store of a stale load moves the
    work-group's copy of the read index back (see [serial_runs_fifo] and
    [refill_loses_command]), and as long as fewer than [2 ^ 64] slots have
    been claimed (the indices wrap there). *)
Theorem queue_fifo c n s :
  (0 < n)%nat → Z.of_nat n < 2 ^ 62 → own_cache c → rtc (fifo_step c) (q_init n) s →
  Z.of_nat (length (claims s)) < 2 ^ 64 →
  Forall2 carries (inserted s) (take (length (inserted s)) (claims s)) ∧
  host_read_idx s ≤ Z.of_nat (length (inserted s)) ≤ host_read_idx s + 1 ∧
  (hpc s = HIdle → Z.of_nat (length (inserted s)) = host_read_idx s) ∧
  Z.of_nat (length (inserted s)) ≤ Z.of_nat (length (claims s)) ≤ host_read_idx s + queue_size s.
Proof.
  intros Hn Hb Hoc Hr Hl. pose proof (queue_reachable_ok c n s Hn Hb Hoc Hr Hl) as Hok.
  pose proof Hok as [Hsz Hidx Hcl _ _ Hh Hf]. pose proof (Forall2_length _ _ _ Hf) as Hlen.
  assert (passed s ≤ write_idx s) as Hp.
  { unfold passed, host_ok in *. pose proof (published_slot c s Hok) as H.
    destruct (hpc s); first [lia|specialize (H Hh); lia]. }
  unfold passed in *. rewrite length_take_le in Hlen by (destruct (hpc s); lia). rewrite Hlen.
  split_and!; [done|destruct (hpc s); lia..|intros ->; lia|destruct (hpc s); lia|lia].
Qed.

Definition put_args (dst : Z) : cmd_args :=
  mkArgs RO_NET_PUT dst 64 0 8 1 0 0 0 0 0 0 0 false ROC_SHMEM_SUM RO_NET_INT.

(** The configuration the constructor gives without environment variables. *)
Definition default_config : ro_config := mkConfig true 1.

(** A thread issues a command and runs to the end of the call; the worker
    makes one successful call of [ro_net_process_queue]. *)
Definition issue (t : Z) (a : cmd_args) : list event :=
  [EStart t a; EDevice t; EDevice t; EDevice t].

Definition visit : list event := [EHost; EHost; EHost; EHost; EHost].

Lemma queue_fifo_witness : ∃ s,
  host_read_idx s = 1 ∧
  Forall2 carries (inserted s) (take (length (inserted s)) (claims s)) ∧
  host_read_idx s ≤ Z.of_nat (length (inserted s)) ≤ host_read_idx s + 1 ∧
  (hpc s = HIdle → Z.of_nat (length (inserted s)) = host_read_idx s) ∧
  Z.of_nat (length (inserted s)) ≤ Z.of_nat (length (claims s)) ≤ host_read_idx s + queue_size s.
Proof.
  eexists. split; [|apply (queue_fifo default_config 2)]; [|lia|lia|by right| |].
  2:{ apply (exec_fifo _ (issue 5 (put_args 7) ++ [EOther empty_element] ++ visit)).
      vm_compute. reflexivity. }
  - reflexivity.
  - reflexivity.
Defined.

(** A published command is taken by the next visit of the host: if the
    thread that claimed the slot at the read index is done with it,
    [ro_net_process_queue] succeeds and hands exactly that command on. *)
Theorem published_is_processed c n s t a :
  (0 < n)%nat → Z.of_nat n < 2 ^ 62 → own_cache c → rtc (fifo_step c) (q_init n) s →
  Z.of_nat (length (claims s)) < 2 ^ 64 → hpc s = HIdle →
  claims s !! Z.to_nat (host_read_idx s) = Some (t, a) → ¬ owns s t (host_read_idx s) a →
  ∃ s' e, ro_net_process_queue c s = Ok (true, s') ∧
    inserted s' = inserted s ++ [e] ∧ carries e (t, a) ∧ host_read_idx s' = host_read_idx s + 1.
Proof.
  intros Hn Hb Hoc Hr Hl Hh Hc Ho. pose proof (queue_reachable_ok c n s Hn Hb Hoc Hr Hl) as Hok.
  destruct (published_slot c s Hok) as (Hlt & t' & a' & old & Hc' & _ & He); [by exists t, a|].
  rewrite Hc in Hc'. simplify_eq. rewrite not_cleared in He by congruence. simpl in He.
  pose proof (process_eq c s _ He) as Hp. cbv zeta in Hp. rewrite valid_set in Hp.
  pose proof (qk_idx _ _ Hok). do 2 eexists. split; [exact Hp|]. simpl.
  split_and!; [done|by exists old|]. by rewrite uwrap_small by lia.
Qed.

Definition q_one : qstate :=
  mkQ [set_valid true (pack (put_args 7) 5 empty_element); empty_element] 0 0 1 ∅ []
      [(5, put_args 7)] HIdle empty_element.

Lemma published_is_processed_witness : ∃ s' e,
  ro_net_process_queue default_config q_one = Ok (true, s') ∧ inserted s' = [] ++ [e] ∧
  carries e (5, put_args 7) ∧ host_read_idx s' = 0 + 1.
Proof.
  apply (published_is_processed default_config 2 q_one 5 (put_args 7));
    [lia|lia|by right| |reflexivity|reflexivity|reflexivity|].
  - apply (exec_fifo _ (issue 5 (put_args 7))). vm_compute. reflexivity.
  - unfold owns. simpl. naive_solver.
Defined.

(** Thread 2 loads the read index 0 and is delayed; thread 1 refills, claims and
    publishes; the delayed store moves the read index back; thread 1 issues
    once more. *)
Definition lossy_schedule : list event :=
  issue 1 (put_args 7) ++ [EStart 2 (put_args 10); EDevice 2] ++ visit ++
  [EStart 1 (put_args 8); EDevice 1; EDevice 1; EDevice 1; EDevice 1; EDevice 1] ++
  [EDevice 2] ++ issue 1 (put_args 9) ++ visit.

(** A queue can lose a command, whatever the configuration.  A thread that
    loaded an old read index stores it after another thread has advanced; the
    index moves backwards, the equality test of [isFull] no longer recognises
    the full queue, and an unread slot is claimed again: here the third command
    overwrites the second. *)
Theorem refill_loses_command c :
  ∃ s a0 a1 a2, rtc (qstep c) (q_init 1) s ∧
    claims s = [(1, a0); (1, a1); (1, a2)] ∧ host_read_idx s = 2 ∧
    inserted s !! 1%nat = Some (set_valid true (pack a2 1 (pack a1 1 (pack a0 1 empty_element)))) ∧
    ¬ (∃ e, e ∈ inserted s ∧ carries e (1, a1)).
Proof.
  destruct c as [[] T]; (eexists _, (put_args 7), (put_args 8), (put_args 9); split; [|split_and!]).
  1,6: apply (exec_always _ lossy_schedule); vm_compute; reflexivity.
  all: try reflexivity.
  all: intros (e & Hin & old & ->); destruct old;
    repeat (apply elem_of_cons in Hin as [Hin|Hin]; [discriminate Hin|]);
    by apply elem_of_nil in Hin.
Qed.

(** Two workers share the cache: after the worker of this queue has copied its
    element and tested the flag, another one copies the element of its queue
    over it. *)
Definition stolen_schedule (other : queue_element) : list event :=
  issue 1 (put_args 7) ++ [EHost; EHost; EOther other; EHost; EHost; EHost].

Lemma exec_workers ok T evs : 1 < T → ∀ s,
  exec ok (mkConfig true T) s evs = exec ok (mkConfig true 2) s evs.
Proof.
  intros HT. induction evs as [|ev rest IH]; intros s; [done|]. simpl.
  assert (exec1 (mkConfig true T) s ev = exec1 (mkConfig true 2) s ev) as ->.
  { destruct ev; try done. simpl. by rewrite (proj2 (Z.ltb_lt 1 T)). }
  destruct (exec1 (mkConfig true 2) s ev) as [s1|]; [|done]. simpl. by destruct (ok s s1).
Qed.

(** With the queue in GPU memory and more than one worker, the command is
    lost even when the calls on the handle do not overlap: what goes to the
    transport is the other queue's element, and the slot is given back. *)
Theorem shared_cache_loses_command T other :
  1 < T → (∀ old, other ≠ set_valid true (pack (put_args 7) 1 old)) →
  ∃ s, rtc (fifo_step (mkConfig true T)) (q_init 2) s ∧ claims s = [(1, put_args 7)] ∧
    host_read_idx s = 1 ∧ inserted s = [other] ∧ ¬ (∃ e, e ∈ inserted s ∧ carries e (1, put_args 7)).
Proof.
  intros HT Hother. eexists. split_and!.
  { apply (exec_fifo _ (stolen_schedule other)). rewrite exec_workers by done. vm_compute. reflexivity. }
  all: try reflexivity.
  intros (e & He & old & ->). simpl in He. apply list_elem_of_singleton in He. by destruct (Hother old).
Qed.

(** One visit of a worker thread to a queue, if nobody disturbs the cache,
    always ends, takes between zero and 64 commands in order, and takes fewer
    than 64 only when the next slot is not ready; and in one round the workers
    visit every queue exactly once: queue [i] belongs to the worker
    [i mod num_threads]. *)
Theorem poll_round c n s num_threads num_wg tid k :
  (0 < n)%nat → Z.of_nat n < 2 ^ 62 → own_cache c → rtc (fifo_step c) (q_init n) s →
  Z.of_nat (length (claims s)) < 2 ^ 64 → hpc s = HIdle →
  0 < num_threads → 0 ≤ tid < num_threads → 0 ≤ k < num_wg →
  returns (drain_queue c s) (λ '(m, s'), queue_ok c s' ∧ hpc s' = HIdle ∧ 0 ≤ m ≤ 64 ∧
    host_read_idx s' = host_read_idx s + m ∧ claims s' = claims s ∧
    (m < 64 → ∃ e, q_slots s' !! slot s' (host_read_idx s') = Some e ∧ valid e = false)) ∧
  (k ∈ poll_indices (Z.to_nat num_wg) tid num_threads num_wg ↔ tid = k `mod` num_threads).
Proof.
  intros Hn Hb Hoc Hr Hl Hh HT Htid Hk. split; [|by apply poll_indices_mod].
  apply (drain_spec c 64); [by eapply queue_reachable_ok|done].
Qed.

Lemma poll_round_witness :
  returns (drain_queue default_config (q_init 4)) (λ '(m, s'), queue_ok default_config s' ∧
    hpc s' = HIdle ∧ 0 ≤ m ≤ 64 ∧ host_read_idx s' = 0 + m ∧ claims s' = [] ∧
    (m < 64 → ∃ e, q_slots s' !! slot s' (host_read_idx s') = Some e ∧ valid e = false)) ∧
  (5 ∈ poll_indices (Z.to_nat 8) 1 4 8 ↔ 1 = 5 `mod` 4).
Proof.
  apply (poll_round default_config 4 (q_init 4)); try lia; [by right|apply rtc_refl|done|done].
Defined.
