(* ===== verification/Coalesce.v ===== *)
(** * Coalescing messages of a wavefront

    [wf_coal_policy.cpp]: the lanes of a wavefront that send to adjacent
    addresses of the same processing element let one lane send for all of
    them.  The lanes run in lockstep, so the whole wavefront is one value: the
    list of its lanes, [None] for a lane that is not active. *)
From S2P Require Import Prelude.

Local Open Scope Z_scope.

Definition WF_SIZE : Z := 64.

(** The arguments of one lane's call. *)
Record msg := mkMsg {
  m_pe : Z;
  m_source : Z;
  m_dest : Z;
  m_size : Z
}.

(** ** Wavefront operations *)

(** [__ballot]: the bit of a lane is its predicate, 0 for an inactive lane. *)
Fixpoint ballot (l : list bool) : Z :=
  match l with
  | [] => 0
  | b :: l' => (if b then 1 else 0) + 2 * ballot l'
  end.

(** [__ffsll]: one more than the position of the least set bit, 0 for zero. *)
Fixpoint ffs_loop (n : nat) (pos x : Z) : Z :=
  match n with
  | O => 0
  | S n' => if Z.testbit x pos then pos + 1 else ffs_loop n' (pos + 1) x
  end.

Definition ffsll (x : Z) : Z := ffs_loop 64 0 x.

(** ** [WfCoalOn::coalesce] *)

Section coalesce.
(** What a shuffle reads from a lane that is not active. *)
Context (garbage : nat → msg).

(** [__shfl_up(v, 1)]: the value of the lane below; lane 0 gets its own. *)
Definition shfl_up (wave : list (option msg)) (i : nat) (own : msg) : msg :=
  match i with
  | O => own
  | S j => match wave !! j with Some (Some m) => m | _ => garbage j end
  end.

(** Splitting a 64-bit value for the 32-bit shuffles and putting it together. *)
Definition recombine (v : Z) : Z :=
  let low := u32 (Z.land v (Z.ones 32)) in
  let high := u32 (Z.land (Z.shiftr v 32) (Z.ones 32)) in
  Z.lor (u64 (Z.shiftl high 32)) low.

Definition active (o : option msg) : bool := bool_decide (is_Some o).

Definition coalescable (wave : list (option msg)) (wv_id : nat) (m : msg) : bool :=
  let lower := shfl_up wave wv_id m in
  let lower_src := recombine (m_source lower) in
  let lower_dst := recombine (m_dest lower) in
  let lower_pe := m_pe lower in
  let lower_size := u32 (m_size lower) in
  let mask := ballot (active <$> wave) in
  negb (Z.land mask (Z.shiftl 1 (Z.of_nat wv_id - 1)) =? 0) &&
  (lower_size =? m_size m) &&
  (u64 (lower_src + m_size m) =? m_source m) &&
  (u64 (lower_dst + m_size m) =? m_dest m) &&
  (m_pe m =? lower_pe) &&
  negb (Z.of_nat wv_id =? 0).

Definition lane_coalescable (wave : list (option msg)) (i : nat) (o : option msg) : bool :=
  match o with Some m => coalescable wave i m | None => false end.

(** The ballot that tells every lane which lanes joined the one below. *)
Definition lowerNeighborCoal (wave : list (option msg)) : Z :=
  ballot (imap (lane_coalescable wave) wave).

(** A lane's call: whether it must send, and the size after the call.  The
    hardware takes shift counts modulo 64. *)
Definition coalesce (wave : list (option msg)) (wv_id : nat) (m : msg) : bool * Z :=
  if coalescable wave wv_id m then (false, m_size m)
  else
    let coal_size := s32 (m_size m) in
    let lnc := Z.shiftr (lowerNeighborCoal wave) ((Z.of_nat wv_id + 1) `mod` 64) in
    let coalMsgs := u32 (ffsll (u64 (Z.lnot lnc))) in
    let coal_size :=
      if negb (coalMsgs =? 0)
      then s32 (u64 (coal_size + u64 (m_size m * u32 (coalMsgs - 1)))) else coal_size in
    (true, u64 coal_size).

(** The messages that the wavefront sends. *)
Definition sent (wave : list (option msg)) : list msg :=
  omap id (imap (λ i o,
    match o with
    | None => None
    | Some m =>
        let '(must_send_message, size) := coalesce wave i m in
        if must_send_message : bool
        then Some (mkMsg (m_pe m) (m_source m) (m_dest m) size) else None
    end) wave).
End coalesce.

(** ** What a set of messages does: single-byte copies *)

(** Message [m] copies the byte at [s] to the address [d] of [pe]. *)
Definition copies (m : msg) (pe s d : Z) : Prop :=
  m_pe m = pe ∧ ∃ k, 0 ≤ k < m_size m ∧ s = m_source m + k ∧ d = m_dest m + k.

(** Ranges that fit the address space, and at most [bound] bytes. *)
Definition msg_ok (bound : Z) (m : msg) : Prop :=
  0 ≤ m_size m ≤ bound ∧ 0 ≤ m_source m ∧ 0 ≤ m_dest m ∧
  m_source m + m_size m < 2 ^ 64 ∧ m_dest m + m_size m < 2 ^ 64.

(** ** Lemmas *)

Lemma ballot_testbit l (i : nat) : Z.testbit (ballot l) (Z.of_nat i) = default false (l !! i).
Proof.
  revert i. induction l as [|b l IH]; intros i; cbn [ballot]; [by rewrite Z.bits_0|].
  destruct i as [|i].
  - destruct b; [|by rewrite Z.add_0_l, Z.testbit_even_0].
    by rewrite Z.add_comm, Z.testbit_odd_0.
  - change ((b :: l) !! S i) with (l !! i). rewrite <- IH.
    replace (Z.of_nat (S i)) with (Z.succ (Z.of_nat i)) by lia.
    destruct b; [|by rewrite Z.add_0_l, Z.testbit_even_succ by lia].
    by rewrite Z.add_comm, Z.testbit_odd_succ by lia.
Qed.

Lemma land_mask l (i : nat) :
  negb (Z.land (ballot l) (Z.shiftl 1 (Z.of_nat i)) =? 0) = default false (l !! i).
Proof.
  rewrite <- ballot_testbit. rewrite Z.shiftl_mul_pow2, Z.mul_1_l by lia.
  destruct (Z.testbit (ballot l) (Z.of_nat i)) eqn:E.
  - apply negb_true_iff, Z.eqb_neq. intros H.
    apply (f_equal (λ x, Z.testbit x (Z.of_nat i))) in H.
    rewrite Z.land_spec, E, Z.pow2_bits_true, Z.bits_0 in H by lia. done.
  - apply negb_false_iff, Z.eqb_eq, Z.bits_inj'. intros n Hn.
    rewrite Z.land_spec, Z.bits_0. destruct (decide (n = Z.of_nat i)) as [->|Hne].
    + by rewrite E.
    + by rewrite Z.pow2_bits_false, andb_false_r by lia.
Qed.

Lemma recombine_id v : 0 ≤ v < 2 ^ 64 → recombine v = v.
Proof.
  intros Hv. unfold recombine, uwrap. rewrite !Z.land_ones by lia.
  rewrite !Z.mod_mod, Z.shiftr_div_pow2, Z.shiftl_mul_pow2 by lia.
  assert (0 ≤ v / 2 ^ 32 < 2 ^ 32) by (split; [apply Z.div_pos|apply Z.div_lt_upper_bound]; lia).
  rewrite (Z.mod_small (v / _)) by lia. rewrite Z.mod_small by lia.
  rewrite <- Z.shiftl_mul_pow2 by lia. rewrite <- Z.land_ones by lia.
  apply Z.bits_inj'. intros n Hn. rewrite Z.lor_spec, Z.land_spec.
  destruct (decide (n < 32)).
  - rewrite Z.shiftl_spec_low, Z.ones_spec_low by lia. by rewrite andb_true_r.
  - rewrite Z.shiftl_spec, Z.ones_spec_high, andb_false_r, orb_false_r by lia.
    rewrite Z.div_pow2_bits by lia. f_equal. lia.
Qed.

(** The search from [pos] on finds the first set bit below [pos + n]. *)
Lemma ffs_loop_spec n : ∀ pos x m,
  0 ≤ m < Z.of_nat n → Z.testbit x (pos + m) = true →
  (∀ k, 0 ≤ k < m → Z.testbit x (pos + k) = false) → ffs_loop n pos x = pos + m + 1.
Proof.
  induction n as [|n IH]; intros pos x m Hm Hset Hclr; [lia|]. cbn [ffs_loop].
  destruct (decide (m = 0)) as [->|Hne].
  - rewrite Z.add_0_r in Hset. rewrite Hset. lia.
  - specialize (Hclr 0 ltac:(lia)) as H0. rewrite Z.add_0_r in H0. rewrite H0.
    rewrite (IH (pos + 1) x (m - 1)); [lia|lia| |].
    + by replace (pos + 1 + (m - 1)) with (pos + m) by lia.
    + intros k Hk. replace (pos + 1 + k) with (pos + (k + 1)) by lia. apply Hclr. lia.
Qed.

Section wave.
Context (garbage : nat → msg) (wave : list (option msg)).
Context (Hlen : length wave = 64%nat).
Context (Hok : ∀ i m, wave !! i = Some (Some m) → msg_ok (2 ^ 25 - 1) m).

(** Lane [i] continues the message of the lane below. *)
Definition joins (m' m : msg) : Prop :=
  m_size m' = m_size m ∧ m_source m = m_source m' + m_size m ∧
  m_dest m = m_dest m' + m_size m ∧ m_pe m = m_pe m'.

Lemma coalescable_iff i m :
  wave !! i = Some (Some m) →
  coalescable garbage wave i m = true ↔
  ∃ j m', i = S j ∧ wave !! j = Some (Some m') ∧ joins m' m.
Proof.
  intros Hi. unfold coalescable. rewrite !andb_true_iff.
  destruct i as [|j].
  { split; [by intros [_ H]|]. by intros (j & _ & ? & _). }
  replace (Z.of_nat (S j) - 1) with (Z.of_nat j) by lia.
  rewrite land_mask, list_lookup_fmap. cbn [shfl_up].
  destruct (wave !! j) as [[m'|]|] eqn:Hj; cbn [fmap option_fmap option_map default active].
  - pose proof (Hok _ _ Hi) as (? & ? & ? & ? & ?). pose proof (Hok _ _ Hj) as (? & ? & ? & ? & ?).
    rewrite !recombine_id by lia. rewrite (uwrap_small 32) by lia. unfold joins. split.
    + intros (((((_ & Hsz) & Hs) & Hd) & Hpe) & _). exists j, m'.
      rewrite uwrap_small in Hs, Hd by lia. split_and!; try done; lia.
    + intros (j' & m'' & [= <-] & Hm & Hsz & Hs & Hd & Hpe). rewrite Hj in Hm. simplify_eq.
      rewrite !uwrap_small by lia. split_and!; try done; lia.
  - split; [by intros [[[[[H _] _] _] _] _]|].
    intros (j' & m'' & [= <-] & Hm & _). congruence.
  - split; [by intros [[[[[H _] _] _] _] _]|].
    intros (j' & m'' & [= <-] & Hm & _). congruence.
Qed.

Definition coal_bit (k : nat) : bool :=
  default false (imap (lane_coalescable garbage wave) wave !! k).

Lemma coal_bit_lane k m :
  wave !! k = Some (Some m) → coal_bit k = coalescable garbage wave k m.
Proof. intros Hk. unfold coal_bit. by rewrite list_lookup_imap, Hk. Qed.

Lemma coal_bit_true k : coal_bit k = true →
  ∃ j m m', k = S j ∧ wave !! k = Some (Some m) ∧ wave !! j = Some (Some m') ∧ joins m' m.
Proof.
  unfold coal_bit. rewrite list_lookup_imap.
  destruct (wave !! k) as [[m|]|] eqn:Hk; [|done..]. simpl. intros Hc.
  apply coalescable_iff in Hc as (j & m' & -> & Hj & Hjoin); [|done]. by exists j, m, m'.
Qed.

Lemma coal_bit_high k : (64 ≤ k)%nat → coal_bit k = false.
Proof.
  intros Hk. unfold coal_bit. rewrite list_lookup_imap, lookup_ge_None_2 by lia. done.
Qed.

(** How many lanes above [i] join in a row. *)
Lemma run_exists (i : nat) : (i < 64)%nat →
  ∃ n, (n ≤ 63 - i)%nat ∧ coal_bit (i + 1 + n) = false ∧
       ∀ k, (k < n)%nat → coal_bit (i + 1 + k) = true.
Proof.
  intros Hi.
  assert (∀ b, (b ≤ 63 - i)%nat →
    (∀ k, (k < b)%nat → coal_bit (i + 1 + k) = true) ∨
    ∃ n, (n < b)%nat ∧ coal_bit (i + 1 + n) = false ∧
         ∀ k, (k < n)%nat → coal_bit (i + 1 + k) = true) as Hsearch.
  { induction b as [|b IH]; intros Hb; [left; lia|].
    destruct (IH ltac:(lia)) as [Hall|(n & Hn & Hf & Hall)].
    - destruct (coal_bit (i + 1 + b)) eqn:E.
      + left. intros k Hk. destruct (decide (k = b)) as [->|]; [done|]. apply Hall. lia.
      + right. exists b. split_and!; [lia|done|done].
    - right. exists n. split_and!; [lia|done|done]. }
  destruct (Hsearch (63 - i)%nat ltac:(lia)) as [Hall|(n & Hn & Hf & Hall)].
  - exists (63 - i)%nat. split_and!; [lia| |done]. apply coal_bit_high. lia.
  - exists n. split_and!; [lia|done|done].
Qed.

Lemma lnc_testbit (k : nat) : Z.testbit (lowerNeighborCoal garbage wave) (Z.of_nat k) = coal_bit k.
Proof. apply ballot_testbit. Qed.

(** The bit test of the size computation counts that run. *)
Lemma ffs_run (i n : nat) :
  (i < 64)%nat → (n ≤ 63 - i)%nat → coal_bit (i + 1 + n) = false →
  (∀ k, (k < n)%nat → coal_bit (i + 1 + k) = true) →
  ffsll (u64 (Z.lnot (Z.shiftr (lowerNeighborCoal garbage wave)
    ((Z.of_nat i + 1) `mod` 64)))) = Z.of_nat n + 1.
Proof.
  intros Hi Hn Hf Hall. unfold ffsll.
  assert (∀ p : nat, (p < 64)%nat → ∀ sh, 0 ≤ sh →
    Z.testbit (u64 (Z.lnot (Z.shiftr (lowerNeighborCoal garbage wave) sh))) (0 + Z.of_nat p) =
    negb (coal_bit (Z.to_nat sh + p))) as Hbit.
  { intros p Hp sh Hsh. unfold uwrap. rewrite Z.mod_pow2_bits_low by lia.
    rewrite Z.lnot_spec, Z.shiftr_spec by lia.
    replace (0 + Z.of_nat p + sh) with (Z.of_nat (Z.to_nat sh + p)) by lia.
    by rewrite lnc_testbit. }
  destruct (decide (i = 63)%nat) as [->|Hne].
  - assert (n = 0%nat) as -> by lia. change ((Z.of_nat 63 + 1) `mod` 64) with 0.
    apply (ffs_loop_spec 64 0 _ 0); [lia| |lia].
    rewrite (Hbit 0%nat) by lia. simpl. apply negb_true_iff.
    destruct (coal_bit 0) eqn:E; [|done]. apply coal_bit_true in E as (? & ? & ? & ? & _). lia.
  - rewrite Z.mod_small by lia.
    replace (Z.of_nat n + 1) with (0 + Z.of_nat n + 1) by lia.
    apply ffs_loop_spec; [lia| |].
    + rewrite Hbit by lia. apply negb_true_iff. rewrite <- Hf. f_equal. lia.
    + intros k Hk. replace k with (Z.of_nat (Z.to_nat k)) by lia. rewrite Hbit by lia.
      apply negb_false_iff. rewrite <- (Hall (Z.to_nat k)) by lia. f_equal. lia.
Qed.

(** What a lane that must send sends: its own message and those of the run. *)
Lemma coalesce_run i m :
  wave !! i = Some (Some m) → coalescable garbage wave i m = false →
  ∃ n : nat, coalesce garbage wave i m = (true, m_size m * (Z.of_nat n + 1)) ∧
    coal_bit (i + 1 + n) = false ∧ (∀ k, (k < n)%nat → coal_bit (i + 1 + k) = true).
Proof.
  intros Hi Hc. assert (i < 64)%nat as Hi64 by (apply lookup_lt_Some in Hi; lia).
  destruct (run_exists i Hi64) as (n & Hn & Hf & Hall). exists n.
  split; [|done]. unfold coalesce. rewrite Hc, (ffs_run i n) by done.
  pose proof (Hok _ _ Hi) as (Hsz & _).
  rewrite (uwrap_small 32 (Z.of_nat n + 1)) by lia.
  rewrite (proj2 (Z.eqb_neq _ 0)) by lia. simpl.
  replace (Z.of_nat n + 1 - 1) with (Z.of_nat n) by lia. rewrite (uwrap_small 32) by lia.
  assert (0 ≤ m_size m * Z.of_nat n < 2 ^ 31) by nia.
  assert (0 ≤ m_size m + m_size m * Z.of_nat n < 2 ^ 31) by nia.
  rewrite (s32_small (m_size m)) by (unfold INT_MIN, INT_MAX; lia).
  rewrite (uwrap_small 64 (_ * _)), (uwrap_small 64 (_ + _)) by lia.
  rewrite s32_small by (unfold INT_MIN, INT_MAX; lia). rewrite uwrap_small by lia.
  f_equal. lia.
Qed.

(** The lanes of a run carry consecutive pieces. *)
Lemma run_pieces i m n :
  wave !! i = Some (Some m) → (∀ k, (k < n)%nat → coal_bit (i + 1 + k) = true) →
  ∀ k, (k ≤ n)%nat → ∃ m', wave !! (i + k)%nat = Some (Some m') ∧ m_size m' = m_size m ∧
    m_pe m' = m_pe m ∧ m_source m' = m_source m + Z.of_nat k * m_size m ∧
    m_dest m' = m_dest m + Z.of_nat k * m_size m.
Proof.
  intros Hi Hall k. induction k as [|k IH]; intros Hk.
  { exists m. rewrite Nat.add_0_r. split_and!; [done..|lia|lia]. }
  destruct (IH ltac:(lia)) as (m1 & H1 & Hs1 & Hp1 & Hsrc1 & Hdst1).
  pose proof (Hall k ltac:(lia)) as Hc.
  apply coal_bit_true in Hc as (j & m2 & m1' & Hj & H2 & Hj1 & Hsz & Hsrc & Hdst & Hpe).
  assert (j = (i + k)%nat) as -> by lia. rewrite H1 in Hj1. simplify_eq.
  exists m2. replace (i + S k)%nat with (i + 1 + k)%nat by lia.
  split_and!; [done|lia|lia|lia|lia].
Qed.

Lemma sent_elem m' :
  m' ∈ sent garbage wave ↔
  ∃ i m, wave !! i = Some (Some m) ∧ coalescable garbage wave i m = false ∧
    m' = mkMsg (m_pe m) (m_source m) (m_dest m) (coalesce garbage wave i m).2.
Proof.
  unfold sent. rewrite list_elem_of_omap. split.
  - intros (o & Ho & Hid). apply elem_of_lookup_imap in Ho as (i & o' & -> & Hi).
    destruct o' as [m|]; [|done]. simpl in Hid. unfold coalesce in Hid.
    destruct (coalescable garbage wave i m) eqn:Ec; [done|]. injection Hid as <-.
    exists i, m. split_and!; [done|done|]. unfold coalesce. by rewrite Ec.
  - intros (i & m & Hi & Hc & ->). eexists (Some _). split; [|done].
    apply elem_of_lookup_imap. exists i, (Some m). split; [|done].
    unfold coalesce. by rewrite Hc.
Qed.

(** The lane that sends for lane [j]. *)
Lemma leader_exists j m :
  wave !! j = Some (Some m) →
  ∃ i mi n, wave !! i = Some (Some mi) ∧ coalescable garbage wave i mi = false ∧
    j = (i + n)%nat ∧ ∀ k, (k < n)%nat → coal_bit (i + 1 + k) = true.
Proof.
  revert m. induction j as [j IH] using lt_wf_ind. intros m Hj.
  destruct (coalescable garbage wave j m) eqn:Ec.
  - pose proof Ec as Ec'. apply coalescable_iff in Ec as (j' & m' & -> & Hj' & _); [|done].
    destruct (IH j' ltac:(lia) m' Hj') as (i & mi & n & Hi & Hci & -> & Hall).
    exists i, mi, (S n). split_and!; [done|done|lia|]. intros k Hk.
    destruct (decide (k = n)) as [->|]; [|apply Hall; lia].
    replace (i + 1 + n)%nat with (S (i + n)) by lia. by rewrite (coal_bit_lane _ m).
  - exists j, m, 0%nat. split_and!; [done|done|lia|lia].
Qed.

Lemma coalesce_equivalent pe s d :
  (∃ m, m ∈ sent garbage wave ∧ copies m pe s d) ↔
  (∃ i m, wave !! i = Some (Some m) ∧ copies m pe s d).
Proof.
  split.
  - intros (m' & Hin & Hcp). apply sent_elem in Hin as (i & m & Hi & Hc & ->).
    destruct (coalesce_run i m Hi Hc) as (n & Hco & _ & Hall).
    rewrite Hco in Hcp.
    destruct Hcp as (<- & b & Hb & -> & ->). simpl in *.
    pose proof (Hok _ _ Hi) as (Hsz & _).
    assert (0 < m_size m) by nia.
    pose proof (Z.div_mod b (m_size m) ltac:(lia)) as Hdm.
    pose proof (Z.mod_pos_bound b (m_size m) ltac:(lia)) as Hmod.
    assert (0 ≤ b / m_size m < Z.of_nat n + 1) as Hq
      by (split; [apply Z.div_pos|apply Z.div_lt_upper_bound]; lia).
    destruct (run_pieces i m n Hi Hall (Z.to_nat (b / m_size m)) ltac:(lia)) as
      (m2 & H2 & Hs2 & Hp2 & Hsrc2 & Hdst2).
    exists (i + Z.to_nat (b / m_size m))%nat, m2. split; [done|]. split; [done|].
    exists (b `mod` m_size m). rewrite Hsrc2, Hdst2, Hs2, Z2Nat.id by lia. lia.
  - intros (j & m & Hj & Hpe & b & Hb & -> & ->).
    destruct (leader_exists j m Hj) as (i & mi & n & Hi & Hc & -> & Hall).
    destruct (coalesce_run i mi Hi Hc) as (n' & Hco & Hf & Hall').
    assert (n ≤ n')%nat as Hn.
    { destruct (decide (n' < n)%nat) as [Hlt|]; [|lia]. by rewrite (Hall n' Hlt) in Hf. }
    destruct (run_pieces i mi n Hi Hall n ltac:(lia)) as (m2 & H2 & Hs2 & Hp2 & Hsrc2 & Hdst2).
    rewrite Hj in H2. simplify_eq.
    eexists. split; [apply sent_elem; exists i, mi; split_and!; [done|done|reflexivity]|].
    rewrite Hco. split; [done|]. simpl. pose proof (Hok _ _ Hi) as (Hsz & _).
    exists (Z.of_nat n * m_size mi + b). rewrite Hsrc2, Hdst2. split_and!; [nia|nia|lia|lia].
Qed.

Lemma sent_length : (length (sent garbage wave) ≤ length (omap id wave))%nat.
Proof.
  unfold sent. assert (∀ f : nat → option msg → option msg, (∀ i, f i None = None) →
    (length (omap id (imap f wave)) ≤ length (omap id wave))%nat) as H.
  { clear. induction wave as [|o l IH]; intros f Hf; [done|].
    specialize (IH (f ∘ S) (λ i, Hf (S i))). rewrite imap_cons.
    change (omap id (o :: l)) with (match o with Some x => x :: omap id l | None => omap id l end).
    change (omap id (f 0%nat o :: imap (f ∘ S) l)) with
      (match f 0%nat o with Some x => x :: omap id (imap (f ∘ S) l) | None => omap id (imap (f ∘ S) l) end).
    destruct o as [m|]; [|by rewrite Hf]. destruct (f 0%nat (Some m)); cbn [length]; lia. }
  by apply H.
Qed.
End wave.

(** ** Properties *)

(** C28: Coalescing is transparent.  Whatever the active lanes of a wavefront
    send (at most 2^25 - 1 bytes each), the messages that remain after
    coalescing copy exactly the same bytes between the same places as all the
    original messages, and there are never more of them; this holds whatever a
    shuffle returns for an inactive lane. *)
Theorem coalesce_transparent garbage wave :
  length wave = 64%nat →
  (∀ i m, wave !! i = Some (Some m) → msg_ok (2 ^ 25 - 1) m) →
  (∀ pe s d, (∃ m, m ∈ sent garbage wave ∧ copies m pe s d) ↔
             (∃ i m, wave !! i = Some (Some m) ∧ copies m pe s d)) ∧
  (length (sent garbage wave) ≤ length (omap id wave))%nat.
Proof.
  intros Hlen Hok. split; [intros; by apply coalesce_equivalent|apply sent_length].
Qed.

(** Lanes 0 to 8 and 10 to 63 send adjacent words, lane 9 sends elsewhere. *)
Definition sample_wave : list (option msg) :=
  (λ i : nat, let k := Z.of_nat i in
     Some (if (i =? 9)%nat then mkMsg 1 9000 9000 8
           else mkMsg 1 (1000 + 8 * k) (5000 + 8 * k) 8)) <$> seq 0 64.

Example sample_wave_sent :
  sent (λ _, mkMsg 0 0 0 0) sample_wave =
  [mkMsg 1 1000 5000 72; mkMsg 1 9000 9000 8; mkMsg 1 1080 5080 432].
Proof. vm_compute. reflexivity. Qed.

Lemma sample_wave_ok i m : sample_wave !! i = Some (Some m) → msg_ok (2 ^ 25 - 1) m.
Proof.
  unfold sample_wave. rewrite list_lookup_fmap. intros H.
  apply fmap_Some in H as (k & Hk & [= ->]). apply lookup_seq in Hk as [-> Hk].
  unfold msg_ok. case_if; simpl; lia.
Qed.

Lemma coalesce_transparent_witness :
  (∀ pe s d, (∃ m, m ∈ sent (λ _, mkMsg 0 0 0 0) sample_wave ∧ copies m pe s d) ↔
             (∃ i m, sample_wave !! i = Some (Some m) ∧ copies m pe s d)) ∧
  (length (sent (λ _, mkMsg 0 0 0 0) sample_wave) ≤ length (omap id sample_wave))%nat.
Proof. apply coalesce_transparent; [reflexivity|apply sample_wave_ok]. Defined.

(** The size of a message goes through a signed 32-bit variable, also when
    nothing is coalesced: a single message of 2^31 bytes or more is sent with a
    different size. *)
Theorem coalesce_truncates garbage m :
  2 ^ 31 ≤ m_size m < 2 ^ 32 →
  (coalesce garbage (Some m :: replicate 63 None) 0 m).2 ≠ m_size m ∧
  (coalesce garbage (Some m :: replicate 63 None) 0 m).1 = true.
Proof.
  intros Hsz. unfold coalesce.
  assert (coalescable garbage (Some m :: replicate 63 None) 0 m = false) as ->
    by (unfold coalescable; by rewrite andb_false_r).
  assert (lowerNeighborCoal garbage (Some m :: replicate 63 None) = 0) as ->.
  { unfold lowerNeighborCoal. cbn [imap]. 
    assert (lane_coalescable garbage (Some m :: replicate 63 None) 0 (Some m) = false) as ->
      by (simpl; unfold coalescable; by rewrite andb_false_r).
    reflexivity. }
  assert (u32 (ffsll (u64 (Z.lnot (Z.shiftr 0 ((Z.of_nat 0 + 1) `mod` 64))))) = 1) as -> by done.
  cbn [negb Z.eqb]. simpl. split; [|done]. rewrite Z.mul_0_r.
  assert (s32 (m_size m) = m_size m - 2 ^ 32) as Hs.
  { unfold swrap. change (2 ^ (32 - 1)) with (2 ^ 31).
    replace (m_size m + 2 ^ 31) with (m_size m - 2 ^ 31 + 1 * 2 ^ 32) by lia.
    rewrite Z_mod_plus_full, Z.mod_small by lia. lia. }
  rewrite Hs. unfold uwrap. rewrite Z.mod_0_l, Z.add_0_r by lia.
  intros H.
  assert ((m_size m - 2 ^ 32) `mod` 2 ^ 64 = m_size m - 2 ^ 32 + 2 ^ 64) as Hm.
  { rewrite <- (Z_mod_plus_full _ 1). rewrite Z.mod_small; lia. }
  rewrite Hm in H. unfold swrap in H. change (2 ^ (32 - 1)) with (2 ^ 31) in H.
  assert ((m_size m - 2 ^ 32 + 2 ^ 64 + 2 ^ 31) `mod` 2 ^ 32 = m_size m - 2 ^ 31) as Hm2.
  { replace (m_size m - 2 ^ 32 + 2 ^ 64 + 2 ^ 31) with (m_size m - 2 ^ 31 + 2 ^ 32 * 2 ^ 32) by lia.
    rewrite Z_mod_plus_full, Z.mod_small; lia. }
  rewrite Hm2 in H. replace (m_size m - 2 ^ 31 - 2 ^ 31) with (m_size m - 2 ^ 32) in H by lia.
  rewrite Hm in H. lia.
Qed.

Lemma coalesce_truncates_witness :
  let m := mkMsg 1 4096 8192 (2 ^ 31) in
  (coalesce (λ _, m) (Some m :: replicate 63 None) 0 m).2 ≠ 2 ^ 31 ∧
  (coalesce (λ _, m) (Some m :: replicate 63 None) 0 m).1 = true.
Proof. apply coalesce_truncates. simpl. lia. Defined.
