(* ===== verification/Util.v ===== *)
(** * Device utilities

    [util.cpp]: the flat index of a thread in its block, and the three copies
    that the device code uses: by one thread ([memcpy]), by a work-group
    ([memcpy_wg]) and by a wavefront ([memcpy_wave]).  Memory is a function from
    addresses to bytes; a copy is the list of stores that it makes. *)
From S2P Require Import Prelude.

Local Open Scope Z_scope.

(** ** Threads *)

(** [hipThreadIdx] and [hipBlockDim]. *)
Record dim3 := mkDim { dim_x : Z; dim_y : Z; dim_z : Z }.

Definition is_thread_zero_in_block (hipThreadIdx : dim3) : bool :=
  (dim_x hipThreadIdx =? 0) && (dim_y hipThreadIdx =? 0) && (dim_z hipThreadIdx =? 0).

Definition get_flat_block_size (hipBlockDim : dim3) : Z :=
  dim_x hipBlockDim * dim_y hipBlockDim * dim_z hipBlockDim.

Definition get_flat_block_id (hipThreadIdx hipBlockDim : dim3) : Z :=
  dim_x hipThreadIdx + dim_y hipThreadIdx * dim_x hipBlockDim +
  dim_z hipThreadIdx * dim_x hipBlockDim * dim_y hipBlockDim.

(** Of a thread with the given flat index. *)
Definition is_thread_zero_in_wave (flat_block_id : Z) : bool :=
  negb (flat_block_id `mod` 64 =? 0).

(** ** Stores *)

(** A store of [c_len] bytes read from [c_src]. *)
Record chunk := mkChunk { c_dst : Z; c_src : Z; c_len : Z }.

(** [store_asm] stores 2, 4 or 8 bytes and does nothing for other sizes. *)
Definition store_asm (val dst size : Z) : list chunk :=
  if (size =? 2) || (size =? 4) || (size =? 8) then [mkChunk dst val size] else [].

Abbreviation memory := (Z → Z).

Definition apply_chunk (m : memory) (c : chunk) : memory :=
  λ a, if (c_dst c <=? a) && (a <? c_dst c + c_len c) then m (c_src c + (a - c_dst c)) else m a.

Definition run_chunks (m : memory) (cs : list chunk) : memory := foldl apply_chunk m cs.

(** ** [memcpy] *)

(** The position of a copy: where it writes, where it reads, what is left. *)
Record cursor := mkCursor { dst_bytes : Z; src_bytes : Z; size_left : Z }.

(** [while (size >= i) ...]. *)
Fixpoint copy_while (fuel : nat) (i : Z) (c : cursor) : list chunk * cursor :=
  match fuel with
  | O => ([], c)
  | S f =>
      if i <=? size_left c then
        let '(cs, c') := copy_while f i
          (mkCursor (dst_bytes c + i) (src_bytes c + i) (size_left c - i)) in
        (store_asm (src_bytes c) (dst_bytes c) i ++ cs, c')
      else ([], c)
  end.

(** [for (int i = 8; i > 1; i >>= 1)], then the last byte. *)
Definition memcpy_chunks (dst src size : Z) : list chunk :=
  let '(cs8, c) := copy_while (Z.to_nat size) 8 (mkCursor dst src size) in
  let '(cs4, c) := copy_while (Z.to_nat size) 4 c in
  let '(cs2, c) := copy_while (Z.to_nat size) 2 c in
  cs8 ++ cs4 ++ cs2 ++
  (if size_left c =? 1 then [mkChunk (dst_bytes c) (src_bytes c) 1] else []).

Definition memcpy (m : memory) (dst src size : Z) : memory :=
  run_chunks m (memcpy_chunks dst src size).

(** ** [memcpy_wg] *)

(** What a thread keeps across the loop over [j]. *)
Record wg_state := mkWg {
  w_dst_bytes : Z; w_src_bytes : Z; w_dst_def : Z; w_src_def : Z; w_size : Z
}.

(** [for (int i = thread_id; i < cpy_size; i += block_size)]: the values of [i]. *)
Fixpoint strided (fuel : nat) (i cpy_size block_size : Z) : list Z :=
  match fuel with
  | O => []
  | S f => if i <? cpy_size then i :: strided f (i + block_size) cpy_size block_size else []
  end.

(** One round of the outer loop. *)
Definition wg_round (thread_id block_size j : Z) (w : wg_state) : list chunk * wg_state :=
  let cpy_size := s32 (w_size w / j) in
  let idxs := strided (Z.to_nat cpy_size) thread_id cpy_size block_size in
  let bytes i base := base + s32 (i * j) in
  let cs := i ← idxs; store_asm (bytes i (w_src_def w)) (bytes i (w_dst_def w)) j in
  let '(db, sb) := match last idxs with
                   | Some i => (bytes i (w_dst_def w), bytes i (w_src_def w))
                   | None => (w_dst_bytes w, w_src_bytes w)
                   end in
  (cs, mkWg db sb (w_dst_def w + s32 (cpy_size * j)) (w_src_def w + s32 (cpy_size * j))
            (u64 (w_size w - s32 (cpy_size * j)))).

(** The stores of one thread. *)
Definition memcpy_wg (thread_id block_size dst src size : Z) : list chunk :=
  let '(cs8, w) := wg_round thread_id block_size 8 (mkWg dst src dst src size) in
  let '(cs4, w) := wg_round thread_id block_size 4 w in
  let '(cs2, w) := wg_round thread_id block_size 2 w in
  cs8 ++ cs4 ++ cs2 ++
  (if (w_size w =? 1) && (thread_id =? 0)
   then [mkChunk (w_dst_bytes w) (w_src_bytes w) 1] else []).

(** The stores of all the threads of a block. *)
Definition memcpy_wg_all (block_size dst src size : Z) : list chunk :=
  tid ← seqZ 0 block_size; memcpy_wg tid block_size dst src size.

(** ** [memcpy_wave] *)

(** The inner loop of one thread. *)
Fixpoint wave_inner (fuel : nat) (i j cpy_size : Z) (c : cursor) : list chunk * cursor :=
  match fuel with
  | O => ([], c)
  | S f =>
      if i <? cpy_size then
        let '(cs, c') := wave_inner f (i + 64) j cpy_size
          (mkCursor (dst_bytes c + s32 (i * j)) (src_bytes c + s32 (i * j))
                    (u64 (size_left c - s32 (cpy_size * j)))) in
        (store_asm (src_bytes c) (dst_bytes c) j ++ cs, c')
      else ([], c)
  end.

Definition wave_round (thread_id j : Z) (c : cursor) : list chunk * cursor :=
  let cpy_size := s32 (size_left c / j) in
  wave_inner (Z.to_nat cpy_size) thread_id j cpy_size c.

Definition memcpy_wave (thread_id dst src size : Z) : list chunk :=
  let '(cs8, c) := wave_round thread_id 8 (mkCursor dst src size) in
  let '(cs4, c) := wave_round thread_id 4 c in
  let '(cs2, c) := wave_round thread_id 2 c in
  cs8 ++ cs4 ++ cs2 ++
  (if (size_left c =? 1) && is_thread_zero_in_wave thread_id
   then [mkChunk (dst_bytes c) (src_bytes c) 1] else []).

(** ** Lists of stores *)

Definition in_chunk (a : Z) (c : chunk) : Prop := c_dst c ≤ a < c_dst c + c_len c.
Definition covered (cs : list chunk) (a : Z) : Prop := Exists (in_chunk a) cs.

#[export] Instance in_chunk_dec a c : Decision (in_chunk a c).
Proof. unfold in_chunk. apply _. Defined.
#[export] Instance covered_dec cs a : Decision (covered cs a).
Proof. unfold covered. apply _. Defined.

(** The memory after copying [size] bytes. *)
Definition copied (m : memory) (dst src size : Z) (m' : memory) : Prop :=
  ∀ a, m' a = if decide (dst ≤ a < dst + size) then m (src + (a - dst)) else m a.

(** The two ranges do not overlap. *)
Definition apart (dst src size : Z) : Prop := dst + size ≤ src ∨ src + size ≤ dst.

Section aligned.
Context (dst src size : Z).

(** A store that is a part of the whole copy. *)
Definition aligned (c : chunk) : Prop :=
  c_src c = src + (c_dst c - dst) ∧ dst ≤ c_dst c ∧ 0 ≤ c_len c ∧
  c_dst c + c_len c ≤ dst + size.

(** Parts of a copy between ranges that do not overlap: in any order, what
    they cover is copied and nothing else changes. *)
Lemma run_aligned m cs a :
  apart dst src size → Forall aligned cs →
  run_chunks m cs a = if decide (covered cs a) then m (src + (a - dst)) else m a.
Proof.
  intros Hap Hal. revert m. induction Hal as [|c cs (Hs & Hd & Hl & He) Hal IH]; intros m.
  { rewrite decide_False; [done|]. intros H. inversion H. }
  assert (∀ b, ¬ dst ≤ b < dst + size → apply_chunk m c b = m b) as Hout.
  { intros b Hb. unfold apply_chunk.
    destruct (Z.leb_spec (c_dst c) b), (Z.ltb_spec b (c_dst c + c_len c)); try done. lia. }
  change (run_chunks m (c :: cs)) with (run_chunks (apply_chunk m c) cs). rewrite IH.
  assert (covered cs a → dst ≤ a < dst + size) as Hin.
  { intros (c' & Hc' & Ha)%Exists_exists.
    rewrite Forall_forall in Hal. destruct (Hal c' Hc') as (?&?&?&?). unfold in_chunk in Ha. lia. }
  destruct (decide (covered cs a)) as [Hcov|Hcov].
  - rewrite decide_True by by right. apply Hout. specialize (Hin Hcov). unfold apart in Hap. lia.
  - destruct (decide (covered (c :: cs) a)) as [Hc|Hc].
    + apply Exists_cons in Hc as [Hc|?]; [|done]. unfold in_chunk in Hc. unfold apply_chunk.
      rewrite (proj2 (Z.leb_le _ _)), (proj2 (Z.ltb_lt _ _)) by lia. cbn. f_equal. lia.
    + unfold apply_chunk.
      destruct (Z.leb_spec (c_dst c) a), (Z.ltb_spec a (c_dst c + c_len c)); try done.
      destruct Hc. left. unfold in_chunk. lia.
Qed.

Lemma run_covering m cs :
  apart dst src size → Forall aligned cs → (∀ a, dst ≤ a < dst + size → covered cs a) →
  copied m dst src size (run_chunks m cs).
Proof.
  intros Hap Hal Hcov a. rewrite run_aligned by done.
  destruct (decide (dst ≤ a < dst + size)) as [Ha|Ha].
  - by rewrite decide_True by auto.
  - rewrite decide_False; [done|]. intros (c & Hc & Hin)%Exists_exists.
    rewrite Forall_forall in Hal. destruct (Hal c Hc) as (?&?&?&?). unfold in_chunk in Hin. lia.
Qed.
End aligned.

(** ** [memcpy] *)

Lemma store_asm_some val dst i : i = 2 ∨ i = 4 ∨ i = 8 → store_asm val dst i = [mkChunk dst val i].
Proof. by intros [-> | [-> | ->]]. Qed.

(** A cursor inside the copy of [size] bytes. *)
Definition cursor_ok (dst src size : Z) (c : cursor) : Prop :=
  dst ≤ dst_bytes c ∧ src_bytes c = src + (dst_bytes c - dst) ∧
  dst_bytes c + size_left c = dst + size ∧ 0 ≤ size_left c.

Lemma copy_while_spec dst src size fuel i c :
  i = 2 ∨ i = 4 ∨ i = 8 → cursor_ok dst src size c → size_left c ≤ Z.of_nat fuel →
  let '(cs, c') := copy_while fuel i c in
  Forall (aligned dst src size) cs ∧
  (∀ a, dst_bytes c ≤ a < dst_bytes c' → covered cs a) ∧
  cursor_ok dst src size c' ∧ size_left c' < i.
Proof.
  intros Hi. revert c. induction fuel as [|f IH]; intros c Hc Hf; cbn.
  { split; [done|]. split; [lia|]. split; [done|]. destruct Hc. lia. }
  pose proof Hc as (Hd & Hs & He & Hl).
  destruct (Z.leb_spec i (size_left c)) as [Hle|Hlt].
  - specialize (IH (mkCursor (dst_bytes c + i) (src_bytes c + i) (size_left c - i))).
    destruct (copy_while f i _) as [cs c'] eqn:E. rewrite store_asm_some by done.
    destruct IH as (Hal & Hcov & Hc' & Hlt); [unfold cursor_ok; cbn; lia|cbn; lia|].
    split; [|split; [|done]].
    + constructor; [unfold aligned; cbn; lia|done].
    + intros a Ha. destruct (decide (a < dst_bytes c + i)).
      * left. unfold in_chunk. cbn. lia.
      * right. apply Hcov. cbn. lia.
  - split; [done|]. split; [lia|done].
Qed.

(** [memcpy] by one thread copies exactly [size] bytes, for every size, between
    ranges that do not overlap; no other byte changes. *)
Theorem memcpy_correct m dst src size :
  0 ≤ size → apart dst src size → copied m dst src size (memcpy m dst src size).
Proof.
  intros Hs Hap. unfold memcpy, memcpy_chunks.
  assert (∀ c, cursor_ok dst src size c → dst_bytes c ≤ dst + size ∧ size_left c ≤ size) as Hle.
  { intros c (?&?&?&?). lia. }
  pose proof (copy_while_spec dst src size (Z.to_nat size) 8 (mkCursor dst src size)) as H8.
  destruct (copy_while _ 8 _) as [cs8 c8].
  destruct H8 as (A8 & C8 & K8 & L8); [lia|unfold cursor_ok; cbn; lia|cbn; lia|].
  pose proof (copy_while_spec dst src size (Z.to_nat size) 4 c8) as H4.
  destruct (copy_while _ 4 _) as [cs4 c4].
  destruct H4 as (A4 & C4 & K4 & L4); [lia|done|specialize (Hle _ K8); lia|].
  pose proof (copy_while_spec dst src size (Z.to_nat size) 2 c4) as H2.
  destruct (copy_while _ 2 _) as [cs2 c2].
  destruct H2 as (A2 & C2 & K2 & L2); [lia|done|specialize (Hle _ K4); lia|].
  destruct K2 as (D2 & S2 & E2 & N2).
  apply run_covering; [done| |].
  - rewrite !Forall_app. do 3 (split; [done|]). case_if; [|done].
    repeat constructor; cbn; lia.
  - intros a Ha. unfold covered in *. rewrite !Exists_app.
    destruct (decide (a < dst_bytes c8)); [left; apply C8; cbn; lia|right].
    destruct (decide (a < dst_bytes c4)); [left; apply C4; lia|right].
    destruct (decide (a < dst_bytes c2)); [left; apply C2; lia|right].
    rewrite (proj2 (Z.eqb_eq _ _)) by lia. left. unfold in_chunk. cbn. lia.
Qed.

Lemma memcpy_correct_witness :
  copied (λ a, a) 1000 2000 15 (memcpy (λ a, a) 1000 2000 15).
Proof. apply memcpy_correct; [lia|unfold apart; lia]. Defined.

(** ** Thread indices *)

Definition thread_in_block (t b : dim3) : Prop :=
  0 ≤ dim_x t < dim_x b ∧ 0 ≤ dim_y t < dim_y b ∧ 0 ≤ dim_z t < dim_z b.

Lemma flat_id_range b t :
  thread_in_block t b → 0 ≤ get_flat_block_id t b < get_flat_block_size b.
Proof.
  destruct t as [x y z], b as [bx by_ bz].
  unfold thread_in_block, get_flat_block_id, get_flat_block_size. cbn. intros (Hx & Hy & Hz).
  assert (0 ≤ x + y * bx < bx * by_) by nia. nia.
Qed.

Lemma flat_id_inj b t t' :
  thread_in_block t b → thread_in_block t' b →
  get_flat_block_id t b = get_flat_block_id t' b → t = t'.
Proof.
  destruct t as [x y z], t' as [x' y' z'], b as [bx by_ bz].
  unfold thread_in_block, get_flat_block_id. cbn. intros (Hx & Hy & Hz) (Hx' & Hy' & Hz') He.
  assert (0 ≤ x + y * bx < bx * by_) by nia. assert (0 ≤ x' + y' * bx < bx * by_) by nia.
  assert (z = z') as -> by nia. assert (y = y') as -> by nia. f_equal. lia.
Qed.

(** The flat index numbers the threads of a block: it lies below the block's
    size, different threads have different indices, and the index of a thread
    is 0 exactly when [is_thread_zero_in_block] holds. *)
Theorem flat_block_id_correct b t t' :
  thread_in_block t b → thread_in_block t' b →
  0 ≤ get_flat_block_id t b < get_flat_block_size b ∧
  (get_flat_block_id t b = get_flat_block_id t' b → t = t') ∧
  (is_thread_zero_in_block t = true ↔ get_flat_block_id t b = 0).
Proof.
  intros Ht Ht'. split; [by apply flat_id_range|]. split; [by apply flat_id_inj|].
  assert (thread_in_block (mkDim 0 0 0) b) as H0.
  { unfold thread_in_block in *. cbn. lia. }
  split.
  - unfold is_thread_zero_in_block, get_flat_block_id. rewrite !andb_true_iff, !Z.eqb_eq.
    intros [[-> ->] ->]. lia.
  - intros He. rewrite (flat_id_inj b t (mkDim 0 0 0)); [done|done|done|].
    rewrite He. unfold get_flat_block_id. cbn. lia.
Qed.

Lemma flat_block_id_correct_witness :
  let b := mkDim 8 4 2 in
  0 ≤ get_flat_block_id (mkDim 3 2 1) b < get_flat_block_size b ∧
  (get_flat_block_id (mkDim 3 2 1) b = get_flat_block_id (mkDim 0 0 0) b →
     mkDim 3 2 1 = mkDim 0 0 0) ∧
  (is_thread_zero_in_block (mkDim 3 2 1) = true ↔ get_flat_block_id (mkDim 3 2 1) b = 0).
Proof. apply flat_block_id_correct; unfold thread_in_block; cbn; lia. Defined.

(** ** [memcpy_wg] *)

Lemma elem_of_strided fuel i n bs k :
  0 < bs → n - i ≤ Z.of_nat fuel →
  k ∈ strided fuel i n bs ↔ ∃ q, 0 ≤ q ∧ k = i + q * bs ∧ k < n.
Proof.
  intros Hbs. revert i. induction fuel as [|f IH]; intros i Hf; cbn.
  { split; [by intros ?%not_elem_of_nil|]. intros (q & ? & -> & ?). nia. }
  destruct (Z.ltb_spec i n).
  - rewrite elem_of_cons, IH by lia. split.
    + intros [->|(q & ? & -> & ?)]; [exists 0|exists (q + 1)]; lia.
    + intros (q & Hq & -> & ?). destruct (decide (q = 0)) as [->|]; [left; lia|].
      right. exists (q - 1). lia.
  - split; [by intros ?%not_elem_of_nil|]. intros (q & ? & -> & ?). nia.
Qed.

(** The same for a thread of the block: the indices that are its own. *)
Lemma elem_of_strided_mod fuel tid n bs k :
  0 ≤ tid < bs → n ≤ Z.of_nat fuel →
  k ∈ strided fuel tid n bs ↔ 0 ≤ k < n ∧ k `mod` bs = tid.
Proof.
  intros Ht Hf. rewrite elem_of_strided by lia. split.
  - intros (q & Hq & -> & ?). split; [nia|]. rewrite Z.mod_add by lia. apply Z.mod_small. lia.
  - intros [Hk <-]. exists (k / bs). split; [apply Z.div_pos; lia|].
    pose proof (Z.div_mod k bs ltac:(lia)). lia.
Qed.

Lemma elem_of_wg_all block_size dst src size c :
  c ∈ memcpy_wg_all block_size dst src size ↔
  ∃ tid, 0 ≤ tid < block_size ∧ c ∈ memcpy_wg tid block_size dst src size.
Proof.
  unfold memcpy_wg_all. rewrite list_elem_of_bind. setoid_rewrite elem_of_seqZ.
  setoid_rewrite Z.add_0_l. naive_solver.
Qed.

Section memcpy_wg.
Context (dst src size block_size : Z).
Hypothesis (Hsize : 0 ≤ size < 2 ^ 31) (Hbs : 0 < block_size).

Definition wg_ok (w : wg_state) : Prop :=
  dst ≤ w_dst_def w ∧ w_src_def w = src + (w_dst_def w - dst) ∧
  w_dst_def w + w_size w = dst + size ∧ 0 ≤ w_size w.

Lemma wg_round_spec tid j w :
  j = 2 ∨ j = 4 ∨ j = 8 → 0 ≤ tid < block_size → wg_ok w →
  let '(cs, w') := wg_round tid block_size j w in
  wg_ok w' ∧ w_size w' = w_size w `mod` j ∧
  (∀ c, c ∈ cs ↔ ∃ k, 0 ≤ k < w_size w / j ∧ k `mod` block_size = tid ∧
                      c = mkChunk (w_dst_def w + k * j) (w_src_def w + k * j) j) ∧
  (w_dst_bytes w' = w_dst_bytes w ∧ w_src_bytes w' = w_src_bytes w ∧ w_size w / j ≤ tid ∨
   ∃ k, 0 ≤ k < w_size w / j ∧ w_dst_bytes w' = w_dst_def w + k * j ∧
        w_src_bytes w' = w_src_def w + k * j).
Proof.
  intros Hj Ht (Hd & Hs & He & Hn). unfold wg_round.
  assert (0 ≤ w_size w / j ≤ w_size w) as Hq.
  { split; [apply Z.div_pos; lia|]. apply Z.div_le_upper_bound; nia. }
  pose proof (Z.div_mod (w_size w) j ltac:(lia)) as Hdm.
  pose proof (Z.mod_pos_bound (w_size w) j ltac:(lia)) as Hmb.
  assert (∀ k, 0 ≤ k ≤ w_size w / j → s32 (k * j) = k * j) as Hmul.
  { intros k Hk. apply s32_small. unfold INT_MIN, INT_MAX. nia. }
  rewrite (s32_small (w_size w / j)) by (unfold INT_MIN, INT_MAX; lia).
  set (n := w_size w / j) in *. rewrite (Hmul n) by lia.
  assert (∀ k, k ∈ strided (Z.to_nat n) tid n block_size ↔ 0 ≤ k < n ∧ k `mod` block_size = tid)
    as Hin by (intros k; apply elem_of_strided_mod; lia).
  destruct (match last _ with Some _ => _ | None => _ end) as [db sb] eqn:Hlast.
  split; [|split; [|split]]; cbn.
  - unfold wg_ok. cbn. rewrite uwrap_small by lia. lia.
  - rewrite uwrap_small by lia. lia.
  - intros c. rewrite list_elem_of_bind. split.
    + intros (k & Hc & Hk). apply Hin in Hk. rewrite store_asm_some in Hc by done.
      apply list_elem_of_singleton in Hc as ->. exists k. rewrite Hmul by lia. tauto.
    + intros (k & Hk & Hm & ->). exists k. rewrite store_asm_some, Hmul by (done || lia).
      split; [by apply list_elem_of_singleton|by apply Hin].
  - destruct (last (strided _ _ _ _)) as [k|] eqn:Hl; simplify_eq.
    + right. apply last_Some_elem_of, Hin in Hl as [Hk _]. exists k. by rewrite !Hmul by lia.
    + left. split; [done|]. split; [done|]. apply last_None in Hl.
      destruct (decide (n ≤ tid)); [done|].
      assert (tid ∈ strided (Z.to_nat n) tid n block_size) as Htid.
      { apply Hin. split; [lia|]. apply Z.mod_small. lia. }
      rewrite Hl in Htid. by apply not_elem_of_nil in Htid.
Qed.

(** The rounds: the size of a store, where the round starts, how many stores
    there are. *)
Definition rounds : list (Z * Z * Z) :=
  [(8, dst, size / 8);
   (4, dst + size - size `mod` 8, size `mod` 8 / 4);
   (2, dst + size - size `mod` 8 `mod` 4, size `mod` 8 `mod` 4 / 2)].

(** The stores of thread [tid] in the rounds. *)
Definition round_chunk (tid : Z) (c : chunk) : Prop :=
  ∃ j base n k, (j, base, n) ∈ rounds ∧ 0 ≤ k < n ∧ k `mod` block_size = tid ∧
    c = mkChunk (base + k * j) (src + (base + k * j - dst)) j.

(** The store of the last byte: where thread 0 left its pointers. *)
Definition tail_ok (tid : Z) (tail : list chunk) : Prop :=
  if decide (size `mod` 2 = 1 ∧ tid = 0) then
    ∃ db, tail = [mkChunk db (src + (db - dst)) 1] ∧
      (size = 1 ∧ db = dst ∨ 1 < size ∧ dst ≤ db ∧ db + 1 ≤ dst + size - 1)
  else tail = [].

Lemma memcpy_wg_thread tid :
  0 ≤ tid < block_size →
  ∃ tail, tail_ok tid tail ∧
    ∀ c, c ∈ memcpy_wg tid block_size dst src size ↔ round_chunk tid c ∨ c ∈ tail.
Proof.
  intros Ht. unfold memcpy_wg.
  pose proof (wg_round_spec tid 8 (mkWg dst src dst src size)) as H8.
  destruct (wg_round tid block_size 8 _) as [cs8 w8].
  destruct H8 as (K8 & S8 & C8 & B8); [lia|done|unfold wg_ok; cbn; lia|]. cbn in S8, C8, B8.
  pose proof (wg_round_spec tid 4 w8) as H4.
  destruct (wg_round tid block_size 4 _) as [cs4 w4].
  destruct H4 as (K4 & S4 & C4 & B4); [lia|done|done|].
  pose proof (wg_round_spec tid 2 w4) as H2.
  destruct (wg_round tid block_size 2 _) as [cs2 w2].
  destruct H2 as (K2 & S2 & C2 & B2); [lia|done|done|].
  destruct K8 as (D8 & E8 & F8 & N8), K4 as (D4 & E4 & F4 & N4), K2 as (D2 & E2 & F2 & N2).
  rewrite S8 in *. rewrite S4 in *.
  exists (if (w_size w2 =? 1) && (tid =? 0)
          then [mkChunk (w_dst_bytes w2) (w_src_bytes w2) 1] else []).
  split.
  - unfold tail_ok. destruct (decide (size `mod` 2 = 1 ∧ tid = 0)) as [[Hodd ->]|Hn].
    + rewrite S2, (proj2 (Z.eqb_eq _ _)) by div_lia.
      exists (w_dst_bytes w2). split.
      * do 2 f_equal. destruct B2 as [(->&->&_)|(?&_&->&->)]; [|lia].
        destruct B4 as [(->&->&_)|(?&_&->&->)]; [|lia].
        destruct B8 as [(->&->&_)|(?&_&->&->)]; lia.
      * destruct B2 as [(->&_&?)|(?&?&->&_)]; [|div_lia].
        destruct B4 as [(->&_&?)|(?&?&->&_)]; [|div_lia].
        destruct B8 as [(->&_&?)|(?&?&->&_)]; div_lia.
    + destruct (Z.eqb_spec (w_size w2) 1), (Z.eqb_spec tid 0); try done.
      destruct Hn. split; [|done]. div_lia.
  - assert (w_dst_def w8 = dst + size - size `mod` 8) as G8 by lia.
    assert (w_dst_def w4 = dst + size - size `mod` 8 `mod` 4) as G4 by lia.
    rewrite E8, G8 in C4. rewrite E4, G4 in C2.
    intros c. rewrite !elem_of_app, C8, C4, C2. unfold round_chunk, rounds. split.
    + intros [(k&?&?&->)|[(k&?&?&->)|[(k&?&?&->)|?]]]; [left..|by right].
      * exists 8, dst, (size / 8), k. split; [by left|]. do 2 (split; [done|]). f_equal; lia.
      * eexists 4, _, _, k. split; [by right; left|]. do 2 (split; [done|]). f_equal; lia.
      * eexists 2, _, _, k. split; [by right; right; left|]. do 2 (split; [done|]). f_equal; lia.
    + intros [(j&base&n&k&Hr&?&?&->)|?]; [|tauto].
      rewrite !elem_of_cons, elem_of_nil in Hr.
      destruct Hr as [[= -> -> ->]|[[= -> -> ->]|[[= -> -> ->]|[]]]].
      * left. exists k. do 2 (split; [done|]). f_equal; lia.
      * right; left. exists k. do 2 (split; [done|]). f_equal; lia.
      * right; right; left. exists k. do 2 (split; [done|]). f_equal; lia.
Qed.

(** Every store of the rounds is a part of the copy, below the last byte of
    an odd size. *)
Lemma round_chunk_aligned tid c :
  round_chunk tid c → aligned dst src size c ∧ c_dst c + c_len c ≤ dst + size - size `mod` 2.
Proof.
  intros (j & base & n & k & Hr & Hk & _ & ->). unfold rounds in Hr.
  rewrite !elem_of_cons, elem_of_nil in Hr. unfold aligned. cbn.
  destruct Hr as [[= -> -> ->]|[[= -> -> ->]|[[= -> -> ->]|[]]]];
    div_lia.
Qed.

(** The rounds of all the threads cover all but the last byte of an odd size. *)
Lemma rounds_cover a :
  dst ≤ a < dst + size - size `mod` 2 →
  ∃ tid c, 0 ≤ tid < block_size ∧ round_chunk tid c ∧ in_chunk a c.
Proof.
  intros Ha.
  assert (∃ j base n, (j, base, n) ∈ rounds ∧ 0 < j ∧ base ≤ a < base + n * j)
    as (j & base & n & Hr & Hj & Hb).
  { destruct (decide (a < dst + size - size `mod` 8)); [|
      destruct (decide (a < dst + size - size `mod` 8 `mod` 4))].
    - eexists 8, _, _. split; [by left|]. div_lia.
    - eexists 4, _, _. split; [by right; left|]. div_lia.
    - eexists 2, _, _. split; [by right; right; left|]. div_lia. }
  pose proof (Z.div_mod (a - base) j ltac:(lia)). pose proof (Z.mod_pos_bound (a - base) j Hj).
  set (k := (a - base) / j) in *.
  exists (k `mod` block_size), (mkChunk (base + k * j) (src + (base + k * j - dst)) j).
  split; [by apply Z.mod_pos_bound|]. split; [|unfold in_chunk; cbn; lia].
  exists j, base, n, k. split; [done|]. split; [|done]. nia.
Qed.
End memcpy_wg.

(** [memcpy_wg]: when the threads of a block make their stores in any
    interleaving, an even number of bytes (or one byte) is copied exactly. *)
Theorem memcpy_wg_correct m block_size dst src size cs :
  0 < block_size → 0 ≤ size < 2 ^ 31 → apart dst src size →
  size `mod` 2 = 0 ∨ size = 1 → cs ≡ₚ memcpy_wg_all block_size dst src size →
  copied m dst src size (run_chunks m cs).
Proof.
  intros Hbs Hsz Hap Hev Hp. apply run_covering; [done| |].
  - rewrite Hp. apply Forall_forall. intros c (tid & Ht & Hc)%elem_of_wg_all.
    destruct (memcpy_wg_thread dst src size block_size Hsz tid Ht) as (tail & Htail & Hin).
    pose proof (proj1 (Hin c) Hc) as [Hr|Ht']; [by apply (round_chunk_aligned dst src size block_size Hsz) in Hr as [? _]|].
    clear Hc. rename Ht' into Hc.
    unfold tail_ok in Htail. case_decide as Hd; [|subst; by apply not_elem_of_nil in Hc].
    destruct Htail as (db & -> & Hdb). apply list_elem_of_singleton in Hc as ->.
    unfold aligned. cbn. lia.
  - intros a Ha. unfold covered. rewrite Hp. apply Exists_exists.
    destruct (decide (a < dst + size - size `mod` 2)).
    + destruct (rounds_cover dst src size block_size Hsz Hbs a) as (tid & c & Ht & Hc & Hac); [lia|].
      exists c. split; [|done]. apply elem_of_wg_all. exists tid. split; [done|].
      destruct (memcpy_wg_thread dst src size block_size Hsz tid Ht) as (tail & _ & Hin).
      apply Hin. by left.
    + destruct Hev as [Hev| ->]; [lia|].
      destruct (memcpy_wg_thread dst src 1 block_size Hsz 0 ltac:(lia)) as (tail & Htail & Hin).
      unfold tail_ok in Htail. rewrite decide_True in Htail by done.
      destruct Htail as (db & -> & Hdb). exists (mkChunk db (src + (db - dst)) 1).
      split; [|unfold in_chunk; cbn; lia]. apply elem_of_wg_all. exists 0. split; [lia|].
      apply Hin. right. by apply list_elem_of_singleton.
Qed.

Lemma memcpy_wg_correct_witness :
  copied (λ a, a) 1000 2000 14 (run_chunks (λ a, a) (memcpy_wg_all 3 1000 2000 14)).
Proof. apply (memcpy_wg_correct _ 3 1000 2000 14); [lia|lia|unfold apart; lia|by left|reflexivity]. Defined.

(** Of an odd number of bytes greater than one, [memcpy_wg] leaves the last
    one uncopied: the thread that stores it uses the pointers of its last
    round instead of the end of the copied part. *)
Theorem memcpy_wg_odd m block_size dst src size cs :
  0 < block_size → 1 < size < 2 ^ 31 → apart dst src size → size `mod` 2 = 1 →
  cs ≡ₚ memcpy_wg_all block_size dst src size →
  run_chunks m cs (dst + size - 1) = m (dst + size - 1).
Proof.
  intros Hbs Hsz Hap Hodd Hp.
  assert (∀ c, c ∈ cs → aligned dst src size c ∧ c_dst c + c_len c ≤ dst + size - 1) as Hall.
  { intros c. rewrite Hp. intros (tid & Ht & Hc)%elem_of_wg_all.
    destruct (memcpy_wg_thread dst src size block_size ltac:(lia) tid Ht) as (tail & Htail & Hin).
    pose proof (proj1 (Hin c) Hc) as [Hr|Ht'].
    { apply (round_chunk_aligned dst src size block_size) in Hr; [|lia]. split; [apply Hr|lia]. }
    clear Hc. rename Ht' into Hc.
    unfold tail_ok in Htail. case_decide as Hd; [|subst; by apply not_elem_of_nil in Hc].
    destruct Htail as (db & -> & Hdb). apply list_elem_of_singleton in Hc as ->.
    unfold aligned. cbn. lia. }
  rewrite (run_aligned dst src size).
  - rewrite decide_False; [done|]. intros (c & Hc & Hin)%Exists_exists.
    destruct (Hall c Hc). unfold in_chunk in Hin. lia.
  - done.
  - apply Forall_forall. intros c Hc. by apply Hall.
Qed.

Lemma memcpy_wg_odd_witness :
  run_chunks (λ a, a) (memcpy_wg_all 64 1000 2000 3) (1000 + 3 - 1) = 1000 + 3 - 1.
Proof. apply (memcpy_wg_odd (λ a, a) 64 1000 2000 3); [lia|lia|unfold apart; lia|reflexivity|reflexivity]. Defined.

(** ** [memcpy_wave] *)

(** The stores do not depend on where the copy is. *)
Definition move_chunk (d s : Z) (c : chunk) : chunk := mkChunk (d + c_dst c) (s + c_src c) (c_len c).
Definition move_cursor (d s : Z) (c : cursor) : cursor :=
  mkCursor (d + dst_bytes c) (s + src_bytes c) (size_left c).

Lemma store_asm_move d s a b j :
  store_asm (s + a) (d + b) j = move_chunk d s <$> store_asm a b j.
Proof. unfold store_asm. by destruct (_ || _). Qed.

Lemma wave_inner_move d s fuel i j n c :
  wave_inner fuel i j n (move_cursor d s c) =
  (move_chunk d s <$> (wave_inner fuel i j n c).1, move_cursor d s (wave_inner fuel i j n c).2).
Proof.
  revert i c. induction fuel as [|f IH]; intros i c; [done|].
  cbn [wave_inner move_cursor dst_bytes src_bytes size_left].
  destruct (i <? n); [|done].
  rewrite <- !Z.add_assoc.
  specialize (IH (i + 64) (mkCursor (dst_bytes c + s32 (i * j)) (src_bytes c + s32 (i * j))
    (u64 (size_left c - s32 (n * j))))). 
  unfold move_cursor in IH at 1. cbn [dst_bytes src_bytes size_left] in IH. rewrite IH. clear IH.
  destruct (wave_inner _ _ _ _ _) as [cs c']. cbn [fst snd]. by rewrite store_asm_move, fmap_app.
Qed.

Lemma memcpy_wave_move tid d s size :
  memcpy_wave tid d s size = move_chunk d s <$> memcpy_wave tid 0 0 size.
Proof.
  unfold memcpy_wave, wave_round.
  replace (mkCursor d s size) with (move_cursor d s (mkCursor 0 0 size))
    by (unfold move_cursor; cbn; f_equal; lia).
  cbn [move_cursor size_left]. rewrite wave_inner_move.
  destruct (wave_inner _ _ 8 _ _) as [cs8 c8]. cbn [fst snd move_cursor size_left].
  rewrite (wave_inner_move d s _ tid 4 _ c8).
  destruct (wave_inner _ _ 4 _ _) as [cs4 c4]. cbn [fst snd move_cursor size_left].
  rewrite (wave_inner_move d s _ tid 2 _ c4).
  destruct (wave_inner _ _ 2 _ _) as [cs2 c2]. cbn [fst snd move_cursor size_left].
  rewrite !fmap_app. do 3 f_equal. by case_if.
Qed.

Lemma forallb_seqZ (f : Z → bool) a n k :
  forallb f (seqZ a n) = true → a ≤ k < a + n → f k = true.
Proof. rewrite forallb_forall. intros H Hk. by apply H, list_elem_of_In, elem_of_seqZ. Qed.

(** A store inside the first eight bytes. *)
Definition in_first_word (c : chunk) : bool := (c_dst c =? 0) && (c_len c <=? 8).

(** All threads and all sizes, by evaluation. *)
Definition wave_short_one (n tid : Z) : bool :=
  forallb in_first_word (memcpy_wave tid 0 0 (8 * n)).
Definition wave_short_size (n : Z) : bool := forallb (wave_short_one n) (seqZ 0 64).

Lemma wave_short_checked : forallb wave_short_size (seqZ 2 63) = true.
Proof. by vm_compute. Qed.

(** [memcpy_wave] by the 64 threads of a wavefront writes nothing beyond the
    first eight bytes of any copy of 16, 24, ... or 512 bytes. *)
Theorem memcpy_wave_short n tid dst src c :
  2 ≤ n ≤ 64 → 0 ≤ tid < 64 → c ∈ memcpy_wave tid dst src (8 * n) →
  c_dst c = dst ∧ c_len c ≤ 8.
Proof.
  intros Hn Ht. rewrite memcpy_wave_move, list_elem_of_fmap. intros (c0 & -> & Hc0).
  pose proof (forallb_seqZ _ _ _ n wave_short_checked ltac:(lia)) as Hsize.
  pose proof (forallb_seqZ (wave_short_one n) _ _ tid Hsize ltac:(lia)) as Hone.
  unfold wave_short_one in Hone. rewrite forallb_forall in Hone.
  specialize (Hone c0 (proj1 (list_elem_of_In _ _) Hc0)).
  unfold in_first_word in Hone. rewrite andb_true_iff, Z.eqb_eq, Z.leb_le in Hone. cbn. lia.
Qed.

Lemma memcpy_wave_short_witness :
  let c := mkChunk 1000 2000 8 in
  c ∈ memcpy_wave 1 1000 2000 (8 * 2) ∧ c_dst c = 1000 ∧ c_len c ≤ 8.
Proof.
  assert (mkChunk 1000 2000 8 ∈ memcpy_wave 1 1000 2000 (8 * 2)) as Hc by (vm_compute; left).
  split; [exact Hc|]. apply (memcpy_wave_short 2 1 1000 2000); [lia|lia|exact Hc].
Defined.
