(* ===== verification/MPITransport.v ===== *)
(** * The MPI transport

    [reverse_offload/mpi_transport.cpp]: the host side of reverse offload.  It
    takes commands from the queue, issues the MPI operations they stand for,
    tracks the requests in flight per work-group, and tells waiting GPU threads
    when their operation or a quiet is complete.  MPI itself is outside the
    program: a call is recorded in a log, and what it returns comes from an
    environment. *)
From S2P Require Import Prelude Heap ROQueue.

Local Open Scope Z_scope.

(** ** MPI calls *)

(** [MPI_Op] and [MPI_Datatype] values that the transport uses. *)
Inductive MPI_Op := MPI_SUM | MPI_MAX | MPI_MIN | MPI_PROD | MPI_BAND | MPI_BOR | MPI_BXOR.
Inductive MPI_Datatype :=
  | MPI_CHAR | MPI_FLOAT | MPI_DOUBLE | MPI_INT | MPI_LONG | MPI_LONG_LONG
  | MPI_SHORT | MPI_LONG_DOUBLE.

(** The calls, with the arguments that matter; [wg] names the window.
    [CInline_buffer] is the [malloc] and [memcpy] of an inline value and
    [CHdp_flush] the flush of the HDP cache, in their place among the calls. *)
Inductive mpi_call :=
  | CRput (src count : Z) (ty : MPI_Datatype) (pe disp wg : Z)
  | CPut (src count : Z) (ty : MPI_Datatype) (pe disp wg : Z)
  | CRget (dst count : Z) (ty : MPI_Datatype) (pe disp wg : Z)
  | CFetch_and_op (val res pe disp : Z) (op : MPI_Op) (wg : Z)
  | CCompare_and_swap (val cond res pe disp wg : Z)
  | CWin_flush_all (wg : Z)
  | CWin_flush (pe wg : Z)
  | CWin_flush_local (pe wg : Z)
  | CIallreduce (in_place : bool) (src dst count : Z) (ty : MPI_Datatype) (op : MPI_Op) (comm : Z)
  | CIbcast (data count : Z) (ty : MPI_Datatype) (root comm : Z)
  | CIbarrier (comm : Z)
  | CBarrier (comm : Z)
  | CAlltoall (src count : Z) (ty : MPI_Datatype) (dst comm : Z)
  | CAllgather (src count : Z) (ty : MPI_Datatype) (dst comm : Z)
  | CWaitall (n : Z)
  | CComm_dup
  | CComm_create_group (ranks : list Z)
  | CInline_buffer (buf size value : Z)
  | CHdp_flush.

(** ** State *)

(** [struct RequestProperties]. *)
Record RequestProperties := mkProps {
  rp_threadId : Z;
  rp_wgId : Z;
  rp_blocking : bool;
  rp_src : Z;
  rp_inline_data : bool
}.

(** [class MPITransport]: the two queues of commands, the vectors of requests
    in flight and of their properties, the counters and waiting lists per
    work-group, the cache of communicators, and the status bytes of the queue
    descriptors ([true] is 1).  [freed] are the inline buffers given back. *)
Record transport := mkT {
  q : list queue_element;
  q_wgid : list Z;
  req_vec : list Z;
  req_prop_vec : list RequestProperties;
  outstanding : list Z;
  waiting_quiet : list (list Z);
  comm_map : gmap (Z * Z * Z) Z;
  status : gmap (Z * Z) bool;
  hostBarrierDone : bool;
  log : list mpi_call;
  freed : list Z
}.

(** What MPI and the system decide: the world communicator and its size, the
    rank and size in a communicator, the world ranks of a communicator's
    members, the size of a data type, the handles of new requests,
    communicators and buffers (by the number of calls made so far), and the
    windows and MPI address functions behind [get_offset]. *)
Record env := mkEnv {
  ro_net_comm_world : Z;
  e_world_size : Z;
  comm_rank : Z → Z;
  comm_size : Z → Z;
  comm_world_ranks : Z → list Z;
  type_size : MPI_Datatype → Z;
  new_request : nat → Z;
  new_comm : nat → Z;
  new_buffer : nat → Z;
  gpu_queue : bool;
  heap_window_info : Z → WindowInfo;
  e_get_address : Z → Z;
  e_aint_diff : Z → Z → Z
}.

Definition initTransport (num_queues : nat) : transport :=
  mkT [] [] [] [] (replicate num_queues 0) (replicate num_queues []) ∅ ∅ false [] [].

(** ** Small operations on the state *)

Definition set_q (t : transport) (l : list queue_element) (w : list Z) : transport :=
  mkT l w (req_vec t) (req_prop_vec t) (outstanding t) (waiting_quiet t) (comm_map t)
      (status t) (hostBarrierDone t) (log t) (freed t).

Definition set_reqs (t : transport) (rv : list Z) (pv : list RequestProperties) : transport :=
  mkT (q t) (q_wgid t) rv pv (outstanding t) (waiting_quiet t) (comm_map t)
      (status t) (hostBarrierDone t) (log t) (freed t).

Definition set_outstanding (t : transport) (o : list Z) : transport :=
  mkT (q t) (q_wgid t) (req_vec t) (req_prop_vec t) o (waiting_quiet t) (comm_map t)
      (status t) (hostBarrierDone t) (log t) (freed t).

Definition set_waiting (t : transport) (w : list (list Z)) : transport :=
  mkT (q t) (q_wgid t) (req_vec t) (req_prop_vec t) (outstanding t) w (comm_map t)
      (status t) (hostBarrierDone t) (log t) (freed t).

Definition set_comm_map (t : transport) (m : gmap (Z * Z * Z) Z) : transport :=
  mkT (q t) (q_wgid t) (req_vec t) (req_prop_vec t) (outstanding t) (waiting_quiet t) m
      (status t) (hostBarrierDone t) (log t) (freed t).

(** [queue_descs[wg].status[threadId] = 1]. *)
Definition set_status (t : transport) (wg threadId : Z) : transport :=
  mkT (q t) (q_wgid t) (req_vec t) (req_prop_vec t) (outstanding t) (waiting_quiet t)
      (comm_map t) (<[(wg, threadId) := true]> (status t)) (hostBarrierDone t) (log t) (freed t).

Definition set_hostBarrierDone (t : transport) : transport :=
  mkT (q t) (q_wgid t) (req_vec t) (req_prop_vec t) (outstanding t) (waiting_quiet t)
      (comm_map t) (status t) true (log t) (freed t).

Definition emit (t : transport) (c : mpi_call) : transport :=
  mkT (q t) (q_wgid t) (req_vec t) (req_prop_vec t) (outstanding t) (waiting_quiet t)
      (comm_map t) (status t) (hostBarrierDone t) (log t ++ [c]) (freed t).

Definition give_back (t : transport) (buf : Z) : transport :=
  mkT (q t) (q_wgid t) (req_vec t) (req_prop_vec t) (outstanding t) (waiting_quiet t)
      (comm_map t) (status t) (hostBarrierDone t) (log t) (freed t ++ [buf]).

(** An index of a [std::vector]; a negative one is out of range. *)
Definition vec_at {A} (l : list A) (i : Z) : result A :=
  if i <? 0 then Fail BadAccess else must (l !! Z.to_nat i).

Lemma vec_at_lookup {A} (l : list A) i x : l !! i = Some x → vec_at l (Z.of_nat i) = Ok x.
Proof.
  intros Hx. unfold vec_at. rewrite (proj2 (Z.ltb_ge _ 0)) by lia. by rewrite Nat2Z.id, Hx.
Qed.

Lemma vec_at_Z {A} (l : list A) i x : 0 ≤ i → l !! Z.to_nat i = Some x → vec_at l i = Ok x.
Proof. intros Hi Hx. rewrite <- (Z2Nat.id i) by done. by apply vec_at_lookup. Qed.

Lemma vec_at_inv {A} (l : list A) i x :
  vec_at l i = Ok x → ∃ w, i = Z.of_nat w ∧ l !! w = Some x.
Proof.
  unfold vec_at. destruct (Z.ltb_spec i 0); [done|]. intros Hx. exists (Z.to_nat i).
  split; [lia|]. by destruct (l !! Z.to_nat i); simplify_eq/=.
Qed.

(** [outstanding[wg] += d]. *)
Definition add_outstanding (t : transport) (wg d : Z) : result transport :=
  n ← vec_at (outstanding t) wg;
  Ok (set_outstanding t (<[Z.to_nat wg := n + d]> (outstanding t))).

Section transport.
Context (E : env).

(** The tail shared by the operations that start a request: append the
    properties and the request and count it. *)
Definition add_request (t : transport) (threadId wg_id : Z) (blocking : bool)
    (src : Z) (inline_data : bool) : result transport :=
  let request := new_request E (length (log t)) in
  add_outstanding
    (set_reqs t (req_vec t ++ [request])
       (req_prop_vec t ++ [mkProps threadId wg_id blocking src inline_data])) wg_id 1.

Definition offset (wg_id addr : Z) : result Z :=
  get_offset (e_get_address E) (e_aint_diff E) (heap_window_info E wg_id) addr.

(** [if (gpu_queue) hdp_flush()] and its negation. *)
Definition hdp_flush_if (b : bool) (t : transport) : transport :=
  if b then emit t CHdp_flush else t.

(** ** Operations *)

(** [MPITransport::insertRequest]. *)
Definition insertRequest (t : transport) (element : queue_element) (queue_id : Z) : transport :=
  set_q t (q t ++ [element]) (q_wgid t ++ [queue_id]).

(** [MPITransport::quiet]. *)
Definition quiet (t : transport) (wg_id threadId : Z) : result transport :=
  n ← vec_at (outstanding t) wg_id;
  if n =? 0 then Ok (set_status t wg_id threadId)
  else
    w ← vec_at (waiting_quiet t) wg_id;
    Ok (set_waiting t (<[Z.to_nat wg_id := w ++ [threadId]]> (waiting_quiet t))).

(** [MPITransport::barrier]. *)
Definition barrier (t : transport) (wg_id threadId : Z) (blocking : bool) (team : Z)
    : result transport :=
  add_request (emit t (CIbarrier team)) threadId wg_id blocking nullptr false.

(** [MPITransport::get_mpi_op]. *)
Definition get_mpi_op (op : ROC_SHMEM_OP) : MPI_Op :=
  match op with
  | ROC_SHMEM_SUM => MPI_SUM
  | ROC_SHMEM_MAX => MPI_MAX
  | ROC_SHMEM_MIN => MPI_MIN
  | ROC_SHMEM_PROD => MPI_PROD
  | ROC_SHMEM_AND => MPI_BAND
  | ROC_SHMEM_OR => MPI_BOR
  | ROC_SHMEM_XOR => MPI_BXOR
  end.

(** [convertType]. *)
Definition convertType (type : ro_net_types) : result MPI_Datatype :=
  match type with
  | RO_NET_FLOAT => Ok MPI_FLOAT
  | RO_NET_DOUBLE => Ok MPI_DOUBLE
  | RO_NET_INT => Ok MPI_INT
  | RO_NET_LONG => Ok MPI_LONG
  | RO_NET_LONG_LONG => Ok MPI_LONG_LONG
  | RO_NET_SHORT => Ok MPI_SHORT
  | RO_NET_LONG_DOUBLE => Ok MPI_LONG_DOUBLE
  | RO_NET_CHAR => Fail (ExitProgram 1)
  end.

(** The ranks [start, start + stride, ...] of [createComm]. *)
Fixpoint group_ranks (n : nat) (start stride : Z) : list Z :=
  match n with
  | O => []
  | S n' => start :: group_ranks n' (s32 (start + stride)) stride
  end.

(** [MPITransport::createComm]. *)
Definition createComm (t : transport) (start stride size : Z) : Z * transport :=
  let key := (start, stride, size) in
  match comm_map t !! key with
  | Some comm => (comm, t)
  | None =>
      let c :=
        if (start =? 0) && (stride =? 1) && (size =? e_world_size E)
        then CComm_dup else CComm_create_group (group_ranks (Z.to_nat size) start stride) in
      let comm := new_comm E (length (log t)) in
      (comm, set_comm_map (emit t c) (<[key := comm]> (comm_map t)))
  end.

(** [MPITransport::team_reduction]. *)
Definition team_reduction (t : transport) (dst src size wg_id team : Z) (op : ROC_SHMEM_OP)
    (type : ro_net_types) (threadId : Z) (blocking : bool) : result transport :=
  let mpi_op := get_mpi_op op in
  mpi_type ← convertType type;
  let t := emit t (CIallreduce (dst =? src) src dst size mpi_type mpi_op team) in
  add_request t threadId wg_id blocking nullptr false.

(** [MPITransport::reduction]. *)
Definition reduction (t : transport) (dst src size pe wg_id start logPstride sizePE : Z)
    (op : ROC_SHMEM_OP) (type : ro_net_types) (threadId : Z) (blocking : bool)
    : result transport :=
  let mpi_op := get_mpi_op op in
  mpi_type ← convertType type;
  let '(comm, t) := createComm t start (s32 (Z.shiftl 1 logPstride)) sizePE in
  let t := emit t (CIallreduce (dst =? src) src dst size mpi_type mpi_op comm) in
  add_request t threadId wg_id blocking nullptr false.

(** [MPITransport::team_broadcast]. *)
Definition team_broadcast (t : transport) (dst src size wg_id team root : Z)
    (type : ro_net_types) (threadId : Z) (blocking : bool) : result transport :=
  let new_rank := comm_rank E team in
  let data := if new_rank =? root then src else dst in
  mpi_type ← convertType type;
  let t := emit t (CIbcast data size mpi_type root team) in
  add_request t threadId wg_id blocking nullptr false.

(** [MPITransport::broadcast]. *)
Definition broadcast (t : transport) (dst src size pe wg_id start logPstride sizePE root : Z)
    (type : ro_net_types) (threadId : Z) (blocking : bool) : result transport :=
  let '(comm, t) := createComm t start (s32 (Z.shiftl 1 logPstride)) sizePE in
  let new_rank := comm_rank E comm in
  let data := if new_rank =? root then src else dst in
  mpi_type ← convertType type;
  let t := emit t (CIbcast data size mpi_type root comm) in
  add_request t threadId wg_id blocking nullptr false.

(** [MPITransport::putMem]. *)
Definition putMem (t : transport) (dst src size pe wg_id threadId : Z)
    (blocking inline_data : bool) : result transport :=
  let t := hdp_flush_if (negb (gpu_queue E)) t in
  off ← offset wg_id dst;
  let t := emit t (CRput src size MPI_CHAR pe off wg_id) in
  let t := emit t (CWin_flush_all wg_id) in
  add_request t threadId wg_id blocking src inline_data.

(** [MPITransport::getMem]. *)
Definition getMem (t : transport) (dst src size pe wg_id threadId : Z) (blocking : bool)
    : result transport :=
  t ← add_outstanding t wg_id 1;
  off ← offset wg_id src;
  let t := emit t (CRget dst size MPI_CHAR pe off wg_id) in
  Ok (set_reqs t (req_vec t ++ [new_request E (length (log t))])
        (req_prop_vec t ++ [mkProps threadId wg_id blocking nullptr false])).

(** [MPITransport::amoFOP]. *)
Definition amoFOP (t : transport) (dst src val pe wg_id threadId : Z) (op : ROC_SHMEM_OP)
    : result transport :=
  let t := hdp_flush_if (negb (gpu_queue E)) t in
  off ← offset wg_id dst;
  let t := emit t (CFetch_and_op val src pe off (get_mpi_op op) wg_id) in
  let t := emit t (CWin_flush_local pe wg_id) in
  Ok (hdp_flush_if (gpu_queue E) (set_status t wg_id threadId)).

(** [MPITransport::amoFCAS]. *)
Definition amoFCAS (t : transport) (dst src val pe wg_id threadId cond : Z)
    : result transport :=
  let t := hdp_flush_if (negb (gpu_queue E)) t in
  off ← offset wg_id dst;
  let t := emit t (CCompare_and_swap val cond src pe off wg_id) in
  let t := emit t (CWin_flush_local pe wg_id) in
  Ok (hdp_flush_if (gpu_queue E) (set_status t wg_id threadId)).
End transport.

(** ** Collectives built on one-sided communication *)

Definition imul (a b : Z) : Z := s32 (a * b).

(** [for (int i = 0; i < n; ++i) body(i)]. *)
Fixpoint for_range (n : nat) (i : Z) (body : Z → transport → result transport)
    (t : transport) : result transport :=
  match n with
  | O => Ok t
  | S n' => t' ← body i t; for_range n' (i + 1) body t'
  end.

Definition MAX_ATA_BUFF_SIZE : Z := 1024 * 1024 * 128.

(** The clusters of the GPU-centric algorithms: their number and size. *)
Definition num_clust (pe_size : Z) : Z := Z.sqrt pe_size.
Definition clust_size (pe_size : Z) : Z :=
  Z.quot (pe_size + num_clust pe_size - 1) (num_clust pe_size).

(** Which block of which member goes where, in units of blocks (lines 849-877,
    948-982): in step 1 block [i] of the buffer is fetched from member
    [gcen_peer1] at its source block [gcen_src1]; in step 2 the blocks from
    [gcen_src2] on go to member [gcen_peer2] at destination block [gcen_dst2]. *)
Definition gcen_peer1 (cs me i : Z) : Z := Z.quot me cs * cs + Z.rem i cs.
Definition gcen_src1 (cs me i : Z) : Z := Z.rem me cs + Z.quot i cs * cs.
Definition gcen_peer2 (cs me i : Z) : Z := Z.rem me cs + i * cs.
Definition gcen_src2 (cs i : Z) : Z := i * cs.
Definition gcen_dst2 (cs me : Z) : Z := Z.quot me cs * cs.

Section collectives.
Context (E : env).

(** [MPITransport::alltoall_broadcast]. *)
Definition alltoall_broadcast (t : transport) (dst src size wg_id team ata : Z)
    (type : ro_net_types) (threadId : Z) (blocking : bool) : result transport :=
  mpi_type ← convertType type;
  let new_rank := comm_rank E team in
  let pe_size := comm_size E team in
  let world_ranks := comm_world_ranks E team in
  let ts := type_size E mpi_type in
  t ← for_range (Z.to_nat pe_size) 0 (λ i t,
        let src_offset := imul (imul i ts) size in
        let dst_offset := imul (imul new_rank ts) size in
        pe ← vec_at world_ranks i;
        off ← offset E wg_id (dst + dst_offset);
        Ok (emit t (CRput (src + src_offset) size mpi_type pe off wg_id))) t;
  let t := emit t (CWaitall pe_size) in
  let t := emit t (CWin_flush_all wg_id) in
  barrier E t wg_id threadId blocking team.

(** [MPITransport::alltoall_mpi]. *)
Definition alltoall_mpi (t : transport) (dst src size wg_id team ata : Z)
    (type : ro_net_types) (threadId : Z) (blocking : bool) : result transport :=
  mpi_type ← convertType type;
  let t := emit t (CAlltoall src size mpi_type dst team) in
  quiet t wg_id threadId.

(** Step 1 of [alltoall_gcen] and [alltoall_gcen2]. *)
Definition alltoall_step1 (t : transport) (src size wg_id ata : Z) (mpi_type : MPI_Datatype)
    (world_ranks : list Z) (cs me pe_size : Z) : result transport :=
  let ts := type_size E mpi_type in
  t ← for_range (Z.to_nat pe_size) 0 (λ i t,
        let src_offset := imul (imul (gcen_src1 cs me i) ts) size in
        let dst_offset := imul (imul i ts) size in
        pe ← vec_at world_ranks (gcen_peer1 cs me i);
        off ← offset E wg_id (src + src_offset);
        Ok (emit t (CRget (ata + dst_offset) size mpi_type pe off wg_id))) t;
  Ok (emit t (CWaitall pe_size)).

(** Step 2 of [alltoall_gcen] and [alltoall_gcen2]: the offset of the
    destination's start, then the displacement of the cluster. *)
Definition alltoall_step2 (t : transport) (dst size wg_id ata : Z) (mpi_type : MPI_Datatype)
    (world_ranks : list Z) (cs me nc : Z) : result transport :=
  let ts := type_size E mpi_type in
  for_range (Z.to_nat nc) 0 (λ i t,
    let src_offset := imul (imul (imul i ts) size) cs in
    let dst_offset := imul (imul (imul (Z.quot me cs) ts) size) cs in
    pe ← vec_at world_ranks (gcen_peer2 cs me i);
    off ← offset E wg_id dst;
    let t := emit t (CPut (ata + src_offset) (imul size cs) mpi_type pe (off + dst_offset) wg_id) in
    Ok (emit t (CWin_flush pe wg_id))) t.

(** The communicators of the cluster and of the ring, and the barriers. *)
Definition cluster_comm (t : transport) (world_ranks : list Z) (cs me : Z)
    : result (Z * transport) :=
  w1 ← vec_at world_ranks 1;
  w0 ← vec_at world_ranks 0;
  first ← vec_at world_ranks (Z.quot me cs * cs);
  Ok (createComm E t first (s32 (w1 - w0)) cs).

Definition ring_comm (t : transport) (world_ranks : list Z) (cs me nc : Z)
    : result (Z * transport) :=
  w1 ← vec_at world_ranks 1;
  w0 ← vec_at world_ranks 0;
  first ← vec_at world_ranks (Z.rem me cs);
  Ok (createComm E t first (imul (s32 (w1 - w0)) cs) nc).

(** The checks before the GPU-centric algorithms start. *)
Definition gcen_guard (pe_size ts size : Z) : result unit :=
  _ ← assert_ (num_clust pe_size * clust_size pe_size =? pe_size);
  if MAX_ATA_BUFF_SIZE <? imul (imul ts size) pe_size then Fail (ExitProgram (-1)) else Ok tt.

(** [MPITransport::alltoall_gcen]. *)
Definition alltoall_gcen (t : transport) (dst src size wg_id team ata : Z)
    (type : ro_net_types) (threadId : Z) (blocking : bool) : result transport :=
  mpi_type ← convertType type;
  let me := comm_rank E team in
  let pe_size := comm_size E team in
  let world_ranks := comm_world_ranks E team in
  let cs := clust_size pe_size in
  let nc := num_clust pe_size in
  _ ← gcen_guard pe_size (type_size E mpi_type) size;
  t ← alltoall_step1 t src size wg_id ata mpi_type world_ranks cs me pe_size;
  t ← alltoall_step2 t dst size wg_id ata mpi_type world_ranks cs me nc;
  '(comm_cluster, t) ← cluster_comm t world_ranks cs me;
  '(comm_ring, t) ← ring_comm t world_ranks cs me nc;
  t ← barrier E t wg_id threadId false comm_cluster;
  barrier E t wg_id threadId blocking comm_ring.

(** [MPITransport::alltoall_gcen2]. *)
Definition alltoall_gcen2 (t : transport) (dst src size wg_id team ata : Z)
    (type : ro_net_types) (threadId : Z) (blocking : bool) : result transport :=
  mpi_type ← convertType type;
  let me := comm_rank E team in
  let pe_size := comm_size E team in
  let world_ranks := comm_world_ranks E team in
  let cs := clust_size pe_size in
  let nc := num_clust pe_size in
  _ ← gcen_guard pe_size (type_size E mpi_type) size;
  t ← alltoall_step1 t src size wg_id ata mpi_type world_ranks cs me pe_size;
  '(comm_cluster, t) ← cluster_comm t world_ranks cs me;
  let t := emit t (CBarrier comm_cluster) in
  t ← alltoall_step2 t dst size wg_id ata mpi_type world_ranks cs me nc;
  '(comm_ring, t) ← ring_comm t world_ranks cs me nc;
  barrier E t wg_id threadId blocking comm_ring.

(** [MPITransport::alltoall]. *)
Definition alltoall (t : transport) (dst src size wg_id team ata : Z)
    (type : ro_net_types) (threadId : Z) (blocking : bool) : result transport :=
  let pe_size := comm_size E team in
  mpi_type ← convertType type;
  let ts := type_size E mpi_type in
  if ((8 <=? pe_size) || (imul ts size <? 2048)) &&
     (num_clust pe_size * clust_size pe_size =? pe_size)
  then alltoall_gcen t dst src size wg_id team ata type threadId blocking
  else if size <=? 512
  then alltoall_mpi t dst src size wg_id team ata type threadId blocking
  else alltoall_broadcast t dst src size wg_id team ata type threadId blocking.

(** [MPITransport::fcollect_broadcast]. *)
Definition fcollect_broadcast (t : transport) (dst src size wg_id team ata : Z)
    (type : ro_net_types) (threadId : Z) (blocking : bool) : result transport :=
  mpi_type ← convertType type;
  let new_rank := comm_rank E team in
  let pe_size := comm_size E team in
  let world_ranks := comm_world_ranks E team in
  let ts := type_size E mpi_type in
  t ← for_range (Z.to_nat pe_size) 0 (λ i t,
        let dst_offset := imul (imul new_rank ts) size in
        pe ← vec_at world_ranks i;
        off ← offset E wg_id (dst + dst_offset);
        Ok (emit t (CRput src size mpi_type pe off wg_id))) t;
  let t := emit t (CWaitall pe_size) in
  let t := emit t (CWin_flush_all wg_id) in
  barrier E t wg_id threadId blocking team.

(** [MPITransport::fcollect_mpi]. *)
Definition fcollect_mpi (t : transport) (dst src size wg_id team ata : Z)
    (type : ro_net_types) (threadId : Z) (blocking : bool) : result transport :=
  mpi_type ← convertType type;
  let t := emit t (CAllgather src size mpi_type dst team) in
  quiet t wg_id threadId.

(** Step 1 of [fcollect_gcen] and [fcollect_gcen2]. *)
Definition fcollect_step1 (t : transport) (src size wg_id ata : Z) (mpi_type : MPI_Datatype)
    (world_ranks : list Z) (cs me : Z) : result transport :=
  let ts := type_size E mpi_type in
  t ← for_range (Z.to_nat cs) 0 (λ i t,
        let dst_offset := imul (imul i ts) size in
        pe ← vec_at world_ranks (gcen_peer1 cs me i);
        off ← offset E wg_id src;
        Ok (emit t (CRget (ata + dst_offset) size mpi_type pe off wg_id))) t;
  Ok (emit t (CWaitall cs)).

(** Step 2 of [fcollect_gcen] and [fcollect_gcen2]. *)
Definition fcollect_step2 (t : transport) (dst size wg_id ata : Z) (mpi_type : MPI_Datatype)
    (world_ranks : list Z) (cs me nc : Z) : result transport :=
  let ts := type_size E mpi_type in
  for_range (Z.to_nat nc) 0 (λ i t,
    let dst_offset := imul (imul (imul (Z.quot me cs) ts) size) cs in
    pe ← vec_at world_ranks (gcen_peer2 cs me i);
    off ← offset E wg_id (dst + dst_offset);
    let t := emit t (CPut ata (imul size cs) mpi_type pe off wg_id) in
    Ok (emit t (CWin_flush pe wg_id))) t.

(** [MPITransport::fcollect_gcen]. *)
Definition fcollect_gcen (t : transport) (dst src size wg_id team ata : Z)
    (type : ro_net_types) (threadId : Z) (blocking : bool) : result transport :=
  mpi_type ← convertType type;
  let me := comm_rank E team in
  let pe_size := comm_size E team in
  let world_ranks := comm_world_ranks E team in
  let cs := clust_size pe_size in
  let nc := num_clust pe_size in
  _ ← gcen_guard pe_size (type_size E mpi_type) size;
  t ← fcollect_step1 t src size wg_id ata mpi_type world_ranks cs me;
  t ← fcollect_step2 t dst size wg_id ata mpi_type world_ranks cs me nc;
  '(comm_cluster, t) ← cluster_comm t world_ranks cs me;
  '(comm_ring, t) ← ring_comm t world_ranks cs me nc;
  t ← barrier E t wg_id threadId false comm_cluster;
  barrier E t wg_id threadId blocking comm_ring.

(** [MPITransport::fcollect_gcen2]. *)
Definition fcollect_gcen2 (t : transport) (dst src size wg_id team ata : Z)
    (type : ro_net_types) (threadId : Z) (blocking : bool) : result transport :=
  mpi_type ← convertType type;
  let me := comm_rank E team in
  let pe_size := comm_size E team in
  let world_ranks := comm_world_ranks E team in
  let cs := clust_size pe_size in
  let nc := num_clust pe_size in
  _ ← gcen_guard pe_size (type_size E mpi_type) size;
  t ← fcollect_step1 t src size wg_id ata mpi_type world_ranks cs me;
  '(comm_cluster, t) ← cluster_comm t world_ranks cs me;
  let t := emit t (CBarrier comm_cluster) in
  t ← fcollect_step2 t dst size wg_id ata mpi_type world_ranks cs me nc;
  '(comm_ring, t) ← ring_comm t world_ranks cs me nc;
  barrier E t wg_id threadId blocking comm_ring.

(** [MPITransport::fcollect]. *)
Definition fcollect (t : transport) (dst src size wg_id team ata : Z)
    (type : ro_net_types) (threadId : Z) (blocking : bool) : result transport :=
  let pe_size := comm_size E team in
  mpi_type ← convertType type;
  if size <=? 512
  then fcollect_mpi t dst src size wg_id team ata type threadId blocking
  else if num_clust pe_size * clust_size pe_size =? pe_size
  then fcollect_gcen t dst src size wg_id team ata type threadId blocking
  else fcollect_broadcast t dst src size wg_id team ata type threadId blocking.

(** ** Dispatch: [MPITransport::submitRequestsToMPI] *)

(** The [switch] on the type of a command, in two parts. *)
Definition dispatch_rma (t : transport) (e : queue_element) (queue_idx : Z)
    : option (result transport) :=
  match qe_type e with
  | RO_NET_PUT =>
      Some (putMem E t (qe_dst e) (qe_src e) (qe_size e) (qe_PE e) queue_idx
              (qe_threadId e) true false)
  | RO_NET_P =>
      let source_buffer := new_buffer E (length (log t)) in
      let t := emit t (CInline_buffer source_buffer (qe_size e)
                         (qe_src e `mod` 2 ^ (8 * qe_size e))) in
      Some (putMem E t (qe_dst e) source_buffer (qe_size e) (qe_PE e) queue_idx
              (qe_threadId e) true true)
  | RO_NET_GET =>
      Some (getMem E t (qe_dst e) (qe_src e) (qe_size e) (qe_PE e) queue_idx
              (qe_threadId e) true)
  | RO_NET_PUT_NBI =>
      Some (putMem E t (qe_dst e) (qe_src e) (qe_size e) (qe_PE e) queue_idx
              (qe_threadId e) false false)
  | RO_NET_GET_NBI =>
      Some (getMem E t (qe_dst e) (qe_src e) (qe_size e) (qe_PE e) queue_idx
              (qe_threadId e) false)
  | RO_NET_AMO_FOP =>
      Some (amoFOP E t (qe_dst e) (qe_src e) (qe_size e) (qe_PE e) queue_idx
              (qe_threadId e) (qe_op e))
  | RO_NET_AMO_FCAS =>
      Some (amoFCAS E t (qe_dst e) (qe_src e) (qe_size e) (qe_PE e) queue_idx
              (qe_threadId e) (qe_pWrk e))
  | _ => None
  end.

Definition dispatch_coll (t : transport) (e : queue_element) (queue_idx : Z)
    : result transport :=
  match qe_type e with
  | RO_NET_TEAM_TO_ALL =>
      team_reduction E t (qe_dst e) (qe_src e) (qe_size e) queue_idx (qe_team_comm e)
        (qe_op e) (qe_datatype e) (qe_threadId e) true
  | RO_NET_TO_ALL =>
      reduction E t (qe_dst e) (qe_src e) (qe_size e) (qe_PE e) queue_idx (qe_PE e)
        (qe_logPE_stride e) (qe_PE_size e) (qe_op e) (qe_datatype e) (qe_threadId e) true
  | RO_NET_TEAM_BROADCAST =>
      team_broadcast E t (qe_dst e) (qe_src e) (qe_size e) queue_idx (qe_team_comm e)
        (qe_PE_root e) (qe_datatype e) (qe_threadId e) true
  | RO_NET_BROADCAST =>
      broadcast E t (qe_dst e) (qe_src e) (qe_size e) (qe_PE e) queue_idx (qe_PE e)
        (qe_logPE_stride e) (qe_PE_size e) (qe_PE_root e) (qe_datatype e) (qe_threadId e) true
  | RO_NET_ALLTOALL =>
      alltoall t (qe_dst e) (qe_src e) (qe_size e) queue_idx (qe_team_comm e) (qe_pWrk e)
        (qe_datatype e) (qe_threadId e) true
  | RO_NET_FCOLLECT =>
      fcollect t (qe_dst e) (qe_src e) (qe_size e) queue_idx (qe_team_comm e) (qe_pWrk e)
        (qe_datatype e) (qe_threadId e) true
  | RO_NET_BARRIER_ALL =>
      barrier E t queue_idx (qe_threadId e) true (ro_net_comm_world E)
  | RO_NET_SYNC => barrier E t queue_idx (qe_threadId e) true (qe_team_comm e)
  | RO_NET_FENCE | RO_NET_QUIET | RO_NET_FINALIZE => quiet t queue_idx (qe_threadId e)
  | _ => Fail (ExitProgram 1)
  end.

Definition dispatch (t : transport) (e : queue_element) (queue_idx : Z) : result transport :=
  match dispatch_rma t e queue_idx with
  | Some r => r
  | None => dispatch_coll t e queue_idx
  end.

Definition submitRequestsToMPI (t : transport) : result transport :=
  match q t with
  | [] => Ok t
  | next_element :: q' =>
      match q_wgid t with
      | [] => Fail BadAccess
      | queue_idx :: w' => dispatch (set_q t q' w') next_element queue_idx
      end
  end.
End collectives.
