(* ===== verification/Progress.v ===== *)
(** * The progress engine of the MPI transport

    [MPITransport::progress], [quiet] and [threadProgressEngine] of
    [reverse_offload/mpi_transport.cpp]: completed requests are retired, the
    threads that wait for them and the quiets that wait for a whole work-group
    are told.  [MPI_Testsome] is a parameter.  The file has the invariant of the
    transport's bookkeeping, kept by every command and by [progress], what
    [progress] does, and that no waiting quiet is lost. *)
From stdpp Require Import sorting.
From S2P Require Import Prelude Heap ROQueue MPITransport.

Local Open Scope Z_scope.

(** ** Operations *)

Definition INDICES_SIZE : Z := 128.

(** [v.erase(v.begin() + i)]. *)
Definition erase {A} (l : list A) (i : Z) : result (list A) :=
  if (0 <=? i) && (i <? Z.of_nat (length l)) then Ok (delete (Z.to_nat i) l)
  else Fail BadAccess.

Definition set_statuses (t : transport) (wg : Z) (ws : list Z) : transport :=
  foldl (λ t threadId, set_status t wg threadId) t ws.

Section progress.
Context (E : env).

(** Lines 1511-1526: tell the threads waiting in a quiet. *)
Definition notify_quiet (t : transport) (wg_id : Z) : result transport :=
  n ← vec_at (outstanding t) wg_id;
  if n =? 0 then
    ws ← vec_at (waiting_quiet t) wg_id;
    if decide (ws = []) then Ok t
    else Ok (hdp_flush_if (gpu_queue E)
           (set_waiting (set_statuses t wg_id ws)
              (<[Z.to_nat wg_id := []]> (waiting_quiet t))))
  else Ok t.

(** The body of the loop over the completed requests, lines 1483-1527. *)
Definition complete_one (t : transport) (indx : Z) : result transport :=
  p ← vec_at (req_prop_vec t) indx;
  let wg_id := rp_wgId p in
  t ← (if wg_id =? -1 then Ok (set_hostBarrierDone t) else add_outstanding t wg_id (-1));
  let t :=
    if rp_blocking p then
      hdp_flush_if (gpu_queue E)
        (if wg_id =? -1 then t else set_status t wg_id (rp_threadId p))
    else t in
  let t := if rp_inline_data p then give_back t (rp_src p) else t in
  notify_quiet t wg_id.

Fixpoint complete_all (t : transport) (indices : list Z) : result transport :=
  match indices with
  | [] => Ok t
  | indx :: indices' => t' ← complete_one t indx; complete_all t' indices'
  end.

(** The loop that removes the completed requests, lines 1531-1535. *)
Fixpoint erase_all (t : transport) (indices : list Z) : result transport :=
  match indices with
  | [] => Ok t
  | indx :: indices' =>
      rv ← erase (req_vec t) indx;
      pv ← erase (req_prop_vec t) indx;
      erase_all (set_reqs t rv pv) indices'
  end.

(** [sort(indices, indices + outcount, std::greater<int>())]. *)
Definition sort_greater (l : list Z) : list Z := merge_sort (flip Z.le) l.

(** How many requests are tested. *)
Definition incount (t : transport) : Z :=
  let req_vec_size := Z.of_nat (length (req_vec t)) in
  if req_vec_size <? INDICES_SIZE then req_vec_size else INDICES_SIZE.

(** [MPITransport::progress]; [testsome] is what [MPI_Testsome] answers on the
    requests it is given: the indices of those that completed. *)
Definition progress (testsome : list Z → list Z) (t : transport) : result transport :=
  if Z.of_nat (length (req_vec t)) =? 0 then Ok t
  else
    let indices := testsome (take (Z.to_nat (incount t)) (req_vec t)) in
    t' ← complete_all t indices;
    erase_all t' (sort_greater indices).

(** One round of [MPITransport::threadProgressEngine], and as many rounds as
    there are answers of [MPI_Testsome] before the backend is done. *)
Definition engine_round (testsome : list Z → list Z) (t : transport) : result transport :=
  t' ← submitRequestsToMPI E t; progress testsome t'.

Fixpoint threadProgressEngine (rounds : list (list Z → list Z)) (t : transport)
    : result transport :=
  match rounds with
  | [] => Ok t
  | testsome :: rounds' => t' ← engine_round testsome t; threadProgressEngine rounds' t'
  end.
End progress.

(** [MPITransport::numOutstandingRequests]. *)
Definition numOutstandingRequests (t : transport) : Z :=
  Z.of_nat (length (req_vec t)) + Z.of_nat (length (q t)).

(** ** Specification *)

(** The requests of a work-group in a list of properties. *)
Definition pending (wg : Z) (ps : list RequestProperties) : nat :=
  length (filter (λ p, rp_wgId p = wg) ps).

#[global] Arguments pending : simpl never.

(** The list without the elements at the indices of [D], in order. *)
Fixpoint keep_from {A} (k : nat) (D : list Z) (l : list A) : list A :=
  match l with
  | [] => []
  | x :: l' => if decide (Z.of_nat k ∈ D) then keep_from (S k) D l'
               else x :: keep_from (S k) D l'
  end.
Abbreviation keep := (keep_from 0).

(** The elements at the indices of [D]. *)
Definition picked {A} (D : list Z) (l : list A) : list A := omap (λ i, l !! Z.to_nat i) D.

(** What MPI promises of [MPI_Testsome]: distinct indices of the requests given. *)
Definition testsome_ok (testsome : list Z → list Z) : Prop :=
  ∀ reqs, NoDup (testsome reqs) ∧
          Forall (λ i, 0 ≤ i < Z.of_nat (length reqs)) (testsome reqs).

(** The bookkeeping agrees: requests and properties are in step, the counters
    count the requests of each work-group, and only a work-group with requests
    in flight has waiting quiets. *)
Record counts_ok (ps : list RequestProperties) (t : transport) : Prop := {
  ck_tbl : length (waiting_quiet t) = length (outstanding t);
  ck_wg : Forall (λ p, 0 ≤ rp_wgId p < Z.of_nat (length (outstanding t))) ps;
  ck_count : ∀ wg n, outstanding t !! wg = Some n → n = Z.of_nat (pending (Z.of_nat wg) ps);
  ck_wait : ∀ wg ws, waiting_quiet t !! wg = Some ws → ws ≠ [] →
              (0 < pending (Z.of_nat wg) ps)%nat
}.

Record tr_ok (num_queues : nat) (t : transport) : Prop := {
  tk_len : length (req_vec t) = length (req_prop_vec t);
  tk_q : length (q t) = length (q_wgid t);
  tk_qw : Forall (λ w, 0 ≤ w < Z.of_nat num_queues) (q_wgid t);
  tk_queues : length (outstanding t) = num_queues;
  tk_counts : counts_ok (req_prop_vec t) t
}.

(** Every thread waiting in a quiet stays there or has been told; what has
    been told stays told. *)
Definition keeps_waiters (t t' : transport) : Prop :=
  (∀ wg ws threadId, waiting_quiet t !! wg = Some ws → threadId ∈ ws →
     (∃ ws', waiting_quiet t' !! wg = Some ws' ∧ threadId ∈ ws') ∨
     status t' !! (Z.of_nat wg, threadId) = Some true) ∧
  (∀ k, status t !! k = Some true → status t' !! k = Some true).

(** ** Lists of indices *)

Lemma pending_app wg l1 l2 : pending wg (l1 ++ l2) = (pending wg l1 + pending wg l2)%nat.
Proof. unfold pending. by rewrite filter_app, length_app. Qed.

Lemma pending_cons wg p l :
  pending wg (p :: l) = ((if decide (rp_wgId p = wg) then 1 else 0) + pending wg l)%nat.
Proof. unfold pending. rewrite filter_cons. by case_decide. Qed.

#[export] Instance pending_perm wg : Proper ((≡ₚ) ==> eq) (pending wg).
Proof. intros l1 l2 Hp. unfold pending. by rewrite Hp. Qed.

Section indices.
Context {A : Type}.
Implicit Types (l : list A) (D : list Z).

Lemma keep_from_perm k D D' l : D ≡ₚ D' → keep_from k D l = keep_from k D' l.
Proof.
  intros Hp. revert k. induction l as [|x l IH]; intros k; [done|].
  cbn. rewrite IH.
  destruct (decide (Z.of_nat k ∈ D)) as [Hin|Hin], (decide (Z.of_nat k ∈ D')) as [Hin'|Hin'];
    rewrite Hp in Hin; done.
Qed.

Lemma keep_from_none k D l : Forall (λ i, i < Z.of_nat k) D → keep_from k D l = l.
Proof.
  revert k. induction l as [|x l IH]; intros k HD; [done|]. cbn.
  rewrite decide_False by (intros Hin; rewrite Forall_forall in HD; specialize (HD _ Hin); lia).
  f_equal. apply IH. eapply Forall_impl; [exact HD|]. cbn. intros; lia.
Qed.

Lemma keep_from_delete k (i : nat) D l :
  Forall (λ j, j < Z.of_nat (k + i)) D →
  keep_from k (Z.of_nat (k + i) :: D) l = keep_from k D (delete i l).
Proof.
  revert k i. induction l as [|x l IH]; intros k [|i] HD; try done.
  - cbn. rewrite Nat.add_0_r in *. rewrite decide_True by set_solver.
    rewrite !keep_from_none; [done|done|].
    constructor; [lia|]. eapply Forall_impl; [exact HD|]. cbn; intros; lia.
  - cbn [keep_from delete list_delete]. specialize (IH (S k) i).
    replace (S k + i)%nat with (k + S i)%nat in IH by lia. rewrite (IH HD).
    assert (Z.of_nat k ∈ Z.of_nat (k + S i) :: D ↔ Z.of_nat k ∈ D) as Hiff.
    { rewrite elem_of_cons. split; [|by right]. intros [?|?]; [lia|done]. }
    destruct (decide (Z.of_nat k ∈ Z.of_nat (k + S i) :: D)) as [H1|H1],
      (decide (Z.of_nat k ∈ D)) as [H2|H2]; rewrite Hiff in H1; done.
Qed.

Lemma keep_delete i D l :
  0 ≤ i → Forall (λ j, j < i) D → keep (i :: D) l = keep D (delete (Z.to_nat i) l).
Proof.
  intros Hi HD. pose proof (keep_from_delete 0 (Z.to_nat i) D l) as H.
  rewrite Nat.add_0_l, Z2Nat.id in H by lia. by apply H.
Qed.

Lemma keep_nil l : keep [] l = l.
Proof. by apply keep_from_none. Qed.
End indices.

Lemma length_keep_from {A B} k D (l : list A) (l' : list B) :
  length l = length l' → length (keep_from k D l) = length (keep_from k D l').
Proof.
  revert k l'. induction l as [|x l IH]; intros k [|x' l'] Hl; try done. cbn in *.
  case_decide; cbn; by rewrite (IH (S k) l') by lia.
Qed.

(** Descending lists of distinct indices. *)
Definition descending (D : list Z) : Prop := StronglySorted (flip Z.lt) D.

Lemma sort_greater_perm D : sort_greater D ≡ₚ D.
Proof. apply merge_sort_Permutation. Qed.

Lemma sort_greater_descending D : NoDup D → descending (sort_greater D).
Proof.
  intros HD. assert (StronglySorted (flip Z.le) (sort_greater D)) as Hs.
  { apply StronglySorted_merge_sort; [intros x y z ??; unfold flip in *; lia|].
    intros x y. unfold flip. lia. }
  rewrite <- (sort_greater_perm D) in HD. unfold descending.
  induction Hs as [|i l Hs IH Hi]; [constructor|]. apply NoDup_cons in HD as [Hn HD].
  constructor; [by apply IH|]. rewrite Forall_forall in *. intros j Hj.
  specialize (Hi j Hj). unfold flip in *. assert (i ≠ j) by (intros ->; done). lia.
Qed.

Section picked.
Context {A : Type}.
Implicit Types (l : list A) (D : list Z).

Lemma picked_cons i D l x : l !! Z.to_nat i = Some x → picked (i :: D) l = x :: picked D l.
Proof. intros Hx. unfold picked. cbn. by rewrite Hx. Qed.

Lemma picked_delete (i : nat) D l :
  Forall (λ j, 0 ≤ j < Z.of_nat i) D → picked D (delete i l) = picked D l.
Proof.
  intros HD. unfold picked. induction HD as [|j D Hj _ IH]; [done|].
  cbn. rewrite IH, list_lookup_delete_lt by lia. done.
Qed.

Lemma descending_cons i D : descending (i :: D) → descending D ∧ Forall (λ j, j < i) D.
Proof. intros H. by apply StronglySorted_inv in H. Qed.

Lemma picked_keep_descending D l :
  descending D → Forall (λ i, 0 ≤ i < Z.of_nat (length l)) D → l ≡ₚ picked D l ++ keep D l.
Proof.
  revert l. induction D as [|i D IH]; intros l Hd HD; [by rewrite keep_nil|].
  apply descending_cons in Hd as [Hd Hlt]. apply Forall_cons in HD as [Hi HD].
  rewrite keep_delete by (done || lia).
  destruct (lookup_lt_is_Some_2 l (Z.to_nat i)) as [x Hx]; [lia|].
  rewrite (picked_cons i D l x Hx), (delete_Permutation l _ _ Hx) at 1.
  cbn. f_equiv. rewrite <- (picked_delete (Z.to_nat i) D l).
  - apply IH; [done|]. rewrite length_delete by eauto.
    rewrite Forall_forall in *. intros j Hj. specialize (HD j Hj). specialize (Hlt j Hj). lia.
  - rewrite Forall_forall in *. intros j Hj. specialize (HD j Hj). specialize (Hlt j Hj). lia.
Qed.

Lemma picked_keep D l :
  NoDup D → Forall (λ i, 0 ≤ i < Z.of_nat (length l)) D → l ≡ₚ picked D l ++ keep D l.
Proof.
  intros Hn HD. pose proof (sort_greater_perm D) as Hp.
  rewrite (picked_keep_descending (sort_greater D) l) at 1.
  - rewrite (keep_from_perm 0 _ D) by done. unfold picked. by rewrite Hp.
  - by apply sort_greater_descending.
  - by rewrite Hp.
Qed.
End picked.

Lemma length_picked {A} D (l : list A) :
  Forall (λ i, 0 ≤ i < Z.of_nat (length l)) D → length (picked D l) = length D.
Proof.
  induction 1 as [|i D Hi _ IH]; [done|].
  destruct (lookup_lt_is_Some_2 l (Z.to_nat i)) as [x Hx]; [lia|].
  rewrite (picked_cons _ _ _ _ Hx). cbn. by rewrite IH.
Qed.

Lemma length_keep {A} D (l : list A) :
  NoDup D → Forall (λ i, 0 ≤ i < Z.of_nat (length l)) D →
  (length D + length (keep D l) = length l)%nat.
Proof.
  intros Hn HD. rewrite <- (length_picked D l) by done.
  by rewrite <- length_app, <- picked_keep.
Qed.

Lemma erase_ok {A} (l : list A) i :
  0 ≤ i < Z.of_nat (length l) → erase l i = Ok (delete (Z.to_nat i) l).
Proof.
  intros Hi. unfold erase.
  by rewrite (proj2 (Z.leb_le 0 i)), (proj2 (Z.ltb_lt i _)) by lia.
Qed.

Lemma erase_all_descending t D :
  length (req_vec t) = length (req_prop_vec t) → descending D →
  Forall (λ i, 0 ≤ i < Z.of_nat (length (req_vec t))) D →
  erase_all t D = Ok (set_reqs t (keep D (req_vec t)) (keep D (req_prop_vec t))).
Proof.
  revert t. induction D as [|i D IH]; intros t Hl Hd HD.
  - cbn. rewrite !keep_nil. by destruct t.
  - apply descending_cons in Hd as [Hd Hlt]. apply Forall_cons in HD as [Hi HD].
    cbn. rewrite erase_ok by lia. cbn. rewrite erase_ok by lia. cbn.
    assert (∀ B (l : list B), 0 ≤ i < Z.of_nat (length l) →
      length (delete (Z.to_nat i) l) = (length l - 1)%nat) as Hdel.
    { intros B l ?. apply length_delete, lookup_lt_is_Some_2. lia. }
    rewrite IH; cbn.
    + by rewrite !keep_delete by (done || lia).
    + rewrite !Hdel; lia.
    + done.
    + rewrite Hdel by done. rewrite Forall_forall in *. intros j Hj.
      specialize (HD j Hj). specialize (Hlt j Hj). lia.
Qed.

(** Retiring the completed requests removes exactly them. *)
Lemma erase_all_sorted t D :
  length (req_vec t) = length (req_prop_vec t) → NoDup D →
  Forall (λ i, 0 ≤ i < Z.of_nat (length (req_vec t))) D →
  erase_all t (sort_greater D) = Ok (set_reqs t (keep D (req_vec t)) (keep D (req_prop_vec t))).
Proof.
  intros Hl Hn HD. pose proof (sort_greater_perm D) as Hp.
  rewrite erase_all_descending; [|done|by apply sort_greater_descending|by rewrite Hp].
  by rewrite (keep_from_perm 0 _ D (req_vec t)), (keep_from_perm 0 _ D (req_prop_vec t)) by done.
Qed.

(** ** Completing requests *)

(** A thread of a work-group has been told that its operation is complete. *)
Definition told (t : transport) (wg threadId : Z) : Prop :=
  status t !! (wg, threadId) = Some true.

(** Agreement on everything but the counters, the waiting lists, the status
    bytes, the flags and the log. *)
Definition same_requests (t t' : transport) : Prop :=
  q t' = q t ∧ q_wgid t' = q_wgid t ∧ req_vec t' = req_vec t ∧
  req_prop_vec t' = req_prop_vec t ∧ comm_map t' = comm_map t ∧
  length (outstanding t') = length (outstanding t).

(** The state of the loop over completed requests: [done] have been handled,
    [rest] are the others. *)
Record completing (t0 : transport) (done rest : list RequestProperties) (t : transport)
    : Prop := {
  cp_same : same_requests t0 t;
  cp_counts : counts_ok rest t;
  cp_wait : ∀ wg ws, waiting_quiet t0 !! wg = Some ws →
    waiting_quiet t !! wg = Some (if decide (pending (Z.of_nat wg) rest = 0%nat) then [] else ws);
  cp_told : ∀ wg threadId, told t wg threadId ↔
    told t0 wg threadId ∨
    (∃ p, p ∈ done ∧ rp_blocking p = true ∧ rp_wgId p = wg ∧ rp_threadId p = threadId) ∨
    (∃ w ws, wg = Z.of_nat w ∧ waiting_quiet t0 !! w = Some ws ∧ threadId ∈ ws ∧
             pending wg rest = 0%nat);
  cp_freed : freed t = freed t0 ++ (rp_src <$> filter (λ p, rp_inline_data p = true) done)
}.

Definition with_status (t : transport) (m : gmap (Z * Z) bool) : transport :=
  mkT (q t) (q_wgid t) (req_vec t) (req_prop_vec t) (outstanding t) (waiting_quiet t)
      (comm_map t) m (hostBarrierDone t) (log t) (freed t).

Lemma set_statuses_spec t wg ws :
  ∃ m, set_statuses t wg ws = with_status t m ∧
    ∀ k, m !! k = Some true ↔ status t !! k = Some true ∨ (k.1 = wg ∧ k.2 ∈ ws).
Proof.
  revert t. induction ws as [|th ws IH]; intros t.
  - exists (status t). split; [by destruct t|]. set_solver.
  - destruct (IH (set_status t wg th)) as (m & Hm & Hk). exists m. split; [exact Hm|].
    intros [w h]. rewrite Hk. cbn [status set_status fst snd]. rewrite elem_of_cons.
    destruct (decide ((wg, th) = (w, h))) as [[= -> ->]|Hne].
    + rewrite lookup_insert_eq. tauto.
    + rewrite lookup_insert_ne by done. split; [tauto|].
      intros [?|[-> [->|?]]]; [tauto|done|tauto].
Qed.

Lemma completing_start t : counts_ok (req_prop_vec t) t → completing t [] (req_prop_vec t) t.
Proof.
  intros Hc. split; [done|done| | |cbn; by rewrite app_nil_r].
  - intros wg ws Hws. case_decide as Hp; [|done].
    destruct (decide (ws = [])) as [->|Hne]; [done|].
    pose proof (ck_wait _ _ Hc wg ws Hws Hne). lia.
  - intros wg th. split; [by left|].
    intros [?|[(p & Hp & _)|(w & ws & -> & Hws & Hth & Hp)]]; [done|set_solver|].
    destruct (decide (ws = [])) as [->|Hne]; [set_solver|].
    pose proof (ck_wait _ _ Hc w ws Hws Hne). lia.
Qed.

#[export] Instance counts_ok_perm : Proper ((≡ₚ) ==> eq ==> iff) counts_ok.
Proof.
  assert (∀ l1 l2 t, l1 ≡ₚ l2 → counts_ok l1 t → counts_ok l2 t) as H.
  { intros l1 l2 t Hp [H1 H2 H3 H4]. split.
    - done.
    - by rewrite <- Hp.
    - intros. rewrite <- Hp. by apply H3.
    - intros. rewrite <- Hp. by eapply H4. }
  intros l1 l2 Hp t ? <-. split; apply H; by rewrite Hp.
Qed.

Lemma completing_perm t0 done R R' t : R ≡ₚ R' → completing t0 done R t → completing t0 done R' t.
Proof.
  intros Hp [H1 H2 H3 H4 H5]. split; [done|by rewrite <- Hp| | |done].
  - intros. rewrite <- (pending_perm _ _ _ Hp). by apply H3.
  - intros wg threadId. rewrite <- (pending_perm wg _ _ Hp). apply H4.
Qed.

Section complete.
Context (E : env).

Lemma hdp_flush_if_same b t :
  same_requests t (hdp_flush_if b t) ∧ outstanding (hdp_flush_if b t) = outstanding t ∧
  waiting_quiet (hdp_flush_if b t) = waiting_quiet t ∧
  status (hdp_flush_if b t) = status t ∧ freed (hdp_flush_if b t) = freed t.
Proof. by destruct b. Qed.

Lemma notify_quiet_spec t (w : nat) n ws :
  outstanding t !! w = Some n → waiting_quiet t !! w = Some ws →
  returns (notify_quiet E t (Z.of_nat w)) (λ t',
    same_requests t t' ∧ outstanding t' = outstanding t ∧ freed t' = freed t ∧
    waiting_quiet t' = (if decide (n = 0) then <[w := []]> (waiting_quiet t) else waiting_quiet t) ∧
    ∀ v h, told t' v h ↔ told t v h ∨ (n = 0 ∧ v = Z.of_nat w ∧ h ∈ ws)).
Proof.
  intros Hn Hws. unfold notify_quiet. rewrite (vec_at_lookup _ _ _ Hn). cbn.
  destruct (Z.eqb_spec n 0) as [->|Hne]; cbn.
  - rewrite (vec_at_lookup _ _ _ Hws). cbn. rewrite (decide_True (P := 0 = 0)) by done.
    case_decide as He; cbn.
    + subst ws. rewrite list_insert_id by done. repeat split; try done; [by left|].
      intros [?|(_&_&Hh)]; [done|by apply not_elem_of_nil in Hh].
    + rewrite Nat2Z.id.
      destruct (set_statuses_spec t (Z.of_nat w) ws) as (m & -> & Hm).
      edestruct (hdp_flush_if_same (gpu_queue E)) as ((?&?&?&?&?&?) & ? & Hw & Hs & ?).
      unfold same_requests, told. rewrite Hs, Hw. repeat split; try done.
      * intros Ht. apply Hm in Ht as [?|[??]]; [by left|by right].
      * intros [?|(_&?&?)]; apply Hm; [by left|by right].
  - rewrite decide_False by done. repeat split; try done; [by left|]. intros [?|(?&_)]; done.
Qed.

(** One completed request of work-group [w]: the state before the check for
    waiting quiets. *)
Lemma complete_one_count t indx p (w : nat) n :
  vec_at (req_prop_vec t) indx = Ok p → rp_wgId p = Z.of_nat w →
  outstanding t !! w = Some n →
  ∃ t1, complete_one E t indx = notify_quiet E t1 (Z.of_nat w) ∧
    same_requests t t1 ∧ outstanding t1 = <[w := n - 1]> (outstanding t) ∧
    waiting_quiet t1 = waiting_quiet t ∧
    freed t1 = freed t ++ (if rp_inline_data p then [rp_src p] else []) ∧
    ∀ v h, told t1 v h ↔
      told t v h ∨ (rp_blocking p = true ∧ v = Z.of_nat w ∧ h = rp_threadId p).
Proof.
  intros Hp Hw Hn. unfold complete_one. rewrite Hp. cbn. rewrite Hw.
  rewrite (proj2 (Z.eqb_neq (Z.of_nat w) (-1))) by lia.
  unfold add_outstanding. rewrite (vec_at_lookup _ _ _ Hn). cbn. eexists. split; [done|].
  rewrite Nat2Z.id. unfold same_requests, told.
  assert (∀ v h (m : gmap (Z * Z) bool),
    <[(Z.of_nat w, rp_threadId p):=true]> m !! (v, h) = Some true ↔
    m !! (v, h) = Some true ∨ (true = true ∧ v = Z.of_nat w ∧ h = rp_threadId p)) as Hins.
  { intros v h m. destruct (decide ((Z.of_nat w, rp_threadId p) = (v, h))) as [[= <- <-]|Hne].
    - rewrite lookup_insert_eq. naive_solver.
    - rewrite lookup_insert_ne by done. naive_solver. }
  destruct (rp_blocking p), (rp_inline_data p), (gpu_queue E); cbn;
    rewrite ?app_nil_r, ?length_insert; repeat split; try done; try apply Hins; naive_solver.
Qed.

Lemma completing_waiting t0 done p R t (w : nat) :
  length (waiting_quiet t0) = length (outstanding t0) →
  completing t0 done (p :: R) t → rp_wgId p = Z.of_nat w →
  ∃ ws, waiting_quiet t0 !! w = Some ws ∧ waiting_quiet t !! w = Some ws ∧
    outstanding t !! w = Some (Z.of_nat (pending (Z.of_nat w) R) + 1).
Proof.
  intros Hl0 [(_&_&_&_&_&Hlo) [Hlt Hwg Hcnt _] Hwait _ _] Hw.
  apply Forall_cons in Hwg as [Hwg _].
  destruct (lookup_lt_is_Some_2 (outstanding t) w) as [n Hn]; [lia|].
  destruct (lookup_lt_is_Some_2 (waiting_quiet t0) w) as [ws Hws]; [lia|].
  exists ws. specialize (Hwait _ _ Hws). pose proof (Hcnt _ _ Hn) as ->.
  assert (pending (Z.of_nat w) (p :: R) = S (pending (Z.of_nat w) R)) as Hpc.
  { by rewrite pending_cons, decide_True. }
  rewrite Hpc in Hwait, Hn. rewrite decide_False in Hwait by lia.
  split; [done|]. split; [done|]. rewrite Hn. f_equal. lia.
Qed.

(** The effect of one round of the loop, for a request [p] of work-group [w]
    that leaves [n] requests of the group, on whose quiet [ws] are waiting. *)
Record retired (p : RequestProperties) (w : nat) (n : Z) (ws : list Z)
    (t t' : transport) : Prop := {
  rt_same : same_requests t t';
  rt_out : outstanding t' = <[w := n]> (outstanding t);
  rt_wait : waiting_quiet t' =
    (if decide (n = 0) then <[w := []]> (waiting_quiet t) else waiting_quiet t);
  rt_told : ∀ v h, told t' v h ↔
    told t v h ∨ (rp_blocking p = true ∧ v = Z.of_nat w ∧ h = rp_threadId p) ∨
    (n = 0 ∧ v = Z.of_nat w ∧ h ∈ ws);
  rt_freed : freed t' = freed t ++ (if rp_inline_data p then [rp_src p] else [])
}.

Lemma complete_one_retires t indx p (w : nat) n ws :
  vec_at (req_prop_vec t) indx = Ok p → rp_wgId p = Z.of_nat w →
  outstanding t !! w = Some (n + 1) → waiting_quiet t !! w = Some ws →
  returns (complete_one E t indx) (retired p w n ws t).
Proof.
  intros Hp Hw Hn Hws.
  destruct (complete_one_count t indx p w _ Hp Hw Hn)
    as (t1 & -> & (A1&A2&A3&A4&A5&A6) & Hout & Hwq & Hfr & Hst).
  replace (n + 1 - 1) with n in Hout by lia.
  assert (w < length (outstanding t))%nat by by eapply lookup_lt_Some.
  eapply returns_mono.
  { apply (notify_quiet_spec t1 w n ws);
      [by rewrite Hout, list_lookup_insert_eq|by rewrite Hwq]. }
  intros t2 ((B1&B2&B3&B4&B5&B6) & Ho2 & Hf2 & Hw2 & Ht2). split.
  - unfold same_requests. rewrite B1, B2, B3, B4, B5, B6. done.
  - by rewrite Ho2.
  - by rewrite Hw2, Hwq.
  - intros v h. rewrite Ht2, Hst. tauto.
  - by rewrite Hf2.
Qed.

Section one_round.
Context {t0 t t' : transport} {done R : list RequestProperties} {p : RequestProperties}.
Context {w : nat} {ws : list Z}.
Context (Hw : rp_wgId p = Z.of_nat w) (Hws : waiting_quiet t0 !! w = Some ws).
Context (Hc : completing t0 done (p :: R) t).
Context (Hr : retired p w (Z.of_nat (pending (Z.of_nat w) R)) ws t t').

Lemma pending_other v : pending v (p :: R) = pending v R ∨ v = Z.of_nat w.
Proof. rewrite pending_cons. destruct (decide (rp_wgId p = v)); [right; congruence|by left]. Qed.

Lemma pending_same : pending (Z.of_nat w) (p :: R) = S (pending (Z.of_nat w) R).
Proof. by rewrite pending_cons, decide_True. Qed.

Lemma retired_wait v us : waiting_quiet t0 !! v = Some us →
  waiting_quiet t' !! v = Some (if decide (pending (Z.of_nat v) R = 0%nat) then [] else us).
Proof.
  intros Hv. pose proof (cp_wait _ _ _ _ Hc v us Hv) as Hwait. rewrite (rt_wait _ _ _ _ _ _ Hr).
  destruct (decide (v = w)) as [->|Hne].
  - rewrite Hv in Hws. injection Hws as ->.
    destruct (decide (pending (Z.of_nat w) R = 0%nat)) as [HR0|HR0].
    + rewrite decide_True by lia. apply list_lookup_insert_eq. by eapply lookup_lt_Some.
    + rewrite decide_False by lia. rewrite pending_same in Hwait. by rewrite decide_False in Hwait by lia.
  - destruct (pending_other (Z.of_nat v)) as [Hpe|?]; [|lia]. rewrite Hpe in Hwait.
    destruct (decide (Z.of_nat (pending (Z.of_nat w) R) = 0));
      [rewrite list_lookup_insert_ne by done|]; done.
Qed.

Lemma retired_counts :
  length (waiting_quiet t0) = length (outstanding t0) → counts_ok R t'.
Proof.
  intros Hl0. destruct Hc as [(_&_&_&_&_&S6) [Hlt Hwg Hcnt _] _ _ _].
  destruct Hr as [(_&_&_&_&_&B6) Hout Hwt' _ _]. apply Forall_cons in Hwg as [Hwp HR].
  assert (length (waiting_quiet t') = length (outstanding t')) as Hl'.
  { rewrite Hwt', B6. case_decide; by rewrite ?length_insert. }
  split; [done|by rewrite B6| |].
  - intros v m. rewrite Hout. destruct (decide (v = w)) as [->|Hne].
    + rewrite list_lookup_insert_eq by lia. by intros [= <-].
    + rewrite list_lookup_insert_ne by done. intros Hm.
      destruct (pending_other (Z.of_nat v)) as [<-|?]; [by apply Hcnt|lia].
  - intros v us Hus Hne. destruct (lookup_lt_is_Some_2 (waiting_quiet t0) v) as [us0 Hus0].
    { apply lookup_lt_Some in Hus. lia. }
    rewrite (retired_wait _ _ Hus0) in Hus. case_decide; [by simplify_eq|lia].
Qed.

Lemma retired_told v h : told t' v h ↔
  told t0 v h ∨
  (∃ p', p' ∈ done ++ [p] ∧ rp_blocking p' = true ∧ rp_wgId p' = v ∧ rp_threadId p' = h) ∨
  (∃ u us, v = Z.of_nat u ∧ waiting_quiet t0 !! u = Some us ∧ h ∈ us ∧ pending v R = 0%nat).
Proof.
  rewrite (rt_told _ _ _ _ _ _ Hr), (cp_told _ _ _ _ Hc). split.
  - intros [[?|[(p'&?&?)|(u&us&->&Hus&Hh&Hz)]]|[(Hb&->&->)|(Hz&->&Hh)]].
    + by left.
    + right; left. exists p'. set_solver.
    + right; right. exists u, us. destruct (pending_other (Z.of_nat u)) as [<-|Hu]; [done|].
      rewrite Hu, pending_same in Hz. lia.
    + right; left. exists p. set_solver.
    + right; right. exists w, ws. repeat split; [done..|lia].
  - intros [?|[(p'&[Hp'| ->%list_elem_of_singleton]%elem_of_app&Hb&?&?)|(u&us&->&Hus&Hh&Hz)]].
    + by left; left.
    + left; right; left. by exists p'.
    + right; left. naive_solver.
    + destruct (pending_other (Z.of_nat u)) as [He|Hu].
      * left; right; right. exists u, us. by rewrite He.
      * assert (u = w) as -> by lia. right; right. rewrite Hus in Hws. simplify_eq.
        repeat split; [lia|done..].
Qed.
End one_round.

Lemma complete_one_spec t0 done p R t indx :
  length (waiting_quiet t0) = length (outstanding t0) →
  completing t0 done (p :: R) t → vec_at (req_prop_vec t0) indx = Ok p →
  returns (complete_one E t indx) (completing t0 (done ++ [p]) R).
Proof.
  intros Hl0 Hcp Hp. pose proof Hcp as [(S1&S2&S3&S4&S5&S6) [_ Hwg _ _] _ _ Hfreed].
  apply Forall_cons in Hwg as [Hwg HR].
  pose proof (Z2Nat.id (rp_wgId p) ltac:(lia)) as Hw. symmetry in Hw.
  set (w := Z.to_nat (rp_wgId p)) in *.
  destruct (completing_waiting _ _ _ _ _ w Hl0 Hcp Hw) as (ws & Hws0 & Hws & Hn).
  eapply returns_mono; [by eapply complete_one_retires; [rewrite S4|..]|].
  intros t' Hr. pose proof (rt_same _ _ _ _ _ _ Hr) as (B1&B2&B3&B4&B5&B6). split.
  - unfold same_requests. by rewrite B1, B2, B3, B4, B5, B6.
  - exact (retired_counts Hw Hws0 Hcp Hr Hl0).
  - exact (retired_wait Hw Hws0 Hcp Hr).
  - exact (retired_told Hw Hws0 Hcp Hr).
  - rewrite (rt_freed _ _ _ _ _ _ Hr), Hfreed, filter_app, fmap_app, <- app_assoc. f_equal.
    rewrite filter_cons, filter_nil. by destruct (rp_inline_data p).
Qed.

Lemma complete_all_spec t0 D K done t :
  length (waiting_quiet t0) = length (outstanding t0) →
  Forall (λ i, 0 ≤ i < Z.of_nat (length (req_prop_vec t0))) D →
  completing t0 done (picked D (req_prop_vec t0) ++ K) t →
  returns (complete_all E t D) (completing t0 (done ++ picked D (req_prop_vec t0)) K).
Proof.
  intros Hl HD. revert done t. induction HD as [|i D Hi HD IH]; intros done t Hc.
  - cbn. by rewrite app_nil_r.
  - destruct (lookup_lt_is_Some_2 (req_prop_vec t0) (Z.to_nat i)) as [p Hp]; [lia|].
    rewrite (picked_cons _ _ _ _ Hp) in *. cbn.
    eapply returns_bind.
    + eapply complete_one_spec; [done|exact Hc|]. apply vec_at_Z; [lia|done].
    + intros t' Hc'. eapply returns_mono; [by apply IH|].
      intros t2. by rewrite <- app_assoc.
Qed.

(** What [progress] does with the indices [D] that [MPI_Testsome] returned. *)
Definition progressed (D : list Z) (t t' : transport) : Prop :=
  req_vec t' = keep D (req_vec t) ∧
  req_prop_vec t' = keep D (req_prop_vec t) ∧
  q t' = q t ∧ q_wgid t' = q_wgid t ∧
  (∀ wg ws, waiting_quiet t !! wg = Some ws →
     waiting_quiet t' !! wg =
       Some (if decide (pending (Z.of_nat wg) (req_prop_vec t') = 0%nat) then [] else ws)) ∧
  (∀ wg threadId, told t' wg threadId ↔
     told t wg threadId ∨
     (∃ p, p ∈ picked D (req_prop_vec t) ∧ rp_blocking p = true ∧
           rp_wgId p = wg ∧ rp_threadId p = threadId) ∨
     (∃ w ws, wg = Z.of_nat w ∧ waiting_quiet t !! w = Some ws ∧ threadId ∈ ws ∧
              pending wg (req_prop_vec t') = 0%nat)) ∧
  freed t' = freed t ++ (rp_src <$> filter (λ p, rp_inline_data p = true)
                                      (picked D (req_prop_vec t))).

(** The indices that one call retires. *)
Definition completed (testsome : list Z → list Z) (t : transport) : list Z :=
  if decide (req_vec t = []) then []
  else testsome (take (Z.to_nat (incount t)) (req_vec t)).

Lemma incount_length t :
  length (take (Z.to_nat (incount t)) (req_vec t)) = Z.to_nat (incount t) ∧
  (Z.to_nat (incount t) ≤ length (req_vec t))%nat.
Proof.
  assert (0 ≤ incount t ≤ Z.of_nat (length (req_vec t))).
  { unfold incount, INDICES_SIZE. case_if; lia. }
  rewrite length_take. lia.
Qed.

Lemma completed_ok testsome t :
  testsome_ok testsome →
  NoDup (completed testsome t) ∧
  Forall (λ i, 0 ≤ i < Z.of_nat (length (req_vec t))) (completed testsome t).
Proof.
  intros Hts. unfold completed. case_decide; [split; constructor|].
  destruct (Hts (take (Z.to_nat (incount t)) (req_vec t))) as [Hn HD]. split; [done|].
  destruct (incount_length t). eapply Forall_impl; [exact HD|]. cbn. intros; lia.
Qed.

Lemma progress_unfold testsome t :
  testsome_ok testsome →
  progress E testsome t =
    (t' ← complete_all E t (completed testsome t);
     erase_all t' (sort_greater (completed testsome t))).
Proof.
  intros Hts. unfold progress, completed. destruct (req_vec t) eqn:Hr; [done|].
  rewrite (proj2 (Z.eqb_neq _ 0)) by (cbn; lia). by rewrite decide_False.
Qed.

Lemma progress_spec nq testsome t :
  tr_ok nq t → testsome_ok testsome →
  returns (progress E testsome t) (λ t',
    tr_ok nq t' ∧ progressed (completed testsome t) t t').
Proof.
  intros [Hlen Hq Hqw Hnq Hc] Hts. rewrite progress_unfold by done.
  destruct (completed_ok testsome t Hts) as [Hn HD].
  set (D := completed testsome t) in *. pose proof Hc as [Htbl _ _ _].
  assert (Forall (λ i, 0 ≤ i < Z.of_nat (length (req_prop_vec t))) D) as HD' by by rewrite <- Hlen.
  eapply returns_bind.
  { apply (complete_all_spec t D (keep D (req_prop_vec t)) []); [done|done|].
    eapply completing_perm; [by apply picked_keep|]. by apply completing_start. }
  intros t1 [(S1&S2&S3&S4&S5&S6) Hc1 Hw1 Ht1 Hf1]. rewrite app_nil_l in *.
  rewrite erase_all_sorted; [|by rewrite S3, S4|done|by rewrite S3]. cbn. split.
  - split; cbn; [|by rewrite S1, S2|by rewrite S2|by rewrite S6|].
    + rewrite S3, S4. by apply length_keep_from.
    + destruct Hc1 as [C1 C2 C3 C4]. rewrite S4. by split.
  - unfold progressed, told in *. cbn. rewrite S3, S4, S1, S2. by repeat split; try apply Ht1.
Qed.
End complete.

(** ** Commands *)

(** [keeps m P]: when [m] returns, its value satisfies [P]. *)
Definition keeps {A} (m : result A) (P : A → Prop) : Prop :=
  match m with Ok a => P a | Fail _ => True end.

Lemma keeps_bind {A B} (m : result A) (k : A → result B) P Q :
  keeps m P → (∀ a, P a → keeps (k a) Q) → keeps (m ≫= k) Q.
Proof. destruct m; cbn; auto. Qed.

Lemma keeps_any {A} (m : result A) : keeps m (λ _, True).
Proof. by destruct m. Qed.

Section commands.
Context (E : env) (nq : nat) (t0 : transport).

(** The transport is in order and no quiet of [t0] was lost. *)
Definition fine (t : transport) : Prop := tr_ok nq t ∧ keeps_waiters t0 t.

(** Changes outside the bookkeeping. *)
Lemma fine_other t t' :
  same_requests t t' → outstanding t' = outstanding t → waiting_quiet t' = waiting_quiet t →
  (∀ k, status t !! k = Some true → status t' !! k = Some true) → fine t → fine t'.
Proof.
  intros (S1&S2&S3&S4&S5&S6) Ho Hw Hs [[T1 T2 T3 T4 [C1 C2 C3 C4]] [K1 K2]]. split.
  - split; rewrite ?S1, ?S2, ?S3, ?S4, ?Ho; try done.
    split; rewrite ?Ho, ?Hw; done.
  - split; [|auto]. intros wg ws th Hws Hth. rewrite Hw.
    destruct (K1 wg ws th Hws Hth) as [?|?]; auto.
Qed.

Lemma fine_emit t c : fine t → fine (emit t c).
Proof. by apply fine_other. Qed.

Lemma fine_hdp b t : fine t → fine (hdp_flush_if b t).
Proof. destruct b; [apply fine_emit|done]. Qed.

Lemma fine_status t wg th : fine t → fine (set_status t wg th).
Proof.
  apply fine_other; try done. intros k Hk. cbn.
  destruct (decide ((wg, th) = k)) as [->|Hne];
    [apply lookup_insert_eq|by rewrite lookup_insert_ne].
Qed.

Lemma fine_createComm t a b c : fine t → fine (createComm E t a b c).2.
Proof.
  intros [[T1 T2 T3 T4 [C1 C2 C3 C4]] K]. unfold createComm. by destruct (comm_map t !! _).
Qed.

(** A new request, counted for its work-group. *)
Lemma fine_new_request t r p (w : nat) n :
  fine t → rp_wgId p = Z.of_nat w → outstanding t !! w = Some n →
  fine (set_outstanding (set_reqs t (req_vec t ++ [r]) (req_prop_vec t ++ [p]))
          (<[w := n + 1]> (outstanding t))).
Proof.
  intros [[T1 T2 T3 T4 [C1 C2 C3 C4]] K] Hw Hn.
  assert (w < length (outstanding t))%nat by by eapply lookup_lt_Some.
  split; [|done]. split; cbn; rewrite ?length_app, ?length_insert; [cbn; lia|done..|].
  split; cbn; rewrite ?length_insert; [done| | |].
  - apply Forall_app_2; [done|]. constructor; [lia|done].
  - intros v m. rewrite pending_app, pending_cons. change (pending (Z.of_nat v) []) with 0%nat.
    destruct (decide (v = w)) as [->|Hne].
    + rewrite list_lookup_insert_eq, decide_True by done. intros [= <-].
      rewrite (C3 _ _ Hn). lia.
    + rewrite list_lookup_insert_ne, decide_False by (done || lia). intros Hm.
      rewrite (C3 _ _ Hm). lia.
  - intros v ws Hws Hne. rewrite pending_app. pose proof (C4 v ws Hws Hne). lia.
Qed.

Lemma add_request_keeps t th wg b src i :
  fine t → keeps (add_request E t th wg b src i) fine.
Proof.
  intros Hf. unfold add_request, add_outstanding. cbn.
  destruct (vec_at (outstanding t) wg) as [n|] eqn:Hn; [|done]. cbn.
  apply vec_at_inv in Hn as (w & -> & Hn). rewrite Nat2Z.id.
  by apply fine_new_request.
Qed.

Lemma getMem_keeps t dst src size pe wg th b :
  fine t → keeps (getMem E t dst src size pe wg th b) fine.
Proof.
  intros Hf. unfold getMem, add_outstanding.
  destruct (vec_at (outstanding t) wg) as [n|] eqn:Hn; [|done]. cbn.
  destruct (offset E wg src) as [off|]; [|done]. cbn.
  apply vec_at_inv in Hn as (w & -> & Hn). rewrite Nat2Z.id.
  pose proof (fine_new_request t
    (new_request E (length (log t ++ [CRget dst size MPI_CHAR pe off (Z.of_nat w)])))
    (mkProps th (Z.of_nat w) b nullptr false) w n Hf eq_refl Hn) as Hnew.
  by eapply fine_other; [..|exact Hnew].
Qed.

Lemma quiet_keeps t wg th : fine t → keeps (quiet t wg th) fine.
Proof.
  intros Hf. unfold quiet. destruct (vec_at (outstanding t) wg) as [n|] eqn:Hn; [|done].
  cbn. destruct (Z.eqb_spec n 0) as [->|Hne]; cbn; [by apply fine_status|].
  destruct (vec_at (waiting_quiet t) wg) as [ws|] eqn:Hws; [|done]. cbn.
  apply vec_at_inv in Hn as (w & -> & Hn). apply vec_at_inv in Hws as (w' & Hw' & Hws).
  assert (w' = w) as -> by lia. rewrite Nat2Z.id.
  destruct Hf as [[T1 T2 T3 T4 [C1 C2 C3 C4]] [K1 K2]]. split.
  - split; cbn; try done. split; cbn; rewrite ?length_insert; try done.
    intros v us. destruct (decide (v = w)) as [->|Hvw].
    + intros _ _. rewrite (C3 _ _ Hn) in Hne. lia.
    + rewrite list_lookup_insert_ne by done. apply C4.
  - split; [|done]. intros v us h Hus Hh. cbn.
    destruct (K1 v us h Hus Hh) as [(us' & Hus' & Hh')|?]; [|by right]. left.
    destruct (decide (v = w)) as [->|Hvw].
    + exists (ws ++ [th]). rewrite list_lookup_insert_eq by by eapply lookup_lt_Some.
      rewrite Hws in Hus'. simplify_eq. set_solver.
    + rewrite list_lookup_insert_ne by done. eauto.
Qed.

Lemma for_range_keeps n i body t :
  (∀ i t, fine t → keeps (body i t) fine) → fine t → keeps (for_range n i body t) fine.
Proof.
  intros Hb. revert i t. induction n as [|n IH]; intros i t Hf; [done|]. cbn.
  eapply keeps_bind; [by apply Hb|]. auto.
Qed.
End commands.

Create HintDb transport.
#[export] Hint Resolve fine_emit fine_hdp fine_status add_request_keeps getMem_keeps
  quiet_keeps : transport.

(** Walk through a command: binds of states keep [fine], other binds are free. *)
Ltac keeps_step :=
  match goal with
  | |- keeps (Ok _) _ => cbn [keeps]
  | |- keeps (Fail _) _ => exact I
  | |- keeps (for_range _ _ _ _) _ => apply for_range_keeps; [intros ? ? ?|]
  | |- keeps (if ?b then _ else _) _ => destruct b
  | |- keeps (let '(_, _) := createComm ?E ?t ?a ?b ?c in _) (fine ?nq ?t0) =>
      let H := fresh in
      pose proof (fine_createComm E nq t0 t a b c) as H;
      destruct (createComm E t a b c) as [? ?]; cbn [snd] in H
  | |- keeps (_ ≫= _) (fine ?nq ?t0) =>
      eapply (keeps_bind _ _ (fine nq t0)); [|intros ? ?]
  | |- keeps (_ ≫= _) (fine ?nq ?t0) =>
      eapply (keeps_bind _ _ (λ ct, fine nq t0 (snd ct))); [|intros [? ?] ?]; cbn [snd] in *
  | |- keeps (_ ≫= _) _ =>
      eapply (keeps_bind _ _ (λ _, True)); [apply keeps_any|intros ? _]
  end.

Ltac keeps_solve := repeat keeps_step; eauto 12 with transport.

Section all_commands.
Context (E : env) (nq : nat) (t0 : transport).

Lemma barrier_keeps t wg th b team : fine nq t0 t → keeps (barrier E t wg th b team) (fine nq t0).
Proof. intros. unfold barrier. keeps_solve. Qed.

Lemma putMem_keeps t dst src size pe wg th b i :
  fine nq t0 t → keeps (putMem E t dst src size pe wg th b i) (fine nq t0).
Proof. intros. unfold putMem. keeps_solve. Qed.

Lemma amoFOP_keeps t dst src val pe wg th op :
  fine nq t0 t → keeps (amoFOP E t dst src val pe wg th op) (fine nq t0).
Proof. intros. unfold amoFOP. keeps_solve. Qed.

Lemma amoFCAS_keeps t dst src val pe wg th cond :
  fine nq t0 t → keeps (amoFCAS E t dst src val pe wg th cond) (fine nq t0).
Proof. intros. unfold amoFCAS. keeps_solve. Qed.

Lemma team_reduction_keeps t dst src size wg team op ty th b :
  fine nq t0 t → keeps (team_reduction E t dst src size wg team op ty th b) (fine nq t0).
Proof. intros. unfold team_reduction. keeps_solve. Qed.

Lemma reduction_keeps t dst src size pe wg start lstr sz op ty th b :
  fine nq t0 t → keeps (reduction E t dst src size pe wg start lstr sz op ty th b) (fine nq t0).
Proof. intros. unfold reduction. keeps_solve. Qed.

Lemma team_broadcast_keeps t dst src size wg team root ty th b :
  fine nq t0 t → keeps (team_broadcast E t dst src size wg team root ty th b) (fine nq t0).
Proof. intros. unfold team_broadcast. keeps_solve. Qed.

Lemma broadcast_keeps t dst src size pe wg start lstr sz root ty th b :
  fine nq t0 t → keeps (broadcast E t dst src size pe wg start lstr sz root ty th b) (fine nq t0).
Proof. intros. unfold broadcast. keeps_solve. Qed.

Lemma cluster_comm_keeps t wr cs me :
  fine nq t0 t → keeps (cluster_comm E t wr cs me) (λ ct, fine nq t0 ct.2).
Proof. intros. unfold cluster_comm. repeat keeps_step. by apply fine_createComm. Qed.

Lemma ring_comm_keeps t wr cs me nc :
  fine nq t0 t → keeps (ring_comm E t wr cs me nc) (λ ct, fine nq t0 ct.2).
Proof. intros. unfold ring_comm. repeat keeps_step. by apply fine_createComm. Qed.

Hint Resolve barrier_keeps cluster_comm_keeps ring_comm_keeps : transport.

Lemma alltoall_step1_keeps t src size wg ata mt wr cs me ps :
  fine nq t0 t → keeps (alltoall_step1 E t src size wg ata mt wr cs me ps) (fine nq t0).
Proof. intros. unfold alltoall_step1. keeps_solve. Qed.

Lemma alltoall_step2_keeps t dst size wg ata mt wr cs me nc :
  fine nq t0 t → keeps (alltoall_step2 E t dst size wg ata mt wr cs me nc) (fine nq t0).
Proof. intros. unfold alltoall_step2. keeps_solve. Qed.

Lemma fcollect_step1_keeps t src size wg ata mt wr cs me :
  fine nq t0 t → keeps (fcollect_step1 E t src size wg ata mt wr cs me) (fine nq t0).
Proof. intros. unfold fcollect_step1. keeps_solve. Qed.

Lemma fcollect_step2_keeps t dst size wg ata mt wr cs me nc :
  fine nq t0 t → keeps (fcollect_step2 E t dst size wg ata mt wr cs me nc) (fine nq t0).
Proof. intros. unfold fcollect_step2. keeps_solve. Qed.

Hint Resolve alltoall_step1_keeps alltoall_step2_keeps fcollect_step1_keeps
  fcollect_step2_keeps : transport.

Lemma alltoall_keeps t dst src size wg team ata ty th b :
  fine nq t0 t → keeps (alltoall E t dst src size wg team ata ty th b) (fine nq t0).
Proof.
  intros. unfold alltoall, alltoall_gcen, alltoall_mpi, alltoall_broadcast. keeps_solve.
Qed.

Lemma fcollect_keeps t dst src size wg team ata ty th b :
  fine nq t0 t → keeps (fcollect E t dst src size wg team ata ty th b) (fine nq t0).
Proof.
  intros. unfold fcollect, fcollect_gcen, fcollect_mpi, fcollect_broadcast. keeps_solve.
Qed.

Hint Resolve putMem_keeps amoFOP_keeps amoFCAS_keeps team_reduction_keeps reduction_keeps
  team_broadcast_keeps broadcast_keeps alltoall_keeps fcollect_keeps : transport.

Lemma dispatch_keeps t e qi : fine nq t0 t → keeps (dispatch E t e qi) (fine nq t0).
Proof.
  intros. unfold dispatch, dispatch_rma, dispatch_coll.
  destruct (qe_type e); eauto with transport.
Qed.

Lemma submit_keeps t : fine nq t0 t → keeps (submitRequestsToMPI E t) (fine nq t0).
Proof.
  intros Hf. unfold submitRequestsToMPI. destruct (q t) as [|e q'] eqn:Hq; [done|].
  destruct (q_wgid t) as [|w w'] eqn:Hw; [done|]. apply dispatch_keeps.
  destruct Hf as [[T1 T2 T3 T4 [C1 C2 C3 C4]] K]. rewrite Hq, Hw in *.
  split; [|done]. split; cbn; try done; [by injection T2|by apply Forall_cons in T3 as [_ ?]].
Qed.

Lemma insert_keeps t e qi :
  0 ≤ qi < Z.of_nat nq → fine nq t0 t → fine nq t0 (insertRequest t e qi).
Proof.
  intros Hqi [[T1 T2 T3 T4 [C1 C2 C3 C4]] K]. split; [|done]. split; cbn; try done.
  - rewrite !length_app. cbn. lia.
  - apply Forall_app_2; [done|]. by constructor.
Qed.
End all_commands.

(** ** The transport as a state machine *)

(** The polling threads insert commands, the engine submits one and makes
    progress, and a GPU thread that was told clears its status byte. *)
Inductive tstep (E : env) (nq : nat) (t : transport) : transport → Prop :=
  | step_insert element queue_id :
      0 ≤ queue_id < Z.of_nat nq → tstep E nq t (insertRequest t element queue_id)
  | step_submit t' : submitRequestsToMPI E t = Ok t' → tstep E nq t t'
  | step_progress testsome t' :
      testsome_ok testsome → progress E testsome t = Ok t' → tstep E nq t t'
  | step_clear wg threadId :
      tstep E nq t (with_status t (<[(wg, threadId) := false]> (status t))).

Lemma returns_Ok {A} (m : result A) P a : returns m P → m = Ok a → P a.
Proof. by intros H ->. Qed.

Lemma keeps_waiters_refl t : keeps_waiters t t.
Proof. split; [|done]. intros wg ws th Hws Hth. left. eauto. Qed.

Lemma keeps_waiters_trans t1 t2 t3 :
  keeps_waiters t1 t2 → keeps_waiters t2 t3 → keeps_waiters t1 t3.
Proof.
  intros [A1 A2] [B1 B2]. split; [|auto]. intros wg ws th Hws Hth.
  destruct (A1 wg ws th Hws Hth) as [(ws' & Hws' & Hth')|?]; [eauto|auto].
Qed.

Lemma progressed_waiters D t t' : progressed D t t' → keeps_waiters t t'.
Proof.
  intros (_&_&_&_&Hw&Ht&_). split.
  - intros wg ws th Hws Hth. specialize (Hw wg ws Hws). case_decide as Hp.
    + right. apply Ht. right; right. eauto 10.
    + left. eauto.
  - intros [wg th] Hk. apply Ht. by left.
Qed.

Lemma tstep_ok E nq t t' : tr_ok nq t → tstep E nq t t' → tr_ok nq t'.
Proof.
  intros Ht. assert (fine nq t t) as Hf by (split; [done|apply keeps_waiters_refl]).
  intros [e qi Hqi|u Hu|ts u Hts Hu|wg th].
  - by apply (insert_keeps nq t).
  - pose proof (submit_keeps E nq t t Hf) as H. rewrite Hu in H. apply H.
  - by apply (returns_Ok _ _ _ (progress_spec E nq ts t Ht Hts) Hu).
  - destruct Ht as [T1 T2 T3 T4 [C1 C2 C3 C4]]. by repeat split.
Qed.

Lemma initTransport_ok nq : tr_ok nq (initTransport nq).
Proof.
  split; cbn; try done; [by rewrite length_replicate|]. split; cbn.
  - by rewrite !length_replicate.
  - constructor.
  - intros wg n Hn. apply lookup_replicate in Hn as [-> _]. done.
  - intros wg ws Hws. apply lookup_replicate in Hws as [-> _]. done.
Qed.

Lemma reachable_ok E nq t : rtc (tstep E nq) (initTransport nq) t → tr_ok nq t.
Proof.
  intros H. apply rtc_ind_r with (P := tr_ok nq) in H; [done|apply initTransport_ok|].
  eauto using tstep_ok.
Qed.

(** C16: In every state that the transport reaches, the vectors of requests and
    of their properties are in step, each counter [outstanding[wg]] is exactly
    the number of requests of work-group [wg] in flight, and a work-group has
    waiting quiets only while it has requests in flight.  The polling threads,
    every command, completions and the clearing of status bytes may come in
    any order. *)
Theorem transport_invariant E nq t :
  rtc (tstep E nq) (initTransport nq) t →
  length (req_vec t) = length (req_prop_vec t) ∧
  length (q t) = length (q_wgid t) ∧
  (∀ wg n, outstanding t !! wg = Some n →
     n = Z.of_nat (pending (Z.of_nat wg) (req_prop_vec t))) ∧
  (∀ wg ws, waiting_quiet t !! wg = Some ws → ws ≠ [] →
     ∃ n, outstanding t !! wg = Some n ∧ 0 < n).
Proof.
  intros [T1 T2 _ T4 [C1 _ C3 C4]]%reachable_ok. split; [done|]. split; [done|]. split; [done|].
  intros wg ws Hws Hne. destruct (lookup_lt_is_Some_2 (outstanding t) wg) as [n Hn].
  { rewrite <- C1. by eapply lookup_lt_Some. }
  exists n. split; [done|]. rewrite (C3 _ _ Hn). specialize (C4 _ _ Hws Hne). lia.
Qed.

(** C15: One call of [progress] in a reachable state returns.  It removes exactly
    the requests that completed and leaves the others in their order; it tells
    a thread that its operation is complete exactly when a blocking request of
    its own completed or it waited in a quiet of a work-group that now has no
    request in flight; those quiets are then no longer waiting and all others
    still are; and it frees the buffers of the completed inline puts. *)
Theorem progress_correct E nq testsome t :
  rtc (tstep E nq) (initTransport nq) t → testsome_ok testsome →
  ∃ t', progress E testsome t = Ok t' ∧ progressed (completed testsome t) t t' ∧
        tr_ok nq t'.
Proof.
  intros Ht%reachable_ok Hts. pose proof (progress_spec E nq testsome t Ht Hts) as H.
  apply returns_iff in H as (t' & ? & ? & ?). eauto.
Qed.

(** C30: No quiet is lost: a thread that waits in a quiet of its work-group still
    waits after any step, or has been told by that step. *)
Theorem quiet_not_lost E nq t t' wg ws threadId :
  rtc (tstep E nq) (initTransport nq) t → tstep E nq t t' →
  waiting_quiet t !! wg = Some ws → threadId ∈ ws →
  (∃ ws', waiting_quiet t' !! wg = Some ws' ∧ threadId ∈ ws') ∨
  told t' (Z.of_nat wg) threadId.
Proof.
  intros Ht%reachable_ok Hstep Hws Hth.
  assert (fine nq t t) as Hf by (split; [done|apply keeps_waiters_refl]).
  destruct Hstep as [e qi Hqi|u Hu|ts u Hts Hu|v h].
  - left. eauto.
  - pose proof (submit_keeps E nq t t Hf) as H. rewrite Hu in H. by apply H with ws.
  - pose proof (returns_Ok _ _ _ (progress_spec E nq ts t Ht Hts) Hu) as [_ H].
    by apply progressed_waiters in H as [H _]; apply H with ws.
  - left. eauto.
Qed.

(** ** The engine finishes what is in flight *)

(** [MPI_Testsome] that completes something whenever it is given a request. *)
Definition productive (testsome : list Z → list Z) : Prop :=
  testsome_ok testsome ∧ ∀ reqs, reqs ≠ [] → testsome reqs ≠ [].

(** Everything that was pending in [t] has been answered in [t']. *)
Definition answered (t t' : transport) : Prop :=
  (∀ wg ws threadId, waiting_quiet t !! wg = Some ws → threadId ∈ ws →
     told t' (Z.of_nat wg) threadId) ∧
  (∀ p, p ∈ req_prop_vec t → rp_blocking p = true → told t' (rp_wgId p) (rp_threadId p)).

Lemma progressed_length testsome t t' :
  productive testsome → progressed (completed testsome t) t t' →
  (length (req_vec t') ≤ length (req_vec t) - 1)%nat.
Proof.
  intros [Hts Hp] (Hr & _). rewrite Hr.
  destruct (completed_ok testsome t Hts) as [Hn HD].
  pose proof (length_keep _ _ Hn HD) as Hl.
  assert (req_vec t ≠ [] → completed testsome t ≠ []) as Hne.
  { intros Hv. unfold completed. rewrite decide_False by done. apply Hp. intros He.
    destruct (incount_length t) as [Hi _]. rewrite He in Hi. cbn in Hi.
    assert (0 < incount t); [|lia]. destruct (req_vec t) eqn:Hrv; [done|].
    unfold incount, INDICES_SIZE. rewrite Hrv. cbn. case_if; lia. }
  destruct (req_vec t) eqn:Hv; [cbn; lia|].
  destruct (completed testsome t); [by destruct Hne|]. cbn in *. lia.
Qed.

Lemma progressed_answered testsome t t1 t' :
  testsome_ok testsome → length (req_vec t) = length (req_prop_vec t) →
  progressed (completed testsome t) t t1 → keeps_waiters t1 t' → answered t1 t' → answered t t'.
Proof.
  intros Hts Hlen Hpr [_ Hst] [Ha1 Ha2]. pose proof (progressed_waiters _ _ _ Hpr) as [Hk _].
  destruct (completed_ok testsome t Hts) as [Hn HD]. rewrite Hlen in HD.
  destruct Hpr as (_&Hpv&_&_&_&Ht&_). split.
  - intros wg ws th Hws Hth. destruct (Hk wg ws th Hws Hth) as [(ws' & ? & ?)|?]; [eauto|].
    by apply Hst.
  - intros p Hp Hb. rewrite (picked_keep _ _ Hn HD), elem_of_app, <- Hpv in Hp.
    destruct Hp as [Hp|Hp]; [|by apply Ha2]. apply Hst, Ht. right; left. eauto.
Qed.

Lemma engine_round_idle E testsome t : q t = [] → engine_round E testsome t = progress E testsome t.
Proof. intros Hq. unfold engine_round, submitRequestsToMPI. by rewrite Hq. Qed.

Lemma engine_spec E nq rounds t :
  tr_ok nq t → q t = [] → Forall productive rounds → (length (req_vec t) ≤ length rounds)%nat →
  returns (threadProgressEngine E rounds t) (λ t',
    tr_ok nq t' ∧ req_vec t' = [] ∧ q t' = [] ∧ keeps_waiters t t' ∧ answered t t').
Proof.
  intros Hok Hq Hr. revert t Hok Hq. induction Hr as [|ts rounds Hts Hr IH]; intros t Hok Hq Hl.
  - cbn in *. pose proof Hok as [T1 _ _ _ [_ _ _ C4]].
    destruct (req_vec t) eqn:Hv; [|cbn in Hl; lia]. cbn in T1.
    assert (req_prop_vec t = []) as Hpv by (by apply nil_length_inv; lia).
    do 3 (split; [done|]). split; [apply keeps_waiters_refl|]. split.
    + intros wg ws th Hws Hth.
      assert (ws ≠ []) as Hne by (by intros ->; apply not_elem_of_nil in Hth).
      specialize (C4 _ _ Hws Hne). rewrite Hpv in C4. unfold pending in C4. cbn in C4. lia.
    + rewrite Hpv. intros p Hp. by apply not_elem_of_nil in Hp.
  - cbn. rewrite engine_round_idle by done. eapply returns_bind.
    { eapply progress_spec; [done|apply Hts]. }
    intros t1 [Hok1 Hpr]. pose proof (progressed_length _ _ _ Hts Hpr). cbn in Hl.
    assert (q t1 = []) as Hq1 by (by destruct Hpr as (_&_&->&_)).
    eapply returns_mono; [apply IH; [done|done|lia]|].
    intros t2 (Hok2 & Hv2 & Hq2 & Hk2 & Ha2). do 3 (split; [done|]). split.
    + eapply keeps_waiters_trans; [by eapply progressed_waiters|done].
    + eapply progressed_answered; try done; [apply Hts|apply Hok].
Qed.

(** When no commands are queued and [MPI_Testsome] completes at least one of
    the requests it is given, the progress engine needs at most as many rounds
    as there are requests in flight to finish them all: it returns with no
    request left and all counters zero, and every blocking operation and every
    quiet that was waiting has been told. *)
Theorem engine_completes E nq rounds t :
  rtc (tstep E nq) (initTransport nq) t → q t = [] →
  Forall productive rounds → (length (req_vec t) ≤ length rounds)%nat →
  ∃ t', threadProgressEngine E rounds t = Ok t' ∧ numOutstandingRequests t' = 0 ∧
        (∀ wg n, outstanding t' !! wg = Some n → n = 0) ∧ answered t t'.
Proof.
  intros Ht%reachable_ok Hq Hr Hl. pose proof (engine_spec E nq rounds t Ht Hq Hr Hl) as H.
  apply returns_iff in H as (t' & He & [T1 _ _ _ [_ _ C3 _]] & Hv & Hq' & _ & Ha).
  exists t'. split; [done|]. unfold numOutstandingRequests. rewrite Hv, Hq' in *.
  split; [done|]. split; [|done]. intros wg n Hn. rewrite (C3 _ _ Hn).
  assert (req_prop_vec t' = []) as -> by (by apply nil_length_inv). done.
Qed.

(** *** A concrete run *)

Module ExampleRun.

Definition E0 : env :=
mkEnv 0 2 (λ _, 0) (λ _, 2) (λ _, [0; 1]) (λ _, 4) Z.of_nat Z.of_nat Z.of_nat true
      (λ _, mkWindowInfo 4096 8192) (λ a, a) Z.sub.

(** A command of the given type from thread 5. *)
Definition command (type : ro_net_cmds) : queue_element :=
mkElement true type 0 0 0 0 5 0 0 0 0 ROC_SHMEM_SUM RO_NET_INT 0 0.

(** Every request completes. *)
Definition all_complete (reqs : list Z) : list Z := seqZ 0 (Z.of_nat (length reqs)).

Lemma all_complete_ok : productive all_complete.
Proof.
split; intros reqs.
2: { intros Hne. unfold all_complete. destruct reqs; [done|]. by rewrite seqZ_cons by (cbn; lia). }
unfold all_complete. split; [apply NoDup_seqZ|].
apply Forall_forall. intros i Hi%elem_of_seqZ. lia.
Qed.

(** Inserts and submissions. *)
Fixpoint run (cmds : list (option queue_element)) (t : transport) : result transport :=
match cmds with
| [] => Ok t
| Some e :: cmds' => run cmds' (insertRequest t e 0)
| None :: cmds' => t' ← submitRequestsToMPI E0 t; run cmds' t'
end.

Lemma run_steps cmds t t' : run cmds t = Ok t' → rtc (tstep E0 1) t t'.
Proof.
revert t. induction cmds as [|[e|] cmds IH]; intros t H; cbn in H.
- injection H as ->. apply rtc_refl.
- eapply rtc_l; [by apply (step_insert _ _ _ e 0)|auto].
- apply bind_Ok_inv in H as (t1 & H1 & H). eapply rtc_l; [by apply step_submit|auto].
Qed.

(** A barrier and a quiet of work-group 0, both submitted. *)
Definition waiting_run : list (option queue_element) :=
[Some (command RO_NET_BARRIER_ALL); Some (command RO_NET_QUIET); None; None].

Definition waiting_state : transport :=
mkT [] [] [1] [mkProps 5 0 true 0 false] [1] [[5]] ∅ ∅ false [CIbarrier 0] [].

Lemma waiting_reachable : rtc (tstep E0 1) (initTransport 1) waiting_state.
Proof. apply (run_steps waiting_run). by vm_compute. Qed.

End ExampleRun.
Import ExampleRun.

Lemma transport_invariant_witness :
  ∃ n, outstanding waiting_state !! 0%nat = Some n ∧ 0 < n.
Proof.
  apply (transport_invariant E0 1 waiting_state waiting_reachable) with [5]; [done|].
  discriminate.
Defined.

Lemma progress_correct_witness :
  ∃ t', progress E0 all_complete waiting_state = Ok t' ∧
        progressed (completed all_complete waiting_state) waiting_state t' ∧ tr_ok 1 t'.
Proof.
  apply (progress_correct E0 1 all_complete waiting_state waiting_reachable).
  apply all_complete_ok.
Defined.

Lemma quiet_not_lost_witness :
  (∃ ws', [[5]] !! 0%nat = Some ws' ∧ 5 ∈ ws') ∨ told (insertRequest waiting_state (command RO_NET_PUT) 0) 0 5.
Proof.
  apply (quiet_not_lost E0 1 waiting_state (insertRequest waiting_state (command RO_NET_PUT) 0) 0 [5] 5
           waiting_reachable).
  - by apply step_insert.
  - reflexivity.
  - by apply list_elem_of_singleton.
Defined.

Lemma engine_completes_witness :
  ∃ t', threadProgressEngine E0 [all_complete] waiting_state = Ok t' ∧
        numOutstandingRequests t' = 0 ∧
        (∀ wg n, outstanding t' !! wg = Some n → n = 0) ∧ answered waiting_state t'.
Proof.
  apply (engine_completes E0 1 [all_complete] waiting_state waiting_reachable).
  - reflexivity.
  - constructor; [apply all_complete_ok|constructor].
  - cbn; lia.
Defined.
