(* ===== verification/Clusters.v ===== *)
(** * The clustered all-to-all and collect

    The GPU-centric algorithms [alltoall_gcen] and [fcollect_gcen] of
    [reverse_offload/mpi_transport.cpp]: the [n] members of a team form
    [num_clust] clusters of [clust_size].  Each member first gathers blocks from
    its own cluster, then sends one run of blocks to a member of every cluster.
    The file shows that the calls a member issues follow this plan, and that
    the plan delivers every block, in every interleaving of the members. *)
From S2P Require Import Prelude Heap ROQueue MPITransport.

Local Open Scope Z_scope.

(** ** The plan on blocks *)

(** Member [r] gets its [i]-th block, or puts its [i]-th run of blocks. *)
Inductive gop := Get (r i : Z) | Put (r i : Z).

#[export] Instance gop_eq_dec : EqDecision gop.
Proof. solve_decision. Defined.

Section plan.
Context {V : Type} (cs nc : Z) (Hcs : 0 < cs).
(** The block that a get fetches, where the [i]-th run starts in the buffer,
    how many gets a member makes, and what every destination should hold. *)
Context (fetched : Z → Z → V) (run_start : Z → Z) (gets : Z) (want : Z → Z → V).

(** The buffers and the destinations of all members, in blocks. *)
Record blocks := mkBlocks { ata : Z → Z → V; dest : Z → Z → V }.

Definition exec (b : blocks) (o : gop) : blocks :=
  match o with
  | Get r i =>
      mkBlocks (λ r' i', if (r' =? r) && (i' =? i) then fetched r i else ata b r' i') (dest b)
  | Put r i =>
      mkBlocks (ata b) (λ p j,
        if (p =? gcen_peer2 cs r i) && (gcen_dst2 cs r <=? j) && (j <? gcen_dst2 cs r + cs)
        then ata b r (run_start i + (j - gcen_dst2 cs r)) else dest b p j)
  end.

Definition exec_all (b : blocks) (tr : list gop) : blocks := foldl exec b tr.

(** An interleaving of the members: all puts are there, and a member puts
    only after all its gets. *)
Record interleaving (tr : list gop) : Prop := {
  il_puts : ∀ r i, 0 ≤ r < nc * cs → 0 ≤ i < nc → Put r i ∈ tr;
  il_range : ∀ r i, Put r i ∈ tr → 0 ≤ r < nc * cs ∧ 0 ≤ i < nc;
  il_order : ∀ l1 l2 r i, tr = l1 ++ Put r i :: l2 → ∀ k, 0 ≤ k < gets → Get r k ∈ l1
}.

(** What the plan has to satisfy: a run carries the blocks its destination wants. *)
Hypothesis (Hruns : ∀ r i k, 0 ≤ r < nc * cs → 0 ≤ i < nc → 0 ≤ k < cs →
  0 ≤ run_start i + k < gets ∧
  fetched r (run_start i + k) = want (gcen_peer2 cs r i) (gcen_dst2 cs r + k)).

(** After the prefix [l]: what was fetched is in the buffers, what was put is
    in its place. *)
Definition so_far (l : list gop) (b : blocks) : Prop :=
  (∀ r k, Get r k ∈ l → ata b r k = fetched r k) ∧
  (∀ r i k, Put r i ∈ l → 0 ≤ k < cs →
     dest b (gcen_peer2 cs r i) (gcen_dst2 cs r + k) =
     want (gcen_peer2 cs r i) (gcen_dst2 cs r + k)).

Lemma so_far_get l b r i : so_far l b → so_far (l ++ [Get r i]) (exec b (Get r i)).
Proof.
  intros [HG HP]. split; cbn.
  - intros r' k [Hin|Hin%list_elem_of_singleton]%elem_of_app.
    + destruct (Z.eqb_spec r' r) as [->|], (Z.eqb_spec k i) as [->|]; cbn; auto.
    + injection Hin as -> ->. by rewrite !Z.eqb_refl.
  - intros r' i' k [Hin|Hin%list_elem_of_singleton]%elem_of_app Hk; [auto|done].
Qed.

Lemma so_far_put l b r i :
  0 ≤ r < nc * cs → 0 ≤ i < nc → (∀ k, 0 ≤ k < gets → Get r k ∈ l) →
  so_far l b → so_far (l ++ [Put r i]) (exec b (Put r i)).
Proof.
  intros Hr Hi Hgets [HG HP].
  assert (∀ k, 0 ≤ k < cs →
    ata b r (run_start i + k) = want (gcen_peer2 cs r i) (gcen_dst2 cs r + k)) as Hrun.
  { intros k Hk. destruct (Hruns r i k Hr Hi Hk) as [Hrg <-]. apply HG, Hgets, Hrg. }
  split; cbn.
  - intros r' k [Hin|Hin%list_elem_of_singleton]%elem_of_app; [auto|done].
  - intros r' i' k Hin Hk.
    destruct (Z.eqb_spec (gcen_peer2 cs r' i') (gcen_peer2 cs r i)) as [Hp|Hp]; cbn.
    + destruct (Z.leb_spec (gcen_dst2 cs r) (gcen_dst2 cs r' + k)); cbn.
      2: { apply elem_of_app in Hin as [Hin|Hin%list_elem_of_singleton]; [auto|].
           injection Hin as -> ->. lia. }
      destruct (Z.ltb_spec (gcen_dst2 cs r' + k) (gcen_dst2 cs r + cs)).
      * rewrite Hrun by lia. rewrite Hp. f_equal. lia.
      * apply elem_of_app in Hin as [Hin|Hin%list_elem_of_singleton]; [auto|].
        injection Hin as -> ->. lia.
    + apply elem_of_app in Hin as [Hin|Hin%list_elem_of_singleton]; [auto|].
      by injection Hin as -> ->.
Qed.

Lemma so_far_all tr b0 l :
  interleaving tr → l `prefix_of` tr → so_far l (exec_all b0 l).
Proof.
  intros [_ Hrange Hord]. induction l as [|o l IH] using rev_ind; intros [l' Hl'].
  { split; [intros r k Hin|intros r i k Hin _]; by apply not_elem_of_nil in Hin. }
  unfold exec_all. rewrite foldl_snoc.
  assert (so_far l (exec_all b0 l)) as Hl.
  { apply IH. exists (o :: l'). by rewrite Hl', <- app_assoc. }
  rewrite <- app_assoc in Hl'. cbn in Hl'. destruct o as [r i|r i].
  - by apply so_far_get.
  - assert (Put r i ∈ tr) as Hin by (rewrite Hl'; set_solver).
    destruct (Hrange r i Hin). apply so_far_put; try done. by eapply Hord.
Qed.

(** Every place of every destination is reached. *)
Lemma plan_delivers tr b0 p j :
  interleaving tr → 0 ≤ p < nc * cs → 0 ≤ j < nc * cs →
  dest (exec_all b0 tr) p j = want p j.
Proof.
  intros Htr Hp Hj. destruct (so_far_all tr b0 tr Htr ltac:(done)) as [_ HP].
  pose proof (Z.div_mod p cs ltac:(lia)). pose proof (Z.mod_pos_bound p cs Hcs).
  pose proof (Z.div_mod j cs ltac:(lia)). pose proof (Z.mod_pos_bound j cs Hcs).
  assert (0 ≤ j / cs < nc ∧ 0 ≤ p / cs < nc) as [Hjc Hpc] by nia.
  set (r := j / cs * cs + p `mod` cs).
  assert (Z.quot r cs = j / cs ∧ Z.rem r cs = p `mod` cs) as [Hq Hm].
  { rewrite Z.quot_div_nonneg, Z.rem_mod_nonneg by (subst r; nia). subst r. split.
    - rewrite Z.div_add_l, (Z.div_small (p `mod` cs)) by lia. lia.
    - rewrite Z.add_comm, Z.mod_add, Z.mod_mod by lia. done. }
  specialize (HP r (p / cs) (j `mod` cs)).
  unfold gcen_peer2, gcen_dst2 in HP. rewrite Hq, Hm in HP.
  replace (p `mod` cs + p / cs * cs) with p in HP by lia.
  replace (j / cs * cs + j `mod` cs) with j in HP by lia.
  apply HP; [|lia]. apply (il_puts _ Htr); subst r; nia.
Qed.
End plan.

(** The clustered all-to-all delivers: when all members have made their puts,
    in any interleaving in which each member gets before it puts, block [j] of
    member [p]'s destination is block [p] of member [j]'s source, for all [p]
    and [j]. *)
Theorem alltoall_delivers {V} cs nc (src : Z → Z → V) tr b0 p j :
  0 < cs → interleaving cs nc (nc * cs) tr → 0 ≤ p < nc * cs → 0 ≤ j < nc * cs →
  dest (exec_all cs (λ r i, src (gcen_peer1 cs r i) (gcen_src1 cs r i)) (gcen_src2 cs) b0 tr) p j
  = src j p.
Proof.
  intros Hcs Htr Hp Hj.
  apply (plan_delivers cs nc Hcs _ _ (nc * cs) (λ p j, src j p)); try done.
  intros r i k Hr Hi Hk. unfold gcen_src2. split; [nia|].
  unfold gcen_peer1, gcen_src1, gcen_peer2, gcen_dst2.
  rewrite (Z.quot_div_nonneg (_ + k)), (Z.rem_mod_nonneg (_ + k)) by nia.
  rewrite Z.div_add_l, (Z.div_small k) by lia.
  rewrite (Z.add_comm (i * cs)), Z.mod_add, (Z.mod_small k) by lia. f_equal. lia.
Qed.

(** The clustered collect delivers: block [j] of every member's destination is
    the source of member [j]. *)
Theorem fcollect_delivers {V} cs nc (src : Z → V) tr b0 p j :
  0 < cs → interleaving cs nc cs tr → 0 ≤ p < nc * cs → 0 ≤ j < nc * cs →
  dest (exec_all cs (λ r i, src (gcen_peer1 cs r i)) (λ _, 0) b0 tr) p j = src j.
Proof.
  intros Hcs Htr Hp Hj.
  apply (plan_delivers cs nc Hcs _ _ cs (λ p j, src j)); try done.
  intros r i k Hr Hi Hk. split; [lia|]. unfold gcen_peer1, gcen_dst2.
  by rewrite (Z.rem_small (0 + k)) by lia.
Qed.

(** A check that a trace is an interleaving: [seen] is what came before. *)
Fixpoint ordered (gets : Z) (seen tr : list gop) : bool :=
  match tr with
  | [] => true
  | Get r k :: tr' => ordered gets (Get r k :: seen) tr'
  | Put r i :: tr' =>
      forallb (λ k, bool_decide (Get r k ∈ seen)) (seqZ 0 gets) && ordered gets (Put r i :: seen) tr'
  end.

Lemma ordered_sound gets seen tr :
  ordered gets seen tr = true →
  ∀ l1 l2 r i, tr = l1 ++ Put r i :: l2 → ∀ k, 0 ≤ k < gets → Get r k ∈ l1 ++ seen.
Proof.
  revert seen. induction tr as [|o tr IH]; intros seen Ho l1 l2 r i Heq k Hk; [by destruct l1|].
  destruct l1 as [|o' l1]; cbn in Heq; injection Heq as -> ->.
  - cbn in Ho. apply andb_true_iff in Ho as [Ho _]. rewrite forallb_forall in Ho.
    specialize (Ho k). rewrite bool_decide_eq_true in Ho. apply Ho, list_elem_of_In, elem_of_seqZ. lia.
  - assert (ordered gets (o' :: seen) (l1 ++ Put r i :: l2) = true) as Ho'.
    { destruct o'; cbn in Ho; [done|]. by apply andb_true_iff in Ho as [_ ?]. }
    specialize (IH _ Ho' l1 l2 r i eq_refl k Hk). rewrite elem_of_app, elem_of_cons in IH.
    cbn. rewrite elem_of_cons, elem_of_app. tauto.
Qed.

(** All members one after the other. *)
Definition one_by_one (cs nc gets : Z) : list gop :=
  r ← seqZ 0 (nc * cs); (Get r <$> seqZ 0 gets) ++ (Put r <$> seqZ 0 nc).

Lemma one_by_one_interleaving cs nc gets :
  ordered gets [] (one_by_one cs nc gets) = true → interleaving cs nc gets (one_by_one cs nc gets).
Proof.
  intros Ho. split.
  - intros r i Hr Hi. apply list_elem_of_bind. exists r. rewrite elem_of_app, !list_elem_of_fmap.
    split; [right; exists i; split; [done|]|]; apply elem_of_seqZ; lia.
  - intros r i Hin. apply list_elem_of_bind in Hin as (r' & Hin & Hr%elem_of_seqZ).
    rewrite elem_of_app, !list_elem_of_fmap in Hin.
    destruct Hin as [(k & ? & _)|(k & [= -> ->] & Hi%elem_of_seqZ)]; [done|]. lia.
  - intros l1 l2 r i Heq k Hk. rewrite <- (app_nil_r l1). by eapply ordered_sound.
Qed.

Lemma alltoall_delivers_witness :
  dest (exec_all 2 (λ r i, (gcen_peer1 2 r i, gcen_src1 2 r i)) (gcen_src2 2)
          (mkBlocks (λ _ _, (0, 0)) (λ _ _, (0, 0))) (one_by_one 2 2 (2 * 2))) 3 1 = (1, 3).
Proof.
  apply (alltoall_delivers 2 2 (λ r i, (r, i))); [lia| |lia|lia].
  apply one_by_one_interleaving. by vm_compute.
Defined.

Lemma fcollect_delivers_witness :
  dest (exec_all 2 (λ r i, gcen_peer1 2 r i) (λ _, 0)
          (mkBlocks (λ _ _, 0) (λ _ _, 0)) (one_by_one 2 2 2)) 3 1 = 1.
Proof.
  apply (fcollect_delivers 2 2 (λ r, r)); [lia| |lia|lia].
  apply one_by_one_interleaving. by vm_compute.
Defined.

(** ** The calls that a member issues *)

Definition emit_all (t : transport) (cs : list mpi_call) : transport := foldl emit t cs.

Lemma emit_all_log t cs : log (emit_all t cs) = log t ++ cs.
Proof.
  revert t. induction cs as [|c cs IH]; intros t; cbn; [by rewrite app_nil_r|].
  change (foldl emit (emit t c) cs) with (emit_all (emit t c) cs). rewrite IH. cbn.
  by rewrite <- app_assoc.
Qed.

Lemma emit_all_app t cs1 cs2 : emit_all t (cs1 ++ cs2) = emit_all (emit_all t cs1) cs2.
Proof. apply foldl_app. Qed.

(** A loop whose body only issues calls. *)
Lemma for_range_emits n i body f t :
  (∀ k t, i ≤ k < i + Z.of_nat n → body k t = Ok (emit_all t (f k))) →
  for_range n i body t = Ok (emit_all t (k ← seqZ i (Z.of_nat n); f k)).
Proof.
  revert i t. induction n as [|n IH]; intros i t Hb.
  { by rewrite seqZ_nil by lia. }
  cbn [for_range]. rewrite Hb by lia. cbn [mbind result_bind].
  rewrite IH by (intros; apply Hb; lia). rewrite (seqZ_cons i) by lia.
  replace (Z.pred (Z.of_nat (S n))) with (Z.of_nat n) by lia.
  rewrite bind_cons, emit_all_app. by replace (Z.succ i) with (i + 1) by lia.
Qed.

Section calls.
Context (E : env) (wg_id base : Z) (mpi_type : MPI_Datatype) (world_ranks : list Z).
Context (cs nc me size : Z).

Let ts : Z := type_size E mpi_type.
Let n : Z := nc * cs.
(** The bytes of a block. *)
Definition block : Z := ts * size.

Hypothesis (Hcs : 0 < cs) (Hnc : 0 < nc) (Hme : 0 ≤ me < n).
Hypothesis (Hts : 0 ≤ ts) (Hsz : 0 ≤ size) (Hfit : n * block < 2 ^ 31).
Hypothesis (Hranks : Z.of_nat (length world_ranks) = n).

(** The address range of [n] blocks from [a] lies in the window, which starts
    at [base]. *)
Definition in_window (a : Z) : Prop :=
  ∀ k, 0 ≤ k < n * block ∨ k = 0 → offset E wg_id (a + k) = Ok (a + k - base).

Definition rank_of (i : Z) : Z := default 0 (world_ranks !! Z.to_nat i).

Lemma vec_at_ranks i : 0 ≤ i < n → vec_at world_ranks i = Ok (rank_of i).
Proof.
  intros Hi. unfold vec_at, rank_of. rewrite (proj2 (Z.ltb_ge i 0)) by lia.
  destruct (lookup_lt_is_Some_2 world_ranks (Z.to_nat i)) as [x ->]; [lia|done].
Qed.

(** The offset of block [k], computed in 32 bits. *)
Lemma imul_block k : 0 ≤ k ≤ n → imul (imul k ts) size = k * block.
Proof.
  intros Hk. assert (0 ≤ k * ts) by nia. assert (0 ≤ k * block ≤ n * block) by (unfold block; nia).
  destruct (decide (size = 0)) as [Hs0|Hs0].
  { unfold imul, block. rewrite Hs0, !Z.mul_0_r. reflexivity. }
  assert (k * ts ≤ k * block) by (unfold block; nia).
  unfold imul. rewrite (s32_small (k * ts)) by (unfold INT_MIN, INT_MAX; lia).
  unfold block in *. rewrite s32_small by (unfold INT_MIN, INT_MAX; lia). lia.
Qed.

(** The gets of the first step and the puts of the second. *)
Definition get_calls (src ata i : Z) : list mpi_call :=
  [CRget (ata + i * block) size mpi_type (rank_of (gcen_peer1 cs me i))
     (src + gcen_src1 cs me i * block - base) wg_id].

Definition put_calls (dst ata i : Z) : list mpi_call :=
  [CPut (ata + gcen_src2 cs i * block) (size * cs) mpi_type (rank_of (gcen_peer2 cs me i))
     (dst - base + gcen_dst2 cs me * block) wg_id;
   CWin_flush (rank_of (gcen_peer2 cs me i)) wg_id].

Lemma gcen_ranges i :
  0 ≤ gcen_dst2 cs me ∧ gcen_dst2 cs me + cs ≤ n ∧
  (0 ≤ i < n → 0 ≤ gcen_peer1 cs me i < n ∧ 0 ≤ gcen_src1 cs me i < n) ∧
  (0 ≤ i < nc → 0 ≤ gcen_peer2 cs me i < n).
Proof.
  unfold gcen_dst2, gcen_peer1, gcen_src1, gcen_peer2, n in *.
  rewrite !(Z.quot_div_nonneg me), !(Z.rem_mod_nonneg me) by lia.
  pose proof (Z.div_mod me cs ltac:(lia)). pose proof (Z.mod_pos_bound me cs Hcs).
  assert (0 ≤ me / cs < nc) by nia.
  split; [nia|]. split; [nia|]. split; [|nia]. intros Hi.
  rewrite !(Z.quot_div_nonneg i), !(Z.rem_mod_nonneg i) by lia.
  pose proof (Z.div_mod i cs ltac:(lia)). pose proof (Z.mod_pos_bound i cs Hcs).
  assert (0 ≤ i / cs < nc) by nia. nia.
Qed.

Lemma alltoall_step1_calls t src ata :
  in_window src →
  alltoall_step1 E t src size wg_id ata mpi_type world_ranks cs me n =
    Ok (emit_all t ((i ← seqZ 0 n; get_calls src ata i) ++ [CWaitall n])).
Proof.
  intros Hw. unfold alltoall_step1.
  assert (0 < n) by (unfold n; nia).
  rewrite (for_range_emits _ _ _ (get_calls src ata)).
  - cbn [mbind result_bind]. by rewrite Z2Nat.id, emit_all_app by lia.
  - intros k t' Hk. rewrite Z2Nat.id in Hk by lia.
    destruct (gcen_ranges k) as (_ & _ & Hr & _). destruct Hr as [Hp Hs]; [lia|].
    fold ts. rewrite !imul_block by lia. rewrite vec_at_ranks by lia. cbn [mbind result_bind].
    rewrite Hw; [done|]. unfold block, n in *. nia.
Qed.

Lemma imul_run k : 0 ≤ k → k * cs ≤ n → imul (imul (imul k ts) size) cs = k * cs * block.
Proof.
  intros Hk Hkn. rewrite imul_block by nia.
  assert (0 ≤ block) by (unfold block; nia).
  unfold imul. rewrite s32_small by (unfold INT_MIN, INT_MAX; nia). lia.
Qed.

Lemma alltoall_step2_calls t dst ata :
  in_window dst → size * cs < 2 ^ 31 →
  alltoall_step2 E t dst size wg_id ata mpi_type world_ranks cs me nc =
    Ok (emit_all t (i ← seqZ 0 nc; put_calls dst ata i)).
Proof.
  intros Hw Hrun. unfold alltoall_step2.
  rewrite (for_range_emits _ _ _ (put_calls dst ata)); [by rewrite Z2Nat.id by lia|].
  intros k t' Hk. rewrite Z2Nat.id in Hk by lia.
  destruct (gcen_ranges k) as (Hd0 & Hd & _ & Hr). specialize (Hr ltac:(lia)).
  unfold gcen_dst2 in Hd0, Hd.
  assert (0 ≤ Z.quot me cs) by (apply Z.quot_pos; lia).
  fold ts. rewrite !imul_run by (unfold n in *; nia). rewrite vec_at_ranks by lia.
  cbn [mbind result_bind]. specialize (Hw 0 (or_intror eq_refl)). rewrite Z.add_0_r in Hw.
  rewrite Hw. cbn [mbind result_bind].
  unfold imul. rewrite s32_small by (unfold INT_MIN, INT_MAX; nia).
  unfold put_calls, emit_all, gcen_src2, gcen_dst2. cbn [foldl]. done.
Qed.
End calls.

Lemma emit_all_outstanding t cs : outstanding (emit_all t cs) = outstanding t.
Proof. revert t. induction cs as [|c cs IH]; intros t; [done|]. apply (IH (emit t c)). Qed.

(** Calls that only synchronise. *)
Definition is_sync (c : mpi_call) : Prop :=
  match c with CComm_dup | CComm_create_group _ | CIbarrier _ => True | _ => False end.

(** [t'] differs from [t] by synchronising calls, and can still count requests
    of the work-group. *)
Definition synced (wg_id : Z) (t t' : transport) : Prop :=
  (∃ rest, log t' = log t ++ rest ∧ Forall is_sync rest) ∧
  ((∃ k, vec_at (outstanding t) wg_id = Ok k) → ∃ k, vec_at (outstanding t') wg_id = Ok k).

Lemma synced_trans wg t1 t2 t3 : synced wg t1 t2 → synced wg t2 t3 → synced wg t1 t3.
Proof.
  intros [(r1 & H1 & F1) O1] [(r2 & H2 & F2) O2]. split; [|auto].
  exists (r1 ++ r2). split; [by rewrite H2, H1, app_assoc|by apply Forall_app_2].
Qed.

Lemma createComm_synced E wg t a b c : synced wg t (createComm E t a b c).2.
Proof.
  unfold createComm. destruct (comm_map t !! _).
  - split; [|done]. exists []. by rewrite app_nil_r.
  - split; [|done]. eexists. split; [done|]. constructor; [by case_if|done].
Qed.

Lemma barrier_synced E t wg th b team k :
  vec_at (outstanding t) wg = Ok k →
  ∃ t', barrier E t wg th b team = Ok t' ∧ synced wg t t'.
Proof.
  intros Hk. unfold barrier, add_request, add_outstanding. cbn. rewrite Hk. cbn.
  eexists. split; [done|]. split; [eexists; split; [done|by constructor]|].
  intros _. cbn. unfold vec_at in *. destruct (wg <? 0); [done|].
  destruct (outstanding t !! Z.to_nat wg) as [x|] eqn:Hx; [|done].
  rewrite list_lookup_insert_eq by by eapply lookup_lt_Some. eauto.
Qed.

(** The two communicators and the two barriers at the end. *)
Lemma gcen_finish E t wg th blocking wr cs me nc k :
  (1 < length wr)%nat → 0 ≤ Z.quot me cs * cs < Z.of_nat (length wr) →
  0 ≤ Z.rem me cs < Z.of_nat (length wr) → vec_at (outstanding t) wg = Ok k →
  ∃ t', ('(comm_cluster, t) ← cluster_comm E t wr cs me;
         '(comm_ring, t) ← ring_comm E t wr cs me nc;
         t ← barrier E t wg th false comm_cluster;
         barrier E t wg th blocking comm_ring) = Ok t' ∧ synced wg t t'.
Proof.
  intros Hl Hq Hr Hk.
  assert (∀ i, 0 ≤ i < Z.of_nat (length wr) → ∃ x, vec_at wr i = Ok x) as Hv.
  { intros i Hi. unfold vec_at. rewrite (proj2 (Z.ltb_ge i 0)) by lia.
    destruct (lookup_lt_is_Some_2 wr (Z.to_nat i)) as [x ->]; [lia|eauto]. }
  destruct (Hv 1 ltac:(lia)) as [w1 H1]. destruct (Hv 0 ltac:(lia)) as [w0 H0].
  destruct (Hv _ Hq) as [f Hf]. destruct (Hv _ Hr) as [g Hg].
  unfold cluster_comm, ring_comm. rewrite H1, H0. cbn [mbind result_bind].
  rewrite Hf. cbn [mbind result_bind].
  pose proof (createComm_synced E wg t f (s32 (w1 - w0)) cs) as S1.
  destruct (createComm E t f (s32 (w1 - w0)) cs) as [c1 t1]. cbn [snd mbind result_bind] in *. rewrite Hg.
  cbn [mbind result_bind].
  pose proof (createComm_synced E wg t1 g (imul (s32 (w1 - w0)) cs) nc) as S2.
  destruct (createComm E t1 g _ nc) as [c2 t2]. cbn [snd mbind result_bind] in *.
  pose proof (synced_trans _ _ _ _ S1 S2) as S12.
  destruct (proj2 S12 ltac:(eauto)) as [k2 Hk2].
  destruct (barrier_synced E t2 wg th false c1 k2 Hk2) as (t3 & -> & S3). cbn [mbind result_bind].
  pose proof (synced_trans _ _ _ _ S12 S3) as S123.
  destruct (proj2 S123 ltac:(eauto)) as [k3 Hk3].
  destruct (barrier_synced E t3 wg th blocking c2 k3 Hk3) as (t4 & -> & S4).
  exists t4. split; [done|]. by eapply synced_trans.
Qed.

(** The calls of [alltoall_gcen] are those of the plan.  For a team of
    [nc * cs] members (more than one), with blocks that fit the buffer and
    source and destination inside the window, member [me] gets block
    [gcen_src1 me i] of member [gcen_peer1 me i] into block [i] of its buffer,
    waits, puts the run of blocks from [gcen_src2 i] on to member
    [gcen_peer2 me i] at block [gcen_dst2 me], and then only synchronises. *)
Theorem alltoall_gcen_calls E t dst src size wg_id team ata type threadId blocking
    mpi_type base k :
  let n := comm_size E team in let me := comm_rank E team in
  let wr := comm_world_ranks E team in
  let cs := clust_size n in let nc := num_clust n in
  convertType type = Ok mpi_type → vec_at (outstanding t) wg_id = Ok k →
  1 < n → nc * cs = n → 0 ≤ me < n → Z.of_nat (length wr) = n →
  0 < type_size E mpi_type → 0 ≤ size → n * block E mpi_type size ≤ MAX_ATA_BUFF_SIZE →
  in_window E wg_id base mpi_type cs nc size src →
  in_window E wg_id base mpi_type cs nc size dst →
  ∃ t' rest,
    alltoall_gcen E t dst src size wg_id team ata type threadId blocking = Ok t' ∧
    log t' = log t
      ++ (i ← seqZ 0 n; get_calls E wg_id base mpi_type wr cs me size src ata i) ++ [CWaitall n]
      ++ (i ← seqZ 0 nc; put_calls E wg_id base mpi_type wr cs me size dst ata i) ++ rest ∧
    Forall is_sync rest.
Proof.
  intros n me wr cs nc Hty Hk Hn Hnc Hme Hwr Hts Hsz Hfit Hsrc Hdst.
  assert (0 < nc) as Hnc0 by (unfold nc, num_clust; apply Z.sqrt_pos; lia).
  assert (0 < cs) as Hcs0 by nia.
  unfold MAX_ATA_BUFF_SIZE in Hfit.
  assert (0 ≤ me < nc * cs) as Hme' by lia.
  assert (nc * cs * block E mpi_type size < 2 ^ 31) as Hfit' by (rewrite Hnc; lia).
  assert (Z.of_nat (length wr) = nc * cs) as Hwr' by lia.
  assert (0 ≤ type_size E mpi_type) as Hts' by lia.
  assert (size * cs < 2 ^ 31) as Hrun.
  { assert (size * cs ≤ nc * cs * block E mpi_type size); [|lia].
    assert (size ≤ block E mpi_type size) by (unfold block; nia). nia. }
  unfold alltoall_gcen. rewrite Hty. cbn [mbind result_bind]. fold n me wr. fold cs nc.
  assert (gcen_guard n (type_size E mpi_type) size = Ok tt) as ->.
  { unfold gcen_guard. fold cs nc. rewrite (proj2 (Z.eqb_eq _ _) Hnc). cbn [assert_ mbind result_bind].
    unfold block in Hfit. assert (0 ≤ type_size E mpi_type * size) by nia.
    unfold imul. rewrite (s32_small (_ * size)) by (unfold INT_MIN, INT_MAX; nia).
    rewrite s32_small by (unfold INT_MIN, INT_MAX; nia).
    by rewrite (proj2 (Z.ltb_ge _ _)) by (unfold MAX_ATA_BUFF_SIZE; nia). }
  cbn [mbind result_bind].
  replace (alltoall_step1 E t src size wg_id ata mpi_type wr cs me n)
    with (alltoall_step1 E t src size wg_id ata mpi_type wr cs me (nc * cs)) by (by rewrite Hnc).
  rewrite (alltoall_step1_calls E wg_id base mpi_type wr cs nc me size) by done.
  cbn [mbind result_bind].
  rewrite (alltoall_step2_calls E wg_id base mpi_type wr cs nc me size) by done.
  cbn [mbind result_bind].
  set (t2 := emit_all _ _).
  destruct (gcen_finish E t2 wg_id threadId blocking wr cs me nc k) as (t' & Hfin & (rest & Hlog & Hs) & _).
  - lia.
  - rewrite Z.quot_div_nonneg by lia. pose proof (Z.div_mod me cs ltac:(lia)).
    pose proof (Z.mod_pos_bound me cs Hcs0). pose proof (Z.div_pos me cs). nia.
  - rewrite Z.rem_mod_nonneg by lia. pose proof (Z.mod_pos_bound me cs Hcs0). nia.
  - subst t2. by rewrite !emit_all_outstanding.
  - exists t', rest. split; [done|]. split; [|done]. rewrite Hlog. subst t2.
    rewrite !emit_all_log, Hnc. by rewrite <- !app_assoc.
Qed.

Module ExampleTeam.

(** Four members, the first of which is this process; a window at 4096. *)
Definition team_env : env :=
mkEnv 0 4 (λ _, 0) (λ _, 4) (λ _, [0; 1; 2; 3]) (λ _, 4) Z.of_nat Z.of_nat Z.of_nat true
      (λ _, mkWindowInfo 4096 8192) (λ a, a) Z.sub.

Lemma team_window a : 4096 ≤ a ≤ 8000 → in_window team_env 0 4096 MPI_INT 2 2 2 a.
Proof.
intros Ha k Hk. assert (0 ≤ k < 32) as Hk' by (unfold block in Hk; cbn in Hk; lia).
unfold offset, get_offset. cbn.
rewrite !(proj2 (Z.leb_le _ _)), (proj2 (Z.ltb_lt _ _)) by lia. done.
Qed.

End ExampleTeam.
Import ExampleTeam.

Lemma alltoall_gcen_calls_witness :
  ∃ t' rest,
    alltoall_gcen team_env (initTransport 1) 4400 4200 2 0 7 9000 RO_NET_INT 5 true = Ok t' ∧
    log t' = []
      ++ (i ← seqZ 0 4; get_calls team_env 0 4096 MPI_INT [0; 1; 2; 3] 2 0 2 4200 9000 i)
      ++ [CWaitall 4]
      ++ (i ← seqZ 0 2; put_calls team_env 0 4096 MPI_INT [0; 1; 2; 3] 2 0 2 4400 9000 i)
      ++ rest ∧
    Forall is_sync rest.
Proof.
  apply (alltoall_gcen_calls team_env (initTransport 1) 4400 4200 2 0 7 9000 RO_NET_INT 5 true
           MPI_INT 4096 0);
    try reflexivity; try (cbn; lia); try (apply team_window; lia).
  unfold block, MAX_ATA_BUFF_SIZE. cbn. lia.
Defined.

(** In a team of one member the same algorithm is chosen for small blocks, and
    it reads the world rank of a second member that does not exist. *)
Theorem alltoall_single_member E t dst src size wg_id team ata type threadId blocking mpi_type r x y :
  comm_size E team = 1 → comm_rank E team = 0 → comm_world_ranks E team = [r] →
  convertType type = Ok mpi_type → 0 ≤ type_size E mpi_type * size < 2048 →
  0 ≤ type_size E mpi_type → 0 ≤ size < 2 ^ 31 →
  offset E wg_id src = Ok x → offset E wg_id dst = Ok y →
  alltoall E t dst src size wg_id team ata type threadId blocking = Fail BadAccess.
Proof.
  intros Hn Hme Hwr Hty Hsz Hts Hs Hsrc Hdst. unfold alltoall, alltoall_gcen.
  rewrite Hn, Hme, Hwr, Hty. cbn [mbind result_bind].
  assert (imul (type_size E mpi_type) size = type_size E mpi_type * size) as Hi.
  { unfold imul. apply s32_small. unfold INT_MIN, INT_MAX. lia. }
  rewrite Hi, (proj2 (Z.ltb_lt _ 2048)) by lia.
  change (num_clust 1) with 1. change (clust_size 1) with 1. cbn [orb andb Z.leb Z.mul Z.eqb Z.compare].
  assert (gcen_guard 1 (type_size E mpi_type) size = Ok tt) as ->.
  { unfold gcen_guard. change (num_clust 1 * clust_size 1 =? 1) with true. cbn [assert_ mbind result_bind].
    rewrite Hi. unfold imul. rewrite Z.mul_1_r, s32_small by (unfold INT_MIN, INT_MAX; lia).
    by rewrite (proj2 (Z.ltb_ge _ _)) by (unfold MAX_ATA_BUFF_SIZE; lia). }
  unfold alltoall_step1, alltoall_step2. change (Z.to_nat 1) with 1%nat.
  change (((8 <=? 1) || true) && (1 * 1 =? 1)) with true.
  cbn [for_range mbind result_bind].
  change (vec_at [r] (gcen_peer1 1 0 0)) with (Ok r).
  change (vec_at [r] (gcen_peer2 1 0 0)) with (Ok r).
  change (imul (imul (gcen_src1 1 0 0) (type_size E mpi_type)) size) with 0.
  cbn [mbind result_bind]. rewrite (Z.add_0_r src), Hsrc. cbn [mbind result_bind].
  rewrite Hdst. reflexivity.
Qed.

Lemma alltoall_single_member_witness :
  let E := mkEnv 0 4 (λ _, 0) (λ _, 1) (λ _, [2]) (λ _, 4) Z.of_nat Z.of_nat Z.of_nat true
             (λ _, mkWindowInfo 4096 8192) (λ a, a) Z.sub in
  alltoall E (initTransport 1) 4400 4200 2 0 7 9000 RO_NET_INT 5 true = Fail BadAccess.
Proof.
  apply (alltoall_single_member _ _ _ _ _ _ _ _ _ _ _ MPI_INT 2 104 304);
    reflexivity || (cbn; lia).
Defined.
