(* ===== verification/ROContext.v ===== *)
(** * The device side of the reverse-offload context

    [reverse_offload/context_ro_device.cpp] and
    [reverse_offload/ro_net_gpu_templates.hpp]: each operation either works
    directly on memory shared between the processes of a node
    ([ipc_policy.hpp]) or becomes a command for the host.  What a call does is
    the list of its effects; the lanes of a wavefront call together.  Shown: the
    bytes that are transferred, and what of a command's arguments the transport
    receives: all of them, but of the size only what fits an [int]. *)
From S2P Require Import Prelude ROQueue Coalesce Util MPITransport.

Local Open Scope Z_scope.

(** ** Interfaces of the compile-time policies *)

(** [WavefrontCoalescer]: a lane of a wavefront asks whether it must send, and
    with which size. *)
Class WavefrontCoalescer := wf_coalesce : list (option msg) → nat → msg → bool * Z.

(** The messages that remain. *)
Definition sent_by `{WavefrontCoalescer} (wave : list (option msg)) : list msg :=
  omap id (imap (λ i o,
    match o with
    | None => None
    | Some m =>
        let '(must_send_message, size) := wf_coalesce wave i m in
        if must_send_message : bool
        then Some (mkMsg (m_pe m) (m_source m) (m_dest m) size) else None
    end) wave).

(** What a coalescer promises: the same bytes go to the same places. *)
Class TransparentCoalescer (C : WavefrontCoalescer) : Prop :=
  coalescer_transparent : ∀ wave,
    length wave = 64%nat → (∀ i m, wave !! i = Some (Some m) → msg_ok (2 ^ 25 - 1) m) →
    ∀ pe s d, (∃ m, m ∈ sent_by wave ∧ copies m pe s d) ↔
              (∃ i m, wave !! i = Some (Some m) ∧ copies m pe s d).

(** [class WfCoalOn] and [class WfCoalOff]. *)
Definition WfCoalOn (garbage : nat → msg) : WavefrontCoalescer := coalesce garbage.
Definition WfCoalOff : WavefrontCoalescer := λ _ _ m, (true, m_size m).

(** [class IpcOnImpl] ([ipc_on]) and [class IpcOffImpl]. *)
Record IpcImpl := mkIpc { ipc_on : bool; shm_size : Z; ipc_bases : list Z }.

Definition isIpcAvailable (ipc : IpcImpl) (my_pe target_pe : Z) : bool :=
  ipc_on ipc && (u32 my_pe / shm_size ipc =? u32 target_pe / shm_size ipc).

(** ** Context and effects *)

Record ROContext := mkROContext {
  my_pe : Z;
  ipcImpl_ : IpcImpl;
  ro_net_win_id : Z;
  atomic_base_ptr : Z;
  atomic_counter : Z;
  g_ret : Z
}.

(** What a thread does: copies through shared memory, alone or with its
    work-group or wavefront (the peer [pe] whose memory it reaches is kept for
    the statements), atomics on shared memory, a command for the host, the
    read of a returned value. *)
Inductive effect :=
  | EIpcCopy (pe dst src size : Z)
  | EIpcCopy_wg (pe dst src size : Z)
  | EIpcCopy_wave (pe dst src size : Z)
  | EIpcFetchAdd (addr value : Z)
  | EIpcFetchCas (addr cond value : Z)
  | ECommand (threadId : Z) (a : cmd_args)
  | ELoad (addr : Z).

(** The base of a heap as this process sees it. *)
Definition ipc_base (c : ROContext) (pe : Z) : result Z := vec_at (ipc_bases (ipcImpl_ c)) pe.

(** [ipc_bases[pe] + (addr - ipc_bases[my_pe])]. *)
Definition ipc_address (c : ROContext) (pe addr : Z) : result Z :=
  mine ← ipc_base c (my_pe c);
  let L_offset := u64 (addr - mine) in
  theirs ← ipc_base c pe;
  Ok (u64 (theirs + L_offset)).

Definition ipc_available (c : ROContext) (pe : Z) : bool :=
  isIpcAvailable (ipcImpl_ c) (my_pe c) pe.

(** The arguments of [build_queue_element] that most operations leave at zero. *)
Definition rma_args (c : ROContext) (type : ro_net_cmds) (dst src size pe : Z)
    (blocking : bool) : cmd_args :=
  mkArgs type dst src 0 size pe 0 0 0 nullptr nullptr 0 (ro_net_win_id c) blocking
         ROC_SHMEM_SUM RO_NET_INT.

(** ** Operations of one thread each *)

(** The lanes whose peer is not available through shared memory. *)
Definition lanes_without (avail : Z → bool) (wave : list (option msg)) : list (option msg) :=
  (λ o, match o with
        | Some m => if avail (m_pe m) then None else Some m
        | None => None
        end) <$> wave.

(** The effects of all the lanes from [i] on. *)
Fixpoint lanes_from {E} (op : nat → msg → result (list E)) (i : nat)
    (l : list (option msg)) : result (list E) :=
  match l with
  | [] => Ok []
  | None :: l' => lanes_from op (S i) l'
  | Some m :: l' => es ← op i m; es' ← lanes_from op (S i) l'; Ok (es ++ es')
  end.

Section lanes.
Context `{WavefrontCoalescer} (c : ROContext).
(** The lanes of the wavefront and the flat index of each. *)
Context (wave : list (option msg)) (threadId : nat → Z).

(** The lanes that take the branch without shared memory. *)
Definition remote_lanes : list (option msg) := lanes_without (ipc_available c) wave.

(** The common shape of [putmem] and [putmem_nbi]. *)
Definition put_lane (type : ro_net_cmds) (blocking : bool) (i : nat) (m : msg)
    : result (list effect) :=
  if ipc_available c (m_pe m) then
    d ← ipc_address c (m_pe m) (m_dest m);
    Ok [EIpcCopy (m_pe m) d (m_source m) (m_size m)]
  else
    let '(must_send_message, nelems) := wf_coalesce remote_lanes i m in
    if negb must_send_message then Ok []
    else Ok [ECommand (threadId i)
               (rma_args c type (m_dest m) (m_source m) nelems (m_pe m) blocking)].

(** The common shape of [getmem] and [getmem_nbi]. *)
Definition get_lane (type : ro_net_cmds) (blocking : bool) (i : nat) (m : msg)
    : result (list effect) :=
  if ipc_available c (m_pe m) then
    s ← ipc_address c (m_pe m) (m_source m);
    Ok [EIpcCopy (m_pe m) (m_dest m) s (m_size m)]
  else
    let '(must_send_message, nelems) := wf_coalesce remote_lanes i m in
    if negb must_send_message then Ok []
    else Ok [ECommand (threadId i)
               (rma_args c type (m_dest m) (m_source m) nelems (m_pe m) blocking)].

Definition putmem := put_lane RO_NET_PUT true.
Definition getmem := get_lane RO_NET_GET true.
Definition putmem_nbi := put_lane RO_NET_PUT_NBI false.
Definition getmem_nbi := get_lane RO_NET_GET_NBI false.

Definition all_lanes (op : nat → msg → result (list effect)) : result (list effect) :=
  lanes_from op 0 wave.
End lanes.

(** [size_t size {sizeof(T) * nelems}] of the typed variants [put], [put_nbi],
    [get], [get_nbi] and their work-group and wavefront forms. *)
Definition typed_size (sizeof_T nelems : Z) : Z := u64 (sizeof_T * nelems).

Definition typed (sizeof_T : Z) (m : msg) : msg :=
  mkMsg (m_pe m) (m_source m) (m_dest m) (typed_size sizeof_T (m_size m)).

Section typed.
Context `{WavefrontCoalescer} (c : ROContext) (sizeof_T : Z).
Context (wave : list (option msg)) (threadId : nat → Z).

(** All lanes convert their sizes before any of them calls [putmem]. *)
Definition typed_wave : list (option msg) := option_map (typed sizeof_T) <$> wave.

Definition put (i : nat) (m : msg) := putmem c typed_wave threadId i (typed sizeof_T m).
Definition put_nbi (i : nat) (m : msg) := putmem_nbi c typed_wave threadId i (typed sizeof_T m).
Definition get (i : nat) (m : msg) := getmem c typed_wave threadId i (typed sizeof_T m).
Definition get_nbi (i : nat) (m : msg) := getmem_nbi c typed_wave threadId i (typed sizeof_T m).
End typed.

(** ** Operations of a work-group or a wavefront: what one thread does *)

Section groups.
Context (c : ROContext) (hipThreadIdx hipBlockDim : dim3).

Let threadId : Z := get_flat_block_id hipThreadIdx hipBlockDim.

(** A command that only one thread of the block builds. *)
Definition by_thread_zero (a : cmd_args) : list effect :=
  if is_thread_zero_in_block hipThreadIdx then [ECommand threadId a] else [].

Definition by_wave_thread (a : cmd_args) : list effect :=
  if is_thread_zero_in_wave threadId then [ECommand threadId a] else [].

Definition put_group (ipc_copy : Z → Z → Z → Z → effect) (send : cmd_args → list effect)
    (type : ro_net_cmds) (blocking : bool) (dest source nelems pe : Z) : result (list effect) :=
  if ipc_available c pe then
    d ← ipc_address c pe dest; Ok [ipc_copy pe d source nelems]
  else Ok (send (rma_args c type dest source nelems pe blocking)).

Definition get_group (ipc_copy : Z → Z → Z → Z → effect) (send : cmd_args → list effect)
    (type : ro_net_cmds) (blocking : bool) (dest source nelems pe : Z) : result (list effect) :=
  if ipc_available c pe then
    s ← ipc_address c pe source; Ok [ipc_copy pe dest s nelems]
  else Ok (send (rma_args c type dest source nelems pe blocking)).

Definition putmem_wg := put_group EIpcCopy_wg by_thread_zero RO_NET_PUT true.
Definition getmem_wg := get_group EIpcCopy_wg by_thread_zero RO_NET_GET true.
Definition putmem_nbi_wg := put_group EIpcCopy_wg by_thread_zero RO_NET_PUT_NBI false.
Definition getmem_nbi_wg := get_group EIpcCopy_wg by_thread_zero RO_NET_GET_NBI false.
Definition putmem_wave := put_group EIpcCopy_wave by_wave_thread RO_NET_PUT true.
Definition getmem_wave := get_group EIpcCopy_wave by_wave_thread RO_NET_GET true.
Definition putmem_nbi_wave := put_group EIpcCopy_wave by_wave_thread RO_NET_PUT_NBI false.
Definition getmem_nbi_wave := get_group EIpcCopy_wave by_wave_thread RO_NET_GET_NBI false.

Definition put_wg sizeof_T dest source nelems := putmem_wg dest source (typed_size sizeof_T nelems).
Definition put_nbi_wg sizeof_T dest source nelems :=
  putmem_nbi_wg dest source (typed_size sizeof_T nelems).
Definition get_wg sizeof_T dest source nelems := getmem_wg dest source (typed_size sizeof_T nelems).
Definition get_nbi_wg sizeof_T dest source nelems :=
  getmem_nbi_wg dest source (typed_size sizeof_T nelems).
Definition put_wave sizeof_T dest source nelems :=
  putmem_wave dest source (typed_size sizeof_T nelems).
Definition put_nbi_wave sizeof_T dest source nelems :=
  putmem_nbi_wave dest source (typed_size sizeof_T nelems).
Definition get_wave sizeof_T dest source nelems :=
  getmem_wave dest source (typed_size sizeof_T nelems).
Definition get_nbi_wave sizeof_T dest source nelems :=
  getmem_nbi_wave dest source (typed_size sizeof_T nelems).
End groups.

(** ** Synchronisation, atomics, single values and collectives *)

(** [struct GetROType]: the types that have a specialisation. *)
Inductive c_type :=
  | T_char | T_uchar | T_schar | T_ushort | T_uint | T_ulong | T_ulonglong
  | T_float | T_double | T_int | T_short | T_long | T_longlong | T_longdouble.

Definition GetROType (T : c_type) : ro_net_types :=
  match T with
  | T_char | T_uchar | T_schar => RO_NET_CHAR
  | T_ushort | T_short => RO_NET_SHORT
  | T_uint | T_int => RO_NET_INT
  | T_ulong | T_long => RO_NET_LONG
  | T_ulonglong | T_longlong => RO_NET_LONG_LONG
  | T_float => RO_NET_FLOAT
  | T_double => RO_NET_DOUBLE
  | T_longdouble => RO_NET_LONG_DOUBLE
  end.

(** [struct ROTeam]: the communicator and the buffer of the collectives. *)
Record ROTeam := mkROTeam { mpi_comm : Z; ata_buffer : Z }.

Definition max_nb_atomic : Z := 4096.

Section calls.
Context (c : ROContext) (hipThreadIdx hipBlockDim : dim3).

Let threadId : Z := get_flat_block_id hipThreadIdx hipBlockDim.

Definition control_args (type : ro_net_cmds) (team_comm : Z) : cmd_args :=
  mkArgs type nullptr nullptr 0 0 0 0 0 0 nullptr nullptr team_comm (ro_net_win_id c) true
         ROC_SHMEM_SUM RO_NET_INT.

Definition fence : list effect := [ECommand threadId (control_args RO_NET_FENCE 0)].
Definition fence_pe (pe : Z) : list effect := [ECommand threadId (control_args RO_NET_FENCE 0)].
Definition quiet : list effect := [ECommand threadId (control_args RO_NET_QUIET 0)].

Definition barrier_all : list effect :=
  by_thread_zero hipThreadIdx hipBlockDim (control_args RO_NET_BARRIER_ALL 0).
Definition sync_all : list effect :=
  by_thread_zero hipThreadIdx hipBlockDim (control_args RO_NET_BARRIER_ALL 0).
Definition sync (team : ROTeam) : list effect :=
  by_thread_zero hipThreadIdx hipBlockDim (control_args RO_NET_SYNC (mpi_comm team)).

(** [ROContext::shmem_ptr]. *)
Definition shmem_ptr (dest pe : Z) : result Z :=
  if ipc_available c pe then ipc_address c pe dest else Ok nullptr.

(** The slot of the returned value: [&atomic_base_ptr[counter++ % max_nb_atomic]]. *)
Definition next_atomic : Z * ROContext :=
  let pos := atomic_counter c `mod` max_nb_atomic in
  (atomic_base_ptr c + 8 * pos,
   mkROContext (my_pe c) (ipcImpl_ c) (ro_net_win_id c) (atomic_base_ptr c)
               (u64 (atomic_counter c + 1)) (g_ret c)).

(** An atomic command: the operand travels as the size. *)
Definition amo_args (type : ro_net_cmds) (dst source value pe cond : Z) : cmd_args :=
  mkArgs type dst source 0 (u64 value) pe 0 0 0 cond nullptr 0 (ro_net_win_id c) true
         ROC_SHMEM_SUM RO_NET_INT.

Definition amo_fetch_cas (dst value cond pe : Z) : result (list effect * ROContext) :=
  if ipc_available c pe then
    addr ← ipc_address c pe dst; Ok ([EIpcFetchCas addr (u64 cond) (u64 value)], c)
  else
    let '(source, c') := next_atomic in
    Ok ([ECommand threadId (amo_args RO_NET_AMO_FCAS dst source value pe (u64 cond));
         ELoad source], c').

Definition amo_cas (dst value cond pe : Z) : result (list effect * ROContext) :=
  Fail AssertFailed.

Definition amo_fetch_add (dst value cond pe : Z) : result (list effect * ROContext) :=
  if ipc_available c pe then
    addr ← ipc_address c pe dst; Ok ([EIpcFetchAdd addr (u64 value)], c)
  else
    let '(source, c') := next_atomic in
    Ok ([ECommand threadId (amo_args RO_NET_AMO_FOP dst source value pe nullptr);
         ELoad source], c').

Definition amo_add (dst value cond pe : Z) : result (list effect * ROContext) :=
  if ipc_available c pe then
    addr ← ipc_address c pe dst; Ok ([EIpcFetchAdd addr (u64 value)], c)
  else
    let '(source, c') := next_atomic in
    Ok ([ECommand threadId (amo_args RO_NET_AMO_FOP dst source value pe nullptr)], c').

(** [ROContext::p]: [value_addr] is the address of the by-value argument. *)
Definition p (sizeof_T dest value_addr value pe : Z) : result (list effect) :=
  if ipc_available c pe then
    d ← ipc_address c pe dest; Ok [EIpcCopy pe d value_addr sizeof_T]
  else
    Ok [ECommand threadId
          (mkArgs RO_NET_P dest value_addr value sizeof_T pe 0 0 0 nullptr nullptr 0
                  (ro_net_win_id c) true ROC_SHMEM_SUM RO_NET_INT)].

(** The result buffer of [g] for this thread: eight bytes each. *)
Definition g_slot (global_buffer_id : Z) : Z :=
  let offset := s32 (s32 (global_buffer_id * get_flat_block_size hipBlockDim) + threadId) in
  g_ret c + u64 (offset * 8).

Definition team_args (type : ro_net_cmds) (dest source nelems pe_root pWrk : Z) (team : ROTeam)
    (op : ROC_SHMEM_OP) (T : c_type) : cmd_args :=
  mkArgs type dest source 0 (u64 nelems) 0 0 0 pe_root pWrk nullptr (mpi_comm team)
         (ro_net_win_id c) true op (GetROType T).

Definition team_to_all (team : ROTeam) (op : ROC_SHMEM_OP) (T : c_type)
    (dest source nreduce : Z) : list effect :=
  by_thread_zero hipThreadIdx hipBlockDim
    (team_args RO_NET_TEAM_TO_ALL dest source nreduce 0 nullptr team op T).

Definition to_all (op : ROC_SHMEM_OP) (T : c_type)
    (dest source nreduce PE_start logPE_stride PE_size pWrk pSync : Z) : list effect :=
  by_thread_zero hipThreadIdx hipBlockDim
    (mkArgs RO_NET_TO_ALL dest source 0 (u64 nreduce) PE_start logPE_stride PE_size 0 pWrk pSync 0
            (ro_net_win_id c) true op (GetROType T)).

Definition team_broadcast (team : ROTeam) (T : c_type) (dest source nelems pe_root : Z)
    : list effect :=
  by_thread_zero hipThreadIdx hipBlockDim
    (team_args RO_NET_TEAM_BROADCAST dest source nelems pe_root nullptr team ROC_SHMEM_SUM T).

Definition broadcast (T : c_type) (dest source nelems pe_root pe_start log_pe_stride pe_size p_sync : Z)
    : list effect :=
  by_thread_zero hipThreadIdx hipBlockDim
    (mkArgs RO_NET_BROADCAST dest source 0 (u64 nelems) pe_start log_pe_stride pe_size pe_root nullptr
            p_sync 0 (ro_net_win_id c) true ROC_SHMEM_SUM (GetROType T)).

Definition alltoall (team : ROTeam) (T : c_type) (dest source nelems : Z) : list effect :=
  by_thread_zero hipThreadIdx hipBlockDim
    (team_args RO_NET_ALLTOALL dest source nelems 0 (ata_buffer team) team ROC_SHMEM_SUM T).

Definition fcollect (team : ROTeam) (T : c_type) (dest source nelems : Z) : list effect :=
  by_thread_zero hipThreadIdx hipBlockDim
    (team_args RO_NET_FCOLLECT dest source nelems 0 (ata_buffer team) team ROC_SHMEM_SUM T).
End calls.

(** [ROContext::g], for the calling lane of a wavefront: the value is read from
    the address that the last effect loads; [local] is the address of the local
    variable of the shared-memory branch. *)
Definition g `{WavefrontCoalescer} (c : ROContext) (sizeof_T : Z) (wave : list (option msg))
    (threadId : nat → Z) (i : nat) (local source dest pe : Z) : result (list effect) :=
  if ipc_available c pe then
    s ← ipc_address c pe source; Ok [EIpcCopy pe local s sizeof_T; ELoad local]
  else
    es ← get c sizeof_T wave threadId i (mkMsg pe source dest 1);
    Ok (es ++ [ELoad dest]).

(** ** The pool of windows: [ctx_create] and [ctx_destroy] *)

(** [atomicCAS(&pool_alloc_mask[i], 0, 1)]: the old value and the new mask. *)
Definition cas_window (mask : list Z) (i : nat) : option (Z * list Z) :=
  match mask !! i with
  | Some b => Some (b, if b =? 0 then <[i := 1]> mask else mask)
  | None => None
  end.

(** A work-group in [ctx_create] at entry [i], with a window, or without one
    (its id is still -1). *)
Inductive win_pc := Scanning (i : nat) | HasWindow (i : nat) | NoWindow.

(** The mask in global memory and the work-groups' contexts. *)
Record win_state := mkWin { win_pool_alloc_bitmask : list Z; groups : gmap Z win_pc }.

Definition set_group (w : win_state) (mask : list Z) (g : Z) (p : win_pc) : win_state :=
  mkWin mask (<[g := p]> (groups w)).

(** The loop of [ctx_create] one atomic operation at a time, and [ctx_destroy]. *)
Inductive win_step (w : win_state) : win_state → Prop :=
  | win_start g :
      groups w !! g = None → win_step w (set_group w (win_pool_alloc_bitmask w) g (Scanning 0))
  | win_hit g i mask' :
      groups w !! g = Some (Scanning i) →
      cas_window (win_pool_alloc_bitmask w) i = Some (0, mask') →
      win_step w (set_group w mask' g (HasWindow i))
  | win_miss g i b mask' :
      groups w !! g = Some (Scanning i) →
      cas_window (win_pool_alloc_bitmask w) i = Some (b, mask') → b ≠ 0 →
      win_step w (set_group w mask' g (Scanning (S i)))
  | win_none g i :
      groups w !! g = Some (Scanning i) → cas_window (win_pool_alloc_bitmask w) i = None →
      win_step w (set_group w (win_pool_alloc_bitmask w) g NoWindow)
  | win_destroy g i :
      groups w !! g = Some (HasWindow i) →
      win_step w (mkWin (<[i := 0]> (win_pool_alloc_bitmask w)) (delete g (groups w))).

(** The command of [ctx_destroy]; the host runs a quiet for it. *)
Definition ctx_destroy_command (c : ROContext) (threadId : Z) : effect :=
  ECommand threadId (control_args c RO_NET_FINALIZE 0).

(** ** The coalescers are transparent *)

Lemma elem_of_sent_by `{WavefrontCoalescer} wave m' :
  m' ∈ sent_by wave ↔ ∃ i m size, wave !! i = Some (Some m) ∧
    wf_coalesce wave i m = (true, size) ∧ m' = mkMsg (m_pe m) (m_source m) (m_dest m) size.
Proof.
  unfold sent_by. rewrite list_elem_of_omap. split.
  - intros (o & Ho & Heq). unfold id in Heq. subst o. apply elem_of_lookup_imap in Ho as (i & [m|] & Ho & Hi); [|done].
    destruct (wf_coalesce wave i m) as [[] size] eqn:E; simplify_eq. eauto 10.
  - intros (i & m & size & Hi & Hc & ->). eexists. split; [|done].
    apply elem_of_lookup_imap. exists i, (Some m). split; [by rewrite Hc|done].
Qed.

#[export] Instance WfCoalOn_transparent garbage : TransparentCoalescer (WfCoalOn garbage).
Proof. intros wave Hl Hok pe s d. by apply (coalesce_equivalent garbage wave). Qed.

#[export] Instance WfCoalOff_transparent : TransparentCoalescer WfCoalOff.
Proof.
  intros wave _ _ pe s d. setoid_rewrite elem_of_sent_by. split.
  - intros (m' & (i & m & size & Hi & [= <-] & ->) & Hc). exists i, m. split; [done|].
    by destruct m.
  - intros (i & m & Hi & Hc). exists m. split; [|done]. exists i, m, (m_size m).
    split; [done|]. split; [done|]. by destruct m.
Qed.

(** ** Puts and gets *)

(** The address of a message that belongs to the peer. *)
Definition remote_addr (is_put : bool) (m : msg) : Z := if is_put then m_dest m else m_source m.

(** The effect copies the byte at [s] to the address [d]; the remote one of the
    two is an address of [pe] in terms of this process's own heap. *)
Definition effect_copies (is_put : bool) (c : ROContext) (e : effect) (pe s d : Z) : Prop :=
  match e with
  | EIpcCopy pe' dst src size =>
      pe' = pe ∧ ∃ mine theirs k, ipc_base c (my_pe c) = Ok mine ∧ ipc_base c pe = Ok theirs ∧
        0 ≤ k < size ∧
        if is_put then s = src + k ∧ theirs + (d - mine) = dst + k
        else d = dst + k ∧ theirs + (s - mine) = src + k
  | ECommand _ a =>
      a_pe a = pe ∧ ∃ k, 0 ≤ k < a_size a ∧ s = a_src a + k ∧ d = a_dst a + k
  | _ => False
  end.

(** The heaps of the peers of this node are mapped, and the remote range of the
    message lies inside them. *)
Definition ipc_mapped (is_put : bool) (c : ROContext) (m : msg) : Prop :=
  ipc_available c (m_pe m) = true →
  ∃ mine theirs, ipc_base c (my_pe c) = Ok mine ∧ ipc_base c (m_pe m) = Ok theirs ∧
    0 ≤ mine ≤ remote_addr is_put m ∧ 0 ≤ theirs ∧
    theirs + (remote_addr is_put m - mine) + m_size m < 2 ^ 64.

Lemma lanes_without_lookup avail wave i m :
  lanes_without avail wave !! i = Some (Some m) ↔
  wave !! i = Some (Some m) ∧ avail (m_pe m) = false.
Proof.
  unfold lanes_without. rewrite list_lookup_fmap. destruct (wave !! i) as [[m'|]|]; cbn.
  - destruct (avail (m_pe m')) eqn:E.
    + split; [done|]. intros [[= ->] Hf]. congruence.
    + split; [by intros [= ->]|by intros [[= ->] _]].
  - split; [done|by intros [? _]].
  - split; [done|by intros [? _]].
Qed.

Lemma lanes_from_spec {E} (op : nat → msg → result (list E)) i (wave : list (option msg)) :
  (∀ k m, wave !! k = Some (Some m) → ∃ es, op (i + k)%nat m = Ok es) →
  ∃ effs, lanes_from op i wave = Ok effs ∧
    ∀ e, e ∈ effs ↔ ∃ k m es, wave !! k = Some (Some m) ∧ op (i + k)%nat m = Ok es ∧ e ∈ es.
Proof.
  revert i. induction wave as [|o wave IH]; intros i Hop.
  { exists []. split; [done|]. intros e. split; [by intros ?%not_elem_of_nil|naive_solver]. }
  destruct (IH (S i)) as (effs & Heffs & Hin).
  { intros k m Hk. destruct (Hop (S k) m Hk) as [es Hes]. exists es. by rewrite <- Hes, Nat.add_succ_r. }
  destruct o as [m|]; cbn; rewrite Heffs; cbn.
  - destruct (Hop 0%nat m eq_refl) as [es Hes]. rewrite Nat.add_0_r in Hes. rewrite Hes. cbn.
    exists (es ++ effs). split; [done|]. intros e. rewrite elem_of_app, Hin. split.
    + intros [He|(k & m' & es' & Hk & Ho & He)].
      * exists 0%nat, m, es. by rewrite Nat.add_0_r.
      * exists (S k), m', es'. by rewrite Nat.add_succ_r.
    + intros ([|k] & m' & es' & Hk & Ho & He).
      * left. rewrite Nat.add_0_r in Ho. injection Hk as <-. rewrite Hes in Ho. by injection Ho as ->.
      * right. exists k, m', es'. by rewrite Nat.add_succ_r in Ho.
  - exists effs. split; [done|]. intros e. rewrite Hin. split.
    + intros (k & m' & es' & ?). exists (S k), m', es'. by rewrite Nat.add_succ_r.
    + intros ([|k] & m' & es' & Hk & Ho & He); [done|]. exists k, m', es'.
      by rewrite Nat.add_succ_r in Ho.
Qed.

(** What the lanes of a wavefront have to do so that together they copy what they
    are asked for: [avail] says which peers share memory, [ecopies] what an effect
    copies. *)
Section wavefront.
Context `{HC : WavefrontCoalescer} `{!TransparentCoalescer HC}.
Context {E : Type} (avail : Z → bool) (ecopies : E → Z → Z → Z → Prop).
Context (op : nat → msg → result (list E)) (wave : list (option msg)).

Definition local_lane (i : nat) (m : msg) : Prop :=
  ∃ es, op i m = Ok es ∧ ∀ pe s d, (∃ e, e ∈ es ∧ ecopies e pe s d) ↔ copies m pe s d.
Definition remote_lane (i : nat) (m : msg) : Prop :=
  ∃ es, op i m = Ok es ∧ ∀ pe s d, (∃ e, e ∈ es ∧ ecopies e pe s d) ↔
    (wf_coalesce (lanes_without avail wave) i m).1 = true ∧
    copies (mkMsg (m_pe m) (m_source m) (m_dest m) (wf_coalesce (lanes_without avail wave) i m).2) pe s d.

Lemma wave_transfers :
  length wave = 64%nat → (∀ i m, wave !! i = Some (Some m) → msg_ok (2 ^ 25 - 1) m) →
  (∀ i m, wave !! i = Some (Some m) → if avail (m_pe m) then local_lane i m else remote_lane i m) →
  ∃ effs, lanes_from op 0 wave = Ok effs ∧
    ∀ pe s d, (∃ e, e ∈ effs ∧ ecopies e pe s d) ↔ (∃ i m, wave !! i = Some (Some m) ∧ copies m pe s d).
Proof using All.
  intros Hlen Hok Hlane. destruct (lanes_from_spec op 0 wave) as (effs & -> & Hin).
  { intros i m Hi. pose proof (Hlane i m Hi) as Hl.
    destruct (avail (m_pe m)); destruct Hl as (es & Hes & _); exists es; exact Hes. }
  exists effs. split; [done|]. intros pe s d. setoid_rewrite Hin. cbn.
  pose proof (coalescer_transparent (lanes_without avail wave)) as Htr.
  specialize (Htr ltac:(unfold lanes_without; by rewrite length_fmap)
    ltac:(intros i m [Hi _]%lanes_without_lookup; by apply Hok in Hi) pe s d).
  split.
  - intros (e & (i & m & es & Hi & Hop & He) & Hcp). pose proof (Hlane i m Hi) as Hl.
    destruct (avail (m_pe m)) eqn:Ha; destruct Hl as (es' & Hes & Heq); rewrite Hes in Hop; injection Hop as <-.
    + exists i, m. split; [done|]. apply Heq. eauto.
    + destruct (proj1 (Heq pe s d) (ex_intro _ e (conj He Hcp))) as [Hmust Hc].
      destruct (proj1 Htr) as (j & m' & [Hj _]%lanes_without_lookup & Hc'); [|eauto].
      eexists. split; [|exact Hc]. apply elem_of_sent_by. exists i, m. eexists.
      split; [by apply lanes_without_lookup|]. split; [|reflexivity].
      destruct (wf_coalesce (lanes_without avail wave) i m); cbn in *; by subst.
  - intros (i & m & Hi & Hc). pose proof (Hlane i m Hi) as Hl. destruct (avail (m_pe m)) eqn:Ha.
    + destruct Hl as (es & Hes & Heq). destruct (proj2 (Heq pe s d) Hc) as (e & He & Hcp).
      exists e. split; [|done]. by exists i, m, es.
    + destruct (proj2 Htr) as (m' & Hm' & Hc').
      { exists i, m. split; [by apply lanes_without_lookup|done]. }
      apply elem_of_sent_by in Hm' as (j & m'' & size & [Hj Ha']%lanes_without_lookup & Hw & ->).
      pose proof (Hlane j m'' Hj) as Hl'. rewrite Ha' in Hl'. destruct Hl' as (es & Hes & Heq).
      rewrite Hw in Heq. destruct (proj2 (Heq pe s d) (conj eq_refl Hc')) as (e & He & Hcp).
      exists e. split; [|done]. by exists j, m'', es.
Qed.
End wavefront.

Section transfers.
Context `{HC : WavefrontCoalescer} (c : ROContext) (threadId : nat → Z).
Implicit Types (wave : list (option msg)) (m : msg).

(** The two shapes of a lane's call at once. *)
Definition lane_call (is_put : bool) wave (type : ro_net_cmds) (blocking : bool) :=
  if is_put then put_lane c wave threadId type blocking
  else get_lane c wave threadId type blocking.

Lemma ipc_address_ok pe addr mine theirs size :
  ipc_base c (my_pe c) = Ok mine → ipc_base c pe = Ok theirs →
  0 ≤ mine ≤ addr → 0 ≤ theirs → 0 ≤ size → theirs + (addr - mine) + size < 2 ^ 64 →
  ipc_address c pe addr = Ok (theirs + (addr - mine)).
Proof.
  intros Hm Ht ????. unfold ipc_address. rewrite Hm. cbn. rewrite Ht. cbn.
  rewrite (uwrap_small 64 (addr - mine)) by lia. by rewrite uwrap_small by lia.
Qed.

(** A lane whose peer shares memory with it. *)
Lemma lane_ipc is_put wave type blocking i m :
  ipc_available c (m_pe m) = true → ipc_mapped is_put c m → 0 ≤ m_size m →
  ∃ e, lane_call is_put wave type blocking i m = Ok [e] ∧
    ∀ pe s d, effect_copies is_put c e pe s d ↔ copies m pe s d.
Proof.
  intros Ha Hmap Hsz. destruct (Hmap Ha) as (mine & theirs & Hm & Ht & H1 & H2 & H3).
  unfold lane_call, remote_addr in *.
  destruct is_put; unfold put_lane, get_lane; rewrite Ha; rewrite (ipc_address_ok _ _ mine theirs (m_size m)) by done; cbn;
    (eexists; split; [done|]); intros pe s d; unfold copies; cbn;
    (split; [intros (<- & mine' & theirs' & k & Hm' & Ht' & Hk & Hs & Hd);
             rewrite Hm in Hm'; rewrite Ht in Ht'; simplify_eq; split; [done|]; exists k; lia|
             intros (<- & k & Hk & -> & ->); split; [done|];
             exists mine, theirs, k; do 3 (split; [done|]); lia]).
Qed.

(** The other lanes send what the coalescer leaves them. *)
Lemma lane_remote is_put wave type blocking i m :
  ipc_available c (m_pe m) = false →
  lane_call is_put wave type blocking i m =
    Ok (if (wf_coalesce (remote_lanes c wave) i m).1
        then [ECommand (threadId i) (rma_args c type (m_dest m) (m_source m)
                (wf_coalesce (remote_lanes c wave) i m).2 (m_pe m) blocking)]
        else []).
Proof.
  intros Ha. unfold lane_call.
  destruct is_put; unfold put_lane, get_lane; rewrite Ha; by destruct (wf_coalesce _ i m) as [[] size].
Qed.

Lemma transfer_spec `{!TransparentCoalescer HC} is_put wave type blocking :
  length wave = 64%nat →
  (∀ i m, wave !! i = Some (Some m) → msg_ok (2 ^ 25 - 1) m ∧ ipc_mapped is_put c m) →
  ∃ effs, all_lanes wave (lane_call is_put wave type blocking) = Ok effs ∧
    ∀ pe s d, (∃ e, e ∈ effs ∧ effect_copies is_put c e pe s d) ↔
              (∃ i m, wave !! i = Some (Some m) ∧ copies m pe s d).
Proof.
  intros Hlen Hok. apply (wave_transfers (ipc_available c)); [done|intros i m Hi; exact (proj1 (Hok i m Hi))|].
  intros i m Hi. destruct (Hok i m Hi) as [[Hsz _] Hmap]. destruct (ipc_available c (m_pe m)) eqn:Ha.
  - destruct (lane_ipc is_put wave type blocking i m Ha Hmap ltac:(lia)) as (e & He & Heq).
    exists [e]. split; [done|]. intros pe s d. rewrite <- Heq. set_solver.
  - eexists. split; [by apply lane_remote|]. intros pe s d. unfold remote_lanes.
    destruct (wf_coalesce _ i m) as [[] size]; cbn; [|set_solver].
    setoid_rewrite list_elem_of_singleton. split; [intros (e & -> & Hc); done|].
    intros [_ Hc]. eexists. split; [reflexivity|exact Hc].
Qed.
End transfers.

(** A wavefront of 64 lanes that calls [putmem] transfers exactly the bytes its
    active lanes ask for, with either coalescer: through shared memory at the
    translated address for peers of the node, by commands to the host for the
    others. *)
Theorem putmem_transfers (C : WavefrontCoalescer) (HC : TransparentCoalescer C)
    (c : ROContext) (threadId : nat → Z) (wave : list (option msg)) :
  length wave = 64%nat →
  (∀ i m, wave !! i = Some (Some m) → msg_ok (2 ^ 25 - 1) m ∧ ipc_mapped true c m) →
  ∃ effs, all_lanes wave (putmem c wave threadId) = Ok effs ∧
    ∀ pe s d, (∃ e, e ∈ effs ∧ effect_copies true c e pe s d) ↔
              (∃ i m, wave !! i = Some (Some m) ∧ copies m pe s d).
Proof. apply (transfer_spec c threadId true). Qed.

(** Likewise for [getmem]: the bytes that arrive are the ones the active lanes
    asked for, from the right places of the right peers. *)
Theorem getmem_transfers (C : WavefrontCoalescer) (HC : TransparentCoalescer C)
    (c : ROContext) (threadId : nat → Z) (wave : list (option msg)) :
  length wave = 64%nat →
  (∀ i m, wave !! i = Some (Some m) → msg_ok (2 ^ 25 - 1) m ∧ ipc_mapped false c m) →
  ∃ effs, all_lanes wave (getmem c wave threadId) = Ok effs ∧
    ∀ pe s d, (∃ e, e ∈ effs ∧ effect_copies false c e pe s d) ↔
              (∃ i m, wave !! i = Some (Some m) ∧ copies m pe s d).
Proof. apply (transfer_spec c threadId false). Qed.

Module ExampleContext.

(** Process 0 of a node of two, its heap at 4096 and its neighbour's at 2^20. *)
Definition node : ROContext := mkROContext 0 (mkIpc true 2 [4096; 2 ^ 20]) (-1) 0 0 0.

(** One lane reaches the neighbour, lanes 1 and 2 adjacent words of process 5 on
  another node; [is_put] says which address is the remote one. *)
Definition lane (is_put : bool) (pe local remote : Z) : option msg :=
Some (if is_put then mkMsg pe local remote 8 else mkMsg pe remote local 8).

Definition lanes (is_put : bool) : list (option msg) :=
[lane is_put 1 1000 4200; lane is_put 5 2000 4300; lane is_put 5 2008 4308] ++
replicate 61 None.

Definition coalescer : WavefrontCoalescer := WfCoalOn (λ _, mkMsg 0 0 0 0).

Lemma lanes_ok is_put i m :
lanes is_put !! i = Some (Some m) → msg_ok (2 ^ 25 - 1) m ∧ ipc_mapped is_put node m.
Proof.
intros H. destruct i as [|[|[|i]]].
4: { change (replicate 61 (None : option msg) !! i = Some (Some m)) in H.
     by apply lookup_replicate in H as [? _]. }
all: injection H as <-; unfold msg_ok, ipc_mapped, remote_addr; destruct is_put; cbn;
  (split; [lia|]); intros Ha; try done.
all: exists 4096, (2 ^ 20); cbn; repeat split; lia.
Qed.

End ExampleContext.
Import ExampleContext.

Lemma putmem_transfers_witness :
  ∃ effs, all_lanes (lanes true) (putmem (H := coalescer) node (lanes true) Z.of_nat) = Ok effs ∧
    ∀ pe s d, (∃ e, e ∈ effs ∧ effect_copies true node e pe s d) ↔
              (∃ i m, lanes true !! i = Some (Some m) ∧ copies m pe s d).
Proof.
  apply (putmem_transfers coalescer (WfCoalOn_transparent _) node Z.of_nat (lanes true)).
  - reflexivity.
  - apply lanes_ok.
Defined.

Lemma getmem_transfers_witness :
  ∃ effs, all_lanes (lanes false) (getmem (H := coalescer) node (lanes false) Z.of_nat) = Ok effs ∧
    ∀ pe s d, (∃ e, e ∈ effs ∧ effect_copies false node e pe s d) ↔
              (∃ i m, lanes false !! i = Some (Some m) ∧ copies m pe s d).
Proof.
  apply (getmem_transfers coalescer (WfCoalOn_transparent _) node Z.of_nat (lanes false)).
  - reflexivity.
  - apply lanes_ok.
Defined.

(** The table of mapped heaps has one entry per process of the node, but is
    indexed by the number of the process in the world: on every node but the
    first, an operation on a peer of the node reads beyond the table. *)
Theorem ipc_beyond_first_node (C : WavefrontCoalescer) (c : ROContext) wave threadId i m :
  ipc_on (ipcImpl_ c) = true →
  Z.of_nat (length (ipc_bases (ipcImpl_ c))) = shm_size (ipcImpl_ c) →
  shm_size (ipcImpl_ c) ≤ my_pe c → ipc_available c (m_pe m) = true →
  putmem c wave threadId i m = Fail BadAccess ∧ getmem c wave threadId i m = Fail BadAccess.
Proof.
  intros Hon Hl Hpe Ha. unfold putmem, getmem, put_lane, get_lane. rewrite Ha.
  assert (ipc_base c (my_pe c) = Fail BadAccess) as Hb.
  { unfold ipc_base, vec_at. rewrite (proj2 (Z.ltb_ge _ _)) by lia.
    by rewrite lookup_ge_None_2 by lia. }
  unfold ipc_address. by rewrite Hb.
Qed.

Lemma ipc_beyond_first_node_witness :
  let c := mkROContext 2 (mkIpc true 2 [4096; 2 ^ 20]) (-1) 0 0 0 in
  putmem (H := coalescer) c (lanes true) Z.of_nat 0 (mkMsg 3 1000 4200 8) = Fail BadAccess ∧
  getmem (H := coalescer) c (lanes true) Z.of_nat 0 (mkMsg 3 1000 4200 8) = Fail BadAccess.
Proof. apply ipc_beyond_first_node; reflexivity || (cbn; lia). Defined.

(** ** From the device's arguments to the host's operation *)

(** The operation of the transport that a command stands for: the one its type
    names, with the arguments that the device gave and the number [size] in the
    place of the command's size. *)
Definition requested (E : env) (t : transport) (a : cmd_args) (threadId queue_idx size : Z)
    : result transport :=
  let dst := a_dst a in let src := a_src a in let pe := a_pe a in
  match a_type a with
  | RO_NET_PUT => putMem E t dst src size pe queue_idx threadId true false
  | RO_NET_PUT_NBI => putMem E t dst src size pe queue_idx threadId false false
  | RO_NET_GET => getMem E t dst src size pe queue_idx threadId true
  | RO_NET_GET_NBI => getMem E t dst src size pe queue_idx threadId false
  | RO_NET_P =>
      let buf := new_buffer E (length (log t)) in
      putMem E (emit t (CInline_buffer buf size (a_value a `mod` 2 ^ (8 * size))))
             dst buf size pe queue_idx threadId true true
  | RO_NET_AMO_FOP => amoFOP E t dst src size pe queue_idx threadId (a_op a)
  | RO_NET_AMO_FCAS => amoFCAS E t dst src size pe queue_idx threadId (a_pWrk a)
  | RO_NET_TEAM_TO_ALL =>
      team_reduction E t dst src size queue_idx (a_team_comm a) (a_op a) (a_datatype a) threadId true
  | RO_NET_TO_ALL =>
      reduction E t dst src size pe queue_idx pe (a_logPE_stride a) (a_PE_size a) (a_op a)
                (a_datatype a) threadId true
  | RO_NET_TEAM_BROADCAST =>
      MPITransport.team_broadcast E t dst src size queue_idx (a_team_comm a) (a_PE_root a)
                (a_datatype a) threadId true
  | RO_NET_BROADCAST =>
      MPITransport.broadcast E t dst src size pe queue_idx pe (a_logPE_stride a) (a_PE_size a)
                (a_PE_root a) (a_datatype a) threadId true
  | RO_NET_ALLTOALL =>
      MPITransport.alltoall E t dst src size queue_idx (a_team_comm a) (a_pWrk a) (a_datatype a)
                threadId true
  | RO_NET_FCOLLECT =>
      MPITransport.fcollect E t dst src size queue_idx (a_team_comm a) (a_pWrk a) (a_datatype a)
                threadId true
  | RO_NET_BARRIER_ALL => barrier E t queue_idx threadId true (ro_net_comm_world E)
  | RO_NET_SYNC => barrier E t queue_idx threadId true (a_team_comm a)
  | RO_NET_FENCE | RO_NET_QUIET | RO_NET_FINALIZE => MPITransport.quiet t queue_idx threadId
  end.

(** What is served of it: the size has gone through the [int] of the element. *)
Definition serve (E : env) (t : transport) (a : cmd_args) (threadId queue_idx : Z)
    : result transport :=
  requested E t a threadId queue_idx (s32 (a_size a)).

(** The number that the device means by the size: for an atomic operation it is
    the operand, a signed number that the device passes as a [size_t]. *)
Definition given_size (a : cmd_args) : Z :=
  match a_type a with
  | RO_NET_AMO_FOP | RO_NET_AMO_FCAS => s64 (a_size a)
  | _ => a_size a
  end.

Lemma s32_given a : s32 (given_size a) = s32 (a_size a).
Proof. unfold given_size. destruct (a_type a); try done; apply s32_s64. Qed.

Lemma overwrite_low_mod n v old :
  0 ≤ n → overwrite_low n v old `mod` 2 ^ (8 * n) = v `mod` 2 ^ (8 * n).
Proof.
  intros Hn. unfold overwrite_low. assert (0 < 2 ^ (8 * n)) by (apply Z.pow_pos_nonneg; lia).
  rewrite (Z.mul_comm _ (old / _)), Z.mod_add by lia. apply Z.mod_mod. lia.
Qed.

Lemma command_fields E t a threadId old queue_idx :
  (a_type a = RO_NET_P → 0 ≤ a_size a ≤ 8) →
  dispatch E t (set_valid true (pack a threadId old)) queue_idx = serve E t a threadId queue_idx.
Proof.
  intros HP. destruct a as [ty dst src val size pe lstr psz root wrk sync comm win bl op dt].
  destruct old. destruct ty; try done.
  unfold dispatch, dispatch_rma, serve, requested, pack, pack_common, pack_extra, set_valid.
  cbn -[Z.mul Z.pow Z.modulo overwrite_low] in *.
  specialize (HP eq_refl). rewrite s32_small by (unfold INT_MIN, INT_MAX; lia).
  by rewrite decide_True, overwrite_low_mod by (done || lia).
Qed.

(** C27: A command that went through the queue reaches the transport as the
    operation its type names, with the arguments the device gave it, whatever the
    slot of the ring held before: every field the host reads for a command is one
    that the device wrote for it, and an inline value is cut to its own bytes.
    The size - the operand, for an atomic - is the one the device gave exactly
    when that fits the [int] of the element; any other size arrives as a
    different number, its low 32 bits taken as signed, with all other arguments
    as given. *)
Theorem command_roundtrip E t a threadId old queue_idx :
  (a_type a = RO_NET_P → 0 ≤ a_size a ≤ 8) →
  let served := dispatch E t (set_valid true (pack a threadId old)) queue_idx in
  (INT_MIN ≤ given_size a ≤ INT_MAX → served = requested E t a threadId queue_idx (given_size a)) ∧
  (¬ INT_MIN ≤ given_size a ≤ INT_MAX →
     served = requested E t a threadId queue_idx (s32 (a_size a)) ∧ s32 (a_size a) ≠ given_size a).
Proof.
  intros HP served. unfold served. rewrite command_fields by done. unfold serve.
  rewrite <- s32_given. split; intros H.
  - by rewrite s32_small.
  - split; [done|]. by rewrite s32_id_iff.
Qed.

(** A host with one window. *)
Definition host_env : env :=
  mkEnv 0 2 (λ _, 0) (λ _, 2) (λ _, [0; 1]) (λ _, 4) Z.of_nat Z.of_nat Z.of_nat true
        (λ _, Heap.mkWindowInfo 4096 8192) (λ a, a) Z.sub.

Lemma command_roundtrip_witness :
  let a := mkArgs RO_NET_P 4200 0 513 1 0 0 0 0 0 0 0 0 true ROC_SHMEM_SUM RO_NET_INT in
  let long := mkArgs RO_NET_PUT 4200 1000 0 (2 ^ 31 + 7) 1 0 0 0 0 0 0 0 true ROC_SHMEM_SUM RO_NET_INT in
  dispatch host_env (initTransport 1) (set_valid true (pack a 5 empty_element)) 0 =
    requested host_env (initTransport 1) a 5 0 1 ∧
  dispatch host_env (initTransport 1) (set_valid true (pack long 5 empty_element)) 0 =
    requested host_env (initTransport 1) long 5 0 (7 - 2 ^ 31).
Proof.
  intros a long. split.
  - refine (proj1 (command_roundtrip host_env (initTransport 1) a 5 empty_element 0 _) _); cbn;
      [lia|unfold INT_MIN, INT_MAX; lia].
  - refine (proj1 (proj2 (command_roundtrip host_env (initTransport 1) long 5 empty_element 0 _) _)); cbn;
      [done|unfold INT_MIN, INT_MAX; lia].
Defined.

(** The operand of a 64-bit atomic travels in the 32-bit size of the command:
    the MPI operation adds the operand reduced to a signed 32-bit number, which
    is the operand itself exactly when that fits 32 bits. *)
Theorem amo_operand_truncated E t c tid bdim dst value cond pe t' c' threadId a l old queue_idx :
  ipc_available c pe = false →
  amo_fetch_add c tid bdim dst value cond pe = Ok (ECommand threadId a :: l, c') →
  dispatch E t (set_valid true (pack a threadId old)) queue_idx = Ok t' →
  (∃ off, CFetch_and_op (s32 value) (a_src a) pe off MPI_SUM queue_idx ∈ log t') ∧
  (s32 value = value ↔ INT_MIN ≤ value ≤ INT_MAX).
Proof.
  intros Ha Hf Hd. split; [|apply s32_id_iff].
  unfold amo_fetch_add in Hf. rewrite Ha in Hf. cbn in Hf. injection Hf as <- <- _ _.
  rewrite command_fields in Hd by done. unfold serve, requested, amoFOP in Hd. cbn in Hd.
  apply bind_Ok_inv in Hd as (off & _ & Hd). injection Hd as <-. exists off.
  rewrite s32_u64. destruct (gpu_queue E); cbn; set_solver.
Qed.

Lemma amo_operand_truncated_witness :
  ∃ t', (∃ off, CFetch_and_op (s32 (2 ^ 32 + 1)) 8192 1 off MPI_SUM 0 ∈ log t') ∧
        (s32 (2 ^ 32 + 1) = 2 ^ 32 + 1 ↔ INT_MIN ≤ 2 ^ 32 + 1 ≤ INT_MAX).
Proof.
  eexists.
  eapply (amo_operand_truncated host_env (initTransport 1)
            (mkROContext 0 (mkIpc false 0 []) (-1) 8192 0 0) (mkDim 0 0 0) (mkDim 64 1 1) 4200
            (2 ^ 32 + 1) 0 1 _ _ 0
            (amo_args (mkROContext 0 (mkIpc false 0 []) (-1) 8192 0 0) RO_NET_AMO_FOP 4200 8192
               (2 ^ 32 + 1) 1 nullptr) [ELoad 8192] empty_element 0).
  - reflexivity.
  - reflexivity.
  - reflexivity.
Defined.

(** ** Work-group and wavefront operations *)

Lemma thread_zero_flat t b : is_thread_zero_in_block t = true → get_flat_block_id t b = 0.
Proof.
  unfold is_thread_zero_in_block, get_flat_block_id. rewrite !andb_true_iff, !Z.eqb_eq.
  intros [[-> ->] ->]. lia.
Qed.

(** When the threads of a block call [putmem_wg] for a peer of another node,
    exactly one of them sends, with the whole transfer; the same holds of
    [barrier_all]. *)
Theorem wg_sends_once c b dest source nelems pe :
  ipc_available c pe = false → 0 < dim_x b → 0 < dim_y b → 0 < dim_z b →
  ∃ t0, thread_in_block t0 b ∧
    putmem_wg c t0 b dest source nelems pe =
      Ok [ECommand 0 (rma_args c RO_NET_PUT dest source nelems pe true)] ∧
    barrier_all c t0 b = [ECommand 0 (control_args c RO_NET_BARRIER_ALL 0)] ∧
    ∀ t, thread_in_block t b → t ≠ t0 →
      putmem_wg c t b dest source nelems pe = Ok [] ∧ barrier_all c t b = [].
Proof.
  intros Ha Hx Hy Hz. exists (mkDim 0 0 0).
  unfold putmem_wg, put_group, barrier_all, by_thread_zero. rewrite Ha.
  split; [unfold thread_in_block; cbn; lia|]. split; [|split].
  - by rewrite (thread_zero_flat (mkDim 0 0 0) b eq_refl).
  - by rewrite (thread_zero_flat (mkDim 0 0 0) b eq_refl).
  - intros [x y z] _ Hne.
    destruct (is_thread_zero_in_block (mkDim x y z)) eqn:H0; [|done]. destruct Hne.
    unfold is_thread_zero_in_block in H0. rewrite !andb_true_iff, !Z.eqb_eq in H0. cbn in H0.
    by destruct H0 as [[-> ->] ->].
Qed.

Lemma wg_sends_once_witness :
  let c := mkROContext 0 (mkIpc false 0 []) (-1) 0 0 0 in
  let b := mkDim 64 2 1 in
  ∃ t0, thread_in_block t0 b ∧
    putmem_wg c t0 b 4200 1000 64 1 =
      Ok [ECommand 0 (rma_args c RO_NET_PUT 4200 1000 64 1 true)] ∧
    barrier_all c t0 b = [ECommand 0 (control_args c RO_NET_BARRIER_ALL 0)] ∧
    ∀ t, thread_in_block t b → t ≠ t0 →
      putmem_wg c t b 4200 1000 64 1 = Ok [] ∧ barrier_all c t b = [].
Proof. apply wg_sends_once; reflexivity || (cbn; lia). Defined.

(** The test for the first thread of a wavefront is inverted: in [putmem_wave]
    the 63 other threads each send the whole transfer and the first one does
    not, so that a wavefront of one thread sends nothing. *)
Theorem wave_sends_inverted c t b dest source nelems pe :
  ipc_available c pe = false →
  putmem_wave c t b dest source nelems pe =
    Ok (if get_flat_block_id t b `mod` 64 =? 0 then []
        else [ECommand (get_flat_block_id t b)
                (rma_args c RO_NET_PUT dest source nelems pe true)]).
Proof.
  intros Ha. unfold putmem_wave, put_group, by_wave_thread, is_thread_zero_in_wave. rewrite Ha.
  by destruct (_ =? 0).
Qed.

Lemma wave_sends_inverted_witness :
  let c := mkROContext 0 (mkIpc false 0 []) (-1) 0 0 0 in
  putmem_wave c (mkDim 0 0 0) (mkDim 64 1 1) 4200 1000 64 1 = Ok [] ∧
  putmem_wave c (mkDim 7 0 0) (mkDim 64 1 1) 4200 1000 64 1 =
    Ok [ECommand 7 (rma_args c RO_NET_PUT 4200 1000 64 1 true)].
Proof.
  split.
  - apply (wave_sends_inverted (mkROContext 0 (mkIpc false 0 []) (-1) 0 0 0) (mkDim 0 0 0)
             (mkDim 64 1 1) 4200 1000 64 1). reflexivity.
  - reflexivity.
Defined.

(** A reduction, broadcast, all-to-all or collect of characters stops the
    program: the host has no MPI type for the command's data type. *)
Theorem char_collectives_exit E t c tid bdim team op T dest source n root threadId a e old queue_idx :
  T = T_char ∨ T = T_uchar ∨ T = T_schar →
  e = ECommand threadId a →
  e ∈ team_to_all c tid bdim team op T dest source n ++
      team_broadcast c tid bdim team T dest source n root ++
      alltoall c tid bdim team T dest source n ++ fcollect c tid bdim team T dest source n →
  dispatch E t (set_valid true (pack a threadId old)) queue_idx = Fail (ExitProgram 1).
Proof.
  intros HT -> Hin. unfold team_to_all, team_broadcast, alltoall, fcollect, by_thread_zero in Hin.
  destruct (is_thread_zero_in_block tid); cbn in Hin; [|by apply not_elem_of_nil in Hin].
  rewrite !elem_of_cons, elem_of_nil in Hin.
  destruct Hin as [[= -> ->]|[[= -> ->]|[[= -> ->]|[[= -> ->]|[]]]]];
    rewrite command_fields by done; destruct HT as [-> | [-> | ->]]; reflexivity.
Qed.

Lemma char_collectives_exit_witness :
  let c := mkROContext 0 (mkIpc false 0 []) (-1) 0 0 0 in
  dispatch host_env (initTransport 1) (set_valid true
    (pack (team_args c RO_NET_TEAM_TO_ALL 4200 4300 1 0 nullptr (mkROTeam 1 0) ROC_SHMEM_SUM T_char)
       0 empty_element)) 0 = Fail (ExitProgram 1).
Proof.
  apply (char_collectives_exit host_env (initTransport 1)
    (mkROContext 0 (mkIpc false 0 []) (-1) 0 0 0) (mkDim 0 0 0) (mkDim 1 1 1) (mkROTeam 1 0)
    ROC_SHMEM_SUM T_char 4200 4300 1 0 0 _ _ empty_element 0 (or_introl eq_refl) eq_refl).
  left.
Defined.

(** ** Windows *)

(** A window in use is marked, and has one user. *)
Record win_ok (w : win_state) : Prop := {
  wk_marked : ∀ g i, groups w !! g = Some (HasWindow i) → win_pool_alloc_bitmask w !! i = Some 1;
  wk_owner : ∀ g g' i, groups w !! g = Some (HasWindow i) → groups w !! g' = Some (HasWindow i) →
               g = g'
}.

Lemma win_ok_keep w g p :
  win_ok w → (∀ i, p ≠ HasWindow i) → win_ok (set_group w (win_pool_alloc_bitmask w) g p).
Proof.
  intros [H1 H2] Hp. split; cbn.
  - intros g' i. destruct (decide (g = g')) as [<-|Hne].
    + rewrite lookup_insert_eq. intros [= ->]. by destruct (Hp i).
    + rewrite lookup_insert_ne by done. apply H1.
  - intros g1 g2 i.
    destruct (decide (g = g1)) as [<-|Hne1]; [rewrite lookup_insert_eq; intros [= ->]; by destruct (Hp i)|].
    destruct (decide (g = g2)) as [<-|Hne2];
      [rewrite lookup_insert_eq; intros _ [= ->]; by destruct (Hp i)|].
    rewrite !lookup_insert_ne by done. apply H2.
Qed.

Lemma win_step_ok w w' : win_ok w → win_step w w' → win_ok w'.
Proof.
  intros Hok. destruct 1 as [g Hg|g i mask' Hg Hc|g i b mask' Hg Hc Hb|g i Hg Hc|g i Hg].
  - by apply win_ok_keep.
  - unfold cas_window in Hc. destruct (_ !! i) as [b|] eqn:Hb; simplify_eq/=.
    destruct Hok as [H1 H2].
    assert (∀ g' j, groups w !! g' = Some (HasWindow j) → i ≠ j) as Hfree.
    { intros g' j Hj ->. rewrite (H1 _ _ Hj) in Hb. done. }
    split; cbn.
    + intros g' j. destruct (decide (g = g')) as [<-|Hne].
      * rewrite lookup_insert_eq. intros [= ->].
        apply list_lookup_insert_eq. by eapply lookup_lt_Some.
      * rewrite lookup_insert_ne by done. intros Hj.
        rewrite list_lookup_insert_ne by eauto. eauto.
    + intros g1 g2 j. destruct (decide (g = g1)) as [<-|Hne1], (decide (g = g2)) as [<-|Hne2];
        rewrite ?lookup_insert_eq, ?lookup_insert_ne by done; try done.
      * intros [= ->] Hj. by destruct (Hfree _ _ Hj).
      * intros Hj [= ->]. by destruct (Hfree _ _ Hj).
      * apply H2.
  - unfold cas_window in Hc. destruct (_ !! i) as [b'|] eqn:Hb'; simplify_eq/=.
    rewrite (proj2 (Z.eqb_neq b 0)) by done. by apply win_ok_keep.
  - by apply win_ok_keep.
  - destruct Hok as [H1 H2]. split; cbn.
    + intros g' j [Hne Hj]%lookup_delete_Some.
      rewrite list_lookup_insert_ne; [eauto|]. intros ->. by destruct Hne; eapply H2.
    + intros g1 g2 j [_ Hj1]%lookup_delete_Some [_ Hj2]%lookup_delete_Some. eauto.
Qed.

(** However the atomic operations of work-groups that create and destroy
    contexts interleave, no two work-groups hold the same window. *)
Theorem windows_exclusive num_ctxs w g g' i :
  rtc win_step (mkWin (replicate num_ctxs 0) ∅) w →
  groups w !! g = Some (HasWindow i) → groups w !! g' = Some (HasWindow i) → g = g'.
Proof.
  intros H. assert (win_ok w) as [_ Hown]; [|eauto].
  apply (rtc_ind_r win_ok (mkWin (replicate num_ctxs 0) ∅) ltac:(split; cbn; intros *; by rewrite lookup_empty)) with (2 := H).
  eauto using win_step_ok.
Qed.

Lemma windows_exclusive_witness :
  let w0 := mkWin (replicate 2 0) ∅ in
  let w1 := set_group w0 [0; 0] 7 (Scanning 0) in
  let w2 := set_group w1 [1; 0] 7 (HasWindow 0) in
  groups w2 !! 7 = Some (HasWindow 0) ∧ 7 = 7.
Proof.
  split; [reflexivity|].
  apply (windows_exclusive 2
    (set_group (set_group (mkWin (replicate 2 0) ∅) [0; 0] 7 (Scanning 0)) [1; 0] 7 (HasWindow 0))
    7 7 0); [|reflexivity|reflexivity].
  eapply rtc_l; [by apply (win_start _ 7)|].
  eapply rtc_l; [by apply (win_hit _ 7 0 [1; 0])|apply rtc_refl].
Defined.

(** ** Result buffers of [g] *)

(** The eight-byte result buffers of [g] of different threads, of one or of
    several work-groups, do not overlap, and all lie in a buffer of eight bytes
    per thread of every work-group. *)
Theorem g_slots_disjoint c b t t' id id' num_wg :
  thread_in_block t b → thread_in_block t' b →
  0 ≤ id < num_wg → 0 ≤ id' < num_wg → num_wg * get_flat_block_size b < 2 ^ 28 →
  (id, t) ≠ (id', t') →
  let s := g_slot c t b id in let s' := g_slot c t' b id' in
  (s + 8 ≤ s' ∨ s' + 8 ≤ s) ∧
  g_ret c ≤ s ∧ s + 8 ≤ g_ret c + 8 * (num_wg * get_flat_block_size b).
Proof.
  intros Ht Ht' Hid Hid' Hn Hne s s'. subst s s'.
  pose proof (flat_id_range b t Ht) as Hr. pose proof (flat_id_range b t' Ht') as Hr'.
  assert (∀ u k, thread_in_block u b → 0 ≤ k < num_wg →
    g_slot c u b k = g_ret c + 8 * (k * get_flat_block_size b + get_flat_block_id u b)) as Hs.
  { intros u k Hu Hk. pose proof (flat_id_range b u Hu). unfold g_slot.
    assert (0 ≤ k * get_flat_block_size b + get_flat_block_id u b < 2 ^ 28) by nia.
    assert (0 ≤ k * get_flat_block_size b) by nia.
    rewrite (s32_small (k * _)) by (unfold INT_MIN, INT_MAX; lia).
    rewrite s32_small by (unfold INT_MIN, INT_MAX; lia). rewrite uwrap_small by lia. lia. }
  rewrite !Hs by done. split; [|nia].
  destruct (decide (id = id')) as [->|Hid'']; [|nia].
  assert (get_flat_block_id t b ≠ get_flat_block_id t' b); [|lia].
  intros He. apply Hne. by rewrite (flat_id_inj b t t' Ht Ht' He).
Qed.

Lemma g_slots_disjoint_witness :
  let c := mkROContext 0 (mkIpc false 0 []) (-1) 0 0 65536 in
  let b := mkDim 64 1 1 in
  let s := g_slot c (mkDim 63 0 0) b 0 in let s' := g_slot c (mkDim 0 0 0) b 1 in
  (s + 8 ≤ s' ∨ s' + 8 ≤ s) ∧ g_ret c ≤ s ∧ s + 8 ≤ g_ret c + 8 * (2 * get_flat_block_size b).
Proof.
  apply (g_slots_disjoint (mkROContext 0 (mkIpc false 0 []) (-1) 0 0 65536) (mkDim 64 1 1)
           (mkDim 63 0 0) (mkDim 0 0 0) 0 1 2); unfold thread_in_block, get_flat_block_size; cbn;
    try lia; intros [=].
Defined.
