(* ===== verification/Endian.v ===== *)
(** * Byte order

    [gpu_ib/endian.cpp]: [swap_endian_store], the template and its
    specialisations for the integer types, and the bytes of an integer in
    memory.  The specialisations work with masks and shifts; they are shown to
    do what the template does. *)
From S2P Require Import Prelude.

Local Open Scope Z_scope.

(** ** Bytes of an integer, least significant first *)

Definition byte_of (v k : Z) : Z := Z.land (Z.shiftr v (8 * k)) 255.

Definition le_bytes (n : nat) (v : Z) : list Z := byte_of v <$> seqZ 0 (Z.of_nat n).

Fixpoint of_le_bytes (bs : list Z) : Z :=
  match bs with
  | [] => 0
  | b :: bs' => Z.lor b (Z.shiftl (of_le_bytes bs') 8)
  end.

(** ** [swap_endian_store]: the value stored *)

(** The template: [std::reverse_copy] of the bytes of the value. *)
Definition swap_endian_generic (size : nat) (val : Z) : Z :=
  of_le_bytes (rev (le_bytes size val)).

Definition swap_endian_u64 (val : Z) : Z :=
  let new_val := Z.lor (Z.land (u64 (Z.shiftl val 8)) 0xFF00FF00FF00FF00)
                       (Z.land (Z.shiftr val 8) 0x00FF00FF00FF00FF) in
  let new_val := Z.lor (Z.land (u64 (Z.shiftl new_val 16)) 0xFFFF0000FFFF0000)
                       (Z.land (Z.shiftr new_val 16) 0x0000FFFF0000FFFF) in
  Z.lor (u64 (Z.shiftl new_val 32)) (Z.shiftr new_val 32).

Definition swap_endian_i64 (val : Z) : Z := s64 (swap_endian_u64 (u64 val)).

Definition swap_endian_u32 (val : Z) : Z :=
  let new_val := Z.lor (Z.land (u32 (Z.shiftl val 8)) 0xFF00FF00)
                       (Z.land (Z.shiftr val 8) 0xFF00FF) in
  Z.lor (u32 (Z.shiftl new_val 16)) (Z.shiftr new_val 16).

Definition swap_endian_i32 (val : Z) : Z := s32 (swap_endian_u32 (u32 val)).

Definition swap_endian_u16 (val : Z) : Z :=
  u16 (Z.lor (Z.land (Z.shiftl val 8) 0xFF00) (Z.land (Z.shiftr val 8) 0x00FF)).

Definition swap_endian_i16 (val : Z) : Z := swrap 16 (swap_endian_u16 (u16 val)).

(** ** Bits *)

Lemma uwrap_testbit w v i :
  0 ≤ w → 0 ≤ i → Z.testbit (uwrap w v) i = bool_decide (i < w) && Z.testbit v i.
Proof.
  intros Hw Hi. unfold uwrap. case_bool_decide.
  - by rewrite Z.mod_pow2_bits_low.
  - by rewrite Z.mod_pow2_bits_high by lia.
Qed.

Lemma byte_testbit v k j :
  0 ≤ k → 0 ≤ j → Z.testbit (byte_of v k) j = bool_decide (j < 8) && Z.testbit v (8 * k + j).
Proof.
  intros Hk Hj. unfold byte_of. change 255 with (Z.ones 8).
  rewrite Z.land_ones by lia. change (?x `mod` 2 ^ 8) with (uwrap 8 x).
  rewrite uwrap_testbit, Z.shiftr_spec by lia. by rewrite Z.add_comm.
Qed.

Lemma byte_range v k : 0 ≤ byte_of v k < 256.
Proof.
  unfold byte_of. change 255 with (Z.ones 8). rewrite Z.land_ones by lia.
  apply Z.mod_pos_bound. lia.
Qed.

Lemma testbit_above v w i : 0 ≤ v < 2 ^ w → w ≤ i → Z.testbit v i = false.
Proof.
  intros Hv Hi. destruct (decide (w < 0)); [rewrite Z.pow_neg_r in Hv; lia|].
  rewrite <- (uwrap_small w v) by lia. rewrite uwrap_testbit by lia.
  by rewrite bool_decide_false by lia.
Qed.

Lemma of_le_bytes_testbit bs i :
  Forall (λ b, 0 ≤ b < 256) bs → 0 ≤ i →
  Z.testbit (of_le_bytes bs) i = Z.testbit (nth (Z.to_nat (i / 8)) bs 0) (i `mod` 8).
Proof.
  intros Hbs. revert i. induction Hbs as [|b bs Hb _ IH]; intros i Hi; cbn [of_le_bytes].
  - rewrite Z.bits_0. destruct (Z.to_nat (i / 8)); by rewrite Z.bits_0.
  - rewrite Z.lor_spec, Z.shiftl_spec by done. destruct (decide (i < 8)).
    + rewrite (Z.testbit_neg_r _ (i - 8)), orb_false_r by lia.
      by rewrite Z.div_small, Z.mod_small by lia.
    + rewrite (testbit_above b 8) by lia. rewrite IH by lia. cbn [orb].
      assert (i / 8 = Z.succ ((i - 8) / 8) ∧ i `mod` 8 = (i - 8) `mod` 8 ∧ 0 ≤ (i - 8) / 8)
        as (-> & -> & ?) by (Z.div_mod_to_equations; lia).
      by rewrite Z2Nat.inj_succ by lia.
Qed.

Lemma length_le_bytes n v : length (le_bytes n v) = n.
Proof. unfold le_bytes. rewrite length_fmap, length_seqZ. lia. Qed.

Lemma le_bytes_range n v : Forall (λ b, 0 ≤ b < 256) (le_bytes n v).
Proof. unfold le_bytes. rewrite Forall_fmap, Forall_forall. intros k _. apply byte_range. Qed.

Lemma nth_le_bytes n v k : (k < n)%nat → nth k (le_bytes n v) 0 = byte_of v (Z.of_nat k).
Proof.
  intros Hk. apply nth_lookup_Some. unfold le_bytes.
  rewrite list_lookup_fmap, lookup_seqZ_lt by lia. cbn. f_equal.
Qed.

(** The bit of the swapped value at position [i] is the bit at the same place
    of the byte on the other side. *)
Definition swapped_bit (n i : Z) : Z := 8 * (n - 1 - i / 8) + i `mod` 8.

Lemma swap_generic_testbit n v i :
  0 ≤ i → Z.testbit (swap_endian_generic n v) i =
  bool_decide (i < 8 * Z.of_nat n) && Z.testbit v (swapped_bit (Z.of_nat n) i).
Proof.
  intros Hi. unfold swap_endian_generic, swapped_bit.
  rewrite of_le_bytes_testbit; [|apply Forall_rev, le_bytes_range|done].
  assert (0 ≤ i / 8 ∧ 0 ≤ i `mod` 8 < 8) as [? ?] by (Z.div_mod_to_equations; lia).
  case_bool_decide as Hn.
  - assert (i / 8 < Z.of_nat n) by (Z.div_mod_to_equations; lia).
    rewrite rev_nth by (rewrite length_le_bytes; lia). rewrite length_le_bytes.
    rewrite nth_le_bytes by lia. rewrite byte_testbit by lia.
    rewrite bool_decide_true by lia. cbn. f_equal. lia.
  - assert (Z.of_nat n ≤ i / 8) by (Z.div_mod_to_equations; lia).
    rewrite nth_overflow by (rewrite length_rev, length_le_bytes; lia). apply Z.bits_0.
Qed.

(** One round of exchanging neighbours through complementary masks. *)
Lemma exchange_testbit w n hi lo v i :
  0 ≤ n → 0 ≤ i < w → Z.testbit lo i = negb (Z.testbit hi i) →
  Z.testbit (Z.lor (Z.land (uwrap w (Z.shiftl v n)) hi) (Z.land (Z.shiftr v n) lo)) i =
  Z.testbit v (if Z.testbit hi i then i - n else i + n).
Proof.
  intros Hn Hi Hm. rewrite Z.lor_spec, !Z.land_spec, uwrap_testbit, Z.shiftl_spec, Z.shiftr_spec, Hm
    by lia. rewrite bool_decide_true by lia. cbn [andb].
  destruct (Z.testbit hi i); cbn [negb]; by rewrite ?andb_true_r, ?andb_false_r, ?orb_false_r.
Qed.

(** The last round exchanges the two halves. *)
Lemma halves_testbit w v i :
  (∀ j, w + w ≤ j → Z.testbit v j = false) → 0 ≤ w → 0 ≤ i < w + w →
  Z.testbit (Z.lor (uwrap (w + w) (Z.shiftl v w)) (Z.shiftr v w)) i =
  Z.testbit v (if decide (i < w) then i + w else i - w).
Proof.
  intros Hv Hw Hi. rewrite Z.lor_spec, uwrap_testbit, Z.shiftl_spec, Z.shiftr_spec by lia.
  rewrite bool_decide_true by lia. cbn [andb]. case_decide.
  - by rewrite Z.testbit_neg_r by lia.
  - by rewrite (Hv (i + w)), orb_false_r by lia.
Qed.

Lemma exchange_above w w' n hi lo v i :
  0 ≤ hi < 2 ^ w → 0 ≤ lo < 2 ^ w → w ≤ i →
  Z.testbit (Z.lor (Z.land (uwrap w' (Z.shiftl v n)) hi) (Z.land (Z.shiftr v n) lo)) i = false.
Proof.
  intros Hhi Hlo Hi. rewrite Z.lor_spec, !Z.land_spec.
  by rewrite (testbit_above hi w), (testbit_above lo w), !andb_false_r by lia.
Qed.

Lemma Forall_below n (P : Z → Prop) : Forall P (seqZ 0 n) → ∀ i, 0 ≤ i < n → P i.
Proof. rewrite Forall_forall. intros H i Hi. apply H, elem_of_seqZ. lia. Qed.

(** Prove a statement for the concrete positions below a width. *)
Ltac each_bit n :=
  apply (Forall_below n);
  let l := eval vm_compute in (seqZ 0 n) in change (seqZ 0 n) with l;
  repeat (apply Forall_cons; split); [..|apply Forall_nil; exact I].

Ltac at_bit := first [lia | vm_compute; intuition congruence].

Lemma swap_u64_testbit v i :
  0 ≤ i < 64 → Z.testbit (swap_endian_u64 v) i = Z.testbit v (swapped_bit 8 i).
Proof.
  revert i. each_bit 64; unfold swap_endian_u64;
    (rewrite (halves_testbit 32); [|intros; apply (exchange_above 64); lia|lia..]);
    rewrite !exchange_testbit by at_bit; reflexivity.
Qed.

Lemma swap_u32_testbit v i :
  0 ≤ i < 32 → Z.testbit (swap_endian_u32 v) i = Z.testbit v (swapped_bit 4 i).
Proof.
  revert i. each_bit 32; unfold swap_endian_u32;
    (rewrite (halves_testbit 16); [|intros; apply (exchange_above 32); lia|lia..]);
    rewrite !exchange_testbit by at_bit; reflexivity.
Qed.

Lemma swap_u16_testbit v i :
  0 ≤ i < 16 → Z.testbit (swap_endian_u16 v) i = Z.testbit v (swapped_bit 2 i).
Proof.
  revert i. each_bit 16; unfold swap_endian_u16;
    rewrite uwrap_testbit, Z.lor_spec, !Z.land_spec, Z.shiftl_spec, Z.shiftr_spec by lia;
    match goal with |- context [Z.testbit 65280 ?i] =>
      let b := eval vm_compute in (Z.testbit 65280 i) in
      let c := eval vm_compute in (Z.testbit 255 i) in
      change (Z.testbit 65280 i) with b; change (Z.testbit 255 i) with c end;
    rewrite ?andb_true_r, ?andb_false_r, ?orb_false_r; reflexivity.
Qed.

(** No bit is set above the width. *)
Lemma halves_above w v i :
  (∀ j, w + w ≤ j → Z.testbit v j = false) → 0 ≤ w → w + w ≤ i →
  Z.testbit (Z.lor (uwrap (w + w) (Z.shiftl v w)) (Z.shiftr v w)) i = false.
Proof.
  intros Hv Hw Hi. rewrite Z.lor_spec, uwrap_testbit, Z.shiftr_spec by lia.
  by rewrite bool_decide_false, (Hv (i + w)) by lia.
Qed.

Lemma swap_u64_above v i : 64 ≤ i → Z.testbit (swap_endian_u64 v) i = false.
Proof.
  intros. unfold swap_endian_u64.
  rewrite (halves_above 32); [done|intros; apply (exchange_above 64); lia|lia..].
Qed.

Lemma swap_u32_above v i : 32 ≤ i → Z.testbit (swap_endian_u32 v) i = false.
Proof.
  intros. unfold swap_endian_u32.
  rewrite (halves_above 16); [done|intros; apply (exchange_above 32); lia|lia..].
Qed.

Lemma swap_u16_above v i : 16 ≤ i → Z.testbit (swap_endian_u16 v) i = false.
Proof.
  intros. unfold swap_endian_u16. rewrite uwrap_testbit by lia. by rewrite bool_decide_false by lia.
Qed.

(** A specialisation agrees with the template when its bits do. *)
Lemma swap_eq (n : nat) a v :
  (∀ i, 0 ≤ i < 8 * Z.of_nat n → Z.testbit a i = Z.testbit v (swapped_bit (Z.of_nat n) i)) →
  (∀ i, 8 * Z.of_nat n ≤ i → Z.testbit a i = false) →
  a = swap_endian_generic n v.
Proof.
  intros Hlow Hhigh. apply Z.bits_inj'. intros i Hi. rewrite swap_generic_testbit by done.
  case_bool_decide; [by apply Hlow|by apply Hhigh; lia].
Qed.

Lemma swap_u64_eq v : swap_endian_u64 v = swap_endian_generic 8 v.
Proof. apply swap_eq; [apply swap_u64_testbit|apply swap_u64_above]. Qed.

Lemma swap_u32_eq v : swap_endian_u32 v = swap_endian_generic 4 v.
Proof. apply swap_eq; [apply swap_u32_testbit|apply swap_u32_above]. Qed.

Lemma swap_u16_eq v : swap_endian_u16 v = swap_endian_generic 2 v.
Proof. apply swap_eq; [apply swap_u16_testbit|apply swap_u16_above]. Qed.

(** Only the bytes of the value count. *)
Lemma swap_generic_wrap n v :
  swap_endian_generic n (uwrap (8 * Z.of_nat n) v) = swap_endian_generic n v.
Proof.
  apply Z.bits_inj'. intros i Hi. rewrite !swap_generic_testbit by done.
  case_bool_decide as Hb; [|done]. cbn [andb]. unfold swapped_bit.
  rewrite uwrap_testbit by (Z.div_mod_to_equations; lia).
  rewrite bool_decide_true; [done|]. Z.div_mod_to_equations; lia.
Qed.

Lemma le_bytes_of_le_bytes bs :
  Forall (λ b, 0 ≤ b < 256) bs → le_bytes (length bs) (of_le_bytes bs) = bs.
Proof.
  intros Hbs. apply (nth_ext _ _ 0 0); [apply length_le_bytes|].
  intros k Hk. rewrite length_le_bytes in Hk. rewrite nth_le_bytes by done.
  apply Z.bits_inj'. intros j Hj. rewrite byte_testbit by lia.
  assert (0 ≤ nth k bs 0 < 2 ^ 8) as Hr.
  { destruct (lookup_lt_is_Some_2 bs k Hk) as [b Hb].
    rewrite (nth_lookup_Some _ _ _ _ Hb). exact (Forall_lookup_1 _ _ _ _ Hbs Hb). }
  case_bool_decide; cbn [andb]; [|by rewrite (testbit_above _ _ _ Hr) by lia].
  rewrite of_le_bytes_testbit by (done || lia).
  assert ((8 * Z.of_nat k + j) / 8 = Z.of_nat k ∧ (8 * Z.of_nat k + j) `mod` 8 = j) as [-> ->]
    by (Z.div_mod_to_equations; lia). by rewrite Nat2Z.id.
Qed.

Lemma of_le_bytes_le_bytes n v : of_le_bytes (le_bytes n v) = uwrap (8 * Z.of_nat n) v.
Proof.
  apply Z.bits_inj'. intros i Hi.
  rewrite of_le_bytes_testbit by (apply le_bytes_range || done). rewrite uwrap_testbit by lia.
  assert (0 ≤ i / 8 ∧ 0 ≤ i `mod` 8 < 8) as [? ?] by (Z.div_mod_to_equations; lia).
  case_bool_decide; cbn [andb].
  - rewrite nth_le_bytes by (Z.div_mod_to_equations; lia). rewrite byte_testbit by lia.
    rewrite bool_decide_true by lia. cbn. f_equal. Z.div_mod_to_equations; lia.
  - rewrite nth_overflow; [apply Z.bits_0|]. rewrite length_le_bytes.
    Z.div_mod_to_equations; lia.
Qed.

(** In memory the swapped value lies with its bytes in the opposite order. *)
Lemma le_bytes_swap n v : le_bytes n (swap_endian_generic n v) = rev (le_bytes n v).
Proof.
  unfold swap_endian_generic. rewrite <- (length_le_bytes n v) at 1.
  rewrite <- length_rev. apply le_bytes_of_le_bytes, Forall_rev, le_bytes_range.
Qed.

Lemma swap_generic_involutive n v :
  swap_endian_generic n (swap_endian_generic n v) = uwrap (8 * Z.of_nat n) v.
Proof.
  unfold swap_endian_generic at 1. rewrite le_bytes_swap, rev_involutive.
  apply of_le_bytes_le_bytes.
Qed.

Lemma swap_generic_range n v : 0 ≤ swap_endian_generic n v < 2 ^ (8 * Z.of_nat n).
Proof.
  replace (swap_endian_generic n v) with (uwrap (8 * Z.of_nat n) (swap_endian_generic n v)).
  { apply uwrap_range. lia. }
  rewrite <- of_le_bytes_le_bytes, le_bytes_swap. done.
Qed.

(** The specialisations of [swap_endian_store] for the six integer types
    store what the template stores, the value with its bytes in the opposite
    order; storing twice gives the value back. *)
Theorem swap_endian_correct v :
  (swap_endian_u64 v = swap_endian_generic 8 v ∧
   swap_endian_u32 v = swap_endian_generic 4 v ∧
   swap_endian_u16 v = swap_endian_generic 2 v) ∧
  (swap_endian_i64 v = s64 (swap_endian_generic 8 v) ∧
   swap_endian_i32 v = s32 (swap_endian_generic 4 v) ∧
   swap_endian_i16 v = swrap 16 (swap_endian_generic 2 v)) ∧
  (le_bytes 8 (swap_endian_u64 v) = rev (le_bytes 8 v) ∧
   swap_endian_u64 (swap_endian_u64 v) = u64 v ∧
   swap_endian_u32 (swap_endian_u32 v) = u32 v ∧
   swap_endian_u16 (swap_endian_u16 v) = u16 v).
Proof.
  unfold swap_endian_i64, swap_endian_i32, swap_endian_i16.
  rewrite !swap_u64_eq, !swap_u32_eq, !swap_u16_eq.
  rewrite (swap_generic_wrap 8), (swap_generic_wrap 4), (swap_generic_wrap 2).
  rewrite le_bytes_swap, !swap_generic_involutive. done.
Qed.
