(* ===== verification/Segments.v ===== *)
(** * Work requests of the InfiniBand queue pairs

    [gpu_ib/segment_builder.cpp] writes the segments of a work request into the
    send queue, with what the connection type adds
    ([gpu_ib/connection_policy.cpp]).  Memory is bytes; what the network card
    reads back from a work request is the specification. *)
From S2P Require Import Prelude Endian.

Local Open Scope Z_scope.

(** ** Loads and stores *)

Abbreviation memory := (Z → Z).

(** A store of the [n] bytes of an integer, as the little-endian device makes it. *)
Definition store (n : Z) (m : memory) (a v : Z) : memory :=
  λ x, if (a <=? x) && (x <? a + n) then byte_of v (x - a) else m x.

Definition load (n : Z) (m : memory) (a : Z) : Z := of_le_bytes (m <$> seqZ a n).

(** [memcpy] of [n] bytes between ranges that do not overlap. *)
Definition copy_bytes (m : memory) (dst src n : Z) : memory :=
  λ x, if (dst <=? x) && (x <? dst + n) then m (src + (x - dst)) else m x.

(** ** The card's structures

    The segments' layout and the operation codes are those of the card's
    programming interface, [infiniband/mlx5dv.h]: the fields of each segment
    in their order, within the 16 bytes of a segment. *)
Class Mlx5 := {
  MLX5_OPCODE_RDMA_WRITE : Z;
  MLX5_OPCODE_RDMA_READ : Z;
  MLX5_OPCODE_ATOMIC_CS : Z;
  MLX5_OPCODE_ATOMIC_FA : Z;
  ctrl_opmod_idx_opcode : Z;
  ctrl_qpn_ds : Z;
  ctrl_signature : Z;
  ctrl_fm_ce_se : Z;
  ctrl_imm : Z;
  raddr_raddr : Z;
  raddr_rkey : Z;
  atomic_swap_add : Z;
  atomic_compare : Z;
  data_byte_count : Z;
  data_lkey : Z;
  data_addr : Z;
  inl_byte_count : Z;
  sizeof_inl_data_seg : Z
}.

Class Mlx5Laws (X : Mlx5) : Prop := {
  opcodes_range : Forall (λ o, 0 ≤ o < 256)
    [MLX5_OPCODE_RDMA_WRITE; MLX5_OPCODE_RDMA_READ; MLX5_OPCODE_ATOMIC_CS; MLX5_OPCODE_ATOMIC_FA];
  opcodes_differ : NoDup
    [MLX5_OPCODE_RDMA_WRITE; MLX5_OPCODE_RDMA_READ; MLX5_OPCODE_ATOMIC_CS; MLX5_OPCODE_ATOMIC_FA];
  ctrl_layout : ctrl_opmod_idx_opcode = 0 ∧ ctrl_qpn_ds = 4 ∧ ctrl_qpn_ds + 4 ≤ ctrl_signature ∧
    ctrl_signature + 1 ≤ ctrl_fm_ce_se ∧ ctrl_fm_ce_se = 11 ∧ ctrl_fm_ce_se + 1 ≤ ctrl_imm ∧
    ctrl_imm + 4 ≤ 16;
  raddr_layout : 0 ≤ raddr_raddr ∧ raddr_raddr + 8 ≤ raddr_rkey ∧ raddr_rkey + 4 ≤ 16;
  atomic_layout : 0 ≤ atomic_swap_add ∧ atomic_swap_add + 8 ≤ atomic_compare ∧
    atomic_compare + 8 ≤ 16;
  data_layout : 0 ≤ data_byte_count ∧ data_byte_count + 4 ≤ data_lkey ∧
    data_lkey + 4 ≤ data_addr ∧ data_addr + 8 ≤ 16;
  inl_layout : inl_byte_count = data_byte_count ∧ inl_byte_count + 4 ≤ sizeof_inl_data_seg ∧
    sizeof_inl_data_seg + 8 ≤ 16
}.

(** [struct ib_mlx5_base_av]: offsets of the fields that are written, and
    [sizeof(union mlx5_segment)]. *)
Definition base_av_dqp_dct : Z := 8.
Definition base_av_rlid : Z := 14.
Definition sizeof_mlx5_segment : Z := 16.

(** ** Connection policies *)

Class ConnectionPolicy := {
  wqeCntrlOffset : Z;
  forcePostDivergence : bool;
  getNumWqes : Z → Z;
  updateConnectionSegment : memory → Z → Z → memory * bool;
  setRkey : Z → Z → Z
}.

Definition RCConnectionImpl : ConnectionPolicy := {|
  wqeCntrlOffset := 0;
  forcePostDivergence := true;
  getNumWqes := λ opcode, 1;
  updateConnectionSegment := λ m wqe pe, (m, false);
  setRkey := λ rkey pe, rkey
|}.

(** The tables hold an entry per processing element. *)
Definition DCConnectionImpl {X : Mlx5} (vec_dct_num vec_rkey vec_lids : Z → Z) : ConnectionPolicy := {|
  wqeCntrlOffset := 1;
  forcePostDivergence := false;
  getNumWqes := λ opcode,
    if (opcode =? MLX5_OPCODE_ATOMIC_FA) || (opcode =? MLX5_OPCODE_ATOMIC_CS) then 2 else 1;
  updateConnectionSegment := λ m wqe pe,
    (store 2 (store 4 m (wqe + base_av_dqp_dct) (vec_dct_num pe)) (wqe + base_av_rlid) (vec_lids pe),
     true);
  setRkey := λ rkey pe, vec_rkey pe
|}.

(** ** [class SegmentBuilder] *)

(** The queue's memory and [seg_ptr]. *)
Abbreviation builder := (memory * Z)%type.

Definition SEGMENTS_PER_WQE : Z := 4.

Section SegmentBuilder.
Context {X : Mlx5}.

Definition SegmentBuilder_new (m : memory) (wqe_idx base : Z) : builder :=
  let segment_offset := u64 (SEGMENTS_PER_WQE * wqe_idx) in
  (m, base + sizeof_mlx5_segment * segment_offset).

Definition next_seg (seg_ptr : Z) : Z := seg_ptr + sizeof_mlx5_segment.

Definition update_cntrl_seg {C : ConnectionPolicy} (opcode wqe_idx ctrl_qp_sq ctrl_sig : Z)
    (zero_byte_rd : bool) '((m, p) : builder) : builder :=
  let m := store 4 m (p + ctrl_opmod_idx_opcode)
             (Z.lor (Z.shiftl opcode 24) (Z.shiftl wqe_idx 8)) in
  let DS := if zero_byte_rd then 2
            else if (opcode =? MLX5_OPCODE_RDMA_WRITE) || (opcode =? MLX5_OPCODE_RDMA_READ)
                 then 3 else 4 in
  let DS := u32 (DS + wqeCntrlOffset) in
  let m := store 4 m (p + ctrl_qpn_ds) (Z.lor (Z.shiftl DS 24) ctrl_qp_sq) in
  let m := store 1 m (p + ctrl_signature) ctrl_sig in
  let m := store 1 m (p + ctrl_fm_ce_se) (Z.shiftr ctrl_sig 24) in
  let m := store 4 m (p + ctrl_imm) (Z.shiftr ctrl_sig 32) in
  (m, next_seg p).

Definition update_atomic_data_seg (atomic_data atomic_cmp : Z) '((m, p) : builder) : builder :=
  let m := store 8 m (p + atomic_swap_add) (swap_endian_u64 (u64 atomic_data)) in
  let m := store 8 m (p + atomic_compare) (swap_endian_u64 (u64 atomic_cmp)) in
  (m, next_seg p).

Definition update_rdma_seg (raddr rkey : Z) '((m, p) : builder) : builder :=
  let m := store 4 m (p + raddr_rkey) rkey in
  let m := store 8 m (p + raddr_raddr) (swap_endian_u64 raddr) in
  (m, next_seg p).

Definition update_data_seg (laddr size lkey : Z) '((m, p) : builder) : builder :=
  if laddr =? nullptr then (m, p)
  else
    let m := store 4 m (p + data_lkey) lkey in
    let m := store 4 m (p + data_byte_count) (swap_endian_u32 (Z.land (u32 size) 0x7FFFFFFF)) in
    let m := store 8 m (p + data_addr) (swap_endian_u64 laddr) in
    (m, next_seg p).

(** The size is converted to [size_t] for [memcpy]; a negative one is a length
    that no buffer has. *)
Definition update_inl_data_seg (laddr size : Z) '((m, p) : builder) : result builder :=
  let m := store 4 m (p + inl_byte_count)
             (swap_endian_u32 (Z.lor (Z.land (u32 size) 0x3FF) 0x80000000)) in
  let data := p + sizeof_inl_data_seg in
  if laddr =? nullptr then Ok (store 1 m data 1, next_seg p)
  else if size <? 0 then Fail BadAccess
  else Ok (copy_bytes m data laddr size, next_seg p).

Definition update_connection_seg {C : ConnectionPolicy} (pe : Z) '((m, p) : builder) : builder :=
  let '(m, b) := updateConnectionSegment m p pe in
  (m, if b then next_seg p else p).
End SegmentBuilder.

(** ** What the card reads

    All multi-byte fields are big-endian for the card. *)
Section card.
Context {X : Mlx5}.

Definition card_opcode (m : memory) (w : Z) : Z :=
  Z.land (swap_endian_u32 (load 4 m (w + ctrl_opmod_idx_opcode))) 255.
Definition card_index (m : memory) (w : Z) : Z :=
  Z.land (Z.shiftr (swap_endian_u32 (load 4 m (w + ctrl_opmod_idx_opcode))) 8) 65535.
Definition card_ds (m : memory) (w : Z) : Z :=
  Z.land (swap_endian_u32 (load 4 m (w + ctrl_qpn_ds))) 255.
Definition card_qpn (m : memory) (w : Z) : Z :=
  Z.shiftr (swap_endian_u32 (load 4 m (w + ctrl_qpn_ds))) 8.
(** The bits that ask for a completion entry. *)
Definition card_wants_cqe (m : memory) (w : Z) : bool :=
  negb (Z.land (m (w + ctrl_fm_ce_se)) 12 =? 0).

Record remote := mkRemote { rm_addr : Z; rm_rkey : Z }.
Definition card_remote (m : memory) (p : Z) : remote :=
  mkRemote (swap_endian_u64 (load 8 m (p + raddr_raddr))) (load 4 m (p + raddr_rkey)).

Record local := mkLocal { lc_addr : Z; lc_len : Z; lc_lkey : Z }.
Definition card_local (m : memory) (p : Z) : local :=
  mkLocal (swap_endian_u64 (load 8 m (p + data_addr)))
          (swap_endian_u32 (load 4 m (p + data_byte_count))) (load 4 m (p + data_lkey)).

Definition card_atomic (m : memory) (p : Z) : Z * Z :=
  (swap_endian_u64 (load 8 m (p + atomic_swap_add)),
   swap_endian_u64 (load 8 m (p + atomic_compare))).

(** The top bit of the first word tells inline data from a pointer. *)
Definition card_is_inline (m : memory) (p : Z) : bool :=
  Z.testbit (swap_endian_u32 (load 4 m (p + inl_byte_count))) 31.
Definition card_inline (m : memory) (p : Z) : list Z :=
  let len := Z.land (swap_endian_u32 (load 4 m (p + inl_byte_count))) 0x3FF in
  m <$> seqZ (p + sizeof_inl_data_seg) len.
End card.

(** ** Lemmas on memory *)

Lemma load_ext n m m' a :
  (∀ x, a ≤ x < a + n → m x = m' x) → load n m a = load n m' a.
Proof.
  intros H. unfold load. f_equal. apply list_fmap_ext. intros i x Hx.
  apply lookup_seqZ in Hx as [-> ?]. apply H. lia.
Qed.

Lemma load_store n m a v : 0 ≤ n → load n (store n m a v) a = uwrap (8 * n) v.
Proof.
  intros Hn. unfold load.
  replace (store n m a v <$> seqZ a n) with (le_bytes (Z.to_nat n) v).
  { rewrite of_le_bytes_le_bytes. f_equal. lia. }
  unfold le_bytes. rewrite Z2Nat.id by done. replace (seqZ a n) with (Z.add a <$> seqZ 0 n)
    by (rewrite fmap_add_seqZ; f_equal; lia).
  rewrite <- list_fmap_compose. apply list_fmap_ext. intros i x Hx.
  apply lookup_seqZ in Hx as [-> ?]. unfold store, compose.
  rewrite (proj2 (Z.leb_le _ _)), (proj2 (Z.ltb_lt _ _)) by lia. cbn. f_equal. lia.
Qed.

Lemma store_other n m a v x : ¬ (a ≤ x < a + n) → store n m a v x = m x.
Proof.
  intros Hx. unfold store. destruct (Z.leb_spec a x), (Z.ltb_spec x (a + n)); cbn; try done. lia.
Qed.

Lemma load_store_other k n m a b v :
  b + n ≤ a ∨ a + k ≤ b → load k (store n m b v) a = load k m a.
Proof. intros H. apply load_ext. intros x Hx. apply store_other. lia. Qed.

Lemma copy_bytes_other m d s n x : ¬ (d ≤ x < d + n) → copy_bytes m d s n x = m x.
Proof.
  intros Hx. unfold copy_bytes.
  destruct (Z.leb_spec d x), (Z.ltb_spec x (d + n)); cbn; try done. lia.
Qed.

Lemma copy_bytes_same m d s n x : d ≤ x < d + n → copy_bytes m d s n x = m (s + (x - d)).
Proof.
  intros Hx. unfold copy_bytes. by rewrite (proj2 (Z.leb_le _ _)), (proj2 (Z.ltb_lt _ _)) by lia.
Qed.

(** [m'] differs from [m] only in [[p, p + n)]. *)
Definition only (p n : Z) (m m' : memory) : Prop := ∀ x, ¬ (p ≤ x < p + n) → m' x = m x.

Lemma only_refl p n m : only p n m m.
Proof. done. Qed.

Lemma only_store p n k m m' a v :
  only p n m m' → p ≤ a → a + k ≤ p + n → only p n m (store k m' a v).
Proof. intros H ?? x Hx. rewrite store_other by lia. by apply H. Qed.

Lemma only_copy p n k m m' d s :
  only p n m m' → p ≤ d → d + k ≤ p + n → only p n m (copy_bytes m' d s k).
Proof. intros H ?? x Hx. rewrite copy_bytes_other by lia. by apply H. Qed.

Lemma only_trans p n q k m m' m'' :
  only p n m m' → only q k m' m'' → only (Z.min p q) (Z.max (p + n) (q + k) - Z.min p q) m m''.
Proof. intros H1 H2 x Hx. rewrite H2, H1; [done|lia..]. Qed.

Lemma only_load k a p n m m' : only p n m m' → p + n ≤ a ∨ a + k ≤ p → load k m' a = load k m a.
Proof. intros H Ha. apply load_ext. intros x Hx. apply H. lia. Qed.

#[export] Hint Resolve only_refl only_store only_copy : shmem.

(** Read through the stores that follow. *)
Ltac read :=
  repeat first [rewrite load_store by lia
               |rewrite load_store_other by lia
               |rewrite store_other by lia].

(** ** The words of a control segment *)

Lemma swap_u32_wrap v : swap_endian_u32 (u32 v) = swap_endian_u32 v.
Proof. rewrite !swap_u32_eq. apply (swap_generic_wrap 4). Qed.

Lemma swap_u64_wrap v : swap_endian_u64 (u64 v) = swap_endian_u64 v.
Proof. rewrite !swap_u64_eq. apply (swap_generic_wrap 8). Qed.

Lemma swap_u32_twice v : swap_endian_u32 (swap_endian_u32 v) = u32 v.
Proof. rewrite !swap_u32_eq. apply (swap_generic_involutive 4). Qed.

Lemma swap_u64_twice v : swap_endian_u64 (swap_endian_u64 v) = u64 v.
Proof. rewrite !swap_u64_eq. apply (swap_generic_involutive 8). Qed.

(** Decide the bits of a word at concrete positions. *)
Ltac word_bit :=
  rewrite ?Z.lor_spec; rewrite ?Z.shiftl_spec by at_bit;
  repeat first
    [rewrite Z.shiftl_spec by at_bit
    |rewrite (Z.testbit_neg_r _ _) by at_bit
    |rewrite swap_u16_above by at_bit
    |rewrite swap_u16_testbit by at_bit
    |rewrite swap_u32_testbit by at_bit
    |match goal with
     | H : 0 ≤ ?v < 2 ^ ?w |- context [Z.testbit ?v ?k] =>
         rewrite (testbit_above v w k H) by at_bit
     end];
  rewrite ?orb_false_r, ?orb_false_l; reflexivity.

Lemma ctrl_word op idx :
  0 ≤ op < 2 ^ 8 → 0 ≤ idx < 2 ^ 16 →
  swap_endian_u32 (Z.lor (Z.shiftl op 24) (Z.shiftl (swap_endian_u16 idx) 8)) =
  Z.lor op (Z.shiftl idx 8).
Proof.
  intros Hop Hidx. apply Z.bits_inj'. intros i Hi. destruct (decide (i < 32)) as [Hlt|Hge].
  - pose proof (conj Hi Hlt) as Hr. clear Hi Hlt. revert i Hr.
    each_bit 32; rewrite swap_u32_testbit by lia; word_bit.
  - rewrite swap_u32_above by lia. rewrite Z.lor_spec, Z.shiftl_spec by lia.
    by rewrite (testbit_above op 8), (testbit_above idx 16) by lia.
Qed.

Lemma qpn_word ds qpn :
  0 ≤ ds < 2 ^ 8 → 0 ≤ qpn < 2 ^ 24 →
  swap_endian_u32 (Z.lor (Z.shiftl ds 24) (swap_endian_u32 (Z.shiftl qpn 8))) =
  Z.lor ds (Z.shiftl qpn 8).
Proof.
  intros Hds Hqpn. apply Z.bits_inj'. intros i Hi. destruct (decide (i < 32)) as [Hlt|Hge].
  - pose proof (conj Hi Hlt) as Hr. clear Hi Hlt. revert i Hr.
    each_bit 32; rewrite swap_u32_testbit by lia; word_bit.
  - rewrite swap_u32_above by lia. rewrite Z.lor_spec, Z.shiftl_spec by lia.
    by rewrite (testbit_above ds 8), (testbit_above qpn 24) by lia.
Qed.

(** The fields of such a word. *)
Lemma low_field a b w : 0 ≤ w → 0 ≤ a < 2 ^ w → Z.land (Z.lor a (Z.shiftl b w)) (Z.ones w) = a.
Proof.
  intros Hw Ha. apply Z.bits_inj'. intros i Hi. rewrite Z.land_spec, Z.lor_spec, Z.shiftl_spec by done.
  destruct (decide (i < w)).
  - rewrite Z.ones_spec_low, (Z.testbit_neg_r _ (i - w)) by lia. by rewrite orb_false_r, andb_true_r.
  - rewrite Z.ones_spec_high, (testbit_above a w) by lia. by rewrite andb_false_r.
Qed.

Lemma high_field a b w : 0 ≤ w → 0 ≤ a < 2 ^ w → Z.shiftr (Z.lor a (Z.shiftl b w)) w = b.
Proof.
  intros Hw Ha. apply Z.bits_inj'. intros i Hi.
  rewrite Z.shiftr_spec, Z.lor_spec, Z.shiftl_spec by lia.
  rewrite (testbit_above a w) by lia. cbn. f_equal. lia.
Qed.

(** ** The card reads what the builder wrote *)
Section read_back.
Context {X : Mlx5} {L : Mlx5Laws X}.

(** Bring the layout into the context for [lia]. *)
Ltac layout :=
  destruct ctrl_layout as (?&?&?&?&?&?&?), raddr_layout as (?&?&?), atomic_layout as (?&?&?),
    data_layout as (?&?&?&?), inl_layout as (?&?&?).

(** The number of 16-byte units of a request without the connection's own. *)
Definition ds_units (opcode : Z) (zero_byte_rd : bool) : Z :=
  if zero_byte_rd then 2
  else if (opcode =? MLX5_OPCODE_RDMA_WRITE) || (opcode =? MLX5_OPCODE_RDMA_READ) then 3 else 4.

Lemma cntrl_seg_read {C : ConnectionPolicy} opcode idx qpn sig zb m p :
  0 ≤ opcode < 2 ^ 8 → 0 ≤ idx < 2 ^ 16 → 0 ≤ qpn < 2 ^ 24 → 0 ≤ wqeCntrlOffset ≤ 1 →
  byte_of sig 3 = 0 →
  let '(m', p') := update_cntrl_seg opcode (swap_endian_u16 idx)
    (swap_endian_u32 (Z.shiftl qpn 8)) sig zb (m, p) in
  p' = p + 16 ∧ only p 16 m m' ∧
  card_opcode m' p = opcode ∧ card_index m' p = idx ∧ card_qpn m' p = qpn ∧
  card_ds m' p = ds_units opcode zb + wqeCntrlOffset ∧ card_wants_cqe m' p = false.
Proof.
  intros Hop Hidx Hqpn Hoff Hsig. layout. unfold update_cntrl_seg.
  change (if zb then 2 else _) with (ds_units opcode zb).
  assert (2 ≤ ds_units opcode zb ≤ 4) by (unfold ds_units; repeat case_if; lia).
  rewrite (uwrap_small 32 (ds_units opcode zb + _)) by lia.
  unfold card_opcode, card_index, card_qpn, card_ds, card_wants_cqe. read.
  rewrite !swap_u32_wrap, ctrl_word, qpn_word by lia.
  change 255 with (Z.ones 8). change 65535 with (Z.ones 16).
  rewrite !low_field, !high_field by lia. rewrite Z.land_ones, Z.mod_small by lia.
  split; [done|]. split.
  { repeat (apply only_store; [|lia..]). apply only_refl. }
  repeat split. unfold store at 1.
  rewrite (proj2 (Z.leb_le _ _)), (proj2 (Z.ltb_lt _ _)) by lia. cbn.
  unfold byte_of in *. rewrite Z.sub_diag, Z.shiftr_0_r.
  change (8 * 3) with 24 in Hsig. by rewrite Hsig.
Qed.

Lemma rdma_seg_read raddr rkey m p :
  0 ≤ raddr < 2 ^ 64 → 0 ≤ rkey < 2 ^ 32 →
  let '(m', p') := update_rdma_seg raddr rkey (m, p) in
  p' = p + 16 ∧ only p 16 m m' ∧ card_remote m' p = mkRemote raddr rkey.
Proof.
  intros Ha Hk. layout. unfold update_rdma_seg, card_remote. read.
  rewrite swap_u64_wrap, swap_u64_twice, !uwrap_small by lia.
  split; [done|]. split; [|done]. repeat (apply only_store; [|lia..]). apply only_refl.
Qed.

Lemma atomic_seg_read data cmp m p :
  let '(m', p') := update_atomic_data_seg data cmp (m, p) in
  p' = p + 16 ∧ only p 16 m m' ∧ card_atomic m' p = (u64 data, u64 cmp).
Proof.
  layout. unfold update_atomic_data_seg, card_atomic. read.
  rewrite !swap_u64_wrap, !swap_u64_twice.
  split; [done|]. split; [|done]. repeat (apply only_store; [|lia..]). apply only_refl.
Qed.

Lemma data_seg_read laddr size lkey m p :
  0 < laddr < 2 ^ 64 → 0 ≤ size < 2 ^ 31 → 0 ≤ lkey < 2 ^ 32 →
  let '(m', p') := update_data_seg laddr size lkey (m, p) in
  p' = p + 16 ∧ only p 16 m m' ∧ card_is_inline m' p = false ∧
  card_local m' p = mkLocal laddr size lkey.
Proof.
  intros Ha Hs Hk. layout. unfold update_data_seg, card_local, card_is_inline.
  rewrite (proj2 (Z.eqb_neq _ _)) by (unfold nullptr; lia).
  rewrite (proj1 inl_layout). read.
  rewrite !swap_u64_wrap, !swap_u64_twice, !swap_u32_wrap, !swap_u32_twice.
  change 0x7FFFFFFF with (Z.ones 31). rewrite Z.land_ones, (uwrap_small 32 size) by lia.
  rewrite (Z.mod_small size) by lia. rewrite !uwrap_small by lia.
  split; [done|]. split; [|by rewrite (testbit_above size 31)].
  repeat (apply only_store; [|lia..]). apply only_refl.
Qed.

Lemma inl_seg_read laddr size m p :
  laddr ≠ nullptr → 0 ≤ size ≤ 8 → laddr + size ≤ p ∨ p + 16 ≤ laddr →
  ∃ m', update_inl_data_seg laddr size (m, p) = Ok (m', p + 16) ∧ only p 16 m m' ∧
    card_is_inline m' p = true ∧ card_inline m' p = m <$> seqZ laddr size.
Proof.
  intros Ha Hs Hd. layout. unfold update_inl_data_seg.
  rewrite (proj2 (Z.eqb_neq _ _)) by done. rewrite (proj2 (Z.ltb_ge _ _)) by lia.
  set (w := Z.lor (Z.land (u32 size) 0x3FF) 0x80000000).
  set (m1 := store 4 m (p + inl_byte_count) (swap_endian_u32 w)).
  exists (copy_bytes m1 (p + sizeof_inl_data_seg) laddr size). split; [done|].
  assert (only p 16 m (copy_bytes m1 (p + sizeof_inl_data_seg) laddr size)) as Ho.
  { apply only_copy; [|lia..]. apply only_store; [|lia..]. apply only_refl. }
  split; [done|]. unfold card_is_inline, card_inline.
  assert (load 4 (copy_bytes m1 (p + sizeof_inl_data_seg) laddr size) (p + inl_byte_count)
          = swap_endian_u32 w) as ->.
  { rewrite (load_ext _ _ m1) by (intros; apply copy_bytes_other; lia). unfold m1. read.
    apply (uwrap_small 32). rewrite swap_u32_eq. apply (swap_generic_range 4). }
  rewrite swap_u32_twice.
  assert (Z.testbit (u32 w) 31 = true ∧ Z.land (u32 w) 0x3FF = size) as [-> ->].
  { unfold w. clear - Hs. assert (size = 0 ∨ size = 1 ∨ size = 2 ∨ size = 3 ∨ size = 4 ∨
      size = 5 ∨ size = 6 ∨ size = 7 ∨ size = 8) as Hc by lia.
    by destruct_or! Hc; subst. }
  split; [done|]. replace (seqZ laddr size) with (Z.add (laddr - (p + sizeof_inl_data_seg))
    <$> seqZ (p + sizeof_inl_data_seg) size) by (rewrite fmap_add_seqZ; f_equal; lia).
  rewrite <- list_fmap_compose. apply list_fmap_ext. intros i x Hx.
  apply lookup_seqZ in Hx as [-> ?]. unfold compose. rewrite copy_bytes_same by lia.
  unfold m1. rewrite store_other by lia. f_equal. lia.
Qed.

(** The card reads no byte beyond the segment. *)
Section unchanged.
Context {m m' : memory} {p : Z} (Hm : ∀ x, p ≤ x < p + 16 → m' x = m x).

Lemma card_head_same :
  card_opcode m' p = card_opcode m p ∧ card_index m' p = card_index m p ∧
  card_qpn m' p = card_qpn m p ∧ card_ds m' p = card_ds m p ∧
  card_wants_cqe m' p = card_wants_cqe m p.
Proof.
  unfold card_opcode, card_index, card_qpn, card_ds, card_wants_cqe. layout.
  rewrite Hm by lia. rewrite !(load_ext 4 m' m) by (intros; apply Hm; lia). done.
Qed.

Lemma card_remote_same : card_remote m' p = card_remote m p.
Proof.
  unfold card_remote. layout.
  by rewrite !(load_ext 4 m' m), !(load_ext 8 m' m) by (intros; apply Hm; lia).
Qed.

Lemma card_local_same : card_local m' p = card_local m p.
Proof.
  unfold card_local. layout.
  by rewrite !(load_ext 4 m' m), !(load_ext 8 m' m) by (intros; apply Hm; lia).
Qed.

Lemma card_atomic_same : card_atomic m' p = card_atomic m p.
Proof.
  unfold card_atomic. layout. by rewrite !(load_ext 8 m' m) by (intros; apply Hm; lia).
Qed.
End unchanged.
End read_back.
