(* ===== verification/QueuePair.v ===== *)
(** * Queue pairs of the InfiniBand backend

    [gpu_ib/queue_pair.cpp] with the thread policies of
    [gpu_ib/thread_policy.cpp]: posting work requests to the send queue, ringing
    the doorbell, and waiting for completions.  The card is a step relation that
    executes posted requests in order and writes the completion entries. *)
From S2P Require Import Prelude Endian Segments.

Local Open Scope Z_scope.

(** ** State *)

(** The members of [class QueuePair] that are set when the queue pair is made. *)
Record QPConfig := mkQPConfig {
  current_sq : Z;
  hdp_rkey : Z → Z;
  hdp_address : Z → Z;
  base_heap : Z → Z;
  num_cqs : Z;
  cq_log_size : Z;
  cq_size : Z;
  ctrl_qp_sq : Z;
  ctrl_sig : Z;
  qp_rkey : Z;
  qp_lkey : Z;
  max_nwqe : Z;
  db_val : Z;
  atomic_base_ptr : Z;
  atomic_lkey : Z
}.

(** What the device does that the network card or the host can see. *)
Inductive qp_event :=
  | DbrecSend (v : Z)
  | Doorbell (reg v : Z)
  | DbrecCq (v : Z)
  | HdpFlush
  | QuietError (opcode : Z).

(** The members that change, the memory and the events so far. *)
Record QueuePair := mkQP {
  db_uint : Z;
  sq_counter : Z;
  local_sq_cnt : Z;
  quiet_counter : Z;
  cq_consumer_counter : Z;
  atomic_counter : Z;
  cq_lock : Z;
  sq_lock : Z;
  qp_mem : memory;
  qp_events : list qp_event
}.

Definition emit (e : qp_event) (s : QueuePair) : QueuePair :=
  mkQP (db_uint s) (sq_counter s) (local_sq_cnt s) (quiet_counter s) (cq_consumer_counter s)
       (atomic_counter s) (cq_lock s) (sq_lock s) (qp_mem s) (qp_events s ++ [e]).
Definition set_db (v : Z) (s : QueuePair) : QueuePair :=
  mkQP v (sq_counter s) (local_sq_cnt s) (quiet_counter s) (cq_consumer_counter s)
       (atomic_counter s) (cq_lock s) (sq_lock s) (qp_mem s) (qp_events s).
Definition set_sq_counter (v : Z) (s : QueuePair) : QueuePair :=
  mkQP (db_uint s) v (local_sq_cnt s) (quiet_counter s) (cq_consumer_counter s)
       (atomic_counter s) (cq_lock s) (sq_lock s) (qp_mem s) (qp_events s).
Definition set_local_sq_cnt (v : Z) (s : QueuePair) : QueuePair :=
  mkQP (db_uint s) (sq_counter s) v (quiet_counter s) (cq_consumer_counter s)
       (atomic_counter s) (cq_lock s) (sq_lock s) (qp_mem s) (qp_events s).
Definition set_quiet_counter (v : Z) (s : QueuePair) : QueuePair :=
  mkQP (db_uint s) (sq_counter s) (local_sq_cnt s) v (cq_consumer_counter s)
       (atomic_counter s) (cq_lock s) (sq_lock s) (qp_mem s) (qp_events s).
Definition set_cq_consumer (v : Z) (s : QueuePair) : QueuePair :=
  mkQP (db_uint s) (sq_counter s) (local_sq_cnt s) (quiet_counter s) v
       (atomic_counter s) (cq_lock s) (sq_lock s) (qp_mem s) (qp_events s).
Definition set_atomic_counter (v : Z) (s : QueuePair) : QueuePair :=
  mkQP (db_uint s) (sq_counter s) (local_sq_cnt s) (quiet_counter s) (cq_consumer_counter s)
       v (cq_lock s) (sq_lock s) (qp_mem s) (qp_events s).
Definition set_cq_lock (v : Z) (s : QueuePair) : QueuePair :=
  mkQP (db_uint s) (sq_counter s) (local_sq_cnt s) (quiet_counter s) (cq_consumer_counter s)
       (atomic_counter s) v (sq_lock s) (qp_mem s) (qp_events s).
Definition set_sq_lock (v : Z) (s : QueuePair) : QueuePair :=
  mkQP (db_uint s) (sq_counter s) (local_sq_cnt s) (quiet_counter s) (cq_consumer_counter s)
       (atomic_counter s) (cq_lock s) v (qp_mem s) (qp_events s).
Definition set_mem (m : memory) (s : QueuePair) : QueuePair :=
  mkQP (db_uint s) (sq_counter s) (local_sq_cnt s) (quiet_counter s) (cq_consumer_counter s)
       (atomic_counter s) (cq_lock s) (sq_lock s) m (qp_events s).

(** [QueuePair::~QueuePair]: what the destructor stores in [global_qp], the member
    of the backend's array that the next context is copied from. *)
Definition QueuePair_destroy (qp global_qp : QueuePair) : QueuePair :=
  mkQP (db_uint global_qp) (sq_counter qp) (local_sq_cnt qp) (quiet_counter qp) (cq_consumer_counter qp)
       (atomic_counter global_qp) (cq_lock global_qp) (sq_lock global_qp) (qp_mem qp) (qp_events qp).

(** ** Doorbells and completion flags *)
Section queue_pair.
Context (cfg : QPConfig).

Definition ring_doorbell (v : Z) (s : QueuePair) : QueuePair :=
  let s := emit (DbrecSend (swap_endian_u32 (sq_counter s))) s in
  let s := emit (Doorbell (db_uint s) v) s in
  set_db (Z.lxor (db_uint s) 256) s.

(** The address of the request [num_wqes] before the counter. *)
Definition posted_wqe (num_wqes : Z) (s : QueuePair) : Z :=
  current_sq cfg + 64 * (u32 (sq_counter s - num_wqes) `mod` max_nwqe cfg).

Definition set_completion_flag_on_wqe (num_wqes : Z) (s : QueuePair) : QueuePair :=
  set_mem (store 1 (qp_mem s) (posted_wqe num_wqes s + 11) 8) s.

Definition inc_quiet_counter (s : QueuePair) : QueuePair :=
  set_quiet_counter (u32 (quiet_counter s + 1)) s.

Definition update_wqe_ce_single (cqe : bool) (num_wqes : Z) (s : QueuePair) : QueuePair :=
  if cqe || (sq_counter s `mod` max_nwqe cfg =? max_nwqe cfg - 2)
  then inc_quiet_counter (set_completion_flag_on_wqe num_wqes s) else s.

Definition update_wqe_ce_thread (cqe : bool) (num_wqes : Z) (s : QueuePair) : QueuePair :=
  if cqe then inc_quiet_counter (set_completion_flag_on_wqe num_wqes s) else s.

Definition compute_db_val_opcode (v dbrec_val opcode : Z) : Z :=
  let opcode64 := Z.land (u64 (Z.shiftl opcode 24)) 0x000000FFFF000000 in
  let dbrec := Z.land (Z.shiftl dbrec_val 8) 0x0000000000FFFF00 in
  let val := Z.land v 0xFFFFFFFFFF0000FF in
  Z.lor (Z.lor val dbrec) opcode64.

(** ** Waiting for completions *)

(** The test of the polling loop. *)
Definition cqe_ready (val_op_own cq_consumer : Z) : bool :=
  (Z.land val_op_own 1 =? Z.land (Z.shiftr cq_consumer (cq_log_size cfg)) 1) &&
  negb (Z.shiftr val_op_own 4 =? 15).

(** [loads] are the values that the loads of [op_own] return, one after the
    other; without a valid one the loop does not end. *)
Fixpoint poll_cqe (cq_consumer : Z) (loads : list Z) : result Z :=
  match loads with
  | [] => Fail OutOfFuel
  | val_op_own :: loads' =>
      if cqe_ready val_op_own cq_consumer then Ok val_op_own else poll_cqe cq_consumer loads'
  end.

Definition decQuietCounter (num : Z) (s : QueuePair) : QueuePair :=
  set_quiet_counter (u32 (quiet_counter s - s32 num)) s.

Definition quiet_internal (loads : list Z) (s : QueuePair) : result QueuePair :=
  let quiet_val := quiet_counter s in
  if quiet_val =? 0 then Ok s
  else
    let s := set_cq_consumer (u32 (cq_consumer_counter s + quiet_val - 1)) s in
    val_op_own ← poll_cqe (cq_consumer_counter s) loads;
    let opcode := Z.shiftr val_op_own 4 in
    let s := if negb (opcode =? 0) then emit (QuietError opcode) s else s in
    let s := decQuietCounter quiet_val s in
    let s := set_cq_consumer (u32 (cq_consumer_counter s + 1)) s in
    Ok (emit (DbrecCq (swap_endian_u32 (cq_consumer_counter s))) s).

(** ** Locks: [while (atomicCAS(&lock, 0, 1) == 1)]

    Here of a caller that meets no other one: a lock that is taken is not
    given back while it spins. *)
Definition take_cq_lock (s : QueuePair) : result QueuePair :=
  if cq_lock s =? 0 then Ok (set_cq_lock 1 s) else Fail OutOfFuel.
Definition take_sq_lock (s : QueuePair) : result QueuePair :=
  if sq_lock s =? 0 then Ok (set_sq_lock 1 s) else Fail OutOfFuel.

(** ** Thread policies

    [THREAD] stands for the first or the second of them, by [USE_THREADS]. *)
Inductive level := SingleThreadImpl | MultiThreadImpl | WG | WAVE.

Context (USE_THREADS : bool).

Definition THREAD : level := if USE_THREADS then MultiThreadImpl else SingleThreadImpl.

(** [level::quiet] of the thread that is chosen. *)
Definition level_quiet (L : level) (loads : list Z) (s : QueuePair) : result QueuePair :=
  match L with
  | SingleThreadImpl | WG => quiet_internal loads s
  | MultiThreadImpl | WAVE =>
      s ← take_cq_lock s; s ← quiet_internal loads s; Ok (set_cq_lock 0 s)
  end.

Definition quiet_single (L : level) (loads : list Z) (s : QueuePair) : result QueuePair :=
  level_quiet L loads s.

(** [QueuePair::waitCQSpace]; the policies' calls of it are commented out. *)
Definition waitCQSpace (num_msgs : Z) (loads : list Z) (s : QueuePair) : result QueuePair :=
  if cq_size cfg <=? u32 (quiet_counter s + num_msgs) then quiet_single THREAD loads s else Ok s.

Definition waitSQSpace (num_msgs : Z) (loads : list Z) (s : QueuePair) : result QueuePair :=
  let s := set_local_sq_cnt (u32 (local_sq_cnt s + num_msgs)) s in
  let div := s32 (local_sq_cnt s `div` max_nwqe cfg) in
  if 0 <? div then
    s ← quiet_single THREAD loads s;
    Ok (set_local_sq_cnt (local_sq_cnt s `mod` max_nwqe cfg) s)
  else Ok s.

Definition postLock_internal (active_threads : Z) (loads : list Z) (s : QueuePair)
    : result QueuePair :=
  s ← take_sq_lock (emit HdpFlush s); waitSQSpace active_threads loads s.

(** The loop over the processing elements that forces divergence runs its body
    for [pe] only. *)
Definition diverge {C : ConnectionPolicy} (pe : Z) (body : QueuePair → result QueuePair)
    (s : QueuePair) : result QueuePair :=
  if forcePostDivergence then
    if (0 <=? pe) && (pe <? num_cqs cfg) then body s else Ok s
  else body s.

Definition level_postLock {C : ConnectionPolicy} (L : level) (pe active_threads : Z)
    (loads : list Z) (s : QueuePair) : result QueuePair :=
  match L with
  | SingleThreadImpl | WG => waitSQSpace 1 loads (emit HdpFlush s)
  | MultiThreadImpl => diverge pe (postLock_internal active_threads loads) s
  | WAVE => s ← take_sq_lock (emit HdpFlush s); waitSQSpace 1 loads s
  end.

(** The first eight bytes of the last request. *)
Definition wqe_db_val (num_wqes : Z) (s : QueuePair) : Z :=
  load 8 (qp_mem s) (posted_wqe num_wqes s).

Definition level_finishPost {C : ConnectionPolicy} (L : level) (cqe ring_db : bool)
    (num_wqes pe le_sq_counter opcode : Z) (s : QueuePair) : result QueuePair :=
  match L with
  | SingleThreadImpl =>
      Ok (if ring_db then
            let v := compute_db_val_opcode (db_val cfg) le_sq_counter opcode in
            ring_doorbell v (update_wqe_ce_single cqe num_wqes s)
          else s)
  | MultiThreadImpl => diverge pe (λ s,
      let s := if ring_db
               then ring_doorbell (wqe_db_val num_wqes s) (update_wqe_ce_thread true num_wqes s)
               else s in
      Ok (set_sq_lock 0 s)) s
  | WG =>
      Ok (if ring_db
          then ring_doorbell (wqe_db_val num_wqes s) (update_wqe_ce_single cqe num_wqes s)
          else s)
  | WAVE =>
      let s := if ring_db
               then ring_doorbell (wqe_db_val num_wqes s) (update_wqe_ce_thread cqe num_wqes s)
               else s in
      Ok (set_sq_lock 0 s)
  end.

(** ** Posting *)

(** The arguments of [update_posted_wqe_generic]. *)
Record post_args := mkPost {
  pa_pe : Z;
  pa_size : Z;
  pa_laddr : Z;
  pa_raddr : Z;
  pa_opcode : Z;
  pa_atomic_data : Z;
  pa_atomic_cmp : Z;
  pa_ring_db : bool;
  pa_atomic_ret_pos : Z;
  pa_zero_byte_rd : bool
}.

Definition inline_threshold : Z := 8.

Context {X : Mlx5} {C : ConnectionPolicy}.

(** Lines 278 to 289: the segments after the remote address. *)
Definition build_data (a : post_args) (size : Z) (b : builder) : result builder :=
  let opcode := pa_opcode a in
  let '(b, size, lkey, laddr) :=
    if (opcode =? MLX5_OPCODE_ATOMIC_FA) || (opcode =? MLX5_OPCODE_ATOMIC_CS) then
      (update_atomic_data_seg (pa_atomic_data a) (pa_atomic_cmp a) b, 8, atomic_lkey cfg,
       atomic_base_ptr cfg + 8 * pa_atomic_ret_pos a)
    else (b, size, qp_lkey cfg, pa_laddr a) in
  if (size <=? inline_threshold) && (opcode =? MLX5_OPCODE_RDMA_WRITE)
  then update_inl_data_seg laddr size b
  else Ok (update_data_seg laddr size lkey b).

(** Lines 237 to 289: the request of one thread. *)
Definition build_wqe (a : post_args) (s : QueuePair) : result QueuePair :=
  let pe := pa_pe a in
  let opcode := pa_opcode a in
  let num_wqes := getNumWqes opcode in
  let my_sq_counter := sq_counter s in
  let s := set_sq_counter (u32 (my_sq_counter + num_wqes)) s in
  let my_sq_index := my_sq_counter `mod` max_nwqe cfg in
  let le_sq_counter := swap_endian_u16 (u16 my_sq_counter) in
  let rkey := setRkey (qp_rkey cfg) pe in
  let '(rkey, size) :=
    if (opcode =? MLX5_OPCODE_RDMA_WRITE) && (pa_size a =? 0) then (hdp_rkey cfg pe, 4)
    else (rkey, pa_size a) in
  let b := SegmentBuilder_new (qp_mem s) my_sq_index (current_sq cfg) in
  let b := update_cntrl_seg opcode le_sq_counter (ctrl_qp_sq cfg) (ctrl_sig cfg)
             (pa_zero_byte_rd a) b in
  let b := update_connection_seg pe b in
  let b := update_rdma_seg (pa_raddr a) rkey b in
  b ← build_data a size b;
  Ok (set_mem b.1 s).

Fixpoint build_wqes (reqs : list post_args) (s : QueuePair) : result QueuePair :=
  match reqs with
  | [] => Ok s
  | a :: reqs' => s ← build_wqe a s; build_wqes reqs' s
  end.

(** [update_posted_wqe_generic] by the active threads of a wavefront: [a] is the
    request of the thread that takes the lock and rings, [reqs] those of the
    other threads, in the order of their atomic additions.  With the policies
    of a single caller there are no others. *)
Definition update_posted_wqe_generic (L : level) (cqe : bool) (a : post_args)
    (reqs : list post_args) (loads : list Z) (s : QueuePair) : result QueuePair :=
  s ← level_postLock L (pa_pe a) (1 + Z.of_nat (length reqs)) loads s;
  let le_sq_counter := swap_endian_u16 (u16 (sq_counter s)) in
  s ← build_wqes (a :: reqs) s;
  level_finishPost L cqe (pa_ring_db a) (getNumWqes (pa_opcode a)) (pa_pe a) le_sq_counter
    (pa_opcode a) s.

Definition put_args (dest source nelems pe : Z) (db_ring : bool) : post_args :=
  mkPost pe (s32 nelems) source dest MLX5_OPCODE_RDMA_WRITE 0 0 db_ring 0 false.
Definition get_args (dest source nelems pe : Z) (db_ring : bool) : post_args :=
  mkPost pe (s32 nelems) source dest MLX5_OPCODE_RDMA_READ 0 0 db_ring 0 false.

Definition put_nbi (L : level) (dest source nelems pe : Z) (db_ring : bool)
    (loads : list Z) (s : QueuePair) : result QueuePair :=
  update_posted_wqe_generic L false (put_args dest source nelems pe db_ring) [] loads s.
Definition put_nbi_cqe (L : level) (dest source nelems pe : Z) (db_ring : bool)
    (loads : list Z) (s : QueuePair) : result QueuePair :=
  update_posted_wqe_generic L true (put_args dest source nelems pe db_ring) [] loads s.
Definition get_nbi (L : level) (dest source nelems pe : Z) (db_ring : bool)
    (loads : list Z) (s : QueuePair) : result QueuePair :=
  update_posted_wqe_generic L false (get_args dest source nelems pe db_ring) [] loads s.
Definition get_nbi_cqe (L : level) (dest source nelems pe : Z) (db_ring : bool)
    (loads : list Z) (s : QueuePair) : result QueuePair :=
  update_posted_wqe_generic L true (get_args dest source nelems pe db_ring) [] loads s.

Definition zero_b_rd (L : level) (pe : Z) (loads : list Z) (s : QueuePair) : result QueuePair :=
  update_posted_wqe_generic L true
    (mkPost pe 0 nullptr (base_heap cfg pe) MLX5_OPCODE_RDMA_READ 0 0 true 0 true) [] loads s.

(** [level::quiet_heavy] of the thread that is chosen. *)
Definition level_quiet_heavy (L : level) (pe : Z) (loads1 loads2 : list Z) (s : QueuePair)
    : result QueuePair :=
  s ← zero_b_rd THREAD pe loads1 s; level_quiet L loads2 s.

Definition quiet_single_heavy (L : level) (pe : Z) (loads1 loads2 : list Z) (s : QueuePair)
    : result QueuePair :=
  level_quiet_heavy L pe loads1 loads2 s.

Definition fence (pe : Z) (loads : list Z) (s : QueuePair) : result QueuePair :=
  update_posted_wqe_generic THREAD true
    (mkPost pe 0 nullptr (hdp_address cfg pe) MLX5_OPCODE_RDMA_WRITE 0 0 true 0 false) [] loads s.

(** [max_nb_atomic] of [atomic_return.hpp]. *)
Definition max_nb_atomic : Z := 4096.

Definition atomic_args (dest value cond pe : Z) (db_ring : bool) (atomic_op pos : Z) : post_args :=
  mkPost pe 8 nullptr dest atomic_op value cond db_ring pos false.

Definition atomic_nofetch (dest value cond pe : Z) (db_ring : bool) (atomic_op : Z)
    (loads1 loads2 : list Z) (s : QueuePair) : result QueuePair :=
  let pos := atomic_counter s `mod` max_nb_atomic in
  let s := set_atomic_counter (u64 (atomic_counter s + 1)) s in
  s ← update_posted_wqe_generic THREAD true
        (atomic_args dest value cond pe db_ring atomic_op pos) [] loads1 s;
  quiet_single THREAD loads2 s.

(** The wait for the card to overwrite the marker, [answers] being what the
    loads of the result return. *)
Fixpoint poll_answer (answers : list Z) : result Z :=
  match answers with
  | [] => Fail OutOfFuel
  | v :: answers' => if v =? -100 then poll_answer answers' else Ok v
  end.

Definition atomic_fetch (dest value cond pe : Z) (db_ring : bool) (atomic_op : Z)
    (loads1 loads2 answers : list Z) (s : QueuePair) : result (Z * QueuePair) :=
  let pos := atomic_counter s `mod` max_nb_atomic in
  let s := set_atomic_counter (u64 (atomic_counter s + 1)) s in
  let load_address := atomic_base_ptr cfg + 8 * pos in
  let s := set_mem (store 8 (qp_mem s) load_address (-100)) s in
  s ← update_posted_wqe_generic THREAD true
        (atomic_args dest value cond pe db_ring atomic_op pos) [] loads1 s;
  s ← quiet_single THREAD loads2 s;
  ret ← poll_answer answers;
  Ok (ret, s).
End queue_pair.

(** ** The request that the card reads *)

Inductive payload :=
  | PNone
  | PInline (bytes : list Z)
  | PLocal (l : local)
  | PAtomic (swap_compare : Z * Z) (ret : local).

Record request := mkRequest {
  rq_opcode : Z;
  rq_index : Z;
  rq_qpn : Z;
  rq_remote : remote;
  rq_payload : payload
}.

Section requests.
Context {X : Mlx5} {C : ConnectionPolicy}.

Definition is_atomic (opcode : Z) : bool :=
  (opcode =? MLX5_OPCODE_ATOMIC_FA) || (opcode =? MLX5_OPCODE_ATOMIC_CS).

(** The request at [w]: the control segment, the connection's own when it has
    one, the remote address, then the data as the operation and the number of
    segments tell. *)
Definition card_request (m : memory) (w : Z) : request :=
  let r := w + 16 * (1 + wqeCntrlOffset) in
  let d := r + 16 in
  mkRequest (card_opcode m w) (card_index m w) (card_qpn m w) (card_remote m r)
    (if is_atomic (card_opcode m w) then PAtomic (card_atomic m d) (card_local m (d + 16))
     else if card_ds m w =? 2 + wqeCntrlOffset then PNone
     else if card_is_inline m d then PInline (card_inline m d)
     else PLocal (card_local m d)).

(** A connection policy writes its segment, if it has one, and nothing else. *)
Class ConnectionLaws : Prop := {
  connection_seg : ∀ m p pe,
    only p (16 * wqeCntrlOffset) m (updateConnectionSegment m p pe).1 ∧
    wqeCntrlOffset = if (updateConnectionSegment m p pe).2 then 1 else 0
}.

(** The kinds of requests: a transfer, a zero-byte read, an atomic. *)
Definition transfer_ok (cfg : QPConfig) (w : Z) (a : post_args) : Prop :=
  (pa_opcode a = MLX5_OPCODE_RDMA_WRITE ∨ pa_opcode a = MLX5_OPCODE_RDMA_READ) ∧
  0 < pa_size a < 2 ^ 31 ∧ 0 < pa_laddr a < 2 ^ 64 ∧ pa_zero_byte_rd a = false ∧
  (pa_laddr a + pa_size a ≤ w ∨ w + 128 ≤ pa_laddr a).
Definition zero_read (a : post_args) : Prop :=
  pa_opcode a = MLX5_OPCODE_RDMA_READ ∧ pa_laddr a = nullptr ∧ pa_zero_byte_rd a = true.
Definition atomic_ok (cfg : QPConfig) (a : post_args) : Prop :=
  is_atomic (pa_opcode a) = true ∧ pa_zero_byte_rd a = false ∧
  0 < atomic_base_ptr cfg + 8 * pa_atomic_ret_pos a < 2 ^ 64.

(** What each of them asks for. *)
Definition meant_payload (cfg : QPConfig) (m : memory) (a : post_args) : payload :=
  if is_atomic (pa_opcode a) then
    PAtomic (u64 (pa_atomic_data a), u64 (pa_atomic_cmp a))
            (mkLocal (atomic_base_ptr cfg + 8 * pa_atomic_ret_pos a) 8 (atomic_lkey cfg))
  else if pa_zero_byte_rd a then PNone
  else if (pa_size a <=? inline_threshold) && (pa_opcode a =? MLX5_OPCODE_RDMA_WRITE)
  then PInline (m <$> seqZ (pa_laddr a) (pa_size a))
  else PLocal (mkLocal (pa_laddr a) (pa_size a) (qp_lkey cfg)).

(** What the fields of a queue pair hold after its initialisation. *)
Record cfg_ok (cfg : QPConfig) (qpn : Z) : Prop := {
  ok_qpn : 0 ≤ qpn < 2 ^ 24;
  ok_ctrl_qp_sq : ctrl_qp_sq cfg = swap_endian_u32 (Z.shiftl qpn 8);
  ok_ctrl_sig : byte_of (ctrl_sig cfg) 3 = 0;
  ok_rkey : ∀ pe, 0 ≤ setRkey (qp_rkey cfg) pe < 2 ^ 32;
  ok_lkey : 0 ≤ qp_lkey cfg < 2 ^ 32;
  ok_atomic_lkey : 0 ≤ atomic_lkey cfg < 2 ^ 32;
  ok_max : 2 < max_nwqe cfg < 2 ^ 16
}.

(** The place of the next request. *)
Definition next_wqe (cfg : QPConfig) (s : QueuePair) : Z :=
  current_sq cfg + 64 * (sq_counter s `mod` max_nwqe cfg).
End requests.
Arguments ConnectionLaws {_}.

#[export] Instance RC_laws : ConnectionLaws (C := RCConnectionImpl).
Proof. split. intros m p pe. split; [apply only_refl|done]. Qed.

#[export] Instance DC_laws {X : Mlx5} dct rkeys lids :
  ConnectionLaws (C := DCConnectionImpl dct rkeys lids).
Proof.
  split. intros m p pe. split; [|done]. cbn.
  repeat (apply only_store; [|unfold base_av_rlid, base_av_dqp_dct; lia..]). apply only_refl.
Qed.

Section posting.
Context {X : Mlx5} {L : Mlx5Laws X} {C : ConnectionPolicy} {CL : ConnectionLaws}.
Context (cfg : QPConfig) (qpn : Z) (Hcfg : cfg_ok cfg qpn).

(** The control segment and the connection's own. *)
Lemma head_segs_read opcode idx sig zb pe m w :
  0 ≤ opcode < 2 ^ 8 → 0 ≤ idx < 2 ^ 16 → byte_of sig 3 = 0 →
  ∃ m', update_connection_seg pe
          (update_cntrl_seg opcode (swap_endian_u16 idx) (swap_endian_u32 (Z.shiftl qpn 8)) sig zb
             (m, w)) = (m', w + 16 * (1 + wqeCntrlOffset)) ∧
    only w (16 * (1 + wqeCntrlOffset)) m m' ∧
    card_opcode m' w = opcode ∧ card_index m' w = idx ∧ card_qpn m' w = qpn ∧
    card_ds m' w = ds_units opcode zb + wqeCntrlOffset ∧ card_wants_cqe m' w = false ∧
    0 ≤ wqeCntrlOffset ≤ 1.
Proof.
  intros Hop Hidx Hsig.
  assert (0 ≤ wqeCntrlOffset ≤ 1) as Hoff.
  { destruct (connection_seg m w pe) as [_ ->]. case_if; lia. }
  pose proof (cntrl_seg_read opcode idx qpn sig zb m w Hop Hidx (ok_qpn _ _ Hcfg) Hoff Hsig) as Hc.
  destruct (update_cntrl_seg _ _ _ _ _ _) as [m1 p1]. destruct Hc as (-> & Ho1 & H1 & H2 & H3 & H4 & H5).
  unfold update_connection_seg. destruct (connection_seg m1 (w + 16) pe) as [Ho2 Hb].
  destruct (updateConnectionSegment m1 (w + 16) pe) as [m2 b]. cbn in Ho2, Hb.
  assert (∀ x, w ≤ x < w + 16 → m2 x = m1 x) as Hm by (intros; apply Ho2; lia).
  exists m2. destruct (card_head_same Hm) as (-> & -> & -> & -> & ->).
  split; [destruct b; rewrite Hb; unfold next_seg, sizeof_mlx5_segment; f_equal; lia|].
  split; [|done]. intros x Hx. by rewrite Ho2, Ho1 by lia.
Qed.

(** The card's view of the data segments. *)
Definition card_payload (opcode : Z) (zb : bool) (m : memory) (d : Z) : payload :=
  if is_atomic opcode then PAtomic (card_atomic m d) (card_local m (d + 16))
  else if zb then PNone
  else if card_is_inline m d then PInline (card_inline m d)
  else PLocal (card_local m d).

Lemma opcodes_distinct :
  MLX5_OPCODE_RDMA_WRITE ≠ MLX5_OPCODE_RDMA_READ ∧
  is_atomic MLX5_OPCODE_RDMA_WRITE = false ∧ is_atomic MLX5_OPCODE_RDMA_READ = false ∧
  (∀ o, is_atomic o = true → o ≠ MLX5_OPCODE_RDMA_WRITE ∧ o ≠ MLX5_OPCODE_RDMA_READ).
Proof.
  pose proof opcodes_differ as Hd. rewrite !NoDup_cons, !not_elem_of_cons in Hd.
  destruct Hd as ((?&?&?&_)&(?&?&_)&_). unfold is_atomic.
  assert (∀ o, (o =? MLX5_OPCODE_ATOMIC_FA) || (o =? MLX5_OPCODE_ATOMIC_CS) = true →
    o = MLX5_OPCODE_ATOMIC_FA ∨ o = MLX5_OPCODE_ATOMIC_CS) as Ho.
  { intros o. rewrite orb_true_iff, !Z.eqb_eq. tauto. }
  split; [done|]. split; [apply not_true_iff_false; by intros [?|?]%Ho|].
  split; [apply not_true_iff_false; by intros [?|?]%Ho|].
  intros o [-> | ->]%Ho; split; congruence.
Qed.

Lemma build_data_read a m d w :
  transfer_ok cfg w a ∨ zero_read a ∨ atomic_ok cfg a → w ≤ d → d + 32 ≤ w + 128 →
  ∃ m' p', build_data cfg a (pa_size a) (m, d) = Ok (m', p') ∧ only d 32 m m' ∧
    card_payload (pa_opcode a) (pa_zero_byte_rd a) m' d = meant_payload cfg m a.
Proof.
  intros Hk Hw Hd. destruct opcodes_distinct as (Hwr & Haw & Har & Hat).
  unfold build_data, card_payload, meant_payload. fold (is_atomic (pa_opcode a)).
  destruct Hk as [(Hop & Hs & Hl & Hz & Hdis)|[(Hop & Hl & Hz)|(Hop & Hz & Hl)]].
  - assert (is_atomic (pa_opcode a) = false) as -> by (destruct Hop as [-> | ->]; done).
    rewrite Hz. case_if.
    + apply andb_true_iff in Heqb as [Hle _]. apply Z.leb_le in Hle.
      unfold inline_threshold in Hle.
      destruct (inl_seg_read (pa_laddr a) (pa_size a) m d) as (m' & -> & Ho & Hi & Hb);
        [unfold nullptr; lia..|].
      exists m', (d + 16). rewrite Hi, Hb. split; [done|]. split; [|done]. intros x Hx. apply Ho. lia.
    + pose proof (data_seg_read (pa_laddr a) (pa_size a) (qp_lkey cfg) m d Hl
        ltac:(lia) (ok_lkey _ _ Hcfg)) as Hr.
      destruct (update_data_seg _ _ _ _) as [m' p']. destruct Hr as (-> & Ho & Hi & Hb).
      exists m', (d + 16). rewrite Hi, Hb. split; [done|]. split; [|done]. intros x Hx. apply Ho. lia.
  - rewrite Hop, Har, Hz, Hl, (proj2 (Z.eqb_neq _ _)), andb_false_r by done.
    exists m, d. split; [done|]. split; [apply only_refl|done].
  - rewrite Hop. pose proof (atomic_seg_read (pa_atomic_data a) (pa_atomic_cmp a) m d) as Ha.
    destruct (update_atomic_data_seg _ _ _) as [m1 p1]. destruct Ha as (-> & Ho1 & Hat1).
    rewrite (proj2 (Z.eqb_neq _ MLX5_OPCODE_RDMA_WRITE)), andb_false_r by by apply Hat.
    pose proof (data_seg_read _ 8 (atomic_lkey cfg) m1 (d + 16) Hl
      ltac:(lia) (ok_atomic_lkey _ _ Hcfg)) as Hr.
    destruct (update_data_seg _ _ _ _) as [m' p']. destruct Hr as (-> & Ho & _ & Hb).
    exists m', (d + 16 + 16). rewrite Hb. split; [done|]. split.
    + intros x Hx. by rewrite Ho, Ho1 by lia.
    + rewrite (card_atomic_same (m := m1) (m' := m')), Hat1 by (intros; apply Ho; lia). done.
Qed.

Lemma kind_opcode w a :
  transfer_ok cfg w a ∨ zero_read a ∨ atomic_ok cfg a →
  0 ≤ pa_opcode a < 2 ^ 8 ∧ (pa_opcode a = MLX5_OPCODE_RDMA_WRITE → pa_size a ≠ 0).
Proof.
  pose proof opcodes_range as Hr. rewrite !Forall_cons in Hr. destruct Hr as (?&?&?&?&_).
  destruct opcodes_distinct as (Hwr & _ & _ & Hat).
  intros [([Hop|Hop]&?&_)|[(Hop&_)|(Hop&_)]].
  - rewrite Hop. split; lia.
  - rewrite Hop. split; [lia|]. congruence.
  - rewrite Hop. split; [lia|]. congruence.
  - destruct (Hat _ Hop) as [Hne _]. split; [|done].
    unfold is_atomic in Hop. rewrite orb_true_iff, !Z.eqb_eq in Hop. destruct Hop as [-> | ->]; lia.
Qed.

Lemma meant_payload_only w m m' a :
  transfer_ok cfg w a ∨ zero_read a ∨ atomic_ok cfg a → only w 128 m m' →
  meant_payload cfg m' a = meant_payload cfg m a.
Proof.
  intros Hk Ho. unfold meant_payload. destruct (is_atomic (pa_opcode a)) eqn:Hat; [done|].
  destruct Hk as [(_ & Hs & _ & -> & Hdis)|[(_ & _ & ->)|(Hop & _)]]; [|done|congruence].
  case_if; [|done]. f_equal. apply list_fmap_ext. intros i x Hx.
  apply lookup_seqZ in Hx as [-> ?]. apply Ho. lia.
Qed.

Lemma build_wqe_read a s :
  transfer_ok cfg (next_wqe cfg s) a ∨ zero_read a ∨ atomic_ok cfg a →
  0 ≤ pa_raddr a < 2 ^ 64 → 0 ≤ sq_counter s < 2 ^ 32 →
  ∃ m', build_wqe cfg a s =
      Ok (set_mem m' (set_sq_counter (u32 (sq_counter s + getNumWqes (pa_opcode a))) s)) ∧
    only (next_wqe cfg s) (64 + 16 * wqeCntrlOffset) (qp_mem s) m' ∧
    card_request m' (next_wqe cfg s) =
      mkRequest (pa_opcode a) (u16 (sq_counter s)) qpn
        (mkRemote (pa_raddr a) (setRkey (qp_rkey cfg) (pa_pe a))) (meant_payload cfg (qp_mem s) a) ∧
    card_wants_cqe m' (next_wqe cfg s) = false.
Proof.
  intros Hk Hra Hsq. destruct (kind_opcode _ _ Hk) as [Hop Hnz]. pose proof (ok_max _ _ Hcfg) as Hmax.
  set (w := next_wqe cfg s) in *. unfold build_wqe.
  assert ((pa_opcode a =? MLX5_OPCODE_RDMA_WRITE) && (pa_size a =? 0) = false) as ->.
  { destruct (Z.eqb_spec (pa_opcode a) MLX5_OPCODE_RDMA_WRITE), (Z.eqb_spec (pa_size a) 0);
      naive_solver. }
  assert (SegmentBuilder_new (qp_mem (set_sq_counter (u32 (sq_counter s + getNumWqes (pa_opcode a))) s))
            (sq_counter s `mod` max_nwqe cfg) (current_sq cfg) = (qp_mem s, w)) as ->.
  { unfold SegmentBuilder_new, w, next_wqe, SEGMENTS_PER_WQE, sizeof_mlx5_segment. cbn. f_equal.
    pose proof (Z.mod_pos_bound (sq_counter s) (max_nwqe cfg) ltac:(lia)).
    rewrite (uwrap_small 64) by lia. lia. }
  destruct (head_segs_read (pa_opcode a) (u16 (sq_counter s)) (ctrl_sig cfg) (pa_zero_byte_rd a)
    (pa_pe a) (qp_mem s) w Hop (uwrap_range 16 _ ltac:(lia)) (ok_ctrl_sig _ _ Hcfg))
    as (m1 & Hm1 & Ho1 & H1 & H2 & H3 & H4 & H5 & Hoff).
  rewrite (ok_ctrl_qp_sq _ _ Hcfg), Hm1. set (r := w + 16 * (1 + wqeCntrlOffset)) in *.
  pose proof (rdma_seg_read (pa_raddr a) (setRkey (qp_rkey cfg) (pa_pe a)) m1 r Hra
    (ok_rkey _ _ Hcfg _)) as Hm2.
  destruct (update_rdma_seg _ _ _) as [m2 p2]. destruct Hm2 as (-> & Ho2 & Hr).
  destruct (build_data_read a m2 (r + 16) w Hk ltac:(lia) ltac:(lia)) as (m3 & p3 & -> & Ho3 & Hp).
  cbn. exists m3. split; [done|].
  assert (only w 128 (qp_mem s) m2) as Ho by (intros x Hx; rewrite Ho2, Ho1 by lia; done).
  rewrite (meant_payload_only _ _ _ _ Hk Ho) in Hp.
  split; [intros x Hx; by rewrite Ho3, Ho2, Ho1 by lia|].
  assert (∀ x, w ≤ x < w + 16 → m3 x = m1 x) as Hw by (intros; rewrite Ho3, Ho2 by lia; done).
  unfold card_request. destruct (card_head_same Hw) as (-> & -> & -> & -> & ->).
  fold r. rewrite H1, H2, H3, H4, H5. split; [|done].
  rewrite (card_remote_same (m := m2) (m' := m3)), Hr by (intros; apply Ho3; lia). f_equal.
  rewrite <- Hp. unfold card_payload. destruct (is_atomic (pa_opcode a)); [done|].
  unfold ds_units. destruct (pa_zero_byte_rd a); [by rewrite Z.eqb_refl|].
  rewrite (proj2 (Z.eqb_neq _ _)); [done|]. case_if; lia.
Qed.

(** *** The completion flag *)

Lemma card_request_flag m w :
  0 ≤ wqeCntrlOffset ≤ 1 →
  card_request (store 1 m (w + 11) 8) w = card_request m w ∧
  card_wants_cqe (store 1 m (w + 11) 8) w = true.
Proof.
  intros Hoff. destruct ctrl_layout as (?&?&?&?&?&?&?).
  assert (∀ k, (k = 0 ∨ k = 4) → load 4 (store 1 m (w + 11) 8) (w + k) = load 4 m (w + k)) as Hl.
  { intros k Hk. apply load_store_other. lia. }
  assert (∀ x, w + 16 ≤ x → store 1 m (w + 11) 8 x = m x) as Hx.
  { intros x Hx. apply store_other. lia. }
  split.
  - unfold card_request, card_opcode, card_index, card_qpn, card_ds.
    rewrite !Hl by lia. set (m' := store 1 m (w + 11) 8) in *.
    rewrite (card_remote_same (m := m) (m' := m')) by (intros; apply Hx; lia).
    rewrite (card_atomic_same (m := m) (m' := m')) by (intros; apply Hx; lia).
    rewrite !(card_local_same (m := m) (m' := m')) by (intros; apply Hx; lia).
    destruct inl_layout as (?&?&?), data_layout as (?&?&?&?).
    unfold card_is_inline, card_inline. rewrite !(load_ext 4 m' m) by (intros; apply Hx; lia).
    f_equal. repeat (case_match; [done|]). case_match; [|done]. f_equal.
    apply list_fmap_ext. intros i x Hi. apply lookup_seqZ in Hi as [-> ?]. apply Hx. lia.
  - unfold card_wants_cqe, store. rewrite (proj2 (Z.leb_le _ _)), (proj2 (Z.ltb_lt _ _)) by lia.
    cbn. by replace (w + ctrl_fm_ce_se - (w + 11)) with 0 by lia.
Qed.

(** *** What waiting leaves alone *)

Definition same_sq (s s' : QueuePair) : Prop :=
  qp_mem s' = qp_mem s ∧ sq_counter s' = sq_counter s ∧ db_uint s' = db_uint s.

Lemma quiet_internal_same loads s s' : quiet_internal cfg loads s = Ok s' → same_sq s s'.
Proof.
  unfold quiet_internal. case_if; [by intros [= <-]|]. intros H. inv_ok. by case_if.
Qed.

Lemma level_quiet_same Lv loads s s' : level_quiet cfg Lv loads s = Ok s' → same_sq s s'.
Proof.
  destruct Lv; cbn [level_quiet]; [apply quiet_internal_same| |apply quiet_internal_same|];
    intros H; inv_ok; unfold take_cq_lock in *; case_match; simplify_eq;
    by apply quiet_internal_same in E0.
Qed.

Lemma waitSQSpace_same thr n loads s s' : waitSQSpace cfg thr n loads s = Ok s' → same_sq s s'.
Proof.
  unfold waitSQSpace. case_if; [|by intros [= <-]]. intros H. inv_ok.
  by apply level_quiet_same in E.
Qed.

Lemma postLock_same thr Lv pe n loads s s' :
  level_postLock cfg thr Lv pe n loads s = Ok s' → same_sq s s'.
Proof.
  destruct Lv; cbn [level_postLock]; unfold diverge, postLock_internal, take_sq_lock.
  - apply (waitSQSpace_same thr 1 loads (emit HdpFlush s)).
  - repeat case_if; cbn [mbind result_bind]; try done; try (by intros [= <-]);
      intros H; by apply waitSQSpace_same in H.
  - apply (waitSQSpace_same thr 1 loads (emit HdpFlush s)).
  - case_if; cbn [mbind result_bind]; [|done]. intros H. by apply waitSQSpace_same in H.
Qed.

(** *** Finishing a post *)

(** Whether the last request asks for a completion entry. *)
Definition flagged (Lv : level) (cqe : bool) (counter : Z) : bool :=
  match Lv with
  | SingleThreadImpl | WG => cqe || (counter `mod` max_nwqe cfg =? max_nwqe cfg - 2)
  | MultiThreadImpl => true
  | WAVE => cqe
  end.

(** The queue pair after the doorbell. *)
Record rung (b : bool) (num : Z) (s s' : QueuePair) : Prop := {
  rg_mem : qp_mem s' =
    if b then store 1 (qp_mem s) (posted_wqe cfg num s + 11) 8 else qp_mem s;
  rg_quiet : quiet_counter s' = if b then u32 (quiet_counter s + 1) else quiet_counter s;
  rg_counters : sq_counter s' = sq_counter s ∧ local_sq_cnt s' = local_sq_cnt s ∧
    cq_consumer_counter s' = cq_consumer_counter s ∧ cq_lock s' = cq_lock s;
  rg_events : ∃ v, qp_events s' = qp_events s ++
    [DbrecSend (swap_endian_u32 (sq_counter s)); Doorbell (db_uint s) v]
}.

Lemma ring_rung b num v s : rung b num s (ring_doorbell v
  (if b then inc_quiet_counter (set_completion_flag_on_wqe cfg num s) else s)).
Proof. destruct b; split; try done; exists v; cbn; by rewrite <- app_assoc. Qed.

Lemma rung_unlock b num s s' : rung b num s s' → rung b num s (set_sq_lock 0 s').
Proof. by intros []; split. Qed.

Lemma finishPost_rung Lv cqe num pe le op s :
  (Lv = MultiThreadImpl → 0 ≤ pe < num_cqs cfg) →
  returns (level_finishPost cfg Lv cqe true num pe le op s)
          (rung (flagged Lv cqe (sq_counter s)) num s).
Proof.
  intros Hpe. destruct Lv; cbn [level_finishPost flagged returns].
  - apply ring_rung.
  - unfold diverge. rewrite (proj2 (Z.leb_le 0 pe)), (proj2 (Z.ltb_lt pe _)) by (apply Hpe; done).
    cbn [andb]. case_if; apply rung_unlock, (ring_rung true).
  - apply ring_rung.
  - apply rung_unlock, ring_rung.
Qed.

Lemma posted_wqe_next s num :
  0 ≤ sq_counter s < 2 ^ 32 →
  posted_wqe cfg num (set_sq_counter (u32 (sq_counter s + num)) s) = next_wqe cfg s.
Proof.
  intros Hs. unfold posted_wqe, next_wqe. cbn. f_equal. f_equal. f_equal.
  unfold uwrap. rewrite Zminus_mod_idemp_l, Z.add_simpl_r. by apply Z.mod_small.
Qed.

(** One post by one thread. *)
Record posted (Lv : level) (cqe : bool) (a : post_args) (s s' : QueuePair) : Prop := {
  ps_request : card_request (qp_mem s') (next_wqe cfg s) =
    mkRequest (pa_opcode a) (u16 (sq_counter s)) qpn
      (mkRemote (pa_raddr a) (setRkey (qp_rkey cfg) (pa_pe a))) (meant_payload cfg (qp_mem s) a);
  ps_cqe : card_wants_cqe (qp_mem s') (next_wqe cfg s) = flagged Lv cqe (sq_counter s');
  ps_counter : sq_counter s' = u32 (sq_counter s + getNumWqes (pa_opcode a));
  ps_only : only (next_wqe cfg s) (64 + 16 * wqeCntrlOffset) (qp_mem s) (qp_mem s');
  ps_doorbell : ∃ evs v, qp_events s' =
    evs ++ [DbrecSend (swap_endian_u32 (sq_counter s')); Doorbell (db_uint s) v]
}.

Lemma post_posted thr Lv cqe a loads s s' :
  update_posted_wqe_generic cfg thr Lv cqe a [] loads s = Ok s' →
  transfer_ok cfg (next_wqe cfg s) a ∨ zero_read a ∨ atomic_ok cfg a →
  0 ≤ pa_raddr a < 2 ^ 64 → 0 ≤ sq_counter s < 2 ^ 32 → pa_ring_db a = true →
  (Lv = MultiThreadImpl → 0 ≤ pa_pe a < num_cqs cfg) →
  posted Lv cqe a s s' ∧ ∃ s1,
    level_postLock cfg thr Lv (pa_pe a) 1 loads s = Ok s1 ∧
    quiet_counter s' = (if flagged Lv cqe (sq_counter s')
                        then u32 (quiet_counter s1 + 1) else quiet_counter s1) ∧
    local_sq_cnt s' = local_sq_cnt s1 ∧ cq_consumer_counter s' = cq_consumer_counter s1 ∧
    cq_lock s' = cq_lock s1.
Proof.
  intros Hpost Hk Hra Hsq Hring Hpe. unfold update_posted_wqe_generic in Hpost.
  apply bind_Ok_inv in Hpost as (s1 & Hlock & Hpost). destruct (postLock_same _ _ _ _ _ _ _ Hlock) as (Em & Esq & Edb).
  assert (next_wqe cfg s1 = next_wqe cfg s) as Ew by (unfold next_wqe; by rewrite Esq).
  destruct (build_wqe_read a s1) as (m' & Hb & Ho & Hreq & Hce); [by rewrite Ew|done|by rewrite Esq|].
  rewrite Ew in Ho, Hreq, Hce. rewrite Esq, Em in *.
  cbn [build_wqes] in Hpost. rewrite Hb in Hpost. cbn [mbind result_bind] in Hpost.
  rewrite Hring in Hpost. set (s2 := set_mem m' _) in *.
  pose proof (finishPost_rung Lv cqe (getNumWqes (pa_opcode a)) (pa_pe a)
    (swap_endian_u16 (u16 (sq_counter s))) (pa_opcode a) s2 Hpe) as Hf.
  rewrite Hpost in Hf. cbn [returns] in Hf. destruct Hf as [Hmem Hq (Hc & Hlc & Hcc & Hcl) (v & Hev)].
  assert (sq_counter s' = u32 (sq_counter s + getNumWqes (pa_opcode a))) as Hcnt by by rewrite Hc.
  assert (posted_wqe cfg (getNumWqes (pa_opcode a)) s2 = next_wqe cfg s) as Hw.
  { rewrite <- Ew, <- (posted_wqe_next s1 (getNumWqes (pa_opcode a))) by by rewrite Esq.
    unfold posted_wqe, s2. cbn. by rewrite Esq. }
  rewrite Hw in Hmem. change (qp_mem s2) with m' in Hmem.
  assert (0 ≤ wqeCntrlOffset ≤ 1) as Hoff.
  { destruct (connection_seg m' 0 0) as [_ ->]. case_if; lia. }
  destruct (card_request_flag m' (next_wqe cfg s) Hoff) as [Hf1 Hf2].
  replace (sq_counter s2) with (sq_counter s') in * by done.
  split; [split|].
  - rewrite Hmem. case_if; by rewrite ?Hf1.
  - rewrite Hmem. by case_if.
  - done.
  - rewrite Hmem. case_if; [|done]. apply only_store; [done|lia..].
  - exists (qp_events s1), v. rewrite Hev, <- Edb. done.
  - exists s1. split; [done|]. rewrite Hq, Hlc, Hcc, Hcl. done.
Qed.


(** Once there is room in the send queue the post goes through. *)
Lemma post_total thr Lv cqe a loads s s1 :
  level_postLock cfg thr Lv (pa_pe a) 1 loads s = Ok s1 →
  transfer_ok cfg (next_wqe cfg s) a ∨ zero_read a ∨ atomic_ok cfg a →
  0 ≤ pa_raddr a < 2 ^ 64 → 0 ≤ sq_counter s < 2 ^ 32 → pa_ring_db a = true →
  (Lv = MultiThreadImpl → 0 ≤ pa_pe a < num_cqs cfg) →
  ∃ s', update_posted_wqe_generic cfg thr Lv cqe a [] loads s = Ok s'.
Proof.
  intros Hlock Hk Hra Hsq Hring Hpe. destruct (postLock_same _ _ _ _ _ _ _ Hlock) as (Em & Esq & Edb).
  unfold update_posted_wqe_generic. cbn [length Nat.add]. change (1 + Z.of_nat 0) with 1.
  rewrite Hlock. cbn [mbind result_bind build_wqes].
  destruct (build_wqe_read a s1) as (m' & -> & _);
    [unfold next_wqe in *; by rewrite Esq|done|by rewrite Esq|].
  cbn [mbind result_bind]. rewrite Hring.
  match goal with |- context [level_finishPost cfg Lv cqe true ?n ?pe ?le ?op ?t] =>
    pose proof (finishPost_rung Lv cqe n pe le op t Hpe) as Hf;
    destruct (level_finishPost cfg Lv cqe true n pe le op t) as [s'|]; [by exists s'|done] end.
Qed.

(** When the thread policy has found room in the send queue, posting a
    transfer, a zero-byte read or an atomic leaves in the next slot a request
    that the card reads as the one meant: operation, index, queue pair, remote
    address and key, and payload, with the completion flag of the policy; it
    changes nothing outside the request, moves the counter on by its size,
    modulo 2^32, and the last thing it does is ring the doorbell. *)
Theorem posted_request thr Lv cqe a loads s s1 :
  level_postLock cfg thr Lv (pa_pe a) 1 loads s = Ok s1 →
  transfer_ok cfg (next_wqe cfg s) a ∨ zero_read a ∨ atomic_ok cfg a →
  0 ≤ pa_raddr a < 2 ^ 64 → 0 ≤ sq_counter s < 2 ^ 32 → pa_ring_db a = true →
  (Lv = MultiThreadImpl → 0 ≤ pa_pe a < num_cqs cfg) →
  ∃ s', update_posted_wqe_generic cfg thr Lv cqe a [] loads s = Ok s' ∧ posted Lv cqe a s s'.
Proof.
  intros Hl Hk Hra Hsq Hr Hpe. destruct (post_total thr Lv cqe a loads s s1) as [s' Hs']; [done..|].
  exists s'. split; [done|]. by eapply post_posted.
Qed.
End posting.

(** ** The card's headers as documented, and a small queue pair *)

Definition mlx5dv : Mlx5 := {|
  MLX5_OPCODE_RDMA_WRITE := 0x08;
  MLX5_OPCODE_RDMA_READ := 0x10;
  MLX5_OPCODE_ATOMIC_CS := 0x11;
  MLX5_OPCODE_ATOMIC_FA := 0x12;
  ctrl_opmod_idx_opcode := 0;
  ctrl_qpn_ds := 4;
  ctrl_signature := 8;
  ctrl_fm_ce_se := 11;
  ctrl_imm := 12;
  raddr_raddr := 0;
  raddr_rkey := 8;
  atomic_swap_add := 0;
  atomic_compare := 8;
  data_byte_count := 0;
  data_lkey := 4;
  data_addr := 8;
  inl_byte_count := 0;
  sizeof_inl_data_seg := 4
|}.

#[export] Instance mlx5dv_laws : Mlx5Laws mlx5dv.
Proof.
  split; cbn; try lia.
  - repeat constructor; lia.
  - apply (bool_decide_eq_true_1 (NoDup [8; 16; 17; 18])). vm_compute. reflexivity.
Qed.

Definition qp_small : QPConfig :=
  mkQPConfig 0x10000 (λ _, 5) (λ _, 0x7000) (λ _, 0x4000) 2 2 4
    (swap_endian_u32 (Z.shiftl 0x123 8)) 0 77 33 4 0 0x30000 44.

Lemma qp_small_ok : cfg_ok (C := RCConnectionImpl) qp_small 0x123.
Proof. split; cbn; try lia; done. Qed.

Definition qp_start : QueuePair := mkQP 0 0 0 0 0 0 0 0 (λ _, 0) [].

Definition put_small : post_args := put_args (X := mlx5dv) 0x5000 0x6000 4 1 true.

Lemma posted_request_witness :
  ∃ s', update_posted_wqe_generic (X := mlx5dv) (C := RCConnectionImpl) qp_small false
          SingleThreadImpl false put_small [] [] qp_start = Ok s' ∧
    posted (X := mlx5dv) (C := RCConnectionImpl) qp_small 0x123 SingleThreadImpl false put_small
      qp_start s'.
Proof.
  apply (posted_request (X := mlx5dv) (C := RCConnectionImpl) qp_small 0x123 qp_small_ok false
    SingleThreadImpl false put_small [] qp_start (set_local_sq_cnt 1 (emit HdpFlush qp_start)));
    [reflexivity| |cbn; lia|cbn; lia|reflexivity|done].
  left. split; [by left|]. change (pa_size put_small) with 4. repeat split; try by vm_compute. left. by vm_compute.
Defined.

(** ** Corners *)

(** The doorbell value keeps the operation of the value it starts from: a read
    after a value made for a write carries both. *)
Lemma db_val_opcode_mixed :
  byte_of (compute_db_val_opcode (Z.shiftl 0x08 24) 0 0x10) 3 = 0x18.
Proof. reflexivity. Qed.

(** A put of [2^32] bytes has size zero, which stands for the flush of the
    remote HDP. *)
Lemma put_args_wrap {X : Mlx5} dest source pe db : pa_size (put_args dest source (2 ^ 32) pe db) = 0.
Proof. reflexivity. Qed.

(** A fetched value equal to the marker is waited for forever. *)
Lemma poll_answer_marker n : poll_answer (replicate n (-100)) = Fail OutOfFuel.
Proof. induction n as [|n IH]; [done|exact IH]. Qed.
