(* ===== verification/SendQueue.v ===== *)
(** * Send queue and completion queue together

    A queue pair of a reliable connection used by one caller at a time, next to
    the card.  The card reads each request from its slot of the send queue at
    any time after the doorbell, executes what it has read in order, and writes
    a completion entry for each request that asks for one; every request
    succeeds.  Waiting in [quiet_internal] interleaves with the card.  A slot
    that is written again before the card has executed its request is lost to
    it: the theorems are about runs in which this does not happen
    ([kept_step]), [overrun_place] says where it can, and [send_queue_overrun]
    is a run in which it does. *)
From S2P Require Import Prelude Endian Segments QueuePair.

Local Open Scope Z_scope.

(** ** The card *)

(** The requests whose doorbell has rung, each as it stood in its slot then
    (a record of the history: the card uses only their number), the requests
    that the card has read from the send queue since, each with its completion
    flag, the number executed, the number of completion entries written, and
    [op_own] of each slot of the completion queue. *)
Record card := mkCard {
  sq_posts : list (request * bool);
  fetched : list (request * bool);
  executed : nat;
  produced : Z;
  cq_op_own : Z → Z
}.

Definition count_true (l : list bool) : Z := Z.of_nat (length (filter (λ b, b = true) l)).

(** The completion flags of the posted requests. *)
Definition flags (k : card) : list bool := (sq_posts k).*2.

(** The number of posted requests and of those that asked for an entry. *)
Definition n_posted (k : card) : Z := Z.of_nat (length (flags k)).
Definition n_wanted (k : card) : Z := count_true (flags k).

Section system.
Context {X : Mlx5} (cfg : QPConfig).

(** The entry number [k] of a request that succeeded: operation code zero, and
    the owner bit that changes with every round. *)
Definition op_own_of (k : Z) : Z := Z.land (Z.shiftr k (cq_log_size cfg)) 1.

(** Before the first round the entries are invalid. *)
Definition card_init : card := mkCard [] [] O 0 (λ _ : Z, 0xF0).

(** The slot of a request in the send queue. *)
Definition slot_wqe (i : Z) : Z := current_sq cfg + 64 * (i `mod` max_nwqe cfg).

(** What the card reads there. *)
Definition card_read (m : memory) (w : Z) : request * bool :=
  (card_request (C := RCConnectionImpl) m w, card_wants_cqe m w).

(** The card reads the requests from memory in order, each at any time after
    its doorbell, and executes what it has read. *)
Inductive card_step (m : memory) : card → card → Prop :=
  | card_fetches k :
      (length (fetched k) < length (sq_posts k))%nat →
      card_step m k (mkCard (sq_posts k)
        (fetched k ++ [card_read m (slot_wqe (Z.of_nat (length (fetched k))))])
        (executed k) (produced k) (cq_op_own k))
  | card_executes k r (b : bool) :
      fetched k !! executed k = Some (r, b) →
      card_step m k
        (if b then mkCard (sq_posts k) (fetched k) (S (executed k)) (produced k + 1)
                     (λ i, if i =? produced k `mod` cq_size cfg then op_own_of (produced k)
                           else cq_op_own k i)
         else mkCard (sq_posts k) (fetched k) (S (executed k)) (produced k) (cq_op_own k)).

(** The loads of one polling loop, at slot [i], while the card goes on. *)
Inductive observe (m : memory) (i : Z) : card → list Z → card → Prop :=
  | obs_done k : observe m i k [] k
  | obs_load k loads k' : observe m i k loads k' → observe m i k (cq_op_own k i :: loads) k'
  | obs_card k k1 loads k' : card_step m k k1 → observe m i k1 loads k' → observe m i k loads k'.

(** The slot that a wait polls. *)
Definition polled_slot (s : QueuePair) : Z :=
  u32 (cq_consumer_counter s + quiet_counter s - 1) `mod` cq_size cfg.

(** The doorbell of the request at [w] rings. *)
Definition doorbell (m : memory) (w : Z) (k : card) : card :=
  mkCard (sq_posts k ++ [card_read m w]) (fetched k) (executed k) (produced k) (cq_op_own k).

(** The requests that the theorems are about: those the card can read. *)
Definition request_ok (s : QueuePair) (a : post_args) : Prop :=
  (transfer_ok cfg (next_wqe cfg s) a ∨ zero_read a ∨ atomic_ok cfg a) ∧
  0 ≤ pa_raddr a < 2 ^ 64 ∧ pa_ring_db a = true.

Definition single_caller (Lv : level) : Prop := Lv = SingleThreadImpl ∨ Lv = WG.

(** Steps of the thread and of the card, stores of anybody to memory outside
    the send queue, and the end of a context, after which the next one goes on
    with a copy of what was stored. *)
Inductive sq_step : QueuePair * card → QueuePair * card → Prop :=
  | sq_post Lv cqe a loads s s' k k' :
      single_caller Lv → request_ok s a → observe (qp_mem s) (polled_slot s) k loads k' →
      update_posted_wqe_generic cfg false (X := X) (C := RCConnectionImpl) Lv cqe a [] loads s = Ok s' →
      sq_step (s, k) (s', doorbell (qp_mem s') (next_wqe cfg s) k')
  | sq_quiet Lv loads s s' k k' :
      single_caller Lv → observe (qp_mem s) (polled_slot s) k loads k' →
      quiet_single cfg Lv loads s = Ok s' → sq_step (s, k) (s', k')
  | sq_card s k k' : card_step (qp_mem s) k k' → sq_step (s, k) (s, k')
  | sq_memory s k m :
      (∀ x, current_sq cfg ≤ x < current_sq cfg + 64 * max_nwqe cfg → m x = qp_mem s x) →
      sq_step (s, k) (set_mem m s, k)
  | sq_reopen global_qp s k : sq_step (s, k) (QueuePair_destroy s global_qp, k).

(** The send queue holds at most as many requests that are not executed as it
    has slots: no request is written over one that is waiting. *)
Definition fits (k : card) : Prop := n_posted k - Z.of_nat (executed k) ≤ max_nwqe cfg.

(** A step after which it does.  The code does not see to it (see
    [overrun_place] and [send_queue_overrun]). *)
Definition kept_step (x y : QueuePair * card) : Prop := sq_step x y ∧ fits y.2.

(** A queue pair after its initialisation. *)
Definition qp_init (m : memory) : QueuePair := mkQP 0 0 0 0 0 0 0 0 m [].
End system.

#[export] Instance fits_dec cfg k : Decision (fits cfg k).
Proof. unfold fits. apply _. Defined.

(** ** Invariant *)

(** Queue sizes are powers of two, and the completion queue has room for the
    requests of a round of the send queue. *)
Record sizes_ok (cfg : QPConfig) : Prop := {
  sz_sq : ∃ j, 2 ≤ j ≤ 15 ∧ max_nwqe cfg = 2 ^ j;
  sz_cq : 0 ≤ cq_log_size cfg ≤ 15 ∧ cq_size cfg = 2 ^ cq_log_size cfg;
  sz_fit : max_nwqe cfg ≤ cq_size cfg
}.

Lemma count_true_app l1 l2 : count_true (l1 ++ l2) = count_true l1 + count_true l2.
Proof. unfold count_true. rewrite filter_app, length_app. lia. Qed.

Lemma count_true_nonneg l : 0 ≤ count_true l.
Proof. unfold count_true. lia. Qed.

Lemma count_true_single b : count_true [b] = if b then 1 else 0.
Proof. by destruct b. Qed.

Lemma count_true_take l e : count_true (take e l) ≤ count_true l.
Proof.
  rewrite <- (take_drop e l) at 2. rewrite count_true_app.
  pose proof (count_true_nonneg (drop e l)). lia.
Qed.

(** When all completion entries are there, the last request that asked for one
    has been executed. *)
Lemma count_true_all l e i :
  count_true l ≤ count_true (take e l) → l !! i = Some true → (i < e)%nat.
Proof.
  intros Hc Hi. destruct (decide (i < e)%nat) as [|Hge]; [done|].
  rewrite <- (take_drop e l) in Hc at 1. rewrite count_true_app in Hc.
  assert (drop e l !! (i - e)%nat = Some true) as Hd by (rewrite lookup_drop, <- Hi; f_equal; lia).
  rewrite <- (take_drop_middle _ _ _ Hd) in Hc. set (l1 := take _ (drop e l)) in *.
  set (l2 := drop _ (drop e l)) in *.
  rewrite count_true_app in Hc. cbn in Hc. pose proof (count_true_nonneg l1).
  change (true :: l2) with ([true] ++ l2) in Hc. rewrite count_true_app in Hc.
  pose proof (count_true_nonneg l2). change (count_true [true]) with 1 in Hc. lia.
Qed.

Lemma u32_mod_pow2 x j : 0 ≤ j ≤ 32 → u32 x `mod` 2 ^ j = x `mod` 2 ^ j.
Proof.
  intros Hj. unfold uwrap. apply Z.mod_mod_divide. exists (2 ^ (32 - j)).
  rewrite <- Z.pow_add_r by lia. f_equal. lia.
Qed.

Section invariant.
Context {X : Mlx5} {L : Mlx5Laws X} (cfg : QPConfig) (qpn : Z).
Context (Hcfg : cfg_ok (C := RCConnectionImpl) cfg qpn) (Hsz : sizes_ok cfg).

Abbreviation M := (max_nwqe cfg).
Abbreviation CQ := (cq_size cfg).

(** A request that lies in its slot alone. *)
Definition slot_sized (r : request) : Prop :=
  match rq_payload r with PInline bytes => (length bytes <= 8)%nat | _ => True end.

(** The completion queue holds the last entries, and nothing valid beyond. *)
Definition entries_ok (k : card) : Prop :=
  (∀ e, 0 ≤ e → produced k - CQ ≤ e < produced k →
     cq_op_own k (e `mod` CQ) = op_own_of cfg e) ∧
  (∀ i, produced k ≤ i < CQ → cq_op_own k i = 0xF0).

(** The card has read a part of the posted requests; the slots of the others
    still hold them. *)
Record card_ok (m : memory) (k : card) : Prop := {
  ck_prefix : fetched k `prefix_of` sq_posts k;
  ck_executed : (executed k ≤ length (fetched k))%nat;
  ck_slots : ∀ i p, (length (fetched k) ≤ i)%nat → sq_posts k !! i = Some p →
    slot_sized p.1 ∧ card_read m (slot_wqe cfg (Z.of_nat i)) = p;
  ck_produced : produced k = count_true (take (executed k) (flags k));
  ck_entries : entries_ok k;
  ck_flags : ∀ i : nat, (i < length (flags k))%nat →
    (Z.of_nat i + 1) `mod` M = M - 2 → flags k !! i = Some true;
  ck_round : M * (n_posted k / M) - 2 ≤ Z.of_nat (executed k);
  ck_fits : fits cfg k
}.

Record sq_ok (s : QueuePair) (k : card) : Prop := {
  so_card : card_ok (qp_mem s) k;
  so_counter : sq_counter s = u32 (n_posted k);
  so_quiet : 0 ≤ quiet_counter s ≤ n_posted k `mod` M + 1;
  so_consumer : cq_consumer_counter s = u32 (n_wanted k - quiet_counter s);
  so_consumed : 0 ≤ n_wanted k - quiet_counter s ≤ produced k
}.

Lemma length_flags k : length (flags k) = length (sq_posts k).
Proof. unfold flags. by rewrite length_fmap. Qed.

Lemma sizes : 4 ≤ M ≤ 2 ^ 15 ∧ M ≤ CQ ≤ 2 ^ 15 ∧ ∀ x, u32 x `mod` M = x `mod` M.
Proof.
  destruct Hsz as [(j & Hj & ->) [Hl ->] Hf]. 
  assert (2 ^ 2 ≤ 2 ^ j ≤ 2 ^ 15) by (split; apply Z.pow_le_mono_r; lia).
  assert (2 ^ cq_log_size cfg ≤ 2 ^ 15) by (apply Z.pow_le_mono_r; lia).
  split; [lia|]. split; [lia|]. intros x. apply u32_mod_pow2. lia.
Qed.

(** *** The owner bit *)

Lemma op_own_bit e : op_own_of cfg e = Z.b2z (Z.testbit e (cq_log_size cfg)).
Proof.
  pose proof (proj1 (sz_cq _ Hsz)). unfold op_own_of. change 1 with (Z.ones 1) at 1.
  rewrite Z.land_ones by lia. change (2 ^ 1) with 2. rewrite <- Z.bit0_mod, Z.shiftr_spec by lia.
  by rewrite Z.add_0_l.
Qed.

Lemma op_own_previous e : op_own_of cfg (e - CQ) = 1 - op_own_of cfg e.
Proof.
  destruct (sz_cq _ Hsz) as [Hl ->]. rewrite !op_own_bit, !Z.testbit_odd, !Z.shiftr_div_pow2 by lia.
  replace (e - 2 ^ cq_log_size cfg) with (e + -1 * 2 ^ cq_log_size cfg) by lia.
  rewrite Z.div_add by lia. rewrite Z.odd_add. cbn. destruct (Z.odd (e / _)); done.
Qed.

(** The test of the loop on a valid entry, and on one before the first round. *)
Lemma cqe_ready_entry e c :
  cqe_ready cfg (op_own_of cfg e) (u32 c) = bool_decide (op_own_of cfg e = op_own_of cfg c).
Proof.
  unfold cqe_ready. change (Z.land (Z.shiftr (u32 c) (cq_log_size cfg)) 1) with (op_own_of cfg (u32 c)).
  rewrite !op_own_bit, uwrap_testbit by (destruct (proj1 (sz_cq _ Hsz)); lia).
  rewrite (bool_decide_true (cq_log_size cfg < 32)) by (destruct (proj1 (sz_cq _ Hsz)); lia).
  by destruct (Z.testbit e _), (Z.testbit c _).
Qed.

Lemma cqe_ready_invalid c : cqe_ready cfg 0xF0 c = false.
Proof. unfold cqe_ready. by rewrite andb_false_r. Qed.

(** The test succeeds exactly when the entry waited for has been written. *)
Lemma ready_iff s k :
  sq_ok s k → quiet_counter s ≠ 0 →
  cqe_ready cfg (cq_op_own k (polled_slot cfg s))
    (u32 (cq_consumer_counter s + quiet_counter s - 1)) = true ↔ n_wanted k ≤ produced k.
Proof.
  intros [[_ Hex _ Hpr [Hin Hout] _ _ _] _ Hq Hc Hcon] Hne. destruct sizes as (HM & HCQ & Hmod).
  set (e := n_wanted k - 1).
  assert (u32 (cq_consumer_counter s + quiet_counter s - 1) = u32 e) as Hu.
  { rewrite Hc. unfold uwrap, e. rewrite <- Z.add_sub_assoc, Zplus_mod_idemp_l. f_equal. lia. }
  assert (polled_slot cfg s = e `mod` CQ) as ->.
  { unfold polled_slot. rewrite Hu. destruct (sz_cq _ Hsz) as [? ->]. apply u32_mod_pow2. lia. }
  rewrite Hu. pose proof (Z.mod_pos_bound (n_posted k) M ltac:(lia)).
  assert (produced k ≤ n_wanted k) as Hle by (rewrite Hpr; apply count_true_take).
  destruct (decide (n_wanted k ≤ produced k)) as [Hp|Hp].
  - rewrite (Hin e) by lia. rewrite cqe_ready_entry, bool_decide_true by done. done.
  - split; [|lia]. destruct (decide (e < CQ)) as [Hlt|Hge].
    + rewrite Z.mod_small, Hout, cqe_ready_invalid by lia. done.
    + replace (e `mod` CQ) with ((e - CQ) `mod` CQ).
      2: { rewrite <- (Z.mod_add (e - CQ) 1) by lia. f_equal. lia. }
      rewrite (Hin (e - CQ)) by lia. rewrite cqe_ready_entry, bool_decide_false; [done|].
      rewrite op_own_previous, op_own_bit. by destruct (Z.testbit e _).
Qed.

(** *** The card keeps the invariant *)

Lemma take_S_count (l : list bool) e (b : bool) :
  l !! e = Some b → count_true (take (S e) l) = count_true (take e l) + (if b then 1 else 0).
Proof.
  intros He. rewrite (take_S_r _ _ _ He), count_true_app, count_true_single. done.
Qed.

Lemma card_read_same m m' w :
  slot_sized (card_read m w).1 → (∀ x, w ≤ x < w + 64 → m' x = m x) → card_read m' w = card_read m w.
Proof.
  intros Hsize Hm. unfold card_read in *. cbn [fst] in Hsize.
  destruct (card_head_same (m := m) (m' := m') (p := w)) as (E1 & E2 & E3 & E4 & E5);
    [intros; apply Hm; lia|]. rewrite E5. f_equal.
  unfold slot_sized, card_request in *. cbn [rq_payload] in Hsize. rewrite E1, E2, E3, E4.
  cbn [wqeCntrlOffset RCConnectionImpl] in *.
  rewrite (card_remote_same (m := m) (m' := m')) by (intros; apply Hm; lia).
  rewrite (card_atomic_same (m := m) (m' := m')) by (intros; apply Hm; lia).
  rewrite !(card_local_same (m := m) (m' := m')) by (intros; apply Hm; lia).
  destruct inl_layout as (?&?&?), data_layout as (?&?&?&?).
  assert (∀ d, w ≤ d → d + 4 ≤ w + 64 → load 4 m' d = load 4 m d) as Hl.
  { intros d Hd1 Hd2. apply load_ext. intros; apply Hm; lia. }
  unfold card_is_inline, card_inline in *. rewrite !Hl by lia. f_equal.
  destruct (is_atomic (card_opcode m w)); [done|]. case_if; [done|]. case_if; [|done]. f_equal.
  apply list_fmap_ext. intros i x Hi. apply lookup_seqZ in Hi as [-> ?]. apply Hm.
  rewrite length_fmap, length_seqZ in Hsize. lia.
Qed.

Lemma card_step_ok m k k' :
  card_step cfg m k k' → card_ok m k → card_ok m k' ∧ sq_posts k' = sq_posts k ∧ produced k ≤ produced k'.
Proof.
  destruct sizes as (HM & HCQ & _).
  intros [k0 Hlt|k0 r b Hb] [Hpre Hex Hsl Hpr [Hin Hout] Hfl Hrd Hft].
  { destruct (lookup_lt_is_Some_2 _ _ Hlt) as [p Hp].
    split; [|done]. split; cbn [sq_posts fetched executed produced]; try done.
    - destruct Hpre as [[|q l] El]; [rewrite El, app_nil_r in Hlt; lia|].
      rewrite El in Hp. rewrite lookup_app_r, Nat.sub_diag in Hp by lia. injection Hp as ->.
      destruct (Hsl (length (fetched k0)) p) as [_ ->]; [lia|by rewrite El, list_lookup_middle|].
      exists l. by rewrite <- app_assoc.
    - rewrite length_app. cbn. lia.
    - intros i q Hi. rewrite length_app in Hi. apply Hsl. lia. }
  pose proof (lookup_lt_Some _ _ _ Hb). pose proof (prefix_length _ _ Hpre).
  assert (flags k0 !! executed k0 = Some b) as Hb'.
  { unfold flags. rewrite list_lookup_fmap.
    by rewrite (prefix_lookup_Some _ _ _ _ Hb Hpre). }
  pose proof (count_true_nonneg (take (executed k0) (flags k0))).
  destruct b; cbn [fetched executed produced].
  - split; [|split; [done|lia]].
    split; unfold n_posted, fits, flags in *; cbn [sq_posts fetched executed produced n_posted] in *.
    + done.
    + lia.
    + done.
    + rewrite (take_S_count _ _ _ Hb'), <- Hpr. done.
    + split; cbn [produced cq_op_own].
      * intros e He Hr. destruct (decide (e = produced k0)) as [->|Hne].
        { by rewrite Z.eqb_refl. }
        rewrite (proj2 (Z.eqb_neq _ _)); [apply Hin; lia|].
        intros Heq. pose proof (mod_window CQ e e (produced k0) ltac:(lia) ltac:(lia) ltac:(lia) Heq). lia.
      * intros i Hi. rewrite (proj2 (Z.eqb_neq _ _)); [apply Hout; lia|].
        rewrite Z.mod_small by lia. lia.
    + done.
    + lia.
    + unfold n_posted, flags in *. cbn [sq_posts] in *. lia.
  - split; [|split; [done|lia]].
    split; unfold n_posted, fits, flags in *; cbn [sq_posts fetched executed produced n_posted] in *.
    + done.
    + lia.
    + done.
    + rewrite (take_S_count _ _ _ Hb'), <- Hpr. lia.
    + by split.
    + done.
    + lia.
    + unfold n_posted, flags in *. cbn [sq_posts] in *. lia.
Qed.

(** The rest of the invariant only grows weaker as the card goes on. *)
Lemma sq_ok_card s k k' :
  sq_ok s k → card_ok (qp_mem s) k' → sq_posts k' = sq_posts k → produced k ≤ produced k' → sq_ok s k'.
Proof.
  intros [Hk Hc Hq Hcc Hcon] Hk' Hf Hp.
  split; unfold n_posted, n_wanted, flags in *; rewrite ?Hf; try done. lia.
Qed.

Lemma observe_ok m i k loads k' :
  observe cfg m i k loads k' → card_ok m k →
  card_ok m k' ∧ sq_posts k' = sq_posts k ∧ produced k ≤ produced k'.
Proof.
  induction 1 as [k|k loads k' _ IH|k k1 loads k' Hs _ IH]; intros Hk; [done|by apply IH|].
  destruct (card_step_ok _ _ _ Hs Hk) as (Hk1 & Hf & Hp). destruct (IH Hk1) as (? & ? & ?).
  split; [done|]. split; [congruence|lia].
Qed.

(** A wait that ends has seen the last entry. *)
Lemma poll_sound s k loads k' v :
  sq_ok s k → quiet_counter s ≠ 0 → observe cfg (qp_mem s) (polled_slot cfg s) k loads k' →
  poll_cqe cfg (u32 (cq_consumer_counter s + quiet_counter s - 1)) loads = Ok v →
  n_wanted k' ≤ produced k'.
Proof.
  intros Hok Hne Hobs. induction Hobs as [k|k loads k' Ho IH|k k1 loads k' Hs Ho IH].
  - done.
  - cbn [poll_cqe]. destruct (observe_ok _ _ _ _ _ Ho (so_card _ _ Hok)) as (_ & Hf & Hp).
    case_if; [|by apply IH]. apply (ready_iff s k Hok Hne) in Heqb.
    intros _. unfold n_wanted, flags in *. rewrite Hf. lia.
  - destruct (card_step_ok _ _ _ Hs (so_card _ _ Hok)) as (Hk1 & Hf & Hp).
    apply IH. by eapply sq_ok_card.
Qed.

(** A quiet leaves nothing to wait for, and all entries have been written. *)
Lemma quiet_internal_ok s k loads k' s' :
  sq_ok s k → observe cfg (qp_mem s) (polled_slot cfg s) k loads k' → quiet_internal cfg loads s = Ok s' →
  sq_ok s' k' ∧ quiet_counter s' = 0 ∧ n_wanted k' ≤ produced k' ∧ local_sq_cnt s' = local_sq_cnt s.
Proof.
  intros Hok Hobs Hq. destruct (observe_ok _ _ _ _ _ Hobs (so_card _ _ Hok)) as (Hk' & Hf & Hp).
  pose proof (sq_ok_card _ _ _ Hok Hk' Hf Hp) as Hok'. destruct sizes as (HM & HCQ & _).
  unfold quiet_internal in Hq. destruct (Z.eqb_spec (quiet_counter s) 0) as [H0|Hne].
  - injection Hq as <-. split; [done|]. split; [done|]. split; [|done].
    pose proof (so_consumed _ _ Hok'). lia.
  - apply bind_Ok_inv in Hq as (v & Hv & [= <-]).
    pose proof (poll_sound _ _ _ _ _ Hok Hne Hobs Hv) as Hall.
    pose proof (so_quiet _ _ Hok') as Hb. pose proof (Z.mod_pos_bound (n_posted k') M ltac:(lia)).
    pose proof (so_consumed _ _ Hok') as Hcd. pose proof (so_consumer _ _ Hok') as Hcc.
    assert (u32 (quiet_counter s - s32 (quiet_counter s)) = 0) as Hz.
    { rewrite s32_small by (unfold INT_MIN, INT_MAX; lia). by rewrite Z.sub_diag. }
    assert (u32 (u32 (cq_consumer_counter s + quiet_counter s - 1) + 1) = u32 (n_wanted k')) as Hn.
    { rewrite Hcc. unfold uwrap. rewrite Zplus_mod_idemp_l.
      replace (_ + quiet_counter s - 1 + 1) with
        ((n_wanted k' - quiet_counter s) `mod` 2 ^ 32 + quiet_counter s) by lia.
      rewrite Zplus_mod_idemp_l. f_equal. lia. }
    set (s2 := emit _ _).
    assert (qp_mem s2 = qp_mem s ∧ sq_counter s2 = sq_counter s ∧ quiet_counter s2 = 0 ∧
            local_sq_cnt s2 = local_sq_cnt s ∧ cq_consumer_counter s2 = u32 (n_wanted k'))
      as (E0 & E1 & E2 & E3 & E4).
    { unfold s2. case_if; cbn [qp_mem sq_counter quiet_counter local_sq_cnt cq_consumer_counter emit
        set_cq_consumer set_quiet_counter decQuietCounter]; by rewrite Hz, Hn. }
    split; [|done]. pose proof (count_true_nonneg (flags k')).
    split; rewrite ?E0, ?E1, ?E2, ?E4, ?Z.sub_0_r; [apply Hok'|apply Hok'|lia|done|].
    unfold n_wanted in *. lia.
Qed.

(** *** Posting keeps the invariant *)

Lemma sq_ok_ext s s' k :
  sq_ok s k → qp_mem s' = qp_mem s → sq_counter s' = sq_counter s → quiet_counter s' = quiet_counter s →
  cq_consumer_counter s' = cq_consumer_counter s → sq_ok s' k.
Proof. intros [] E0 E1 E2 E3. split; by rewrite ?E0, ?E1, ?E2, ?E3. Qed.

(** With its counter of requests in the round. *)
Definition sq_inv (s : QueuePair) (k : card) : Prop :=
  sq_ok s k ∧ local_sq_cnt s = n_posted k `mod` M.

(** The wait for space in the send queue: at the end of a round everything that
    asked for an entry has completed. *)
Lemma waitSQSpace_ok s k loads k' s1 :
  sq_inv s k → observe cfg (qp_mem s) (polled_slot cfg s) k loads k' →
  waitSQSpace cfg false 1 loads (emit HdpFlush s) = Ok s1 →
  sq_ok s1 k' ∧ sq_posts k' = sq_posts k ∧
  local_sq_cnt s1 = (n_posted k + 1) `mod` M ∧
  (n_posted k `mod` M = M - 1 → quiet_counter s1 = 0 ∧ n_wanted k' ≤ produced k').
Proof.
  intros [Hok Hloc] Hobs Hw. destruct sizes as (HM & HCQ & _).
  destruct (observe_ok _ _ _ _ _ Hobs (so_card _ _ Hok)) as (Hk' & Hf & Hp).
  pose proof (Z.mod_pos_bound (n_posted k) M ltac:(lia)) as Hb.
  assert (u32 (local_sq_cnt s + 1) = n_posted k `mod` M + 1) as El.
  { rewrite Hloc. apply uwrap_small. lia. }
  unfold waitSQSpace in Hw. cbn [local_sq_cnt set_local_sq_cnt emit] in Hw. rewrite El in Hw.
  destruct (decide (n_posted k `mod` M = M - 1)) as [Hlast|Hlast].
  - rewrite Hlast, Z.sub_add, Z.div_same in Hw by lia. cbn in Hw.
    apply bind_Ok_inv in Hw as (s2 & Hq & [= <-]).
    set (s0 := set_local_sq_cnt M (emit HdpFlush s)) in *.
    destruct (quiet_internal_ok s0 k loads k' s2) as (Hok2 & Hz & Hall & Hl2);
      [by eapply sq_ok_ext|done|done|].
    split; [by eapply sq_ok_ext|]. split; [done|]. split; [|done].
    cbn [local_sq_cnt set_local_sq_cnt]. rewrite Hl2. cbn. rewrite Z.mod_same by lia.
    rewrite <- (Zplus_mod_idemp_l (n_posted k)), Hlast, Z.sub_add, Z.mod_same; lia.
  - rewrite Z.div_small in Hw by lia. cbn in Hw. injection Hw as <-.
    split; [|split; [done|split; [|done]]].
    + eapply sq_ok_ext; [by eapply sq_ok_card|done..].
    + cbn [local_sq_cnt set_local_sq_cnt]. rewrite <- (Zplus_mod_idemp_l (n_posted k)).
      rewrite (Z.mod_small (_ + 1)); lia.
Qed.

(** At the end of a round, when the flagged requests are done, all but the last
    request are. *)
Lemma wait_executed m k :
  card_ok m k → n_posted k `mod` M = M - 1 → n_wanted k ≤ produced k →
  n_posted k - 1 ≤ Z.of_nat (executed k).
Proof.
  destruct sizes as (HM & HCQ & _). intros [Hpre Hex Hsl Hpr Hen Hfl Hrd Hft] Hlast Hall.
  pose proof (Z.div_mod (n_posted k) M ltac:(lia)) as Hd.
  assert (2 ≤ n_posted k) as H2.
  { pose proof (Z.div_pos (n_posted k) M). unfold n_posted in *. nia. }
  set (i := (length (flags k) - 2)%nat).
  assert (i < executed k)%nat as Hi.
  { apply (count_true_all (flags k)); [unfold n_wanted in Hall; lia|].
    apply Hfl; [unfold i, n_posted in *; lia|]. symmetry.
    apply (Z.mod_unique_pos _ _ (n_posted k / M)); [lia|].
    unfold i, n_posted in *. lia. }
  unfold i, n_posted in *. lia.
Qed.

(** The send queue has place for one more: what is written to its slot is not
    waiting to be executed. *)
Lemma slots_apart n i :
  0 ≤ i < n → n - i < M → ∀ x, slot_wqe cfg i ≤ x < slot_wqe cfg i + 64 →
  ¬ (slot_wqe cfg n ≤ x < slot_wqe cfg n + 64).
Proof.
  destruct sizes as (HM & _). intros Hi Hn x Hx Hx'. unfold slot_wqe in *.
  assert (i `mod` M = n `mod` M) as E by lia.
  pose proof (mod_window M i i n ltac:(lia) ltac:(lia) ltac:(lia) E). lia.
Qed.

Lemma doorbell_card_ok m m' k :
  let w := slot_wqe cfg (n_posted k) in let b := (card_read m' w).2 in
  card_ok m k → only w 64 m m' → slot_sized (card_read m' w).1 → fits cfg (doorbell m' w k) →
  ((n_posted k + 1) `mod` M = M - 2 → b = true) →
  (n_posted k `mod` M = M - 1 → n_wanted k ≤ produced k) → card_ok m' (doorbell m' w k).
Proof.
  intros w b [Hpre Hex Hsl Hpr Hen Hfl Hrd Hft] Ho Hsz' Hft' Hb Hall. destruct sizes as (HM & HCQ & _).
  assert (flags (doorbell m' w k) = flags k ++ [b]) as Ef by (unfold flags; cbn; by rewrite fmap_app).
  assert (n_posted (doorbell m' w k) = n_posted k + 1) as En.
  { unfold n_posted. rewrite Ef, length_app. cbn. lia. }
  pose proof (prefix_length _ _ Hpre) as Hle. pose proof (length_flags k) as Hlf.
  split; cbn [sq_posts fetched executed produced doorbell]; rewrite ?Ef; try done.
  - by apply prefix_app_r.
  - intros i p Hi Hp. destruct (decide (i = length (sq_posts k))) as [->|Hne].
    + rewrite lookup_app_r, Nat.sub_diag in Hp by lia. injection Hp as <-.
      split; [done|]. unfold w, n_posted. by rewrite Hlf.
    + rewrite lookup_app_l in Hp
        by (apply lookup_lt_Some in Hp; rewrite length_app in Hp; cbn in Hp; lia).
      destruct (Hsl i p Hi Hp) as [H1 H2]. split; [done|]. rewrite <- H2 in H1 |- *.
      apply card_read_same; [done|]. intros x Hx. apply Ho.
      apply lookup_lt_Some in Hp. unfold fits in Hft'. rewrite En in Hft'.
      cbn [executed doorbell] in Hft'. unfold n_posted in *.
      eapply slots_apart; [| |exact Hx]; lia.
  - rewrite take_app_le by lia. done.
  - intros i Hi Hm. rewrite length_app in Hi. cbn in Hi.
    destruct (decide (i < length (flags k))%nat) as [Hlt|Hge].
    + rewrite lookup_app_l by done. by apply Hfl.
    + assert (i = length (flags k)) as -> by lia. rewrite list_lookup_middle by done.
      by rewrite Hb.
  - rewrite En. pose proof (Z.div_mod (n_posted k) M ltac:(lia)) as Hd.
    pose proof (Z.mod_pos_bound (n_posted k) M ltac:(lia)) as Hr.
    destruct (decide (n_posted k `mod` M = M - 1)) as [Hlast|Hlast].
    + assert ((n_posted k + 1) / M = n_posted k / M + 1) as ->.
      { symmetry. apply (Z.div_unique_pos _ _ _ 0); lia. }
      pose proof (wait_executed m k) as Hw.
      assert (n_posted k - 1 ≤ Z.of_nat (executed k)) as Hw'; [|lia].
      apply Hw; [by split|done|by apply Hall].
    + assert ((n_posted k + 1) / M = n_posted k / M) as ->; [|done].
      symmetry. apply (Z.div_unique_pos _ _ _ (n_posted k `mod` M + 1)); lia.
Qed.

Lemma meant_sized w m a :
  transfer_ok cfg w a ∨ zero_read a ∨ atomic_ok cfg a → slot_sized
    (mkRequest (pa_opcode a) 0 0 (mkRemote 0 0) (meant_payload cfg m a)).
Proof.
  intros Hk. unfold slot_sized, meant_payload. cbn [rq_payload].
  destruct (is_atomic (pa_opcode a)); [done|]. destruct (pa_zero_byte_rd a); [done|].
  destruct ((pa_size a <=? inline_threshold) && (pa_opcode a =? MLX5_OPCODE_RDMA_WRITE)) eqn:E; [|done].
  apply andb_true_iff in E as [E%Z.leb_le _]. rewrite length_fmap, length_seqZ.
  unfold inline_threshold in E. lia.
Qed.

(** The number of posted requests and of doorbells. *)
Lemma n_posted_doorbell m w k : n_posted (doorbell m w k) = n_posted k + 1.
Proof. unfold n_posted. rewrite !length_flags. cbn. rewrite length_app. cbn. lia. Qed.

Lemma next_wqe_slot s k : sq_ok s k → next_wqe cfg s = slot_wqe cfg (n_posted k).
Proof.
  destruct sizes as (_ & _ & Hmod). intros Hok. unfold next_wqe, slot_wqe.
  by rewrite (so_counter _ _ Hok), Hmod.
Qed.

Lemma post_ok Lv cqe a loads s s' k k' :
  single_caller Lv → request_ok cfg s a → sq_inv s k →
  observe cfg (qp_mem s) (polled_slot cfg s) k loads k' →
  update_posted_wqe_generic cfg false (C := RCConnectionImpl) Lv cqe a [] loads s = Ok s' →
  let k2 := doorbell (qp_mem s') (next_wqe cfg s) k' in
  card_read (qp_mem s') (next_wqe cfg s) =
    (mkRequest (pa_opcode a) (u16 (sq_counter s)) qpn (mkRemote (pa_raddr a) (qp_rkey cfg))
       (meant_payload cfg (qp_mem s) a), cqe || ((n_posted k + 1) `mod` M =? M - 2)) ∧
  sq_posts k' = sq_posts k ∧
  (n_posted k `mod` M = M - 1 → n_posted k - 1 ≤ Z.of_nat (executed k')) ∧
  M * (n_posted k / M) - 2 ≤ Z.of_nat (executed k') ≤ n_posted k ∧
  (fits cfg k2 → sq_inv s' k2).
Proof.
  intros HLv (Hk & Hra & Hring) Hinv Hobs Hpost k2. destruct sizes as (HM & HCQ & Hmod).
  assert (0 ≤ sq_counter s < 2 ^ 32) as Hsq.
  { rewrite (so_counter _ _ (proj1 Hinv)). apply uwrap_range. lia. }
  destruct (post_posted cfg qpn Hcfg false Lv cqe a loads s s' Hpost Hk Hra Hsq Hring)
    as ([Hrq Hce Hcnt Honly _] & s1 & Hlock & Hq & Hlc & Hcc & _); [destruct HLv; congruence|].
  assert (waitSQSpace cfg false 1 loads (emit HdpFlush s) = Ok s1) as Hw.
  { by destruct HLv as [-> | ->]. }
  pose proof (waitSQSpace_same cfg false 1 loads _ _ Hw) as (Em & _ & _). cbn in Em.
  destruct (waitSQSpace_ok _ _ _ _ _ Hinv Hobs Hw) as (Hok1 & Hf & Hl1 & Hlast).
  assert (n_posted k' = n_posted k) as En by (unfold n_posted, flags; by rewrite Hf).
  assert (sq_counter s' = u32 (n_posted k + 1)) as Hc'.
  { rewrite Hcnt, (so_counter _ _ (proj1 Hinv)). cbn. unfold uwrap. by rewrite Zplus_mod_idemp_l. }
  assert (flagged cfg Lv cqe (sq_counter s') = cqe || ((n_posted k + 1) `mod` M =? M - 2)) as Hfl.
  { rewrite Hc'. destruct HLv as [-> | ->]; cbn [flagged]; by rewrite Hmod. }
  rewrite Hfl in Hce, Hq.
  assert (card_read (qp_mem s') (next_wqe cfg s) =
    (mkRequest (pa_opcode a) (u16 (sq_counter s)) qpn (mkRemote (pa_raddr a) (qp_rkey cfg))
       (meant_payload cfg (qp_mem s) a), cqe || ((n_posted k + 1) `mod` M =? M - 2))) as Hread.
  { unfold card_read. by rewrite Hrq, Hce. }
  split; [done|]. split; [done|]. destruct Hok1 as [Hk1 Hcn1 Hq1 Hco1 Hcd1]. rewrite Em in Hk1.
  split. { intros Hm. rewrite <- En. eapply wait_executed; [done|by rewrite En|]. by apply Hlast. }
  split.
  { pose proof (ck_round _ _ Hk1) as H1. pose proof (ck_executed _ _ Hk1).
    pose proof (prefix_length _ _ (ck_prefix _ _ Hk1)). rewrite En in H1.
    split; [done|]. rewrite <- En. unfold n_posted. rewrite length_flags. lia. }
  intros Hfit. pose proof (next_wqe_slot _ _ (proj1 Hinv)) as Ew. rewrite <- En in Ew.
  set (b := cqe || _) in *. pose proof (n_posted_doorbell (qp_mem s') (next_wqe cfg s) k') as En'.
  fold k2 in En'.
  assert (n_wanted k2 = n_wanted k' + if b then 1 else 0) as Enw.
  { unfold n_wanted, flags, k2. cbn [sq_posts doorbell]. rewrite fmap_app, Hread.
    cbn. by rewrite count_true_app, count_true_single. }
  pose proof (Z.mod_pos_bound (n_posted k) M ltac:(lia)) as Hr. rewrite En in *.
  assert (quiet_counter s' = quiet_counter s1 + if b then 1 else 0) as Hq'.
  { rewrite Hq. destruct b; [|lia]. apply uwrap_small. lia. }
  assert (∀ w, w = next_wqe cfg s → slot_sized (card_read (qp_mem s') w).1) as Hsized.
  { intros w ->. rewrite Hread. by apply (meant_sized (next_wqe cfg s)). }
  split; [split|].
  - unfold k2 in *. rewrite Ew in *. rewrite <- En in *. apply (doorbell_card_ok (qp_mem s)); [done|done|by apply Hsized|done|..].
    + rewrite Hread. intros Hm. rewrite En in Hm. unfold b. by rewrite Hm, Z.eqb_refl, orb_true_r.
    + intros Hm. by apply Hlast.
  - by rewrite Hc', En'.
  - rewrite En', Hq'. destruct (decide (n_posted k `mod` M = M - 1)) as [He|He].
    + destruct (Hlast He) as [-> _]. pose proof (Z.mod_pos_bound (n_posted k + 1) M ltac:(lia)).
      destruct b; lia.
    + rewrite <- (Zplus_mod_idemp_l (n_posted k)), (Z.mod_small (_ + 1)) by lia. destruct b; lia.
  - rewrite Hcc, Hco1, Enw, Hq'. f_equal. lia.
  - rewrite Enw, Hq'. change (produced k2) with (produced k'). lia.
  - by rewrite Hlc, Hl1, En'.
Qed.

(** Stores outside the send queue. *)
Lemma sq_inv_memory s k m :
  (∀ x, current_sq cfg ≤ x < current_sq cfg + 64 * M → m x = qp_mem s x) →
  sq_inv s k → sq_inv (set_mem m s) k.
Proof.
  intros Hm [[[Hpre Hex Hsl Hpr Hen Hfl Hrd Hft] Hc Hq Hcc Hcon] Hloc]. destruct sizes as (HM & _).
  split; [|done]. split; [|done..]. split; try done. intros i p Hi Hp.
  destruct (Hsl i p Hi Hp) as [H1 H2]. split; [done|]. rewrite <- H2 in H1 |- *.
  apply card_read_same; [done|]. intros x Hx. apply Hm. unfold slot_wqe in Hx.
  pose proof (Z.mod_pos_bound (Z.of_nat i) M ltac:(lia)). lia.
Qed.

Lemma sq_step_inv s k s' k' : kept_step cfg (s, k) (s', k') → sq_inv s k → sq_inv s' k'.
Proof.
  intros [Hstep Hfit] Hinv. cbn [snd] in Hfit.
  inversion Hstep as [Lv cqe a loads s0 s1 k0 k1 HLv Hreq Hobs Hpost
    |Lv loads s0 s1 k0 k1 HLv Hobs Hq|s0 k0 k1 Hc|s0 k0 m Hm|g s0 k0]; subst; clear Hstep.
  - by eapply post_ok.
  - destruct Hinv as [Hok Hloc].
    assert (quiet_internal cfg loads s = Ok s') as Hq' by by destruct HLv as [-> | ->].
    destruct (quiet_internal_ok _ _ _ _ _ Hok Hobs Hq') as (Hok' & _ & _ & Hl).
    split; [done|]. destruct (observe_ok _ _ _ _ _ Hobs (so_card _ _ Hok)) as (_ & Hf & _).
    unfold n_posted, flags in *. by rewrite Hl, Hf.
  - destruct Hinv as [Hok Hloc]. destruct (card_step_ok _ _ _ Hc (so_card _ _ Hok)) as (Hk & Hf & Hp).
    split; [by eapply sq_ok_card|]. unfold n_posted, flags in *. by rewrite Hf.
  - by apply sq_inv_memory.
  - destruct Hinv as [Hok Hloc]. split; [by eapply sq_ok_ext|done].
Qed.

Lemma sq_init_inv m : sq_inv (qp_init m) card_init.
Proof.
  destruct sizes as (HM & HCQ & _). split; [|done].
  split; unfold n_posted, n_wanted; cbn [length flags sq_posts fmap list_fmap card_init qp_init quiet_counter];
    rewrite ?Zmod_0_l; try done.
  split; try done; unfold fits, n_posted; cbn [length flags sq_posts fmap list_fmap card_init executed];
    rewrite ?Zdiv_0_l; [split; [cbn; lia|done]|cbn; lia|lia|lia].
Qed.

Lemma sq_reachable m s k :
  rtc (kept_step cfg) (qp_init m, card_init) (s, k) → sq_inv s k.
Proof.
  intros Hr. change (sq_inv (s, k).1 (s, k).2). revert Hr. generalize (s, k).
  apply rtc_ind_r; [apply sq_init_inv|].
  intros [s1 k1] [s2 k2] _ Hs IH. by eapply sq_step_inv.
Qed.

(** *** The card gets to the end *)

(** It reads all the requests, *)
Lemma card_reads_all m k :
  card_ok m k → ∃ k', nsteps (card_step cfg m) (length (sq_posts k) - length (fetched k)) k k' ∧
    card_ok m k' ∧ sq_posts k' = sq_posts k ∧ fetched k' = sq_posts k ∧ executed k' = executed k ∧
    produced k' = produced k.
Proof.
  remember (length (sq_posts k) - length (fetched k))%nat as n eqn:En. revert k En.
  induction n as [|n IH]; intros k En Hk; pose proof (prefix_length _ _ (ck_prefix _ _ Hk)).
  - exists k. split; [constructor|]. split_and!; try done.
    apply (prefix_length_eq _ _ (ck_prefix _ _ Hk)). lia.
  - pose proof (card_fetches cfg m k ltac:(lia)) as Hs. set (k1 := mkCard _ _ _ _ _) in Hs.
    destruct (card_step_ok _ _ _ Hs Hk) as (Hk1 & _ & _).
    destruct (IH k1) as (k' & Hn & Hk' & H1 & H2 & H3 & H4).
    { cbn. rewrite length_app. cbn. lia. }
    { done. }
    exists k'. split; [by econstructor|done].
Qed.

(** and executes them. *)
Lemma card_executes_all m k :
  card_ok m k → fetched k = sq_posts k →
  ∃ k', nsteps (card_step cfg m) (length (sq_posts k) - executed k) k k' ∧
    card_ok m k' ∧ sq_posts k' = sq_posts k ∧ fetched k' = sq_posts k ∧ executed k' = length (sq_posts k) ∧
    produced k ≤ produced k'.
Proof.
  remember (length (sq_posts k) - executed k)%nat as n eqn:En. revert k En.
  induction n as [|n IH]; intros k En Hk Hf; pose proof (ck_executed _ _ Hk).
  - exists k. split; [constructor|]. split_and!; try done. rewrite Hf in *. lia.
  - destruct (lookup_lt_is_Some_2 (fetched k) (executed k)) as [[r b] Hb]; [rewrite Hf; lia|].
    pose proof (card_executes cfg m k r b Hb) as Hs. set (k1 := if b then _ else _) in Hs.
    destruct (card_step_ok _ _ _ Hs Hk) as (Hk1 & Hp1 & Hp).
    assert (executed k1 = S (executed k) ∧ fetched k1 = fetched k) as [He1 Hf1] by by destruct b.
    destruct (IH k1) as (k' & Hn & Hk' & H1 & H2 & H3 & H4); [rewrite Hp1, He1; lia|done|congruence|].
    exists k'. split; [by econstructor|]. rewrite H1, H2, H3, Hp1. split_and!; [done..|lia].
Qed.

Lemma card_runs m k :
  card_ok m k →
  let n := ((length (sq_posts k) - length (fetched k)) + (length (sq_posts k) - executed k))%nat in
  ∃ k', nsteps (card_step cfg m) n k k' ∧ card_ok m k' ∧ sq_posts k' = sq_posts k ∧ fetched k' = sq_posts k ∧
    executed k' = length (sq_posts k) ∧ produced k ≤ produced k'.
Proof.
  intros Hk. destruct (card_reads_all m k Hk) as (k1 & Hn1 & Hk1 & Hp1 & Hf1 & He1 & Hpr1).
  destruct (card_executes_all m k1 Hk1) as (k2 & Hn2 & Hk2 & Hp2 & Hf2 & He2 & Hpr2); [congruence|].
  exists k2. rewrite Hp2, Hf2, He2, Hp1. rewrite Hp1, He1 in Hn2.
  split; [by eapply nsteps_trans|]. split_and!; [done..|lia].
Qed.

Lemma quiet_internal_ready s k loads :
  sq_ok s k → executed k = length (sq_posts k) →
  ∃ s', quiet_internal cfg (cq_op_own k (polled_slot cfg s) :: loads) s = Ok s'.
Proof.
  intros Hok He. unfold quiet_internal. destruct (Z.eqb_spec (quiet_counter s) 0); [eauto|].
  cbn [poll_cqe cq_consumer_counter set_cq_consumer].
  rewrite (proj2 (ready_iff s k Hok ltac:(done))); [cbn; eauto|].
  unfold n_wanted. rewrite (ck_produced _ _ (so_card _ _ Hok)), He, <- length_flags, firstn_all. done.
Qed.

Lemma single_quiet Lv loads s : single_caller Lv → quiet_single cfg Lv loads s = quiet_internal cfg loads s.
Proof. by intros [-> | ->]. Qed.

Definition zero_read_args (pe : Z) : post_args :=
  mkPost pe 0 nullptr (base_heap cfg pe) MLX5_OPCODE_RDMA_READ 0 0 true 0 true.

Lemma request_zero_read s pe :
  0 ≤ base_heap cfg pe < 2 ^ 64 → request_ok cfg s (zero_read_args pe).
Proof. intros Hb. split; [right; by left|done]. Qed.

(** A request as the card should find it. *)
Definition meant (s : QueuePair) (a : post_args) : request :=
  mkRequest (pa_opcode a) (u16 (sq_counter s)) qpn (mkRemote (pa_raddr a) (qp_rkey cfg))
    (meant_payload cfg (qp_mem s) a).

(** A request posted with a completion entry, and the wait that follows: all
    requests have been executed, each as it was posted. *)
Lemma post_then_quiet Lp Lv a loads1 loads2 s s1 s2 k k1 k2 :
  let kr := doorbell (qp_mem s1) (next_wqe cfg s) k1 in
  single_caller Lp → single_caller Lv → request_ok cfg s a → sq_inv s k →
  observe cfg (qp_mem s) (polled_slot cfg s) k loads1 k1 →
  update_posted_wqe_generic cfg false (C := RCConnectionImpl) Lp true a [] loads1 s = Ok s1 →
  fits cfg kr → observe cfg (qp_mem s1) (polled_slot cfg s1) kr loads2 k2 →
  quiet_single cfg Lv loads2 s1 = Ok s2 →
  sq_inv s2 k2 ∧ sq_posts k2 = sq_posts k ++ [(meant s a, true)] ∧ fetched k2 = sq_posts k2 ∧
  executed k2 = length (sq_posts k2) ∧ quiet_counter s2 = 0.
Proof.
  intros kr HLp HLv Hreq Hinv Ho1 Hp Hfit Ho2 Hq.
  destruct (post_ok _ _ _ _ _ _ _ _ HLp Hreq Hinv Ho1 Hp) as (Hread & Hf & _ & _ & Hinv1).
  cbn [orb] in Hread. specialize (Hinv1 Hfit) as [Hok1 Hl1]. fold kr in Hok1, Hl1.
  rewrite (single_quiet Lv) in Hq by done.
  destruct (quiet_internal_ok _ _ _ _ _ Hok1 Ho2 Hq) as (Hok2 & Hz & Hall & Hl2).
  destruct (observe_ok _ _ _ _ _ Ho2 (so_card _ _ Hok1)) as (Hk2 & Hf2 & _).
  assert (sq_posts k2 = sq_posts k ++ [(meant s a, true)]) as Hp2.
  { rewrite Hf2. unfold kr. cbn [sq_posts doorbell]. by rewrite Hf, Hread. }
  split; [split; [done|]; unfold n_posted, flags in *; by rewrite Hl2, Hl1, Hf2|].
  split; [done|]. pose proof (ck_executed _ _ Hk2) as Hex. pose proof (ck_prefix _ _ Hk2) as Hpre.
  assert (length (sq_posts k) < executed k2)%nat as Hlt.
  { apply (count_true_all (flags k2)).
    - unfold n_wanted in Hall. by rewrite <- (ck_produced _ _ Hk2).
    - unfold flags. by rewrite Hp2, list_lookup_fmap, list_lookup_middle. }
  pose proof (prefix_length _ _ Hpre) as Hle. pose proof Hp2 as Hlen.
  apply (f_equal length) in Hlen. rewrite length_app in Hlen. cbn in Hlen.
  assert (fetched k2 = sq_posts k2) as -> by (apply (prefix_length_eq _ _ Hpre); lia).
  split_and!; [done|lia|done].
Qed.

(** In the middle of a round with nothing to wait for, a request that asks for no
    entry leaves nothing to wait for. *)
Lemma post_unflagged a s k :
  request_ok cfg s a → sq_inv s k → quiet_counter s = 0 →
  (n_posted k + 1) `mod` M ≠ M - 2 → n_posted k `mod` M ≠ M - 1 →
  ∃ s', update_posted_wqe_generic cfg false (C := RCConnectionImpl) SingleThreadImpl false a [] [] s = Ok s' ∧
    card_read (qp_mem s') (next_wqe cfg s) = (meant s a, false) ∧ quiet_counter s' = 0.
Proof.
  intros Hreq Hinv Hq H1 H2. destruct sizes as (HM & _). pose proof Hreq as (Hk & Hra & Hring).
  assert (0 ≤ sq_counter s < 2 ^ 32) as Hsq.
  { rewrite (so_counter _ _ (proj1 Hinv)). apply uwrap_range. lia. }
  pose proof (Z.mod_pos_bound (n_posted k) M ltac:(lia)).
  set (s1 := set_local_sq_cnt (u32 (local_sq_cnt s + 1)) (emit HdpFlush s)).
  assert (level_postLock (C := RCConnectionImpl) cfg false SingleThreadImpl (pa_pe a) 1 [] s = Ok s1) as Hl.
  { unfold level_postLock, waitSQSpace, s1. cbn [local_sq_cnt set_local_sq_cnt emit].
    rewrite (proj2 Hinv), uwrap_small, Z.div_small by lia. done. }
  destruct (post_total cfg qpn Hcfg false SingleThreadImpl false a [] s s1) as [s' Hp]; [done..|].
  exists s'. split; [done|].
  destruct (post_ok SingleThreadImpl false a [] s s' k k) as (Hread & _); [by left|done|done|constructor|done|].
  rewrite (proj2 (Z.eqb_neq _ _)) in Hread by done. split; [done|].
  destruct (post_posted cfg qpn Hcfg false SingleThreadImpl false a [] s s' Hp Hk Hra Hsq Hring)
    as ([_ Hce' _ _ _] & s2 & Hl2 & Hqc & _); [done|].
  apply (f_equal snd) in Hread. cbn in Hread.
  rewrite <- Hce', Hread in Hqc. cbn in Hqc. rewrite Hqc. rewrite Hl in Hl2. by injection Hl2 as <-.
Qed.

(** C5: [quiet_single_heavy] waits for everything.  The card reads the
    requests from the slots of the send queue at any time after their doorbell.
    From any state that posts and waits of a single caller, the card, stores
    elsewhere and the change to the next context can reach without a request
    being written over one that is still to be executed (which the code does
    not exclude, see [overrun_place]): when it returns then the card has
    read and executed exactly the requests posted, in order and each as it was
    posted, last the zero-byte read that it posts itself, and no completion is
    left to wait for, however the card's progress falls among its loads. *)
Theorem quiet_completes m s k pe loads1 k1 s1 Lv loads2 k2 s2 :
  let kr := doorbell (qp_mem s1) (next_wqe cfg s) k1 in
  rtc (kept_step cfg) (qp_init m, card_init) (s, k) → single_caller Lv →
  0 ≤ base_heap cfg pe < 2 ^ 64 →
  observe cfg (qp_mem s) (polled_slot cfg s) k loads1 k1 →
  zero_b_rd cfg false (C := RCConnectionImpl) SingleThreadImpl pe loads1 s = Ok s1 → fits cfg kr →
  observe cfg (qp_mem s1) (polled_slot cfg s1) kr loads2 k2 →
  level_quiet cfg Lv loads2 s1 = Ok s2 →
  quiet_single_heavy cfg false (C := RCConnectionImpl) Lv pe loads1 loads2 s = Ok s2 ∧
  sq_posts k2 = sq_posts k ++ [(meant s (zero_read_args pe), true)] ∧ fetched k2 = sq_posts k2 ∧
  executed k2 = length (sq_posts k2) ∧ quiet_counter s2 = 0.
Proof.
  intros kr Hr HLv Hb Ho1 Hp Hfit Ho2 Hq.
  split; [unfold quiet_single_heavy, level_quiet_heavy; cbn [THREAD]; by rewrite Hp|].
  eapply post_then_quiet;
    [by left|exact HLv|by apply request_zero_read|by eapply sq_reachable|exact Ho1|exact Hp|done..].
Qed.

(** C33: A quiet ends: in any state reached without an overrun the card has a
    run that reads the requests not yet read and executes those not yet
    executed, all as they were posted, and after it one load of the completion
    entry ends the wait, so it does not depend on what is loaded after. *)
Theorem quiet_ends m s k Lv :
  rtc (kept_step cfg) (qp_init m, card_init) (s, k) → single_caller Lv →
  ∃ k', nsteps (card_step cfg (qp_mem s))
      ((length (sq_posts k) - length (fetched k)) + (length (sq_posts k) - executed k)) k k' ∧
    fetched k' = sq_posts k ∧ executed k' = length (sq_posts k) ∧
    ∀ loads, ∃ s', quiet_single cfg Lv (cq_op_own k' (polled_slot cfg s) :: loads) s = Ok s'.
Proof.
  intros Hr HLv. destruct (sq_reachable _ _ _ Hr) as [Hok _].
  destruct (card_runs (qp_mem s) k (so_card _ _ Hok)) as (k' & Hn & Hk' & Hf & Hft & He & Hp).
  exists k'. split; [done|]. split; [done|]. split; [done|]. intros loads. rewrite single_quiet by done.
  apply quiet_internal_ready; [by eapply sq_ok_card|]. by rewrite Hf.
Qed.

(** C34: The only place where the send queue overruns.  From a state reached
    without an overrun, every step keeps to the [max_nwqe] slots, except a post
    to the last slot but one of a round at a time when the card has executed
    nothing but what the last wait for space waited for; that request is
    written over the one in that slot, which is still to be executed. *)
Theorem overrun_place m s k s' k' :
  rtc (kept_step cfg) (qp_init m, card_init) (s, k) → sq_step cfg (s, k) (s', k') →
  fits cfg k' ∨
  (n_posted k `mod` M = M - 2 ∧ n_posted k' = n_posted k + 1 ∧
   Z.of_nat (executed k') = n_posted k - M ∧
   slot_wqe cfg (Z.of_nat (executed k')) = next_wqe cfg s).
Proof.
  intros Hr Hstep. pose proof (sq_reachable _ _ _ Hr) as Hinv. destruct sizes as (HM & _).
  destruct (decide (fits cfg k')) as [|Hno]; [by left|right].
  assert (∀ k0, sq_posts k' = sq_posts k → card_ok k0 k' → False) as Hsame.
  { intros k0 _ Hk. by apply Hno, Hk. }
  inversion Hstep as [Lv cqe a loads s0 s1 k0 k1 HLv Hreq Hobs Hpost
    |Lv loads s0 s1 k0 k1 HLv Hobs Hq|s0 k0 k1 Hc|s0 k0 m0 Hm|g s0 k0]; subst.
  - destruct (post_ok _ _ _ _ _ _ _ _ HLv Hreq Hinv Hobs Hpost) as (_ & Hf & Hlast & Hrd & _).
    assert (n_posted k1 = n_posted k) as En by (unfold n_posted, flags; by rewrite Hf).
    unfold fits in Hno. rewrite n_posted_doorbell, En in *. cbn [executed doorbell] in *.
    pose proof (Z.div_mod (n_posted k) M ltac:(lia)). pose proof (Z.mod_pos_bound (n_posted k) M ltac:(lia)).
    assert (n_posted k `mod` M ≠ M - 1) by (intros E; specialize (Hlast E); lia).
    assert (n_posted k `mod` M = M - 2 ∧ Z.of_nat (executed k1) = n_posted k - M) as [Hm2 He2] by lia.
    split_and!; [done|done|done|]. rewrite (next_wqe_slot _ _ (proj1 Hinv)), He2. unfold slot_wqe.
    f_equal. f_equal. rewrite <- (Z_mod_plus_full (n_posted k - M) 1). f_equal. lia.
  - destruct (observe_ok _ _ _ _ _ Hobs (so_card _ _ (proj1 Hinv))) as (Hk & Hf & _). by edestruct Hsame.
  - destruct (card_step_ok _ _ _ Hc (so_card _ _ (proj1 Hinv))) as (Hk & Hf & _). by edestruct Hsame.
  - by destruct (Hsame (qp_mem s) eq_refl (so_card _ _ (proj1 Hinv))).
  - by destruct (Hsame (qp_mem s) eq_refl (so_card _ _ (proj1 Hinv))).
Qed.
End invariant.

(** ** A queue of four slots *)

Lemma qp_small_sizes : sizes_ok qp_small.
Proof. split; cbn; [exists 2; lia|lia|lia]. Qed.

#[local] Existing Instance mlx5dv.

Definition post1 (loads : list Z) (s : QueuePair) : QueuePair :=
  match update_posted_wqe_generic (C := RCConnectionImpl) qp_small false SingleThreadImpl false
          put_small [] loads s with Ok s' => s' | Fail _ => s end.

(** The doorbell of that post. *)
Definition bell1 (loads : list Z) (s : QueuePair) (k : card) : card :=
  doorbell (qp_mem (post1 loads s)) (next_wqe qp_small s) k.

Lemma post1_step loads s k k' :
  match update_posted_wqe_generic (C := RCConnectionImpl) qp_small false SingleThreadImpl false
          put_small [] loads s with Ok _ => true | Fail _ => false end = true →
  0x6004 ≤ next_wqe qp_small s →
  observe qp_small (qp_mem s) (polled_slot qp_small s) k loads k' →
  sq_step qp_small (s, k) (post1 loads s, bell1 loads s k').
Proof.
  intros Hp Hw Ho. unfold bell1, post1.
  destruct (update_posted_wqe_generic _ _ _ _ _ _ _ _) as [s'|] eqn:E; [|done].
  refine (sq_post qp_small _ _ _ _ _ _ _ _ _ _ Ho E); [by left|].
  split; [|split; [by vm_compute|done]]. left. repeat split; try by vm_compute.
  - by left.
  - by left.
Qed.

Lemma obs_load_eq m i k v : v = cq_op_own k i → observe qp_small m i k [v] k.
Proof. intros ->. apply obs_load. constructor. Qed.

(** A fact about this run, by evaluation. *)
Ltac small := vm_compute; first [reflexivity | discriminate].
Ltac small_post := split; [apply post1_step; [small | small | ] | small].

(** The card reads the next request, and executes the next one it has read. *)
Definition fetch1 (s : QueuePair) (k : card) : card :=
  mkCard (sq_posts k)
    (fetched k ++ [card_read (qp_mem s) (slot_wqe qp_small (Z.of_nat (length (fetched k))))])
    (executed k) (produced k) (cq_op_own k).
Definition exec1 (k : card) : card :=
  match fetched k !! executed k with
  | Some (_, true) => mkCard (sq_posts k) (fetched k) (S (executed k)) (produced k + 1)
      (λ i, if i =? produced k `mod` cq_size qp_small then op_own_of qp_small (produced k)
            else cq_op_own k i)
  | _ => mkCard (sq_posts k) (fetched k) (S (executed k)) (produced k) (cq_op_own k)
  end.

Lemma exec1_step m k : (executed k < length (fetched k))%nat → card_step qp_small m k (exec1 k).
Proof.
  intros [[r b] Hb]%lookup_lt_is_Some_2. pose proof (card_executes qp_small m k r b Hb) as H.
  unfold exec1. rewrite Hb. by destruct b.
Qed.

Lemma fetch1_step s k :
  (length (fetched k) < length (sq_posts k))%nat → card_step qp_small (qp_mem s) k (fetch1 s k).
Proof. apply card_fetches. Qed.

Ltac small_card step := split; [apply sq_card, step; vm_compute; lia | small].

(** Three posts; two of them are read and executed; the fourth waits for the
    second. *)
Definition run_s1 : QueuePair := post1 [] qp_start.
Definition run_k1 : card := bell1 [] qp_start card_init.
Definition run_s2 : QueuePair := post1 [] run_s1.
Definition run_k2 : card := bell1 [] run_s1 run_k1.
Definition run_s3 : QueuePair := post1 [] run_s2.
Definition run_k3 : card := exec1 (exec1 (fetch1 run_s3 (fetch1 run_s3 (bell1 [] run_s2 run_k2)))).

Lemma run_third : rtc (kept_step qp_small) (qp_start, card_init) (run_s3, run_k3).
Proof.
  eapply (rtc_l _ _ (run_s1, run_k1)); [small_post; constructor|].
  eapply (rtc_l _ _ (run_s2, run_k2)); [small_post; constructor|].
  eapply (rtc_l _ _ (run_s3, bell1 [] run_s2 run_k2)); [small_post; constructor|].
  unfold run_k3.
  eapply rtc_l; [small_card (fetch1_step run_s3)|]. eapply rtc_l; [small_card (fetch1_step run_s3)|].
  eapply rtc_l; [small_card exec1_step|]. eapply rtc_l; [small_card exec1_step|]. apply rtc_refl.
Qed.

(** Three more posts, and the one that overruns the queue. *)
Definition run_s4 : QueuePair := post1 [0] run_s3.
Definition run_k4 : card := bell1 [0] run_s3 run_k3.
Definition run_s5 : QueuePair := post1 [] run_s4.
Definition run_k5 : card := bell1 [] run_s4 run_k4.
Definition run_s6 : QueuePair := post1 [] run_s5.
Definition run_k6 : card := bell1 [] run_s5 run_k5.
Definition run_s7 : QueuePair := post1 [] run_s6.
Definition run_k7 : card := bell1 [] run_s6 run_k6.

Lemma run_sixth : rtc (kept_step qp_small) (qp_start, card_init) (run_s6, run_k6).
Proof.
  etrans; [apply run_third|].
  eapply (rtc_l _ _ (run_s4, run_k4)); [small_post; apply obs_load_eq; small|].
  eapply (rtc_l _ _ (run_s5, run_k5)); [small_post; constructor|].
  eapply (rtc_l _ _ (run_s6, run_k6)); [small_post; constructor|]. apply rtc_refl.
Qed.

Lemma run_seventh : sq_step qp_small (run_s6, run_k6) (run_s7, run_k7).
Proof. apply post1_step; [small|small|constructor]. Qed.

(** The overrun happens: with four slots, six puts of which two are executed
    reach the place of [overrun_place], the wait at the end of the first round
    included; the seventh put is written over the third, and when the card
    reads the third slot it finds the seventh request: the third is never
    executed, the seventh twice. *)
Theorem send_queue_overrun :
  rtc (kept_step qp_small) (qp_init (λ _, 0), card_init) (run_s6, run_k6) ∧
  sq_step qp_small (run_s6, run_k6) (run_s7, run_k7) ∧ ¬ fits qp_small run_k7 ∧
  sq_step qp_small (run_s7, run_k7) (run_s7, fetch1 run_s7 run_k7) ∧
  let k := fetch1 run_s7 run_k7 in
  fetched k !! 2%nat = sq_posts k !! 6%nat ∧
  (λ p, rq_index p.1) <$> sq_posts k !! 2%nat = Some 2 ∧
  (λ p, rq_index p.1) <$> fetched k !! 2%nat = Some 6.
Proof.
  split; [apply run_sixth|]. split; [apply run_seventh|].
  split; [vm_compute; congruence|].
  split; [apply sq_card, fetch1_step; vm_compute; lia|]. split_and!; vm_compute; reflexivity.
Qed.

(** After three puts, two of them executed: the zero-byte read waits for the end
    of the round, and the wait that follows for its own entry. *)
Definition heavy_s1 : QueuePair :=
  match zero_b_rd qp_small false (C := RCConnectionImpl) SingleThreadImpl 1 [0] run_s3 with
  | Ok s => s | Fail _ => run_s3 end.
Definition heavy_s2 : QueuePair :=
  match level_quiet qp_small WG [0xF0; 0] heavy_s1 with Ok s => s | Fail _ => heavy_s1 end.
Definition heavy_k1 : card := doorbell (qp_mem heavy_s1) (next_wqe qp_small run_s3) run_k3.
Definition heavy_k2 : card := exec1 (exec1 (fetch1 heavy_s1 (fetch1 heavy_s1 heavy_k1))).

Lemma heavy_zero_b_rd :
  zero_b_rd qp_small false (C := RCConnectionImpl) SingleThreadImpl 1 [0] run_s3 = Ok heavy_s1.
Proof.
  unfold heavy_s1. destruct (zero_b_rd _ _ _ _ _ _) as [s|e] eqn:E; [done|].
  apply (f_equal (λ r, match r with Ok _ => true | Fail _ => false end)) in E.
  vm_compute in E. discriminate.
Qed.

Lemma heavy_quiet : level_quiet qp_small WG [0xF0; 0] heavy_s1 = Ok heavy_s2.
Proof.
  unfold heavy_s2. destruct (level_quiet _ _ _ _) as [s|e] eqn:E; [done|].
  apply (f_equal (λ r, match r with Ok _ => true | Fail _ => false end)) in E.
  vm_compute in E. discriminate.
Qed.

Lemma heavy_observe :
  observe qp_small (qp_mem heavy_s1) (polled_slot qp_small heavy_s1) heavy_k1 [0xF0; 0] heavy_k2.
Proof.
  change [0xF0; 0] with ([0xF0] ++ [0]).
  replace 0xF0 with (cq_op_own heavy_k1 (polled_slot qp_small heavy_s1)) by small.
  apply obs_load. unfold heavy_k2.
  eapply obs_card; [apply fetch1_step; vm_compute; lia|].
  eapply obs_card; [apply fetch1_step; vm_compute; lia|].
  eapply obs_card; [apply exec1_step; vm_compute; lia|].
  eapply obs_card; [apply exec1_step; vm_compute; lia|]. apply obs_load_eq. small.
Qed.

Lemma quiet_completes_witness :
  quiet_single_heavy qp_small false (C := RCConnectionImpl) WG 1 [0] [0xF0; 0] run_s3 = Ok heavy_s2 ∧
  sq_posts heavy_k2 = sq_posts run_k3 ++ [(meant qp_small 0x123 run_s3 (zero_read_args qp_small 1), true)] ∧
  fetched heavy_k2 = sq_posts heavy_k2 ∧ executed heavy_k2 = length (sq_posts heavy_k2) ∧
  quiet_counter heavy_s2 = 0.
Proof.
  apply (quiet_completes qp_small 0x123 qp_small_ok qp_small_sizes (λ _, 0) run_s3 run_k3 1
    [0] run_k3 heavy_s1 WG [0xF0; 0] heavy_k2 heavy_s2).
  - apply run_third.
  - by right.
  - by vm_compute.
  - apply obs_load_eq. small.
  - apply heavy_zero_b_rd.
  - small.
  - apply heavy_observe.
  - apply heavy_quiet.
Defined.

Lemma quiet_ends_witness :
  ∃ k', nsteps (card_step qp_small (qp_mem run_s3)) 2 run_k3 k' ∧ fetched k' = sq_posts run_k3 ∧
    executed k' = length (sq_posts run_k3) ∧
    ∀ loads, ∃ s', quiet_single qp_small WG (cq_op_own k' (polled_slot qp_small run_s3) :: loads)
                     run_s3 = Ok s'.
Proof.
  apply (quiet_ends qp_small 0x123 qp_small_ok qp_small_sizes (λ _, 0) run_s3 run_k3 WG);
    [apply run_third|by right].
Defined.

Lemma overrun_place_witness :
  fits qp_small run_k7 ∨
  (n_posted run_k6 `mod` max_nwqe qp_small = max_nwqe qp_small - 2 ∧
   n_posted run_k7 = n_posted run_k6 + 1 ∧
   Z.of_nat (executed run_k7) = n_posted run_k6 - max_nwqe qp_small ∧
   slot_wqe qp_small (Z.of_nat (executed run_k7)) = next_wqe qp_small run_s6).
Proof.
  apply (overrun_place qp_small 0x123 qp_small_ok qp_small_sizes (λ _, 0) run_s6 run_k6 run_s7 run_k7).
  - apply run_sixth.
  - apply run_seventh.
Defined.
