(* ===== verification/Locks.v ===== *)
(** * Lanes and locks of the device

    [device_mutex.cpp]: the numbering of the active lanes of a wavefront, the
    spin lock, and the lock that lets one work-group at a time into a shared
    context.  The locks are step relations over the single loads, stores and
    compare-and-swaps of the wavefronts. *)
From S2P Require Import Prelude.

Local Open Scope Z_scope.

(** ** Lanes *)

(** The lanes whose bit is set in a 64-bit word. *)
Definition lanes (v : Z) : list Z := filter (λ l, Z.testbit v l = true) (seqZ 0 64).

(** [__popcll] and [__ffsll]. *)
Definition popcll (v : Z) : Z := Z.of_nat (length (lanes v)).
Definition ffsll (v : Z) : Z := match lanes v with [] => 0 | l :: _ => l + 1 end.

(** The argument is the value of [__ballot(1)]. *)
Definition number_active_lanes (ballot : Z) : Z := popcll ballot.
Definition lowest_active_lane (ballot : Z) : Z := u64 (ffsll ballot - 1).
Definition active_logical_lane_id (ballot my_physical_lane_id : Z) : Z :=
  let all_ones_mask := u64 (-1) in
  let lane_mask := u64 (Z.shiftl all_ones_mask my_physical_lane_id) in
  let inverted_mask := u64 (Z.lnot lane_mask) in
  let lower_active_lanes := Z.land ballot inverted_mask in
  popcll lower_active_lanes.

(** ** [class DeviceMutex] *)

Inductive spin_pc := SOut | SSpin | SCritical.

(** One access of a thread: its part of [lock] or of [unlock]. *)
Definition spin_advance (lock_ : Z) (p : spin_pc) : Z * spin_pc :=
  match p with
  | SOut => (lock_, SSpin)
  | SSpin => (if lock_ =? 0 then 1 else lock_, if lock_ =? 1 then SSpin else SCritical)
  | SCritical => (0, SOut)
  end.

Inductive spin_step : Z * list spin_pc → Z * list spin_pc → Prop :=
  | spin_thread (lock_ : Z) ps (i : nat) p lock' p' :
      ps !! i = Some p → spin_advance lock_ p = (lock', p') →
      spin_step (lock_, ps) (lock', <[i := p']> ps).

(** ** [class OldDeviceMutex] *)

(** Where the lowest thread of a wavefront is.  [lock] is [Spin] (both loops on
    [ctx_lock_]), [While] and [IfFree] (the two loads of [wg_owner_]),
    [SetOwner], [GiveUp], [Count], [Add] (with the count that was loaded),
    [Done]; [unlock] is [USpin] to [URel]. *)
Inductive pc :=
  | Out
  | Spin | While | IfFree | SetOwner | GiveUp | Count | Add (v : Z) | Done
  | In
  | USpin | USub | USubStore (v : Z) | UTest | UClear | URel.

Record shared := mkShared {
  ctx_lock_ : Z;
  wg_owner_ : Z;
  num_threads_in_lock_ : Z
}.

Definition set_ctx_lock (v : Z) (s : shared) : shared :=
  mkShared v (wg_owner_ s) (num_threads_in_lock_ s).
Definition set_owner (v : Z) (s : shared) : shared :=
  mkShared (ctx_lock_ s) v (num_threads_in_lock_ s).
Definition set_num (v : Z) (s : shared) : shared :=
  mkShared (ctx_lock_ s) (wg_owner_ s) v.

(** A wavefront: its work-group, its number of active threads. *)
Record wave := mkWave { wv_wg : Z; wv_threads : Z; wv_pc : pc }.
Definition set_pc (p : pc) (w : wave) : wave := mkWave (wv_wg w) (wv_threads w) p.

(** One round of [while (atomicCAS(&ctx_lock_, 0, 1) == 1)]. *)
Definition cas_ctx_lock (again next : pc) (s : shared) : shared * pc :=
  (set_ctx_lock (if ctx_lock_ s =? 0 then 1 else ctx_lock_ s) s,
   if ctx_lock_ s =? 1 then again else next).

Section mutex.
Context (shareable_ : bool).

(** The next access of a wavefront. *)
Definition advance (s : shared) (w : wave) : shared * pc :=
  match wv_pc w with
  | Out => (s, if shareable_ then Spin else In)
  | Spin => cas_ctx_lock Spin While s
  | While => (s, if wg_owner_ s =? wv_wg w then Count else IfFree)
  | IfFree => (s, if wg_owner_ s =? -1 then SetOwner else GiveUp)
  | SetOwner => (set_owner (wv_wg w) s, While)
  | GiveUp => (set_ctx_lock 0 s, Spin)
  | Count => (s, Add (num_threads_in_lock_ s))
  | Add v => (set_num (s32 (v + wv_threads w)) s, Done)
  | Done => (set_ctx_lock 0 s, In)
  | In => (s, if shareable_ then USpin else Out)
  | USpin => cas_ctx_lock USpin USub s
  | USub => (s, USubStore (num_threads_in_lock_ s))
  | USubStore v => (set_num (s32 (v - wv_threads w)) s, UTest)
  | UTest => (s, if num_threads_in_lock_ s =? 0 then UClear else URel)
  | UClear => (set_owner (-1) s, URel)
  | URel => (set_ctx_lock 0 s, Out)
  end.

Inductive mutex_step : shared * list wave → shared * list wave → Prop :=
  | mutex_wave s ws (i : nat) w s' p :
      ws !! i = Some w → advance s w = (s', p) →
      mutex_step (s, ws) (s', <[i := set_pc p w]> ws).
End mutex.

(** A new mutex, and wavefronts that have not called it yet. *)
Definition mutex_init : shared := mkShared 0 (-1) 0.
Definition fresh_waves (ws : list wave) : Prop :=
  Forall (λ w, 0 ≤ wv_wg w ∧ 0 < wv_threads w ∧ wv_pc w = Out) ws.

(** ** The numbering of lanes *)

Lemma lanes_split (v lane : Z) :
  0 ≤ lane < 64 → Z.testbit v lane = true →
  lanes v = filter (λ l, Z.testbit v l = true) (seqZ 0 lane) ++
            lane :: filter (λ l, Z.testbit v l = true) (seqZ (lane + 1) (63 - lane)).
Proof.
  intros Hln Hb. unfold lanes. replace 64 with (lane + (1 + (63 - lane))) by lia.
  rewrite (seqZ_app 0 lane), filter_app by lia. f_equal.
  rewrite seqZ_app, filter_app by lia. change (seqZ (0 + lane) 1) with [0 + lane].
  rewrite filter_cons_True by (rewrite Z.add_0_l; done). rewrite filter_nil, !Z.add_0_l. done.
Qed.

(** The mask of [active_logical_lane_id] has the bits below the lane. *)
Lemma inverted_mask_bit (lane l : Z) :
  0 ≤ lane < 64 → 0 ≤ l < 64 →
  Z.testbit (u64 (Z.lnot (u64 (Z.shiftl (u64 (-1)) lane)))) l = bool_decide (l < lane).
Proof.
  intros Hlane Hl. unfold uwrap. rewrite Z.mod_pow2_bits_low by lia.
  rewrite Z.lnot_spec, Z.mod_pow2_bits_low by lia.
  destruct (decide (l < lane)) as [Hlt|Hge].
  - rewrite Z.shiftl_spec_low, bool_decide_true by lia. done.
  - rewrite Z.shiftl_spec, Z.mod_pow2_bits_low, Z.bits_m1, bool_decide_false by lia. done.
Qed.

Lemma logical_lane_id_below (ballot lane : Z) :
  0 ≤ lane < 64 →
  active_logical_lane_id ballot lane =
    Z.of_nat (length (filter (λ l, Z.testbit ballot l = true) (seqZ 0 lane))).
Proof.
  intros Hl. unfold active_logical_lane_id, popcll, lanes. cbv zeta. f_equal. f_equal.
  replace (seqZ 0 64) with (seqZ 0 lane ++ seqZ (0 + lane) (64 - lane))
    by (rewrite <- seqZ_app by lia; f_equal; lia).
  rewrite filter_app.
  rewrite <- (app_nil_r (filter (λ l, Z.testbit ballot l = true) _)). f_equal.
  - apply filter_ext_in. intros l Hin%elem_of_seqZ.
    rewrite Z.land_spec, inverted_mask_bit, bool_decide_true, andb_true_r by lia. done.
  - apply filter_none. intros l Hin%elem_of_seqZ.
    rewrite Z.land_spec, inverted_mask_bit, bool_decide_false, andb_false_r by lia. done.
Qed.

(** The active lanes are numbered without gaps in the order of the lanes:
    the lane with logical number [k] is the [k]th of the active ones, the
    numbers are below the number of active lanes, and the lane that
    [lowest_active_lane] names is the one with number zero. *)
Theorem lanes_numbered (ballot lane : Z) :
  0 ≤ lane < 64 → Z.testbit ballot lane = true →
  lanes ballot !! Z.to_nat (active_logical_lane_id ballot lane) = Some lane ∧
  0 ≤ active_logical_lane_id ballot lane < number_active_lanes ballot ∧
  (active_logical_lane_id ballot lane = 0 ↔ lowest_active_lane ballot = lane).
Proof.
  intros Hl Hb. rewrite (logical_lane_id_below ballot lane Hl), Nat2Z.id.
  unfold number_active_lanes, popcll, lowest_active_lane, ffsll.
  rewrite (lanes_split _ _ Hl Hb). set (below := filter _ (seqZ 0 lane)).
  split; [by rewrite list_lookup_middle|]. split; [rewrite length_app; cbn; lia|].
  destruct below as [|x below'] eqn:E; cbn [app length].
  - split; [intros _|done]. rewrite Z.add_simpl_r. apply uwrap_small. lia.
  - split; [lia|]. assert (x ∈ below) as Hx by (rewrite E; set_solver).
    apply list_elem_of_filter in Hx as [_ Hx%elem_of_seqZ].
    rewrite Z.add_simpl_r, uwrap_small by lia. lia.
Qed.

Lemma lanes_numbered_witness :
  lanes 0x8000000000000024 !! Z.to_nat (active_logical_lane_id 0x8000000000000024 5) = Some 5 ∧
  0 ≤ active_logical_lane_id 0x8000000000000024 5 < number_active_lanes 0x8000000000000024 ∧
  (active_logical_lane_id 0x8000000000000024 5 = 0 ↔ lowest_active_lane 0x8000000000000024 = 5).
Proof. apply lanes_numbered; [lia|reflexivity]. Defined.

(** ** The spin lock *)

Definition spin_holds (p : spin_pc) : Z := match p with SCritical => 1 | _ => 0 end.

Lemma spin_step_ok x y :
  spin_step x y → x.1 = zsum spin_holds x.2 ∧ 0 ≤ x.1 ≤ 1 → y.1 = zsum spin_holds y.2 ∧ 0 ≤ y.1 ≤ 1.
Proof.
  destruct 1 as [k ps i p k' p' Hi Ha]. cbn. intros [Hk Hr]. rewrite (zsum_insert _ _ _ _ p' Hi), <- Hk.
  assert (0 ≤ spin_holds p ≤ k) as Hp.
  { rewrite Hk. split; [by destruct p|]. apply (zsum_at_least _ _ i); [|done].
    apply Forall_forall. by intros []. }
  destruct p; cbn in Ha, Hp |- *; [injection Ha as <- <-; cbn; lia| |injection Ha as <- <-; cbn; lia].
  destruct (Z.eqb_spec k 0), (Z.eqb_spec k 1); injection Ha as <- <-; cbn; lia.
Qed.

(** No two threads are ever between [lock] and [unlock] of a [DeviceMutex]
    at the same time. *)
Theorem spin_exclusive n x i j :
  rtc spin_step (0, replicate n SOut) x →
  x.2 !! i = Some SCritical → x.2 !! j = Some SCritical → i = j.
Proof.
  intros Hr Hi Hj.
  assert (x.1 = zsum spin_holds x.2 ∧ 0 ≤ x.1 ≤ 1) as [Hk Hb].
  { clear Hi Hj. revert x Hr. apply rtc_invariant; [|apply spin_step_ok].
    split; [|cbn; lia]. cbn [fst snd]. induction n; [done|cbn; lia]. }
  destruct (decide (i = j)) as [|Hne]; [done|].
  pose proof (zsum_two spin_holds x.2 i j SCritical SCritical) as H2. cbn in H2.
  specialize (H2 ltac:(apply Forall_forall; by intros []) Hi Hj Hne). lia.
Qed.

Lemma spin_exclusive_witness : [SSpin; SCritical] !! 1%nat = Some SCritical ∧ 1%nat = 1%nat.
Proof.
  split; [reflexivity|].
  refine (spin_exclusive 2 (1, [SSpin; SCritical]) 1 1 _ eq_refl eq_refl).
  eapply rtc_l; [by eapply (spin_thread _ _ 0)|].
  eapply rtc_l; [by eapply (spin_thread _ _ 1)|].
  eapply rtc_l; [by eapply (spin_thread _ _ 1)|]. apply rtc_refl.
Defined.

(** ** The work-group lock *)

(** The wavefronts that hold [ctx_lock_], and those that are counted. *)
Definition holding (w : wave) : Z :=
  match wv_pc w with Out | Spin | In | USpin => 0 | _ => 1 end.
Definition counted (w : wave) : Z :=
  match wv_pc w with Done | In | USpin | USub | USubStore _ => wv_threads w | _ => 0 end.

(** What a wavefront at each place knows. *)
Definition knows (s : shared) (w : wave) : Prop :=
  match wv_pc w with
  | Out | Spin => True
  | While => wg_owner_ s = wv_wg w ∨ wg_owner_ s = -1 ∨ 0 < num_threads_in_lock_ s
  | IfFree => wg_owner_ s = -1 ∨ 0 < num_threads_in_lock_ s
  | SetOwner => wg_owner_ s = -1
  | GiveUp => 0 < num_threads_in_lock_ s
  | Count | Done | In | USpin | USub | UTest => wg_owner_ s = wv_wg w
  | Add v | USubStore v => wg_owner_ s = wv_wg w ∧ v = num_threads_in_lock_ s
  | UClear => num_threads_in_lock_ s = 0
  | URel => wg_owner_ s = -1 ∨ 0 < num_threads_in_lock_ s
  end.

Record mutex_ok (s : shared) (ws : list wave) : Prop := {
  mx_waves : Forall (λ w, 0 ≤ wv_wg w ∧ 0 < wv_threads w) ws;
  mx_lock : ctx_lock_ s = zsum holding ws ∧ 0 ≤ ctx_lock_ s ≤ 1;
  mx_num : num_threads_in_lock_ s = zsum counted ws;
  mx_total : zsum wv_threads ws ≤ INT_MAX;
  mx_knows : ∀ i w, ws !! i = Some w → knows s w;
  mx_free : ctx_lock_ s = 0 → wg_owner_ s = -1 ∨ 0 < num_threads_in_lock_ s
}.

Lemma holding_range w : 0 ≤ holding w ≤ 1.
Proof. unfold holding. destruct (wv_pc w); lia. Qed.

Lemma counted_range w : 0 < wv_threads w → 0 ≤ counted w ≤ wv_threads w.
Proof. unfold counted. destruct (wv_pc w); lia. Qed.

Section mutex_ok.
Context (s : shared) (ws : list wave) (Hok : mutex_ok s ws).

Lemma counted_all : Forall (λ w, 0 ≤ counted w) ws.
Proof.
  eapply Forall_impl; [apply (mx_waves _ _ Hok)|]. cbn. intros w [_ Hw].
  pose proof (counted_range w Hw). lia.
Qed.

(** While one holds [ctx_lock_], no other does. *)
Lemma others_wait i j w v :
  ws !! i = Some w → ws !! j = Some v → i ≠ j → holding w = 1 → holding v = 0.
Proof.
  intros Hi Hj Hne Hw. destruct (mx_lock _ _ Hok) as [Hl Hb].
  pose proof (zsum_two holding ws i j w v) as H2. pose proof (holding_range v).
  specialize (H2 ltac:(apply Forall_forall; intros x _; apply holding_range) Hi Hj Hne). lia.
Qed.

Lemma num_range i w :
  ws !! i = Some w → 0 ≤ counted w ≤ num_threads_in_lock_ s ∧
    num_threads_in_lock_ s - counted w + wv_threads w ≤ INT_MAX.
Proof.
  intros Hi. rewrite (mx_num _ _ Hok). pose proof (mx_total _ _ Hok).
  pose proof (zsum_at_least counted ws i w counted_all Hi).
  pose proof (proj1 (Forall_forall _ _) counted_all w (list_elem_of_lookup_2 _ _ _ Hi)) as Hc.
  split; [split; [exact Hc|lia]|].
  assert (zsum counted (<[i := set_pc Done w]> ws) ≤ zsum wv_threads (<[i := set_pc Done w]> ws)) as Hle.
  { apply zsum_le, Forall_insert.
    - eapply Forall_impl; [apply (mx_waves _ _ Hok)|]. cbn. intros v [_ Hv].
      pose proof (counted_range v Hv). lia.
    - cbn. lia. }
  rewrite !(zsum_insert _ _ _ _ _ Hi) in Hle. cbn in Hle. lia.
Qed.

(** Nobody is counted when there is no owner, or when the count is zero. *)
Lemma free_uncounted i w :
  wg_owner_ s = -1 ∨ num_threads_in_lock_ s = 0 → ws !! i = Some w → counted w = 0.
Proof.
  intros Hf Hi. pose proof (num_range i w Hi) as [Hr _].
  pose proof (Forall_lookup_1 _ _ _ _ (mx_waves _ _ Hok) Hi) as [Hg Ht]. cbn in Hg, Ht.
  destruct Hf as [Ho|Hn]; [|lia]. pose proof (mx_knows _ _ Hok i w Hi) as Hk.
  unfold counted, knows in *. destruct (wv_pc w); lia.
Qed.
End mutex_ok.

Lemma knows_ext s s' w :
  wg_owner_ s' = wg_owner_ s → num_threads_in_lock_ s' = num_threads_in_lock_ s →
  knows s w → knows s' w.
Proof. intros E1 E2. unfold knows. by rewrite E1, E2. Qed.

(** What a wavefront outside [ctx_lock_] knows survives a change of the owner
    while it is not counted itself. *)
Lemma knows_outside s s' w :
  holding w = 0 → 0 < wv_threads w → wg_owner_ s' = wg_owner_ s ∨ counted w = 0 →
  knows s w → knows s' w.
Proof.
  unfold holding, counted, knows. intros Hh Ht [E|E]; destruct (wv_pc w); rewrite ?E; try done; lia.
Qed.

Lemma mutex_update s ws i w s' p :
  mutex_ok s ws → ws !! i = Some w →
  ctx_lock_ s' = ctx_lock_ s - holding w + holding (set_pc p w) → 0 ≤ ctx_lock_ s' ≤ 1 →
  num_threads_in_lock_ s' = num_threads_in_lock_ s - counted w + counted (set_pc p w) →
  knows s' (set_pc p w) →
  (∀ j v, ws !! j = Some v → i ≠ j → knows s' v) →
  (ctx_lock_ s' = 0 → wg_owner_ s' = -1 ∨ 0 < num_threads_in_lock_ s') →
  mutex_ok s' (<[i := set_pc p w]> ws).
Proof.
  intros Hok Hi Hl Hr Hn Hk Hothers Hfree. split.
  - apply Forall_insert; [apply (mx_waves _ _ Hok)|].
    exact (Forall_lookup_1 _ _ _ _ (mx_waves _ _ Hok) Hi).
  - split; [|done]. rewrite (zsum_insert _ _ _ _ _ Hi), Hl. by rewrite (proj1 (mx_lock _ _ Hok)).
  - rewrite (zsum_insert _ _ _ _ _ Hi), Hn. by rewrite (mx_num _ _ Hok).
  - rewrite (zsum_insert _ _ _ _ _ Hi). cbn. pose proof (mx_total _ _ Hok). lia.
  - intros j v Hj. destruct (decide (i = j)) as [<-|Hne].
    + rewrite list_lookup_insert_eq in Hj by (by eapply lookup_lt_Some). by injection Hj as <-.
    + rewrite list_lookup_insert_ne in Hj by done. by eapply Hothers.
  - done.
Qed.

(** A step that changes [ctx_lock_] at most. *)
Lemma mutex_update_lock s ws i w s' p :
  mutex_ok s ws → ws !! i = Some w →
  wg_owner_ s' = wg_owner_ s → num_threads_in_lock_ s' = num_threads_in_lock_ s →
  ctx_lock_ s' = ctx_lock_ s - holding w + holding (set_pc p w) → 0 ≤ ctx_lock_ s' ≤ 1 →
  counted (set_pc p w) = counted w → knows s (set_pc p w) →
  (ctx_lock_ s' = 0 → wg_owner_ s = -1 ∨ 0 < num_threads_in_lock_ s) →
  mutex_ok s' (<[i := set_pc p w]> ws).
Proof.
  intros Hok Hi E1 E2 Hl Hr Hc Hk Hf. eapply mutex_update; [done|done|done|done| | | |].
  - rewrite E2, Hc. lia.
  - by eapply knows_ext.
  - intros j v Hj _. eapply knows_ext; [done|done|]. by eapply mx_knows.
  - by rewrite E1, E2.
Qed.

(** A step inside [ctx_lock_]. *)
Lemma mutex_update_inside s ws i w s' p :
  mutex_ok s ws → ws !! i = Some w → holding w = 1 → holding (set_pc p w) = 1 →
  ctx_lock_ s' = ctx_lock_ s →
  num_threads_in_lock_ s' = num_threads_in_lock_ s - counted w + counted (set_pc p w) →
  knows s' (set_pc p w) →
  wg_owner_ s' = wg_owner_ s ∨ wg_owner_ s = -1 ∨ num_threads_in_lock_ s = 0 →
  mutex_ok s' (<[i := set_pc p w]> ws).
Proof.
  intros Hok Hi Hh Hh' El En Hk Ho. destruct (mx_lock _ _ Hok) as [Hl Hb].
  assert (ctx_lock_ s = 1) as E1.
  { pose proof (zsum_at_least holding ws i w) as Ha.
    specialize (Ha ltac:(apply Forall_forall; intros; apply holding_range) Hi). lia. }
  eapply mutex_update; [done|done|lia|lia|done|done| |lia].
  intros j v Hj Hne. pose proof (others_wait _ _ Hok _ _ _ _ Hi Hj Hne Hh) as Hv.
  pose proof (Forall_lookup_1 _ _ _ _ (mx_waves _ _ Hok) Hj) as [_ Ht].
  apply (knows_outside s); [done|done| |by eapply mx_knows].
  destruct Ho as [Ho|Ho]; [by left|right]. by eapply free_uncounted.
Qed.

Lemma mutex_step_ok s ws s' ws' :
  mutex_step true (s, ws) (s', ws') → mutex_ok s ws → mutex_ok s' ws'.
Proof.
  intros Hstep Hok. inversion Hstep as [s0 ws0 i w s1 p Hi Ha]; subst; clear Hstep.
  pose proof (mx_knows _ _ Hok i w Hi) as Hk. destruct (mx_lock _ _ Hok) as [Hl Hb].
  pose proof (mx_free _ _ Hok) as Hf. destruct (num_range _ _ Hok i w Hi) as [Hc1 Hc2].
  pose proof (Forall_lookup_1 _ _ _ _ (mx_waves _ _ Hok) Hi) as [Hg Ht]. cbn in Hg, Ht.
  assert (holding w ≤ ctx_lock_ s) as Hh.
  { rewrite Hl. apply (zsum_at_least holding ws i); [|done].
    apply Forall_forall. intros; apply holding_range. }
  destruct w as [g n q]. unfold advance, cas_ctx_lock, knows in *.
  destruct q; cbn [wv_pc wv_wg wv_threads holding counted] in *; simplify_eq.
  all: try (eapply mutex_update_lock;
    [done|done|done|done|cbn; repeat case_match; cbn; lia..|cbn; repeat case_match; done|
     cbn; repeat case_match; cbn in *; tauto || lia|cbn; lia]).
  - destruct (Z.eqb_spec (ctx_lock_ s) 0) as [E|E], (Z.eqb_spec (ctx_lock_ s) 1); try lia;
      (eapply mutex_update_lock; [done|done|done|done|cbn; lia..|done|cbn; tauto|cbn; lia]).
  - eapply mutex_update_inside; [done..|cbn; lia|by left|by right; left].
  - destruct Hk as [Hk ->]. rewrite s32_small by (unfold INT_MIN; lia).
    eapply mutex_update_inside; [done..|cbn; lia|exact Hk|by left].
  - destruct Hk as [Hk ->]. rewrite s32_small by (unfold INT_MIN, INT_MAX in *; lia).
    eapply mutex_update_inside; [done..|cbn; lia|exact Hk|by left].
  - eapply mutex_update_inside; [done..|cbn; lia|by left|by right; right].
Qed.

Lemma mutex_init_ok ws :
  fresh_waves ws → zsum wv_threads ws ≤ INT_MAX → mutex_ok mutex_init ws.
Proof.
  intros Hw Ht.
  assert (zsum holding ws = 0 ∧ zsum counted ws = 0) as [Eh Ec].
  { clear Ht. induction Hw as [|w ws (_ & _ & Hp) _ [IH1 IH2]]; [done|].
    cbn. unfold holding at 1, counted at 1. by rewrite Hp, IH1, IH2. }
  split; cbn; [|lia..|done| |by left].
  - eapply Forall_impl; [exact Hw|]. cbn. tauto.
  - intros i w Hi. pose proof (Forall_lookup_1 _ _ _ _ Hw Hi) as (_ & _ & Hp). cbn in Hp.
    unfold knows. by rewrite Hp.
Qed.

Lemma mutex_reachable ws x :
  fresh_waves ws → zsum wv_threads ws ≤ INT_MAX →
  rtc (mutex_step true) (mutex_init, ws) x → mutex_ok x.1 x.2.
Proof.
  intros Hw Ht. revert x. apply (rtc_invariant _ (λ x, mutex_ok x.1 x.2)).
  - by apply mutex_init_ok.
  - intros [s1 ws1] [s2 ws2]. apply mutex_step_ok.
Qed.

(** C17: A shareable context is inside one work-group at a time: in every
    interleaving of the accesses of all wavefronts, wavefronts that are between
    [lock] and [unlock] belong to the work-group that owns the mutex. *)
Theorem mutex_exclusive ws s ws' i j w v :
  fresh_waves ws → zsum wv_threads ws ≤ INT_MAX →
  rtc (mutex_step true) (mutex_init, ws) (s, ws') →
  ws' !! i = Some w → ws' !! j = Some v → wv_pc w = In → wv_pc v = In →
  wv_wg w = wv_wg v ∧ wg_owner_ s = wv_wg w.
Proof.
  intros Hw Ht Hr Hi Hj Ew Ev. pose proof (mutex_reachable _ _ Hw Ht Hr) as Hok. cbn in Hok.
  pose proof (mx_knows _ _ Hok _ _ Hi) as H1. pose proof (mx_knows _ _ Hok _ _ Hj) as H2.
  unfold knows in *. rewrite Ew in H1. rewrite Ev in H2. by rewrite H1 in H2.
Qed.

(** The accesses of one wavefront after one another. *)
Fixpoint solo (n : nat) (s : shared) (w : wave) : shared * wave :=
  match n with
  | O => (s, w)
  | S n' => let '(s', p) := advance true s w in solo n' s' (set_pc p w)
  end.

Definition releases (n : nat) (s : shared) (w : wave) : Prop :=
  ∃ k : nat, (k ≤ n)%nat ∧ ctx_lock_ (solo k s w).1 = 0.

Lemma releases_now n s w : ctx_lock_ (advance true s w).1 = 0 → releases (S n) s w.
Proof. exists 1%nat. split; [lia|]. cbn. by destruct (advance true s w). Qed.

Lemma releases_next n s w :
  releases n (advance true s w).1 (set_pc (advance true s w).2 w) → releases (S n) s w.
Proof.
  intros (k & Hk & He). exists (S k). split; [lia|]. cbn. by destruct (advance true s w).
Qed.

Lemma holder_releases s w : holding w = 1 → releases 8 s w.
Proof.
  destruct w as [g n q]. intros Hh.
  assert (∀ m s, releases (S m) s (mkWave g n Done)) as HDone by (intros; by apply releases_now).
  assert (∀ m s, releases (S m) s (mkWave g n GiveUp)) as HGive by (intros; by apply releases_now).
  assert (∀ m s, releases (S m) s (mkWave g n URel)) as HRel by (intros; by apply releases_now).
  assert (∀ m s, releases (3 + m) s (mkWave g n Count)) as HCount.
  { intros m t. apply releases_next, releases_next, HDone. }
  assert (∀ m s, releases (3 + m) s (mkWave g n UTest)) as HTest.
  { intros m t. apply releases_next. cbn. case_if; [apply releases_next|]; apply HRel. }
  assert (∀ m s, releases (5 + m) s (mkWave g n SetOwner)) as HSet.
  { intros m t. apply releases_next, releases_next. cbn. rewrite Z.eqb_refl. apply HCount. }
  assert (∀ m s, releases (6 + m) s (mkWave g n IfFree)) as HIf.
  { intros m t. apply releases_next. cbn. case_if; [apply HSet|apply HGive]. }
  assert (∀ m v s, releases (4 + m) s (mkWave g n (USubStore v))) as HSub.
  { intros m v t. apply releases_next, HTest. }
  unfold holding in Hh. cbn in Hh. destruct q;
    first [discriminate Hh|apply HIf|apply HSet|apply HGive|apply HCount|apply HDone|apply HTest|
           apply HSub|apply HRel|apply releases_next; first [apply HDone|apply HSub|apply HRel]|idtac].
  apply releases_next. cbn. case_if; [apply HCount|apply HIf].
Qed.

(** The mutex is not left locked: whenever [ctx_lock_] is taken there is a
    wavefront that releases it within eight accesses of its own; and once all
    wavefronts have unlocked, nobody owns the context, so that any work-group
    can take it. *)
Theorem mutex_released ws s ws' :
  fresh_waves ws → zsum wv_threads ws ≤ INT_MAX →
  rtc (mutex_step true) (mutex_init, ws) (s, ws') →
  (ctx_lock_ s ≠ 0 → ∃ i w, ws' !! i = Some w ∧ releases 8 s w) ∧
  (Forall (λ w, wv_pc w = Out) ws' → s = mutex_init).
Proof.
  intros Hw Ht Hr. pose proof (mutex_reachable _ _ Hw Ht Hr) as Hok. cbn in Hok. split.
  - intros Hne. destruct (mx_lock _ _ Hok) as [Hl Hb].
    assert (∃ w, w ∈ ws' ∧ holding w = 1) as (w & Hin & Hh).
    { destruct (decide (Exists (λ w, holding w = 1) ws')) as [He|He].
      { by apply Exists_exists in He. }
      apply not_Exists_Forall in He; [|intros; apply _]. exfalso. apply Hne. rewrite Hl. clear -He.
      induction He as [|w ws Hw _ IH]; [done|]. cbn. rewrite IH.
      pose proof (holding_range w). cbn in Hw. lia. }
    apply list_elem_of_lookup in Hin as [i Hi]. exists i, w. split; [done|by apply holder_releases].
  - intros Hall.
    assert (zsum holding ws' = 0 ∧ zsum counted ws' = 0) as [Eh Ec].
    { clear -Hall. induction Hall as [|w ws Hp _ [IH1 IH2]]; [done|].
      cbn. unfold holding at 1, counted at 1. by rewrite Hp, IH1, IH2. }
    pose proof (mx_lock _ _ Hok) as [Hl _]. pose proof (mx_num _ _ Hok) as Hn.
    rewrite Eh in Hl. rewrite Ec in Hn. destruct (mx_free _ _ Hok Hl) as [Ho|Ho]; [|lia].
    destruct s; cbn in *. by subst.
Qed.

(** Three wavefronts of two work-groups: the first two are inside, the third
    has found the mutex owned. *)
Definition three_waves : list wave := [mkWave 4 64 Out; mkWave 4 32 Out; mkWave 5 64 Out].
Definition run_mutex (sched : list nat) (x : shared * list wave) : shared * list wave :=
  foldl (λ x i, match x.2 !! i with
                | Some w => let '(s', p) := advance true x.1 w in (s', <[i := set_pc p w]> x.2)
                | None => x
                end) x sched.

Lemma run_mutex_steps sched : ∀ x, rtc (mutex_step true) x (run_mutex sched x).
Proof.
  induction sched as [|i sched IH]; intros [s ws]; [apply rtc_refl|]. cbn [run_mutex foldl fst snd].
  etrans; [|apply IH]. destruct (ws !! i) as [w|] eqn:Hi; [|done].
  destruct (advance true s w) as [s' p] eqn:Ha. apply rtc_once. by eapply mutex_wave.
Qed.

Definition mutex_schedule : list nat :=
  (replicate 9 0 ++ [1; 1; 2; 2] ++ replicate 4 1 ++ [2; 2; 2; 2])%nat.
Definition mutex_run : shared * list wave := run_mutex mutex_schedule (mutex_init, three_waves).

Lemma mutex_exclusive_witness :
  mutex_run.2 !! 0%nat = Some (mkWave 4 64 In) ∧ mutex_run.2 !! 1%nat = Some (mkWave 4 32 In) ∧
  mutex_run.2 !! 2%nat = Some (mkWave 5 64 Spin) ∧ 4 = 4 ∧ wg_owner_ mutex_run.1 = 4.
Proof.
  split; [reflexivity|]. split; [reflexivity|]. split; [reflexivity|].
  refine (mutex_exclusive three_waves mutex_run.1 mutex_run.2 0 1 (mkWave 4 64 In) (mkWave 4 32 In)
    _ _ _ eq_refl eq_refl eq_refl eq_refl).
  - repeat constructor; cbn; lia.
  - vm_compute. discriminate.
  - apply (run_mutex_steps mutex_schedule (mutex_init, three_waves)).
Defined.

Lemma mutex_released_witness :
  (ctx_lock_ mutex_run.1 ≠ 0 → ∃ i w, mutex_run.2 !! i = Some w ∧ releases 8 mutex_run.1 w) ∧
  (Forall (λ w, wv_pc w = Out) mutex_run.2 → mutex_run.1 = mutex_init).
Proof.
  apply (mutex_released three_waves).
  - repeat constructor; cbn; lia.
  - vm_compute. discriminate.
  - apply (run_mutex_steps mutex_schedule (mutex_init, three_waves)).
Defined.
