(* ===== verification/WGState.v ===== *)
(** * Work-group state

    What a work-group keeps while it uses the library: the buffer that it
    reserves from the backend's tokens, its part of the dynamic shared memory,
    and the pool of team descriptions ([wg_state.cpp],
    [wg_team_ctxs_policy.cpp]); and the contexts that the host tracks
    ([backend_bc.cpp]). *)
From S2P Require Import Prelude Teams.

Local Open Scope Z_scope.

(** ** Buffers *)

(** [Backend::Backend]: the number of work-groups that is used, given the
    device's number of compute units. *)
Definition Backend_num_wg (num_wgs num_cus : Z) : Z :=
  let max_num_wgs := num_cus * 32 in
  let num_wgs := if (max_num_wgs <? num_wgs) || (num_wgs =? 0) then max_num_wgs else num_wgs in
  num_wgs + 1.

Definition Backend_bufferTokens (num_wg : Z) : list Z := replicate (Z.to_nat num_wg) 0.

(** A context made by the host takes the last token for itself
    ([GPUIBContext::GPUIBContext]). *)
Definition default_ctx_tokens (num_wg : Z) : list Z :=
  <[Z.to_nat (num_wg - 1) := 1]> (Backend_bufferTokens num_wg).

Inductive wg_pc := Probing (buffer_index : Z) | HasBuffer (buffer_id : Z).

Record wg_pool := mkPool { bufferTokens : list Z; wgs : gmap Z wg_pc }.

(** The start of the search, from the wavefront slot of the hardware. *)
Definition first_index (hw_wv_slot num_buffers : Z) : Z := Z.rem hw_wv_slot num_buffers.
Definition next_index (buffer_index num_buffers : Z) : Z := Z.rem (buffer_index + 1) num_buffers.

(** One [atomicCAS(&bufferTokens[buffer_index], 0, 1)] and the test of the loop. *)
Definition probe (num_buffers : Z) (tokens : list Z) (buffer_index : Z) : option (list Z * wg_pc) :=
  old ← tokens !! Z.to_nat buffer_index;
  Some (if old =? 0 then <[Z.to_nat buffer_index := 1]> tokens else tokens,
        if old =? 1 then Probing (next_index buffer_index num_buffers) else HasBuffer buffer_index).

(** [reserve_wg_buffers] and [return_buffers] of the work-groups, one access at
    a time. *)
Inductive pool_step (num_wg : Z) : wg_pool → wg_pool → Prop :=
  | pool_start p g hw_wv_slot :
      wgs p !! g = None → 0 ≤ hw_wv_slot →
      pool_step num_wg p
        (mkPool (bufferTokens p) (<[g := Probing (first_index hw_wv_slot num_wg)]> (wgs p)))
  | pool_probe p g i tokens q :
      wgs p !! g = Some (Probing i) → probe num_wg (bufferTokens p) i = Some (tokens, q) →
      pool_step num_wg p (mkPool tokens (<[g := q]> (wgs p)))
  | pool_return p g i :
      wgs p !! g = Some (HasBuffer i) →
      pool_step num_wg p
        (mkPool (<[Z.to_nat i := 0]> (bufferTokens p)) (delete g (wgs p))).

(** The loop of [reserve_wg_buffers] when no other work-group interferes; the
    fuel bounds the number of accesses. *)
Fixpoint reserve_loop (fuel : nat) (num_buffers : Z) (tokens : list Z) (i : Z)
    : result (Z * list Z) :=
  match fuel with
  | O => Fail OutOfFuel
  | S fuel' =>
      match probe num_buffers tokens i with
      | None => Fail BadAccess
      | Some (tokens', HasBuffer j) => Ok (j, tokens')
      | Some (tokens', Probing j) => reserve_loop fuel' num_buffers tokens' j
      end
  end.

Definition reserve_wg_buffers (fuel : nat) (hw_wv_slot num_buffers : Z) (tokens : list Z)
    : result (Z * list Z) :=
  reserve_loop fuel num_buffers tokens (first_index hw_wv_slot num_buffers).

(** ** Dynamic shared memory *)

(** [WGState::WGState]: the heap starts behind the state object. *)
Definition dynamicPtr_init (baseDynamicPtr sizeof_WGState : Z) : Z :=
  u64 (baseDynamicPtr + sizeof_WGState).

(** The returned pointer and the new [dynamicPtr]. *)
Definition allocateDynamicShared (size dynamicPtr : Z) : Z * Z :=
  let dynamicPtr := u64 (dynamicPtr + size) in (u64 (dynamicPtr - size), dynamicPtr).

(** The allocations of a work-group in turn. *)
Fixpoint allocate_all (sizes : list Z) (dynamicPtr : Z) : list Z * Z :=
  match sizes with
  | [] => ([], dynamicPtr)
  | size :: sizes' =>
      let '(p, d) := allocateDynamicShared size dynamicPtr in
      let '(ps, d') := allocate_all sizes' d in (p :: ps, d')
  end.

(** ** [class WGTeamCtxsPolicy] *)

Record WGTeamInfo := mkWGTeamInfo {
  ref_count_ : Z;
  team_ : Z;
  team_info_ : TeamInfo
}.

(** The default constructor, and the one with initialised members. *)
Definition WGTeamInfo_default : WGTeamInfo :=
  mkWGTeamInfo 0 nullptr (mkTeamInfo nullptr (-1) (-1) (-1)).
Definition WGTeamInfo_new (team : Z) (info : TeamInfo) : WGTeamInfo :=
  mkWGTeamInfo 0 team (mkTeamInfo nullptr (pe_start info) (stride info) (ti_size info)).

Abbreviation wg_tinfo_pool := (list WGTeamInfo).

Definition policy_init (max_num_teams : Z) : wg_tinfo_pool :=
  replicate (Z.to_nat max_num_teams) WGTeamInfo_default.

Section policy.
(** What the team pointers lead to. *)
Context (tinfo_wrt_world : Z → TeamInfo).

(** The loops, from index [i] on. *)
Fixpoint find_team_from (team : Z) (pool : wg_tinfo_pool) (i : nat) : option nat :=
  match pool with
  | [] => None
  | e :: pool' =>
      if ref_count_ e =? 0 then find_team_from team pool' (S i)
      else if team =? team_ e then Some i
      else find_team_from team pool' (S i)
  end.
Definition find_team_in_pool (team : Z) (pool : wg_tinfo_pool) : option nat :=
  find_team_from team pool 0.

Fixpoint find_available_from (pool : wg_tinfo_pool) (i : nat) : result nat :=
  match pool with
  | [] => Fail AssertFailed
  | e :: pool' => if ref_count_ e =? 0 then Ok i else find_available_from pool' (S i)
  end.
Definition find_available_pool_entry (pool : wg_tinfo_pool) : result nat :=
  find_available_from pool 0.

Definition inc_ref (e : WGTeamInfo) : WGTeamInfo :=
  mkWGTeamInfo (u64 (ref_count_ e + 1)) (team_ e) (team_info_ e).
Definition dec_ref (e : WGTeamInfo) : WGTeamInfo :=
  mkWGTeamInfo (u64 (ref_count_ e - 1)) (team_ e) (team_info_ e).

(** The entry's index stands for its address. *)
Definition get_team_info (team : Z) (pool : wg_tinfo_pool) : result (nat * wg_tinfo_pool) :=
  '(index, pool) ←
    match find_team_in_pool team pool with
    | Some i => Ok (i, pool)
    | None =>
        i ← find_available_pool_entry pool;
        Ok (i, <[i := WGTeamInfo_new team (tinfo_wrt_world team)]> pool)
    end;
  Ok (index, alter inc_ref index pool).

Definition remove_team_info (index : nat) (pool : wg_tinfo_pool) : result wg_tinfo_pool :=
  e ← must (pool !! index);
  assert_ (0 <? ref_count_ e);;
  let e := dec_ref e in
  Ok (<[index := if ref_count_ e =? 0 then WGTeamInfo_default else e]> pool).
End policy.

(** ** Contexts that the host tracks *)

(** The contexts that exist, those destroyed, and [Backend::list_of_ctxs]. *)
Record tracker := mkTracker { list_of_ctxs : list Z; destroyed : list Z }.

Definition track_ctx (ctx : Z) (t : tracker) : tracker :=
  mkTracker (list_of_ctxs t ++ [ctx]) (destroyed t).

(** [std::find] and [erase] are [erase_first] of [Teams.v]. *)
Definition untrack_ctx (ctx : Z) (t : tracker) : result tracker :=
  match erase_first ctx (list_of_ctxs t) with
  | None => Fail AssertFailed
  | Some l => Ok (mkTracker l (destroyed t))
  end.

Definition backend_ctx_destroy (ctx : Z) (t : tracker) : tracker :=
  mkTracker (list_of_ctxs t) (destroyed t ++ [ctx]).

(** [roc_shmem_ctx_destroy] of the host. *)
Definition roc_shmem_ctx_destroy (ctx : Z) (t : tracker) : result tracker :=
  t ← untrack_ctx ctx t; Ok (backend_ctx_destroy ctx t).

Fixpoint destroy_remaining_ctxs (fuel : nat) (t : tracker) : result tracker :=
  match last (list_of_ctxs t) with
  | None => Ok t
  | Some ctx =>
      match fuel with
      | O => Fail OutOfFuel
      | S fuel' =>
          let t := backend_ctx_destroy ctx t in
          destroy_remaining_ctxs fuel'
            (mkTracker (take (length (list_of_ctxs t) - 1) (list_of_ctxs t)) (destroyed t))
      end
  end.

(** ** Buffers are exclusive *)

Record pool_ok (p : wg_pool) : Prop := {
  po_tokens : Forall (λ t, t = 0 ∨ t = 1) (bufferTokens p);
  po_held : ∀ g i, wgs p !! g = Some (HasBuffer i) →
    0 ≤ i ∧ bufferTokens p !! Z.to_nat i = Some 1;
  po_inj : ∀ g1 g2 i, wgs p !! g1 = Some (HasBuffer i) → wgs p !! g2 = Some (HasBuffer i) → g1 = g2;
  po_probing : ∀ g i, wgs p !! g = Some (Probing i) → 0 ≤ i
}.

Lemma pool_step_ok n p p' : 0 < n → pool_step n p p' → pool_ok p → pool_ok p'.
Proof.
  intros Hn [p0 g slot Hg Hs|p0 g i tokens q Hg Hp|p0 g i Hg] [Ht Hh Hi Hpr].
  - split; cbn; [done|..].
    + intros g' j. rewrite lookup_insert_Some. naive_solver.
    + intros g1 g2 j. rewrite !lookup_insert_Some. naive_solver.
    + intros g' j. rewrite lookup_insert_Some. intros [[_ [= <-]]|[_ Hj]]; [|by eapply Hpr].
      apply Z.rem_nonneg; lia.
  - unfold probe in Hp. destruct (_ !! Z.to_nat i) as [t|] eqn:Et; cbn in Hp; [|done].
    pose proof (Hpr _ _ Hg) as H0. pose proof (lookup_lt_Some _ _ _ Et) as Hlt.
    destruct (Forall_lookup_1 _ _ _ _ Ht Et) as [-> | ->]; injection Hp as <- <-; cbn.
    + assert (∀ g' j, wgs p0 !! g' = Some (HasBuffer j) → i ≠ j) as Hfree.
      { intros g' j Hj ->. destruct (Hh _ _ Hj) as [_ E]. rewrite E in Et. done. }
      split; cbn.
      * apply Forall_insert; [done|by right].
      * intros g' j. rewrite lookup_insert_Some. intros [[_ [= <-]]|[_ Hj]].
        { split; [done|]. by apply list_lookup_insert_eq. }
        destruct (Hh _ _ Hj). pose proof (Hfree _ _ Hj).
        rewrite list_lookup_insert_ne by lia. done.
      * intros g1 g2 j. rewrite !lookup_insert_Some. naive_solver.
      * intros g' j. rewrite lookup_insert_Some. naive_solver.
    + split; cbn; [done|..].
      * intros g' j. rewrite lookup_insert_Some. naive_solver.
      * intros g1 g2 j. rewrite !lookup_insert_Some. naive_solver.
      * intros g' j. rewrite lookup_insert_Some. intros [[_ [= <-]]|[_ Hj]]; [|by eapply Hpr].
        apply Z.rem_nonneg; lia.
  - split; cbn.
    + apply Forall_insert; [done|by left].
    + intros g' j. rewrite lookup_delete_Some. intros [Hne Hj]. destruct (Hh _ _ Hj) as [? ?].
      destruct (Hh _ _ Hg). split; [done|]. rewrite list_lookup_insert_ne; [done|].
      intros E. apply Hne. apply (Hi _ _ i); [done|]. by replace i with j by lia.
    + intros g1 g2 j. rewrite !lookup_delete_Some. naive_solver.
    + intros g' j. rewrite lookup_delete_Some. naive_solver.
Qed.

(** The token of the default context stays taken, and no work-group has it. *)
Definition default_reserved (n : Z) (p : wg_pool) : Prop :=
  bufferTokens p !! Z.to_nat (n - 1) = Some 1 ∧ ∀ g, wgs p !! g ≠ Some (HasBuffer (n - 1)).

Lemma pool_step_default n p p' :
  0 < n → pool_step n p p' → pool_ok p → default_reserved n p → default_reserved n p'.
Proof.
  intros Hn [p0 g slot Hg Hs|p0 g i tokens q Hg Hp|p0 g i Hg] [Ht Hh Hi Hpr] [Hd1 Hd2].
  - split; [done|]. cbn. intros g'. rewrite lookup_insert_Some. naive_solver.
  - unfold probe in Hp. destruct (_ !! Z.to_nat i) as [t|] eqn:Et; cbn in Hp; [|done].
    pose proof (Hpr _ _ Hg) as H0.
    destruct (Forall_lookup_1 _ _ _ _ Ht Et) as [-> | ->]; injection Hp as <- <-; cbn.
    + assert (i ≠ n - 1) as Hne by (intros ->; rewrite Hd1 in Et; done). split; cbn.
      * rewrite list_lookup_insert_ne by lia. done.
      * intros g'. rewrite lookup_insert_Some. naive_solver.
    + split; [done|]. cbn. intros g'. rewrite lookup_insert_Some. naive_solver.
  - assert (i ≠ n - 1) as Hne by naive_solver. destruct (Hh _ _ Hg). split; cbn.
    + rewrite list_lookup_insert_ne by lia. done.
    + intros g'. rewrite lookup_delete_Some. naive_solver.
Qed.

Lemma pool_step_length n p p' : pool_step n p p' → length (bufferTokens p') = length (bufferTokens p).
Proof.
  intros [p0 g slot Hg Hs|p0 g i tokens q Hg Hp|p0 g i Hg]; cbn; [done| |by rewrite length_insert].
  unfold probe in Hp. destruct (_ !! Z.to_nat i) as [t|]; cbn in Hp; [|done]. injection Hp as <- _.
  case_if; by rewrite ?length_insert.
Qed.

(** What holds of every reachable pool. *)
Lemma pool_reachable num_wg p :
  0 < num_wg → rtc (pool_step num_wg) (mkPool (default_ctx_tokens num_wg) ∅) p →
  pool_ok p ∧ default_reserved num_wg p ∧ length (bufferTokens p) = Z.to_nat num_wg.
Proof.
  intros Hn. revert p.
  apply (rtc_invariant _ (λ p, pool_ok p ∧ default_reserved num_wg p ∧ length (bufferTokens p) = Z.to_nat num_wg)).
  - split_and!; [split|split|]; cbn; try (intros *; rewrite lookup_empty; done).
    + apply Forall_insert; [|by right]. apply Forall_replicate. by left.
    + apply list_lookup_insert_eq. unfold Backend_bufferTokens. rewrite length_replicate. lia.
    + unfold default_ctx_tokens, Backend_bufferTokens. by rewrite length_insert, length_replicate.
  - intros p p' Hs (Hok & Hd & Hl). split_and!; [by eapply pool_step_ok|by eapply pool_step_default|].
    by rewrite (pool_step_length _ _ _ Hs).
Qed.

(** Work-groups that hold a buffer hold different ones, none of them the
    one of the default context, in every interleaving of reservations and
    returns. *)
Theorem buffers_exclusive num_wg p g1 g2 i :
  0 < num_wg → rtc (pool_step num_wg) (mkPool (default_ctx_tokens num_wg) ∅) p →
  wgs p !! g1 = Some (HasBuffer i) → wgs p !! g2 = Some (HasBuffer i) →
  g1 = g2 ∧ 0 ≤ i ∧ i ≠ num_wg - 1.
Proof.
  intros Hn Hr H1 H2. destruct (pool_reachable num_wg p Hn Hr) as ([_ Hh Hi _] & [_ Hd] & _).
  split; [by eapply Hi|]. split; [by eapply Hh|]. intros ->. by eapply Hd.
Qed.

(** Work-group 7 and then work-group 8 take the two free buffers of three. *)
Definition two_groups : wg_pool := mkPool [1; 1; 1] {[7 := HasBuffer 1; 8 := HasBuffer 0]}.

Lemma two_groups_reached : rtc (pool_step 3) (mkPool (default_ctx_tokens 3) ∅) two_groups.
Proof.
  eapply rtc_l; [apply (pool_start _ _ 7 4); [reflexivity|lia]|].
  eapply rtc_l; [apply (pool_probe _ _ 7 1 [0; 1; 1] (HasBuffer 1)); reflexivity|].
  eapply rtc_l; [apply (pool_start _ _ 8 1); [reflexivity|lia]|].
  eapply rtc_l; [apply (pool_probe _ _ 8 1 [0; 1; 1] (Probing 2)); reflexivity|].
  eapply rtc_l; [apply (pool_probe _ _ 8 2 [0; 1; 1] (Probing 0)); reflexivity|].
  eapply rtc_l; [apply (pool_probe _ _ 8 0 [1; 1; 1] (HasBuffer 0)); reflexivity|].
  match goal with |- rtc _ ?a ?b => replace a with b by (vm_compute; reflexivity) end.
  apply rtc_refl.
Qed.

Lemma buffers_exclusive_witness : 7 = 7 ∧ 0 ≤ 1 ∧ 1 ≠ 3 - 1.
Proof.
  apply (buffers_exclusive 3 two_groups 7 7 1); [lia|exact two_groups_reached|reflexivity|reflexivity].
Defined.

(** ** A free buffer is found *)

Lemma next_index_mod i n : 0 ≤ i → 0 < n → next_index i n = (i + 1) `mod` n.
Proof. intros. unfold next_index. apply Z.rem_mod_nonneg; lia. Qed.

(** [d] accesses after [i] the loop is at the index [(i + d) mod n]. *)
Lemma reserve_loop_finds n tokens (d : nat) : ∀ fuel i,
  0 < n → Z.of_nat (length tokens) = n → Forall (λ t, t = 0 ∨ t = 1) tokens → 0 ≤ i < n →
  tokens !! Z.to_nat ((i + Z.of_nat d) `mod` n) = Some 0 →
  (∀ e : nat, (e < d)%nat → tokens !! Z.to_nat ((i + Z.of_nat e) `mod` n) = Some 1) →
  (d < fuel)%nat →
  reserve_loop fuel n tokens i =
    Ok ((i + Z.of_nat d) `mod` n, <[Z.to_nat ((i + Z.of_nat d) `mod` n) := 1]> tokens).
Proof.
  induction d as [|d IH]; intros [|fuel] i Hn Hlen Hall Hi Hfree Htaken Hf; try lia; cbn.
  - rewrite Z.add_0_r, Z.mod_small in * by lia. unfold probe. by rewrite Hfree.
  - unfold probe. pose proof (Htaken 0%nat ltac:(lia)) as H0.
    rewrite Z.add_0_r, (Z.mod_small i) in H0 by lia. rewrite H0. cbn.
    rewrite next_index_mod by lia.
    assert (∀ e : nat, ((i + 1) `mod` n + Z.of_nat e) `mod` n = (i + Z.of_nat (S e)) `mod` n) as E.
    { intros e. rewrite Zplus_mod_idemp_l. f_equal. lia. }
    rewrite IH; [by rewrite E|done|done|done|by apply Z.mod_pos_bound|by rewrite E| |lia].
    intros e He. rewrite E. apply Htaken. lia.
Qed.

Lemma least_nat (P : nat → Prop) `{!∀ n, Decision (P n)} (n : nat) :
  P n → ∃ m, (m ≤ n)%nat ∧ P m ∧ ∀ e, (e < m)%nat → ¬ P e.
Proof.
  induction (lt_wf n) as [n _ IH]. intros Hn.
  destruct (decide (Exists P (seq 0 n))) as [(e & He%elem_of_seq & HPe)%Exists_exists|Hno].
  - destruct (IH e ltac:(lia) HPe) as (m & ? & ? & ?). exists m. split; [lia|done].
  - exists n. split; [lia|]. split; [done|]. intros e He HPe. apply Hno, Exists_exists.
    exists e. split; [apply elem_of_seq; lia|done].
Qed.

(** The first index from [i] on, going round, whose token is free. *)
Lemma first_free n tokens i :
  0 < n → Z.of_nat (length tokens) = n → Forall (λ t, t = 0 ∨ t = 1) tokens → 0 ≤ i < n →
  0 ∈ tokens →
  ∃ d : nat, (d < Z.to_nat n)%nat ∧ tokens !! Z.to_nat ((i + Z.of_nat d) `mod` n) = Some 0 ∧
    ∀ e : nat, (e < d)%nat → tokens !! Z.to_nat ((i + Z.of_nat e) `mod` n) = Some 1.
Proof.
  intros Hn Hlen Hall Hi [j Hj]%list_elem_of_lookup.
  set (P d := tokens !! Z.to_nat ((i + Z.of_nat d) `mod` n) = Some 0).
  pose proof (lookup_lt_Some _ _ _ Hj) as Hlt.
  assert (P (Z.to_nat ((Z.of_nat j - i) `mod` n))) as HP.
  { unfold P. pose proof (Z.mod_pos_bound (Z.of_nat j - i) n Hn). rewrite Z2Nat.id by lia.
    rewrite Zplus_mod_idemp_r. replace (i + (Z.of_nat j - i)) with (Z.of_nat j) by lia.
    rewrite Z.mod_small, Nat2Z.id by lia. done. }
  pose proof (least_nat P) as Hmin.
  destruct (Hmin _ HP) as (d & Hd & HPd & Hlow). exists d.
  pose proof (Z.mod_pos_bound (Z.of_nat j - i) n Hn). split; [lia|]. split; [done|].
  intros e He. pose proof (Hlow e He) as Hne. unfold P in Hne.
  pose proof (Z.mod_pos_bound (i + Z.of_nat e) n Hn).
  destruct (lookup_lt_is_Some_2 tokens (Z.to_nat ((i + Z.of_nat e) `mod` n))) as [t Et]; [lia|].
  rewrite Et in *. destruct (Forall_lookup_1 _ _ _ _ Hall Et) as [-> | ->]; [by destruct Hne|done].
Qed.

(** A work-group that is not disturbed finds a buffer within as many
    accesses as there are buffers whenever one is free; it takes a free one and
    changes no other token. *)
Theorem reserve_finds num_wg tokens hw_wv_slot :
  0 < num_wg → Z.of_nat (length tokens) = num_wg → Forall (λ t, t = 0 ∨ t = 1) tokens →
  0 ≤ hw_wv_slot → 0 ∈ tokens →
  ∃ i : nat, tokens !! i = Some 0 ∧
    reserve_wg_buffers (Z.to_nat num_wg) hw_wv_slot num_wg tokens =
      Ok (Z.of_nat i, <[i := 1]> tokens).
Proof.
  intros Hn Hlen Hall Hs Hin. unfold reserve_wg_buffers, first_index.
  rewrite Z.rem_mod_nonneg by lia. pose proof (Z.mod_pos_bound hw_wv_slot num_wg Hn) as Hi.
  destruct (first_free _ _ _ Hn Hlen Hall Hi Hin) as (d & Hd & Hfree & Htaken).
  rewrite (reserve_loop_finds num_wg tokens d) by done.
  set (k := (_ + _) `mod` num_wg) in *. pose proof (Z.mod_pos_bound (hw_wv_slot `mod` num_wg + Z.of_nat d) num_wg Hn).
  exists (Z.to_nat k). split; [done|]. by rewrite Z2Nat.id by (unfold k; lia).
Qed.

Lemma reserve_finds_witness :
  ∃ i : nat, [1; 0; 1; 1] !! i = Some 0 ∧
    reserve_wg_buffers 4 70 4 [1; 0; 1; 1] = Ok (Z.of_nat i, <[i := 1]> [1; 0; 1; 1]).
Proof.
  apply (reserve_finds 4); [lia|reflexivity| |lia|set_solver].
  repeat constructor; lia.
Defined.

(** ** Allocations of shared memory *)

Lemma allocate_all_spec sizes : ∀ d,
  0 ≤ d → Forall (λ n, 0 ≤ n) sizes → d + zsum id sizes < 2 ^ 64 →
  (allocate_all sizes d).2 = d + zsum id sizes ∧
  ∀ (i : nat) p, (allocate_all sizes d).1 !! i = Some p → p = d + zsum id (take i sizes).
Proof.
  induction sizes as [|n sizes IH]; intros d Hd Hall Hb; cbn in *; [split; [lia|done]|].
  apply Forall_cons in Hall as [Hn Hall]. pose proof (zsum_nonneg id sizes Hall).
  rewrite (uwrap_small 64 (d + n)) by (unfold id in *; lia).
  rewrite (uwrap_small 64) by (unfold id in *; lia).
  destruct (IH (d + n)) as [H2 H1]; [lia|done|unfold id in *; lia|].
  destruct (allocate_all sizes (d + n)) as [ps d']. cbn in *. split; [unfold id in *; lia|].
  intros [|i] p Hp; cbn in *; [injection Hp as <-; lia|]. rewrite (H1 i p Hp). unfold id. lia.
Qed.

Lemma zsum_take_S sizes (i : nat) n :
  sizes !! i = Some n → zsum id (take (S i) sizes) = zsum id (take i sizes) + n.
Proof. intros Hi. rewrite (take_S_r _ _ _ Hi), zsum_app. cbn. unfold id. lia. Qed.

Lemma zsum_take_le sizes (i j : nat) :
  Forall (λ n, 0 ≤ n) sizes → (i ≤ j)%nat → zsum id (take i sizes) ≤ zsum id (take j sizes).
Proof.
  intros Hall Hij. rewrite <- (take_drop i (take j sizes)), zsum_app, take_take, Nat.min_l by lia.
  pose proof (zsum_nonneg id (drop i (take j sizes)) ltac:(by apply Forall_drop, Forall_take)). lia.
Qed.

(** The pieces of dynamic shared memory that a work-group allocates follow
    one another, so that no two overlap and all lie behind the state object and
    below the final [dynamicPtr]. *)
Theorem shared_memory_disjoint base sizeof_WGState sizes (i j : nat) p q n m :
  0 ≤ base → 0 ≤ sizeof_WGState → Forall (λ n, 0 ≤ n) sizes →
  base + sizeof_WGState + zsum id sizes < 2 ^ 64 →
  let '(ps, d) := allocate_all sizes (dynamicPtr_init base sizeof_WGState) in
  ps !! i = Some p → ps !! j = Some q → sizes !! i = Some n → sizes !! j = Some m → (i < j)%nat →
  base + sizeof_WGState ≤ p ∧ p + n ≤ q ∧ q + m ≤ d.
Proof.
  intros Hb Hs Hall Hsum. unfold dynamicPtr_init. pose proof (zsum_nonneg id sizes Hall).
  rewrite uwrap_small by lia.
  destruct (allocate_all_spec sizes (base + sizeof_WGState) ltac:(lia) Hall Hsum) as [Hd Hp].
  destruct (allocate_all _ _) as [ps d]. cbn in Hd, Hp. intros Hi Hj Hn Hm Hij.
  rewrite (Hp _ _ Hi), (Hp _ _ Hj), Hd.
  pose proof (zsum_take_S _ _ _ Hn). pose proof (zsum_take_S _ _ _ Hm).
  pose proof (zsum_take_le sizes 0 i Hall ltac:(lia)) as Hz. rewrite take_0 in Hz. cbn in Hz.
  pose proof (zsum_take_le sizes (S i) j Hall ltac:(lia)).
  pose proof (zsum_take_le sizes (S j) (length sizes) Hall (lookup_lt_Some _ _ _ Hm)) as Hlast.
  rewrite firstn_all in Hlast. lia.
Qed.

Lemma shared_memory_disjoint_witness : 100 + 64 ≤ 172 ∧ 172 + 16 ≤ 188 ∧ 188 + 4 ≤ 192.
Proof.
  refine (shared_memory_disjoint 100 64 [8; 16; 4] 1 2 172 188 16 4 _ _ _ _
    eq_refl eq_refl eq_refl eq_refl _); [lia|lia|repeat constructor; lia|vm_compute; reflexivity|lia].
Defined.

(** ** The pool of team descriptions *)

Lemma alter_insert_same {A} (f : A → A) (l : list A) (i : nat) x :
  alter f i (<[i := x]> l) = <[i := f x]> l.
Proof. revert i. induction l as [|y l IH]; intros [|i]; cbn; [done..|]. f_equal. apply IH. Qed.


Section policy_ok.
Context (tinfo : Z → TeamInfo).

(** The description that the work-group keeps of a team. *)
Definition described (team : Z) : TeamInfo :=
  mkTeamInfo nullptr (pe_start (tinfo team)) (stride (tinfo team)) (ti_size (tinfo team)).

Definition live (e : WGTeamInfo) : Prop := ref_count_ e ≠ 0.

Record policy_ok (pool : wg_tinfo_pool) : Prop := {
  py_counts : Forall (λ e, 0 ≤ ref_count_ e < 2 ^ 64) pool;
  py_info : ∀ i e, pool !! i = Some e → live e → team_info_ e = described (team_ e);
  py_unique : ∀ i j e f, pool !! i = Some e → pool !! j = Some f → live e → live f →
    team_ e = team_ f → i = j
}.

(** The references to a team. *)
Definition refs (pool : wg_tinfo_pool) (team : Z) : Z :=
  zsum (λ e, if team_ e =? team then ref_count_ e else 0) pool.

Lemma find_team_from_spec team pool : ∀ i : nat,
  match find_team_from team pool i with
  | Some k => ∃ e, (i ≤ k)%nat ∧ pool !! (k - i)%nat = Some e ∧ live e ∧ team_ e = team
  | None => Forall (λ e, live e → team_ e ≠ team) pool
  end.
Proof.
  induction pool as [|e pool IH]; intros i; cbn; [constructor|]. specialize (IH (S i)). unfold live in *.
  destruct (Z.eqb_spec (ref_count_ e) 0) as [E0|E0]; [|destruct (Z.eqb_spec team (team_ e)) as [Et|Et]].
  2: { exists e. rewrite Nat.sub_diag. split; [lia|]. done. }
  all: destruct (find_team_from team pool (S i)) as [k|];
    [destruct IH as (e' & Hk & Hl & Hr); exists e'; replace (k - i)%nat with (S (k - S i)) by lia;
     split; [lia|]; done|constructor; [naive_solver|done]].
Qed.

Lemma find_available_from_spec pool : ∀ i : nat,
  match find_available_from pool i with
  | Ok k => ∃ e, (i ≤ k)%nat ∧ pool !! (k - i)%nat = Some e ∧ ¬ live e
  | Fail f => f = AssertFailed ∧ Forall live pool
  end.
Proof.
  induction pool as [|e pool IH]; intros i; cbn; [by split; [|constructor]|].
  specialize (IH (S i)). unfold live in *.
  destruct (Z.eqb_spec (ref_count_ e) 0) as [E0|E0].
  { exists e. rewrite Nat.sub_diag. split; [lia|]. split; [done|]. by intros []. }
  destruct (find_available_from pool (S i)) as [k|f].
  - destruct IH as (e' & Hk & Hl & Hr). exists e'. replace (k - i)%nat with (S (k - S i)) by lia.
    split; [lia|]. done.
  - destruct IH as [-> IH]. split; [done|]. by constructor.
Qed.

(** Writing a live entry of a team that has no other one keeps the pool. *)
Lemma policy_ok_insert pool (i : nat) e e' :
  policy_ok pool → pool !! i = Some e → 0 ≤ ref_count_ e' < 2 ^ 64 →
  (live e' → team_info_ e' = described (team_ e') ∧
     ∀ j f, pool !! j = Some f → live f → team_ f = team_ e' → j = i) →
  policy_ok (<[i := e']> pool).
Proof.
  intros [Hc Hinf Hu] Hi He Hl. pose proof (lookup_lt_Some _ _ _ Hi) as Hlt. split.
  - by apply Forall_insert.
  - intros j f. rewrite list_lookup_insert_Some. intros [(<- & <- & _)|[Hne Hj]] Hlf; [by apply Hl|].
    by eapply Hinf.
  - intros j k f g. rewrite !list_lookup_insert_Some.
    intros [(<- & <- & _)|[Hj Ej]] [(<- & <- & _)|[Hk Ek]] L1 L2 Et; [done| | |by eapply Hu].
    + destruct (Hl L1) as [_ H]. symmetry. by eapply H.
    + destruct (Hl L2) as [_ H]. by eapply H.
Qed.

Lemma refs_insert pool (i : nat) e e' team :
  pool !! i = Some e →
  refs (<[i := e']> pool) team = refs pool team
    - (if team_ e =? team then ref_count_ e else 0) + (if team_ e' =? team then ref_count_ e' else 0).
Proof. intros Hi. unfold refs. by rewrite (zsum_insert _ _ _ _ _ Hi). Qed.

(** The entry that [get_team_info] takes: the one of the team, or a dead one. *)
Lemma get_team_info_entry team pool :
  policy_ok pool → refs pool team < 2 ^ 64 - 1 →
  (∃ i e, pool !! i = Some e ∧ (live e ∧ team_ e = team ∨ ¬ live e)) →
  ∃ i e n, pool !! i = Some e ∧
    get_team_info tinfo team pool = Ok (i, <[i := mkWGTeamInfo (n + 1) team (described team)]> pool) ∧
    0 ≤ n < 2 ^ 64 - 1 ∧ (if team_ e =? team then ref_count_ e else 0) = n ∧
    (live e → team_ e = team) ∧
    (∀ j f, pool !! j = Some f → live f → team_ f = team → j = i).
Proof.
  intros Hok Hb Hex. unfold get_team_info, find_team_in_pool, find_available_pool_entry.
  pose proof (find_team_from_spec team pool 0) as Hf. destruct Hok as [Hc Hinf Hu].
  assert (Forall (λ e, 0 ≤ if team_ e =? team then ref_count_ e else 0) pool) as Hpos.
  { eapply Forall_impl; [exact Hc|]. intros e He. cbn in *. case_if; lia. }
  destruct (find_team_from team pool 0) as [i|].
  - destruct Hf as (e & _ & Hi & Hl & Ht). rewrite Nat.sub_0_r in Hi.
    pose proof (zsum_at_least _ pool i e Hpos Hi) as Hle. cbn in Hle.
    rewrite Ht, Z.eqb_refl in Hle. fold (refs pool team) in Hle.
    pose proof (Forall_lookup_1 _ _ _ _ Hc Hi) as Hce. cbn in Hce.
    exists i, e, (ref_count_ e). rewrite Ht, Z.eqb_refl. split; [done|]. split.
    { cbn. do 2 f_equal. rewrite (alter_take_drop _ _ _ _ Hi), insert_take_drop
        by (by eapply lookup_lt_Some). do 2 f_equal. unfold inc_ref.
      rewrite (Hinf _ _ Hi Hl), Ht, uwrap_small by lia. done. }
    split; [lia|]. split; [done|]. split; [done|]. intros j f Hj Hlf Htf.
    by apply (Hu j i f e); [..|rewrite Ht].
  - pose proof (find_available_from_spec pool 0) as Ha.
    destruct (find_available_from pool 0) as [i|g].
    + destruct Ha as (e & _ & Hi & Hl). rewrite Nat.sub_0_r in Hi.
      assert (ref_count_ e = 0) as E0 by (unfold live in Hl; lia).
      exists i, e, 0. split; [done|]. split.
      { cbn. do 2 f_equal. by rewrite alter_insert_same. }
      rewrite E0. split; [lia|]. split; [by case_if|]. split; [done|].
      intros j f Hj Hlf Htf. by destruct (Forall_lookup_1 _ _ _ _ Hf Hj Hlf).
    + destruct Ha as [_ Ha], Hex as (i & e & Hi & [[Hl Ht]|Hl]).
      * by destruct (Forall_lookup_1 _ _ _ _ Hf Hi Hl).
      * by destruct (Hl (Forall_lookup_1 _ _ _ _ Ha Hi)).
Qed.

(** [get_team_info] returns whenever the team is in the pool or an entry
    is unused: an entry that describes the team, with one more reference to this
    team and as many as before to every other, and the pool stays well formed;
    when all entries belong to other teams the assertion fails. *)
Theorem get_team_info_correct team pool :
  policy_ok pool → refs pool team < 2 ^ 64 - 1 →
  ((∃ i e, pool !! i = Some e ∧ (live e ∧ team_ e = team ∨ ¬ live e)) →
   ∃ i pool' e, get_team_info tinfo team pool = Ok (i, pool') ∧ policy_ok pool' ∧
     pool' !! i = Some e ∧ live e ∧ team_ e = team ∧ team_info_ e = described team ∧
     ∀ t, refs pool' t = refs pool t + if t =? team then 1 else 0) ∧
  (Forall (λ e, live e ∧ team_ e ≠ team) pool → get_team_info tinfo team pool = Fail AssertFailed).
Proof.
  intros Hok Hb. split.
  - intros Hex. destruct (get_team_info_entry team pool Hok Hb Hex)
      as (i & e & n & Hi & -> & Hn & Hen & Hle & Hu).
    pose proof (lookup_lt_Some _ _ _ Hi) as Hlt.
    eexists i, _, _. split; [done|]. split.
    { eapply policy_ok_insert; [done|done|cbn; lia|]. intros _. cbn. split; [done|]. apply Hu. }
    split; [by apply list_lookup_insert_eq|]. unfold live. cbn. split; [lia|]. split; [done|].
    split; [done|]. intros t. rewrite (refs_insert _ _ _ _ _ Hi). cbn. rewrite (Z.eqb_sym team t).
    destruct (Z.eqb_spec t team) as [->|Hne]; [lia|].
    destruct (Z.eqb_spec (team_ e) t) as [Et|_]; [|lia].
    destruct (decide (live e)) as [Hl|Hl]; [rewrite (Hle Hl) in Et; congruence|].
    unfold live in Hl. lia.
  - intros Hall. unfold get_team_info, find_team_in_pool, find_available_pool_entry.
    pose proof (find_team_from_spec team pool 0) as Hf. destruct (find_team_from team pool 0) as [i|].
    + destruct Hf as (e & _ & Hi & _ & Ht). by destruct (Forall_lookup_1 _ _ _ _ Hall Hi).
    + pose proof (find_available_from_spec pool 0) as Ha.
      destruct (find_available_from pool 0) as [i|g].
      * destruct Ha as (e & _ & Hi & Hl). by destruct (Forall_lookup_1 _ _ _ _ Hall Hi).
      * by destruct Ha as [-> _].
Qed.

(** [remove_team_info] gives one reference back, and the entry with it when it
    was the last one. *)
Lemma remove_team_info_ok (i : nat) pool e :
  policy_ok pool → pool !! i = Some e → live e →
  ∃ pool', remove_team_info i pool = Ok pool' ∧ policy_ok pool' ∧
    (∀ t, refs pool' t = refs pool t - if t =? team_ e then 1 else 0) ∧
    (ref_count_ e = 1 → pool' !! i = Some WGTeamInfo_default).
Proof.
  intros Hok Hi Hl. unfold remove_team_info. rewrite Hi. cbn [must mbind result_bind].
  pose proof (Forall_lookup_1 _ _ _ _ (py_counts _ Hok) Hi) as Hc. cbn in Hc. unfold live in Hl.
  rewrite (proj2 (Z.ltb_lt _ _)) by lia. cbn [assert_ mbind result_bind].
  unfold dec_ref. cbn [ref_count_]. rewrite uwrap_small by lia.
  eexists. split; [done|]. split; [|split].
  - eapply policy_ok_insert; [done|done|case_if; cbn; lia|].
    case_if; [done|]. intros _. cbn. split; [by eapply py_info|].
    intros j f Hj Hlf Htf. by eapply py_unique.
  - intros t. rewrite (refs_insert _ _ _ _ _ Hi), (Z.eqb_sym (team_ e)).
    destruct (Z.eqb_spec (ref_count_ e - 1) 0) as [E|E]; cbn;
      destruct (Z.eqb_spec t (team_ e)) as [->|Hne]; rewrite ?Z.eqb_refl; try lia.
    + case_if; lia.
    + case_if; lia.
    + rewrite (proj2 (Z.eqb_neq _ _)) by done. lia.
  - intros ->. cbn. apply list_lookup_insert_eq. by eapply lookup_lt_Some.
Qed.

(** Calls of the policy that return. *)
Inductive policy_step : wg_tinfo_pool → wg_tinfo_pool → Prop :=
  | policy_get team pool i pool' :
      refs pool team < 2 ^ 64 - 1 → get_team_info tinfo team pool = Ok (i, pool') →
      policy_step pool pool'
  | policy_remove i pool pool' :
      remove_team_info i pool = Ok pool' → policy_step pool pool'.

(** The entry that a call which returns has written. *)
Lemma get_team_info_inv team pool i pool' :
  policy_ok pool → refs pool team < 2 ^ 64 - 1 → get_team_info tinfo team pool = Ok (i, pool') →
  ∃ e, pool !! i = Some e ∧ pool' = <[i := mkWGTeamInfo (ref_count_ e + 1) team (described team)]> pool ∧
    0 ≤ ref_count_ e < 2 ^ 64 - 1 ∧ (live e → team_ e = team) ∧
    (∀ j f, pool !! j = Some f → live f → team_ f = team → j = i).
Proof.
  intros Hok Hb Hg.
  assert (∃ i e, pool !! i = Some e ∧ (live e ∧ team_ e = team ∨ ¬ live e)) as Hex.
  { destruct (decide (Exists (λ e, (ref_count_ e ≠ 0 ∧ team_ e = team) ∨ ¬ ref_count_ e ≠ 0) pool)) as [He|He].
    - apply Exists_exists in He as (e & (j & Hj)%list_elem_of_lookup & He). eauto.
    - exfalso. apply not_Exists_Forall in He; [|apply _].
      unfold get_team_info, find_team_in_pool, find_available_pool_entry in Hg.
      pose proof (find_team_from_spec team pool 0) as Hf.
      destruct (find_team_from team pool 0) as [k|].
      { destruct Hf as (e & _ & Hi & Hl & Ht). pose proof (Forall_lookup_1 _ _ _ _ He Hi). naive_solver. }
      pose proof (find_available_from_spec pool 0) as Ha.
      destruct (find_available_from pool 0) as [k|]; [|done].
      destruct Ha as (e & _ & Hi & Hl). pose proof (Forall_lookup_1 _ _ _ _ He Hi). naive_solver. }
  destruct (get_team_info_entry team pool Hok Hb Hex) as (j & e & n & Hj & Hg' & Hn & Hen & Hl & Hu).
  rewrite Hg' in Hg. injection Hg as <- <-.
  assert (n = ref_count_ e) as ->.
  { rewrite <- Hen. destruct (decide (live e)) as [Hle|Hd]; [by rewrite (Hl Hle), Z.eqb_refl|].
    unfold live in Hd. case_if; lia. }
  exists e. done.
Qed.

Lemma policy_step_ok pool pool' :
  policy_step pool pool' → policy_ok pool → policy_ok pool' ∧ length pool' = length pool.
Proof.
  intros [team pool0 i pool1 Hb Hg|i pool0 pool1 Hr] Hok.
  - destruct (get_team_info_inv _ _ _ _ Hok Hb Hg) as (e & Hi & -> & Hn & _ & Hu).
    rewrite length_insert. split; [|done].
    eapply policy_ok_insert; [done|done|cbn; lia|]. intros _. cbn. split; [done|]. apply Hu.
  - unfold remove_team_info in Hr. destruct (pool0 !! i) as [e|] eqn:Hi; [|done].
    cbn [must mbind result_bind] in Hr. destruct (Z.ltb_spec 0 (ref_count_ e)) as [Hl|]; [|done].
    destruct (remove_team_info_ok i pool0 e Hok Hi ltac:(unfold live; lia)) as (p & Hp & Hokp & _).
    unfold remove_team_info in Hp. rewrite Hi in Hp. cbn [must mbind result_bind] in Hp.
    rewrite (proj2 (Z.ltb_lt _ _) Hl) in Hp. rewrite Hp in Hr. injection Hr as <-. split; [done|].
    cbn in Hp. injection Hp as <-. by rewrite length_insert.
Qed.

(** C38: The pool of a work-group stays well typed through every sequence of
    calls: it keeps its [max_num_teams] entries, no two live entries are of the
    same team, and every live entry describes its team. *)
Theorem policy_well_formed max_num_teams pool :
  rtc policy_step (policy_init max_num_teams) pool →
  policy_ok pool ∧ length pool = Z.to_nat max_num_teams.
Proof.
  revert pool. apply (rtc_invariant _ (λ pool, policy_ok pool ∧ length pool = Z.to_nat max_num_teams)).
  - unfold policy_init. rewrite length_replicate. split; [|done].
    assert (∀ i e, replicate (Z.to_nat max_num_teams) WGTeamInfo_default !! i = Some e → ¬ live e) as Hd.
    { intros i e [-> _]%lookup_replicate. unfold live. cbn. lia. }
    split; [apply Forall_replicate; cbn; lia|naive_solver..].
  - intros p p' Hs [Hok Hlen]. destruct (policy_step_ok _ _ Hs Hok) as [? ->]. done.
Qed.
End policy_ok.

(** Teams 10 and 11; a pool of two entries. *)
Definition two_teams (team : Z) : TeamInfo := mkTeamInfo 5 (team - 10) 2 4.
Definition pool_one : wg_tinfo_pool :=
  [mkWGTeamInfo 1 10 (mkTeamInfo nullptr 0 2 4); WGTeamInfo_default].

Lemma pool_one_reached : rtc (policy_step two_teams) (policy_init 2) pool_one.
Proof.
  eapply rtc_l; [|apply rtc_refl]. by apply (policy_get two_teams 10 _ 0).
Qed.

Lemma policy_well_formed_witness : policy_ok two_teams pool_one ∧ length pool_one = Z.to_nat 2.
Proof. apply (policy_well_formed two_teams 2), pool_one_reached. Defined.

Lemma get_team_info_correct_witness :
  ((∃ i e, pool_one !! i = Some e ∧ (live e ∧ team_ e = 11 ∨ ¬ live e)) →
   ∃ i pool' e, get_team_info two_teams 11 pool_one = Ok (i, pool') ∧ policy_ok two_teams pool' ∧
     pool' !! i = Some e ∧ live e ∧ team_ e = 11 ∧ team_info_ e = described two_teams 11 ∧
     ∀ t, refs pool' t = refs pool_one t + if t =? 11 then 1 else 0) ∧
  (Forall (λ e, live e ∧ team_ e ≠ 11) pool_one → get_team_info two_teams 11 pool_one = Fail AssertFailed).
Proof.
  apply get_team_info_correct; [|vm_compute; reflexivity].
  split.
  - repeat constructor; cbn; lia.
  - intros [|[|i]] e [= <-] Hl; [reflexivity|by destruct Hl].
  - intros [|[|i]] [|[|j]] e f [= <-] [= <-] Hl1 Hl2 Ht; try done; by destruct Hl2.
Defined.

(** ** Contexts *)

Inductive ctx_op := CtxCreate (ctx : Z) | CtxDestroy (ctx : Z).

(** [roc_shmem_ctx_create] tracks the context that the backend made. *)
Fixpoint run_ctxs (ops : list ctx_op) (t : tracker) : result tracker :=
  match ops with
  | [] => Ok t
  | CtxCreate ctx :: ops' => run_ctxs ops' (track_ctx ctx t)
  | CtxDestroy ctx :: ops' => t ← roc_shmem_ctx_destroy ctx t; run_ctxs ops' t
  end.

Definition created (ops : list ctx_op) : list Z :=
  omap (λ o, match o with CtxCreate c => Some c | _ => None end) ops.

Lemma erase_first_perm ctx l l' : erase_first ctx l = Some l' → l ≡ₚ ctx :: l'.
Proof.
  revert l'. induction l as [|c l IH]; intros l' H; cbn in H; [done|].
  destruct (Z.eqb_spec c ctx) as [->|Hne]; [by injection H as ->|].
  destruct (erase_first ctx l) as [l2|]; cbn in H; [|done]. injection H as <-.
  rewrite (IH _ eq_refl). apply Permutation_swap.
Qed.

Lemma destroy_remaining_perm n : ∀ t,
  length (list_of_ctxs t) = n →
  ∃ t', destroy_remaining_ctxs n t = Ok t' ∧ list_of_ctxs t' = [] ∧
    destroyed t' ≡ₚ destroyed t ++ list_of_ctxs t.
Proof.
  induction n as [|n IH]; intros [l d] Hlen; cbn in Hlen.
  - destruct l; [|done]. exists (mkTracker [] d). cbn. by rewrite app_nil_r.
  - destruct l as [|c l _] using rev_ind; [done|]. rewrite length_app in Hlen. cbn in Hlen.
    cbn. rewrite last_snoc. rewrite length_app. cbn. rewrite Nat.add_sub, take_app_length.
    destruct (IH (mkTracker l (d ++ [c]))) as (t' & -> & Ht & Hp); [cbn; lia|].
    exists t'. split; [done|]. split; [done|]. rewrite Hp. cbn. solve_Permutation.
Qed.

(** Every context is destroyed exactly once: whatever contexts the program
    created and destroyed itself, [destroy_remaining_ctxs] returns, and the
    contexts destroyed are then the ones created, each as often as it was
    created. *)
Theorem contexts_destroyed_once ops t :
  run_ctxs ops (mkTracker [] []) = Ok t →
  ∃ t', destroy_remaining_ctxs (length (list_of_ctxs t)) t = Ok t' ∧ list_of_ctxs t' = [] ∧
    destroyed t' ≡ₚ created ops.
Proof.
  intros Hr. destruct (destroy_remaining_perm _ t eq_refl) as (t' & Hd & Hl & Hp).
  exists t'. split; [done|]. split; [done|]. rewrite Hp.
  enough (∀ t0, run_ctxs ops t0 = Ok t →
    destroyed t ++ list_of_ctxs t ≡ₚ (destroyed t0 ++ list_of_ctxs t0) ++ created ops) as H
    by apply (H _ Hr).
  clear. induction ops as [|[c|c] ops IH]; intros t0 H; cbn in H.
  - injection H as ->. by rewrite app_nil_r.
  - rewrite (IH _ H). cbn. solve_Permutation.
  - apply bind_Ok_inv in H as (t1 & H1 & H). unfold roc_shmem_ctx_destroy, untrack_ctx in H1.
    destruct (erase_first c (list_of_ctxs t0)) as [l|] eqn:E; [|done]. injection H1 as <-.
    rewrite (IH _ H). cbn. rewrite (erase_first_perm _ _ _ E). solve_Permutation.
Qed.

Lemma contexts_destroyed_once_witness :
  ∃ t', destroy_remaining_ctxs 2 (mkTracker [3; 5] [4]) = Ok t' ∧ list_of_ctxs t' = [] ∧
    destroyed t' ≡ₚ created [CtxCreate 3; CtxCreate 4; CtxDestroy 4; CtxCreate 5].
Proof.
  apply (contexts_destroyed_once [CtxCreate 3; CtxCreate 4; CtxDestroy 4; CtxCreate 5]
    (mkTracker [3; 5] [4])). reflexivity.
Defined.
