(* ===== verification/Barrier.v ===== *)
(** * Barriers of the InfiniBand backend

    [internal_direct_barrier], [internal_atomic_barrier] and [internal_sync] of
    [gpu_ib/gpu_ib_gpu_coll.cpp], as step relations over the processing
    elements of a team and the flags that are on their way.  Shown, for any
    number of barriers one after the other: no element leaves a barrier before
    all have entered it. *)
From stdpp Require Import functions.
From S2P Require Import Prelude.

Local Open Scope Z_scope.

Definition ROC_SHMEM_SYNC_VALUE : Z := 0.

(** ** State *)

(** Where the leading thread of an element is in the barrier: waiting for
    [pSync[i]], about to reset it, about to send flag number [i]. *)
Inductive bpc := BOut | BWait (i : Z) | BClear (i : Z) | BSend (i : Z).

#[export] Instance bpc_eq_dec : EqDecision bpc.
Proof. solve_decision. Defined.

(** [pSync] of every element, by element and index; the puts on their way, by
    target and index; and, for the statements, how often each element entered
    and left. *)
Record bstate := mkB {
  psync : Z * Z → Z;
  net : list (Z * Z);
  pcs : Z → bpc;
  entered : Z → Z;
  left : Z → Z
}.

Definition goto (pe : Z) (p : bpc) (s : bstate) : bstate :=
  mkB (psync s) (net s) (<[pe := p]> (pcs s)) (entered s) (left s).
Definition enter (pe : Z) (s : bstate) : bstate :=
  mkB (psync s) (net s) (pcs s) (<[pe := entered s pe + 1]> (entered s)) (left s).
Definition leave (pe : Z) (s : bstate) : bstate :=
  mkB (psync s) (net s) (pcs s) (entered s) (<[pe := left s pe + 1]> (left s)).
Definition write (pe i v : Z) (s : bstate) : bstate :=
  mkB (<[(pe, i) := v]> (psync s)) (net s) (pcs s) (entered s) (left s).
(** [put_nbi(&pSync[i], &flag_val, 1, pe)] *)
Definition put_flag (pe i : Z) (s : bstate) : bstate :=
  mkB (psync s) ((pe, i) :: net s) (pcs s) (entered s) (left s).

Section barrier.
Context (PE_start stride n_pes : Z).

(** The number of an element in the active set, and back. *)
Definition pe_offset (pe : Z) : Z := Z.quot (pe - PE_start) stride.
Definition pe_at (i : Z) : Z := PE_start + i * stride.

(** ** [internal_direct_barrier] *)

(** The next step of [pe]; [None] while it waits. *)
Definition direct_advance (pe : Z) (s : bstate) : option bstate :=
  if pe =? PE_start then
    match pcs s pe with
    | BOut => Some (goto pe (if 1 <? n_pes then BWait 1 else BSend 1) (enter pe s))
    | BWait i => if psync s (pe, i) =? 1 then Some (goto pe (BClear i) s) else None
    | BClear i =>
        Some (goto pe (if i + 1 <? n_pes then BWait (i + 1) else BSend 1)
                (write pe i ROC_SHMEM_SYNC_VALUE s))
    | BSend i =>
        Some (if i <? n_pes then goto pe (BSend (i + 1)) (put_flag (pe_at i) 0 s)
              else goto pe BOut (leave pe s))
    end
  else
    match pcs s pe with
    | BOut => Some (goto pe (BSend 0) (enter pe s))
    | BSend _ => Some (goto pe (BWait 0) (put_flag PE_start (pe_offset pe) s))
    | BWait _ => if psync s (pe, 0) =? 1 then Some (goto pe (BClear 0) s) else None
    | BClear _ => Some (goto pe BOut (leave pe (write pe 0 ROC_SHMEM_SYNC_VALUE s)))
    end.

(** ** [internal_atomic_barrier] *)

Definition atomic_advance (pe : Z) (s : bstate) : option bstate :=
  if pe =? PE_start then
    match pcs s pe with
    | BOut => Some (goto pe (BWait 0) (enter pe s))
    | BWait _ => if psync s (pe, 0) =? n_pes - 1 then Some (goto pe (BClear 0) s) else None
    | BClear _ => Some (goto pe (BSend 1) (write pe 0 ROC_SHMEM_SYNC_VALUE s))
    | BSend i =>
        Some (if i <? n_pes then goto pe (BSend (i + 1)) (put_flag (pe_at i) 0 s)
              else goto pe BOut (leave pe s))
    end
  else
    match pcs s pe with
    | BOut => Some (goto pe (BSend 0) (enter pe s))
    (* [amo_add] returns when the addition has been done *)
    | BSend _ => Some (goto pe (BWait 0) (write PE_start 0 (s64 (psync s (PE_start, 0) + 1)) s))
    | BWait _ => if psync s (pe, 0) =? 1 then Some (goto pe (BClear 0) s) else None
    | BClear _ => Some (goto pe BOut (leave pe (write pe 0 ROC_SHMEM_SYNC_VALUE s)))
    end.

(** ** [internal_sync] *)
Definition internal_sync_advance (pe : Z) (s : bstate) : option bstate :=
  if n_pes <? 64 then direct_advance pe s else atomic_advance pe s.

(** Steps of the team, with [advance] the barrier that is used, and of the
    network. *)
Inductive bar_step (advance : Z → bstate → option bstate) : bstate → bstate → Prop :=
  | bar_pe k s s' :
      0 ≤ k < n_pes → advance (pe_at k) s = Some s' → bar_step advance s s'
  | bar_deliver s l1 l2 pe i :
      net s = l1 ++ (pe, i) :: l2 →
      bar_step advance s
        (mkB (<[(pe, i) := 1]> (psync s)) (l1 ++ l2) (pcs s) (entered s) (left s)).

(** Before the first barrier [pSync] holds [ROC_SHMEM_SYNC_VALUE]. *)
Definition bar_init : bstate :=
  mkB (λ _ : Z * Z, ROC_SHMEM_SYNC_VALUE) [] (λ _ : Z, BOut) (λ _ : Z, 0) (λ _ : Z, 0).
End barrier.

(** ** Counting flags *)

Definition flying (x : Z * Z) (l : list (Z * Z)) : Z := zsum (λ y, if decide (y = x) then 1 else 0) l.

Lemma flying_cons x y l : flying x (y :: l) = (if decide (y = x) then 1 else 0) + flying x l.
Proof. done. Qed.

Lemma flying_remove x y l1 l2 :
  flying x (l1 ++ y :: l2) = (if decide (y = x) then 1 else 0) + flying x (l1 ++ l2).
Proof. unfold flying. rewrite !zsum_app. cbn. lia. Qed.

Lemma flying_nonneg x l : 0 ≤ flying x l.
Proof. apply zsum_nonneg, Forall_forall. intros y _. case_decide; lia. Qed.

Section invariant.
Context (PE_start stride n_pes : Z) (Hstride : 0 < stride) (Hn : 1 ≤ n_pes).

Abbreviation at_ := (pe_at PE_start stride).

Lemma pe_at_0 : at_ 0 = PE_start.
Proof. unfold pe_at. lia. Qed.

Lemma pe_at_inj i j : at_ i = at_ j → i = j.
Proof using Hstride. unfold pe_at. nia. Qed.

Lemma pe_at_offset i : pe_offset PE_start stride (at_ i) = i.
Proof using Hstride.
  unfold pe_offset, pe_at. replace (PE_start + i * stride - PE_start) with (i * stride) by lia.
  apply Z.quot_mul. lia.
Qed.

Lemma pe_at_root i : (at_ i =? PE_start) = (i =? 0).
Proof using Hstride.
  destruct (Z.eqb_spec i 0) as [->|Hne]; [rewrite pe_at_0; apply Z.eqb_refl|].
  apply Z.eqb_neq. intros E. apply Hne, pe_at_inj. by rewrite E, pe_at_0.
Qed.

(** ** The direct barrier *)

Definition is_out (p : bpc) : Z := match p with BOut => 1 | _ => 0 end.

(** How often the root has reset the flag of member [k], how often it has
    announced to it, and how often the member has sent its flag. *)
Definition collected (s : bstate) (k : Z) : Z :=
  match pcs s PE_start with
  | BWait i | BClear i => if i <=? k then entered s PE_start - 1 else entered s PE_start
  | _ => entered s PE_start
  end.
Definition announced (s : bstate) (k : Z) : Z :=
  match pcs s PE_start with
  | BWait _ | BClear _ => entered s PE_start - 1
  | BSend i => if k <? i then entered s PE_start else entered s PE_start - 1
  | BOut => entered s PE_start
  end.
Definition sent (s : bstate) (k : Z) : Z :=
  entered s (at_ k) - match pcs s (at_ k) with BSend _ => 1 | _ => 0 end.

(** The root's place. *)
Definition direct_root (s : bstate) : Prop :=
  left s PE_start = entered s PE_start - 1 + is_out (pcs s PE_start) ∧
  match pcs s PE_start with
  | BOut => True
  | BWait i => 1 ≤ i < n_pes
  | BClear i => 1 ≤ i < n_pes ∧ psync s (PE_start, i) = 1
  | BSend i => 1 ≤ i ≤ n_pes
  end.

(** A member's place, and the announcements to it: as many as it has left, with
    the one that is on its way or there. *)
Definition member_ok (s : bstate) (k : Z) : Prop :=
  left s (at_ k) = entered s (at_ k) - 1 + is_out (pcs s (at_ k)) ∧
  match pcs s (at_ k) with
  | BOut => True
  | BWait i | BSend i => i = 0
  | BClear i => i = 0 ∧ psync s (at_ k, 0) = 1
  end ∧
  announced s k = left s (at_ k) + psync s (at_ k, 0) + flying (at_ k, 0) (net s) ∧
  0 ≤ psync s (at_ k, 0).

(** The flags of a member to the root. *)
Definition flag_ok (s : bstate) (k : Z) : Prop :=
  sent s k = collected s k + psync s (PE_start, k) + flying (PE_start, k) (net s) ∧
  0 ≤ psync s (PE_start, k).

Definition direct_ok (s : bstate) : Prop :=
  direct_root s ∧ ∀ k, 1 ≤ k < n_pes → member_ok s k ∧ flag_ok s k.

(** A member sends at most one flag ahead of the root, and the root at most one
    announcement ahead of the member. *)
Lemma direct_bounds s k :
  direct_ok s → 1 ≤ k < n_pes →
  announced s k ≤ collected s k ≤ entered s (at_ k) ∧
  psync s (PE_start, k) + flying (PE_start, k) (net s) ≤ 1 ∧
  psync s (at_ k, 0) + flying (at_ k, 0) (net s) ≤ 1.
Proof using.
  intros [[Hr1 Hr2] Hk] Hkn. destruct (Hk k Hkn) as [(Hm1 & Hm2 & Hm3 & Hm4) [Hf1 Hf2]].
  pose proof (flying_nonneg (PE_start, k) (net s)). pose proof (flying_nonneg (at_ k, 0) (net s)).
  assert (announced s k ≤ collected s k) as Hac.
  { unfold announced, collected. destruct (pcs s PE_start); repeat case_match; lia. }
  assert (collected s k ≤ announced s k + 1) as Hca.
  { unfold announced, collected. destruct (pcs s PE_start); repeat case_match; lia. }
  unfold sent in Hf1. destruct (pcs s (at_ k)) eqn:E; cbn [is_out] in *; split_and!; try lia.
Qed.

Lemma pe_at_ne_root k : 1 ≤ k → PE_start ≠ at_ k.
Proof using Hstride. unfold pe_at. nia. Qed.

(** Look up an entry of an updated state. *)
Ltac look :=
  unfold ROC_SHMEM_SYNC_VALUE in *; cbn [psync net pcs entered left goto enter leave write put_flag] in *;
  repeat match goal with
  | |- context [(<[?a := ?v]> ?f) ?b] =>
      first [rewrite (fn_lookup_insert f a v)
            |rewrite (fn_lookup_insert_ne f a b v) by first [done|congruence|intros [= ?]; lia]]
  end.

(** What the invariant says of member [k], spelled out. *)
Ltac member_cases Hk k Hkn :=
  let Hm := fresh "Hm" in let Hf := fresh "Hf" in
  destruct (Hk k Hkn) as [Hm Hf]; pose proof (pe_at_ne_root k ltac:(lia));
  unfold member_ok, flag_ok, announced, collected, sent in Hm, Hf |- *; look;
  destruct Hm as (? & ? & ? & ?), Hf as [? ?].

Lemma direct_root_ok s s' :
  direct_ok s → direct_advance PE_start stride n_pes PE_start s = Some s' → direct_ok s'.
Proof using Hstride Hn.
  intros Hok Ha. pose proof (λ k, direct_bounds s k Hok) as Hb. destruct Hok as [[Hr1 Hr2] Hk].
  unfold direct_advance in Ha. rewrite Z.eqb_refl in Ha.
  destruct (pcs s PE_start) as [|i|i|i] eqn:Epc; cbn [is_out] in Hr1.
  - injection Ha as <-. split.
    + unfold direct_root. look. destruct (Z.ltb_spec 1 n_pes); cbn [is_out]; lia.
    + intros k Hkn. member_cases Hk k Hkn. rewrite Epc in *.
      destruct (Z.ltb_spec 1 n_pes); [|lia]. destruct (Z.leb_spec 1 k); [|lia].
      split_and!; try done; lia.
  - destruct (Z.eqb_spec (psync s (PE_start, i)) 1) as [E1|]; [|done]. injection Ha as <-. split.
    + unfold direct_root. look. cbn [is_out]. done.
    + intros k Hkn. member_cases Hk k Hkn. rewrite Epc in *. split_and!; done.
  - injection Ha as <-. destruct Hr2 as [Hi E1]. split.
    + unfold direct_root. look. destruct (Z.ltb_spec (i + 1) n_pes); cbn [is_out]; lia.
    + intros k Hkn. specialize (Hb k Hkn). member_cases Hk k Hkn. rewrite Epc in *.
      pose proof (flying_nonneg (PE_start, k) (net s)).
      destruct (decide (k = i)) as [->|Hki]; look.
      * rewrite Z.leb_refl in *. rewrite E1 in *.
        destruct (Z.ltb_spec (i + 1) n_pes); [destruct (Z.leb_spec (i + 1) i); [lia|]|
          destruct (Z.ltb_spec i 1); [lia|]]; split_and!; try done; lia.
      * destruct (Z.ltb_spec (i + 1) n_pes).
        { destruct (Z.leb_spec (i + 1) k), (Z.leb_spec i k); try lia; split_and!; done. }
        destruct (Z.leb_spec i k), (Z.ltb_spec k 1); try lia; split_and!; done.
  - injection Ha as <-. destruct (Z.ltb_spec i n_pes) as [Hi|Hi].
    + split; [unfold direct_root; look; cbn [is_out]; lia|].
      intros k Hkn. member_cases Hk k Hkn. rewrite Epc in *. rewrite !flying_cons.
      rewrite (decide_False (P := (at_ i, 0) = (PE_start, k))) by (intros [= ? ?]; lia).
      destruct (decide (k = i)) as [->|Hki].
      * rewrite decide_True by done. destruct (Z.ltb_spec i i), (Z.ltb_spec i (i + 1)); try lia.
        split_and!; try done; lia.
      * rewrite decide_False by (intros [= ?%pe_at_inj]; lia).
        destruct (Z.ltb_spec k i), (Z.ltb_spec k (i + 1)); try lia; split_and!; try done; lia.
    + split; [unfold direct_root; look; cbn [is_out]; lia|].
      intros k Hkn. member_cases Hk k Hkn. rewrite Epc in *.
      destruct (Z.ltb_spec k i); [|lia]. split_and!; done.
Qed.

Lemma direct_root_ext s s' :
  entered s' PE_start = entered s PE_start → left s' PE_start = left s PE_start →
  pcs s' PE_start = pcs s PE_start →
  (∀ i, 1 ≤ i → psync s' (PE_start, i) = psync s (PE_start, i)) → direct_root s → direct_root s'.
Proof using.
  intros E1 E2 E3 E4 [Hr1 Hr2]. unfold direct_root. rewrite E1, E2, E3. split; [done|].
  destruct (pcs s PE_start); try done. rewrite E4 by lia. done.
Qed.

(** Members other than the one that moves see no difference. *)
Lemma direct_member_ok s s' k :
  direct_ok s → 1 ≤ k < n_pes →
  direct_advance PE_start stride n_pes (at_ k) s = Some s' → direct_ok s'.
Proof using Hstride Hn.
  intros Hok Hkn Ha. pose proof (direct_bounds s k Hok Hkn) as Hb. destruct Hok as [Hr Hk].
  pose proof (pe_at_ne_root k ltac:(lia)) as Hne0.
  unfold direct_advance in Ha. rewrite pe_at_root, (proj2 (Z.eqb_neq _ _)) in Ha by lia.
  assert (∀ j, j ≠ k → at_ k ≠ at_ j) as Hinj by (intros j Hj ?%pe_at_inj; lia).
  pose proof (flying_nonneg (PE_start, k) (net s)). pose proof (flying_nonneg (at_ k, 0) (net s)).
  destruct (pcs s (at_ k)) as [|i|i|i] eqn:Epc.
  - injection Ha as <-. split; [eapply direct_root_ext; [..|exact Hr]; intros; by look|].
    intros j Hjn. member_cases Hk j Hjn. destruct (decide (j = k)) as [->|Hjk].
    + look. rewrite Epc in *. cbn [is_out] in *. split_and!; try done; lia.
    + pose proof (Hinj j Hjk). look. split_and!; done.
  - destruct (Z.eqb_spec (psync s (at_ k, 0)) 1) as [E1|]; [|done]. injection Ha as <-.
    split; [eapply direct_root_ext; [..|exact Hr]; intros; by look|].
    intros j Hjn. member_cases Hk j Hjn. destruct (decide (j = k)) as [->|Hjk].
    + look. rewrite Epc in *. cbn [is_out] in *. split_and!; try done; lia.
    + pose proof (Hinj j Hjk). look. split_and!; done.
  - injection Ha as <-. split; [eapply direct_root_ext; [..|exact Hr]; intros; by look|].
    intros j Hjn. member_cases Hk j Hjn. destruct (decide (j = k)) as [->|Hjk].
    + look. rewrite Epc in *. cbn [is_out] in *. split_and!; try done; lia.
    + pose proof (Hinj j Hjk). look. split_and!; done.
  - injection Ha as <-. split; [eapply direct_root_ext; [..|exact Hr]; intros; by look|].
    intros j Hjn. member_cases Hk j Hjn. rewrite pe_at_offset, !flying_cons.
    rewrite (decide_False (P := (PE_start, k) = (at_ j, 0))) by (intros [= ? ?]; lia).
    destruct (decide (j = k)) as [->|Hjk].
    + look. rewrite decide_True by done. rewrite Epc in *. cbn [is_out] in *. split_and!; try done; lia.
    + pose proof (Hinj j Hjk). look. rewrite decide_False by (intros [= ?]; lia). split_and!; done.
Qed.

Lemma direct_deliver_ok s l1 l2 pe i :
  direct_ok s → net s = l1 ++ (pe, i) :: l2 →
  direct_ok (mkB (<[(pe, i) := 1]> (psync s)) (l1 ++ l2) (pcs s) (entered s) (left s)).
Proof using Hstride Hn.
  intros Hok Hnet. pose proof (λ k, direct_bounds s k Hok) as Hb. destruct Hok as [[Hr1 Hr2] Hk]. split.
  - split; cbn [psync pcs entered left]; [done|]. destruct (pcs s PE_start) as [|j|j|j]; try done.
    destruct Hr2 as [Hj E1]. split; [done|]. destruct (decide ((pe, i) = (PE_start, j))) as [->|Hne].
    + apply fn_lookup_insert.
    + by rewrite fn_lookup_insert_ne.
  - intros k Hkn. specialize (Hb k Hkn). rewrite Hnet, !flying_remove in Hb. member_cases Hk k Hkn.
    rewrite Hnet, !flying_remove in *.
    pose proof (flying_nonneg (PE_start, k) (l1 ++ l2)). pose proof (flying_nonneg (at_ k, 0) (l1 ++ l2)).
    destruct (decide ((pe, i) = (PE_start, k))) as [[= -> ->]|Hn1].
    + rewrite decide_False in * by (intros [= ? ?]; lia). look. split_and!; try done; lia.
    + rewrite (fn_lookup_insert_ne _ _ (PE_start, k)) by done.
      destruct (decide ((pe, i) = (at_ k, 0))) as [[= -> ->]|Hn2].
      * look. split_and!; try done; try lia. 
        destruct (pcs s (at_ k)); try done; by split; [tauto|].
      * rewrite (fn_lookup_insert_ne _ _ (at_ k, 0)) by done. split_and!; done.
Qed.

Lemma direct_reachable s :
  rtc (bar_step PE_start stride n_pes (direct_advance PE_start stride n_pes)) bar_init s → direct_ok s.
Proof using Hstride Hn.
  revert s. apply rtc_invariant.
  - split; [split; cbn; done|]. intros k Hkn. unfold member_ok, flag_ok, announced, collected, sent. cbn.
    split_and!; done.
  - intros s s' [k s0 s1 Hk Ha|s0 l1 l2 pe i Hnet] Hok.
    + destruct (decide (k = 0)) as [->|Hk0].
      * rewrite pe_at_0 in Ha. by eapply direct_root_ok.
      * eapply direct_member_ok; [done| |done]. lia.
    + by apply direct_deliver_ok.
Qed.

(** No element leaves before all have entered. *)
Lemma direct_ok_barrier s j k :
  direct_ok s → 0 ≤ j < n_pes → 0 ≤ k < n_pes → left s (at_ j) ≤ entered s (at_ k).
Proof using Hstride Hn.
  intros Hok Hj Hk. pose proof (λ k, direct_bounds s k Hok) as Hb. destruct Hok as [[Hr1 Hr2] Hm].
  assert (left s (at_ j) ≤ entered s PE_start ∧ ∀ i, 1 ≤ i < n_pes → left s (at_ j) ≤ collected s i) as [H1 H2].
  { destruct (decide (j = 0)) as [->|Hj0].
    - rewrite pe_at_0. unfold collected, is_out in *. destruct (pcs s PE_start); split; intros;
        try case_match; lia.
    - destruct (Hm j ltac:(lia)) as [(? & ? & Ha & ?) _].
      pose proof (flying_nonneg (at_ j, 0) (net s)). unfold announced, collected in *.
      destruct (pcs s PE_start); split; intros; repeat case_match; lia. }
  destruct (decide (k = 0)) as [->|Hk0]; [by rewrite pe_at_0|].
  specialize (H2 k ltac:(lia)). specialize (Hb k ltac:(lia)). lia.
Qed.

(** ** The atomic barrier *)

(** How often the root has reset the counter. *)
Definition rounds (s : bstate) : Z :=
  match pcs s PE_start with
  | BWait _ | BClear _ => entered s PE_start - 1
  | _ => entered s PE_start
  end.

Definition members : list Z := seqZ 1 (n_pes - 1).

Definition atomic_root (s : bstate) : Prop :=
  left s PE_start = entered s PE_start - 1 + is_out (pcs s PE_start) ∧
  match pcs s PE_start with
  | BOut | BWait _ => True
  | BClear _ => psync s (PE_start, 0) = n_pes - 1
  | BSend i => 1 ≤ i ≤ n_pes
  end.

(** The counter holds the additions since the last reset. *)
Definition counter_ok (s : bstate) : Prop :=
  psync s (PE_start, 0) = zsum (λ k, sent s k - rounds s) members ∧
  ∀ k, 1 ≤ k < n_pes → rounds s ≤ sent s k.

Definition atomic_ok (s : bstate) : Prop :=
  atomic_root s ∧ (∀ k, 1 ≤ k < n_pes → member_ok s k) ∧ counter_ok s.

Lemma elem_of_members k : k ∈ members ↔ 1 ≤ k < n_pes.
Proof using. unfold members. rewrite elem_of_seqZ. lia. Qed.

Lemma atomic_bounds s k :
  atomic_ok s → 1 ≤ k < n_pes →
  announced s k ≤ rounds s ≤ sent s k ∧ sent s k ≤ rounds s + 1 ∧
  psync s (at_ k, 0) + flying (at_ k, 0) (net s) ≤ 1 ∧
  (pcs s (at_ k) = BSend 0 → sent s k = rounds s).
Proof using.
  intros (_ & Hm & _ & Hc) Hk. specialize (Hc k Hk). destruct (Hm k Hk) as (H1 & H2 & H3 & H4).
  pose proof (flying_nonneg (at_ k, 0) (net s)).
  assert (announced s k ≤ rounds s ≤ announced s k + 1).
  { unfold announced, rounds. destruct (pcs s PE_start); repeat case_match; lia. }
  unfold sent in *. destruct (pcs s (at_ k)); cbn [is_out] in *; split_and!; try done; lia.
Qed.

Lemma zsum_ext_in {A} (f g : A → Z) l : (∀ x, x ∈ l → f x = g x) → zsum f l = zsum g l.
Proof using. clear. induction l as [|x l IH]; intros Hl; cbn; [done|]. rewrite Hl, IH; set_solver. Qed.

Lemma zsum_bump (f g : Z → Z) d l k :
  NoDup l → k ∈ l → g k = f k + d → (∀ j, j ∈ l → j ≠ k → g j = f j) → zsum g l = zsum f l + d.
Proof using.
  clear. intros Hnd Hin Hk Hj. induction Hnd as [|x l Hx Hnd IH]; [set_solver|].
  cbn. destruct (decide (x = k)) as [->|Hne].
  - rewrite Hk, (zsum_ext_in g f); [lia|]. intros y Hy. apply Hj; [set_solver|]. by intros ->.
  - rewrite Hj, IH by set_solver. lia.
Qed.

Lemma zsum_const (c : Z) (l : list Z) : zsum (λ _, c) l = c * Z.of_nat (length l).
Proof using. clear. induction l as [|x l IH]; cbn [zsum length]; [lia|]. rewrite IH. lia. Qed.

(** When the counter is full everyone has added once in this round. *)
Lemma counter_full s k :
  atomic_ok s → psync s (PE_start, 0) = n_pes - 1 → 1 ≤ k < n_pes → sent s k = rounds s + 1.
Proof using Hn.
  intros Hok Hfull Hk. pose proof (atomic_bounds s k Hok Hk) as (? & ? & _).
  pose proof Hok as (_ & _ & Hc1 & Hc2).
  assert (zsum (λ k, 1 - (sent s k - rounds s)) members = 0) as Hz.
  { assert (∀ l, zsum (λ k, 1 - (sent s k - rounds s)) l =
      Z.of_nat (length l) - zsum (λ k, sent s k - rounds s) l) as Hl.
    { clear. induction l as [|x l IH]; cbn [zsum length]; [lia|]. rewrite IH. lia. }
    rewrite Hl, <- Hc1, Hfull. unfold members. rewrite length_seqZ. lia. }
  pose proof (zsum_zero (λ k, 1 - (sent s k - rounds s)) members) as Hall.
  assert (Forall (λ k, 0 ≤ 1 - (sent s k - rounds s)) members) as Hpos.
  { apply Forall_forall. intros j Hj%elem_of_members.
    pose proof (atomic_bounds s j Hok Hj). lia. }
  specialize (Hall Hpos ltac:(lia)). rewrite Forall_forall in Hall.
  specialize (Hall k ltac:(by apply elem_of_members)). cbn in Hall. lia.
Qed.

Lemma member_ok_frame s s' k :
  pcs s' (at_ k) = pcs s (at_ k) → entered s' (at_ k) = entered s (at_ k) →
  left s' (at_ k) = left s (at_ k) → psync s' (at_ k, 0) = psync s (at_ k, 0) →
  flying (at_ k, 0) (net s') = flying (at_ k, 0) (net s) → announced s' k = announced s k →
  member_ok s k → member_ok s' k.
Proof using. intros E1 E2 E3 E4 E5 E6. unfold member_ok. by rewrite E1, E2, E3, E4, E5, E6. Qed.

Lemma counter_ok_frame s s' :
  psync s' (PE_start, 0) = psync s (PE_start, 0) → rounds s' = rounds s →
  (∀ k, 1 ≤ k < n_pes → sent s' k = sent s k) → counter_ok s → counter_ok s'.
Proof using.
  intros E1 E2 E3 [H1 H2]. unfold counter_ok. rewrite E1, E2. split.
  - rewrite H1. apply zsum_ext_in. intros k Hk%elem_of_members. by rewrite E3.
  - intros k Hk. rewrite E3 by done. by apply H2.
Qed.

Lemma sent_frame s s' k :
  pcs s' (at_ k) = pcs s (at_ k) → entered s' (at_ k) = entered s (at_ k) → sent s' k = sent s k.
Proof using. intros E1 E2. unfold sent. by rewrite E1, E2. Qed.

Lemma atomic_root_ok s s' :
  atomic_ok s → atomic_advance PE_start stride n_pes PE_start s = Some s' → atomic_ok s'.
Proof using Hstride Hn.
  intros Hok Ha. pose proof (λ k, counter_full s k Hok) as Hall.
  destruct Hok as ([Hr1 Hr2] & Hm & Hc). unfold atomic_advance in Ha. rewrite Z.eqb_refl in Ha.
  assert (∀ k, 1 ≤ k < n_pes → PE_start ≠ at_ k) as Hne by (intros; apply pe_at_ne_root; lia).
  destruct (pcs s PE_start) as [|i|i|i] eqn:Epc; cbn [is_out] in Hr1.
  - injection Ha as <-. split_and!; [unfold atomic_root; look; cbn [is_out]; split; [lia|done]| |].
    + intros k Hkn. pose proof (Hne k Hkn). eapply member_ok_frame; [by look..| |by apply Hm].
      unfold announced. look. rewrite Epc. lia.
    + eapply counter_ok_frame; [by look| | |exact Hc].
      * unfold rounds. look. rewrite Epc. lia.
      * intros k Hk. pose proof (Hne k Hk). apply sent_frame; by look.
  - destruct (Z.eqb_spec (psync s (PE_start, 0)) (n_pes - 1)) as [E1|]; [|done]. injection Ha as <-.
    split_and!; [unfold atomic_root; by look| |].
    + intros k Hkn. pose proof (Hne k Hkn). eapply member_ok_frame; [by look..| |by apply Hm].
      unfold announced. look. by rewrite Epc.
    + eapply counter_ok_frame; [by look|unfold rounds; look; by rewrite Epc| |exact Hc].
      intros k Hk. pose proof (Hne k Hk). apply sent_frame; by look.
  - injection Ha as <-. split_and!; [unfold atomic_root; look; cbn [is_out]; lia| |].
    + intros k Hkn. pose proof (Hne k Hkn). eapply member_ok_frame; [by look..| |by apply Hm].
      unfold announced. look. rewrite Epc. case_match; lia.
    + assert (∀ k, 1 ≤ k < n_pes → sent s k = entered s PE_start) as Hsent.
      { intros k Hk. rewrite (Hall k Hr2 Hk). unfold rounds. rewrite Epc. lia. }
      unfold counter_ok, rounds, sent in *. look. split.
      * rewrite (zsum_ext_in _ (λ _, 0)), zsum_const; [lia|].
        intros k Hk%elem_of_members. pose proof (Hne k Hk). specialize (Hsent k Hk). look. lia.
      * intros k Hk. pose proof (Hne k Hk). specialize (Hsent k Hk). look. lia.
  - injection Ha as <-. destruct (Z.ltb_spec i n_pes) as [Hi|Hi].
    + split_and!; [unfold atomic_root; look; cbn [is_out]; lia| |].
      * intros k Hkn. pose proof (Hne k Hkn). destruct (decide (k = i)) as [->|Hki].
        { destruct (Hm i Hkn) as (M1 & M2 & M3 & M4). unfold member_ok, announced in *. look.
          rewrite Epc in *. rewrite flying_cons, decide_True by done.
          destruct (Z.ltb_spec i i), (Z.ltb_spec i (i + 1)); try lia. split_and!; try done; lia. }
        eapply member_ok_frame; [by look..| | |by apply Hm].
        { look. rewrite flying_cons, decide_False by (intros [= ?%pe_at_inj]; lia). done. }
        unfold announced. look. rewrite Epc. destruct (Z.ltb_spec k i), (Z.ltb_spec k (i + 1)); lia.
      * eapply counter_ok_frame; [by look|unfold rounds; look; by rewrite Epc| |exact Hc].
        intros k Hk. pose proof (Hne k Hk). apply sent_frame; by look.
    + split_and!; [unfold atomic_root; look; cbn [is_out]; split; [lia|done]| |].
      * intros k Hkn. pose proof (Hne k Hkn). eapply member_ok_frame; [by look..| |by apply Hm].
        unfold announced. look. rewrite Epc. destruct (Z.ltb_spec k i); lia.
      * eapply counter_ok_frame; [by look|unfold rounds; look; by rewrite Epc| |exact Hc].
        intros k Hk. pose proof (Hne k Hk). apply sent_frame; by look.
Qed.

Lemma counter_range s : atomic_ok s → 0 ≤ psync s (PE_start, 0) ≤ n_pes - 1.
Proof using Hn.
  intros Hok. pose proof Hok as (_ & _ & Hc1 & Hc2). rewrite Hc1. split.
  - apply zsum_nonneg, Forall_forall. intros k Hk%elem_of_members. specialize (Hc2 k Hk). lia.
  - transitivity (zsum (λ _ : Z, 1) members).
    + apply zsum_le, Forall_forall. intros k Hk%elem_of_members.
      pose proof (atomic_bounds s k Hok Hk). lia.
    + rewrite zsum_const. unfold members. rewrite length_seqZ. lia.
Qed.

(** A step of member [k], which adds [d] to the counter. *)
Lemma atomic_member_move s s' k d :
  atomic_ok s → 1 ≤ k < n_pes → 0 ≤ d → (0 < d → psync s (PE_start, 0) ≠ n_pes - 1) →
  psync s' (PE_start, 0) = psync s (PE_start, 0) + d → sent s' k = sent s k + d → net s' = net s →
  (∀ pe, pe ≠ at_ k → pcs s' pe = pcs s pe ∧ entered s' pe = entered s pe ∧ left s' pe = left s pe) →
  (∀ j, 1 ≤ j → j ≠ k → psync s' (at_ j, 0) = psync s (at_ j, 0)) →
  (announced s' k = announced s k → member_ok s' k) → atomic_ok s'.
Proof using Hstride Hn.
  intros ([R1 R2] & Hm & Hc1 & Hc2) Hkn Hd Hfull Ep Es En Eo Ej Hk.
  destruct (Eo PE_start (pe_at_ne_root k ltac:(lia))) as (E1 & E2 & E3).
  assert (∀ j, announced s' j = announced s j) as Ea by (intros; unfold announced; by rewrite E1, E2).
  assert (∀ j, j ≠ k → sent s' j = sent s j) as Esj.
  { intros j Hj. destruct (Eo (at_ j)) as (? & ? & _); [by intros ?%pe_at_inj|]. by apply sent_frame. }
  assert (rounds s' = rounds s) as Er by (unfold rounds; by rewrite E1, E2).
  split_and!.
  - unfold atomic_root. rewrite E1, E2, E3. split; [done|]. destruct (pcs s PE_start); try done.
    destruct (decide (d = 0)); [lia|]. by destruct Hfull; [lia|].
  - intros j Hj. destruct (decide (j = k)) as [->|Hjk]; [by apply Hk|].
    destruct (Eo (at_ j)) as (? & ? & ?); [by intros ?%pe_at_inj|].
    eapply member_ok_frame; [done..|apply Ej; lia|by rewrite En|by rewrite Ea|by apply Hm].
  - unfold counter_ok. rewrite Ep, Er. split.
    + rewrite Hc1. symmetry. apply (zsum_bump _ _ _ _ k); [apply NoDup_seqZ|by apply elem_of_members|lia|].
      intros j _ Hjk. by rewrite Esj.
    + intros j Hj. specialize (Hc2 j Hj). destruct (decide (j = k)) as [->|Hjk]; [lia|by rewrite Esj].
Qed.

Lemma atomic_member_ok s s' k :
  n_pes < 2 ^ 31 → atomic_ok s → 1 ≤ k < n_pes →
  atomic_advance PE_start stride n_pes (at_ k) s = Some s' → atomic_ok s'.
Proof using Hstride Hn.
  intros Hbig Hok Hkn Ha. pose proof (counter_range s Hok) as Hcr.
  pose proof (λ H, counter_full s k Hok H Hkn) as Hfull.
  destruct (atomic_bounds s k Hok Hkn) as (Hb1 & Hb2 & Hb3 & Hb4).
  destruct (proj1 (proj2 Hok) k Hkn) as (M1 & M2 & M3 & M4).
  pose proof (pe_at_ne_root k ltac:(lia)) as Hne0.
  assert (∀ j, j ≠ k → at_ j ≠ at_ k) as Hinj by (intros j Hj ?%pe_at_inj; lia).
  assert (∀ j, 1 ≤ j → PE_start ≠ at_ j) as Hne by (intros; by apply pe_at_ne_root).
  pose proof (flying_nonneg (at_ k, 0) (net s)) as Hfl.
  unfold atomic_advance in Ha. rewrite pe_at_root, (proj2 (Z.eqb_neq _ _)) in Ha by lia.
  destruct (pcs s (at_ k)) as [|i|i|i] eqn:Epc; cbn [is_out] in *; try subst i.
  4: { specialize (Hb4 eq_refl). rewrite swrap_small in Ha by lia. injection Ha as <-.
    apply (atomic_member_move s _ k 1); [done|done|lia|intros _ E; specialize (Hfull E); lia|by look| |done|..].
    - unfold sent in *. look. rewrite Epc. lia.
    - intros pe Hpe. by look.
    - intros j Hj Hjk. pose proof (Hne j Hj). by look.
    - intros Ea. unfold member_ok. rewrite Ea. look. cbn [is_out]. split_and!; try done; lia. }
  2: destruct (Z.eqb_spec (psync s (at_ k, 0)) 1) as [E1|]; [|done].
  all: injection Ha as <-.
  all: (apply (atomic_member_move s _ k 0); [done|done|lia|lia|look; lia| |done|..];
    [unfold sent; look; rewrite Epc; lia|intros pe Hpe; by look|
     intros j Hj Hjk; pose proof (Hinj j Hjk); by look|
     intros Ea; unfold member_ok; rewrite Ea; look; cbn [is_out]; split_and!; try done; lia]).
Qed.

Lemma atomic_deliver_ok s l1 l2 pe i :
  atomic_ok s → net s = l1 ++ (pe, i) :: l2 → (pe, i) ≠ (PE_start, 0) →
  atomic_ok (mkB (<[(pe, i) := 1]> (psync s)) (l1 ++ l2) (pcs s) (entered s) (left s)).
Proof using Hstride Hn.
  intros Hok Hnet Hroot. pose proof (λ k, atomic_bounds s k Hok) as Hb. destruct Hok as (Hr & Hm & Hc).
  split_and!.
  - unfold atomic_root in *. cbn [psync pcs entered left]. by rewrite fn_lookup_insert_ne.
  - intros k Hkn. specialize (Hb k Hkn). destruct (Hm k Hkn) as (M1 & M2 & M3 & M4).
    rewrite Hnet, flying_remove in M3, Hb. pose proof (flying_nonneg (at_ k, 0) (l1 ++ l2)).
    unfold member_ok. cbn [psync pcs entered left net].
    change (announced _ k) with (announced s k) at 1.
    destruct (decide ((pe, i) = (at_ k, 0))) as [[= -> ->]|Hne]; look.
    + split_and!; try done; try lia. destruct (pcs s (at_ k)); try done; by split; [tauto|].
    + split_and!; done.
  - eapply counter_ok_frame; [cbn; by rewrite fn_lookup_insert_ne|done|done|exact Hc].
Qed.

(** Only announcements are on their way. *)
Definition net_ok (s : bstate) : Prop := ∀ x, x ∈ net s → ∃ k, 1 ≤ k < n_pes ∧ x = (at_ k, 0).

Lemma atomic_net_ok s s' k :
  atomic_ok s → net_ok s → 0 ≤ k < n_pes →
  atomic_advance PE_start stride n_pes (at_ k) s = Some s' → net_ok s'.
Proof using Hstride Hn.
  intros (Hr & _) Hnet Hk Ha x. unfold atomic_advance in Ha. rewrite pe_at_root in Ha.
  destruct (Z.eqb_spec k 0) as [->|Hk0]; [rewrite pe_at_0 in Ha|].
  - destruct Hr as [_ Hr].
    destruct (pcs s PE_start) as [|i|i|i]; repeat case_match; simplify_eq; cbn; try apply Hnet.
    intros [->|Hx]%elem_of_cons; [|by apply Hnet]. exists i. apply Z.ltb_lt in H. split; [split; [apply Hr|exact H]|done].
  - destruct (pcs s (at_ k)) as [|i|i|i]; repeat case_match; simplify_eq; cbn; apply Hnet.
Qed.

Lemma atomic_reachable s :
  n_pes < 2 ^ 31 →
  rtc (bar_step PE_start stride n_pes (atomic_advance PE_start stride n_pes)) bar_init s →
  atomic_ok s ∧ net_ok s.
Proof using Hstride Hn.
  intros Hbig. revert s. apply (rtc_invariant _ (λ s, atomic_ok s ∧ net_ok s)).
  - split; [|intros x Hx; by apply not_elem_of_nil in Hx]. split_and!; [done| |].
    + intros k Hkn. unfold member_ok, announced. cbn. split_and!; done.
    + split; [|done]. unfold sent, rounds. cbn. unfold ROC_SHMEM_SYNC_VALUE. rewrite (zsum_ext_in _ (λ _, 0)), zsum_const; [lia|done].
  - intros s s' [k s0 s1 Hk Ha|s0 l1 l2 pe i Hnet] [Hok Hno].
    + split; [|by eapply atomic_net_ok]. destruct (decide (k = 0)) as [->|Hk0].
      * rewrite pe_at_0 in Ha. by eapply atomic_root_ok.
      * eapply atomic_member_ok; [done|done| |done]. lia.
    + destruct (Hno (pe, i)) as (k & Hk & Hx); [rewrite Hnet; set_solver|]. injection Hx as -> ->. split.
      * apply atomic_deliver_ok; [done|done|]. intros [= E]. by apply (pe_at_ne_root k); [lia|rewrite E].
      * intros x Hx. cbn in Hx. apply Hno. rewrite Hnet. set_solver.
Qed.

Lemma atomic_ok_barrier s j k :
  atomic_ok s → 0 ≤ j < n_pes → 0 ≤ k < n_pes → left s (at_ j) ≤ entered s (at_ k).
Proof using Hstride Hn.
  intros Hok Hj Hk. pose proof (λ k, atomic_bounds s k Hok) as Hb. destruct Hok as ([Hr1 _] & Hm & _).
  assert (left s (at_ j) ≤ rounds s ≤ entered s PE_start) as [H1 H2].
  { assert (rounds s ≤ entered s PE_start ∧ left s PE_start ≤ rounds s) as [? ?].
    { unfold rounds, is_out in *. destruct (pcs s PE_start); lia. }
    destruct (decide (j = 0)) as [->|Hj0]; [by rewrite pe_at_0|].
    destruct (Hm j ltac:(lia)) as (_ & _ & M3 & M4). specialize (Hb j ltac:(lia)).
    pose proof (flying_nonneg (at_ j, 0) (net s)). lia. }
  destruct (decide (k = 0)) as [->|Hk0]; [rewrite pe_at_0; lia|]. specialize (Hb k ltac:(lia)).
  unfold sent in Hb. case_match; lia.
Qed.

(** ** Progress *)

(** A step other than the entry into a barrier. *)
Definition moves (advance : Z → bstate → option bstate) (s : bstate) : Prop :=
  net s ≠ [] ∨ ∃ k, 0 ≤ k < n_pes ∧ pcs s (at_ k) ≠ BOut ∧ is_Some (advance (at_ k) s).

(** A member that is in the barrier moves, unless it waits for the root. *)
Lemma member_moves advance s k :
  (advance = direct_advance PE_start stride n_pes ∨ advance = atomic_advance PE_start stride n_pes) →
  1 ≤ k < n_pes → member_ok s k → pcs s (at_ k) ≠ BOut →
  moves advance s ∨ pcs s (at_ k) = BWait 0 ∧ psync s (at_ k, 0) ≠ 1.
Proof using Hstride Hn.
  intros Hadv Hk (_ & M2 & _) Hin.
  assert (is_Some (advance (at_ k) s) → moves advance s) as Hmv.
  { intros H. right. exists k. split; [lia|done]. }
  assert ((at_ k =? PE_start) = false) as Er by (rewrite pe_at_root; apply Z.eqb_neq; lia).
  destruct (pcs s (at_ k)) as [|i|i|i] eqn:E; [done| | |].
  - subst i. destruct (decide (psync s (at_ k, 0) = 1)) as [E1|]; [left|by right].
    apply Hmv. destruct Hadv as [-> | ->]; unfold direct_advance, atomic_advance; rewrite Er, E, E1; eauto.
  - left. apply Hmv. destruct Hadv as [-> | ->]; unfold direct_advance, atomic_advance; rewrite Er, E; eauto.
  - left. apply Hmv. destruct Hadv as [-> | ->]; unfold direct_advance, atomic_advance; rewrite Er, E; eauto.
Qed.

(** A root in the barrier moves, unless it waits for a flag. *)
Lemma root_moves advance s :
  (advance = direct_advance PE_start stride n_pes ∨ advance = atomic_advance PE_start stride n_pes) →
  pcs s PE_start ≠ BOut → (∀ i, pcs s PE_start = BWait i → is_Some (advance PE_start s)) →
  moves advance s.
Proof using Hn.
  intros Hadv Hin Hw. right. exists 0. rewrite pe_at_0. split; [lia|]. split; [done|].
  destruct (pcs s PE_start) as [|i|i|i] eqn:E; [done|by eapply Hw|..];
    destruct Hadv as [-> | ->]; unfold direct_advance, atomic_advance; rewrite Z.eqb_refl, E; eauto.
Qed.

(** After the announcements nobody waits for the root. *)
Lemma announced_moves advance s k e :
  (advance = direct_advance PE_start stride n_pes ∨ advance = atomic_advance PE_start stride n_pes) →
  net s = [] → pcs s PE_start = BOut → entered s PE_start = e → entered s (at_ k) = e →
  1 ≤ k < n_pes → member_ok s k → pcs s (at_ k) ≠ BOut → moves advance s.
Proof using Hstride Hn.
  intros Hadv En Ho He0 He Hk Hmk Hin.
  destruct (member_moves _ s k Hadv Hk Hmk Hin) as [|[Ew Ep]]; [done|].
  destruct Hmk as (M1 & _ & M3 & _). rewrite En, Ew in *. unfold announced in M3.
  rewrite Ho, He0 in M3. rewrite He in M1. cbn in M1, M3. lia.
Qed.

Lemma direct_progress s e :
  direct_ok s → (∀ k, 0 ≤ k < n_pes → entered s (at_ k) = e) →
  (∃ k, 0 ≤ k < n_pes ∧ pcs s (at_ k) ≠ BOut) → moves (direct_advance PE_start stride n_pes) s.
Proof using Hstride Hn.
  intros [[_ Hr] Hm] He (k & Hk & Hin).
  destruct (net s) as [|x l] eqn:En; [|left; by rewrite En].
  assert (∀ y, flying y (net s) = 0) as Hfl by (intros; by rewrite En).
  pose proof (He 0 ltac:(lia)) as He0. rewrite pe_at_0 in He0.
  destruct (decide (pcs s PE_start = BOut)) as [Ho|Ho].
  - assert (k ≠ 0) as Hk0 by (intros ->; by rewrite pe_at_0 in Hin).
    eapply announced_moves; [by left|done|done|done|by apply He|lia| |done]. apply Hm. lia.
  - destruct (pcs s PE_start) as [|i|i|i] eqn:Hi;
      [done| |apply root_moves; [by left|by rewrite Hi|intros j; by rewrite Hi]..].
 destruct (Hm i Hr) as [Hmi [F1 F2]].
    destruct (decide (pcs s (at_ i) = BSend 0)) as [Es|Es].
    + right. exists i. rewrite Es. split; [lia|]. split; [done|]. unfold direct_advance.
      rewrite pe_at_root, (proj2 (Z.eqb_neq _ _)), Es by lia. eauto.
    + apply root_moves; [by left|by rewrite Hi|]. intros i' Hi'. rewrite Hi in Hi'. injection Hi' as <-.
      unfold direct_advance. rewrite Z.eqb_refl, Hi. unfold sent, collected in F1.
      rewrite Hfl, Hi, Z.leb_refl, He0, (He i) in F1 by lia.
      destruct Hmi as (_ & M2 & _). destruct (pcs s (at_ i)); try by subst.
      all: replace (psync s (PE_start, i)) with 1 by lia; cbn; eauto.
Qed.

Lemma atomic_progress s e :
  atomic_ok s → (∀ k, 0 ≤ k < n_pes → entered s (at_ k) = e) →
  (∃ k, 0 ≤ k < n_pes ∧ pcs s (at_ k) ≠ BOut) → moves (atomic_advance PE_start stride n_pes) s.
Proof using Hstride Hn.
  intros (_ & Hm & Hc1 & Hc2) He (k & Hk & Hin).
  destruct (net s) as [|x l] eqn:En; [|left; by rewrite En].
  pose proof (He 0 ltac:(lia)) as He0. rewrite pe_at_0 in He0.
  destruct (pcs s PE_start) as [|i|i|i] eqn:Hi; [| |apply root_moves; [by right|by rewrite Hi|intros j; by rewrite Hi]..].
  - assert (k ≠ 0) as Hk0 by (intros ->; rewrite pe_at_0 in Hin; congruence).
    eapply announced_moves; [by right|done|done|done|by apply He|lia| |done]. apply Hm. lia.
  - destruct (decide (Exists (λ j, pcs s (at_ j) = BSend 0) members)) as [Hex|Hno].
    + apply Exists_exists in Hex as (j & Hj%elem_of_members & Es).
      right. exists j. rewrite Es. split; [lia|]. split; [done|]. unfold atomic_advance.
      rewrite pe_at_root, (proj2 (Z.eqb_neq _ _)), Es by lia. eauto.
    + apply root_moves; [by right|by rewrite Hi|]. intros _ _.
      unfold atomic_advance. rewrite Z.eqb_refl, Hi.
      replace (psync s (PE_start, 0)) with (n_pes - 1); [rewrite Z.eqb_refl; eauto|].
      rewrite Hc1, (zsum_ext_in _ (λ _, 1)), zsum_const.
      { unfold members. rewrite length_seqZ. lia. }
      intros j Hj. apply not_Exists_Forall in Hno; [|apply _]. rewrite Forall_forall in Hno.
      specialize (Hno j Hj). apply elem_of_members in Hj. cbn in Hno.
      unfold sent, rounds. rewrite Hi, He0, (He j) by lia. destruct (Hm j Hj) as (_ & M2 & _).
      destruct (pcs s (at_ j)); try lia. by subst.
Qed.

(** ** The barrier that is used *)

Abbreviation sync_advance := (internal_sync_advance PE_start stride n_pes).

Lemma bar_step_ext advance advance' s s' :
  (∀ pe s, advance pe s = advance' pe s) →
  bar_step PE_start stride n_pes advance s s' → bar_step PE_start stride n_pes advance' s s'.
Proof using. intros E [k s0 s1 Hk Ha|]; [|by constructor]. rewrite E in Ha. by econstructor. Qed.

Lemma sync_cases s :
  n_pes < 2 ^ 31 → rtc (bar_step PE_start stride n_pes sync_advance) bar_init s →
  direct_ok s ∧ (∀ pe s, sync_advance pe s = direct_advance PE_start stride n_pes pe s) ∨
  atomic_ok s ∧ (∀ pe s, sync_advance pe s = atomic_advance PE_start stride n_pes pe s).
Proof using Hstride Hn.
  intros Hbig Hr.
  assert (∀ adv, (∀ pe s, sync_advance pe s = adv pe s) →
    rtc (bar_step PE_start stride n_pes adv) bar_init s) as Hadv.
  { intros adv E. eapply (rtc_subrel _ _ _ _ (λ x y, bar_step_ext _ _ x y E)), Hr. }
  unfold internal_sync_advance in *. destruct (n_pes <? 64).
  - left. split; [|done]. by apply direct_reachable, Hadv.
  - right. split; [|done]. by apply atomic_reachable, Hadv.
Qed.

(** C11: [internal_sync] is a barrier: through any number of barriers with the
    same flags, with every interleaving of the elements and of the flags on
    their way, no element has left a barrier that another one has not entered
    yet. *)
Theorem sync_barrier s j k :
  n_pes < 2 ^ 31 → rtc (bar_step PE_start stride n_pes sync_advance) bar_init s →
  0 ≤ j < n_pes → 0 ≤ k < n_pes →
  left s (pe_at PE_start stride j) ≤ entered s (pe_at PE_start stride k).
Proof using Hstride Hn.
  intros Hbig Hr Hj Hk. destruct (sync_cases s Hbig Hr) as [[Hok _]|[Hok _]].
  - by apply direct_ok_barrier.
  - by apply atomic_ok_barrier.
Qed.

(** C32: [internal_sync] does not block: when all elements have entered the
    barrier and one has not left it, then a flag is on its way or an element
    inside can take its next step. *)
Theorem sync_progress s e :
  n_pes < 2 ^ 31 → rtc (bar_step PE_start stride n_pes sync_advance) bar_init s →
  (∀ k, 0 ≤ k < n_pes → entered s (pe_at PE_start stride k) = e) →
  (∃ k, 0 ≤ k < n_pes ∧ pcs s (pe_at PE_start stride k) ≠ BOut) → moves sync_advance s.
Proof using Hstride Hn.
  intros Hbig Hr He Hin.
  assert (∀ adv, (∀ pe s, sync_advance pe s = adv pe s) → moves adv s → moves sync_advance s) as Hadv.
  { intros adv E [|(k & ? & ? & ?)]; [by left|right]. exists k. by rewrite E. }
  destruct (sync_cases s Hbig Hr) as [[Hok E]|[Hok E]]; apply (Hadv _ E).
  - by eapply direct_progress.
  - by eapply atomic_progress.
Qed.
End invariant.

(** ** Three elements, the ranks 4, 6 and 8 *)

(** Steps of the numbered members; [None] delivers the oldest flag. *)
Fixpoint bar_run (sched : list (option Z)) (s : bstate) : option bstate :=
  match sched with
  | [] => Some s
  | Some k :: sched' => s' ← internal_sync_advance 4 2 3 (pe_at 4 2 k) s; bar_run sched' s'
  | None :: sched' =>
      x ← last (net s);
      bar_run sched' (mkB (<[x := 1]> (psync s)) (take (length (net s) - 1) (net s)) (pcs s)
                        (entered s) (left s))
  end.

Lemma bar_run_steps sched : ∀ s s',
  Forall (λ o, match o with Some k => 0 ≤ k < 3 | None => True end) sched →
  bar_run sched s = Some s' → rtc (bar_step 4 2 3 (internal_sync_advance 4 2 3)) s s'.
Proof.
  induction sched as [|[k|] sched IH]; intros s s' Hall Hr.
  - injection Hr as <-. apply rtc_refl.
  - apply Forall_cons in Hall as [Hk Hall]. cbn [bar_run] in Hr. destruct (internal_sync_advance 4 2 3 (pe_at 4 2 k) s) as [s1|] eqn:E; [cbn in Hr|done].
    eapply rtc_l; [by eapply bar_pe|]. by apply IH.
  - apply Forall_cons in Hall as [_ Hall]. cbn [bar_run] in Hr. destruct (last (net s)) as [[pe i]|] eqn:E; [cbn [mbind option_bind] in Hr|done].
    apply last_Some in E as [l El]. rewrite El, length_app, Nat.add_sub, take_app_length in Hr.
    eapply rtc_l; [|by apply IH; [|exact Hr]].
    pose proof (bar_deliver 4 2 3 (internal_sync_advance 4 2 3) s l [] pe i El) as Hd.
    by rewrite app_nil_r in Hd.
Qed.

(** All enter and send; the root announces; the last member has left. *)
Definition bar_sched : list (option Z) :=
  [Some 0; Some 2; Some 2; Some 1; Some 1; None; None; Some 0; Some 0; Some 0; Some 0;
   Some 0; Some 0; None; None; Some 2; Some 2].
Definition bar_reached : bstate := default bar_init (bar_run bar_sched bar_init).

Lemma bar_reached_ok : rtc (bar_step 4 2 3 (internal_sync_advance 4 2 3)) bar_init bar_reached.
Proof.
  apply (bar_run_steps bar_sched); [repeat constructor; lia|].
  unfold bar_reached. destruct (bar_run bar_sched bar_init) eqn:E; [done|].
  apply (f_equal (λ o, match o with Some _ => true | None => false end)) in E. vm_compute in E. done.
Qed.

Lemma sync_barrier_witness :
  left bar_reached 8 = 1 ∧ left bar_reached (pe_at 4 2 2) ≤ entered bar_reached (pe_at 4 2 1).
Proof.
  split; [reflexivity|].
  apply (sync_barrier 4 2 3 ltac:(lia) ltac:(lia) bar_reached 2 1); [lia|apply bar_reached_ok|lia|lia].
Defined.

Lemma sync_progress_witness : moves 4 2 3 (internal_sync_advance 4 2 3) bar_reached.
Proof.
  apply (sync_progress 4 2 3 ltac:(lia) ltac:(lia) bar_reached 1); [lia|apply bar_reached_ok| |].
  - intros k Hk. assert (k = 0 ∨ k = 1 ∨ k = 2) as [-> | [-> | ->]] by lia; reflexivity.
  - exists 1. split; [lia|]. vm_compute. discriminate.
Defined.
