(* ===== verification/Onesided.v ===== *)
(** * One-sided transfers and barriers

    The collectives of the InfiniBand backend are programs of puts, gets, quiets
    and barriers that every element of a team runs.  Here such programs run
    concurrently: transfers complete at any time before the quiet that waits for
    them, in any order, and the elements proceed independently between barriers.
    The main lemma says when the outcome does not depend on the interleaving.
    The barrier step is the one that [Barrier.v] justifies. *)
From stdpp Require Import functions.
From S2P Require Import Prelude.

Local Open Scope Z_scope.

(** ** Memory and transfers *)

(** The buffers of a collective. *)
Inductive buffer := Dst | Src | PAta | PAta2 | PWrk.

#[export] Instance buffer_eq_dec : EqDecision buffer.
Proof. solve_decision. Defined.

(** A transfer of [mv_n] elements from one element's buffer to another's. *)
Record move := mkMove {
  mv_from : Z;
  mv_src : buffer;
  mv_si : Z;
  mv_to : Z;
  mv_dst : buffer;
  mv_di : Z;
  mv_n : Z
}.

#[export] Instance move_eq_dec : EqDecision move.
Proof. solve_decision. Defined.

Definition reads (mv : move) (p : Z) (a : buffer) (i : Z) : Prop :=
  p = mv_from mv ∧ a = mv_src mv ∧ mv_si mv ≤ i < mv_si mv + mv_n mv.
Definition writes (mv : move) (p : Z) (a : buffer) (i : Z) : Prop :=
  p = mv_to mv ∧ a = mv_dst mv ∧ mv_di mv ≤ i < mv_di mv + mv_n mv.

#[export] Instance reads_dec mv p a i : Decision (reads mv p a i).
Proof. unfold reads. apply _. Defined.
#[export] Instance writes_dec mv p a i : Decision (writes mv p a i).
Proof. unfold writes. apply _. Defined.

(** Neither writes what the other uses. *)
Definition independent (x y : move) : Prop :=
  ∀ p a i, (writes x p a i → ¬ reads y p a i ∧ ¬ writes y p a i) ∧
           (writes y p a i → ¬ reads x p a i).

Section memory.
Context {V : Type}.

(** By element, buffer and index. *)
Definition memory : Type := Z → buffer → Z → V.

Definition same_memory (m m' : memory) : Prop := ∀ p a i, m p a i = m' p a i.

#[export] Instance same_memory_equiv : Equivalence same_memory.
Proof.
  split.
  - by intros m p a i.
  - intros m m' H p a i. by rewrite H.
  - intros m m' m'' H H' p a i. by rewrite H, H'.
Qed.

Definition exec (m : memory) (mv : move) : memory := λ p a i,
  if decide (writes mv p a i) then m (mv_from mv) (mv_src mv) (mv_si mv + (i - mv_di mv))
  else m p a i.

#[export] Instance exec_proper : Proper (same_memory ==> eq ==> same_memory) exec.
Proof. intros m m' H mv _ <- p a i. unfold exec. case_decide; apply H. Qed.

Definition exec_all (m : memory) (l : list move) : memory := foldl exec m l.

#[export] Instance exec_all_proper : Proper (same_memory ==> eq ==> same_memory) exec_all.
Proof.
  intros m m' H l _ <-. revert m m' H. induction l as [|mv l IH]; intros m m' H; cbn; [done|].
  apply IH. by rewrite H.
Qed.

Lemma exec_all_app m l1 l2 : exec_all m (l1 ++ l2) = exec_all (exec_all m l1) l2.
Proof. apply foldl_app. Qed.

Lemma exec_comm m x y : independent x y → same_memory (exec (exec m x) y) (exec (exec m y) x).
Proof.
  intros Hi p a i. unfold exec. destruct (Hi p a i) as [H1 H2].
  assert (writes x p a i → ¬ writes y (mv_from x) (mv_src x) (mv_si x + (i - mv_di x))) as Hx.
  { intros (_ & _ & Hw) Hy. destruct (Hi (mv_from x) (mv_src x) (mv_si x + (i - mv_di x))) as [_ H].
    apply (H Hy). unfold reads. split; [done|]. split; [done|lia]. }
  assert (writes y p a i → ¬ writes x (mv_from y) (mv_src y) (mv_si y + (i - mv_di y))) as Hy.
  { intros (_ & _ & Hw) Hx'. destruct (Hi (mv_from y) (mv_src y) (mv_si y + (i - mv_di y))) as [H _].
    destruct (H Hx') as [Hr _]. apply Hr. unfold reads. split; [done|]. split; [done|lia]. }
  destruct (decide (writes y p a i)) as [Wy|Wy], (decide (writes x p a i)) as [Wx|Wx].
  - by destruct (H1 Wx).
  - rewrite decide_False by auto. done.
  - rewrite decide_False by auto. done.
  - done.
Qed.

Lemma exec_front m x l :
  Forall (λ y, independent y x) l → same_memory (exec_all m (l ++ [x])) (exec_all m (x :: l)).
Proof.
  revert m. induction l as [|y l IH]; intros m Hl; [done|]. apply Forall_cons in Hl as [Hy Hl].
  cbn. rewrite (IH _ Hl). cbn. by rewrite exec_comm.
Qed.

(** ** Reordering *)

(** [a] comes before [b]. *)
Definition ordered (l : list move) (a b : move) : Prop :=
  ∃ l1 l2, l = l1 ++ l2 ∧ a ∈ l1 ∧ b ∈ l2.

Lemma ordered_cons x l a b : ordered l a b → ordered (x :: l) a b.
Proof. intros (l1 & l2 & -> & Ha & Hb). exists (x :: l1), l2. set_solver. Qed.

Lemma ordered_remove t1 t2 c a b :
  c ≠ a → c ≠ b → ordered (t1 ++ c :: t2) a b → ordered (t1 ++ t2) a b.
Proof.
  intros Ha Hb (u1 & u2 & E & Hu1 & Hu2). apply app_eq_app in E as (k & [[-> E]|[-> E]]).
  - subst u2. exists u1, (k ++ t2). rewrite <- app_assoc. set_solver.
  - destruct k as [|d k]; cbn in E.
    + subst u2. exists t1, t2. set_solver.
    + injection E as <- ->. exists (t1 ++ k), u2. rewrite <- app_assoc. set_solver.
Qed.

Lemma ordered_not_before t1 t2 a b : NoDup (t1 ++ a :: t2) → b ∈ t1 → ¬ ordered (t1 ++ a :: t2) a b.
Proof.
  intros Hnd Hb (u1 & u2 & E & Hu1 & Hu2). rewrite E in Hnd. apply NoDup_app in Hnd as (_ & Hd & _).
  apply app_eq_app in E as (k & [[-> E]|[-> E]]).
  - assert (a ∈ u2) by (rewrite E; set_solver). by apply (Hd a).
  - apply (Hd b); set_solver.
Qed.

(** Orders that agree on the dependent pairs have the same effect. *)
Lemma exec_reorder L : ∀ tr m,
  L ≡ₚ tr → NoDup L → (∀ a b, ordered L a b → independent a b ∨ ordered tr a b) →
  same_memory (exec_all m tr) (exec_all m L).
Proof.
  induction L as [|x L IH]; intros tr m Hp Hnd Ho.
  - apply Permutation_nil_l in Hp as ->. done.
  - assert (x ∈ tr) as Hx by (rewrite <- Hp; set_solver).
    apply list_elem_of_split in Hx as (t1 & t2 & ->).
    assert (NoDup (t1 ++ x :: t2)) as Hnd2 by by rewrite <- Hp.
    apply NoDup_cons in Hnd as [HxL HndL].
    assert (L ≡ₚ t1 ++ t2) as Hp2.
    { apply (Permutation_cons_inv (a := x)). rewrite Hp. symmetry. apply Permutation_middle. }
    change (x :: t2) with ([x] ++ t2). rewrite app_assoc, exec_all_app, exec_front.
    2: { apply Forall_forall. intros b Hb. destruct (Ho x b) as [Hi|Hor].
         - exists [x], L. split; [done|]. split; [set_solver|]. rewrite Hp2. set_solver.
         - intros p a i. destruct (Hi p a i) as [H1 H2]. split; [|naive_solver].
           intros Hw. split; [by apply H2|]. intros Hw'. by destruct (H1 Hw').
         - exfalso. by eapply ordered_not_before. }
    cbn. rewrite <- exec_all_app. apply IH; [done|done|].
    intros a b Hab. destruct (Ho a b) as [|Hor]; [by apply ordered_cons|by left|right].
    destruct Hab as (l1 & l2 & -> & Ha & Hb).
    apply (ordered_remove _ _ x); [set_solver..|done].
Qed.
End memory.
Arguments memory : clear implicits.

(** ** Programs *)

(** Start a transfer; wait for the own transfers with one peer, or for all of
    them; the barrier of all elements. *)
Inductive op := OMove (mv : move) | OQuiet (target : option Z) | OSync.

Definition moves (l : list op) : list move :=
  omap (λ o, match o with OMove mv => Some mv | _ => None end) l.
Fixpoint syncs (l : list op) : nat :=
  match l with [] => O | OSync :: l' => S (syncs l') | _ :: l' => syncs l' end.

(** The peer of a transfer that [p] started, and the transfers a quiet of [p]
    waits for. *)
Definition peer (p : Z) (mv : move) : Z := if mv_to mv =? p then mv_from mv else mv_to mv.
Definition covers (t : option Z) (p : Z) (mv : move) : Prop :=
  match t with None => True | Some q => peer p mv = q end.

Lemma moves_app l1 l2 : moves (l1 ++ l2) = moves l1 ++ moves l2.
Proof. apply omap_app. Qed.

Lemma elem_of_moves mv l : mv ∈ moves l ↔ OMove mv ∈ l.
Proof.
  unfold moves. rewrite list_elem_of_omap. split.
  - intros ([] & Ho & [= ->]). done.
  - intros H. by exists (OMove mv).
Qed.

Lemma syncs_app l1 l2 : syncs (l1 ++ l2) = (syncs l1 + syncs l2)%nat.
Proof. induction l1 as [|[] l1 IH]; cbn; [done|done|done|by rewrite IH]. Qed.

(** A transfer that occurs once has one place. *)
Lemma move_place b u1 z1 u2 z2 :
  NoDup (moves (u1 ++ OMove b :: z1)) → u1 ++ OMove b :: z1 = u2 ++ OMove b :: z2 → u1 = u2.
Proof.
  revert u2. induction u1 as [|o u1 IH]; intros [|o2 u2] Hnd E; cbn in E.
  - done.
  - injection E as <- E. cbn in Hnd. rewrite E in Hnd. apply NoDup_cons in Hnd as [Hn _].
    destruct Hn. apply elem_of_moves. set_solver.
  - injection E as -> E. cbn in Hnd. apply NoDup_cons in Hnd as [Hn _].
    destruct Hn. apply elem_of_moves. set_solver.
  - injection E as -> E. f_equal. apply IH; [|done].
    destruct o2; cbn in Hnd; [by apply NoDup_cons in Hnd as [_ ?]|done..].
Qed.

Section machine.
Context {V : Type} (n_pes : Z).

Record mstate := mkState {
  progs : Z → list op;
  pend : Z → list move;
  mem : memory V;
  completed : list move
}.

Definition pes : list Z := seqZ 0 n_pes.

Inductive mstep : mstate → mstate → Prop :=
  | step_start p s mv k :
      p ∈ pes → progs s p = OMove mv :: k →
      mstep s (mkState (<[p := k]> (progs s)) (<[p := pend s p ++ [mv]]> (pend s)) (mem s) (completed s))
  | step_complete p s l1 mv l2 :
      p ∈ pes → pend s p = l1 ++ mv :: l2 →
      mstep s (mkState (progs s) (<[p := l1 ++ l2]> (pend s)) (exec (mem s) mv) (completed s ++ [mv]))
  | step_quiet p s t k :
      p ∈ pes → progs s p = OQuiet t :: k → (∀ mv, mv ∈ pend s p → ¬ covers t p mv) →
      mstep s (mkState (<[p := k]> (progs s)) (pend s) (mem s) (completed s))
  | step_sync s :
      (∀ p, p ∈ pes → ∃ k, progs s p = OSync :: k) →
      mstep s (mkState (λ p, if decide (p ∈ pes) then tail (progs s p) else progs s p)
                       (pend s) (mem s) (completed s)).

Definition minit (P : Z → list op) (m : memory V) : mstate := mkState P (λ _, []) m [].

Definition finished (s : mstate) : Prop := ∀ p, p ∈ pes → progs s p = [] ∧ pend s p = [].

(** All transfers of a team's programs. *)
Definition all_moves (P : Z → list op) : list move := concat ((λ p, moves (P p)) <$> pes).

(** The synchronisation of the programs puts the transfer [a] before [b]: the
    element that starts [a] waits for it, and then starts [b], or takes part in a
    barrier that the element which starts [b] passes before. *)
Definition before (P : Z → list op) (a b : move) : Prop :=
  ∃ p q x t y u z, p ∈ pes ∧ q ∈ pes ∧ P p = x ++ OQuiet t :: y ∧ a ∈ moves x ∧ covers t p a ∧
    P q = u ++ OMove b :: z ∧
    ((p = q ∧ (length x < length u)%nat) ∨ (syncs x < syncs u)%nat).

Section run.
Context (P : Z → list op) (m0 : memory V) (Hnd : NoDup (all_moves P)).

Record minv (s : mstate) (c : Z → list op) : Prop := {
  mi_mem : same_memory (mem s) (exec_all m0 (completed s));
  mi_prog : ∀ p, p ∈ pes → P p = c p ++ progs s p;
  mi_perm : completed s ++ concat (pend s <$> pes) ≡ₚ concat ((λ p, moves (c p)) <$> pes);
  mi_pend : ∀ p mv, p ∈ pes → mv ∈ moves (c p) → mv ∈ completed s ∨ mv ∈ pend s p;
  mi_quiet : ∀ p x t y mv, p ∈ pes → c p = x ++ OQuiet t :: y → mv ∈ moves x → covers t p mv →
    mv ∈ completed s;
  mi_sync : ∀ p q, p ∈ pes → q ∈ pes → syncs (c p) = syncs (c q);
  mi_started : ∀ p a b, p ∈ pes → b ∈ pend s p → before P a b → a ∈ completed s;
  mi_order : ∀ a b, b ∈ completed s → before P a b → ordered (completed s) a b
}.

Lemma concat_update (f g : Z → list move) p x (l : list Z) :
  NoDup l → p ∈ l → g p ≡ₚ x ++ f p → (∀ q, q ≠ p → g q = f q) →
  concat (g <$> l) ≡ₚ x ++ concat (f <$> l).
Proof.
  intros Hl Hin Hp Hq. induction Hl as [|q l Hql Hl IH]; [set_solver|]. cbn.
  destruct (decide (q = p)) as [->|Hne].
  - rewrite Hp. assert (g <$> l = f <$> l) as ->; [|solve_Permutation].
    apply list_fmap_ext. intros i y Hy. apply Hq. intros ->. apply Hql. by eapply list_elem_of_lookup_2.
  - rewrite (Hq q Hne), IH by set_solver. solve_Permutation.
Qed.

Lemma pes_nodup : NoDup pes.
Proof. apply NoDup_seqZ. Qed.

Lemma moves_nodup p : p ∈ pes → NoDup (moves (P p)).
Proof.
  intros Hp. pose proof Hnd as Hn. unfold all_moves in Hn.
  apply list_elem_of_split in Hp as (l1 & l2 & E). rewrite E, fmap_app, concat_app in Hn. cbn in Hn.
  apply NoDup_app in Hn as (_ & _ & H). by apply NoDup_app in H as (H & _).
Qed.

Lemma moves_owner p q b :
  p ∈ pes → q ∈ pes → b ∈ moves (P p) → b ∈ moves (P q) → p = q.
Proof.
  intros Hp Hq Hbp Hbq. destruct (decide (p = q)) as [|Hne]; [done|]. exfalso.
  pose proof Hnd as Hn. unfold all_moves in Hn. revert Hp Hq Hn. generalize pes as l.
  induction l as [|r l IH]; intros Hp Hq Hn; [set_solver|]. cbn in Hn.
  apply NoDup_app in Hn as (_ & Hd & Hn).
  assert (∀ r', r' ∈ l → b ∈ moves (P r') → b ∈ concat ((λ p, moves (P p)) <$> l)) as Hin.
  { intros r' Hr' Hb. apply list_elem_of_In, in_concat. exists (moves (P r')).
    split; [|by apply list_elem_of_In]. apply list_elem_of_In, list_elem_of_fmap. eauto. }
  apply elem_of_cons in Hp as [->|Hp]; apply elem_of_cons in Hq as [->|Hq]; [done| | |by apply IH].
  - by apply (Hd b Hbp), (Hin q).
  - by apply (Hd b Hbq), (Hin p).
Qed.

(** What is put before a transfer has completed when it starts. *)
Lemma started_before s c p a b k :
  minv s c → p ∈ pes → progs s p = OMove b :: k → before P a b → a ∈ completed s.
Proof.
  intros Hi Hp Hk (p' & q & x & t & y & u & z & Hp' & Hq & Ex & Ha & Hc & Eb & Hor).
  pose proof (mi_prog _ _ Hi p Hp) as Ep. rewrite Hk in Ep.
  assert (p = q) as <-.
  { apply (moves_owner p q b); [done..| |]; apply elem_of_moves; rewrite ?Ep, ?Eb; set_solver. }
  assert (u = c p) as ->.
  { apply (move_place b _ z _ k); [rewrite <- Eb; by apply moves_nodup|congruence]. }
  destruct Hor as [[-> Hlen]|Hsy].
  - rewrite Ex in Ep. apply app_eq_app in Ep as (w & [[-> Ew]|[Ew Ey]]).
    + rewrite length_app in Hlen. lia.
    + destruct w as [|o w]; [rewrite Ew, app_nil_r in Hlen; lia|]. injection Ey as <- ->.
      eapply (mi_quiet _ _ Hi); [exact Hp|exact Ew|done|done].
  - rewrite (mi_sync _ _ Hi p p' Hp Hp') in Hsy. pose proof (mi_prog _ _ Hi p' Hp') as Ep'.
    rewrite Ex in Ep'. apply app_eq_app in Ep' as (w & [[-> Ew]|[Ew Ey]]).
    + rewrite syncs_app in Hsy. lia.
    + destruct w as [|o w]; [rewrite Ew, app_nil_r in Hsy; lia|]. injection Ey as <- ->.
      eapply (mi_quiet _ _ Hi); [exact Hp'|exact Ew|done|done].
Qed.

Lemma ordered_snoc l a b x : ordered l a b → ordered (l ++ [x]) a b.
Proof. intros (l1 & l2 & -> & Ha & Hb). exists l1, (l2 ++ [x]). rewrite <- app_assoc. set_solver. Qed.

(** Consuming an operation other than a start. *)
Lemma snoc_quiet (c x y : list op) t o :
  c ++ [o] = x ++ OQuiet t :: y → (o = OQuiet t ∧ x = c ∧ y = []) ∨ ∃ y', c = x ++ OQuiet t :: y'.
Proof.
  intros E. destruct y as [|o' y _] using rev_ind.
  - apply app_inj_tail in E as [-> ->]. by left.
  - rewrite app_comm_cons, app_assoc in E. apply app_inj_tail in E as [-> _]. right. by exists y.
Qed.

Lemma minv_start s c p mv k :
  minv s c → p ∈ pes → progs s p = OMove mv :: k →
  minv (mkState (<[p := k]> (progs s)) (<[p := pend s p ++ [mv]]> (pend s)) (mem s) (completed s))
    (<[p := c p ++ [OMove mv]]> c).
Proof.
  intros Hi Hp Hk. split; cbn.
  - apply (mi_mem _ _ Hi).
  - intros q Hq. destruct (decide (p = q)) as [<-|Hne].
    + rewrite !fn_lookup_insert, <- app_assoc. cbn. rewrite <- Hk. by apply (mi_prog _ _ Hi).
    + rewrite !fn_lookup_insert_ne by done. by apply (mi_prog _ _ Hi).
  - rewrite (concat_update (pend s) (<[p := pend s p ++ [mv]]> (pend s)) p [mv]); [|apply pes_nodup|done| |].
    2: { rewrite fn_lookup_insert. solve_Permutation. }
    2: { intros q Hq. by apply fn_lookup_insert_ne. }
    rewrite (concat_update (λ p, moves (c p)) (λ q, moves (<[p := c p ++ [OMove mv]]> c q)) p [mv]); [|apply pes_nodup|done| |].
    2: { rewrite fn_lookup_insert, moves_app. cbn. solve_Permutation. }
    2: { intros q Hq. by rewrite fn_lookup_insert_ne. }
    rewrite <- (mi_perm _ _ Hi). solve_Permutation.
  - intros q b Hq. destruct (decide (p = q)) as [<-|Hne].
    + rewrite !fn_lookup_insert, moves_app. cbn. intros [Hb|Hb]%elem_of_app; [|set_solver].
      destruct (mi_pend _ _ Hi p b Hq Hb); set_solver.
    + rewrite !fn_lookup_insert_ne by done. by apply (mi_pend _ _ Hi).
  - intros q x t y b Hq. destruct (decide (p = q)) as [<-|Hne].
    + rewrite fn_lookup_insert. intros [(? & _)|[y' E]]%snoc_quiet; [done|]. by eapply (mi_quiet _ _ Hi).
    + rewrite fn_lookup_insert_ne by done. by apply (mi_quiet _ _ Hi).
  - intros q r Hq Hr.
    assert (∀ q, syncs (<[p := c p ++ [OMove mv]]> c q) = syncs (c q)) as E.
    { intros q'. destruct (decide (p = q')) as [<-|Hne]; [|by rewrite fn_lookup_insert_ne].
      rewrite fn_lookup_insert, syncs_app. cbn. lia. }
    rewrite !E. by apply (mi_sync _ _ Hi).
  - intros q a b Hq. destruct (decide (p = q)) as [<-|Hne].
    + rewrite fn_lookup_insert. intros [Hb|Hb%list_elem_of_singleton]%elem_of_app Hab.
      * by eapply (mi_started _ _ Hi).
      * subst b. by eapply started_before.
    + rewrite fn_lookup_insert_ne by done. by apply (mi_started _ _ Hi).
  - apply (mi_order _ _ Hi).
Qed.

Lemma minv_complete s c p l1 mv l2 :
  minv s c → p ∈ pes → pend s p = l1 ++ mv :: l2 →
  minv (mkState (progs s) (<[p := l1 ++ l2]> (pend s)) (exec (mem s) mv) (completed s ++ [mv])) c.
Proof.
  intros Hi Hp Hl. split; cbn.
  - unfold exec_all. rewrite foldl_snoc. by rewrite (mi_mem _ _ Hi).
  - apply (mi_prog _ _ Hi).
  - rewrite <- (mi_perm _ _ Hi), <- app_assoc. f_equiv.
    symmetry. apply (concat_update _ (pend s) p [mv]); [apply pes_nodup|done| |].
    + rewrite fn_lookup_insert, Hl. solve_Permutation.
    + intros q Hq. by rewrite fn_lookup_insert_ne.
  - intros q b Hq Hb. destruct (mi_pend _ _ Hi q b Hq Hb) as [|Hpe]; [set_solver|].
    destruct (decide (p = q)) as [<-|Hne]; [|rewrite fn_lookup_insert_ne by done; by right].
    rewrite fn_lookup_insert. rewrite Hl in Hpe. set_solver.
  - intros q x t y b Hq E Hb Hcv. apply elem_of_app. left. by eapply (mi_quiet _ _ Hi).
  - apply (mi_sync _ _ Hi).
  - intros q a b Hq Hb Hab. apply elem_of_app. left.
    destruct (decide (p = q)) as [<-|Hne]; [|rewrite fn_lookup_insert_ne in Hb by done; by eapply (mi_started _ _ Hi)].
    rewrite fn_lookup_insert in Hb. eapply (mi_started _ _ Hi p a b); [done| |done]. rewrite Hl. set_solver.
  - intros a b [Hb|Hb%list_elem_of_singleton]%elem_of_app Hab.
    + apply ordered_snoc. by eapply (mi_order _ _ Hi).
    + subst b. exists (completed s), [mv]. split; [done|]. split; [|set_solver].
      eapply (mi_started _ _ Hi p); [done| |done]. rewrite Hl. set_solver.
Qed.

Lemma minv_quiet s c p t k :
  minv s c → p ∈ pes → progs s p = OQuiet t :: k → (∀ mv, mv ∈ pend s p → ¬ covers t p mv) →
  minv (mkState (<[p := k]> (progs s)) (pend s) (mem s) (completed s)) (<[p := c p ++ [OQuiet t]]> c).
Proof.
  intros Hi Hp Hk Hq.
  assert (∀ q, moves (<[p := c p ++ [OQuiet t]]> c q) = moves (c q) ∧
               syncs (<[p := c p ++ [OQuiet t]]> c q) = syncs (c q)) as E.
  { intros q. destruct (decide (p = q)) as [<-|Hne]; [|by rewrite fn_lookup_insert_ne].
    rewrite fn_lookup_insert, moves_app, syncs_app. cbn. rewrite app_nil_r. split; [done|lia]. }
  split; cbn; try apply Hi.
  - intros q Hqp. destruct (decide (p = q)) as [<-|Hne].
    + rewrite !fn_lookup_insert, <- app_assoc. cbn. rewrite <- Hk. by apply (mi_prog _ _ Hi).
    + rewrite !fn_lookup_insert_ne by done. by apply (mi_prog _ _ Hi).
  - rewrite (mi_perm _ _ Hi). apply Permutation_refl', f_equal, list_fmap_ext.
    intros i q _. by rewrite (proj1 (E q)).
  - intros q b Hqp. rewrite (proj1 (E q)). by apply (mi_pend _ _ Hi).
  - intros q x t' y b Hqp. destruct (decide (p = q)) as [<-|Hne].
    + rewrite fn_lookup_insert. intros [([= ->] & -> & _)|[y' E']]%snoc_quiet Hb Hcv.
      * destruct (mi_pend _ _ Hi p b Hqp Hb) as [|Hpe]; [done|]. by destruct (Hq b Hpe).
      * by eapply (mi_quiet _ _ Hi).
    + rewrite fn_lookup_insert_ne by done. by apply (mi_quiet _ _ Hi).
  - intros q r Hqp Hr. rewrite (proj2 (E q)), (proj2 (E r)). by apply (mi_sync _ _ Hi).
Qed.

Lemma minv_sync s c :
  minv s c → (∀ p, p ∈ pes → ∃ k, progs s p = OSync :: k) →
  minv (mkState (λ p, if decide (p ∈ pes) then tail (progs s p) else progs s p)
          (pend s) (mem s) (completed s)) (λ p, c p ++ [OSync]).
Proof.
  intros Hi Hs. split; cbn; try apply Hi.
  - intros p Hp. rewrite decide_True by done. destruct (Hs p Hp) as [k Hk].
    rewrite <- app_assoc. pose proof (mi_prog _ _ Hi p Hp) as E. rewrite Hk in *. done.
  - rewrite (mi_perm _ _ Hi). apply Permutation_refl', f_equal, list_fmap_ext. intros i q _.
    rewrite moves_app. cbn. by rewrite app_nil_r.
  - intros p b Hp. rewrite moves_app. cbn. rewrite app_nil_r. by apply (mi_pend _ _ Hi).
  - intros p x t y b Hp [(? & _)|[y' E]]%snoc_quiet; [done|]. by eapply (mi_quiet _ _ Hi).
  - intros p q Hp Hq. rewrite !syncs_app, (mi_sync _ _ Hi p q Hp Hq). done.
Qed.

Lemma minv_reachable s : rtc mstep (minit P m0) s → ∃ c, minv s c.
Proof.
  revert s. apply rtc_invariant.
  - exists (λ _, []). split; cbn; try done.
    + intros p mv _ Hm. by apply not_elem_of_nil in Hm.
    + intros p x t y mv _ E. by destruct x.
    + intros p a b _ Hb. by apply not_elem_of_nil in Hb.
    + intros a b Hb. by apply not_elem_of_nil in Hb.
  - intros s s' [p s0 mv k Hp Hk|p s0 l1 mv l2 Hp Hl|p s0 t k Hp Hk Hq|s0 Hs] [c Hi].
    + eexists. by apply minv_start.
    + eexists. by apply minv_complete.
    + eexists. by apply minv_quiet.
    + eexists. by apply minv_sync.
Qed.

(** ** Every run ends *)

Definition weight (s : mstate) : nat :=
  sum_list_with (λ p, 2 * length (progs s p) + length (pend s p))%nat pes.

Lemma sum_list_with_lt {A} (f g : A → nat) (l : list A) x :
  x ∈ l → (g x < f x)%nat → (∀ y, y ∈ l → (g y ≤ f y)%nat) →
  (sum_list_with g l < sum_list_with f l)%nat.
Proof.
  clear. induction l as [|y l IH]; intros Hx Hlt Hle; [set_solver|]. cbn.
  pose proof (Hle y ltac:(set_solver)).
  assert (sum_list_with g l ≤ sum_list_with f l)%nat as Hl.
  { assert (∀ y, y ∈ l → (g y ≤ f y)%nat) as Hl by set_solver. clear -Hl.
    induction l as [|z l IH]; cbn; [done|]. pose proof (Hl z ltac:(set_solver)).
    specialize (IH ltac:(set_solver)). lia. }
  apply elem_of_cons in Hx as [->|Hx]; [lia|]. specialize (IH Hx Hlt ltac:(set_solver)). lia.
Qed.

Lemma step_weight s s' : 0 < n_pes → mstep s s' → (weight s' < weight s)%nat.
Proof.
  intros Hn Hs. unfold weight.
  assert (∀ p, p ∈ pes →
    (∀ q, q ≠ p → progs s' q = progs s q ∧ pend s' q = pend s q) →
    (2 * length (progs s' p) + length (pend s' p) < 2 * length (progs s p) + length (pend s p))%nat →
    (weight s' < weight s)%nat) as Hone.
  { intros p Hp Ho Hlt. apply (sum_list_with_lt _ _ _ p); [done|done|].
    intros q _. destruct (decide (q = p)) as [->|Hne]; [lia|]. destruct (Ho q Hne) as [-> ->]. lia. }
  destruct Hs as [p s0 mv k Hp Hk|p s0 l1 mv l2 Hp Hl|p s0 t k Hp Hk Hq|s0 Hs].
  - apply (Hone p Hp); cbn.
    + intros q Hq. by rewrite !fn_lookup_insert_ne.
    + rewrite !fn_lookup_insert, Hk, length_app. cbn. lia.
  - apply (Hone p Hp); cbn.
    + intros q Hq. by rewrite !fn_lookup_insert_ne.
    + rewrite !fn_lookup_insert, Hl, !length_app. cbn. lia.
  - apply (Hone p Hp); cbn.
    + intros q Hqp. by rewrite !fn_lookup_insert_ne.
    + rewrite !fn_lookup_insert, Hk. cbn. lia.
  - assert (0 ∈ pes) as H0 by (unfold pes; apply elem_of_seqZ; lia).
    apply (sum_list_with_lt _ _ _ 0); [done| |]; cbn.
    + rewrite decide_True by done. destruct (Hs 0 H0) as [k ->]. cbn. lia.
    + intros q Hq. rewrite decide_True by done. destruct (Hs q Hq) as [k ->]. cbn. lia.
Qed.

Lemma run_bounded k s s' : 0 < n_pes → nsteps mstep k s s' → (k + weight s' ≤ weight s)%nat.
Proof.
  intros Hn. induction 1 as [|k s1 s2 s3 Hs _ IH]; [lia|]. pose proof (step_weight _ _ Hn Hs). lia.
Qed.

(** A run that cannot go on is finished, when all programs have the same number
    of barriers. *)
Lemma run_not_stuck s :
  (∀ p q, p ∈ pes → q ∈ pes → syncs (P p) = syncs (P q)) →
  rtc mstep (minit P m0) s → finished s ∨ ∃ s', mstep s s'.
Proof.
  intros Hsame Hr. destruct (minv_reachable s Hr) as [c Hi].
  destruct (decide (Exists (λ p, pend s p ≠ []) pes)) as [He|He].
  { apply Exists_exists in He as (p & Hp & Hne). right.
    destruct (pend s p) as [|mv l] eqn:E; [done|]. eexists. by apply (step_complete p s [] mv l). }
  apply not_Exists_Forall in He; [|apply _]. rewrite Forall_forall in He.
  assert (∀ p, p ∈ pes → pend s p = []) as Hpend.
  { intros p Hp. destruct (decide (pend s p = [])); [done|]. by destruct (He p Hp). }
  destruct (decide (Exists (λ p, match progs s p with OMove _ :: _ | OQuiet _ :: _ => true
                                 | _ => false end = true) pes)) as [Hh|Hh].
  { apply Exists_exists in Hh as (p & Hp & Hd). right.
    destruct (progs s p) as [|[mv|t|] k] eqn:E; try done.
    - eexists. by apply (step_start p s mv k).
    - eexists. apply (step_quiet p s t k); [done|done|]. rewrite Hpend by done. set_solver. }
  apply not_Exists_Forall in Hh; [|apply _]. rewrite Forall_forall in Hh.
  destruct (decide (Exists (λ p, progs s p ≠ []) pes)) as [Hx|Hx].
  - right. eexists. apply step_sync. intros p Hp. apply Exists_exists in Hx as (q & Hq & Hne).
    pose proof (Hh p Hp) as Hhp. pose proof (Hh q Hq) as Hhq. cbn in Hhp, Hhq.
    destruct (progs s q) as [|[] kq] eqn:Eq; try done.
    pose proof (mi_prog _ _ Hi p Hp) as Pp. pose proof (mi_prog _ _ Hi q Hq) as Pq.
    pose proof (Hsame p q Hp Hq) as Hs. rewrite Pp, Pq, !syncs_app, (mi_sync _ _ Hi p q Hp Hq), Eq in Hs.
    cbn in Hs. destruct (progs s p) as [|[] kp]; try done; [cbn in Hs; lia|]. eauto.
  - left. apply not_Exists_Forall in Hx; [|apply _]. rewrite Forall_forall in Hx.
    intros p Hp. split; [|by apply Hpend]. destruct (decide (progs s p = [])); [done|].
    by destruct (Hx p Hp).
Qed.

(** The outcome does not depend on the interleaving: once all transfers have
    completed, the memory is the one of any order [L] of them in which the
    dependent pairs are as the synchronisation puts them. *)
Lemma completed_outcome s L :
  rtc mstep (minit P m0) s → completed s ≡ₚ all_moves P → L ≡ₚ all_moves P →
  (∀ a b, ordered L a b → independent a b ∨ before P a b) →
  same_memory (mem s) (exec_all m0 L).
Proof.
  intros Hr Hc HL Hdep. destruct (minv_reachable s Hr) as [c Hi]. rewrite (mi_mem _ _ Hi).
  apply exec_reorder; [by rewrite Hc|by rewrite HL|].
  intros a b Hab. destruct (Hdep a b Hab) as [|Hb]; [by left|right].
  apply (mi_order _ _ Hi); [|done]. rewrite Hc, <- HL. destruct Hab as (l1 & l2 & -> & _ & ?). set_solver.
Qed.

(** When one element has returned, and every transfer is waited for before the
    last barrier, all transfers have completed. *)
Lemma returned_complete s p :
  rtc mstep (minit P m0) s → p ∈ pes → progs s p = [] →
  (∀ q a, q ∈ pes → a ∈ moves (P q) → ∃ x t y, P q = x ++ OQuiet t :: y ∧ a ∈ moves x ∧
    covers t q a ∧ (syncs x < syncs (P p))%nat) →
  completed s ≡ₚ all_moves P.
Proof.
  intros Hr Hp Hend Hall. destruct (minv_reachable s Hr) as [c Hi].
  assert (∀ q a, q ∈ pes → a ∈ moves (P q) → a ∈ completed s) as Hdone.
  { intros q a Hq Ha. destruct (Hall q a Hq Ha) as (x & t & y & E & Hx & Hc & Hs).
    pose proof (mi_prog _ _ Hi p Hp) as Ep. rewrite Hend, app_nil_r in Ep. rewrite Ep in Hs.
    rewrite (mi_sync _ _ Hi p q Hp Hq) in Hs. pose proof (mi_prog _ _ Hi q Hq) as Eq.
    rewrite E in Eq. apply app_eq_app in Eq as (w & [[-> Ew]|[Ew Ey]]).
    - rewrite syncs_app in Hs. lia.
    - destruct w as [|o w]; [rewrite Ew, app_nil_r in Hs; lia|]. injection Ey as <- ->.
      eapply (mi_quiet _ _ Hi q); [done|exact Ew|done|done]. }
  assert (NoDup (completed s ++ concat (pend s <$> pes)) ∧
    completed s ++ concat (pend s <$> pes) ⊆ all_moves P) as [Hnd2 Hsub].
  { rewrite (mi_perm _ _ Hi). unfold all_moves in *. pose proof (mi_prog _ _ Hi) as Hpr.
    revert Hnd Hpr. clear. generalize pes as l. induction l as [|p l IH]; cbn; intros Hn Hpr; [done|].
    apply NoDup_app in Hn as (Hn1 & Hn2 & Hn3). destruct (IH Hn3 ltac:(set_solver)) as [IH1 IH2].
    pose proof (Hpr p ltac:(set_solver)) as Ep. rewrite Ep, moves_app in *.
    apply NoDup_app in Hn1 as (Hc & _ & _). split; [|set_solver].
    apply NoDup_app. split; [done|]. split; [|done]. intros a Ha1 Ha2. apply (Hn2 a); set_solver. }
  apply NoDup_Permutation; [by apply NoDup_app in Hnd2 as [? _]|done|].
  intros a. split; [intros Ha; apply Hsub; set_solver|]. unfold all_moves.
  rewrite list_elem_of_In, in_concat. intros (l & Hl & Ha).
  apply list_elem_of_In in Hl, Ha. apply list_elem_of_fmap in Hl as (q & -> & Hq). by eapply Hdone.
Qed.
End run.
End machine.

(** ** Programs in phases *)

(** The transfers of each element, its quiet after them, if it has one, and
    whether there is a barrier. *)
Record phase := mkPhase {
  ph_moves : Z → list move;
  ph_quiet : Z → option (option Z);
  ph_sync : bool
}.

Definition quiet_op (q : option (option Z)) : list op :=
  match q with None => [] | Some t => [OQuiet t] end.

(** The quiet waits for the transfer. *)
Definition waits (ph : phase) (p : Z) (mv : move) : Prop :=
  ∃ t, ph_quiet ph p = Some t ∧ covers t p mv.

Definition phase_ops (p : Z) (ph : phase) : list op :=
  (OMove <$> ph_moves ph p) ++ quiet_op (ph_quiet ph p) ++ (if ph_sync ph then [OSync] else []).

Definition phased (phs : list phase) (p : Z) : list op := concat (phase_ops p <$> phs).

Definition has_sync (phs : list phase) : Prop := Exists (λ ph, ph_sync ph = true) phs.

Section phased.
Context {V : Type} (n_pes : Z) (m0 : memory V).
Abbreviation pes := (pes n_pes).

(** The transfers of a phase, and of all of them, element by element. *)
Definition phase_moves (ph : phase) : list move := concat (ph_moves ph <$> pes).
Definition in_turn (phs : list phase) : list move := concat (phase_moves <$> phs).

Lemma elem_of_phase_moves mv ph : mv ∈ phase_moves ph ↔ ∃ p, p ∈ pes ∧ mv ∈ ph_moves ph p.
Proof.
  unfold phase_moves. rewrite list_elem_of_In, in_concat. split.
  - intros (l & Hl & Hm). apply list_elem_of_In in Hl, Hm.
    apply list_elem_of_fmap in Hl as (p & -> & Hp). eauto.
  - intros (p & Hp & Hm). exists (ph_moves ph p). rewrite <- !list_elem_of_In. split; [|done].
    apply list_elem_of_fmap. eauto.
Qed.

Lemma moves_OMove l : moves (OMove <$> l) = l.
Proof. induction l as [|mv l IH]; [done|]. cbn. f_equal. exact IH. Qed.

Lemma syncs_OMove l : syncs (OMove <$> l) = O.
Proof. induction l as [|mv l IH]; cbn; done. Qed.

Lemma phase_ops_moves p ph : moves (phase_ops p ph) = ph_moves ph p.
Proof.
  unfold phase_ops, quiet_op. rewrite moves_app, moves_OMove.
  destruct (ph_quiet ph p), (ph_sync ph); cbn; apply app_nil_r.
Qed.

Lemma phase_ops_syncs p ph : syncs (phase_ops p ph) = if ph_sync ph then 1%nat else 0%nat.
Proof.
  unfold phase_ops, quiet_op. rewrite syncs_app, syncs_OMove. by destruct (ph_quiet ph p), (ph_sync ph).
Qed.

Lemma phased_app p l1 l2 : phased (l1 ++ l2) p = phased l1 p ++ phased l2 p.
Proof. unfold phased. by rewrite fmap_app, concat_app. Qed.

Lemma phased_cons p ph l : phased (ph :: l) p = phase_ops p ph ++ phased l p.
Proof. done. Qed.

(** All elements have the barriers of the phases. *)
Lemma phased_syncs p q phs : syncs (phased phs p) = syncs (phased phs q).
Proof.
  induction phs as [|ph phs IH]; [done|]. by rewrite !phased_cons, !syncs_app, !phase_ops_syncs, IH.
Qed.

Lemma has_sync_syncs p phs : has_sync phs → (0 < syncs (phased phs p))%nat.
Proof.
  induction 1 as [ph phs Hs|ph phs _ IH]; rewrite phased_cons, syncs_app, phase_ops_syncs.
  - rewrite Hs. lia.
  - lia.
Qed.

Lemma concat_app_perm (f g : Z → list move) l :
  concat ((λ p, f p ++ g p) <$> l) ≡ₚ concat (f <$> l) ++ concat (g <$> l).
Proof. induction l as [|p l IH]; cbn; [done|]. rewrite IH. solve_Permutation. Qed.

Lemma in_turn_perm phs : in_turn phs ≡ₚ all_moves n_pes (phased phs).
Proof.
  unfold all_moves. induction phs as [|ph phs IH].
  - cbn. induction pes as [|p l IH']; cbn; [done|exact IH'].
  - change (in_turn (ph :: phs)) with (phase_moves ph ++ in_turn phs). rewrite IH.
    unfold phase_moves. rewrite <- concat_app_perm. apply Permutation_refl', f_equal.
    apply list_fmap_ext. intros i p _. by rewrite phased_cons, moves_app, phase_ops_moves.
Qed.

Lemma ordered_app l1 l2 a b :
  ordered (l1 ++ l2) a b → ordered l1 a b ∨ (a ∈ l1 ∧ b ∈ l2) ∨ ordered l2 a b.
Proof.
  intros (u1 & u2 & E & Ha & Hb). apply app_eq_app in E as (k & [[-> ->]|[-> ->]]).
  - apply elem_of_app in Hb as [Hb|Hb]; [left|right; left; set_solver]. by exists u1, k.
  - apply elem_of_app in Ha as [Ha|Ha]; [right; left; set_solver|right; right]. by exists k, u2.
Qed.

Lemma ordered_in_turn phs a b :
  ordered (in_turn phs) a b →
  (∃ ph, ph ∈ phs ∧ ordered (phase_moves ph) a b) ∨
  (∃ l1 ph l2 ph' l3, phs = l1 ++ ph :: l2 ++ ph' :: l3 ∧ a ∈ phase_moves ph ∧ b ∈ phase_moves ph').
Proof.
  induction phs as [|ph phs IH]; intros Ho.
  - destruct Ho as (l1 & l2 & E & Ha & _). symmetry in E. apply app_eq_nil in E as [-> _].
    by apply not_elem_of_nil in Ha.
  - change (in_turn (ph :: phs)) with (phase_moves ph ++ in_turn phs) in Ho.
    apply ordered_app in Ho as [Ho|[[Ha Hb]|Ho]].
    + left. exists ph. set_solver.
    + right. unfold in_turn in Hb. apply list_elem_of_In, in_concat in Hb as (l & Hl & Hb).
      apply list_elem_of_In in Hl, Hb. apply list_elem_of_fmap in Hl as (ph' & -> & Hph).
      apply list_elem_of_split in Hph as (l2 & l3 & ->). by exists [], ph, l2, ph', l3.
    + destruct (IH Ho) as [(ph' & Hin & Ho')|(l1 & ph1 & l2 & ph2 & l3 & -> & Ha & Hb)].
      * left. exists ph'. set_solver.
      * right. by exists (ph :: l1), ph1, l2, ph2, l3.
Qed.

(** An earlier phase comes before a later one for the same element, and for
    different ones when there is a barrier between. *)
Lemma before_phases l1 ph l2 ph' l3 p q a b :
  p ∈ pes → q ∈ pes → a ∈ ph_moves ph p → b ∈ ph_moves ph' q → waits ph p a →
  p = q ∨ has_sync (ph :: l2) → before n_pes (phased (l1 ++ ph :: l2 ++ ph' :: l3)) a b.
Proof.
  intros Hp Hq Ha Hb (t & Et & Hc) Hor. apply list_elem_of_split in Hb as (b1 & b2 & Eb).
  exists p, q, (phased l1 p ++ (OMove <$> ph_moves ph p)), t,
    ((if ph_sync ph then [OSync] else []) ++ phased (l2 ++ ph' :: l3) p),
    (phased (l1 ++ ph :: l2) q ++ (OMove <$> b1)),
    ((OMove <$> b2) ++ quiet_op (ph_quiet ph' q) ++ (if ph_sync ph' then [OSync] else []) ++ phased l3 q).
  split_and!; try done.
  - rewrite phased_app, phased_cons. unfold phase_ops. rewrite Et. by rewrite <- !app_assoc.
  - rewrite moves_app, moves_OMove. set_solver.
  - change (l1 ++ ph :: l2 ++ ph' :: l3) with (l1 ++ (ph :: l2) ++ ph' :: l3).
    rewrite app_assoc, phased_app, phased_cons. unfold phase_ops at 1.
    rewrite Eb, fmap_app. cbn. by rewrite <- !app_assoc.
  - destruct Hor as [->|Hs]; [left; split; [done|]|right].
    + rewrite phased_app, phased_cons, !length_app. unfold phase_ops. rewrite Et, length_app. cbn. lia.
    + rewrite phased_app, !syncs_app, !syncs_OMove, (phased_syncs q p l1).
      pose proof (has_sync_syncs q _ Hs). lia.
Qed.

Lemma before_ext (P Q : Z → list op) a b : (∀ p, Q p = P p) → before n_pes P a b → before n_pes Q a b.
Proof.
  intros E (p & q & x & t & y & u & z & H). exists p, q, x, t, y, u, z. by rewrite !E.
Qed.

(** What makes the outcome of phases independent of the interleaving. *)
Record race_free (phs : list phase) : Prop := {
  rf_nodup : NoDup (in_turn phs);
  rf_quiet : ∀ ph p a, ph ∈ phs → p ∈ pes → a ∈ ph_moves ph p → waits ph p a;
  rf_phase : ∀ ph a b, ph ∈ phs → ordered (phase_moves ph) a b → independent a b;
  rf_phases : ∀ l1 ph l2 ph' l3 p q a b, phs = l1 ++ ph :: l2 ++ ph' :: l3 → ¬ has_sync (ph :: l2) →
    p ∈ pes → q ∈ pes → p ≠ q → a ∈ ph_moves ph p → b ∈ ph_moves ph' q → independent a b
}.

(** Whatever the interleaving, an element that returns from phases that end
    with a barrier sees the memory after all phases in turn. *)
Lemma phased_outcome P phs ph s p :
  (∀ p, P p = phased (phs ++ [ph]) p) → race_free (phs ++ [ph]) → ph_sync ph = true →
  rtc (mstep n_pes) (minit P m0) s → p ∈ pes → progs s p = [] →
  same_memory (mem s) (exec_all m0 (in_turn (phs ++ [ph]))).
Proof.
  intros HP [Hnd Hq Hph Hphs] Hsync Hr Hp Hend. set (all := phs ++ [ph]) in *.
  assert (in_turn all ≡ₚ all_moves n_pes P) as Hperm.
  { rewrite in_turn_perm. apply Permutation_refl', f_equal, list_fmap_ext. intros i q _. by rewrite HP. }
  assert (NoDup (all_moves n_pes P)) as Hnd2 by by rewrite <- Hperm.
  eapply completed_outcome; [done|done| |done|].
  - eapply (returned_complete _ _ m0); [done|done|done|done|]. intros q a Hqp Ha.
    assert (a ∈ moves (phased phs q) ∨ a ∈ ph_moves ph q) as Hin.
    { unfold all in HP. rewrite HP, phased_app, moves_app, phased_cons, moves_app, phase_ops_moves in Ha.
      cbn in Ha. set_solver. }
    assert (∃ l1 f l2, all = l1 ++ f :: l2 ∧ a ∈ ph_moves f q ∧ has_sync (f :: l2)) as (l1 & f & l2 & E & Haf & Hs).
    { destruct Hin as [Hin|Hin].
      - unfold all. clear -Hin Hsync. induction phs as [|g phs IH]; [by apply not_elem_of_nil in Hin|].
        rewrite phased_cons, moves_app, phase_ops_moves in Hin. apply elem_of_app in Hin as [Hin|Hin].
        + exists [], g, (phs ++ [ph]). split; [done|]. split; [done|]. unfold has_sync.
          rewrite Exists_cons, Exists_app, Exists_cons. auto.
        + destruct (IH Hin) as (l1 & f & l2 & E & ? & ?). exists (g :: l1), f, l2. by rewrite <- app_comm_cons, E.
      - exists phs, ph, []. split; [done|]. split; [done|]. by apply Exists_cons_hd. }
    destruct (Hq f q a ltac:(rewrite E; set_solver) Hqp Haf) as (t & Et & Hct).
    exists (phased l1 q ++ (OMove <$> ph_moves f q)), t,
      ((if ph_sync f then [OSync] else []) ++ phased l2 q).
    split_and!.
    + rewrite HP, E, phased_app, phased_cons. unfold phase_ops. rewrite Et. by rewrite <- !app_assoc.
    + rewrite moves_app, moves_OMove. set_solver.
    + done.
    + rewrite HP, (phased_syncs p q), E, phased_app, !syncs_app, syncs_OMove.
      pose proof (has_sync_syncs q _ Hs). lia.
  - intros a b Hab. apply ordered_in_turn in Hab as [(f & Hf & Ho)|(l1 & f & l2 & f' & l3 & E & Ha & Hb)].
    + left. by eapply Hph.
    + apply elem_of_phase_moves in Ha as (pa & Hpa & Ha). apply elem_of_phase_moves in Hb as (pb & Hpb & Hb).
      destruct (decide (pa = pb ∨ has_sync (f :: l2))) as [Hor|Hno].
      * right. apply (before_ext (phased all)); [done|]. rewrite E.
        eapply before_phases; [exact Hpa|exact Hpb|done|done| |done].
        apply Hq; [rewrite E; set_solver|done|done].
      * left. eapply (Hphs l1 f l2 f' l3 pa pb); try done; tauto.
Qed.
End phased.

(** ** Tools for a given collective *)

Section tools.
Context {V : Type}.
Implicit Types (m : memory V) (l : list move).

Lemma exec_all_other m l p a i :
  (∀ x, x ∈ l → ¬ writes x p a i) → exec_all m l p a i = m p a i.
Proof.
  revert m. induction l as [|x l IH]; intros m Hl; [done|].
  change (exec_all m (x :: l)) with (exec_all (exec m x) l). rewrite IH by set_solver.
  unfold exec. rewrite decide_False by set_solver. done.
Qed.

(** In a phase without races every transfer delivers what was there before. *)
Lemma exec_all_delivers m l x p a i :
  NoDup l → (∀ x y, x ∈ l → y ∈ l → x ≠ y → independent x y) → x ∈ l → writes x p a i →
  exec_all m l p a i = m (mv_from x) (mv_src x) (mv_si x + (i - mv_di x)).
Proof.
  intros Hnd Hi Hx Hw. apply list_elem_of_split in Hx as (l1 & l2 & ->).
  apply NoDup_app in Hnd as (_ & Hd & [Hx2 _]%NoDup_cons).
  rewrite exec_all_app. change (exec_all ?m' (x :: l2)) with (exec_all (exec m' x) l2). rewrite exec_all_other.
  - unfold exec at 1. rewrite decide_True by done. apply exec_all_other. intros y Hy Hwy.
    destruct (Hi x y ltac:(set_solver) ltac:(set_solver) ltac:(set_solver)
      (mv_from x) (mv_src x) (mv_si x + (i - mv_di x))) as [_ H].
    apply (H Hwy). destruct Hw as (_ & _ & ?). unfold reads. split; [done|]. split; [done|lia].
  - intros y Hy Hwy.
    destruct (Hi x y ltac:(set_solver) ltac:(set_solver) ltac:(set_solver) p a i) as [H _].
    by destruct (H Hw).
Qed.

Lemma ordered_ne l a b : NoDup l → ordered l a b → a ∈ l ∧ b ∈ l ∧ a ≠ b.
Proof.
  intros Hnd (l1 & l2 & -> & Ha & Hb). apply NoDup_app in Hnd as (_ & Hd & _).
  split; [set_solver|]. split; [set_solver|]. intros ->. by apply (Hd b).
Qed.

(** Lists that a key tells apart. *)
Lemma concat_nodup {A K} (f : A → list move) (key : move → K) (index : A → K) (l : list A) :
  NoDup (index <$> l) → (∀ x, x ∈ l → NoDup (f x)) →
  (∀ x mv, x ∈ l → mv ∈ f x → key mv = index x) → NoDup (concat (f <$> l)).
Proof.
  intros Hnd Hf Hk. induction l as [|x l IH]; cbn in *; [constructor|].
  apply NoDup_cons in Hnd as [Hx Hnd]. apply NoDup_app. split; [apply Hf; set_solver|].
  split; [|apply IH; [done|set_solver..]]. intros mv H1 H2.
  apply list_elem_of_In, in_concat in H2 as (l' & Hl' & H2). apply list_elem_of_In in Hl', H2.
  apply list_elem_of_fmap in Hl' as (y & -> & Hy). apply Hx, list_elem_of_fmap. exists y.
  split; [|done]. rewrite <- (Hk x mv), (Hk y mv); set_solver.
Qed.

Lemma elem_of_pes n p : p ∈ pes n ↔ 0 ≤ p < n.
Proof. unfold pes. rewrite elem_of_seqZ. lia. Qed.

(** Every run of the programs is finite, and ends with all of them finished. *)
Definition terminates (n : Z) (P : Z → list op) (m : memory V) : Prop :=
  (∃ bound : nat, ∀ k s, nsteps (mstep n) k (minit P m) s → (k ≤ bound)%nat) ∧
  (∀ s, rtc (mstep n) (minit P m) s → finished n s ∨ ∃ s', mstep n s s').

Lemma phased_terminates n P phs m :
  (∀ p, P p = phased phs p) → 0 < n → NoDup (in_turn n phs) → terminates n P m.
Proof.
  intros HP Hn Hnd. rewrite in_turn_perm in Hnd.
  replace (all_moves n (phased phs)) with (all_moves n P) in Hnd
    by (unfold all_moves; apply f_equal, list_fmap_ext; intros i q _; by rewrite HP).
  split.
  - exists (weight n (minit P m)). intros k s Hk. pose proof (run_bounded n k _ _ Hn Hk). lia.
  - intros s Hr. eapply run_not_stuck; [done| |done]. intros p q _ _. rewrite !HP. apply phased_syncs.
Qed.
End tools.

(** ** Running a schedule *)

Inductive action := AStart (p : Z) | AComplete (p : Z) (i : nat) | AQuiet (p : Z) | ASync.

Section schedule.
Context {V : Type} (n : Z).

Definition covers_bool (t : option Z) (p : Z) (mv : move) : bool :=
  match t with None => true | Some q => peer p mv =? q end.

Definition act (a : action) (s : mstate) : option (mstate (V := V)) :=
  match a with
  | AStart p =>
      if (0 <=? p) && (p <? n) then
        match progs s p with
        | OMove mv :: k =>
            Some (mkState (<[p := k]> (progs s)) (<[p := pend s p ++ [mv]]> (pend s)) (mem s) (completed s))
        | _ => None
        end
      else None
  | AComplete p i =>
      if (0 <=? p) && (p <? n) then
        mv ← pend s p !! i;
        Some (mkState (progs s) (<[p := take i (pend s p) ++ drop (S i) (pend s p)]> (pend s))
                (exec (mem s) mv) (completed s ++ [mv]))
      else None
  | AQuiet p =>
      if (0 <=? p) && (p <? n) then
        match progs s p with
        | OQuiet t :: k =>
            if forallb (λ mv, negb (covers_bool t p mv)) (pend s p)
            then Some (mkState (<[p := k]> (progs s)) (pend s) (mem s) (completed s)) else None
        | _ => None
        end
      else None
  | ASync =>
      if forallb (λ p, match progs s p with OSync :: _ => true | _ => false end) (pes n)
      then Some (mkState (λ p, if decide (p ∈ pes n) then tail (progs s p) else progs s p)
                         (pend s) (mem s) (completed s))
      else None
  end.

Fixpoint run (l : list action) (s : mstate) : option mstate :=
  match l with [] => Some s | a :: l' => s' ← act a s; run l' s' end.

Lemma act_sound a s s' : act a s = Some s' → mstep n s s'.
Proof.
  destruct a as [p|p i|p|]; cbn; intros H; repeat case_match; simplify_eq;
    try (apply andb_true_iff in H0 as [?%Z.leb_le ?%Z.ltb_lt]).
  - apply step_start; [apply elem_of_pes; lia|done].
  - destruct (pend s p !! i) as [mv|] eqn:E; [|done]. cbn in H. injection H as <-.
    apply step_complete; [apply elem_of_pes; lia|]. by rewrite take_drop_middle.
  - eapply step_quiet; [apply elem_of_pes; lia|done|]. intros mv Hmv Hc.
    rewrite forallb_forall in H3. specialize (H3 mv (proj1 (list_elem_of_In _ _) Hmv)).
    destruct target; cbn in *; [by rewrite Hc, Z.eqb_refl in H3|done].
  - apply step_sync. intros p Hp. rewrite forallb_forall in H0.
    specialize (H0 p (proj1 (list_elem_of_In _ _) Hp)). repeat case_match; try done. eauto.
Qed.

Lemma run_sound l : ∀ s s', run l s = Some s' → rtc (mstep n) s s'.
Proof.
  induction l as [|a l IH]; intros s s' H; cbn [run] in H; [injection H as ->; apply rtc_refl|].
  destruct (act a s) as [s1|] eqn:E; [|done]. eapply rtc_l; [by eapply act_sound|by apply IH].
Qed.

(** A coarser schedule: [Some (p, k)] runs up to [k] operations of [p], each
    transfer completing at once, until a barrier; [None] is the barrier. *)
Fixpoint advance_pe (p : Z) (k : nat) (s : mstate) : option (mstate (V := V)) :=
  match k with
  | O => Some s
  | S k' =>
      match progs s p with
      | OMove _ :: _ =>
          s1 ← act (AStart p) s; s2 ← act (AComplete p (length (pend s p))) s1; advance_pe p k' s2
      | OQuiet _ :: _ => s1 ← act (AQuiet p) s; advance_pe p k' s1
      | _ => Some s
      end
  end.

Fixpoint drive (l : list (option (Z * nat))) (s : mstate) : option (mstate (V := V)) :=
  match l with
  | [] => Some s
  | Some (p, k) :: l' => s' ← advance_pe p k s; drive l' s'
  | None :: l' => s' ← act ASync s; drive l' s'
  end.

Lemma advance_pe_sound p k : ∀ s s', advance_pe p k s = Some s' → rtc (mstep n) s s'.
Proof.
  induction k as [|k IH]; intros s s' H; cbn [advance_pe] in H; [injection H as ->; apply rtc_refl|].
  destruct (progs s p) as [|[mv|t|] l]; [by injection H as ->| | |by injection H as ->].
  - apply bind_Some in H as (s1 & H1 & (s2 & H2 & H)%bind_Some).
    eapply rtc_l; [by eapply act_sound|]. eapply rtc_l; [by eapply act_sound|]. by apply IH.
  - apply bind_Some in H as (s1 & H1 & H). eapply rtc_l; [by eapply act_sound|]. by apply IH.
Qed.

Lemma drive_sound l : ∀ s s', drive l s = Some s' → rtc (mstep n) s s'.
Proof.
  induction l as [|[[p k]|] l IH]; intros s s' H; cbn [drive] in H.
  - injection H as ->. apply rtc_refl.
  - apply bind_Some in H as (s1 & H1 & H). etrans; [by eapply advance_pe_sound|]. by apply IH.
  - apply bind_Some in H as (s1 & H1 & H). eapply rtc_l; [by eapply act_sound|]. by apply IH.
Qed.
End schedule.
