(* ===== verification/IBColl.v ===== *)
(** * Collectives of the InfiniBand backend

    The collectives of [gpu_ib/gpu_ib_gpu_templates.hpp] that are made of puts,
    gets, quiets and barriers, as programs of [Onesided.v].  The elements are
    numbered within the team ([get_pe_in_world] is the bijection with the world)
    and buffers are indexed by elements of the type [T].  The collectives of a team
    stop at an assertion unless the stride of the team in the world is a power of
    two.  For each of them, on the teams they accept: every run ends, and an
    element that has returned finds the right data, whatever the interleaving; or
    a run in which it does not. *)
From S2P Require Import Prelude Onesided.

Local Open Scope Z_scope.

(** ** Operations of a work-group *)

Definition put_nbi_wg (me : Z) (dest : buffer) (di : Z) (source : buffer) (si nelems pe : Z) : list op :=
  [OMove (mkMove me source si pe dest di nelems)].
Definition get_nbi_wg (me : Z) (dest : buffer) (di : Z) (source : buffer) (si nelems pe : Z) : list op :=
  [OMove (mkMove pe source si me dest di nelems)].
(** The blocking ones wait for the queue pair of the peer. *)
Definition put_wg (me : Z) (dest : buffer) (di : Z) (source : buffer) (si nelems pe : Z) : list op :=
  put_nbi_wg me dest di source si nelems pe ++ [OQuiet (Some pe)].
Definition get_wg (me : Z) (dest : buffer) (di : Z) (source : buffer) (si nelems pe : Z) : list op :=
  get_nbi_wg me dest di source si nelems pe ++ [OQuiet (Some pe)].
Definition quiet : list op := [OQuiet None].
Definition internal_sync : list op := [OSync].

(** A loop [for (i = tid; i < count; i += blk_size) dst[to i] = src[from i]] of
    the work-group, up to its [__syncthreads]. *)
Definition copy_loop (me : Z) (dst : buffer) (to : Z → Z) (src : buffer) (from : Z → Z) (count : Z)
    : list op :=
  (OMove <$> ((λ i, mkMove me src (from i) me dst (to i) 1) <$> seqZ 0 count)) ++ [OQuiet (Some me)].

Definition ROC_SHMEM_ATA_MAX_WRKDATA_SIZE : Z := 4 * 1024 * 1024.

(** [log_stride] of [TeamInfo] is [log2] of the stride, as a [double];
    [log_pe_stride] is its conversion to [int], and the difference is zero exactly
    when the stride is a power of two. *)
Definition log_pe_stride (stride : Z) : Z := Z.log2 stride.
Definition check_stride (stride : Z) : result unit :=
  assert_ (2 ^ log_pe_stride stride =? stride).

Section collectives.
Context (pe_size nelems : Z).

(** ** All-to-all and collect by puts *)




Definition fcollect_broadcast_ops (my_pe_in_team : Z) : list op :=
  concat ((λ j, put_nbi_wg my_pe_in_team Dst (my_pe_in_team * nelems) Src 0 nelems j)
            <$> seqZ 0 pe_size)
  ++ quiet ++ internal_sync.

Definition fcollect_broadcast (stride my_pe_in_team : Z) : result (list op) :=
  check_stride stride;; Ok (fcollect_broadcast_ops my_pe_in_team).

Definition fcollect (stride my_pe_in_team : Z) : result (list op) :=
  fcollect_broadcast stride my_pe_in_team.

(** ** Broadcast *)

Definition internal_put_broadcast (my_pe pe_root : Z) : list op :=
  if my_pe =? pe_root then
    concat ((λ i, if i =? my_pe then [] else put_nbi_wg my_pe Dst 0 Src 0 nelems i) <$> seqZ 0 pe_size)
  else [].

Definition internal_get_broadcast (my_pe pe_root : Z) : list op :=
  if my_pe =? pe_root then [] else get_wg my_pe Dst 0 Src 0 nelems pe_root.

Definition broadcast (num_pes pe_root my_pe : Z) : list op :=
  (if num_pes <? 4 then internal_put_broadcast my_pe pe_root
   else internal_get_broadcast my_pe pe_root)
  ++ internal_sync.

(** The broadcast of a team. *)
Definition team_broadcast (num_pes stride pe_root my_pe : Z) : result (list op) :=
  check_stride stride;; Ok (broadcast num_pes pe_root my_pe).

(** ** The algorithms of Bruck *)

(** [for (shift = 0; (1 << shift) < pe_size; shift++)]; the fuel bounds [shift]. *)
Fixpoint shift_loop (fuel : nat) (shift : Z) (body : Z → list op) : list op :=
  match fuel with
  | O => []
  | S fuel' =>
      if Z.shiftl 1 shift <? pe_size then body shift ++ shift_loop fuel' (shift + 1) body else []
  end.

Definition fcollect_brucks_ops (my_pe_in_team : Z) : list op :=
  put_wg my_pe_in_team PAta 0 Src 0 nelems my_pe_in_team
  ++ shift_loop 31 0 (λ shift,
       let shift_decimal := Z.shiftl 1 shift in
       let data_size := Z.min shift_decimal (pe_size - shift_decimal) * nelems in
       let dest_pe := Z.rem (my_pe_in_team + shift_decimal) pe_size in
       put_wg my_pe_in_team PAta (shift_decimal * nelems) PAta 0 data_size dest_pe ++ internal_sync)
  ++ copy_loop my_pe_in_team
       Dst (λ i, Z.rem (pe_size + my_pe_in_team - Z.quot i nelems) pe_size * nelems + Z.rem i nelems)
       PAta (λ i, i) (pe_size * nelems)
  ++ internal_sync.

(** The work array has to be large enough; the product is one of [int]s, the
    bound a [size_t]. *)
Definition fcollect_brucks (stride my_pe_in_team : Z) : result (list op) :=
  check_stride stride;;
  assert_ (negb (ROC_SHMEM_ATA_MAX_WRKDATA_SIZE <? u64 (s32 (pe_size * nelems))));;
  Ok (fcollect_brucks_ops my_pe_in_team).

(** The place of position [pos] in the data sent for the bit [shift]. *)
Definition packed (shift pos : Z) : Z :=
  Z.shiftl (Z.shiftr pos (shift + 1)) shift + Z.land pos (Z.shiftl 1 shift - 1).

(** The loops that pack and unpack skip the positions without the bit. *)
Definition packing_loop (me : Z) (shift : Z) (pack : bool) : list op :=
  (OMove <$> omap (λ i,
     let pos := Z.quot i nelems in
     let offset := Z.rem i nelems in
     if Z.land (Z.shiftr pos shift) 1 =? 0 then None
     else let place := packed shift pos * nelems + offset in
          Some (if pack then mkMove me PAta i me PAta2 place 1 else mkMove me Dst place me PAta i 1))
   (seqZ 0 (pe_size * nelems))) ++ [OQuiet (Some me)].

(** [pAta1] and [pAta2] are the two halves of the work array. *)
Definition alltoall_brucks_ops (my_pe_in_team : Z) : list op :=
  copy_loop my_pe_in_team PAta (λ i, i)
    Src (λ i, Z.rem (i + my_pe_in_team * nelems) (pe_size * nelems)) (pe_size * nelems)
  ++ shift_loop 31 0 (λ shift,
       let shift_decimal := Z.shiftl 1 shift in
       let region_size := shift_decimal * 2 in
       let data_size := nelems * (Z.quot pe_size region_size * shift_decimal) in
       let data_size := if shift_decimal <? Z.rem pe_size region_size
                        then data_size + (Z.rem pe_size region_size - shift_decimal) else data_size in
       let dest_pe := Z.rem (my_pe_in_team + shift_decimal) pe_size in
       packing_loop my_pe_in_team shift true
       ++ put_wg my_pe_in_team Dst 0 PAta2 0 data_size dest_pe
       ++ quiet ++ internal_sync
       ++ packing_loop my_pe_in_team shift false)
  ++ copy_loop my_pe_in_team
       Dst (λ i, Z.rem (pe_size + my_pe_in_team - Z.quot i nelems) pe_size * nelems + Z.rem i nelems)
       PAta (λ i, i) (pe_size * nelems)
  ++ internal_sync.

Definition alltoall_brucks (stride my_pe_in_team : Z) : result (list op) :=
  check_stride stride;;
  assert_ (negb (ROC_SHMEM_ATA_MAX_WRKDATA_SIZE <? u64 (s32 (pe_size * nelems * 2))));;
  Ok (alltoall_brucks_ops my_pe_in_team).
End collectives.

(** The strides that the collectives accept. *)
Definition pow2_stride (stride : Z) : Prop := ∃ k, 0 ≤ k ∧ stride = 2 ^ k.

Lemma check_stride_pow2 stride : pow2_stride stride → check_stride stride = Ok tt.
Proof.
  intros (k & Hk & ->). unfold check_stride, log_pe_stride.
  by rewrite Z.log2_pow2, Z.eqb_refl by done.
Qed.

Lemma check_stride_other stride : ¬ pow2_stride stride → check_stride stride = Fail AssertFailed.
Proof.
  intros Hno. unfold check_stride, log_pe_stride. rewrite (proj2 (Z.eqb_neq _ _)); [done|].
  intros E. apply Hno. exists (Z.log2 stride). split; [apply Z.log2_nonneg|done].
Qed.

(** ** Puts to everybody *)

Lemma concat_singletons {A B} (f : A → B) (l : list A) : concat ((λ x, [f x]) <$> l) = f <$> l.
Proof. induction l as [|x l IH]; cbn; [done|]. f_equal. exact IH. Qed.

Section broadcast_phase.
Context {V : Type} (n nelems : Z) (Hn : 0 < n) (Hne : 0 < nelems) (si : Z → Z) (m0 : memory V).

(** Everybody puts the block that starts at [si j] to element [j]. *)
Definition put_all : phase :=
  mkPhase (λ me, (λ j, mkMove me Src (si j) j Dst (me * nelems) nelems) <$> seqZ 0 n)
    (λ _, Some None) true.

Lemma elem_of_put_all mv me :
  mv ∈ ph_moves put_all me ↔ ∃ j, 0 ≤ j < n ∧ mv = mkMove me Src (si j) j Dst (me * nelems) nelems.
Proof.
  cbn. rewrite list_elem_of_fmap. setoid_rewrite elem_of_seqZ. split; intros (j & ? & ?); exists j;
    split; [lia|done|done|lia].
Qed.

Lemma put_all_nodup : NoDup (in_turn n [put_all]).
Proof.
  unfold in_turn. cbn. rewrite app_nil_r. apply (concat_nodup _ mv_from id).
  - rewrite list_fmap_id. apply NoDup_seqZ.
  - intros me _. cbn. apply NoDup_fmap_2_strong; [|apply NoDup_seqZ]. intros i j _ _ [= _ E]. done.
  - intros me mv _ (j & _ & ->)%elem_of_put_all. done.
Qed.

(** Blocks of the destination that overlap are the same. *)
Lemma block_inj i j x : i * nelems ≤ x < i * nelems + nelems → j * nelems ≤ x < j * nelems + nelems → i = j.
Proof using Hne. nia. Qed.

Lemma put_all_independent a b :
  a ∈ phase_moves n put_all → b ∈ phase_moves n put_all → a ≠ b → independent a b.
Proof using Hne.
  intros (p & Hp & (j & Hj & ->)%elem_of_put_all)%elem_of_phase_moves
    (q & Hq & (k & Hk & ->)%elem_of_put_all)%elem_of_phase_moves Hab x c i.
  unfold writes, reads. cbn. split; intros (-> & -> & Hi).
  - split; [naive_solver|]. intros (-> & _ & Hi'). apply Hab. by rewrite (block_inj p q i Hi Hi').
  - naive_solver.
Qed.

Lemma put_all_race_free : race_free n [put_all].
Proof using Hne.
  split.
  - apply put_all_nodup.
  - intros ph p a Hph%list_elem_of_singleton _ _. subst ph. by exists None.
  - intros ph a b Hph%list_elem_of_singleton Ho. subst ph.
    assert (NoDup (phase_moves n put_all)) as Hnd.
    { pose proof put_all_nodup as H. unfold in_turn in H. cbn in H. by rewrite app_nil_r in H. }
    destruct (ordered_ne _ _ _ Hnd Ho) as (Ha & Hb & Hab). by apply put_all_independent.
  - intros l1 ph l2 ph' l3 p q a b E. destruct l1 as [|? [|]]; cbn in E; [|done|done].
    injection E as _ E. by destruct l2.
Qed.

Lemma put_all_outcome P s p q o :
  (∀ p, P p = phased [put_all] p) → rtc (mstep n) (minit P m0) s → 0 ≤ p < n → progs s p = [] →
  0 ≤ q < n → 0 ≤ o < nelems → mem s p Dst (q * nelems + o) = m0 q Src (si p + o).
Proof using Hne.
  intros HP Hr Hp Hend Hq Ho.
  rewrite (phased_outcome n m0 P [] put_all s p HP put_all_race_free eq_refl Hr
    (proj2 (elem_of_pes _ _) Hp) Hend p Dst (q * nelems + o)).
  rewrite (exec_all_delivers _ _ (mkMove q Src (si p) p Dst (q * nelems) nelems)).
  - cbn. f_equal. lia.
  - apply put_all_nodup.
  - intros x y. unfold in_turn. cbn. rewrite app_nil_r. apply put_all_independent.
  - unfold in_turn. cbn. rewrite app_nil_r. apply elem_of_phase_moves. exists q.
    split; [by apply elem_of_pes|]. apply elem_of_put_all. eauto.
  - unfold writes. cbn. split; [done|]. split; [done|lia].
Qed.
End broadcast_phase.


Lemma fcollect_phased n nelems me :
  fcollect_broadcast_ops n nelems me = phased [put_all n nelems (λ _, 0)] me.
Proof.
  unfold fcollect_broadcast_ops, put_nbi_wg, phased, phase_ops. cbn.
  rewrite (concat_singletons (λ j, OMove (mkMove me Src 0 j Dst (me * nelems) nelems))).
  rewrite app_nil_r, <- list_fmap_compose. done.
Qed.


(** The collect of a team: on the same strides every run of the members ends with
    all of them returned, and a member that has returned holds in block [q] of its
    destination the source of member [q], for all [q]. *)
Theorem fcollect_correct {V} n nelems stride (m0 : memory V) :
  0 < n → 0 < nelems →
  (pow2_stride stride →
   ∃ P, (∀ me, fcollect n nelems stride me = Ok (P me)) ∧ terminates n P m0 ∧
     ∀ s p q o, rtc (mstep n) (minit P m0) s → 0 ≤ p < n → progs s p = [] →
       0 ≤ q < n → 0 ≤ o < nelems → mem s p Dst (q * nelems + o) = m0 q Src o) ∧
  (¬ pow2_stride stride → ∀ me, fcollect n nelems stride me = Fail AssertFailed).
Proof.
  intros Hn Hne. pose proof (fcollect_phased n nelems) as HP. unfold fcollect, fcollect_broadcast.
  split; [|intros Hs me; by rewrite check_stride_other].
  intros Hs. exists (fcollect_broadcast_ops n nelems). split_and!.
  - intros me. by rewrite check_stride_pow2.
  - eapply phased_terminates; [exact HP|done|apply put_all_nodup].
  - intros s p q o Hr Hp Hend Hq Ho.
    by rewrite (put_all_outcome n nelems Hne (λ _, 0) m0 (fcollect_broadcast_ops n nelems) s p q o).
Qed.

(** ** Broadcast *)

Section get_broadcast.
Context (n nelems root : Z).

Definition get_phase : phase :=
  mkPhase (λ me, if me =? root then [] else [mkMove root Src 0 me Dst 0 nelems])
    (λ me, if me =? root then None else Some (Some root)) true.

Lemma elem_of_get_phase mv me :
  mv ∈ ph_moves get_phase me ↔ me ≠ root ∧ mv = mkMove root Src 0 me Dst 0 nelems.
Proof. cbn. destruct (Z.eqb_spec me root); set_solver. Qed.

Lemma get_phase_nodup : NoDup (in_turn n [get_phase]).
Proof.
  unfold in_turn. cbn. rewrite app_nil_r. apply (concat_nodup _ mv_to id).
  - rewrite list_fmap_id. apply NoDup_seqZ.
  - intros me _. cbn. case_if; repeat constructor; set_solver.
  - intros me mv _ [_ ->]%elem_of_get_phase. done.
Qed.

Lemma get_phase_independent a b :
  a ∈ phase_moves n get_phase → b ∈ phase_moves n get_phase → a ≠ b → independent a b.
Proof.
  intros (p & Hp & [_ ->]%elem_of_get_phase)%elem_of_phase_moves
    (q & Hq & [_ ->]%elem_of_get_phase)%elem_of_phase_moves Hab x c i.
  unfold writes, reads. cbn. split; intros (-> & -> & Hi); naive_solver.
Qed.

Lemma get_phase_race_free : race_free n [get_phase].
Proof.
  split.
  - apply get_phase_nodup.
  - intros ph p a Hph%list_elem_of_singleton _. subst ph. intros [Hne ->]%elem_of_get_phase.
    exists (Some root). cbn. rewrite (proj2 (Z.eqb_neq _ _)) by done. split; [done|].
    unfold peer. cbn. by rewrite Z.eqb_refl.
  - intros ph a b Hph%list_elem_of_singleton Ho. subst ph.
    assert (NoDup (phase_moves n get_phase)) as Hnd.
    { pose proof get_phase_nodup as H. unfold in_turn in H. cbn in H. by rewrite app_nil_r in H. }
    destruct (ordered_ne _ _ _ Hnd Ho) as (Ha & Hb & Hab). by apply get_phase_independent.
  - intros l1 ph l2 ph' l3 p q a b E. destruct l1 as [|? [|]]; cbn in E; [|done|done].
    injection E as _ E. by destruct l2.
Qed.

Lemma broadcast_phased num_pes me :
  4 ≤ num_pes → broadcast n nelems num_pes root me = phased [get_phase] me.
Proof.
  intros H4. unfold broadcast. rewrite (proj2 (Z.ltb_ge _ _)) by lia.
  unfold internal_get_broadcast, get_wg, get_nbi_wg, phased, phase_ops. cbn. by destruct (me =? root).
Qed.
End get_broadcast.

(** The broadcast of four elements and more: every run of the members ends
    with all of them returned, and a member other than the root that has returned
    holds the root's source. *)
Theorem broadcast_correct {V} n nelems num_pes root (m0 : memory V) :
  0 < n → 4 ≤ num_pes →
  terminates n (broadcast n nelems num_pes root) m0 ∧
  ∀ s p o, rtc (mstep n) (minit (broadcast n nelems num_pes root) m0) s → 0 ≤ p < n →
    progs s p = [] → p ≠ root → 0 ≤ o < nelems → mem s p Dst o = m0 root Src o.
Proof.
  intros Hn H4. assert (∀ me, broadcast n nelems num_pes root me = phased [get_phase nelems root] me)
    as HP by (intros; by apply broadcast_phased).
  split; [eapply phased_terminates; [exact HP|done|apply get_phase_nodup]|].
  intros s p o Hr Hp Hend Hne Ho.
  rewrite (phased_outcome n m0 _ [] _ s p HP (get_phase_race_free n nelems root) eq_refl Hr
    (proj2 (elem_of_pes _ _) Hp) Hend p Dst o).
  rewrite (exec_all_delivers _ _ (mkMove root Src 0 p Dst 0 nelems)).
  - cbn. f_equal. lia.
  - apply get_phase_nodup.
  - intros x y. unfold in_turn. cbn. rewrite app_nil_r. apply get_phase_independent.
  - unfold in_turn. cbn. rewrite app_nil_r. apply elem_of_phase_moves. exists p.
    split; [by apply elem_of_pes|]. by apply elem_of_get_phase.
  - unfold writes. cbn. split; [done|]. split; [done|lia].
Qed.

(** A memory that tells all places apart. *)
Definition labels : memory (Z * buffer * Z) := λ p a i, (p, a, i).

(** The value at a place after a schedule, and whether an element has returned. *)
Definition look_at {V} (s : option (mstate (V := V))) (p : Z) (a : buffer) (i : Z) : option (V * bool) :=
  s ← s; Some (mem s p a i, match progs s p with [] => true | _ => false end).

(** The broadcast of fewer than four elements does not wait for its puts: with
    three elements and the root second, the third one can return from the
    broadcast before the data arrives. *)
Theorem broadcast_put_unfinished :
  ∃ s, rtc (mstep 3) (minit (broadcast 3 1 3 1) labels) s ∧
    progs s 2 = [] ∧ mem s 2 Dst 0 = (2, Dst, 0).
Proof.
  destruct (run 3 [AStart 1; AStart 1; ASync] (minit (broadcast 3 1 3 1) labels)) as [s|] eqn:E.
  - exists s. split; [by eapply run_sound|].
    assert (look_at (run 3 [AStart 1; AStart 1; ASync] (minit (broadcast 3 1 3 1) labels)) 2 Dst 0
      = Some ((2, Dst, 0), true)) as H by (vm_compute; reflexivity).
    rewrite E in H. cbn in H. destruct (progs s 2); [|done]. by injection H as ->.
  - apply (f_equal (λ o, match o with Some _ => true | None => false end)) in E. vm_compute in E. done.
Qed.

(** ** The collect of Bruck *)

Lemma shift_loop_seqZ n fuel shift body :
  0 < n → 0 ≤ shift → Z.log2_up n - shift ≤ Z.of_nat fuel →
  shift_loop n fuel shift body = concat (body <$> seqZ shift (Z.log2_up n - shift)).
Proof.
  intros Hn. revert shift. induction fuel as [|fuel IH]; intros shift Hs Hf; cbn [shift_loop].
  - rewrite seqZ_nil by lia. done.
  - rewrite Z.shiftl_1_l. destruct (Z.ltb_spec (2 ^ shift) n) as [Hlt|Hge].
    + apply Z.log2_up_lt_pow2 in Hlt; [|lia..]. rewrite IH by lia.
      rewrite (seqZ_cons shift) by lia. cbn. do 4 f_equal; lia.
    + apply Z.log2_up_le_pow2 in Hge; [|lia..]. rewrite seqZ_nil by lia. done.
Qed.

Section brucks.
Context (n nelems : Z) (Hn : 0 < n) (Hne : 0 < nelems).

(** The member that is [d] behind [p] in the ring. *)
Definition behind (p d : Z) : Z := (p - d) mod n.

Lemma behind_range p d : 0 ≤ behind p d < n.
Proof using Hn. apply Z.mod_pos_bound. lia. Qed.

Lemma behind_behind p a b : behind (behind p a) b = behind p (a + b).
Proof. unfold behind. rewrite Zminus_mod_idemp_l. f_equal. lia. Qed.

Lemma behind_add p d : 0 ≤ p < n → behind ((p + d) mod n) d = p.
Proof. intros Hp. unfold behind. rewrite Zminus_mod_idemp_l, Z.mod_small; lia. Qed.

Lemma add_behind p d : 0 ≤ p < n → (behind p d + d) mod n = p.
Proof. intros Hp. unfold behind. rewrite Zplus_mod_idemp_l, Z.mod_small; lia. Qed.

Inductive stage := Fetch | Round (k : Z) | Rotate.

#[local] Instance stage_eq_dec : EqDecision stage.
Proof. solve_decision. Defined.

Definition round_size (k : Z) : Z := Z.min (2 ^ k) (n - 2 ^ k) * nelems.

(** The move of the final rotation for one index of the work array. *)
Definition rotation (p i : Z) : move :=
  mkMove p PAta i p Dst (behind p (i / nelems) * nelems + i mod nelems) 1.

Definition stage_phase (st : stage) : phase :=
  match st with
  | Fetch => mkPhase (λ p, [mkMove p Src 0 p PAta 0 nelems]) (λ p, Some (Some p)) false
  | Round k =>
      mkPhase (λ p, [mkMove p PAta 0 ((p + 2 ^ k) mod n) PAta (2 ^ k * nelems) (round_size k)])
        (λ p, Some (Some ((p + 2 ^ k) mod n))) true
  | Rotate => mkPhase (λ p, rotation p <$> seqZ 0 (n * nelems)) (λ p, Some (Some p)) true
  end.

Definition stages : list stage := Fetch :: (Round <$> seqZ 0 (Z.log2_up n)) ++ [Rotate].

Lemma elem_of_rotate mv p :
  mv ∈ ph_moves (stage_phase Rotate) p ↔ ∃ i, 0 ≤ i < n * nelems ∧ mv = rotation p i.
Proof.
  cbn. rewrite list_elem_of_fmap. setoid_rewrite elem_of_seqZ.
  split; intros (i & ? & ?); exists i; split; first [done|lia].
Qed.

Lemma round_bounds k : Round k ∈ stages → 0 ≤ k ∧ 1 ≤ 2 ^ k < n.
Proof using Hn.
  unfold stages. rewrite elem_of_cons, elem_of_app, list_elem_of_fmap, list_elem_of_singleton.
  intros [?|[(k' & [= ->] & Hk%elem_of_seqZ)|?]]; [done| |done].
  assert (2 ^ k' < n) by (apply Z.log2_up_lt_pow2; lia).
  pose proof (Z.pow_pos_nonneg 2 k'). lia.
Qed.

(** The rotation reaches different places. *)
Lemma rotation_inj p i j :
  0 ≤ i < n * nelems → 0 ≤ j < n * nelems → mv_di (rotation p i) = mv_di (rotation p j) → i = j.
Proof using Hn Hne.
  cbn. intros Hi Hj E.
  pose proof (Z.mod_pos_bound i nelems Hne). pose proof (Z.mod_pos_bound j nelems Hne).
  pose proof (Z.div_mod i nelems ltac:(lia)). pose proof (Z.div_mod j nelems ltac:(lia)).
  assert (behind p (i / nelems) = behind p (j / nelems)) as Eb
    by (eapply (block_inj nelems Hne _ _ (behind p (i / nelems) * nelems + i mod nelems)); lia).
  assert (i mod nelems = j mod nelems) as Em by (rewrite Eb in E; lia).
  assert (0 ≤ i / nelems < n ∧ 0 ≤ j / nelems < n) as [Hi' Hj'] by nia.
  assert (i / nelems = j / nelems); [|lia].
  rewrite <- (add_behind (i / nelems) (- p) Hi'), <- (add_behind (j / nelems) (- p) Hj').
  unfold behind in *. rewrite !Zplus_mod_idemp_l.
  replace (i / nelems - - p + - p) with (p - (p - i / nelems)) by lia.
  replace (j / nelems - - p + - p) with (p - (p - j / nelems)) by lia.
  by rewrite <- (Zminus_mod_idemp_r p (p - i / nelems)), Eb, Zminus_mod_idemp_r.
Qed.

Lemma stage_independent st p q a b :
  st ∈ stages → 0 ≤ p < n → 0 ≤ q < n → a ∈ ph_moves (stage_phase st) p → b ∈ ph_moves (stage_phase st) q →
  a ≠ b → independent a b.
Proof using Hn Hne.
  intros Hst Hp Hq Ha Hb Hab x c i. destruct st as [|k|].
  - cbn in Ha, Hb. apply list_elem_of_singleton in Ha as ->, Hb as ->.
    unfold writes, reads. cbn. split; intros (-> & -> & Hi); naive_solver.
  - pose proof (round_bounds k Hst). cbn in Ha, Hb. apply list_elem_of_singleton in Ha as ->, Hb as ->.
    assert (round_size k ≤ 2 ^ k * nelems) by (unfold round_size; nia).
    unfold writes, reads. cbn. split; intros (-> & -> & Hi).
    + split; [intros (_ & _ & ?); lia|]. intros (E & _ & _). apply Hab.
      by rewrite <- (behind_add p (2 ^ k) Hp), <- (behind_add q (2 ^ k) Hq), E.
    + intros (_ & _ & ?). lia.
  - apply elem_of_rotate in Ha as (i1 & Hi1 & ->), Hb as (i2 & Hi2 & ->).
    unfold writes, reads. cbn. split; intros (-> & -> & Hi); [|naive_solver].
    split; [naive_solver|]. intros (<- & _ & Hi'). apply Hab.
    by rewrite (rotation_inj p i1 i2) by (cbn; lia).
Qed.

Lemma stage_moves_nodup st : NoDup (phase_moves n (stage_phase st)).
Proof using Hn Hne.
  unfold phase_moves. apply (concat_nodup _ mv_from id).
  - rewrite list_fmap_id. apply NoDup_seqZ.
  - intros p _. destruct st; cbn; [apply NoDup_singleton..|].
    apply NoDup_fmap_2_strong; [|apply NoDup_seqZ].
    intros i j Hi%elem_of_seqZ Hj%elem_of_seqZ E. apply (rotation_inj p); [lia..|by rewrite E].
  - intros p mv _ Hmv. destruct st; cbn in Hmv; [by apply list_elem_of_singleton in Hmv as ->..|].
    by apply elem_of_rotate in Hmv as (i & _ & ->).
Qed.

(** The stage of a move. *)
Definition stage_of (mv : move) : stage :=
  match mv_src mv, mv_dst mv with
  | Src, _ => Fetch
  | _, Dst => Rotate
  | _, _ => Round (Z.log2 (mv_di mv / nelems))
  end.

Lemma stages_nodup : NoDup (in_turn n (stage_phase <$> stages)).
Proof using Hn Hne.
  unfold in_turn. rewrite <- list_fmap_compose. apply (concat_nodup _ stage_of id).
  - rewrite list_fmap_id. unfold stages. apply NoDup_cons. split.
    + rewrite elem_of_app, list_elem_of_fmap, list_elem_of_singleton. naive_solver.
    + apply NoDup_app. split; [|split; [|apply NoDup_singleton]].
      * apply NoDup_fmap_2; [by intros ?? [=]|apply NoDup_seqZ].
      * intros st (k & -> & _)%list_elem_of_fmap ?%list_elem_of_singleton. done.
  - intros st _. apply stage_moves_nodup.
  - intros st mv Hst (p & _ & Hmv)%elem_of_phase_moves. destruct st as [|k|].
    + cbn in Hmv. by apply list_elem_of_singleton in Hmv as ->.
    + cbn in Hmv. apply list_elem_of_singleton in Hmv as ->. unfold stage_of. cbn.
      rewrite Z.div_mul, Z.log2_pow2; [done| |lia]. by apply round_bounds in Hst as [? _].
    + by apply elem_of_rotate in Hmv as (i & _ & ->).
Qed.

Lemma later_stage_sync ph l1 l2 :
  stage_phase <$> (Round <$> seqZ 0 (Z.log2_up n)) ++ [Rotate] = l1 ++ ph :: l2 → ph_sync ph = true.
Proof.
  intros E. assert (ph ∈ l1 ++ ph :: l2) as Hin by set_solver.
  rewrite <- E, fmap_app, elem_of_app, !list_elem_of_fmap in Hin. setoid_rewrite list_elem_of_fmap in Hin.
  by destruct Hin as [(st & -> & k & -> & _)|(st & -> & ->%list_elem_of_singleton)].
Qed.

(** Only the first fetch has no barrier behind it. *)
Lemma fmap_stages_inv l1 ph l2 ph' l3 :
  stage_phase <$> stages = l1 ++ ph :: l2 ++ ph' :: l3 →
  has_sync (ph :: l2) ∨
  (ph = stage_phase Fetch ∧ (ph' = stage_phase (Round 0) ∨ ph' = stage_phase Rotate)).
Proof using Hn Hne.
  unfold stages. intros E. destruct l1 as [|ph1 l1].
  - rewrite fmap_cons in E. cbn [app] in E. injection E as <- E.
    destruct l2 as [|ph2 l2]; [right; split; [done|]|left].
    + destruct (decide (0 < Z.log2_up n)) as [Hl|Hl].
      * rewrite seqZ_cons in E by lia. cbn in E. injection E as <- _. by left.
      * rewrite seqZ_nil in E by lia. cbn in E. injection E as <- _. by right.
    + apply Exists_cons_tl, Exists_cons_hd. by apply (later_stage_sync _ [] _ E).
  - rewrite fmap_cons in E. cbn [app] in E. injection E as _ E.
    left. apply Exists_cons_hd. by apply (later_stage_sync _ _ _ E).
Qed.

Lemma stages_race_free : race_free n (stage_phase <$> stages).
Proof using Hn Hne.
  split.
  - apply stages_nodup.
  - intros ph p a (st & -> & Hst)%list_elem_of_fmap Hp%elem_of_pes Ha. unfold waits, covers, peer.
    destruct st as [|k|]; cbn in Ha |- *; eexists; (split; [reflexivity|]); cbn.
    + apply list_elem_of_singleton in Ha as ->. cbn. by rewrite Z.eqb_refl.
    + apply list_elem_of_singleton in Ha as ->. cbn. case_match eqn:E; [|done].
      by apply Z.eqb_eq in E.
    + apply list_elem_of_fmap in Ha as (i & -> & _). cbn. by rewrite Z.eqb_refl.
  - intros ph a b (st & -> & Hst)%list_elem_of_fmap Ho.
    destruct (ordered_ne _ _ _ (stage_moves_nodup st) Ho)
      as ((p & Hp & Ha)%elem_of_phase_moves & (q & Hq & Hb)%elem_of_phase_moves & Hab).
    apply elem_of_pes in Hp, Hq. by apply (stage_independent st p q).
  - intros l1 ph l2 ph' l3 p q a b E Hns Hp%elem_of_pes Hq%elem_of_pes Hpq Ha Hb x c i.
    destruct (fmap_stages_inv _ _ _ _ _ E) as [|[-> Hor]]; [done|].
    cbn in Ha. apply list_elem_of_singleton in Ha as ->. unfold writes, reads. cbn.
    destruct Hor as [->| ->].
    + cbn in Hb. apply list_elem_of_singleton in Hb as ->. cbn.
      change (2 ^ 0) with 1. split; intros (-> & -> & Hi); [|naive_solver].
      split; [naive_solver|]. intros (_ & _ & ?). lia.
    + apply elem_of_rotate in Hb as (j & _ & ->). cbn. split; intros (-> & -> & Hi); naive_solver.
Qed.

(** ** Its program, stage by stage *)

Lemma fcollect_brucks_phased me :
  0 ≤ me < n → Z.log2_up n ≤ 31 → fcollect_brucks_ops n nelems me = phased (stage_phase <$> stages) me.
Proof using Hn Hne.
  intros Hme Hlog. unfold fcollect_brucks_ops, stages.
  rewrite shift_loop_seqZ by lia. rewrite Z.sub_0_r.
  rewrite fmap_cons, fmap_app, phased_cons, phased_app. f_equal. f_equal.
  - unfold phased. rewrite <- !list_fmap_compose. apply f_equal, list_fmap_ext.
    intros i k Hk%list_elem_of_lookup_2%elem_of_seqZ. cbn.
    rewrite Z.shiftl_1_l, Z.rem_mod_nonneg by lia. done.
  - unfold copy_loop, phased, phase_ops. cbn. rewrite app_nil_r, <- app_assoc. f_equal.
    f_equal. apply list_fmap_ext. intros i j Hj%list_elem_of_lookup_2%elem_of_seqZ.
    unfold rotation, behind.
    assert (0 ≤ j / nelems < n) by (pose proof (Z.div_mod j nelems); pose proof (Z.mod_pos_bound j nelems); nia).
    rewrite (Z.quot_div_nonneg j), (Z.rem_mod_nonneg j), Z.rem_mod_nonneg by lia.
    replace (n + me - j / nelems) with (me - j / nelems + 1 * n) by lia.
    by rewrite Z.mod_add by lia.
Qed.
End brucks.

Lemma in_turn_snoc n phs ph : in_turn n (phs ++ [ph]) = in_turn n phs ++ phase_moves n ph.
Proof. unfold in_turn. rewrite fmap_app, concat_app. cbn. by rewrite app_nil_r. Qed.

Section brucks_outcome.
Context {V : Type} (n nelems : Z) (Hn : 0 < n) (Hne : 0 < nelems) (m0 : memory V).

(** After the rounds up to [k], the work array holds [2 ^ k] blocks from behind. *)
Definition gathered (k : Z) (m : memory V) : Prop :=
  ∀ p j o, 0 ≤ p < n → 0 ≤ j < Z.min (2 ^ k) n → 0 ≤ o < nelems →
    m p PAta (j * nelems + o) = m0 (behind n p j) Src o.

Lemma stage_delivers (m : memory V) st x p a i :
  st ∈ stages n → x ∈ phase_moves n (stage_phase n nelems st) → writes x p a i →
  exec_all m (phase_moves n (stage_phase n nelems st)) p a i =
  m (mv_from x) (mv_src x) (mv_si x + (i - mv_di x)).
Proof using Hn Hne.
  intros Hst Hx Hw. apply exec_all_delivers; [by apply stage_moves_nodup| |done|done].
  intros y z (q & Hq & Hy)%elem_of_phase_moves (r & Hr & Hz)%elem_of_phase_moves Hyz.
  apply elem_of_pes in Hq, Hr. by eapply (stage_independent n nelems Hn Hne st q r).
Qed.

Lemma gathered_fetch : gathered 0 (exec_all m0 (phase_moves n (stage_phase n nelems Fetch))).
Proof using Hn Hne.
  intros p j o Hp Hj Ho. change (2 ^ 0) with 1 in Hj. assert (j = 0) as -> by lia.
  rewrite (stage_delivers _ _ (mkMove p Src 0 p PAta 0 nelems)).
  - cbn. unfold behind. rewrite Z.sub_0_r, Z.mod_small by lia. f_equal. lia.
  - unfold stages. set_solver.
  - apply elem_of_phase_moves. exists p. split; [by apply elem_of_pes|]. cbn. set_solver.
  - unfold writes. cbn. split; [done|]. split; [done|lia].
Qed.

Lemma gathered_round k m :
  Round k ∈ stages n → gathered k m →
  gathered (k + 1) (exec_all m (phase_moves n (stage_phase n nelems (Round k)))).
Proof using Hn Hne.
  intros Hst Hm p j o Hp Hj Ho. destruct (round_bounds n Hn k Hst) as [Hk0 Hk].
  rewrite Z.pow_add_r in Hj by lia. change (2 ^ 1) with 2 in Hj.
  destruct (decide (j < 2 ^ k)) as [Hlt|Hge].
  - rewrite exec_all_other; [apply Hm; lia|].
    intros x (q & _ & Hx)%elem_of_phase_moves. cbn in Hx. apply list_elem_of_singleton in Hx as ->.
    unfold writes. cbn. intros (_ & _ & Hi). nia.
  - set (q := behind n p (2 ^ k)). pose proof (behind_range n Hn p (2 ^ k)) as Hq.
    rewrite (stage_delivers _ (Round k)
      (mkMove q PAta 0 ((q + 2 ^ k) mod n) PAta (2 ^ k * nelems) (round_size n nelems k))).
    + cbn [mv_from mv_src mv_si mv_di]. rewrite Z.add_0_l. replace (j * nelems + o - 2 ^ k * nelems) with ((j - 2 ^ k) * nelems + o) by lia.
      rewrite Hm by (fold q in Hq; lia). unfold q. rewrite behind_behind. do 2 f_equal. lia.
    + done.
    + apply elem_of_phase_moves. exists q. split; [by apply elem_of_pes|]. cbn. set_solver.
    + unfold writes. cbn. unfold q. rewrite add_behind by done. split; [done|]. split; [done|].
      unfold round_size. nia.
Qed.

Lemma gathered_rounds (r : nat) m :
  Z.of_nat r ≤ Z.log2_up n → gathered 0 m →
  gathered (Z.of_nat r) (exec_all m (in_turn n (stage_phase n nelems <$> (Round <$> seqZ 0 (Z.of_nat r))))).
Proof using Hn Hne.
  induction r as [|r IH]; intros Hr Hm; [exact Hm|].
  rewrite Nat2Z.inj_succ, <- Z.add_1_r, seqZ_app, !fmap_app by lia.
  change (seqZ (0 + Z.of_nat r) 1) with [0 + Z.of_nat r]. cbn [fmap list_fmap].
  rewrite in_turn_snoc, exec_all_app, Z.add_0_l.
  apply gathered_round; [|apply IH; [lia|done]].
  unfold stages. rewrite elem_of_cons, elem_of_app, list_elem_of_fmap. right. left.
  exists (Z.of_nat r). split; [done|]. apply elem_of_seqZ. lia.
Qed.

Lemma gathered_all p q o (m : memory V) :
  gathered (Z.log2_up n) m → 0 ≤ p < n → 0 ≤ q < n → 0 ≤ o < nelems →
  exec_all m (phase_moves n (stage_phase n nelems Rotate)) p Dst (q * nelems + o) = m0 q Src o.
Proof using Hn Hne.
  intros Hm Hp Hq Ho. set (j := behind n p q). pose proof (behind_range n Hn p q) as Hj. fold j in Hj.
  set (i := j * nelems + o).
  assert (i / nelems = j ∧ i mod nelems = o) as [Ed Em].
  { unfold i. rewrite Z.div_add_l, Z.div_small, Z.add_0_r by lia. split; [done|].
    by rewrite Z.add_comm, Z.mod_add, Z.mod_small by lia. }
  assert (behind n p j = q) as Eq.
  { unfold j, behind. rewrite Zminus_mod_idemp_r.
    replace (p - (p - q)) with q by lia. apply Z.mod_small. lia. }
  rewrite (stage_delivers _ Rotate (rotation n nelems p i)).
  - cbn [rotation mv_from mv_src mv_si mv_di]. rewrite Ed, Em, Eq, Z.sub_diag, Z.add_0_r. unfold i.
    assert (n ≤ 2 ^ Z.log2_up n) by (apply Z.log2_up_le_pow2; lia).
    rewrite Hm by lia. by rewrite Eq.
  - unfold stages. set_solver.
  - apply elem_of_phase_moves. exists p. split; [by apply elem_of_pes|].
    apply elem_of_rotate. exists i. split; [unfold i; nia|done].
  - unfold writes. cbn. rewrite Ed, Em, Eq. split; [done|]. split; [done|lia].
Qed.
End brucks_outcome.

(** C31: The collect of Bruck.  On a team whose stride is a power of two and with
    a work array that is large enough it passes its checks, every run of the
    members ends with all of them returned, and a member that has returned holds in
    block [q] of its destination the source of member [q], the outcome of the plain
    collect; with another stride, or a larger size that fits an [int], it stops at
    an assertion. *)
Theorem fcollect_brucks_correct {V} n nelems stride (m0 : memory V) :
  0 < n → 0 < nelems → n * nelems ≤ INT_MAX →
  (pow2_stride stride → n * nelems ≤ ROC_SHMEM_ATA_MAX_WRKDATA_SIZE →
   ∃ P, (∀ me, 0 ≤ me < n → fcollect_brucks n nelems stride me = Ok (P me)) ∧ terminates n P m0 ∧
     ∀ s p q o, rtc (mstep n) (minit P m0) s → 0 ≤ p < n → progs s p = [] →
       0 ≤ q < n → 0 ≤ o < nelems → mem s p Dst (q * nelems + o) = m0 q Src o) ∧
  (¬ pow2_stride stride ∨ ROC_SHMEM_ATA_MAX_WRKDATA_SIZE < n * nelems →
   ∀ me, fcollect_brucks n nelems stride me = Fail AssertFailed).
Proof.
  intros Hn Hne Hmax. unfold fcollect_brucks.
  rewrite s32_small, uwrap_small by (unfold INT_MIN, INT_MAX in *; lia).
  split.
  2: { intros Hor me. destruct (decide (2 ^ log_pe_stride stride = stride)) as [E|E].
       - assert (pow2_stride stride) as Hs by (exists (log_pe_stride stride); split; [apply Z.log2_nonneg|done]).
         rewrite check_stride_pow2 by done. destruct Hor as [|Hgt]; [done|]. simpl.
         by rewrite (proj2 (Z.ltb_lt _ _)).
       - unfold check_stride. by rewrite (proj2 (Z.eqb_neq _ _)). }
  intros Hs Hle. rewrite check_stride_pow2 by done.
  exists (phased (stage_phase n nelems <$> stages n)). rewrite (proj2 (Z.ltb_ge _ _)) by done.
  split_and!.
  - intros me Hme. cbn. f_equal. apply fcollect_brucks_phased; [done..|].
    unfold INT_MAX in Hmax. apply Z.log2_up_le_pow2; nia.
  - eapply phased_terminates; [done|done|by apply stages_nodup].
  - intros s p q o Hr Hp Hend Hq Ho.
    pose proof (stages_race_free n nelems Hn Hne) as Hrf.
    unfold stages in *. rewrite app_comm_cons, fmap_app in Hr, Hrf. cbn [fmap list_fmap] in Hr, Hrf.
    rewrite (phased_outcome n m0 _ _ _ s p (λ _, eq_refl) Hrf eq_refl Hr (proj2 (elem_of_pes _ _) Hp) Hend
      p Dst (q * nelems + o)).
    rewrite in_turn_snoc, exec_all_app. apply gathered_all; [done..| |done|done|done].
    change (in_turn n (?x :: ?l)) with (phase_moves n x ++ in_turn n l). rewrite exec_all_app.
    pose proof (Z.log2_up_nonneg n). rewrite <- (Z2Nat.id (Z.log2_up n)) by done.
    apply gathered_rounds; [done|done|lia|]. by apply gathered_fetch.
Qed.

(** ** The all-to-all of Bruck *)

(** A schedule that takes every member to the next barrier, in turn, and one that
    lets all members finish the loop of [k] steps behind a barrier first. *)
Definition in_order (n : Z) : list (option (Z * nat)) := (λ p, Some (p, 1000%nat)) <$> seqZ 0 n.
Definition patient (n : Z) (k : nat) : list (option (Z * nat)) := (λ p, Some (p, k)) <$> seqZ 0 n.

Lemma drive_observed {V} n l (s0 : mstate (V := V)) p a i v :
  look_at (drive n l s0) p a i = Some (v, true) →
  ∃ s, rtc (mstep n) s0 s ∧ progs s p = [] ∧ mem s p a i = v.
Proof.
  destruct (drive n l s0) as [s|] eqn:E; [|done]. cbn. intros H. exists s.
  split; [by eapply drive_sound|]. destruct (progs s p); [|done]. by injection H as ->.
Qed.

(** The all-to-all of Bruck has no barrier between the unpacking and the puts of
    the next round, which go to the array that is unpacked: with four members and
    one element per block, a run that lets the members unpack first delivers
    block [0] of member [1] to member [0], and another run delivers a block that
    is not meant for member [0]. *)
Theorem alltoall_brucks_race :
  (∃ s, rtc (mstep 4) (minit (alltoall_brucks_ops 4 1) labels) s ∧ progs s 0 = [] ∧
        mem s 0 Dst 1 = (1, Src, 0)) ∧
  (∃ s, rtc (mstep 4) (minit (alltoall_brucks_ops 4 1) labels) s ∧ progs s 0 = [] ∧
        mem s 0 Dst 1 = (3, Src, 2)).
Proof.
  split.
  - apply (drive_observed 4 (in_order 4 ++ [None] ++ patient 4 3 ++ in_order 4 ++ [None]
      ++ in_order 4 ++ [None])). vm_compute. reflexivity.
  - apply (drive_observed 4 (in_order 4 ++ [None] ++ in_order 4 ++ [None] ++ in_order 4 ++ [None])).
    vm_compute. reflexivity.
Qed.

(** The size of the last, partial region of a round is counted in blocks instead
    of elements: with three members and two elements per block, also when the
    members unpack first, the second element that member [0] should have from
    member [1] is not sent. *)
Theorem alltoall_brucks_short :
  ∃ s, rtc (mstep 3) (minit (alltoall_brucks_ops 3 2) labels) s ∧ progs s 0 = [] ∧
    mem s 0 Dst 3 ≠ (1, Src, 1).
Proof.
  destruct (drive_observed 3 (in_order 3 ++ [None] ++ patient 3 3 ++ in_order 3 ++ [None]
    ++ in_order 3 ++ [None]) (minit (alltoall_brucks_ops 3 2) labels) 0 Dst 3 (2, Src, 1)) as (s & Hs & Hp & Hm).
  - vm_compute. reflexivity.
  - exists s. by rewrite Hm.
Qed.

(** ** The collectives on small teams *)

Lemma pow2_stride_4 : pow2_stride 4.
Proof. by exists 2. Qed.

Lemma not_pow2_stride_3 : ¬ pow2_stride 3.
Proof.
  intros H. apply check_stride_pow2 in H. vm_compute in H. discriminate.
Qed.


Lemma fcollect_correct_witness :
  (∃ P, (∀ me, fcollect 3 2 4 me = Ok (P me)) ∧ terminates 3 P labels) ∧
  (∀ me, fcollect 3 2 3 me = Fail AssertFailed).
Proof.
  destruct (fcollect_correct 3 2 4 labels ltac:(lia) ltac:(lia)) as [Hp _].
  destruct (fcollect_correct 3 2 3 labels ltac:(lia) ltac:(lia)) as [_ Hn].
  split; [|exact (Hn not_pow2_stride_3)]. destruct (Hp pow2_stride_4) as (P & HP & Ht & _). by exists P.
Defined.

Lemma broadcast_correct_witness :
  terminates 4 (broadcast 4 2 4 1) labels ∧
  ∃ s, rtc (mstep 4) (minit (broadcast 4 2 4 1) labels) s ∧ progs s 3 = [] ∧ mem s 3 Dst 1 = (1, Src, 1).
Proof.
  destruct (broadcast_correct 4 2 4 1 labels ltac:(lia) ltac:(lia)) as [Ht Hd]. split; [exact Ht|].
  destruct (drive_observed 4 (in_order 4 ++ [None]) (minit (broadcast 4 2 4 1) labels) 3 Dst 1 (1, Src, 1))
    as (s & Hs & Hp & _); [vm_compute; reflexivity|].
  exists s. split; [exact Hs|]. split; [exact Hp|]. exact (Hd s 3 1 Hs ltac:(lia) Hp ltac:(lia) ltac:(lia)).
Defined.

Lemma fcollect_brucks_correct_witness :
  (∀ me, fcollect_brucks 3 2000000 4 me = Fail AssertFailed) ∧
  (∀ me, fcollect_brucks 3 2 3 me = Fail AssertFailed) ∧
  ∃ P, (∀ me, 0 ≤ me < 3 → fcollect_brucks 3 2 4 me = Ok (P me)) ∧ terminates 3 P labels.
Proof.
  split_and!.
  - apply (fcollect_brucks_correct 3 2000000 4 labels ltac:(lia) ltac:(lia) ltac:(by vm_compute)).
    right. by vm_compute.
  - apply (fcollect_brucks_correct 3 2 3 labels ltac:(lia) ltac:(lia) ltac:(by vm_compute)).
    left. exact not_pow2_stride_3.
  - destruct (fcollect_brucks_correct 3 2 4 labels ltac:(lia) ltac:(lia) ltac:(by vm_compute)) as [H _].
    destruct (H pow2_stride_4 ltac:(by vm_compute)) as (P & HP & Ht & _).
    exists P. split; [exact HP|exact Ht].
Defined.
