(* ===== verification/Allreduce.v ===== *)
(** * Reductions of the InfiniBand backend

    [to_all] of [gpu_ib/gpu_ib_gpu_templates.hpp]: the choice of the algorithm and
    the direct one, in which every member puts its source to all others, raises
    a flag behind it, and combines what it received.  A member's call is a list of
    instructions; members and network interleave freely.  Shown: every run ends,
    all members hold the reduction of all sources, and the flags are down again;
    and what happens when calls follow each other on the same work arrays. *)
From stdpp Require Import functions.
From S2P Require Import Prelude Teams ROQueue Barrier.

Local Open Scope Z_scope.

(** ** Reduction operators *)

(** [OpWrap<Op>::Calc] on signed integers of [w] bits: the new [dst[i]]. *)
Definition Calc (Op : ROC_SHMEM_OP) (w : Z) (dst src : Z) : Z :=
  match Op with
  | ROC_SHMEM_SUM => swrap w (dst + src)
  | ROC_SHMEM_MAX => Z.max dst src
  | ROC_SHMEM_MIN => Z.min dst src
  | ROC_SHMEM_PROD => swrap w (dst * src)
  | ROC_SHMEM_AND => Z.land dst src
  | ROC_SHMEM_OR => Z.lor dst src
  | ROC_SHMEM_XOR => Z.lxor dst src
  end.

Lemma swrap_add_l w x y : 0 < w → swrap w (swrap w x + y) = swrap w (x + y).
Proof.
  intros Hw. unfold swrap. f_equal. set (h := 2 ^ (w - 1)).
  replace ((x + h) `mod` 2 ^ w - h + y + h) with ((x + h) `mod` 2 ^ w + y) by lia.
  rewrite Zplus_mod_idemp_l. f_equal. lia.
Qed.

Lemma swrap_mod w x : swrap w x = swrap w (x mod 2 ^ w).
Proof. unfold swrap. by rewrite Zplus_mod_idemp_l. Qed.

Lemma mod_swrap w x : (swrap w x) mod 2 ^ w = x mod 2 ^ w.
Proof. unfold swrap. rewrite Zminus_mod_idemp_l. f_equal. lia. Qed.

Lemma swrap_mul_l w x y : swrap w (swrap w x * y) = swrap w (x * y).
Proof.
  rewrite swrap_mod, <- Zmult_mod_idemp_l, mod_swrap, Zmult_mod_idemp_l. by rewrite <- swrap_mod.
Qed.

#[export] Instance Calc_comm Op w : Comm (=) (Calc Op w).
Proof.
  intros x y. destruct Op; cbn; [f_equal; lia|lia|lia|f_equal; lia|apply Z.land_comm|apply Z.lor_comm|apply Z.lxor_comm].
Qed.

Lemma Calc_assoc Op w : 0 < w → Assoc (=) (Calc Op w).
Proof.
  intros Hw x y z. destruct Op; cbn; [|lia|lia| |apply Z.land_assoc|apply Z.lor_assoc|].
  - rewrite swrap_add_l, Z.add_comm, swrap_add_l by done. f_equal. lia.
  - rewrite swrap_mul_l, Z.mul_comm, swrap_mul_l. f_equal. lia.
  - symmetry. apply Z.lxor_assoc.
Qed.

(** ** Combining lists *)

Section combined.
Context {V : Type} (op : V → V → V) `{!Comm (=) op, !Assoc (=) op}.

Lemma foldl_op_swap a b l : foldl op a (b :: l) = foldl op b (a :: l).
Proof using All. cbn. f_equal. apply (comm op). Qed.

Lemma foldl_op_perm a l1 l2 : l1 ≡ₚ l2 → foldl op a l1 = foldl op a l2.
Proof using All.
  intros Hp. revert a. induction Hp as [|x l1 l2 _ IH|x y l|l1 l2 l3 _ IH1 _ IH2]; intros a; cbn.
  - done.
  - apply IH.
  - f_equal. rewrite <- !(assoc op). f_equal. apply (comm op).
  - by rewrite IH1.
Qed.

(** The combination of a list that is not empty. *)
Definition combined (l : list V) : option V :=
  match l with [] => None | x :: l' => Some (foldl op x l') end.

Lemma combined_perm l1 l2 : l1 ≡ₚ l2 → combined l1 = combined l2.
Proof using All.
  intros Hp. induction Hp as [|x l1 l2 Hp _|x y l|l1 l2 l3 _ IH1 _ IH2]; cbn [combined].
  - done.
  - f_equal. by apply foldl_op_perm.
  - f_equal. apply foldl_op_swap.
  - congruence.
Qed.
End combined.

(** ** The choice of the algorithm *)

Inductive algorithm := Direct | Ring (n_seg seg_size chunk_size : Z) | Unsupported.

Definition to_all (num_pes nreduce : Z) : algorithm :=
  let direct_pWrk := u64 (s32 (num_pes * nreduce)) in
  let direct_pSync := u64 num_pes in
  let ring_pSync := u64 (s32 (2 * num_pes)) in
  let provided_pWrk := Z.max (Z.quot nreduce 2 + 1) ROC_SHMEM_REDUCE_MIN_WRKDATA_SIZE in
  let provided_pSync := ROC_SHMEM_REDUCE_SYNC_SIZE in
  if (direct_pWrk <=? provided_pWrk) && (direct_pSync <=? provided_pSync) then Direct
  else if ring_pSync <=? ROC_SHMEM_REDUCE_SYNC_SIZE then
    let chunk_size := 1024 in
    let ring_pWrk := u64 (s32 (chunk_size * num_pes)) in
    let '(ring_pWrk, chunk_size) :=
      if provided_pWrk <? ring_pWrk then
        let ring_pWrk := Z.max (Z.quot nreduce 2) ROC_SHMEM_REDUCE_MIN_WRKDATA_SIZE in
        (ring_pWrk, s32 (ring_pWrk / u64 num_pes))
      else (ring_pWrk, chunk_size) in
    let seg_size := s32 ring_pWrk in
    let n_seg := Z.quot nreduce seg_size in
    if n_seg =? 0 then Ring 1 nreduce (Z.quot nreduce num_pes)
    else Ring n_seg seg_size chunk_size
  else Unsupported.

(** ** The direct algorithm *)

(** What the work-group does between its barriers: copy the source to the
    destination; put the source to a peer; fence and raise the own flag there;
    wait for the flag of a peer; combined the peer's data; take all flags down.
    [c] numbers the calls, which differ in their source and destination. *)
Inductive instr :=
  | ICopy (c : nat)
  | IPut (c : nat) (i : Z)
  | IFlag (i : Z)
  | IWait (i : Z)
  | IReduce (c : nat) (i : Z)
  | IReset.

(** A put on its way; what it carries is read when it arrives. *)
Inductive msg := MData (c : nat) | MFlag.

Definition compute_reduce {V} (op : V → V → V) (src dst : Z → V) (size : Z) : Z → V := λ i,
  if (0 <=? i) && (i <? size) then op (dst i) (src i) else dst i.

Section direct.
Context {V : Type} (op : V → V → V) (nelems PE_start logPE_stride PE_size num_pes : Z).
(** The sources, by call, element and index. *)
Context (src : nat → Z → Z → V).

Definition stride : Z := Z.shiftl 1 logPE_stride.

(** [for (i = PE_start; i < finish; i += stride)] *)
Definition members : list Z := (λ k, PE_start + k * stride) <$> seqZ 0 PE_size.

Definition send_loop (c : nat) (pe : Z) (l : list Z) : list instr :=
  concat ((λ i, if i =? pe then [] else [IPut c i; IFlag i]) <$> l).
Definition compute_loop (c : nat) (pe : Z) (l : list Z) : list instr :=
  concat ((λ i, if i =? pe then [] else [IWait i; IReduce c i]) <$> l).

Definition internal_direct_allreduce (c : nat) (pe : Z) : list instr :=
  ICopy c :: send_loop c pe members ++ compute_loop c pe members ++ [IReset].

Record rstate := mkR {
  prog : Z → list instr;
  dst : nat → Z → Z → V;
  wrk : Z → Z → V;
  psync : Z → Z → Z;
  chan : Z * Z → list msg
}.

(** The next instruction of [pe]; [None] while it waits or has finished. *)
Definition rstep_pe (pe : Z) (s : rstate) : option rstate :=
  match prog s pe with
  | [] => None
  | ICopy c :: k =>
      Some (mkR (<[pe := k]> (prog s))
        (<[c := <[pe := λ o, if (0 <=? o) && (o <? nelems) then src c pe o else dst s c pe o]> (dst s c)]> (dst s))
        (wrk s) (psync s) (chan s))
  | IPut c i :: k =>
      Some (mkR (<[pe := k]> (prog s)) (dst s) (wrk s) (psync s)
        (<[(pe, i) := chan s (pe, i) ++ [MData c]]> (chan s)))
  | IFlag i :: k =>
      Some (mkR (<[pe := k]> (prog s)) (dst s) (wrk s) (psync s)
        (<[(pe, i) := chan s (pe, i) ++ [MFlag]]> (chan s)))
  | IWait i :: k =>
      if psync s pe i =? 1 then Some (mkR (<[pe := k]> (prog s)) (dst s) (wrk s) (psync s) (chan s))
      else None
  | IReduce c i :: k =>
      Some (mkR (<[pe := k]> (prog s))
        (<[c := <[pe := compute_reduce op (λ o, wrk s pe (i * nelems + o)) (dst s c pe) nelems]> (dst s c)]> (dst s))
        (wrk s) (psync s) (chan s))
  | IReset :: k =>
      Some (mkR (<[pe := k]> (prog s)) (dst s) (wrk s)
        (<[pe := λ i, if (0 <=? i) && (i <? num_pes) then ROC_SHMEM_SYNC_VALUE else psync s pe i]> (psync s))
        (chan s))
  end.

(** Arrival at [q] of the first message from [p]: the fence keeps the order of
    the puts to one element. *)
Definition rstep_net (p q : Z) (s : rstate) : option rstate :=
  match chan s (p, q) with
  | [] => None
  | MData c :: k =>
      Some (mkR (prog s) (dst s)
        (<[q := λ x, if (p * nelems <=? x) && (x <? p * nelems + nelems) then src c p (x - p * nelems)
                     else wrk s q x]> (wrk s))
        (psync s) (<[(p, q) := k]> (chan s)))
  | MFlag :: k =>
      Some (mkR (prog s) (dst s) (wrk s) (<[q := <[p := 1]> (psync s q)]> (psync s))
        (<[(p, q) := k]> (chan s)))
  end.

Inductive rstep (s s' : rstate) : Prop :=
  | rstep_member p : p ∈ members → rstep_pe p s = Some s' → rstep s s'
  | rstep_arrive p q : p ∈ members → q ∈ members → rstep_net p q s = Some s' → rstep s s'.

(** At the start nothing is on its way and the flags are down. *)
Definition rinit (P : Z → list instr) (d0 : nat → Z → Z → V) (w0 : Z → Z → V) : rstate :=
  mkR P d0 w0 (λ _ _, ROC_SHMEM_SYNC_VALUE) (λ _, []).

Definition rfinished (s : rstate) : Prop :=
  (∀ p, p ∈ members → prog s p = []) ∧ (∀ p q, p ∈ members → q ∈ members → chan s (p, q) = []).
End direct.

(** ** The instructions of one call *)

Section call.
Context (PE_start logPE_stride PE_size : Z) (c : nat).
Notation members := (members PE_start logPE_stride PE_size).
Notation call := (internal_direct_allreduce PE_start logPE_stride PE_size c).

Lemma elem_of_send_loop pe l x :
  x ∈ send_loop c pe l ↔ ∃ i, i ∈ l ∧ i ≠ pe ∧ (x = IPut c i ∨ x = IFlag i).
Proof.
  unfold send_loop. rewrite list_elem_of_In, in_concat. split.
  - intros (l' & Hl & Hx). apply list_elem_of_In in Hl, Hx. apply list_elem_of_fmap in Hl as (i & -> & Hi).
    destruct (Z.eqb_spec i pe); set_solver.
  - intros (i & Hi & Hne & Hx). exists [IPut c i; IFlag i]. rewrite <- !list_elem_of_In. split; [|set_solver].
    apply list_elem_of_fmap. exists i. by rewrite (proj2 (Z.eqb_neq _ _)).
Qed.

Lemma elem_of_compute_loop pe l x :
  x ∈ compute_loop c pe l ↔ ∃ i, i ∈ l ∧ i ≠ pe ∧ (x = IWait i ∨ x = IReduce c i).
Proof.
  unfold compute_loop. rewrite list_elem_of_In, in_concat. split.
  - intros (l' & Hl & Hx). apply list_elem_of_In in Hl, Hx. apply list_elem_of_fmap in Hl as (i & -> & Hi).
    destruct (Z.eqb_spec i pe); set_solver.
  - intros (i & Hi & Hne & Hx). exists [IWait i; IReduce c i]. rewrite <- !list_elem_of_In. split; [|set_solver].
    apply list_elem_of_fmap. exists i. by rewrite (proj2 (Z.eqb_neq _ _)).
Qed.

(** What has been executed before an instruction that occurs in the second part. *)
Lemma split_after {A} (l1 l2 d : list A) x k : l1 ++ l2 = d ++ x :: k → x ∉ l1 → ∃ d2, d = l1 ++ d2 ∧ l2 = d2 ++ x :: k.
Proof.
  intros E Hx. apply app_eq_app in E as (m & [[-> E]|[-> E]]).
  - destruct m as [|y m]; cbn in E.
    + exists []. by rewrite !app_nil_r.
    + injection E as <- _. set_solver.
  - by exists m.
Qed.

(** A member combines after it has waited. *)
Lemma reduce_after_wait pe d i k : call pe = d ++ IReduce c i :: k → IWait i ∈ d.
Proof.
  unfold internal_direct_allreduce. rewrite app_comm_cons. intros E.
  apply split_after in E as (d2 & -> & E).
  2: { rewrite elem_of_cons. intros [|Hx%elem_of_send_loop]; [done|]. naive_solver. }
  apply elem_of_app. right. revert d2 E. induction members as [|j l IH]; intros d2 E.
  - destruct d2 as [|? [|]]; cbn in E; done.
  - cbn in E. unfold compute_loop in E. cbn in E. destruct (Z.eqb_spec j pe); [by apply IH|].
    cbn in E. destruct d2 as [|x1 [|x2 d2]]; cbn in E; [done| |].
    + injection E as <- -> _. set_solver.
    + injection E as <- <- E. rewrite !elem_of_cons. right; right. by apply IH.
Qed.

(** It resets after it has waited for everybody, and that is the end. *)
Lemma reset_after_waits pe d k : call pe = d ++ IReset :: k → k = [] ∧ ∀ i, i ∈ members → i ≠ pe → IWait i ∈ d.
Proof.
  unfold internal_direct_allreduce. rewrite app_comm_cons, app_assoc. intros E.
  apply split_after in E as (d2 & -> & E).
  - destruct d2 as [|? [|]]; cbn in E; [|done|done]. injection E as <-. split; [done|].
    intros i Hi Hne. rewrite app_nil_r, elem_of_app. right. apply elem_of_compute_loop. eauto.
  - rewrite elem_of_app, elem_of_cons. intros [[|Hx%elem_of_send_loop]|Hx%elem_of_compute_loop]; naive_solver.
Qed.

Lemma reset_last pe d k : call pe = d ++ k → IReset ∈ d → k = [].
Proof.
  intros E (d1 & d2 & ->)%list_elem_of_split. rewrite <- app_assoc in E. cbn in E.
  apply reset_after_waits in E as [E _]. by apply app_eq_nil in E as [_ ->].
Qed.

(** The messages to [q]. *)
Definition msgs (q : Z) (l : list instr) : list msg :=
  omap (λ x, match x with
             | IPut c' i => if i =? q then Some (MData c') else None
             | IFlag i => if i =? q then Some MFlag else None
             | _ => None
             end) l.

Lemma msgs_app q l1 l2 : msgs q (l1 ++ l2) = msgs q l1 ++ msgs q l2.
Proof. apply omap_app. Qed.

Lemma msgs_send_loop pe q l :
  NoDup l → q ≠ pe → msgs q (send_loop c pe l) = if decide (q ∈ l) then [MData c; MFlag] else [].
Proof.
  intros Hl Hq. induction Hl as [|i l Hi Hl IH]; [done|].
  unfold send_loop. cbn [fmap list_fmap concat]. rewrite msgs_app. fold (send_loop c pe l). rewrite IH.
  destruct (Z.eqb_spec i pe) as [->|Hne]; cbn.
  - destruct (decide (q ∈ l)), (decide (q ∈ pe :: l)); set_solver.
  - destruct (Z.eqb_spec i q) as [->|Hiq]; cbn.
    + rewrite (decide_False (P := q ∈ l)), decide_True by set_solver. done.
    + destruct (decide (q ∈ l)), (decide (q ∈ i :: l)); set_solver.
Qed.

Lemma msgs_compute_loop pe q l : msgs q (compute_loop c pe l) = [].
Proof.
  induction l as [|i l IH]; [done|]. unfold compute_loop. cbn [fmap list_fmap concat].
  rewrite msgs_app. fold (compute_loop c pe l). rewrite IH. by destruct (i =? pe).
Qed.

Lemma msgs_self pe : msgs pe (call pe) = [].
Proof.
  unfold internal_direct_allreduce. change (?x :: ?l) with ([x] ++ l).
  rewrite !msgs_app, msgs_compute_loop. cbn. rewrite app_nil_r.
  induction members as [|i l IH]; [done|]. unfold send_loop. cbn [fmap list_fmap concat].
  rewrite msgs_app. fold (send_loop c pe l). rewrite IH, app_nil_r.
  destruct (Z.eqb_spec i pe) as [->|Hne]; [done|]. cbn. by rewrite (proj2 (Z.eqb_neq _ _)).
Qed.

Context (Hstride : 0 ≤ logPE_stride).

Lemma stride_pos : 0 < stride logPE_stride.
Proof. unfold stride. rewrite Z.shiftl_1_l. by apply Z.pow_pos_nonneg. Qed.

Lemma members_nodup : NoDup members.
Proof.
  apply NoDup_fmap_2; [|apply NoDup_seqZ]. intros i j E. pose proof stride_pos. nia.
Qed.

Lemma members_range num_pes p :
  0 ≤ PE_start → PE_start + (PE_size - 1) * stride logPE_stride < num_pes → p ∈ members → 0 ≤ p < num_pes.
Proof.
  intros Hstart Hlast (k & -> & Hk%elem_of_seqZ)%list_elem_of_fmap. pose proof stride_pos. nia.
Qed.

Lemma msgs_call pe q : q ∈ members → q ≠ pe → msgs q (call pe) = [MData c; MFlag].
Proof.
  intros Hq Hne. unfold internal_direct_allreduce. change (?x :: ?l) with ([x] ++ l).
  rewrite !msgs_app, msgs_send_loop, decide_True, msgs_compute_loop by (try apply members_nodup; done). done.
Qed.

Lemma msgs_prefix pe q d k :
  call pe = d ++ k → q ∈ members → q ≠ pe → [MData c; MFlag] = msgs q d ++ msgs q k.
Proof. intros E Hq Hne. rewrite <- msgs_app, <- E. by rewrite msgs_call. Qed.

(** It has sent everything before it waits. *)
Lemma wait_after_sends pe d i k q :
  call pe = d ++ IWait i :: k → q ∈ members → q ≠ pe → msgs q d = [MData c; MFlag].
Proof.
  intros E Hq Hne. pose proof (msgs_prefix pe q d _ E Hq Hne) as Hm.
  unfold internal_direct_allreduce in E. rewrite app_comm_cons in E.
  apply split_after in E as (d2 & -> & E).
  2: { rewrite elem_of_cons. intros [|Hx%elem_of_send_loop]; [done|]. naive_solver. }
  change (?x :: ?l) with ([x] ++ l) in Hm |- *. rewrite !msgs_app, msgs_send_loop, decide_True in Hm |- *
    by (try apply members_nodup; done).
  cbn in Hm |- *. injection Hm as Hm. symmetry in Hm. apply app_eq_nil in Hm as [-> _]. done.
Qed.
End call.

(** ** One call by every member *)

#[export] Instance instr_eq_dec : EqDecision instr.
Proof. solve_decision. Defined.

Section one_call.
Context {V : Type} (op : V → V → V) (nelems PE_start logPE_stride PE_size num_pes : Z).
Context (src : nat → Z → Z → V) (c : nat) (d0 : nat → Z → Z → V).
Context (Hstride : 0 ≤ logPE_stride) (Hstart : 0 ≤ PE_start).
Context (Hlast : PE_start + (PE_size - 1) * stride logPE_stride < num_pes).
Notation members := (members PE_start logPE_stride PE_size).
Notation call := (internal_direct_allreduce PE_start logPE_stride PE_size c).
Notation rstep := (rstep op nelems PE_start logPE_stride PE_size num_pes src).

(** The destination after an instruction when the peers' data is there. *)
Definition effect (p : Z) (f : Z → V) (x : instr) : Z → V :=
  match x with
  | ICopy c' => src c' p
  | IReduce c' i => λ o, op (f o) (src c' i o)
  | _ => f
  end.

(** [d p] has been executed by [p], [b p q] messages from [p] arrived at [q]. *)
Record rinv (s : rstate) (d : Z → list instr) (b : Z → Z → nat) : Prop := {
  ri_prog : ∀ p, p ∈ members → call p = d p ++ prog s p;
  ri_count : ∀ p q, p ∈ members → q ∈ members → (b p q ≤ length (msgs q (d p)))%nat;
  ri_chan : ∀ p q, p ∈ members → q ∈ members → chan s (p, q) = drop (b p q) (msgs q (d p));
  ri_data : ∀ p q o, p ∈ members → q ∈ members → (1 ≤ b p q)%nat → 0 ≤ o < nelems →
    wrk s q (p * nelems + o) = src c p o;
  ri_flag : ∀ p q, p ∈ members → q ∈ members →
    psync s q p = if decide (b p q = 2%nat ∧ IReset ∉ d q) then 1 else 0;
  ri_other : ∀ i q, i ∉ members → q ∈ members → psync s q i = 0;
  ri_wait : ∀ p q, p ∈ members → q ∈ members → IWait p ∈ d q → b p q = 2%nat;
  ri_dst : ∀ p o, p ∈ members → 0 ≤ o < nelems →
    dst s c p o = foldl (effect p) (d0 c p) (d p) o
}.

Lemma rinv_init w0 : rinv (rinit call d0 w0) (λ _, []) (λ _ _, 0%nat).
Proof.
  split; cbn; try done; try lia. intros p q _ _ Hw. by apply not_elem_of_nil in Hw.
Qed.

(** A member's instruction. *)
Lemma rinv_local s d b p x k dst' psync' chan' :
  rinv s d b → p ∈ members → prog s p = x :: k →
  (∀ p' q, chan' (p', q) = if decide (p' = p) then chan s (p, q) ++ msgs q [x] else chan s (p', q)) →
  (∀ q o, 0 ≤ o < nelems →
     dst' c q o = if decide (q = p) then effect p (dst s c p) x o else dst s c q o) →
  (∀ q i, 0 ≤ i < num_pes ∨ i ∉ members →
     psync' q i = if decide (q = p ∧ x = IReset) then 0 else psync s q i) →
  (∀ i, x = IWait i → b i p = 2%nat) →
  rinv (mkR (<[p := k]> (prog s)) dst' (wrk s) psync' chan') (<[p := d p ++ [x]]> d) b.
Proof using Hstride Hstart Hlast.
  intros Hi Hp Hx Hchan Hdst Hps Hw. split; cbn [prog dst wrk psync chan].
  - intros q Hq. destruct (decide (p = q)) as [<-|Hne].
    + rewrite !fn_lookup_insert, <- app_assoc. cbn. rewrite <- Hx. by apply (ri_prog _ _ _ Hi).
    + rewrite !fn_lookup_insert_ne by congruence. by apply (ri_prog _ _ _ Hi).
  - intros q r Hq Hr. pose proof (ri_count _ _ _ Hi q r Hq Hr). destruct (decide (p = q)) as [<-|Hne].
    + rewrite fn_lookup_insert, msgs_app, length_app. lia.
    + by rewrite fn_lookup_insert_ne.
  - intros q r Hq Hr. rewrite Hchan. destruct (decide (q = p)) as [->|Hne].
    + rewrite fn_lookup_insert, msgs_app, (ri_chan _ _ _ Hi) by done.
      rewrite drop_app_le by by apply (ri_count _ _ _ Hi). done.
    + rewrite fn_lookup_insert_ne by congruence. by apply (ri_chan _ _ _ Hi).
  - apply (ri_data _ _ _ Hi).
  - intros r q Hr Hq. rewrite Hps by (left; by apply (members_range PE_start logPE_stride PE_size)).
    rewrite (ri_flag _ _ _ Hi) by done. destruct (decide (p = q)) as [<-|Hne].
    + rewrite fn_lookup_insert. destruct (decide (x = IReset)) as [->|Hnr].
      * rewrite decide_True, decide_False by set_solver. done.
      * rewrite (decide_False (P := p = p ∧ x = IReset)) by tauto. apply decide_ext. set_solver.
    + rewrite (decide_False (P := q = p ∧ x = IReset)) by naive_solver. by rewrite fn_lookup_insert_ne.
  - intros i q Hii Hq. rewrite Hps by auto.
    destruct (decide (q = p ∧ x = IReset)); [reflexivity|by apply (ri_other _ _ _ Hi)].
  - intros r q Hr Hq Hin. destruct (decide (p = q)) as [<-|Hne].
    + rewrite fn_lookup_insert in Hin. apply elem_of_app in Hin as [Hin|Hin%list_elem_of_singleton].
      * by apply (ri_wait _ _ _ Hi).
      * by apply Hw.
    + rewrite fn_lookup_insert_ne in Hin by congruence. by apply (ri_wait _ _ _ Hi).
  - intros q o Hq Ho. rewrite Hdst by done. destruct (decide (q = p)) as [->|Hne].
    + rewrite fn_lookup_insert, foldl_snoc. pose proof (ri_dst _ _ _ Hi p o Hq Ho) as E.
      destruct x; cbn; rewrite ?E; done.
    + rewrite fn_lookup_insert_ne by congruence. by apply (ri_dst _ _ _ Hi).
Qed.

(** All instructions of the call are of the call. *)
Lemma call_number p x :
  x ∈ call p → match x with ICopy c' | IPut c' _ | IReduce c' _ => c' = c | _ => True end.
Proof.
  unfold internal_direct_allreduce. rewrite elem_of_cons, !elem_of_app, list_elem_of_singleton.
  intros [->|[Hx%elem_of_send_loop|[Hx%elem_of_compute_loop| ->]]]; naive_solver.
Qed.

(** The members that are named in the call are members. *)
Lemma call_wait_member p i : IWait i ∈ call p → i ∈ members.
Proof.
  unfold internal_direct_allreduce. rewrite elem_of_cons, !elem_of_app, list_elem_of_singleton.
  intros [?|[Hx%elem_of_send_loop|[Hx%elem_of_compute_loop|?]]]; naive_solver.
Qed.

Lemma in_range_true o n : 0 ≤ o < n → ((0 <=? o) && (o <? n))%Z = true.
Proof. intros. apply andb_true_iff. rewrite Z.leb_le, Z.ltb_lt. lia. Qed.

(** The channels after a put of [p] to [i]. *)
Lemma chan_put (ch : Z * Z → list msg) p i x m :
  (∀ q, msgs q [x] = if i =? q then [m] else []) → ∀ p' q,
  (<[(p, i) := ch (p, i) ++ [m]]> ch) (p', q) = if decide (p' = p) then ch (p, q) ++ msgs q [x] else ch (p', q).
Proof.
  intros Hm p' q. rewrite Hm. destruct (decide ((p, i) = (p', q))) as [[= -> ->]|Hne].
  - by rewrite fn_lookup_insert, decide_True, Z.eqb_refl by done.
  - rewrite fn_lookup_insert_ne by done. destruct (decide (p' = p)) as [->|]; [|done].
    rewrite (proj2 (Z.eqb_neq _ _)) by congruence. by rewrite app_nil_r.
Qed.

(** What an instruction leaves as it was. *)
Ltac unchanged :=
  first [ by intros ??; case_decide; [subst; by rewrite app_nil_r|done]
        | by intros ?? _; case_decide; subst
        | by intros ?? _; rewrite decide_False by naive_solver ].

Lemma rinv_pe s d b p s' :
  rinv s d b → p ∈ members → rstep_pe op nelems num_pes src p s = Some s' → ∃ d', rinv s' d' b.
Proof using Hstride Hstart Hlast.
  intros Hi Hp Hs. unfold rstep_pe in Hs. destruct (prog s p) as [|x k] eqn:Hx; [done|].
  pose proof (ri_prog _ _ _ Hi p Hp) as E. rewrite Hx in E.
  pose proof (call_number p x ltac:(rewrite E; set_solver)) as Hc.
  exists (<[p := d p ++ [x]]> d).
  destruct x as [c'|c' i|i|i|c' i|]; try subst c'.
  - injection Hs as <-. apply rinv_local; try done; [unchanged| |unchanged].
    intros q o Ho. rewrite fn_lookup_insert. case_decide; [subst|by rewrite fn_lookup_insert_ne by congruence].
    by rewrite fn_lookup_insert, in_range_true.
  - injection Hs as <-. apply rinv_local; try done; [|unchanged..]. apply chan_put. intros q. cbn. by destruct (i =? q).
  - injection Hs as <-. apply rinv_local; try done; [|unchanged..]. apply chan_put. intros q. cbn. by destruct (i =? q).
  - destruct (Z.eqb_spec (psync s p i) 1) as [H1|]; [|done]. injection Hs as <-.
    apply rinv_local; try done; [unchanged..|].
    intros j [= <-]. assert (i ∈ members) by (apply (call_wait_member p); rewrite E; set_solver).
    rewrite (ri_flag _ _ _ Hi) in H1 by done.
    destruct (decide (b i p = 2%nat ∧ IReset ∉ d p)) as [[? _]|]; [done|lia].
  - injection Hs as <-. apply rinv_local; try done; [unchanged| |unchanged].
    intros q o Ho. rewrite fn_lookup_insert. case_decide; [subst|by rewrite fn_lookup_insert_ne by congruence].
    rewrite fn_lookup_insert. unfold compute_reduce. rewrite in_range_true by done. cbn. f_equal.
    apply reduce_after_wait in E as Hw.
    assert (i ∈ members) by (apply (call_wait_member p); rewrite E; set_solver).
    apply (ri_data _ _ _ Hi); [done|done| |done]. rewrite (ri_wait _ _ _ Hi) by done. lia.
  - injection Hs as <-. apply rinv_local; try done; [unchanged..|].
    intros q j Hj. destruct (decide (p = q)) as [<-|Hne].
    + rewrite fn_lookup_insert, decide_True by done. case_if; [done|]. destruct Hj as [Hj|Hj].
      * by rewrite in_range_true in Heqb0.
      * by apply (ri_other _ _ _ Hi).
    + rewrite fn_lookup_insert_ne, decide_False by naive_solver. done.
Qed.

(** After its reset a member has everything. *)
Lemma reset_received s d b p q :
  rinv s d b → p ∈ members → q ∈ members → p ≠ q → IReset ∈ d q → b p q = 2%nat.
Proof.
  intros Hi Hp Hq Hne Hr. apply (ri_wait _ _ _ Hi p q Hp Hq).
  pose proof (ri_prog _ _ _ Hi q Hq) as E. pose proof (reset_last _ _ _ _ _ _ _ E Hr) as Hk.
  rewrite Hk, app_nil_r in E. rewrite <- E. unfold internal_direct_allreduce.
  rewrite elem_of_cons, !elem_of_app, elem_of_compute_loop. naive_solver.
Qed.

(** The messages on their way are those that the count says. *)
Lemma chan_head s d b p q m k :
  rinv s d b → p ∈ members → q ∈ members → chan s (p, q) = m :: k →
  p ≠ q ∧ ((b p q = 0%nat ∧ m = MData c) ∨ (b p q = 1%nat ∧ m = MFlag)) ∧
  (S (b p q) ≤ length (msgs q (d p)))%nat ∧ k = drop (S (b p q)) (msgs q (d p)).
Proof using Hstride.
  intros Hi Hp Hq Hm. rewrite (ri_chan _ _ _ Hi) in Hm by done.
  pose proof (ri_prog _ _ _ Hi p Hp) as E. destruct (decide (p = q)) as [<-|Hne].
  { pose proof (msgs_self PE_start logPE_stride PE_size c p) as Hself. rewrite E, msgs_app in Hself.
    apply app_eq_nil in Hself as [Hself _]. by rewrite Hself, drop_nil in Hm. }
  pose proof (msgs_prefix PE_start logPE_stride PE_size c Hstride p q _ _ E Hq ltac:(done)) as Hpre.
  split; [done|].
  assert (msgs q (d p) !! b p q = Some m) as Hl.
  { rewrite <- (Nat.add_0_r (b p q)), <- lookup_drop, Hm. done. }
  split_and!.
  - assert ([MData c; MFlag] !! b p q = Some m) as H2.
    { rewrite Hpre. by apply lookup_app_l_Some. }
    destruct (b p q) as [|[|]]; cbn in H2; [left|right|done]; by injection H2 as <-.
  - by apply lookup_lt_Some in Hl.
  - change (S (b p q)) with (1 + b p q)%nat. rewrite Nat.add_comm, <- drop_drop, Hm. done.
Qed.

Definition arrived (b : Z → Z → nat) (p q : Z) : Z → Z → nat := <[p := <[q := S (b p q)]> (b p)]> b.

Lemma arrived_eq b p q : arrived b p q p q = S (b p q).
Proof. unfold arrived. by rewrite !fn_lookup_insert. Qed.
Lemma arrived_ne b p q p' q' : p' ≠ p ∨ q' ≠ q → arrived b p q p' q' = b p' q'.
Proof.
  unfold arrived. intros H. destruct (decide (p = p')) as [<-|Hp].
  - rewrite fn_lookup_insert, fn_lookup_insert_ne by naive_solver. done.
  - by rewrite fn_lookup_insert_ne.
Qed.

Lemma rinv_net s d b p q s' :
  rinv s d b → p ∈ members → q ∈ members → rstep_net nelems src p q s = Some s' → ∃ b', rinv s' d b'.
Proof using Hstride.
  intros Hi Hp Hq Hs. unfold rstep_net in Hs. destruct (chan s (p, q)) as [|m k] eqn:Hm; [done|].
  destruct (chan_head s d b p q m k Hi Hp Hq Hm) as (Hne & Hb & Hle & Hk). exists (arrived b p q).
  assert (∀ p' q', p' ∈ members → q' ∈ members →
    (<[(p, q) := k]> (chan s)) (p', q') = drop (arrived b p q p' q') (msgs q' (d p')) ∧
    (arrived b p q p' q' ≤ length (msgs q' (d p')))%nat ∧
    (IWait p' ∈ d q' → arrived b p q p' q' = 2%nat)) as Hall.
  { intros p' q' Hp' Hq'. destruct (decide ((p, q) = (p', q'))) as [[= <- <-]|Hpq].
    - rewrite fn_lookup_insert, arrived_eq. split_and!; [done|done|].
      intros Hw. pose proof (ri_wait _ _ _ Hi p q Hp Hq Hw). lia.
    - rewrite fn_lookup_insert_ne, arrived_ne by (try done; destruct (decide (p' = p)); naive_solver).
      split_and!; [by apply (ri_chan _ _ _ Hi)|by apply (ri_count _ _ _ Hi)|by apply (ri_wait _ _ _ Hi)]. }
  destruct Hb as [[Hb ->]|[Hb ->]]; injection Hs as <-; split; cbn [prog dst wrk psync chan];
    try (apply (ri_prog _ _ _ Hi)); try (apply (ri_dst _ _ _ Hi)); try (by intros; apply Hall).
  - intros p' q' o Hp' Hq' Hb' Ho. destruct (decide (q = q')) as [<-|Hq2].
    + rewrite fn_lookup_insert. destruct (decide (p = p')) as [<-|Hp2].
      * rewrite (proj2 (andb_true_iff _ _)) by (rewrite Z.leb_le, Z.ltb_lt; lia). f_equal. lia.
      * rewrite arrived_ne in Hb' by naive_solver. case_if.
        -- apply andb_true_iff in Heqb0 as [?%Z.leb_le ?%Z.ltb_lt]. nia.
        -- by apply (ri_data _ _ _ Hi).
    + rewrite fn_lookup_insert_ne by done. rewrite arrived_ne in Hb' by naive_solver. by apply (ri_data _ _ _ Hi).
  - intros p' q' Hp' Hq'. rewrite (ri_flag _ _ _ Hi) by done.
    destruct (decide ((p, q) = (p', q'))) as [[= <- <-]|Hpq].
    + rewrite arrived_eq, Hb. by rewrite !decide_False by naive_solver.
    + rewrite arrived_ne by (destruct (decide (p' = p)); naive_solver). done.
  - apply (ri_other _ _ _ Hi).
  - intros p' q' o Hp' Hq' Hb' Ho. apply (ri_data _ _ _ Hi); [done|done| |done].
    destruct (decide ((p, q) = (p', q'))) as [[= <- <-]|Hpq]; [lia|].
    by rewrite arrived_ne in Hb' by (destruct (decide (p' = p)); naive_solver).
  - intros p' q' Hp' Hq'. destruct (decide ((p, q) = (p', q'))) as [[= <- <-]|Hpq].
    + rewrite arrived_eq, Hb, !fn_lookup_insert, decide_True; [done|]. split; [done|].
      intros Hr. pose proof (reset_received _ _ _ _ _ Hi Hp Hq Hne Hr). lia.
    + rewrite arrived_ne by (destruct (decide (p' = p)); naive_solver). rewrite <- (ri_flag _ _ _ Hi) by done.
      destruct (decide (q = q')) as [<-|Hq2]; [|by rewrite fn_lookup_insert_ne].
      rewrite fn_lookup_insert, fn_lookup_insert_ne by naive_solver. done.
  - intros i q' Hii Hq'. destruct (decide (q = q')) as [<-|Hq2].
    + rewrite fn_lookup_insert, fn_lookup_insert_ne by naive_solver. by apply (ri_other _ _ _ Hi).
    + rewrite fn_lookup_insert_ne by done. by apply (ri_other _ _ _ Hi).
Qed.

Lemma rinv_reachable w0 s : rtc rstep (rinit call d0 w0) s → ∃ d b, rinv s d b.
Proof using Hstride Hstart Hlast.
  apply (rtc_invariant rstep (λ s, ∃ d b, rinv s d b)); [do 2 eexists; apply rinv_init|].
  intros s1 s2 Hs (d & b & Hi). destruct Hs as [p Hp Hs|p q Hp Hq Hs].
  - destruct (rinv_pe _ _ _ _ _ Hi Hp Hs) as [d' Hd]. eauto.
  - destruct (rinv_net _ _ _ _ _ _ Hi Hp Hq Hs) as [b' Hb]. eauto.
Qed.

(** *** The outcome *)

Lemma send_loop_effect p l f : foldl (effect p) f (send_loop c p l) = f.
Proof.
  induction l as [|i l IH]; [done|]. unfold send_loop. cbn [fmap list_fmap concat]. rewrite foldl_app.
  replace (foldl (effect p) f (if i =? p then [] else [IPut c i; IFlag i])) with f by by destruct (i =? p).
  exact IH.
Qed.

Lemma compute_loop_effect p l f o :
  foldl (effect p) f (compute_loop c p l) o = foldl op (f o) ((λ i, src c i o) <$> filter (.≠ p) l).
Proof.
  revert f. induction l as [|i l IH]; intros f; [done|]. unfold compute_loop. cbn [fmap list_fmap concat].
  rewrite foldl_app. fold (compute_loop c p l). rewrite IH, filter_cons.
  destruct (Z.eqb_spec i p); [by rewrite decide_False by tauto|by rewrite decide_True].
Qed.

Lemma call_effect p o :
  foldl (effect p) (d0 c p) (call p) o = foldl op (src c p o) ((λ i, src c i o) <$> filter (.≠ p) members).
Proof.
  unfold internal_direct_allreduce. cbn [foldl]. rewrite !foldl_app, send_loop_effect. cbn [foldl effect].
  apply compute_loop_effect.
Qed.

Lemma call_outcome w0 s p :
  rtc rstep (rinit call d0 w0) s → p ∈ members → prog s p = [] →
  (∀ o, 0 ≤ o < nelems →
     dst s c p o = foldl op (src c p o) ((λ i, src c i o) <$> filter (.≠ p) members)) ∧
  (∀ i, psync s p i = ROC_SHMEM_SYNC_VALUE).
Proof using Hstride Hstart Hlast.
  intros Hr Hp Hend. apply rinv_reachable in Hr as (d & b & Hi).
  pose proof (ri_prog _ _ _ Hi p Hp) as E. rewrite Hend, app_nil_r in E. split.
  - intros o Ho. rewrite (ri_dst _ _ _ Hi), <- E by done. apply call_effect.
  - intros i. destruct (decide (i ∈ members)) as [Him|Him]; [|by apply (ri_other _ _ _ Hi)].
    rewrite (ri_flag _ _ _ Hi) by done. rewrite decide_False; [reflexivity|]. intros [_ Hn]. apply Hn.
    rewrite <- E. unfold internal_direct_allreduce. rewrite elem_of_cons, !elem_of_app. set_solver.
Qed.

(** *** Termination *)

Definition row (s : rstate) (p : Z) : nat :=
  (2 * length (prog s p) + sum_list_with (λ q, length (chan (V := V) s (p, q))) members)%nat.
Definition rweight (s : rstate) : nat := sum_list_with (row s) members.

Lemma row_decrease s s' p :
  p ∈ members → (∀ q, q ≠ p → row s' q = row s q) → (row s' p < row s p)%nat → (rweight s' < rweight s)%nat.
Proof using All.
  intros Hp Hq Hlt. pose proof (sum_update (row s) (row s') members p
    (members_nodup _ _ _ Hstride) Hp Hq). unfold rweight. lia.
Qed.

(** A step of [p] changes its row only. *)
Lemma chan_row (ch ch' : Z * Z → list msg) p i :
  i ∈ members → (∀ q, q ≠ i → ch' (p, q) = ch (p, q)) →
  (sum_list_with (λ q, length (ch' (p, q))) members + length (ch (p, i)) =
   sum_list_with (λ q, length (ch (p, q))) members + length (ch' (p, i)))%nat.
Proof using All.
  intros Hi Hq. apply (sum_update (λ q, length (ch (p, q))) (λ q, length (ch' (p, q))));
    [by apply members_nodup|done|]. intros q Hne. by rewrite Hq.
Qed.

Lemma row_other (s s' : rstate) p :
  (∀ q, q ≠ p → prog s' q = prog s q) → (∀ q r, q ≠ p → chan s' (q, r) = chan s (q, r)) →
  ∀ q, q ≠ p → row s' q = row s q.
Proof.
  intros Hp Hc q Hne. unfold row. rewrite Hp by done. f_equal.
  induction members as [|r l IH]; cbn; [done|]. by rewrite Hc, IH.
Qed.

Lemma put_member p i : (∃ c', IPut c' i ∈ call p) ∨ IFlag i ∈ call p → i ∈ members.
Proof.
  unfold internal_direct_allreduce. intros [[c' H]|H]; revert H;
    rewrite elem_of_cons, !elem_of_app, list_elem_of_singleton;
    intros [?|[Hx%elem_of_send_loop|[Hx%elem_of_compute_loop|?]]]; naive_solver.
Qed.

Lemma rstep_decreases s s' d b : rinv s d b → rstep s s' → (rweight s' < rweight s)%nat.
Proof using All.
  intros Hi [p Hp Hs|p q Hp Hq Hs].
  - unfold rstep_pe in Hs. destruct (prog s p) as [|x k] eqn:Hx; [done|].
    pose proof (ri_prog _ _ _ Hi p Hp) as E. rewrite Hx in E.
    apply (row_decrease _ _ p Hp).
    + apply row_other; intros; destruct x; repeat case_match; simplify_eq/=;
        rewrite ?fn_lookup_insert_ne by congruence; done.
    + unfold row at 2. rewrite Hx. cbn [length].
      assert (∀ i m ch', i ∈ members → ch' = <[(p, i) := chan s (p, i) ++ [m]]> (chan s) →
        sum_list_with (λ q, length (ch' (p, q))) members =
        S (sum_list_with (λ q, length (chan s (p, q))) members)) as Hput.
      { intros i m ch' Him ->. pose proof (chan_row (chan s) (<[(p, i) := chan s (p, i) ++ [m]]> (chan s)) p i Him)
          as Hsum. rewrite fn_lookup_insert, length_app in Hsum. cbn [length] in Hsum.
        specialize (Hsum ltac:(intros; by rewrite fn_lookup_insert_ne by congruence)). lia. }
      destruct x as [c'|c' i|i|i|c' i|]; repeat case_match; simplify_eq/=; unfold row; cbn [prog chan];
        rewrite fn_lookup_insert; try lia.
      * rewrite (Hput i (MData c')); [lia|apply (put_member p); left; exists c'; rewrite E; set_solver|done].
      * rewrite (Hput i MFlag); [lia|apply (put_member p); right; rewrite E; set_solver|done].
  - unfold rstep_net in Hs. destruct (chan s (p, q)) as [|m k] eqn:Hm; [done|].
    apply (row_decrease _ _ p Hp).
    + apply row_other; intros; destruct m; simplify_eq/=; rewrite ?fn_lookup_insert_ne by congruence; done.
    + pose proof (chan_row (chan s) (<[(p, q) := k]> (chan s)) p q Hq) as Hsum.
      rewrite fn_lookup_insert, Hm in Hsum. cbn [length] in Hsum.
      specialize (Hsum ltac:(intros; by rewrite fn_lookup_insert_ne by congruence)).
      destruct m; simplify_eq/=; unfold row; cbn [prog chan]; lia.
Qed.

(** A member that is not waiting can go on. *)
Lemma can_go s p x k :
  p ∈ members → prog s p = x :: k → (∀ i, x = IWait i → psync s p i = 1) → ∃ s', rstep s s'.
Proof.
  intros Hp Hx Hw. destruct (rstep_pe op nelems num_pes src p s) as [s'|] eqn:E.
  - exists s'. by apply (rstep_member _ _ _ _ _ _ _ _ _ p).
  - unfold rstep_pe in E. rewrite Hx in E. destruct x; try done. by rewrite (Hw i eq_refl) in E.
Qed.

Lemma chan_nonempty_go s p q m k :
  p ∈ members → q ∈ members → chan s (p, q) = m :: k → ∃ s', rstep s s'.
Proof.
  intros Hp Hq Hm. destruct (rstep_net nelems src p q s) as [s'|] eqn:E.
  - exists s'. by apply (rstep_arrive _ _ _ _ _ _ _ _ _ p q).
  - unfold rstep_net in E. rewrite Hm in E. by destruct m.
Qed.

(** Nothing on its way, and [i] has sent everything: its flag is up for [p]. *)
Lemma waited_flag s d b p i k :
  rinv s d b → p ∈ members → i ∈ members → i ≠ p → chan s (i, p) = [] → prog s p = IWait i :: k →
  (prog s i = [] ∨ ∃ j k', prog s i = IWait j :: k') → psync s p i = 1.
Proof using All.
  intros Hi Hp Him Hne Hm Hx Hor. pose proof (ri_prog _ _ _ Hi i Him) as E.
  assert (msgs p (d i) = [MData c; MFlag]) as Hs.
  { destruct Hor as [Hn|(j & k' & Hj)].
    - rewrite Hn, app_nil_r in E. rewrite <- E. by apply msgs_call.
    - rewrite Hj in E. apply (wait_after_sends _ _ _ _ Hstride _ _ _ _ _ E Hp). congruence. }
  rewrite (ri_chan _ _ _ Hi), Hs in Hm by done.
  pose proof (ri_count _ _ _ Hi i p Him Hp) as Hb. rewrite Hs in Hb. cbn in Hb.
  rewrite (ri_flag _ _ _ Hi) by done. rewrite decide_True; [reflexivity|]. split.
  - destruct (b i p) as [|[|[|]]]; cbn in Hm; [done|done|done|lia].
  - intros Hr. pose proof (ri_prog _ _ _ Hi p Hp) as Ep.
    pose proof (reset_last _ _ _ _ _ _ _ Ep Hr) as Hnil. by rewrite Hx in Hnil.
Qed.

(** The call of a member names others only. *)
Lemma call_wait_other p i : IWait i ∈ call p → i ≠ p.
Proof.
  unfold internal_direct_allreduce. rewrite elem_of_cons, !elem_of_app, list_elem_of_singleton.
  intros [?|[Hx%elem_of_send_loop|[Hx%elem_of_compute_loop|?]]]; naive_solver.
Qed.

(** Some member is at an instruction other than a wait, or all wait or are done. *)
Lemma all_wait (s : rstate (V := V)) (l : list Z) :
  (∃ p x k, p ∈ l ∧ prog s p = x :: k ∧ ∀ i, x ≠ IWait i) ∨
  (∀ p, p ∈ l → prog s p = [] ∨ ∃ i k, prog s p = IWait i :: k).
Proof.
  induction l as [|p l IH]; [right; intros p Hp; by apply not_elem_of_nil in Hp|].
  destruct IH as [(q & x & k & Hq & H)|Hall]; [left; exists q, x, k; set_solver|].
  destruct (prog s p) as [|x k] eqn:E.
  - right. intros q [->|Hq]%elem_of_cons; [by left|by apply Hall].
  - assert ((∃ i, x = IWait i) ∨ ∀ i, x ≠ IWait i) as [[i ->]|Hn] by (destruct x; naive_solver).
    + right. intros q [->|Hq]%elem_of_cons; [right; by exists i, k|by apply Hall].
    + left. exists p, x, k. split; [set_solver|done].
Qed.

Lemma rinv_not_stuck s d b :
  rinv s d b → rfinished PE_start logPE_stride PE_size s ∨ ∃ s', rstep s s'.
Proof using All.
  intros Hi.
  destruct (decide (Exists (λ p, Exists (λ q, chan s (p, q) ≠ []) members) members)) as [Hex|Hno].
  { right. apply Exists_exists in Hex as (p & Hp & (q & Hq & Hm)%Exists_exists).
    destruct (chan s (p, q)) as [|m k] eqn:E; [done|]. exact (chan_nonempty_go s p q m k Hp Hq E). }
  assert (∀ p q, p ∈ members → q ∈ members → chan s (p, q) = []) as Hempty.
  { intros p q Hp Hq. destruct (chan s (p, q)) eqn:E; [done|]. exfalso. apply Hno, Exists_exists.
    exists p. split; [done|]. apply Exists_exists. exists q. by rewrite E. }
  destruct (all_wait s members) as [(p & x & k & Hp & Hx & Hnw)|Hall].
  - right. eapply can_go; [exact Hp|exact Hx|]. intros i ->. by destruct (Hnw i).
  - destruct (decide (Exists (λ p, prog s p ≠ []) members)) as [Hex|Hdone].
    + right. apply Exists_exists in Hex as (p & Hp & Hne).
      destruct (Hall p Hp) as [|(i & k & Hx)]; [done|].
      pose proof (ri_prog _ _ _ Hi p Hp) as E. rewrite Hx in E.
      assert (IWait i ∈ call p) as Hin by (rewrite E; set_solver).
      pose proof (call_wait_member p i Hin). pose proof (call_wait_other p i Hin).
      eapply can_go; [exact Hp|exact Hx|]. intros j [= <-]. eapply waited_flag; eauto.
    + left. split; [|done]. intros p Hp. destruct (prog s p) eqn:E; [done|]. exfalso.
      apply Hdone, Exists_exists. exists p. by rewrite E.
Qed.

Lemma run_ends w0 :
  (∃ bound : nat, ∀ k s, nsteps rstep k (rinit call d0 w0) s → (k ≤ bound)%nat) ∧
  (∀ s, rtc rstep (rinit call d0 w0) s → rfinished PE_start logPE_stride PE_size s ∨ ∃ s', rstep s s').
Proof using All.
  split.
  - exists (rweight (rinit call d0 w0)). intros k s Hk.
    enough (k + rweight s ≤ rweight (rinit call d0 w0))%nat by lia.
    assert (∃ d b, rinv (rinit call d0 w0) d b) as Hi by (do 2 eexists; apply rinv_init).
    revert Hi Hk. generalize (rinit call d0 w0) as s0. induction k as [|k IH]; intros s0 (d & b & Hi) Hk.
    + inversion Hk; subst. lia.
    + inversion Hk as [|? ? s1 ? Hs1 Hk1]; subst. pose proof (rstep_decreases _ _ _ _ Hi Hs1).
      assert (∃ d b, rinv s1 d b) as Hi1.
      { destruct Hs1 as [p Hp Hs|p q Hp Hq Hs].
        - destruct (rinv_pe _ _ _ _ _ Hi Hp Hs). eauto.
        - destruct (rinv_net _ _ _ _ _ _ Hi Hp Hq Hs). eauto. }
      pose proof (IH s1 Hi1 Hk1). lia.
  - intros s Hr. apply rinv_reachable in Hr as (d & b & Hi). by eapply rinv_not_stuck.
Qed.
End one_call.

(** C13: The direct reduction, called by all members of an active set with the flags
    down: every run of members and network is finite and ends with all members
    returned; a member that has returned has at every index the combination of the
    sources of all members, and its flags are down again. *)
Theorem direct_allreduce_correct Op w nelems PE_start logPE_stride PE_size num_pes
    (src d0 : nat → Z → Z → Z) (w0 : Z → Z → Z) c :
  0 < w → 0 ≤ logPE_stride → 0 ≤ PE_start →
  PE_start + (PE_size - 1) * stride logPE_stride < num_pes →
  let step := rstep (Calc Op w) nelems PE_start logPE_stride PE_size num_pes src in
  let init := rinit (internal_direct_allreduce PE_start logPE_stride PE_size c) d0 w0 in
  let members := members PE_start logPE_stride PE_size in
  (∃ bound : nat, ∀ k s, nsteps step k init s → (k ≤ bound)%nat) ∧
  (∀ s, rtc step init s → rfinished PE_start logPE_stride PE_size s ∨ ∃ s', step s s') ∧
  (∀ s p, rtc step init s → p ∈ members → prog s p = [] →
     (∀ o, 0 ≤ o < nelems → combined (Calc Op w) ((λ i, src c i o) <$> members) = Some (dst s c p o)) ∧
     (∀ i, psync s p i = ROC_SHMEM_SYNC_VALUE)).
Proof.
  intros Hw Hlog Hst Hlast step init mems. pose proof (Calc_assoc Op w Hw).
  destruct (run_ends (Calc Op w) nelems PE_start logPE_stride PE_size num_pes src c d0 Hlog Hst Hlast w0)
    as [Hb Hp]. split; [exact Hb|]. split; [exact Hp|]. clear Hb Hp.
  intros s p Hr Hp Hend.
  destruct (call_outcome _ _ _ _ _ _ _ _ _ Hlog Hst Hlast _ _ _ Hr Hp Hend) as [Hd Hf].
  split; [|exact Hf]. intros o Ho. rewrite (Hd o Ho).
  assert (mems ≡ₚ p :: filter (.≠ p) mems) as Hperm.
  { apply NoDup_Permutation; [by apply members_nodup| |].
    - apply NoDup_cons. rewrite list_elem_of_filter. split; [tauto|].
      apply NoDup_filter. by apply members_nodup.
    - intros x. rewrite elem_of_cons, list_elem_of_filter. destruct (decide (x = p)) as [->|]; tauto. }
  by rewrite (combined_perm _ _ _ (fmap_Permutation _ _ _ Hperm)).
Qed.

(** ** Running a schedule *)

Inductive raction := RPe (p : Z) | RNet (p q : Z).

Section schedule.
Context {V : Type} (op : V → V → V) (nelems PE_start logPE_stride PE_size num_pes : Z).
Context (src : nat → Z → Z → V).
Notation members := (members PE_start logPE_stride PE_size).

Definition ract (a : raction) (s : rstate) : option (rstate (V := V)) :=
  match a with
  | RPe p => if decide (p ∈ members) then rstep_pe op nelems num_pes src p s else None
  | RNet p q => if decide (p ∈ members ∧ q ∈ members) then rstep_net nelems src p q s else None
  end.

Fixpoint rrun (l : list raction) (s : rstate) : option (rstate (V := V)) :=
  match l with [] => Some s | a :: l' => s' ← ract a s; rrun l' s' end.

Lemma rrun_sound l : ∀ s s', rrun l s = Some s' →
  rtc (rstep op nelems PE_start logPE_stride PE_size num_pes src) s s'.
Proof.
  induction l as [|a l IH]; intros s s' H; cbn [rrun] in H; [injection H as ->; apply rtc_refl|].
  apply bind_Some in H as (s1 & H1 & H). eapply rtc_l; [|by apply IH].
  destruct a as [p|p q]; cbn in H1; case_decide as Hd; try done.
  - by apply (rstep_member _ _ _ _ _ _ _ _ _ p).
  - destruct Hd. by apply (rstep_arrive _ _ _ _ _ _ _ _ _ p q).
Qed.

(** No member can go on and nothing is on its way. *)
Definition rstuck (s : rstate (V := V)) : bool :=
  forallb (λ p, match rstep_pe op nelems num_pes src p s with None => true | _ => false end &&
    forallb (λ q, match rstep_net nelems src p q s with None => true | _ => false end) members) members.

Lemma rstuck_sound s : rstuck s = true →
  ∀ s', ¬ rstep op nelems PE_start logPE_stride PE_size num_pes src s s'.
Proof.
  unfold rstuck. rewrite forallb_forall. intros H s' [p Hp Hs|p q Hp Hq Hs];
    specialize (H p (proj1 (list_elem_of_In _ _) Hp)); apply andb_true_iff in H as [H1 H2].
  - by rewrite Hs in H1.
  - rewrite forallb_forall in H2. specialize (H2 q (proj1 (list_elem_of_In _ _) Hq)). by rewrite Hs in H2.
Qed.
End schedule.

(** Two members that reduce twice in a row; the sources of the calls differ. *)
Definition twice (p : Z) : list instr :=
  internal_direct_allreduce 0 0 2 0 p ++ internal_direct_allreduce 0 0 2 1 p.
Definition two_sources (c : nat) (p o : Z) : Z := 100 * Z.of_nat c + 10 * (p + 1).

Definition overtaking : list raction :=
  replicate 3 (RPe 0) ++ replicate 3 (RPe 1) ++ replicate 2 (RNet 1 0)
  ++ replicate 6 (RPe 0) ++ replicate 4 (RNet 0 1) ++ replicate 6 (RPe 1)
  ++ replicate 2 (RNet 1 0) ++ replicate 3 (RPe 0).

(** There is nothing between two reductions that keeps a member from starting
    the second one while the other is still in the first, on the same work array
    and flags: with two members, the data and the flag of the second call can
    arrive before the first call has used its own.  The first result of member
    [1] is then made with a source of the second call ([20 + 110] instead of [20 + 10]),
    and its second call waits for a flag that it has itself taken down. *)
Theorem reduce_twice_deadlock :
  ∃ s, rtc (rstep (Calc ROC_SHMEM_SUM 64) 1 0 0 2 2 two_sources) (rinit twice (λ _ _ _, 0) (λ _ _, 0)) s ∧
    (∀ s', ¬ rstep (Calc ROC_SHMEM_SUM 64) 1 0 0 2 2 two_sources s s') ∧
    prog s 1 ≠ [] ∧ dst s 0 1 0 = two_sources 0 1 0 + two_sources 1 0 0.
Proof.
  destruct (rrun (Calc ROC_SHMEM_SUM 64) 1 0 0 2 2 two_sources overtaking
    (rinit twice (λ _ _ _, 0) (λ _ _, 0))) as [s|] eqn:E.
  2: { apply (f_equal (λ o, match o with Some _ => true | None => false end)) in E. by vm_compute in E. }
  assert (match rrun (Calc ROC_SHMEM_SUM 64) 1 0 0 2 2 two_sources overtaking
    (rinit twice (λ _ _ _, 0) (λ _ _, 0)) with
    | Some s => rstuck (Calc ROC_SHMEM_SUM 64) 1 0 0 2 2 two_sources s &&
        (match prog s 1 with [] => false | _ => true end) && (dst s 0 1 0 =? 130)
    | None => false end = true) as H by (vm_compute; reflexivity).
  rewrite E in H. apply andb_true_iff in H as [[Hst Hpr]%andb_true_iff Hd%Z.eqb_eq].
  exists s. split; [by eapply rrun_sound|]. split; [by apply rstuck_sound|].
  split; [by destruct (prog s 1)|]. exact Hd.
Qed.

Lemma direct_allreduce_correct_witness :
  let step := rstep (Calc ROC_SHMEM_SUM 32) 1 1 1 2 4 two_sources in
  let init := rinit (internal_direct_allreduce 1 1 2 0) (λ _ _ _, 0) (λ _ _, 0) in
  (∃ bound : nat, ∀ k s, nsteps step k init s → (k ≤ bound)%nat) ∧
  ∃ s, rtc step init s ∧ prog s 3 = [] ∧ Some (dst s 0 3 0) = Some 60.
Proof.
  destruct (direct_allreduce_correct ROC_SHMEM_SUM 32 1 1 1 2 4 two_sources (λ _ _ _, 0) (λ _ _, 0) 0
    ltac:(lia) ltac:(lia) ltac:(lia) ltac:(by vm_compute)) as (Hb & _ & Hd). split; [exact Hb|]. clear Hb.
  pose (l := replicate 3 (RPe 1) ++ replicate 3 (RPe 3) ++ replicate 2 (RNet 1 3) ++ replicate 3 (RPe 3)).
  destruct (rrun (Calc ROC_SHMEM_SUM 32) 1 1 1 2 4 two_sources l
    (rinit (internal_direct_allreduce 1 1 2 0) (λ _ _ _, 0) (λ _ _, 0))) as [s|] eqn:E.
  2: { apply (f_equal (λ o, match o with Some _ => true | None => false end)) in E. by vm_compute in E. }
  assert (match rrun (Calc ROC_SHMEM_SUM 32) 1 1 1 2 4 two_sources l
    (rinit (internal_direct_allreduce 1 1 2 0) (λ _ _ _, 0) (λ _ _, 0)) with
    | Some s => match prog s 3 with [] => true | _ => false end | None => false end = true) as H
    by (vm_compute; reflexivity).
  rewrite E in H. assert (prog s 3 = []) as Hp by by destruct (prog s 3).
  pose proof (rrun_sound _ _ _ _ _ _ _ _ _ _ E) as Hr. exists s. split; [exact Hr|]. split; [exact Hp|].
  assert (3 ∈ members 1 1 2) as Hin by (apply list_elem_of_fmap; exists 1; split; [done|apply elem_of_seqZ; lia]).
  destruct (Hd s 3 Hr Hin Hp) as [H0 _]. rewrite <- (H0 0 ltac:(lia)).
  vm_compute. reflexivity.
Defined.

(** ** The sizes of the chosen algorithm *)

(** The end of the ring case, for a work array of [rw] elements. *)
Lemma ring_sizes num_pes nreduce rw chunk room :
  0 < num_pes → 0 < nreduce → 0 < rw → 0 ≤ chunk → num_pes * chunk ≤ rw → rw ≤ room → 2 * num_pes ≤ 256 →
  match (if Z.quot nreduce rw =? 0 then Ring 1 nreduce (Z.quot nreduce num_pes)
         else Ring (Z.quot nreduce rw) rw chunk) with
  | Ring n_seg seg_size chunk_size =>
      0 < n_seg ∧ 0 < seg_size ∧ n_seg * seg_size ≤ nreduce < (n_seg + 1) * seg_size ∧
      0 ≤ chunk_size ∧ num_pes * chunk_size ≤ seg_size ∧ 2 * num_pes ≤ 256 ∧ num_pes * chunk_size ≤ room
  | _ => False
  end.
Proof.
  intros Hn Hr Hrw Hc0 Hc Hroom H2. rewrite !Z.quot_div_nonneg by lia.
  pose proof (Z.div_mod nreduce rw ltac:(lia)). pose proof (Z.mod_pos_bound nreduce rw ltac:(lia)).
  pose proof (Z.div_pos nreduce rw ltac:(lia) ltac:(lia)).
  pose proof (Z.mul_div_le nreduce num_pes ltac:(lia)). pose proof (Z.div_pos nreduce num_pes ltac:(lia) Hn).
  destruct (Z.eqb_spec (nreduce / rw) 0); split_and!; nia.
Qed.

(** What [to_all] chooses for products that fit an [int]: the direct algorithm
    when the data of all elements fits the work array of a team and the flags of
    all fit its flags; the ring when [2 * num_pes] flags do, with whole segments
    and chunks inside the data and chunks inside the assumed work array; nothing
    for more than 128 elements. *)
Theorem to_all_sizes num_pes nreduce :
  0 < num_pes → 0 < nreduce → num_pes * nreduce ≤ INT_MAX → 1024 * num_pes ≤ INT_MAX →
  match to_all num_pes nreduce with
  | Direct => num_pes * nreduce ≤ ROC_SHMEM_REDUCE_MIN_WRKDATA_SIZE ∧ num_pes ≤ ROC_SHMEM_REDUCE_SYNC_SIZE
  | Ring n_seg seg_size chunk_size =>
      0 < n_seg ∧ 0 < seg_size ∧ n_seg * seg_size ≤ nreduce < (n_seg + 1) * seg_size ∧
      0 ≤ chunk_size ∧ num_pes * chunk_size ≤ seg_size ∧ 2 * num_pes ≤ ROC_SHMEM_REDUCE_SYNC_SIZE ∧
      num_pes * chunk_size ≤ Z.max (nreduce / 2 + 1) ROC_SHMEM_REDUCE_MIN_WRKDATA_SIZE
  | Unsupported => 128 < num_pes
  end.
Proof.
  intros Hn Hr Hm Hm2. unfold to_all, ROC_SHMEM_REDUCE_MIN_WRKDATA_SIZE, ROC_SHMEM_REDUCE_SYNC_SIZE, INT_MAX in *.
  rewrite !(s32_small (num_pes * nreduce)), !(s32_small (2 * num_pes)), !(s32_small (1024 * num_pes)),
    !uwrap_small by (unfold INT_MIN, INT_MAX; nia).
  rewrite (Z.quot_div_nonneg nreduce 2) by lia.
  pose proof (Z.div_mod nreduce 2 ltac:(lia)). pose proof (Z.mod_pos_bound nreduce 2 ltac:(lia)).
  set (h := nreduce / 2) in *.
  destruct (Z.leb_spec (num_pes * nreduce) (Z.max (h + 1) 1024)) as [Hd|Hd]; cbn [andb].
  all: destruct (Z.leb_spec num_pes 256) as [Hs|Hs]; [try (split; nia)|
    rewrite (proj2 (Z.leb_gt (2 * num_pes) 256)) by lia; lia].
  destruct (Z.leb_spec (2 * num_pes) 256) as [H2|H2]; [|lia].
  destruct (Z.ltb_spec (Z.max (h + 1) 1024) (1024 * num_pes)) as [Hw|Hw].
  - assert (Z.max h 1024 ≤ 2 ^ 31 - 1) by lia. pose proof (Z.mul_div_le (Z.max h 1024) num_pes Hn).
    pose proof (Z.div_pos (Z.max h 1024) num_pes ltac:(lia) Hn).
    rewrite !s32_small by (unfold INT_MIN, INT_MAX; nia).
    pose proof (ring_sizes num_pes nreduce (Z.max h 1024) (Z.max h 1024 / num_pes) (Z.max (h + 1) 1024)
      Hn Hr ltac:(lia) ltac:(lia) ltac:(lia) ltac:(lia) H2) as Hring. by case_if.
  - rewrite s32_small by (unfold INT_MIN, INT_MAX; lia).
    pose proof (ring_sizes num_pes nreduce (1024 * num_pes) 1024 (Z.max (h + 1) 1024)
      Hn Hr ltac:(lia) ltac:(lia) ltac:(lia) Hw H2) as Hring. by case_if.
Qed.

Lemma to_all_sizes_witness :
  to_all 2 512 = Direct ∧ to_all 4 10000 = Ring 2 4096 1024 ∧ to_all 3 1000 = Ring 1 1000 333 ∧
  match to_all 4 10000 with
  | Ring n_seg seg_size _ => n_seg * seg_size ≤ 10000 < (n_seg + 1) * seg_size
  | _ => False
  end.
Proof.
  split_and!; [vm_compute; reflexivity..|].
  pose proof (to_all_sizes 4 10000 ltac:(lia) ltac:(lia) ltac:(by vm_compute) ltac:(by vm_compute)) as H.
  assert (to_all 4 10000 = Ring 2 4096 1024) as E by (vm_compute; reflexivity).
  rewrite E in H |- *. destruct H as (_ & _ & H & _). exact H.
Defined.
