(* ===== verification/Ring.v ===== *)
(** * The ring reduction of the InfiniBand backend

    [internal_ring_allreduce] of [gpu_ib/gpu_ib_gpu_templates.hpp]: the elements form
    a ring; in each segment the chunks travel once around it to be combined, and a
    second time to be handed out.  A member's call is a list of instructions; members
    and network interleave freely.  Shown: every run ends, all members hold the
    combination of all sources in every chunk, and the flags are down again. *)
From stdpp Require Import functions.
From S2P Require Import Prelude Teams ROQueue Barrier Allreduce.

Local Open Scope Z_scope.

(** What the work-group does between its barriers: copy the source; put a chunk into
    the work array or the destination of the next element; fence and set a flag there;
    wait for the own flag; combine a chunk; take the flags down. *)
Inductive ring_instr :=
  | GCopy
  | GPut1 (seg round : Z)
  | GPut2 (seg round : Z)
  | GFlag (seg round : Z)
  | GWait (seg round : Z)
  | GReduce (seg round : Z)
  | GReset.

(** A put on its way: a chunk of the sender's destination, read when it arrives, with
    the offsets at both ends; or a flag. *)
Inductive ring_msg :=
  | MChunk (to_wrk : bool) (remote local : Z)
  | MSignal (index value : Z).

Section ring.
Context {V : Type} (op : V → V → V) (num_pes nelems n_seg seg_size chunk_size : Z).
(** The sources of the elements. *)
Context (src : Z → Z → V).

Definition send_pe (pe : Z) : Z := Z.rem (pe + 1) num_pes.
Definition off_seg (seg : Z) : Z := seg * seg_size.
Definition off_send (pe round : Z) : Z := Z.rem (pe + 1 - round + 2 * num_pes) num_pes * chunk_size.
Definition off_recv (pe round : Z) : Z := Z.rem (pe - round + 2 * num_pes) num_pes * chunk_size.
(** In the second loop the round is a [size_t]. *)
Definition off_send2 (pe round : Z) : Z := u64 (u64 (pe + 1 - round) + 2 * num_pes) `mod` num_pes * chunk_size.
Definition wait_val (seg : Z) : Z := seg + 100.

Definition first_loop (seg : Z) : list ring_instr :=
  concat ((λ round, [GPut1 seg round; GFlag seg round; GWait seg round; GReduce seg round]) <$> seqZ 0 (num_pes - 1)).
Definition second_loop (seg : Z) : list ring_instr :=
  concat ((λ round, [GPut2 seg round; GFlag seg round; GWait seg round]) <$> seqZ (num_pes - 1) (num_pes - 1)).
Definition internal_ring_allreduce : list ring_instr :=
  GCopy :: concat ((λ seg, first_loop seg ++ second_loop seg) <$> seqZ 0 n_seg) ++ [GReset].

Record gstate := mkG {
  gprog : Z → list ring_instr;
  gdst : Z → Z → V;
  gwrk : Z → Z → V;
  gsync : Z → Z → Z;
  gchan : Z → list ring_msg
}.

(** [chunk_size] elements at [off] replaced. *)
Definition write_chunk (f : Z → V) (off : Z) (g : Z → V) : Z → V := λ i,
  if (off <=? i) && (i <? off + chunk_size) then g (i - off) else f i.

(** The next instruction of [pe]; [None] while it waits or has finished. *)
Definition gstep_pe (pe : Z) (s : gstate) : option gstate :=
  match gprog s pe with
  | [] => None
  | GCopy :: k =>
      Some (mkG (<[pe := k]> (gprog s))
        (<[pe := λ i, if (0 <=? i) && (i <? nelems) then src pe i else gdst s pe i]> (gdst s))
        (gwrk s) (gsync s) (gchan s))
  | GPut1 seg round :: k =>
      Some (mkG (<[pe := k]> (gprog s)) (gdst s) (gwrk s) (gsync s)
        (<[pe := gchan s pe ++ [MChunk true (off_send pe round) (off_send pe round + off_seg seg)]]> (gchan s)))
  | GPut2 seg round :: k =>
      Some (mkG (<[pe := k]> (gprog s)) (gdst s) (gwrk s) (gsync s)
        (<[pe := gchan s pe ++ [MChunk false (off_send2 pe round + off_seg seg) (off_send2 pe round + off_seg seg)]]>
           (gchan s)))
  | GFlag seg round :: k =>
      Some (mkG (<[pe := k]> (gprog s)) (gdst s) (gwrk s) (gsync s)
        (<[pe := gchan s pe ++ [MSignal round (wait_val seg)]]> (gchan s)))
  | GWait seg round :: k =>
      if gsync s pe round =? wait_val seg
      then Some (mkG (<[pe := k]> (gprog s)) (gdst s) (gwrk s) (gsync s) (gchan s))
      else None
  | GReduce seg round :: k =>
      Some (mkG (<[pe := k]> (gprog s))
        (<[pe := write_chunk (gdst s pe) (off_seg seg + off_recv pe round)
                   (compute_reduce op (λ o, gwrk s pe (off_recv pe round + o))
                      (λ o, gdst s pe (off_seg seg + off_recv pe round + o)) chunk_size)]> (gdst s))
        (gwrk s) (gsync s) (gchan s))
  | GReset :: k =>
      Some (mkG (<[pe := k]> (gprog s)) (gdst s) (gwrk s)
        (<[pe := λ i, if (0 <=? i) && (i <? 2 * num_pes - 2) then ROC_SHMEM_SYNC_VALUE else gsync s pe i]> (gsync s))
        (gchan s))
  end.

(** Arrival of the first message of [pe] at the next element: the fence keeps the order. *)
Definition gstep_net (pe : Z) (s : gstate) : option gstate :=
  let q := send_pe pe in
  match gchan s pe with
  | [] => None
  | MChunk true remote local :: k =>
      Some (mkG (gprog s) (gdst s) (<[q := write_chunk (gwrk s q) remote (λ o, gdst s pe (local + o))]> (gwrk s))
        (gsync s) (<[pe := k]> (gchan s)))
  | MChunk false remote local :: k =>
      Some (mkG (gprog s) (<[q := write_chunk (gdst s q) remote (λ o, gdst s pe (local + o))]> (gdst s)) (gwrk s)
        (gsync s) (<[pe := k]> (gchan s)))
  | MSignal index value :: k =>
      Some (mkG (gprog s) (gdst s) (gwrk s) (<[q := <[index := value]> (gsync s q)]> (gsync s))
        (<[pe := k]> (gchan s)))
  end.

Inductive gstep (s s' : gstate) : Prop :=
  | gstep_member p : 0 ≤ p < num_pes → gstep_pe p s = Some s' → gstep s s'
  | gstep_arrive p : 0 ≤ p < num_pes → gstep_net p s = Some s' → gstep s s'.

Definition ginit (d0 w0 : Z → Z → V) : gstate :=
  mkG (λ _, internal_ring_allreduce) d0 w0 (λ _ _, ROC_SHMEM_SYNC_VALUE) (λ _, []).

Definition gfinished (s : gstate) : Prop := ∀ p, 0 ≤ p < num_pes → gprog s p = [] ∧ gchan s p = [].
End ring.

(** ** The program as one list of rounds *)

Section flat.
Context (n n_seg : Z).
Context (Hn : 2 ≤ n) (Hseg : 0 ≤ n_seg).

(** The rounds of a segment, and of the call. *)
Definition R : Z := 2 * n - 2.
Definition total : Z := n_seg * R.

(** The instructions of round [t]; the copy comes before round 0, and the flags are
    taken down after the last one. *)
Definition block (t : Z) : list ring_instr :=
  let seg := t / R in
  let round := t `mod` R in
  if t <? 0 then [GCopy]
  else if t <? total then
    if round <? n - 1 then [GPut1 seg round; GFlag seg round; GWait seg round; GReduce seg round]
    else [GPut2 seg round; GFlag seg round; GWait seg round]
  else if t =? total then [GReset] else [].

(** What is left in round [t] after [st] instructions of it. *)
Definition todo (t : Z) (st : nat) : list ring_instr :=
  drop st (block t) ++ concat (block <$> seqZ (t + 1) (total - t)).

Lemma R_pos : 2 ≤ R.
Proof using Hn. unfold R. lia. Qed.

Lemma div_mod_round seg r : 0 ≤ r < R → (seg * R + r) / R = seg ∧ (seg * R + r) `mod` R = r.
Proof using Hn.
  intros Hr. pose proof R_pos. split; [rewrite Z.div_add_l, Z.div_small by lia; lia|].
  by rewrite Z.add_comm, Z.mod_add, Z.mod_small by lia.
Qed.

Lemma round_range t : 0 ≤ t < total →
  ∃ seg r, t = seg * R + r ∧ 0 ≤ seg < n_seg ∧ 0 ≤ r < R ∧ t / R = seg ∧ t `mod` R = r.
Proof using Hn.
  intros Ht. pose proof R_pos. unfold total in Ht. exists (t / R), (t `mod` R).
  pose proof (Z.div_mod t R ltac:(lia)). pose proof (Z.mod_pos_bound t R ltac:(lia)).
  split_and!; try lia; nia.
Qed.

Lemma in_total seg r : 0 ≤ seg < n_seg → 0 ≤ r < R → 0 ≤ seg * R + r < total.
Proof using Hn. intros. pose proof R_pos. unfold total. nia. Qed.

Lemma block_first seg r : 0 ≤ seg < n_seg → 0 ≤ r < n - 1 →
  block (seg * R + r) = [GPut1 seg r; GFlag seg r; GWait seg r; GReduce seg r].
Proof using Hn.
  intros Hs Hr. assert (0 ≤ r < R) as Hr' by (unfold R; lia). pose proof (in_total seg r Hs Hr').
  unfold block. destruct (div_mod_round seg r Hr') as [-> ->].
  by rewrite (proj2 (Z.ltb_ge _ 0)), (proj2 (Z.ltb_lt _ total)), (proj2 (Z.ltb_lt r _)) by lia.
Qed.

Lemma block_second seg r : 0 ≤ seg < n_seg → n - 1 ≤ r < R →
  block (seg * R + r) = [GPut2 seg r; GFlag seg r; GWait seg r].
Proof using Hn.
  intros Hs Hr. assert (0 ≤ r < R) as Hr' by lia. pose proof (in_total seg r Hs Hr').
  unfold block. destruct (div_mod_round seg r Hr') as [-> ->].
  by rewrite (proj2 (Z.ltb_ge _ 0)), (proj2 (Z.ltb_lt _ total)), (proj2 (Z.ltb_ge r _)) by lia.
Qed.

Lemma blocks_of_segment seg : 0 ≤ seg < n_seg →
  concat (block <$> seqZ (seg * R) R) = first_loop n seg ++ second_loop n seg.
Proof using Hn.
  intros Hs. replace R with ((n - 1) + (n - 1)) at 2 by (unfold R; lia). rewrite seqZ_app by lia.
  rewrite fmap_app, concat_app. f_equal.
  - unfold first_loop. f_equal. rewrite <- (Z.add_0_r (seg * R)) at 1. rewrite <- fmap_add_seqZ, <- list_fmap_compose.
    apply list_fmap_ext. intros i r Hi%lookup_seqZ. cbn. apply block_first; lia.
  - unfold second_loop. f_equal. rewrite <- fmap_add_seqZ, <- list_fmap_compose.
    apply list_fmap_ext. intros i r Hi%lookup_seqZ. cbn. apply block_second; unfold R; lia.
Qed.

Lemma blocks_of_segments k : 0 ≤ k → k ≤ n_seg →
  concat (block <$> seqZ 0 (k * R)) = concat ((λ seg, first_loop n seg ++ second_loop n seg) <$> seqZ 0 k).
Proof using Hn.
  revert k. apply (natlike_ind (λ k, k ≤ n_seg → _)); [done|]. intros k Hk IH Hle. pose proof R_pos.
  rewrite Z.mul_succ_l, seqZ_app by nia. replace (Z.succ k) with (k + 1) by lia. rewrite seqZ_app by lia.
  rewrite !fmap_app, !concat_app, IH by lia. f_equal. rewrite !Z.add_0_l, blocks_of_segment by lia.
  rewrite (seqZ_cons k) by lia. cbn. by rewrite app_nil_r.
Qed.

Lemma total_nonneg : 0 ≤ total.
Proof using Hn Hseg. pose proof R_pos. unfold total. nia. Qed.

Lemma program_flat : internal_ring_allreduce n n_seg = todo (-1) 0.
Proof using Hn Hseg.
  pose proof total_nonneg. unfold internal_ring_allreduce, todo. rewrite drop_0. cbn [block Z.ltb Z.compare app]. f_equal.
  rewrite <- blocks_of_segments by lia. fold total. change (-1 + 1) with 0. replace (total - -1) with (total + 1) by lia.
  rewrite (seqZ_app 0 total 1) by lia. rewrite fmap_app, concat_app, !Z.add_0_l. f_equal.
  rewrite (seqZ_cons total) by lia. cbn. unfold block.
  by rewrite (proj2 (Z.ltb_ge _ 0)), Z.ltb_irrefl, Z.eqb_refl by lia.
Qed.

(** Going on by one instruction. *)
Definition next (t : Z) (st : nat) : Z * nat :=
  if (length (block t) <=? S st)%nat then (t + 1, O) else (t, S st).

Lemma todo_next t st x : t ≤ total → block t !! st = Some x → todo t st = x :: todo (next t st).1 (next t st).2.
Proof using Hn Hseg.
  intros Ht Hx. pose proof total_nonneg. unfold todo at 1. rewrite (drop_S _ _ _ Hx). cbn [app]. f_equal. unfold next.
  destruct (Nat.leb_spec (length (block t)) (S st)) as [Hl|Hl]; cbn [fst snd]; [|done].
  rewrite drop_ge by done. cbn [app]. unfold todo. destruct (decide (t = total)) as [->|Hne].
  - rewrite Z.sub_diag, seqZ_nil by done. rewrite seqZ_nil by lia. rewrite drop_0. cbn. unfold block.
    by rewrite (proj2 (Z.ltb_ge _ 0)), (proj2 (Z.ltb_ge _ total)), (proj2 (Z.eqb_neq _ total)) by lia.
  - rewrite drop_0, seqZ_cons by lia. cbn [fmap list_fmap concat]. do 4 f_equal; lia.
Qed.

(** Where an instruction stands, and what comes after it. *)
Definition stands (t : Z) (st : nat) (x : ring_instr) : Prop :=
  match x with
  | GCopy => t = -1 ∧ st = 0%nat ∧ next t st = (0, 0%nat)
  | GPut1 s r => t = s * R + r ∧ 0 ≤ s < n_seg ∧ 0 ≤ r < n - 1 ∧ st = 0%nat ∧ next t st = (t, 1%nat)
  | GPut2 s r => t = s * R + r ∧ 0 ≤ s < n_seg ∧ n - 1 ≤ r < R ∧ st = 0%nat ∧ next t st = (t, 1%nat)
  | GFlag s r => t = s * R + r ∧ 0 ≤ s < n_seg ∧ 0 ≤ r < R ∧ st = 1%nat ∧ next t st = (t, 2%nat)
  | GWait s r => t = s * R + r ∧ 0 ≤ s < n_seg ∧ 0 ≤ r < R ∧ st = 2%nat ∧
      next t st = (if r <? n - 1 then (t, 3%nat) else (t + 1, 0%nat))
  | GReduce s r => t = s * R + r ∧ 0 ≤ s < n_seg ∧ 0 ≤ r < n - 1 ∧ st = 3%nat ∧ next t st = (t + 1, 0%nat)
  | GReset => t = total ∧ st = 0%nat ∧ next t st = (total + 1, 0%nat)
  end.

Lemma lookup_stands t st x : -1 ≤ t → block t !! st = Some x → stands t st x.
Proof using Hn Hseg.
  intros Ht Hx. pose proof total_nonneg. assert (t = -1 ∨ 0 ≤ t < total ∨ t = total ∨ total < t) as [->|[Hr|[->|Hgt]]] by lia.
  - destruct st as [|[|]]; [|done..]. by injection Hx as <-.
  - destruct (round_range t Hr) as (s & r & -> & Hs & Hr' & _ & _). destruct (Z.ltb_spec r (n - 1)) as [H1|H2].
    + unfold stands, next. rewrite (block_first s r) in Hx |- * by lia.
      destruct st as [|[|[|[|[|]]]]]; cbn in Hx; try done; injection Hx as <-; unfold R; split_and!; try lia; try done.
      by rewrite (proj2 (Z.ltb_lt _ _)) by lia.
    + unfold stands, next. rewrite (block_second s r) in Hx |- * by lia.
      destruct st as [|[|[|[|]]]]; cbn in Hx; try done; injection Hx as <-; split_and!; try lia; try done.
      by rewrite (proj2 (Z.ltb_ge _ _)) by lia.
  - unfold stands, next. unfold block in Hx |- *. rewrite (proj2 (Z.ltb_ge _ 0)), Z.ltb_irrefl, Z.eqb_refl in Hx |- * by lia.
    destruct st as [|[|]]; [|done..]. by injection Hx as <-.
  - unfold block in Hx. rewrite (proj2 (Z.ltb_ge _ 0)), (proj2 (Z.ltb_ge _ total)), (proj2 (Z.eqb_neq _ total)) in Hx by lia.
    by destruct st.
Qed.

(** A position in the program. *)
Definition good (t : Z) (st : nat) : Prop :=
  -1 ≤ t ≤ total ∧ (st < length (block t))%nat ∨ t = total + 1 ∧ st = 0%nat.

Lemma block_nonempty t : -1 ≤ t ≤ total → (0 < length (block t))%nat.
Proof using Hn.
  intros Ht. destruct (decide (t = -1)) as [->|]; [cbn; lia|]. destruct (decide (t = total)) as [->|].
  - unfold block. rewrite Z.ltb_irrefl, Z.eqb_refl. destruct (total <? 0); cbn; lia.
  - destruct (round_range t) as (s & r & -> & Hs & Hr & _ & _); [lia|]. destruct (Z.ltb_spec r (n - 1)).
    + rewrite block_first by lia. cbn. lia.
    + rewrite block_second by lia. cbn. lia.
Qed.

Lemma good_next t st : t ≤ total → good t st → good (next t st).1 (next t st).2.
Proof using Hn.
  intros Ht [[Hr Hst]|[? _]]; [|lia]. unfold next, good.
  destruct (Nat.leb_spec (length (block t)) (S st)); cbn [fst snd]; [|left; split; lia].
  destruct (decide (t = total)) as [->|]; [right; lia|]. left. split; [lia|]. apply block_nonempty. lia.
Qed.

Lemma good_todo t st x k : good t st → todo t st = x :: k →
  t ≤ total ∧ stands t st x ∧ k = todo (next t st).1 (next t st).2 ∧ good (next t st).1 (next t st).2.
Proof using Hn Hseg.
  intros Hg E. pose proof total_nonneg. destruct Hg as [[Hr Hst]|[-> ->]].
  - destruct (lookup_lt_is_Some_2 (block t) st Hst) as [y Hy]. rewrite (todo_next t st y) in E by (done || lia).
    injection E as <- <-. split_and!; [lia| |done|apply good_next; [lia|by left]]. apply lookup_stands; [lia|done].
  - unfold todo, block at 1 in E. rewrite seqZ_nil, drop_0 in E by lia.
    by rewrite (proj2 (Z.ltb_ge _ 0)), (proj2 (Z.ltb_ge _ total)), (proj2 (Z.eqb_neq _ total)) in E by lia.
Qed.

Lemma good_done t st : good t st → todo t st = [] → t = total + 1.
Proof using Hn Hseg.
  intros [[Hr Hst]|[-> ->]] E; [|done]. destruct (lookup_lt_is_Some_2 (block t) st Hst) as [y Hy].
  by rewrite (todo_next t st y) in E by (done || lia).
Qed.

(** The rounds of which a member has posted messages (two for each), and those for
    whose flag it has waited. *)
Definition clip (t : Z) : Z := Z.max 0 (Z.min t total).
Definition posted (t : Z) (st : nat) : Z :=
  if (0 <=? t) && (t <? total) then 2 * t + Z.min (Z.of_nat st) 2 else 2 * clip t.
Definition waited (t : Z) (st : nat) : Z :=
  if (0 <=? t) && (t <? total) && (3 <=? Z.of_nat st) then t + 1 else clip t.

Lemma posted_bounds t st : 2 * clip t ≤ posted t st ≤ 2 * clip t + 2 ∧ posted t st ≤ 2 * total.
Proof using Hn Hseg.
  pose proof total_nonneg. unfold posted, clip.
  destruct (Z.leb_spec 0 t), (Z.ltb_spec t total); cbn [andb]; lia.
Qed.

Lemma waited_bounds t st : clip t ≤ waited t st ≤ clip t + 1.
Proof using Hn Hseg.
  pose proof total_nonneg. unfold waited, clip.
  destruct (Z.leb_spec 0 t), (Z.ltb_spec t total), (Z.leb_spec 3 (Z.of_nat st)); cbn [andb]; lia.
Qed.

(** How the counts move with an instruction. *)
Lemma counts_move t st x :
  t ≤ total → stands t st x →
  posted (next t st).1 (next t st).2 = posted t st + match x with GPut1 _ _ | GPut2 _ _ | GFlag _ _ => 1 | _ => 0 end ∧
  waited (next t st).1 (next t st).2 = waited t st + match x with GWait _ _ => 1 | _ => 0 end.
Proof using Hn Hseg.
  intros Ht Hx. pose proof total_nonneg. pose proof R_pos.
  destruct x as [|s r|s r|s r|s r|s r|]; cbn [stands] in Hx; destruct_and! Hx;
    match goal with H : next t st = _ |- _ => rewrite H end; cbn [fst snd]; subst st;
    try (assert (0 ≤ t < total) by (subst t; apply in_total; unfold R in *; lia));
    try destruct (Z.ltb_spec r (n - 1));
    unfold posted, waited, clip; cbn [fst snd];
    repeat (match goal with
    | |- context [0 <=? ?a] => destruct (Z.leb_spec 0 a)
    | |- context [?a <? total] => destruct (Z.ltb_spec a total)
    | |- context [3 <=? ?a] => destruct (Z.leb_spec 3 a)
    end; cbn [andb]); lia.
Qed.

(** ** Neighbours *)

Definition left_pe (p : Z) : Z := (p - 1) `mod` n.

Lemma send_pe_mod p : 0 ≤ p → send_pe n p = (p + 1) `mod` n.
Proof using Hn. intros. unfold send_pe. apply Z.rem_mod_nonneg; lia. Qed.

Lemma left_range p : 0 ≤ left_pe p < n.
Proof using Hn. apply Z.mod_pos_bound. lia. Qed.

Lemma send_range p : 0 ≤ p → 0 ≤ send_pe n p < n.
Proof using Hn. intros. rewrite send_pe_mod by done. apply Z.mod_pos_bound. lia. Qed.

Lemma send_left p : 0 ≤ p < n → send_pe n (left_pe p) = p.
Proof using Hn.
  intros Hp. rewrite send_pe_mod by apply left_range. unfold left_pe. rewrite Zplus_mod_idemp_l.
  rewrite Z.sub_add, Z.mod_small by lia. done.
Qed.

Lemma left_send p : 0 ≤ p < n → left_pe (send_pe n p) = p.
Proof using Hn.
  intros Hp. rewrite send_pe_mod by lia. unfold left_pe. rewrite Zminus_mod_idemp_l.
  rewrite Z.add_simpl_r, Z.mod_small by lia. done.
Qed.

Lemma send_inj p q : 0 ≤ p < n → 0 ≤ q < n → send_pe n p = send_pe n q → p = q.
Proof using Hn. intros Hp Hq E. by rewrite <- (left_send p), E, left_send. Qed.

Lemma mod_back a r : 0 ≤ r < n → (a - (a - r) `mod` n) `mod` n = r.
Proof using Hn. intros. rewrite Zminus_mod_idemp_r, Z.mod_small by lia. lia. Qed.

(** ** The positions of the members *)

(** Member [p] is at instruction [st p] of round [tt p]; [dl p] of its messages have
    arrived. *)
Record ctl (tt : Z → Z) (st : Z → nat) (dl : Z → Z) : Prop := {
  c_good : ∀ p, 0 ≤ p < n → good (tt p) (st p);
  c_dl : ∀ p, 0 ≤ p < n → 0 ≤ dl p ≤ posted (tt p) (st p);
  c_wait : ∀ p, 0 ≤ p < n → 2 * waited (tt (send_pe n p)) (st (send_pe n p)) ≤ dl p
}.

Section bounds.
Context (tt : Z → Z) (st : Z → nat) (dl : Z → Z) (Hc : ctl tt st dl).

(** Around the ring nobody is ahead by more than the distance. *)
Lemma ring_bound p k : 0 ≤ p < n → 0 ≤ k → clip (tt ((p + 1 + k) `mod` n)) ≤ dl p / 2 + k.
Proof using Hn Hseg Hc.
  intros Hp. revert k. apply natlike_ind.
  - rewrite Z.add_0_r, <- send_pe_mod by lia. pose proof (c_wait _ _ _ Hc p Hp).
    pose proof (waited_bounds (tt (send_pe n p)) (st (send_pe n p))). div_lia.
  - intros k Hk IH. set (q := (p + 1 + k) `mod` n) in *. assert (0 ≤ q < n) as Hq by (apply Z.mod_pos_bound; lia).
    assert ((p + 1 + Z.succ k) `mod` n = send_pe n q) as ->.
    { rewrite send_pe_mod by lia. unfold q. rewrite Zplus_mod_idemp_l. f_equal. lia. }
    pose proof (c_wait _ _ _ Hc q Hq). pose proof (c_dl _ _ _ Hc q Hq).
    pose proof (waited_bounds (tt (send_pe n q)) (st (send_pe n q))). pose proof (posted_bounds (tt q) (st q)). div_lia.
Qed.

(** What has arrived from the left, against what has arrived on the right. *)
Lemma left_bound p : 0 ≤ p < n → (dl (left_pe p) + 1) / 2 ≤ dl p / 2 + n - 1.
Proof using Hn Hseg Hc.
  intros Hp. pose proof (ring_bound p (n - 2) Hp ltac:(lia)) as Hb.
  replace ((p + 1 + (n - 2)) `mod` n) with (left_pe p) in Hb.
  2: { unfold left_pe. rewrite <- (Z.mod_add (p - 1) 1 n) by lia. f_equal. lia. }
  pose proof (c_dl _ _ _ Hc (left_pe p) (left_range p)). pose proof (posted_bounds (tt (left_pe p)) (st (left_pe p))). div_lia.
Qed.

(** What has arrived at a member, against its own position. *)
Lemma arrived_bound p : 0 ≤ p < n → (dl (left_pe p) + 1) / 2 ≤ posted (tt p) (st p) / 2 + n - 1.
Proof using Hn Hseg Hc. intros Hp. pose proof (left_bound p Hp). pose proof (c_dl _ _ _ Hc p Hp). div_lia. Qed.

Lemma waited_arrived p : 0 ≤ p < n → 2 * waited (tt p) (st p) ≤ dl (left_pe p).
Proof using Hn Hc. intros Hp. pose proof (c_wait _ _ _ Hc (left_pe p) (left_range p)) as H. by rewrite send_left in H. Qed.
End bounds.

(** An instruction of [p]. *)
Lemma ctl_pe tt st dl p x :
  ctl tt st dl → 0 ≤ p < n → tt p ≤ total → stands (tt p) (st p) x →
  (∀ s r, x = GWait s r → 2 * (waited (tt p) (st p) + 1) ≤ dl (left_pe p)) →
  ctl (<[p := (next (tt p) (st p)).1]> tt) (<[p := (next (tt p) (st p)).2]> st) dl.
Proof using Hn Hseg.
  intros Hc Hp Ht Hx Hw. destruct (counts_move _ _ _ Ht Hx) as [Hpo Hwa]. split; intros q Hq.
  - destruct (decide (p = q)) as [<-|]; [|rewrite !fn_lookup_insert_ne by done; by apply (c_good _ _ _ Hc)].
    rewrite !fn_lookup_insert. by apply good_next, (c_good _ _ _ Hc).
  - pose proof (c_dl _ _ _ Hc q Hq). destruct (decide (p = q)) as [<-|]; [|by rewrite !fn_lookup_insert_ne by done].
    rewrite !fn_lookup_insert, Hpo. destruct x; lia.
  - pose proof (c_wait _ _ _ Hc q Hq) as Hle. destruct (decide (p = send_pe n q)) as [E|]; [|by rewrite !fn_lookup_insert_ne by done].
    rewrite <- E in Hle |- *. rewrite !fn_lookup_insert, Hwa. destruct x as [| | | |s r| |]; try lia.
    pose proof (Hw s r eq_refl) as Hw'. rewrite E, left_send in Hw' by done. rewrite <- E in Hw'. lia.
Qed.

(** An arrival. *)
Lemma ctl_net tt st dl p :
  ctl tt st dl → 0 ≤ p < n → dl p < posted (tt p) (st p) → ctl tt st (<[p := dl p + 1]> dl).
Proof.
  intros Hc Hp Hlt. split; intros q Hq; [by apply (c_good _ _ _ Hc)|..].
  - pose proof (c_dl _ _ _ Hc q Hq). destruct (decide (p = q)) as [<-|]; [rewrite fn_lookup_insert; lia|by rewrite fn_lookup_insert_ne].
  - pose proof (c_wait _ _ _ Hc q Hq). destruct (decide (p = q)) as [<-|]; [rewrite fn_lookup_insert; lia|by rewrite fn_lookup_insert_ne].
Qed.
End flat.

(** ** The invariant *)

Section data.
Context {V : Type} (op : V → V → V) (n nelems n_seg seg_size chunk_size : Z).
Context (src d0 : Z → Z → V).
Context (Hn : 2 ≤ n) (Hseg : 0 ≤ n_seg) (Hsmall : 4 * n < 2 ^ 64).
Context (Hchunk : 0 ≤ chunk_size) (Hfit : n * chunk_size ≤ seg_size) (Hall : n_seg * seg_size ≤ nelems).
Notation R := (R n).
Notation total := (total n n_seg).
Notation left_pe := (left_pe n).
Notation send_pe := (send_pe n).
Notation posted := (posted n n_seg).
Notation waited := (waited n n_seg).
Notation next := (next n n_seg).
Notation todo := (todo n n_seg).
Notation stands := (stands n n_seg).
Notation ctl := (ctl n n_seg).
Notation write_chunk := (write_chunk chunk_size).

(** *** Places *)

Definition idx (s c o : Z) : Z := s * seg_size + c * chunk_size + o.
Definition in_chunk (s c o : Z) : Prop := 0 ≤ s < n_seg ∧ 0 ≤ c < n ∧ 0 ≤ o < chunk_size.
(** The places that belong to a chunk of a segment. *)
Definition covered (i : Z) : Prop := ∃ s c o, in_chunk s c o ∧ i = idx s c o.

Lemma off_send_eq p r : 0 ≤ p → 0 ≤ r ≤ R → off_send n chunk_size p r = (p + 1 - r) `mod` n * chunk_size.
Proof using All.
  intros Hp Hr. unfold off_send, Ring.R in *. rewrite Z.rem_mod_nonneg by lia. by rewrite Z.mod_add by lia.
Qed.

Lemma off_recv_eq p r : 0 ≤ p → 0 ≤ r ≤ R → off_recv n chunk_size p r = (p - r) `mod` n * chunk_size.
Proof using All.
  intros Hp Hr. unfold off_recv, Ring.R in *. rewrite Z.rem_mod_nonneg by lia. by rewrite Z.mod_add by lia.
Qed.

Lemma off_send2_eq p r : 0 ≤ p < n → 0 ≤ r ≤ R → off_send2 n chunk_size p r = (p + 1 - r) `mod` n * chunk_size.
Proof using All.
  intros Hp Hr. unfold off_send2, Ring.R, uwrap in *. rewrite Zplus_mod_idemp_l.
  rewrite (Z.mod_small _ (2 ^ 64)) by lia. by rewrite Z.mod_add by lia.
Qed.

Lemma write_hit (f g : Z → V) off o : 0 ≤ o < chunk_size → write_chunk f off g (off + o) = g o.
Proof.
  intros Ho. unfold Ring.write_chunk. rewrite (proj2 (andb_true_iff _ _)) by (rewrite Z.leb_le, Z.ltb_lt; lia).
  f_equal. lia.
Qed.

Lemma write_miss (f g : Z → V) off i : i < off ∨ off + chunk_size ≤ i → write_chunk f off g i = f i.
Proof.
  intros Hi. unfold Ring.write_chunk. destruct (Z.leb_spec off i), (Z.ltb_spec i (off + chunk_size)); cbn; done || lia.
Qed.

Lemma chunks_apart s c o s' c' :
  in_chunk s c o → 0 ≤ s' < n_seg → 0 ≤ c' < n → (s, c) ≠ (s', c') →
  idx s c o < s' * seg_size + c' * chunk_size ∨ s' * seg_size + c' * chunk_size + chunk_size ≤ idx s c o.
Proof using All.
  intros (Hs & Hc & Ho) Hs' Hc' Hne. unfold idx. destruct (decide (s = s')) as [->|].
  - assert (c ≠ c') by congruence. nia.
  - assert (s < s' ∨ s' < s) as [?|?] by lia; nia.
Qed.

Lemma write_same (f g : Z → V) s c o :
  in_chunk s c o → write_chunk f (s * seg_size + c * chunk_size) g (idx s c o) = g o.
Proof. intros (_ & _ & Ho). by apply write_hit. Qed.

Lemma write_apart (f g : Z → V) s c o s' c' :
  in_chunk s c o → 0 ≤ s' < n_seg → 0 ≤ c' < n → (s, c) ≠ (s', c') →
  write_chunk f (s' * seg_size + c' * chunk_size) g (idx s c o) = f (idx s c o).
Proof using All. intros. apply write_miss. by apply chunks_apart. Qed.

Lemma write_uncovered (f g : Z → V) s c i :
  ¬ covered i → 0 ≤ s < n_seg → 0 ≤ c < n → write_chunk f (s * seg_size + c * chunk_size) g i = f i.
Proof.
  intros Hi Hs Hc. apply write_miss. apply dec_stable. intros Hno. apply Hi.
  exists s, c, (i - (s * seg_size + c * chunk_size)). unfold in_chunk, idx. split_and!; lia.
Qed.

Lemma idx_range s c o : in_chunk s c o → 0 ≤ idx s c o < nelems.
Proof using All. intros (Hs & Hc & Ho). unfold idx. nia. Qed.

(** *** Values *)

(** Element [i] after [r] members have been combined, the last one [p]. *)
Fixpoint part (i p : Z) (r : nat) : V :=
  match r with O => src p i | S r' => op (src p i) (part i (left_pe p) r') end.
(** All of them, for an element of chunk [c]. *)
Definition full (i c : Z) : V := part i ((c - 2) `mod` n) (Z.to_nat (n - 1)).

(** The destination of [p]: the end result once it has been handed out, the part that
    [p] has combined, or its source. *)
Definition dst_value (tt dl : Z → Z) (p s c i : Z) : V :=
  let j := (p + 1 - c) `mod` n in
  let r := (p - c) `mod` n in
  if decide (j ≤ n - 2 ∧ s * R + n - 1 + j < (dl (left_pe p) + 1) / 2) then full i c
  else if decide (r ≤ n - 2 ∧ s * R + r < tt p) then part i p (Z.to_nat (r + 1))
  else src p i.

(** The flag of round [i] when those of [k] rounds have been set. *)
Definition flag_value (k i : Z) : Z := if i <? k then wait_val ((k - 1 - i) / R) else ROC_SHMEM_SYNC_VALUE.

(** Message [k] of member [p]. *)
Definition message (p k : Z) : ring_msg :=
  let s := k / 2 / R in
  let r := (k / 2) `mod` R in
  if Z.even k then
    if r <? n - 1 then MChunk true (off_send n chunk_size p r) (off_send n chunk_size p r + off_seg seg_size s)
    else MChunk false (off_send2 n chunk_size p r + off_seg seg_size s) (off_send2 n chunk_size p r + off_seg seg_size s)
  else MSignal r (wait_val s).

Record ginv (s : gstate) (tt : Z → Z) (st : Z → nat) (dl : Z → Z) : Prop := {
  gi_ctl : ctl tt st dl;
  gi_prog : ∀ p, 0 ≤ p < n → gprog s p = todo (tt p) (st p);
  gi_chan : ∀ p, 0 ≤ p < n → gchan s p = message p <$> seqZ (dl p) (posted (tt p) (st p) - dl p);
  gi_flag : ∀ p i, 0 ≤ p < n →
    gsync s p i = if decide (0 ≤ i < R ∧ tt p ≤ total) then flag_value (dl (left_pe p) / 2) i else 0;
  gi_wrk : ∀ p sg r o, 0 ≤ p < n → 0 ≤ r < n - 1 → in_chunk sg ((p - r) `mod` n) o →
    sg * R + r < (dl (left_pe p) + 1) / 2 ≤ sg * R + r + R →
    gwrk s p ((p - r) `mod` n * chunk_size + o) = part (idx sg ((p - r) `mod` n) o) (left_pe p) (Z.to_nat r);
  gi_dst : ∀ p sg c o, 0 ≤ p < n → in_chunk sg c o → 0 ≤ tt p →
    gdst s p (idx sg c o) = dst_value tt dl p sg c (idx sg c o);
  gi_rest : ∀ p i, 0 ≤ p < n → ¬ covered i →
    gdst s p i = if decide (0 ≤ tt p ∧ 0 ≤ i < nelems) then src p i else d0 p i
}.

Lemma ginv_init w0 :
  ginv (ginit n n_seg d0 w0) (λ _, -1) (λ _, 0%nat) (λ _, 0).
Proof using All.
  pose proof (total_nonneg n n_seg Hn Hseg). pose proof (R_pos n Hn).
  assert (posted (-1) 0 = 0) as Hpo. { unfold Ring.posted, clip. cbn. lia. }
  assert (waited (-1) 0 = 0) as Hwa. { unfold Ring.waited, clip. cbn. lia. }
  split; cbn [gprog gdst gwrk gsync gchan ginit].
  - split; intros p Hp; rewrite ?Hpo, ?Hwa; [|lia..]. left. split; [lia|]. by apply block_nonempty; lia.
  - intros p _. by apply program_flat.
  - intros p _. by rewrite Hpo.
  - intros p i _. case_decide; [|done]. unfold flag_value. destruct (Z.ltb_spec i (0 / 2)); [div_lia|done].
  - intros p sg r o _ Hr (Hs & _) [Hd _]. change ((0 + 1) / 2) with 0 in Hd. nia.
  - lia.
  - intros p i _ _. rewrite decide_False by lia. done.
Qed.

(** *** Instructions of a member *)

Lemma insert_same {A} (f : Z → A) p q : (<[p := f p]> f) q = f q.
Proof. destruct (decide (p = q)) as [<-|]; [by rewrite fn_lookup_insert|by rewrite fn_lookup_insert_ne]. Qed.

(** What has to be shown of an instruction: its effect on flags and destination. *)
Lemma ginv_move s tt st dl p x k tt' st' dst' sync' chan' :
  ginv s tt st dl → 0 ≤ p < n → gprog s p = x :: k →
  tt' = <[p := (next (tt p) (st p)).1]> tt → st' = <[p := (next (tt p) (st p)).2]> st →
  (∀ sg r, x = GWait sg r → 2 * (waited (tt p) (st p) + 1) ≤ dl (left_pe p)) →
  (∀ q, chan' q = (<[p := gchan s p ++ (message p <$> seqZ (posted (tt p) (st p))
                        (posted (tt' p) (st' p) - posted (tt p) (st p)))]> (gchan s)) q) →
  (∀ q i, 0 ≤ q < n →
     sync' q i = if decide (0 ≤ i < R ∧ tt' q ≤ total) then flag_value (dl (left_pe q) / 2) i else 0) →
  (∀ q sg c o, 0 ≤ q < n → in_chunk sg c o → 0 ≤ tt' q → dst' q (idx sg c o) = dst_value tt' dl q sg c (idx sg c o)) →
  (∀ q i, 0 ≤ q < n → ¬ covered i → dst' q i = if decide (0 ≤ tt' q ∧ 0 ≤ i < nelems) then src q i else d0 q i) →
  ginv (mkG (<[p := k]> (gprog s)) dst' (gwrk s) sync' chan') tt' st' dl.
Proof using All.
  intros Hi Hp Hx Ett Est Hw Hch Hfl Hds Hre. pose proof (gi_ctl _ _ _ _ Hi) as Hc.
  pose proof (gi_prog _ _ _ _ Hi p Hp) as E. rewrite Hx in E. symmetry in E.
  destruct (good_todo n n_seg Hn Hseg _ _ _ _ (c_good _ _ _ _ _ Hc p Hp) E) as (Ht & Hst & Hk & _).
  destruct (counts_move n n_seg Hn Hseg _ _ _ Ht Hst) as [Hpo _].
  assert (ctl tt' st' dl) as Hc' by (subst tt' st'; by apply (ctl_pe n n_seg Hn Hseg _ _ _ p x)).
  split; cbn [gprog gdst gwrk gsync gchan]; [done| | |done|by apply (gi_wrk _ _ _ _ Hi)|done|done].
  - intros q Hq. subst tt' st'. destruct (decide (p = q)) as [<-|]; [by rewrite !fn_lookup_insert|].
    rewrite !fn_lookup_insert_ne by done. by apply (gi_prog _ _ _ _ Hi).
  - intros q Hq. rewrite Hch. destruct (decide (p = q)) as [<-|Hne].
    + rewrite fn_lookup_insert, (gi_chan _ _ _ _ Hi), <- fmap_app by done. f_equal.
      pose proof (c_dl _ _ _ _ _ Hc p Hp).
      assert (posted (tt p) (st p) ≤ posted (tt' p) (st' p)).
      { subst tt' st'. rewrite !fn_lookup_insert, Hpo. destruct x; lia. }
      replace (posted (tt' p) (st' p) - dl p) with
        ((posted (tt p) (st p) - dl p) + (posted (tt' p) (st' p) - posted (tt p) (st p))) by lia.
      rewrite seqZ_app by lia. do 2 f_equal. lia.
    + rewrite fn_lookup_insert_ne by done. subst tt' st'. rewrite !fn_lookup_insert_ne by done.
      by apply (gi_chan _ _ _ _ Hi).
Qed.

(** The messages of a round. *)
Lemma message_chunk p sg r : 0 ≤ r < R →
  message p (2 * (sg * R + r)) =
    if r <? n - 1 then MChunk true (off_send n chunk_size p r) (off_send n chunk_size p r + off_seg seg_size sg)
    else MChunk false (off_send2 n chunk_size p r + off_seg seg_size sg) (off_send2 n chunk_size p r + off_seg seg_size sg).
Proof using All.
  intros Hr. unfold message. rewrite Z.even_mul. cbn [Z.even orb]. rewrite Z.mul_comm, Z.div_mul by lia.
  by destruct (div_mod_round n Hn sg r Hr) as [-> ->].
Qed.

Lemma message_signal p sg r : 0 ≤ r < R → message p (2 * (sg * R + r) + 1) = MSignal r (wait_val sg).
Proof using All.
  intros Hr. unfold message. rewrite Z.add_1_r, Z.even_succ, Z.odd_mul. cbn [Z.odd andb].
  replace (Z.succ (2 * (sg * R + r)) / 2) with (sg * R + r) by div_lia.
  by destruct (div_mod_round n Hn sg r Hr) as [-> ->].
Qed.

(** A position that is not the end of a round of the first loop leaves the values. *)
Lemma dst_value_move tt tt' dl p sg c i :
  0 ≤ sg < n_seg → (∀ r, 0 ≤ r ≤ n - 2 → sg * R + r < tt p ↔ sg * R + r < tt' p) →
  dst_value tt' dl p sg c i = dst_value tt dl p sg c i.
Proof using All.
  intros Hs Htt. unfold dst_value. case_decide; [done|]. pose proof (Z.mod_pos_bound (p - c) n ltac:(lia)).
  erewrite decide_ext; [done|]. split; intros [? ?]; (split; [done|]); apply Htt; (done || lia).
Qed.

Lemma dst_value_ne tt t' dl p q sg c i : p ≠ q → dst_value (<[p := t']> tt) dl q sg c i = dst_value tt dl q sg c i.
Proof. intros Hne. unfold dst_value. by rewrite fn_lookup_insert_ne. Qed.

(** The posted count at the start of a round, and in it. *)
Lemma posted_at sg r st : 0 ≤ sg < n_seg → 0 ≤ r < R → posted (sg * R + r) st = 2 * (sg * R + r) + Z.min (Z.of_nat st) 2.
Proof using All.
  intros Hs Hr. pose proof (in_total n n_seg Hn sg r Hs Hr). unfold Ring.posted.
  by rewrite (proj2 (Z.leb_le _ _)), (proj2 (Z.ltb_lt _ _)) by lia.
Qed.

Lemma waited_at sg r st : 0 ≤ sg < n_seg → 0 ≤ r < R →
  waited (sg * R + r) st = sg * R + r + (if 3 <=? Z.of_nat st then 1 else 0).
Proof using All.
  intros Hs Hr. pose proof (in_total n n_seg Hn sg r Hs Hr). unfold Ring.waited, clip.
  rewrite (proj2 (Z.leb_le _ _)), (proj2 (Z.ltb_lt _ _)) by lia. cbn [andb]. destruct (3 <=? Z.of_nat st); lia.
Qed.

(** A round of the first loop is not one of the second. *)
Lemma rounds_differ sg r sg' r' : 0 ≤ r < R → 0 ≤ r' < R → sg * R + r = sg' * R + r' → sg = sg' ∧ r = r'.
Proof using All.
  intros Hr Hr' E. destruct (div_mod_round n Hn sg r Hr) as [E1 E2], (div_mod_round n Hn sg' r' Hr') as [E3 E4].
  rewrite E in E1, E2. split; congruence.
Qed.

(** Everything but copying, combining and taking the flags down. *)
Lemma ginv_quiet s tt st dl p x k tt' st' chan' :
  ginv s tt st dl → 0 ≤ p < n → gprog s p = x :: k →
  match x with GCopy | GReduce _ _ | GReset => False | _ => True end →
  tt' = <[p := (next (tt p) (st p)).1]> tt → st' = <[p := (next (tt p) (st p)).2]> st →
  (∀ sg r, x = GWait sg r → 2 * (waited (tt p) (st p) + 1) ≤ dl (left_pe p)) →
  (∀ q, chan' q = (<[p := gchan s p ++ (message p <$> seqZ (posted (tt p) (st p))
                        (posted (tt' p) (st' p) - posted (tt p) (st p)))]> (gchan s)) q) →
  ginv (mkG (<[p := k]> (gprog s)) (gdst s) (gwrk s) (gsync s) chan') tt' st' dl.
Proof using All.
  intros Hi Hp Hx Hq Ett Est Hw Hch. pose proof (gi_ctl _ _ _ _ Hi) as Hc.
  pose proof (gi_prog _ _ _ _ Hi p Hp) as E. rewrite Hx in E. symmetry in E.
  destruct (good_todo n n_seg Hn Hseg _ _ _ _ (c_good _ _ _ _ _ Hc p Hp) E) as (Ht & Hst & _ & _).
  assert (∃ sg r, tt p = sg * R + r ∧ 0 ≤ sg < n_seg ∧ 0 ≤ r < R ∧
    (tt' p = tt p ∨ tt' p = tt p + 1 ∧ n - 1 ≤ r)) as (sg & r & Et & Hs & Hr & Ht').
  { rewrite Ett, fn_lookup_insert. pose proof (R_pos n Hn).
    destruct x as [|sg r|sg r|sg r|sg r|sg r|]; try done; cbn [Ring.stands] in Hst; destruct_and! Hst;
      exists sg, r; (split; [done|]); (split; [done|]); (split; [unfold Ring.R in *; lia|]);
      match goal with H : next _ _ = _ |- _ => rewrite H end; cbn; auto.
    destruct (Z.ltb_spec r (n - 1)); cbn; auto. }
  pose proof (in_total n n_seg Hn sg r Hs Hr).
  assert (∀ q, 0 ≤ q < n → (0 ≤ tt' q ↔ 0 ≤ tt q) ∧ (tt' q ≤ total ↔ tt q ≤ total)) as Hsame.
  { intros q _. destruct (decide (p = q)) as [<-|]; [lia|]. by rewrite Ett, fn_lookup_insert_ne. }
  apply (ginv_move s tt st dl p x k); try done.
  - intros q i Hq'. rewrite (gi_flag _ _ _ _ Hi) by done. apply decide_ext. by rewrite (proj2 (Hsame q Hq')).
  - intros q sg' c o Hq' Hin H0. rewrite (gi_dst _ _ _ _ Hi) by (try done; by apply Hsame). symmetry.
    destruct (decide (p = q)) as [<-|Hne]; [|rewrite Ett; by apply dst_value_ne]. apply dst_value_move; [apply Hin|].
    intros r' Hr'. destruct Ht' as [->|[-> Hr2]]; [done|]. rewrite Et. pose proof (R_pos n Hn).
    destruct (decide (sg' * R + r' = sg * R + r)) as [E'|]; [|lia].
    apply rounds_differ in E'; [lia|unfold Ring.R; lia|done].
  - intros q i Hq' Hcov. rewrite (gi_rest _ _ _ _ Hi) by done. apply decide_ext. by rewrite (proj1 (Hsame q Hq')).
Qed.

(** The flag for which a member waits. *)
Lemma flag_value_inv k sg r : 0 ≤ sg → 0 ≤ r → flag_value k r = wait_val sg → sg * R + r < k.
Proof using All.
  intros Hs Hr. unfold flag_value, wait_val, ROC_SHMEM_SYNC_VALUE. pose proof (R_pos n Hn).
  destruct (Z.ltb_spec r k); [|lia]. intros E. assert ((k - 1 - r) / R = sg) by lia.
  pose proof (Z.mul_div_le (k - 1 - r) R ltac:(lia)). nia.
Qed.

Lemma flag_value_at k sg r : 0 ≤ sg → 0 ≤ r → sg * R + r < k ≤ sg * R + r + R → flag_value k r = wait_val sg.
Proof using All.
  intros Hs Hr Hk. unfold flag_value. pose proof (R_pos n Hn). rewrite (proj2 (Z.ltb_lt _ _)) by nia. f_equal.
  symmetry. apply (Z.div_unique _ _ _ (k - 1 - r - sg * R)); lia.
Qed.

Lemma ginv_copy s tt st dl p k :
  ginv s tt st dl → 0 ≤ p < n → gprog s p = GCopy :: k →
  ginv (mkG (<[p := k]> (gprog s))
     (<[p := λ i, if (0 <=? i) && (i <? nelems) then src p i else gdst s p i]> (gdst s)) (gwrk s) (gsync s) (gchan s))
    (<[p := 0]> tt) (<[p := 0%nat]> st) dl.
Proof using All.
  intros Hi Hp Hx. pose proof (gi_ctl _ _ _ _ Hi) as Hc. pose proof (total_nonneg n n_seg Hn Hseg).
  pose proof (gi_prog _ _ _ _ Hi p Hp) as E. rewrite Hx in E. symmetry in E.
  destruct (good_todo n n_seg Hn Hseg _ _ _ _ (c_good _ _ _ _ _ Hc p Hp) E) as (Ht & Hst & _ & _).
  pose proof (counts_move n n_seg Hn Hseg _ _ _ Ht Hst) as [Hpo _].
  destruct Hst as (Et & Es & Enx). rewrite Enx in Hpo. cbn [fst snd] in Hpo.
  assert (posted (tt p) (st p) = 0) as Hp0. { rewrite Et, Es. unfold Ring.posted, clip. cbn. lia. }
  apply (ginv_move s tt st dl p GCopy k); try done; rewrite ?Enx; try done.
  - intros q. rewrite !(fn_lookup_insert _ p), Hpo, Z.add_0_r, Z.sub_diag, seqZ_nil, app_nil_r by done. by rewrite insert_same.
  - intros q i Hq. rewrite (gi_flag _ _ _ _ Hi) by done. apply decide_ext.
    destruct (decide (p = q)) as [<-|]; [rewrite fn_lookup_insert; lia|by rewrite fn_lookup_insert_ne].
  - intros q sg c o Hq Hin H0. destruct (decide (p = q)) as [<-|Hne].
    + rewrite fn_lookup_insert. rewrite in_range_true by by apply idx_range. unfold dst_value. rewrite fn_lookup_insert.
      pose proof (arrived_bound n n_seg Hn Hseg _ _ _ Hc p Hp) as Hb. rewrite Hp0 in Hb. change (0 / 2) with 0 in Hb.
      pose proof (R_pos n Hn). destruct Hin as (Hsg & _).
      pose proof (Z.mod_pos_bound (p + 1 - c) n ltac:(lia)). pose proof (Z.mod_pos_bound (p - c) n ltac:(lia)).
      by rewrite !decide_False by nia.
    + rewrite fn_lookup_insert_ne by done. rewrite fn_lookup_insert_ne in H0 by done. rewrite dst_value_ne by done. by apply (gi_dst _ _ _ _ Hi).
  - intros q i Hq Hcov. destruct (decide (p = q)) as [<-|Hne].
    + rewrite !fn_lookup_insert, (gi_rest _ _ _ _ Hi) by done. rewrite (decide_False (P := 0 ≤ tt p ∧ _)) by lia.
      destruct (Z.leb_spec 0 i), (Z.ltb_spec i nelems); cbn [andb];
        (rewrite decide_True by lia; done) || (rewrite decide_False by lia; done).
    + rewrite !fn_lookup_insert_ne by done. by apply (gi_rest _ _ _ _ Hi).
Qed.

Lemma ginv_reset s tt st dl p k :
  ginv s tt st dl → 0 ≤ p < n → gprog s p = GReset :: k →
  ginv (mkG (<[p := k]> (gprog s)) (gdst s) (gwrk s)
     (<[p := λ i, if (0 <=? i) && (i <? 2 * n - 2) then ROC_SHMEM_SYNC_VALUE else gsync s p i]> (gsync s)) (gchan s))
    (<[p := total + 1]> tt) (<[p := 0%nat]> st) dl.
Proof using All.
  intros Hi Hp Hx. pose proof (gi_ctl _ _ _ _ Hi) as Hc. pose proof (total_nonneg n n_seg Hn Hseg).
  pose proof (gi_prog _ _ _ _ Hi p Hp) as E. rewrite Hx in E. symmetry in E.
  destruct (good_todo n n_seg Hn Hseg _ _ _ _ (c_good _ _ _ _ _ Hc p Hp) E) as (Ht & Hst & _ & _).
  pose proof (counts_move n n_seg Hn Hseg _ _ _ Ht Hst) as [Hpo _].
  destruct Hst as (Et & Es & Enx). rewrite Enx in Hpo. cbn [fst snd] in Hpo.
  apply (ginv_move s tt st dl p GReset k); try done; rewrite ?Enx; try done.
  - intros q. cbn [fst snd]. rewrite !(fn_lookup_insert _ p), Hpo, Z.add_0_r, Z.sub_diag, seqZ_nil, app_nil_r by done.
    by rewrite insert_same.
  - intros q i Hq. cbn [fst]. destruct (decide (p = q)) as [<-|Hne].
    + rewrite !fn_lookup_insert, (decide_False (P := _ ∧ total + 1 ≤ total)) by lia.
      destruct (Z.leb_spec 0 i), (Z.ltb_spec i (2 * n - 2)); cbn [andb]; try done;
        rewrite (gi_flag _ _ _ _ Hi) by done; by rewrite decide_False by (unfold Ring.R; lia).
    + rewrite !fn_lookup_insert_ne by done. by apply (gi_flag _ _ _ _ Hi).
  - intros q sg c o Hq Hin H0. cbn [fst] in *. destruct (decide (p = q)) as [<-|Hne].
    + rewrite (gi_dst _ _ _ _ Hi) by (done || lia). symmetry. apply dst_value_move; [apply Hin|].
      intros r Hr. rewrite fn_lookup_insert, Et. pose proof (R_pos n Hn).
      pose proof (in_total n n_seg Hn sg r ltac:(apply Hin) ltac:(unfold Ring.R; lia)). lia.
    + rewrite fn_lookup_insert_ne in H0 by done. rewrite dst_value_ne by done. by apply (gi_dst _ _ _ _ Hi).
  - intros q i Hq Hcov. cbn [fst]. rewrite (gi_rest _ _ _ _ Hi) by done. apply decide_ext.
    destruct (decide (p = q)) as [<-|]; [rewrite fn_lookup_insert; lia|by rewrite fn_lookup_insert_ne].
Qed.

(** The chunk that [p] combines in round [r] of segment [sg], before and after. *)
Lemma reduced_chunk tt dl p sg r i :
  0 ≤ r < n - 1 → (dl (left_pe p) + 1) / 2 ≤ sg * R + r + n →
  dst_value tt dl p sg ((p - r) `mod` n) i =
    if decide (sg * R + r < tt p) then part i p (S (Z.to_nat r)) else src p i.
Proof using All.
  intros Hr Hb. unfold dst_value. rewrite mod_back by lia.
  assert ((p + 1 - (p - r) `mod` n) `mod` n = r + 1) as ->.
  { replace (p - r) with (p + 1 - (r + 1)) by lia. apply mod_back; lia. }
  rewrite decide_False by lia. rewrite Z2Nat.inj_add, Nat.add_1_r by lia.
  by destruct (decide (sg * R + r < tt p)); [rewrite decide_True by lia|rewrite decide_False by lia].
Qed.

Lemma other_chunks tt dl p sg r sg' c i :
  0 ≤ r < n - 1 → tt p = sg * R + r → 0 ≤ c < n → (sg', c) ≠ (sg, (p - r) `mod` n) →
  dst_value (<[p := tt p + 1]> tt) dl p sg' c i = dst_value tt dl p sg' c i.
Proof using All.
  intros Hr Et Hcn Hne. unfold dst_value. case_decide; [done|]. rewrite fn_lookup_insert.
  pose proof (Z.mod_pos_bound (p - c) n ltac:(lia)) as Hm. apply decide_ext. split; intros [H1 H2]; (split; [done|]); [|lia].
  destruct (decide (sg' * R + (p - c) `mod` n = sg * R + r)) as [E|]; [|lia].
  apply rounds_differ in E as [-> E]; [|unfold Ring.R; lia..]. destruct Hne. f_equal.
  rewrite <- E, mod_back by lia. done.
Qed.

(** Combining: the chunk that has arrived, and the own source. *)
Lemma ginv_reduce s tt st dl p sg r k :
  ginv s tt st dl → 0 ≤ p < n → gprog s p = GReduce sg r :: k →
  ginv (mkG (<[p := k]> (gprog s))
     (<[p := write_chunk (gdst s p) (off_seg seg_size sg + off_recv n chunk_size p r)
               (compute_reduce op (λ o, gwrk s p (off_recv n chunk_size p r + o))
                  (λ o, gdst s p (off_seg seg_size sg + off_recv n chunk_size p r + o)) chunk_size)]> (gdst s))
     (gwrk s) (gsync s) (gchan s))
    (<[p := tt p + 1]> tt) (<[p := 0%nat]> st) dl.
Proof using All.
  intros Hi Hp Hx. pose proof (gi_ctl _ _ _ _ Hi) as Hc. pose proof (R_pos n Hn).
  pose proof (gi_prog _ _ _ _ Hi p Hp) as E. rewrite Hx in E. symmetry in E.
  destruct (good_todo n n_seg Hn Hseg _ _ _ _ (c_good _ _ _ _ _ Hc p Hp) E) as (Ht & Hst & _ & _).
  pose proof (counts_move n n_seg Hn Hseg _ _ _ Ht Hst) as [Hpo _].
  destruct Hst as (Et & Hs & Hr & Es & Enx). rewrite Enx in Hpo. cbn [fst snd] in Hpo.
  assert (n ≤ R) by (unfold Ring.R; lia). assert (0 ≤ r < R) as Hr' by lia. pose proof (in_total n n_seg Hn sg r Hs Hr') as Htot.
  rewrite off_recv_eq by lia. unfold off_seg.
  assert (0 ≤ (p - r) `mod` n < n) as Hcn by (apply Z.mod_pos_bound; lia).
  pose proof (waited_arrived n n_seg Hn _ _ _ Hc p Hp) as Hwd. rewrite Et, Es, waited_at in Hwd by done. change (if 3 <=? Z.of_nat 3 then 1 else 0) with 1 in Hwd.
  pose proof (arrived_bound n n_seg Hn Hseg _ _ _ Hc p Hp) as Hb. rewrite Et, Es, posted_at in Hb by done. change (Z.min (Z.of_nat 3) 2) with 2 in Hb.
  assert (sg * R + r < (dl (left_pe p) + 1) / 2 ≤ sg * R + r + n) as Hd by div_lia.
  apply (ginv_move s tt st dl p (GReduce sg r) k); try done; rewrite ?Enx; try done.
  - intros q. cbn [fst snd]. rewrite !(fn_lookup_insert _ p), Hpo, Z.add_0_r, Z.sub_diag, seqZ_nil, app_nil_r by done.
    by rewrite insert_same.
  - intros q i Hq. cbn [fst]. rewrite (gi_flag _ _ _ _ Hi) by done. apply decide_ext.
    destruct (decide (p = q)) as [<-|]; [rewrite fn_lookup_insert; lia|by rewrite fn_lookup_insert_ne].
  - intros q sg' c' o Hq Hin Htq. cbn [fst] in *. destruct (decide (p = q)) as [<-|Hne].
    + rewrite fn_lookup_insert. destruct (decide ((sg', c') = (sg, (p - r) `mod` n))) as [[= -> ->]|Hsc].
      * rewrite write_same by done. unfold compute_reduce. rewrite in_range_true by apply Hin. fold (idx sg ((p - r) `mod` n) o).
        rewrite (gi_dst _ _ _ _ Hi), (gi_wrk _ _ _ _ Hi p sg r o) by (done || lia).
        rewrite !reduced_chunk by lia. by rewrite decide_False, decide_True by (rewrite ?fn_lookup_insert; lia).
      * rewrite write_apart, (gi_dst _ _ _ _ Hi) by (done || lia). symmetry. apply (other_chunks tt dl p sg r); try done. apply Hin.
    + rewrite fn_lookup_insert_ne by done. rewrite fn_lookup_insert_ne in Htq by done.
      rewrite dst_value_ne by done. by apply (gi_dst _ _ _ _ Hi).
  - intros q i Hq Hcov. cbn [fst]. destruct (decide (p = q)) as [<-|Hne].
    + rewrite !fn_lookup_insert, write_uncovered, (gi_rest _ _ _ _ Hi) by done. apply decide_ext. lia.
    + rewrite !fn_lookup_insert_ne by done. by apply (gi_rest _ _ _ _ Hi).
Qed.

Lemma ginv_post s tt st dl p x k m :
  ginv s tt st dl → 0 ≤ p < n → gprog s p = x :: k →
  match x with GPut1 _ _ | GPut2 _ _ | GFlag _ _ => True | _ => False end →
  m = message p (posted (tt p) (st p)) →
  ∃ tt' st', ginv (mkG (<[p := k]> (gprog s)) (gdst s) (gwrk s) (gsync s) (<[p := gchan s p ++ [m]]> (gchan s))) tt' st' dl.
Proof using All.
  intros Hi Hp Hx Hpost Hm. pose proof (gi_ctl _ _ _ _ Hi) as Hc.
  pose proof (gi_prog _ _ _ _ Hi p Hp) as E. rewrite Hx in E. symmetry in E.
  destruct (good_todo n n_seg Hn Hseg _ _ _ _ (c_good _ _ _ _ _ Hc p Hp) E) as (Ht & Hst & _ & _).
  destruct (counts_move n n_seg Hn Hseg _ _ _ Ht Hst) as [Hpo _]. do 2 eexists.
  eapply (ginv_quiet s tt st dl p x k); try done; [by destruct x|by destruct x|]. intros q.
  rewrite !(fn_lookup_insert _ p), Hpo. do 2 f_equal. rewrite Hm.
  replace (_ - posted (tt p) (st p)) with 1 by (destruct x; done || lia). done.
Qed.

Lemma ginv_pe s tt st dl p s' :
  ginv s tt st dl → 0 ≤ p < n → gstep_pe op n nelems seg_size chunk_size src p s = Some s' →
  ∃ tt' st', ginv s' tt' st' dl.
Proof using All.
  intros Hi Hp Hs. unfold gstep_pe in Hs. destruct (gprog s p) as [|x k] eqn:Hx; [done|].
  pose proof (gi_ctl _ _ _ _ Hi) as Hc. pose proof (gi_prog _ _ _ _ Hi p Hp) as E. rewrite Hx in E. symmetry in E.
  destruct (good_todo n n_seg Hn Hseg _ _ _ _ (c_good _ _ _ _ _ Hc p Hp) E) as (Ht & Hst & _ & _).
  destruct (counts_move n n_seg Hn Hseg _ _ _ Ht Hst) as [Hpo _]. pose proof (R_pos n Hn).
  assert (n ≤ R) by (unfold Ring.R; lia).
  destruct x as [|sg r|sg r|sg r|sg r|sg r|]; [..|destruct (Z.eqb_spec (gsync s p r) (wait_val sg)) as [Hf|]; [|done]| |];
    injection Hs as <-.
  - do 2 eexists. by apply ginv_copy.
  - destruct Hst as (Et & Hsg & Hr & Es & Enx). eapply (ginv_post s tt st dl p); try done.
    rewrite Et, Es, posted_at, Z.add_0_r, message_chunk by lia. by rewrite (proj2 (Z.ltb_lt _ _)) by lia.
  - destruct Hst as (Et & Hsg & Hr & Es & Enx). eapply (ginv_post s tt st dl p); try done.
    rewrite Et, Es, posted_at, Z.add_0_r, message_chunk by lia. by rewrite (proj2 (Z.ltb_ge _ _)) by lia.
  - destruct Hst as (Et & Hsg & Hr & Es & Enx). eapply (ginv_post s tt st dl p); try done.
    rewrite Et, Es, posted_at by lia. by rewrite message_signal by lia.
  - destruct Hst as (Et & Hsg & Hr & Es & Enx). do 2 eexists.
    eapply (ginv_quiet s tt st dl p (GWait sg r)); try done.
    + intros sg' r' [= <- <-]. rewrite Et, Es, waited_at by done. change (if 3 <=? Z.of_nat 2 then 1 else 0) with 0.
      rewrite (gi_flag _ _ _ _ Hi), decide_True in Hf by (done || lia). apply flag_value_inv in Hf; [div_lia|lia..].
    + intros q. rewrite !(fn_lookup_insert _ p), Hpo, Z.add_0_r, Z.sub_diag, seqZ_nil, app_nil_r by done.
      by rewrite insert_same.
  - do 2 eexists. by apply ginv_reduce.
  - do 2 eexists. by apply ginv_reset.
Qed.

(** *** Arrivals *)

Lemma left_other p q : 0 ≤ p < n → 0 ≤ q < n → q ≠ send_pe p → left_pe q ≠ p.
Proof using All. intros Hp Hq Hne <-. by rewrite send_left in Hne. Qed.

(** What has to be shown of an arrival: its effect at the next member. *)
Lemma ginv_arrive s tt st dl p m k dl' dst' wrk' sync' :
  ginv s tt st dl → 0 ≤ p < n → gchan s p = m :: k → dl' = <[p := dl p + 1]> dl →
  (∀ q, q ≠ send_pe p → dst' q = gdst s q ∧ wrk' q = gwrk s q ∧ sync' q = gsync s q) →
  (∀ i, sync' (send_pe p) i =
     if decide (0 ≤ i < R ∧ tt (send_pe p) ≤ total) then flag_value ((dl p + 1) / 2) i else 0) →
  (∀ sg r o, 0 ≤ r < n - 1 → in_chunk sg ((send_pe p - r) `mod` n) o →
     sg * R + r < (dl p + 1 + 1) / 2 ≤ sg * R + r + R →
     wrk' (send_pe p) ((send_pe p - r) `mod` n * chunk_size + o) =
       part (idx sg ((send_pe p - r) `mod` n) o) p (Z.to_nat r)) →
  (∀ sg c o, in_chunk sg c o → 0 ≤ tt (send_pe p) →
     dst' (send_pe p) (idx sg c o) = dst_value tt dl' (send_pe p) sg c (idx sg c o)) →
  (∀ i, ¬ covered i → dst' (send_pe p) i = gdst s (send_pe p) i) →
  ginv (mkG (gprog s) dst' wrk' sync' (<[p := k]> (gchan s))) tt st dl'.
Proof using All.
  intros Hi Hp Hm Edl Hother Hfl Hwr Hds Hre. pose proof (gi_ctl _ _ _ _ Hi) as Hc.
  pose proof (gi_chan _ _ _ _ Hi p Hp) as E. rewrite Hm in E.
  assert (dl p < posted (tt p) (st p)) as Hlt.
  { apply Z.nle_gt. intros Hle. by rewrite seqZ_nil in E by lia. }
  assert (ctl tt st dl') as Hc' by (subst dl'; by apply ctl_net).
  assert (∀ q, 0 ≤ q < n → q ≠ send_pe p → dl' (left_pe q) = dl (left_pe q)) as Hleft.
  { intros q Hq Hne. subst dl'. rewrite fn_lookup_insert_ne; [done|]. intros Heq. by apply (left_other p q). }
  assert (dl' (left_pe (send_pe p)) = dl p + 1) as Hself. { rewrite left_send by done. subst dl'. by rewrite fn_lookup_insert. }
  split; cbn [gprog gdst gwrk gsync gchan]; [done|apply (gi_prog _ _ _ _ Hi)|..].
  - intros q Hq. subst dl'. destruct (decide (p = q)) as [<-|]; [|rewrite !fn_lookup_insert_ne by done; by apply (gi_chan _ _ _ _ Hi)].
    rewrite !fn_lookup_insert. rewrite seqZ_cons in E by lia. injection E as _ ->. do 2 f_equal; lia.
  - intros q i Hq. destruct (decide (q = send_pe p)) as [->|Hne]; [by rewrite Hself|].
    destruct (Hother q Hne) as (_ & _ & ->). rewrite Hleft by done. by apply (gi_flag _ _ _ _ Hi).
  - intros q sg r o Hq Hr Hin. destruct (decide (q = send_pe p)) as [->|Hne].
    + rewrite Hself, left_send by done. by apply Hwr.
    + destruct (Hother q Hne) as (_ & -> & _). rewrite Hleft by done. by apply (gi_wrk _ _ _ _ Hi).
  - intros q sg c o Hq Hin Ht. destruct (decide (q = send_pe p)) as [->|Hne]; [by apply Hds|].
    destruct (Hother q Hne) as (-> & _ & _). rewrite (gi_dst _ _ _ _ Hi) by done. unfold dst_value. by rewrite Hleft by done.
  - intros q i Hq Hcov. destruct (decide (q = send_pe p)) as [->|Hne].
    + rewrite Hre by done. by apply (gi_rest _ _ _ _ Hi).
    + destruct (Hother q Hne) as (-> & _ & _). by apply (gi_rest _ _ _ _ Hi).
Qed.

(** The next message of a member. *)
Lemma next_message s tt st dl p m k :
  ginv s tt st dl → 0 ≤ p < n → gchan s p = m :: k →
  ∃ sg r, 0 ≤ sg < n_seg ∧ 0 ≤ r < R ∧ sg * R + r ≤ tt p ∧
    (dl p = 2 * (sg * R + r) ∧
       m = (let off := (p + 1 - r) `mod` n * chunk_size in
            if r <? n - 1 then MChunk true off (idx sg ((p + 1 - r) `mod` n) 0)
            else MChunk false (idx sg ((p + 1 - r) `mod` n) 0) (idx sg ((p + 1 - r) `mod` n) 0)) ∨
     dl p = 2 * (sg * R + r) + 1 ∧ m = MSignal r (wait_val sg)).
Proof using All.
  intros Hi Hp Hm. pose proof (gi_ctl _ _ _ _ Hi) as Hc. pose proof (c_dl _ _ _ _ _ Hc p Hp) as Hd.
  pose proof (gi_chan _ _ _ _ Hi p Hp) as E. rewrite Hm in E. pose proof (posted_bounds n n_seg Hn Hseg (tt p) (st p)) as [Hb1 Hb2].
  assert (dl p < posted (tt p) (st p)) as Hlt. { apply Z.nle_gt. intros Hle. by rewrite seqZ_nil in E by lia. }
  rewrite seqZ_cons in E by lia. injection E as -> _.
  destruct (round_range n n_seg Hn (dl p / 2)) as (sg & r & Ek & Hs & Hr & _ & _); [div_lia|].
  exists sg, r. split; [done|]. split; [done|]. split.
  { unfold clip in *. unfold Ring.posted, clip in Hlt.
    destruct (Z.leb_spec 0 (tt p)), (Z.ltb_spec (tt p) total); cbn [andb] in Hlt; div_lia. }
  destruct (Z.Even_or_Odd (dl p)) as [[a Ea]|[a Ea]].
  - left. assert (dl p = 2 * (sg * R + r)) as -> by div_lia. split; [done|].
    rewrite message_chunk, off_send_eq, off_send2_eq by lia. unfold off_seg, idx. cbn. case_if; f_equal; lia.
  - right. assert (dl p = 2 * (sg * R + r) + 1) as -> by div_lia. split; [done|]. by apply message_signal.
Qed.

Lemma flag_value_step t i : 0 ≤ t → 0 ≤ i < R → i ≠ t `mod` R → flag_value (t + 1) i = flag_value t i.
Proof using All.
  intros Ht Hi Hne. unfold flag_value. pose proof (R_pos n Hn).
  destruct (Z.ltb_spec i t) as [Hlt|Hge].
  - rewrite (proj2 (Z.ltb_lt _ _)) by lia. f_equal.
    pose proof (Z.div_mod (t - 1 - i) R ltac:(lia)) as Hdm. pose proof (Z.mod_pos_bound (t - 1 - i) R ltac:(lia)) as Hb.
    symmetry. apply (Z.div_unique _ _ _ ((t - 1 - i) `mod` R + 1)); [|lia]. left. split; [lia|].
    apply Z.nle_gt. intros Hle. apply Hne. apply (Z.mod_unique _ _ ((t - 1 - i) / R + 1)); nia.
  - destruct (Z.ltb_spec i (t + 1)); [|done]. assert (i = t) as -> by lia. by rewrite Z.mod_small in Hne by lia.
Qed.

(** The next member has not reached the end while messages of a round are to arrive. *)
Lemma receiver_waits tt st dl p t :
  ctl tt st dl → 0 ≤ p < n → dl p / 2 = t → t < total → tt (send_pe p) ≤ total.
Proof using All.
  intros Hc Hp Ht Hlt. pose proof (c_wait _ _ _ _ _ Hc p Hp).
  pose proof (waited_bounds n n_seg Hn Hseg (tt (send_pe p)) (st (send_pe p))). unfold clip in *. div_lia.
Qed.

(** The receiving side counts rounds of which the chunk has arrived. *)
Lemma dst_value_dl tt dl dl' p sg c i :
  (let j := (p + 1 - c) `mod` n in 0 ≤ j ≤ n - 2 →
     sg * R + n - 1 + j < (dl (left_pe p) + 1) / 2 ↔ sg * R + n - 1 + j < (dl' (left_pe p) + 1) / 2) →
  dst_value tt dl' p sg c i = dst_value tt dl p sg c i.
Proof using All.
  intros Hd. unfold dst_value. pose proof (Z.mod_pos_bound (p + 1 - c) n ltac:(lia)). cbn in Hd. apply decide_ext.
  split; intros [? ?]; (split; [done|]); apply Hd; (done || lia).
Qed.

Lemma ginv_signal s tt st dl p sg r k :
  ginv s tt st dl → 0 ≤ p < n → gchan s p = MSignal r (wait_val sg) :: k →
  0 ≤ sg < n_seg → 0 ≤ r < R → dl p = 2 * (sg * R + r) + 1 →
  ginv (mkG (gprog s) (gdst s) (gwrk s) (<[send_pe p := <[r := wait_val sg]> (gsync s (send_pe p))]> (gsync s))
    (<[p := k]> (gchan s))) tt st (<[p := dl p + 1]> dl).
Proof using All.
  intros Hi Hp Hm Hs Hr Ed. pose proof (gi_ctl _ _ _ _ Hi) as Hc. pose proof (in_total n n_seg Hn sg r Hs Hr) as Htot.
  pose proof (send_range n Hn p ltac:(lia)) as Hq. pose proof (R_pos n Hn).
  assert (dl p / 2 = sg * R + r) as Ed2 by div_lia. assert ((dl p + 1) / 2 = sg * R + r + 1) as Ed3 by div_lia.
  assert ((dl p + 1 + 1) / 2 = sg * R + r + 1) as Ed4 by div_lia.
  pose proof (receiver_waits tt st dl p _ Hc Hp Ed2 ltac:(lia)) as Hend.
  apply (ginv_arrive s tt st dl p (MSignal r (wait_val sg)) k); try done.
  - intros q Hne. by rewrite fn_lookup_insert_ne by congruence.
  - intros i. rewrite fn_lookup_insert, Ed3. destruct (decide (r = i)) as [<-|Hne].
    + rewrite fn_lookup_insert, decide_True by lia. symmetry. apply flag_value_at; lia.
    + rewrite fn_lookup_insert_ne, (gi_flag _ _ _ _ Hi), left_send, Ed2 by done. case_decide as Hin; [|done].
      symmetry. apply flag_value_step; [lia..|]. destruct (div_mod_round n Hn sg r Hr) as [_ ->]. congruence.
  - intros sg' r' o Hr' Hin Hb. pose proof (gi_wrk _ _ _ _ Hi (send_pe p) sg' r' o Hq Hr' Hin) as Hw.
    rewrite left_send in Hw by done. apply Hw. lia.
  - intros sg' c o Hin Ht. rewrite (gi_dst _ _ _ _ Hi) by done. symmetry. apply dst_value_dl. intros j _.
    rewrite left_send, fn_lookup_insert, Ed3, Ed4 by done. done.
Qed.

(** What a chunk holds when it arrives: in the first loop the part combined so far, in
    the second one the end result. *)
Lemma sent_chunk s tt st dl p sg r o :
  ginv s tt st dl → 0 ≤ p < n → in_chunk sg ((p + 1 - r) `mod` n) o → 0 ≤ r < R →
  dl p = 2 * (sg * R + r) → sg * R + r ≤ tt p →
  gdst s p (idx sg ((p + 1 - r) `mod` n) o) =
    if r <? n - 1 then part (idx sg ((p + 1 - r) `mod` n) o) p (Z.to_nat r)
    else full (idx sg ((p + 1 - r) `mod` n) o) ((p + 1 - r) `mod` n).
Proof using All.
  intros Hi Hp Hin Hr Ed Ht. pose proof (gi_ctl _ _ _ _ Hi) as Hc. pose proof (R_pos n Hn).
  destruct Hin as (Hs & Hin'). pose proof (in_total n n_seg Hn sg r Hs Hr) as Htot.
  pose proof (left_bound n n_seg Hn Hseg _ _ _ Hc p Hp) as Hb. rewrite Ed in Hb.
  pose proof (waited_arrived n n_seg Hn _ _ _ Hc p Hp) as Hwa. pose proof (waited_bounds n n_seg Hn Hseg (tt p) (st p)) as Hwb.
  unfold clip in Hwb. rewrite (gi_dst _ _ _ _ Hi) by (done || lia). replace (2 * (sg * R + r) / 2) with (sg * R + r) in Hb by div_lia.
  assert (sg * R + r ≤ (dl (left_pe p) + 1) / 2) as Hb2 by div_lia. clear Hwa Hwb.
  set (i := idx sg _ o). clearbody i.
  destruct (decide (1 ≤ r ≤ n - 1)) as [Hr1|Hr1].
  - replace (p + 1 - r) with (p - (r - 1)) by lia. rewrite reduced_chunk, decide_True by lia.
    rewrite <- Z2Nat.inj_succ by lia. replace (Z.succ (r - 1)) with r by lia.
    destruct (Z.ltb_spec r (n - 1)); [done|]. assert (r = n - 1) as -> by lia. unfold full. f_equal.
    rewrite Zminus_mod_idemp_l. replace (p - (n - 1 - 1) - 2) with (p + (-1) * n) by lia.
    by rewrite Z.mod_add, Z.mod_small by lia.
  - unfold dst_value. destruct (decide (r = 0)) as [->|Hr0].
    + rewrite mod_back by lia. rewrite decide_False by lia.
      assert ((p - (p + 1 - 0) `mod` n) `mod` n = n - 1) as ->.
      { rewrite Zminus_mod_idemp_r. replace (p - (p + 1 - 0)) with ((n - 1) + (-1) * n) by lia.
        by rewrite Z.mod_add, Z.mod_small by lia. }
      rewrite decide_False by lia. by rewrite (proj2 (Z.ltb_lt _ _)) by lia.
    + rewrite (proj2 (Z.ltb_ge _ _)) by lia.
      assert ((p + 1 - (p + 1 - r) `mod` n) `mod` n = r - n) as ->.
      { rewrite Zminus_mod_idemp_r. replace (p + 1 - (p + 1 - r)) with ((r - n) + 1 * n) by lia.
        unfold Ring.R in Hr. by rewrite Z.mod_add, Z.mod_small by lia. }
      rewrite decide_True; [done|]. assert (r < 2 * n - 2) by (unfold Ring.R in Hr; lia). lia.
Qed.

(** The same chunk, counted from both ends. *)
Lemma same_chunk p r : 0 ≤ p → (send_pe p - r) `mod` n = (p + 1 - r) `mod` n.
Proof using All. intros Hp. rewrite send_pe_mod by lia. by rewrite Zminus_mod_idemp_l. Qed.

Lemma ginv_chunk1 s tt st dl p sg r k :
  let c := (p + 1 - r) `mod` n in
  ginv s tt st dl → 0 ≤ p < n → gchan s p = MChunk true (c * chunk_size) (idx sg c 0) :: k →
  0 ≤ sg < n_seg → 0 ≤ r < n - 1 → dl p = 2 * (sg * R + r) → sg * R + r ≤ tt p →
  ginv (mkG (gprog s) (gdst s)
    (<[send_pe p := write_chunk (gwrk s (send_pe p)) (c * chunk_size) (λ o, gdst s p (idx sg c 0 + o))]> (gwrk s))
    (gsync s) (<[p := k]> (gchan s))) tt st (<[p := dl p + 1]> dl).
Proof using All.
  intros c Hi Hp Hm Hs Hr Ed Ht. pose proof (gi_ctl _ _ _ _ Hi) as Hc. assert (0 ≤ r < R) as Hr' by (unfold Ring.R; lia).
  pose proof (in_total n n_seg Hn sg r Hs Hr') as Htot.
  pose proof (send_range n Hn p ltac:(lia)) as Hq. pose proof (R_pos n Hn).
  assert (dl p / 2 = sg * R + r) as Ed2 by div_lia. assert ((dl p + 1) / 2 = sg * R + r) as Ed3 by div_lia.
  assert ((dl p + 1 + 1) / 2 = sg * R + r + 1) as Ed4 by div_lia.
  apply (ginv_arrive s tt st dl p _ k _ _ _ _ Hi Hp Hm); try done.
  - intros q Hne. by rewrite fn_lookup_insert_ne by congruence.
  - intros i. by rewrite (gi_flag _ _ _ _ Hi), left_send, Ed2, Ed3 by done.
  - intros sg' r' o Hr1 Hin Hb. rewrite fn_lookup_insert. rewrite Ed4 in Hb.
    destruct (decide (sg' * R + r' = sg * R + r)) as [E|Hne].
    + apply rounds_differ in E as [-> ->]; [|unfold Ring.R; lia|done]. rewrite same_chunk in Hin |- * by lia.
      rewrite write_hit by apply Hin. fold c. replace (idx sg c 0 + o) with (idx sg c o) by (unfold idx; lia). unfold c.
      rewrite (sent_chunk s tt st dl p sg r o) by done. by rewrite (proj2 (Z.ltb_lt _ _)) by lia.
    + rewrite write_miss.
      * pose proof (gi_wrk _ _ _ _ Hi (send_pe p) sg' r' o Hq Hr1 Hin) as Hw. rewrite left_send in Hw by done. apply Hw. lia.
      * assert ((send_pe p - r') `mod` n ≠ c); [|destruct Hin as (_ & ? & ?); nia]. intros E.
        assert (r' = r) as ->; [|assert (sg' < sg) by nia; nia].
        rewrite <- (mod_back n Hn (send_pe p) r'), E by lia. unfold c. rewrite <- same_chunk by lia. by rewrite mod_back by lia.
  - intros sg' c' o Hin Htq. rewrite (gi_dst _ _ _ _ Hi) by done. symmetry. apply dst_value_dl. intros j Hj.
    rewrite left_send, fn_lookup_insert, Ed3, Ed4 by done. split; [lia|]. intros Hlt.
    destruct (decide (sg' * R + (n - 1 + j) = sg * R + r)) as [E|]; [|lia].
    apply rounds_differ in E; [lia|unfold Ring.R; lia|done].
Qed.

Lemma ginv_chunk2 s tt st dl p sg r k :
  let c := (p + 1 - r) `mod` n in
  ginv s tt st dl → 0 ≤ p < n → gchan s p = MChunk false (idx sg c 0) (idx sg c 0) :: k →
  0 ≤ sg < n_seg → n - 1 ≤ r < R → dl p = 2 * (sg * R + r) → sg * R + r ≤ tt p →
  ginv (mkG (gprog s)
    (<[send_pe p := write_chunk (gdst s (send_pe p)) (idx sg c 0) (λ o, gdst s p (idx sg c 0 + o))]> (gdst s))
    (gwrk s) (gsync s) (<[p := k]> (gchan s))) tt st (<[p := dl p + 1]> dl).
Proof using All.
  intros c Hi Hp Hm Hs Hr Ed Ht. pose proof (gi_ctl _ _ _ _ Hi) as Hc. pose proof (R_pos n Hn).
  assert (0 ≤ r < R) as Hr' by lia. assert (r < 2 * n - 2) as Hr2 by (unfold Ring.R in Hr; lia).
  pose proof (send_range n Hn p ltac:(lia)) as Hq. assert (0 ≤ c < n) as Hcn by (apply Z.mod_pos_bound; lia).
  assert (dl p / 2 = sg * R + r) as Ed2 by div_lia. assert ((dl p + 1) / 2 = sg * R + r) as Ed3 by div_lia.
  assert ((dl p + 1 + 1) / 2 = sg * R + r + 1) as Ed4 by div_lia.
  assert (idx sg c 0 = sg * seg_size + c * chunk_size) as Ei by (unfold idx; lia).
  assert (c = (send_pe p + 1 - (r + 1 - n)) `mod` n) as Ec.
  { unfold c. rewrite <- same_chunk by lia. replace (send_pe p + 1 - (r + 1 - n)) with (send_pe p - r + 1 * n) by lia.
    by rewrite Z.mod_add by lia. }
  apply (ginv_arrive s tt st dl p _ k _ _ _ _ Hi Hp Hm); try done.
  - intros q Hne. by rewrite fn_lookup_insert_ne by congruence.
  - intros i. by rewrite (gi_flag _ _ _ _ Hi), left_send, Ed2, Ed3 by done.
  - intros sg' r' o Hr1 Hin Hb. pose proof (gi_wrk _ _ _ _ Hi (send_pe p) sg' r' o Hq Hr1 Hin) as Hw.
    rewrite left_send in Hw by done. apply Hw. rewrite Ed4 in Hb. split; [|lia].
    destruct (decide (sg' * R + r' = sg * R + r)) as [E|]; [|lia]. apply rounds_differ in E; [lia|unfold Ring.R; lia|done].
  - intros sg' c' o Hin Htq. rewrite fn_lookup_insert, Ei. destruct (decide ((sg', c') = (sg, c))) as [[= -> ->]|Hne].
    + rewrite write_same by done. fold (idx sg c o). unfold c at 1.
      rewrite (sent_chunk s tt st dl p sg r o), (proj2 (Z.ltb_ge _ _)) by (done || lia). fold c.
      unfold dst_value. rewrite left_send, fn_lookup_insert, Ed4 by done.
      assert ((send_pe p + 1 - c) `mod` n = r + 1 - n) as -> by (rewrite Ec; apply mod_back; lia).
      by rewrite decide_True by lia.
    + rewrite write_apart, (gi_dst _ _ _ _ Hi) by done. symmetry. apply dst_value_dl. intros j Hj.
      rewrite left_send, fn_lookup_insert, Ed3, Ed4 by done. split; [lia|]. intros Hlt.
      destruct (decide (sg' * R + (n - 1 + j) = sg * R + r)) as [E|]; [|lia].
      destruct (rounds_differ sg' (n - 1 + j) sg r ltac:(unfold Ring.R; lia) Hr' E) as [-> Ej]. destruct Hne. f_equal.
      rewrite Ec. replace (r + 1 - n) with j by lia. unfold j. by rewrite mod_back by (done || apply Hin).
  - intros i Hcov. rewrite fn_lookup_insert, Ei. by apply write_uncovered.
Qed.

Lemma ginv_net s tt st dl p s' :
  ginv s tt st dl → 0 ≤ p < n → gstep_net n chunk_size p s = Some s' → ∃ dl', ginv s' tt st dl'.
Proof using All.
  intros Hi Hp Hs. unfold gstep_net in Hs. destruct (gchan s p) as [|m k] eqn:Hm; [done|].
  destruct (next_message s tt st dl p m k Hi Hp Hm) as (sg & r & Hsg & Hr & Ht & [[Ed ->]|[Ed ->]]).
  - cbv zeta in Hm, Hs. destruct (Z.ltb_spec r (n - 1)); injection Hs as <-; eexists.
    + apply (ginv_chunk1 s tt st dl p sg r k); (done || lia).
    + apply (ginv_chunk2 s tt st dl p sg r k); (done || lia).
  - injection Hs as <-. eexists. by apply (ginv_signal s tt st dl p sg r k).
Qed.

Lemma ginv_reachable w0 s :
  rtc (gstep op n nelems seg_size chunk_size src) (ginit n n_seg d0 w0) s → ∃ tt st dl, ginv s tt st dl.
Proof using All.
  apply (rtc_invariant _ (λ s, ∃ tt st dl, ginv s tt st dl)); [do 3 eexists; apply ginv_init|].
  intros s1 s2 Hs (tt & st & dl & Hi). destruct Hs as [p Hp Hs|p Hp Hs].
  - destruct (ginv_pe _ _ _ _ _ _ Hi Hp Hs) as (tt' & st' & Hi'). eauto.
  - destruct (ginv_net _ _ _ _ _ _ Hi Hp Hs) as (dl' & Hi'). eauto.
Qed.

(** *** Progress *)

Notation gstep := (gstep op n nelems seg_size chunk_size src).

Lemma argmin (f : Z → Z) k : 0 < k → ∃ p, 0 ≤ p < k ∧ ∀ q, 0 ≤ q < k → f p ≤ f q.
Proof.
  intros Hk. replace k with (Z.succ (k - 1)) by lia. assert (0 ≤ k - 1) as Hk' by lia. revert Hk'. generalize (k - 1) as m.
  apply natlike_ind.
  - exists 0. split; [lia|]. intros q Hq. assert (q = 0) as -> by lia. done.
  - intros m Hm (p & Hp & Hmin). destruct (Z.le_gt_cases (f p) (f (Z.succ m))) as [Hle|Hgt].
    + exists p. split; [lia|]. intros q Hq. destruct (decide (q = Z.succ m)) as [->|]; [done|]. apply Hmin. lia.
    + exists (Z.succ m). split; [lia|]. intros q Hq. destruct (decide (q = Z.succ m)) as [->|]; [done|].
      pose proof (Hmin q ltac:(lia)). lia.
Qed.

Lemma gcan_go (s : gstate) p x k :
  0 ≤ p < n → gprog s p = x :: k → (∀ sg r, x = GWait sg r → gsync s p r = wait_val sg) → ∃ s', gstep s s'.
Proof.
  intros Hp Hx Hw. destruct (gstep_pe op n nelems seg_size chunk_size src p s) as [s'|] eqn:E.
  - exists s'. by apply (gstep_member _ _ _ _ _ _ _ _ p).
  - unfold gstep_pe in E. rewrite Hx in E. destruct x; try done. by rewrite (Hw _ _ eq_refl), Z.eqb_refl in E.
Qed.

(** The member that is furthest behind finds its flag set. *)
Lemma flag_is_set s tt st dl p sg r k :
  ginv s tt st dl → 0 ≤ p < n → gprog s p = GWait sg r :: k → tt p ≤ tt (left_pe p) → dl (left_pe p) = posted (tt (left_pe p)) (st (left_pe p)) →
  (∀ x k, gprog s (left_pe p) = x :: k → ∃ sg r, x = GWait sg r) → gsync s p r = wait_val sg.
Proof using All.
  intros Hi Hp Hx Hmin Hdl Hleft. pose proof (gi_ctl _ _ _ _ Hi) as Hc. pose proof (R_pos n Hn). pose proof (left_range n Hn p) as Hl.
  pose proof (total_nonneg n n_seg Hn Hseg).
  pose proof (gi_prog _ _ _ _ Hi p Hp) as E. rewrite Hx in E. symmetry in E.
  destruct (good_todo n n_seg Hn Hseg _ _ _ _ (c_good _ _ _ _ _ Hc p Hp) E) as (Ht & (Et & Hs & Hr & Es & _) & _ & _).
  pose proof (in_total n n_seg Hn sg r Hs Hr). assert (n ≤ R) by (unfold Ring.R; lia).
  pose proof (arrived_bound n n_seg Hn Hseg _ _ _ Hc p Hp) as Hb. rewrite Et, Es, posted_at in Hb by done.
  change (Z.min (Z.of_nat 2) 2) with 2 in Hb.
  rewrite (gi_flag _ _ _ _ Hi), decide_True by (done || lia). apply flag_value_at; [lia..|]. split; [|div_lia].
  enough (2 * (sg * R + r) + 2 ≤ dl (left_pe p)) by div_lia. rewrite Hdl.
  destruct (gprog s (left_pe p)) as [|x' k'] eqn:Hx'.
  - pose proof (gi_prog _ _ _ _ Hi _ Hl) as E'. rewrite Hx' in E'. symmetry in E'.
    pose proof (good_done n n_seg Hn Hseg _ _ (c_good _ _ _ _ _ Hc _ Hl) E') as Ht'.
    pose proof (posted_bounds n n_seg Hn Hseg (tt (left_pe p)) (st (left_pe p))) as Hpb. unfold clip in Hpb. lia.
  - destruct (Hleft x' k' eq_refl) as (sg' & r' & ->).
    pose proof (gi_prog _ _ _ _ Hi _ Hl) as E'. rewrite Hx' in E'. symmetry in E'.
    destruct (good_todo n n_seg Hn Hseg _ _ _ _ (c_good _ _ _ _ _ Hc _ Hl) E') as (_ & (Et' & Hs' & Hr' & Es' & _) & _ & _).
    rewrite Et', Es', posted_at by done. lia.
Qed.

Lemma ginv_not_stuck s tt st dl : ginv s tt st dl → gfinished n s ∨ ∃ s', gstep s s'.
Proof using All.
  intros Hi. pose proof (gi_ctl _ _ _ _ Hi) as Hc.
  destruct (decide (Exists (λ p, gchan s p ≠ []) (seqZ 0 n))) as [(p & Hp%elem_of_seqZ & Hm)%Exists_exists|Hno].
  { right. destruct (gstep_net n chunk_size p s) as [s'|] eqn:E.
    - exists s'. apply (gstep_arrive _ _ _ _ _ _ _ _ p); [lia|done].
    - unfold gstep_net in E. destruct (gchan s p) as [|[[]|]]; done. }
  assert (∀ p, 0 ≤ p < n → gchan s p = []) as Hempty.
  { intros p Hp. apply dec_stable. intros Hne. apply Hno, Exists_exists. exists p. split; [apply elem_of_seqZ; lia|done]. }
  assert (∀ p, 0 ≤ p < n → dl p = posted (tt p) (st p)) as Hdl.
  { intros p Hp. pose proof (Hempty p Hp) as E. rewrite (gi_chan _ _ _ _ Hi) in E by done.
    pose proof (c_dl _ _ _ _ _ Hc p Hp). apply fmap_nil_inv in E. apply (f_equal length) in E. rewrite length_seqZ in E. cbn in E. lia. }
  destruct (argmin tt n ltac:(lia)) as (p & Hp & Hmin).
  destruct (gprog s p) as [|x k] eqn:Hx.
  - left. intros q Hq. split; [|by apply Hempty]. rewrite (gi_prog _ _ _ _ Hi) in Hx |- * by done.
    pose proof (good_done n n_seg Hn Hseg _ _ (c_good _ _ _ _ _ Hc p Hp) Hx) as Ht. pose proof (Hmin q Hq).
    destruct (todo (tt q) (st q)) as [|y l] eqn:E; [done|].
    destruct (good_todo n n_seg Hn Hseg _ _ _ _ (c_good _ _ _ _ _ Hc q Hq) E) as (? & _). lia.
  - right. destruct (gprog s (left_pe p)) as [|y l] eqn:Hy.
    + eapply gcan_go; [exact Hp|exact Hx|]. intros sg r ->.
      apply (flag_is_set s tt st dl p sg r k); auto using left_range. intros x' k' E. by rewrite Hy in E.
    + assert ((∃ sg r, y = GWait sg r) ∨ ¬ ∃ sg r, y = GWait sg r) as [Hw|Hnw] by (destruct y; naive_solver).
      * eapply gcan_go; [exact Hp|exact Hx|]. intros sg r ->.
        apply (flag_is_set s tt st dl p sg r k); auto using left_range. intros x' k' E. rewrite Hy in E. injection E as <- _. done.
      * eapply gcan_go; [apply (left_range n Hn p)|exact Hy|]. intros sg r ->. destruct Hnw. eauto.
Qed.

(** *** Termination *)

Definition gweight (s : gstate (V := V)) : nat :=
  sum_list_with (λ p, 2 * length (gprog s p) + length (gchan s p))%nat (seqZ 0 n).

Lemma gstep_decreases s s' : gstep s s' → (gweight s' < gweight s)%nat.
Proof.
  assert (∀ s' p, 0 ≤ p < n → (∀ q, q ≠ p → gprog s' q = gprog s q ∧ gchan s' q = gchan s q) →
    (2 * length (gprog s' p) + length (gchan s' p) < 2 * length (gprog s p) + length (gchan s p))%nat →
    (gweight s' < gweight s)%nat) as Hrow.
  { intros s2 p Hp Hother Hlt. unfold gweight.
    pose proof (sum_update (λ p, 2 * length (gprog s p) + length (gchan s p))%nat
      (λ p, 2 * length (gprog s2 p) + length (gchan s2 p))%nat (seqZ 0 n) p (NoDup_seqZ _ _)
      ltac:(apply elem_of_seqZ; lia) ltac:(intros q Hq; by destruct (Hother q Hq) as [-> ->])). cbn in *. lia. }
  intros [p Hp Hs|p Hp Hs]; apply (Hrow _ p Hp).
  - intros q Hq. unfold gstep_pe in Hs. repeat case_match; simplify_eq/=; by rewrite ?fn_lookup_insert_ne by congruence.
  - unfold gstep_pe in Hs. destruct (gprog s p) as [|x k] eqn:Hx; [done|].
    destruct x; repeat case_match; simplify_eq/=; rewrite ?fn_lookup_insert, ?length_app; cbn; lia.
  - intros q Hq. unfold gstep_net in Hs. repeat case_match; simplify_eq/=; by rewrite ?fn_lookup_insert_ne by congruence.
  - unfold gstep_net in Hs. destruct (gchan s p) as [|x k] eqn:Hx; [done|].
    repeat case_match; simplify_eq/=; rewrite ?fn_lookup_insert; cbn; lia.
Qed.

Lemma gsteps_bounded k s s' : nsteps gstep k s s' → (k + gweight s' ≤ gweight s)%nat.
Proof. induction 1 as [|k s1 s2 s3 Hs _ IH]; [lia|]. apply gstep_decreases in Hs. lia. Qed.

(** *** The outcome *)

Lemma gdst_end s tt st dl p sg c o :
  ginv s tt st dl → 0 ≤ p < n → gprog s p = [] → in_chunk sg c o → gdst s p (idx sg c o) = full (idx sg c o) c.
Proof using All.
  intros Hi Hp Hend Hin. pose proof (gi_ctl _ _ _ _ Hi) as Hc. pose proof (R_pos n Hn). pose proof (total_nonneg n n_seg Hn Hseg).
  rewrite (gi_prog _ _ _ _ Hi) in Hend by done.
  pose proof (good_done n n_seg Hn Hseg _ _ (c_good _ _ _ _ _ Hc p Hp) Hend) as Ht.
  rewrite (gi_dst _ _ _ _ Hi) by (done || lia). destruct Hin as (Hs & Hcn & Ho).
  pose proof (waited_arrived n n_seg Hn _ _ _ Hc p Hp) as Hwa. pose proof (waited_bounds n n_seg Hn Hseg (tt p) (st p)) as Hwb.
  unfold clip in Hwb. assert (total ≤ (dl (left_pe p) + 1) / 2) as Hd by div_lia. clear Hwa Hwb.
  unfold dst_value. pose proof (Z.mod_pos_bound (p + 1 - c) n ltac:(lia)) as Hj.
  destruct (decide ((p + 1 - c) `mod` n ≤ n - 2)) as [Hle|Hgt].
  - rewrite decide_True; [done|]. split; [done|].
    pose proof (in_total n n_seg Hn sg (n - 1 + (p + 1 - c) `mod` n) Hs ltac:(unfold Ring.R; lia)). lia.
  - rewrite decide_False by lia. assert ((p + 1 - c) `mod` n = n - 1) as Ej by lia.
    assert (c = (p + 1 - (n - 1)) `mod` n) as Ec by (rewrite <- Ej; by rewrite mod_back).
    assert ((p - c) `mod` n = n - 2) as ->.
    { rewrite Ec. replace (p + 1 - (n - 1)) with (p - (n - 2)) by lia. apply mod_back; lia. }
    pose proof (in_total n n_seg Hn sg (n - 2) Hs ltac:(unfold Ring.R; lia)).
    rewrite decide_True by lia. unfold full. f_equal; [|lia]. rewrite Ec, Zminus_mod_idemp_l.
    replace (p + 1 - (n - 1) - 2) with (p + (-1) * n) by lia. by rewrite Z.mod_add, Z.mod_small by lia.
Qed.

Lemma gsync_end s tt st dl p i : ginv s tt st dl → 0 ≤ p < n → gprog s p = [] → gsync s p i = ROC_SHMEM_SYNC_VALUE.
Proof using All.
  intros Hi Hp Hend. pose proof (gi_ctl _ _ _ _ Hi) as Hc. rewrite (gi_prog _ _ _ _ Hi) in Hend by done.
  pose proof (good_done n n_seg Hn Hseg _ _ (c_good _ _ _ _ _ Hc p Hp) Hend).
  rewrite (gi_flag _ _ _ _ Hi) by done. by rewrite decide_False by lia.
Qed.

Lemma grest_end s tt st dl p i :
  ginv s tt st dl → 0 ≤ p < n → gprog s p = [] → ¬ covered i →
  gdst s p i = if decide (0 ≤ i < nelems) then src p i else d0 p i.
Proof using All.
  intros Hi Hp Hend Hcov. pose proof (gi_ctl _ _ _ _ Hi) as Hc. pose proof (total_nonneg n n_seg Hn Hseg).
  rewrite (gi_prog _ _ _ _ Hi) in Hend by done. pose proof (good_done n n_seg Hn Hseg _ _ (c_good _ _ _ _ _ Hc p Hp) Hend).
  rewrite (gi_rest _ _ _ _ Hi) by done. apply decide_ext. lia.
Qed.

(** All sources are in the end result. *)
Context `{!Comm (=) op, !Assoc (=) op}.

Lemma combined_cons x l v : combined op l = Some v → combined op (x :: l) = Some (op x v).
Proof using All.
  destruct l as [|y l]; [done|]. cbn. intros [= <-]. f_equal. revert y. induction l as [|z l IH]; intros y; cbn; [done|].
  by rewrite <- IH, (assoc op).
Qed.

Lemma part_combined i r : ∀ p, 0 ≤ p < n → combined op ((λ k, src ((p - k) `mod` n) i) <$> seqZ 0 (Z.of_nat r + 1)) = Some (part i p r).
Proof using All.
  induction r as [|r IH]; intros p Hp.
  - rewrite (seqZ_cons 0) by lia. cbn. by rewrite Z.sub_0_r, Z.mod_small by lia.
  - rewrite (seqZ_cons 0) by lia. cbn [fmap list_fmap]. rewrite Z.sub_0_r, (Z.mod_small p) by lia. cbn [part].
    apply combined_cons. rewrite <- (IH (left_pe p) (left_range n Hn p)). f_equal.
    replace (Z.pred (Z.of_nat (S r) + 1)) with (Z.of_nat r + 1) by lia. change (Z.succ 0) with (1 + 0). rewrite <- fmap_add_seqZ.
    rewrite <- list_fmap_compose. apply list_fmap_ext. intros a k _. cbn. f_equal. unfold Ring.left_pe.
    rewrite Zminus_mod_idemp_l. f_equal. lia.
Qed.

Lemma full_combined i c : combined op ((λ k, src k i) <$> seqZ 0 n) = Some (full i c).
Proof using All.
  unfold full. set (e := (c - 2) `mod` n). assert (0 ≤ e < n) as He by (apply Z.mod_pos_bound; lia).
  rewrite <- (part_combined i _ e He). replace (Z.of_nat (Z.to_nat (n - 1)) + 1) with n by lia.
  change (λ k, src ((e - k) `mod` n) i) with ((λ k, src k i) ∘ λ k, (e - k) `mod` n). rewrite list_fmap_compose.
  apply combined_perm; [done|done|]. apply fmap_Permutation. apply NoDup_Permutation; [apply NoDup_seqZ| |].
  - apply NoDup_fmap_2_strong; [|apply NoDup_seqZ]. intros x y Hx%elem_of_seqZ Hy%elem_of_seqZ E.
    rewrite <- (mod_back n Hn e x), E, mod_back by lia. done.
  - intros x. rewrite list_elem_of_fmap, elem_of_seqZ. split.
    + intros Hx. exists ((e - x) `mod` n). rewrite mod_back by lia. split; [done|].
      apply elem_of_seqZ. pose proof (Z.mod_pos_bound (e - x) n ltac:(lia)). lia.
    + intros (k & -> & _). pose proof (Z.mod_pos_bound (e - k) n ltac:(lia)). lia.
Qed.
End data.

(** ** The reduction by all *)

(** C12: The ring reduction, with the segments and chunks that [to_all] chooses, called by
    all processes with the flags down: every run of members and network is finite and
    ends with all members returned; a member that has returned has in every chunk of
    every segment the combination of the sources of all processes, its own source in
    the elements that belong to no chunk, and its flags are down again. *)
Theorem ring_allreduce_correct Op w num_pes nreduce n_seg seg_size chunk_size (src d0 w0 : Z → Z → Z) :
  0 < w → 2 ≤ num_pes → 0 < nreduce → num_pes * nreduce ≤ INT_MAX → 1024 * num_pes ≤ INT_MAX →
  to_all num_pes nreduce = Ring n_seg seg_size chunk_size →
  let step := gstep (Calc Op w) num_pes nreduce seg_size chunk_size src in
  let init := ginit num_pes n_seg d0 w0 in
  let in_chunk := in_chunk num_pes n_seg chunk_size in
  let idx := idx seg_size chunk_size in
  (∃ bound : nat, ∀ k s, nsteps step k init s → (k ≤ bound)%nat) ∧
  (∀ s, rtc step init s → gfinished num_pes s ∨ ∃ s', step s s') ∧
  (∀ s p, rtc step init s → 0 ≤ p < num_pes → gprog s p = [] →
     (∀ sg c o, in_chunk sg c o →
        combined (Calc Op w) ((λ q, src q (idx sg c o)) <$> seqZ 0 num_pes) = Some (gdst s p (idx sg c o))) ∧
     (∀ i, (∀ sg c o, in_chunk sg c o → i ≠ idx sg c o) →
        gdst s p i = if decide (0 ≤ i < nreduce) then src p i else d0 p i) ∧
     (∀ i, gsync s p i = ROC_SHMEM_SYNC_VALUE)).
Proof.
  intros Hw Hn Hr Hm Hm2 Hall step init inc ix. pose proof (to_all_sizes num_pes nreduce ltac:(lia) Hr Hm Hm2) as Hsz.
  rewrite Hall in Hsz. destruct Hsz as (Hs & _ & [Hin _] & Hc & Hfit & _).
  assert (4 * num_pes < 2 ^ 64) as Hsmall by (unfold INT_MAX in Hm2; lia). assert (0 ≤ n_seg) as Hs0 by lia.
  pose proof (ginv_reachable (Calc Op w) num_pes nreduce n_seg seg_size chunk_size src d0 Hn Hs0 Hsmall Hc Hfit Hin w0) as Hinv.
  pose proof (Calc_assoc Op w Hw) as Hassoc. split_and!.
  - exists (gweight num_pes init). intros k s Hk. apply gsteps_bounded in Hk; [lia|done..].
  - intros s (tt & st & dl & Hi)%Hinv. by eapply ginv_not_stuck.
  - intros s p (tt & st & dl & Hi)%Hinv Hp Hend. split_and!.
    + intros sg c o Hch. rewrite (full_combined _ _ nreduce n_seg seg_size chunk_size _ d0 Hn Hs0 Hsmall Hc Hfit Hin _ c).
      f_equal. symmetry. by eapply gdst_end.
    + intros i Hno. apply (grest_end _ _ _ _ _ _ _ _ Hn Hs0 Hsmall Hc Hfit Hin s tt st dl p i Hi Hp Hend). intros (sg & c & o & Hch & ->). by apply (Hno sg c o).
    + intros i. exact (gsync_end _ _ _ _ _ _ _ _ Hn Hs0 Hsmall Hc Hfit Hin s tt st dl p i Hi Hp Hend).
Qed.

(** ** Running a schedule *)

Section schedule.
Context {V : Type} (op : V → V → V) (num_pes nelems seg_size chunk_size : Z) (src : Z → Z → V).

(** [inl p]: an instruction of [p]; [inr p]: an arrival from [p]. *)
Definition gact (a : Z + Z) (s : gstate) : option (gstate (V := V)) :=
  match a with
  | inl p => if decide (0 ≤ p < num_pes) then gstep_pe op num_pes nelems seg_size chunk_size src p s else None
  | inr p => if decide (0 ≤ p < num_pes) then gstep_net num_pes chunk_size p s else None
  end.

Fixpoint grun (l : list (Z + Z)) (s : gstate) : option (gstate (V := V)) :=
  match l with [] => Some s | a :: l' => s' ← gact a s; grun l' s' end.

Lemma grun_sound l : ∀ s s', grun l s = Some s' → rtc (gstep op num_pes nelems seg_size chunk_size src) s s'.
Proof.
  induction l as [|a l IH]; intros s s' H; cbn [grun] in H; [injection H as ->; apply rtc_refl|].
  apply bind_Some in H as (s1 & H1 & H). eapply rtc_l; [|by apply IH].
  destruct a as [p|p]; cbn in H1; case_decide as Hd; try done.
  - by apply (gstep_member _ _ _ _ _ _ _ _ p).
  - by apply (gstep_arrive _ _ _ _ _ _ _ _ p).
Qed.
End schedule.

(** Two processes that keep in step. *)
Definition in_step : list (Z + Z) :=
  let both k1 k2 := replicate k1 (inl 0) ++ replicate k1 (inl 1) ++ replicate k2 (inr 0) ++ replicate k2 (inr 1) in
  both 3%nat 2%nat ++ both 4%nat 2%nat ++ both 2%nat 0%nat.

Lemma ring_allreduce_correct_witness :
  to_all 2 600 = Ring 1 600 300 ∧
  ∃ s, rtc (gstep (Calc ROC_SHMEM_SUM 32) 2 600 600 300 (λ p i, 1000 * p + i)) (ginit 2 1 (λ _ _, 0) (λ _ _, 0)) s ∧
    gprog s 1 = [] ∧ gdst s 1 599 = 2198 ∧ gsync s 1 0 = 0.
Proof.
  assert (to_all 2 600 = Ring 1 600 300) as Ha by (vm_compute; reflexivity). split; [exact Ha|].
  destruct (ring_allreduce_correct ROC_SHMEM_SUM 32 2 600 1 600 300 (λ p i, 1000 * p + i) (λ _ _, 0) (λ _ _, 0)
    ltac:(lia) ltac:(lia) ltac:(lia) ltac:(by vm_compute) ltac:(by vm_compute) Ha) as (_ & _ & Hd).
  assert (match grun (Calc ROC_SHMEM_SUM 32) 2 600 600 300 (λ p i, 1000 * p + i) in_step (ginit 2 1 (λ _ _, 0) (λ _ _, 0)) with
    | Some s => match gprog s 1 with [] => true | _ => false end | None => false end = true) as H
    by (vm_compute; reflexivity).
  destruct (grun _ 2 600 600 300 _ in_step _) as [s|] eqn:E; [|discriminate H].
  assert (gprog s 1 = []) as Hp by by destruct (gprog s 1).
  pose proof (grun_sound _ _ _ _ _ _ _ _ _ E) as Hr. exists s. split; [exact Hr|]. split; [exact Hp|].
  destruct (Hd s 1 Hr ltac:(lia) Hp) as (H1 & _ & H3). split; [|apply H3].
  assert (in_chunk 2 1 300 0 1 299) as Hin by (unfold in_chunk; lia). specialize (H1 0 1 299 Hin).
  change (idx 600 300 0 1 299) with 599 in H1. vm_compute in H1 |- *. by injection H1 as <-.
Defined.

(** With three processes and a thousand elements the chunks have 333 elements, and the
    last element is not reduced: every process keeps its own. *)
Theorem ring_remainder_kept Op w (src d0 w0 : Z → Z → Z) s p :
  to_all 3 1000 = Ring 1 1000 333 ∧
  (rtc (gstep (Calc Op w) 3 1000 1000 333 src) (ginit 3 1 d0 w0) s → 0 ≤ p < 3 → gprog s p = [] → gdst s p 999 = src p 999).
Proof.
  split; [vm_compute; reflexivity|]. intros Hr Hp Hend.
  destruct (ginv_reachable (Calc Op w) 3 1000 1 1000 333 src d0 ltac:(lia) ltac:(lia) ltac:(lia) ltac:(lia) ltac:(lia) ltac:(lia) w0 s Hr)
    as (tt & st & dl & Hi).
  rewrite (grest_end (Calc Op w) 3 1000 1 1000 333 src d0 ltac:(lia) ltac:(lia) ltac:(lia) ltac:(lia) ltac:(lia) ltac:(lia)
    s tt st dl p 999 Hi Hp Hend); [done|]. intros (sg & c & o & (Hsg & Hc & Ho) & E). unfold idx in E. lia.
Qed.
