(* ===== verification/Gcen.v ===== *)
(** * The clustered collectives of the InfiniBand backend

    [alltoall_gcen], [alltoall_gcen2], [fcollect_gcen] and [fcollect_gcen2] of
    [gpu_ib/gpu_ib_gpu_templates.hpp].  The members of a team form clusters; they
    gather blocks within the cluster, send them to the members of the same place in
    the other clusters (the ring), and synchronise through flags of their own,
    without a barrier of the whole team.  So the programs here run on a machine with
    words of [pSync]: the flags travel like the transfers do.  Shown: the all-to-all
    [alltoall_gcen] is right in every interleaving, ends, and leaves the buffers to
    the caller; [alltoall_gcen2] and [fcollect_gcen] let a member return while its
    source is still read; [fcollect_gcen2] can block. *)
From stdpp Require Import functions sorting.
From S2P Require Import Prelude Teams Barrier Onesided IBColl.

Local Open Scope Z_scope.

(** ** Programs with flags *)

(** Start a transfer; wait for all own transfers; [amo_add] of 1 to word [w] of
    [pe], which returns when the addition has been done; wait for a value of an own
    word; reset it; [put_nbi] of the flag value 1 to word [w] of [pe]. *)
Inductive gop :=
  | GMove (mv : move)
  | GQuiet
  | GAdd (w pe : Z)
  | GWait (w v : Z)
  | GReset (w : Z)
  | GFlag (w pe : Z).

#[export] Instance gop_eq_dec : EqDecision gop.
Proof. solve_decision. Defined.

Section programs.
Context (pe_size nelems : Z).

(** The words of [alltoall_pSync]; [pSync] is its start. *)
Definition pSync2 : Z := ROC_SHMEM_BARRIER_SYNC_SIZE.
Definition flag_val : Z := 1.

Definition num_clust : Z := Z.sqrt pe_size.
Definition clust_size : Z := Z.quot (pe_size + num_clust - 1) num_clust.
Definition clust_id (my_pe_in_team : Z) : Z := Z.quot my_pe_in_team clust_size.

(** The checks of all four: the stride of the team is a power of two; the product is
    one of [int]s, the bound a [size_t]; the clusters divide the team. *)
Definition gcen_checks (stride : Z) : result unit :=
  check_stride stride;;
  assert_ (negb (ROC_SHMEM_ATA_MAX_WRKDATA_SIZE <? u64 (s32 (pe_size * nelems))));;
  assert_ (num_clust * clust_size =? pe_size);;
  Ok tt.

(** *** Barriers on flags *)

(** [internal_direct_barrier], [internal_atomic_barrier] and [internal_sync] as they
    are called here, with elements numbered within the team. *)
Definition direct_barrier_ops (pe PE_start stride n_pes : Z) : list gop :=
  if pe =? PE_start then
    concat ((λ i, [GWait i flag_val; GReset i]) <$> seqZ 1 (n_pes - 1))
    ++ ((λ i, GFlag 0 (PE_start + i * stride)) <$> seqZ 1 (n_pes - 1))
  else [GFlag (Z.quot (pe - PE_start) stride) PE_start; GWait 0 flag_val; GReset 0].

Definition atomic_barrier_ops (pe PE_start stride n_pes : Z) : list gop :=
  if pe =? PE_start then
    [GWait 0 (n_pes - 1); GReset 0] ++ ((λ i, GFlag 0 (PE_start + i * stride)) <$> seqZ 1 (n_pes - 1))
  else [GAdd 0 PE_start; GWait 0 flag_val; GReset 0].

Definition internal_sync_ops (pe PE_start stride n_pes : Z) : list gop :=
  if n_pes <? 64 then direct_barrier_ops pe PE_start stride n_pes
  else atomic_barrier_ops pe PE_start stride n_pes.

(** *** The steps of the collectives *)

(** Step 1 of the all-to-all: blocks of the members of the cluster. *)
Definition alltoall_get (me i : Z) : move :=
  let src_pe := clust_id me * clust_size + Z.rem i clust_size in
  let src_loc := Z.quot i clust_size * clust_size + Z.rem me clust_size in
  mkMove src_pe Src (src_loc * nelems) me PAta (i * nelems) nelems.

(** Step 2 of the all-to-all: runs of blocks to the members of the ring. *)
Definition alltoall_put (me i : Z) : move :=
  let dest_pe := Z.rem me clust_size + i * clust_size in
  let j := clust_id me in
  mkMove me PAta (i * nelems * clust_size) dest_pe Dst (j * nelems * clust_size) (nelems * clust_size).

Definition fcollect_get (me i : Z) : move :=
  let src_pe := clust_id me * clust_size + Z.rem i clust_size in
  mkMove src_pe Src 0 me PAta (i * nelems) nelems.

Definition fcollect_put (me i : Z) : move :=
  let dest_pe := Z.rem me clust_size + i * clust_size in
  let j := clust_id me in
  mkMove me PAta 0 dest_pe Dst (j * nelems * clust_size) (nelems * clust_size).

(** [amo_add] to the first member of the cluster, and of the ring. *)
Definition tell_cluster (me : Z) : list gop :=
  let dest_pe := clust_id me * clust_size in
  if negb (dest_pe =? me) then [GAdd pSync2 dest_pe] else [].
Definition tell_ring (me : Z) : list gop :=
  let dest_pe2 := Z.rem me clust_size in
  if negb (dest_pe2 =? me) then [GAdd 0 dest_pe2] else [].

(** The first member waits for the others and releases them. *)
Definition await_cluster (first : bool) (me : Z) : list gop :=
  if first then
    [GWait pSync2 (flag_val * (clust_size - 1)); GReset pSync2]
    ++ ((λ i, GFlag pSync2 (me + i)) <$> seqZ 1 (clust_size - 1))
  else [GWait pSync2 flag_val; GReset pSync2].
Definition await_ring (me : Z) : list gop :=
  let dest_pe2 := Z.rem me clust_size in
  if me =? dest_pe2 then
    [GWait 0 (num_clust - 1); GReset 0]
    ++ ((λ i, GFlag 0 (dest_pe2 + i * clust_size)) <$> seqZ 1 (num_clust - 1))
  else [GWait 0 flag_val; GReset 0].

(** *** The four collectives *)

Definition alltoall_gcen_ops (me : Z) : list gop :=
  (GMove ∘ alltoall_get me <$> seqZ 0 pe_size) ++ [GQuiet]
  ++ (GMove ∘ alltoall_put me <$> seqZ 0 num_clust) ++ [GQuiet]
  ++ tell_cluster me ++ tell_ring me
  ++ await_cluster (me =? clust_id me * clust_size) me ++ await_ring me.

Definition alltoall_gcen (stride me : Z) : result (list gop) :=
  gcen_checks stride;; Ok (alltoall_gcen_ops me).

Definition alltoall_gcen2_ops (me : Z) : list gop :=
  (GMove ∘ alltoall_get me <$> seqZ 0 pe_size)
  ++ tell_cluster me ++ [GQuiet]
  ++ (GMove ∘ alltoall_put me <$> seqZ 0 num_clust) ++ [GQuiet]
  ++ await_cluster (Z.rem me clust_size =? 0) me
  ++ internal_sync_ops me (Z.rem me clust_size) clust_size num_clust.

Definition alltoall_gcen2 (stride me : Z) : result (list gop) :=
  gcen_checks stride;; Ok (alltoall_gcen2_ops me).

Definition fcollect_gcen_ops (me : Z) : list gop :=
  (GMove ∘ fcollect_get me <$> seqZ 0 clust_size)
  ++ tell_cluster me ++ [GQuiet]
  ++ (GMove ∘ fcollect_put me <$> seqZ 0 num_clust) ++ [GQuiet]
  ++ await_cluster (Z.rem me clust_size =? 0) me
  ++ internal_sync_ops me (Z.rem me clust_size) clust_size num_clust.

Definition fcollect_gcen (stride me : Z) : result (list gop) :=
  gcen_checks stride;; Ok (fcollect_gcen_ops me).

Definition fcollect_gcen2_ops (me : Z) : list gop :=
  (GMove ∘ fcollect_get me <$> seqZ 0 clust_size) ++ [GQuiet]
  ++ internal_sync_ops me (clust_id me * clust_size) 1 clust_size
  ++ (GMove ∘ fcollect_put me <$> seqZ 0 num_clust) ++ [GQuiet]
  ++ internal_sync_ops me (Z.rem me clust_size) clust_size num_clust.

Definition fcollect_gcen2 (stride me : Z) : result (list gop) :=
  gcen_checks stride;; Ok (fcollect_gcen2_ops me).
End programs.

(** ** The machine *)

Section machine.
Context {V : Type} (n : Z).

(** The programs that are left; the transfers on their way, by the member that
    started them; the words of [pSync] by member and index; the flags on their way, by
    the member that sent them, their target and index; the memory; and, for the
    statements, what each member has done. *)
Record cstate := mkC {
  c_progs : Z → list gop;
  c_pend : Z → list move;
  c_flags : Z * Z → Z;
  c_net : list (Z * (Z * Z));
  c_mem : memory V;
  c_done : Z → list gop
}.

(** The next operation of member [p]; [None] while it waits. *)
Definition advance (p : Z) (s : cstate) : option cstate :=
  match c_progs s p with
  | [] => None
  | o :: k =>
      let next pend flags net :=
        Some (mkC (<[p := k]> (c_progs s)) pend flags net (c_mem s) (<[p := c_done s p ++ [o]]> (c_done s))) in
      match o with
      | GMove mv => next (<[p := c_pend s p ++ [mv]]> (c_pend s)) (c_flags s) (c_net s)
      | GQuiet =>
          if decide (c_pend s p = [] ∧ Forall (λ x, x.1 ≠ p) (c_net s))
          then next (c_pend s) (c_flags s) (c_net s) else None
      (* [atomic_nofetch] waits for the queue pair of the peer *)
      | GAdd w pe =>
          if decide (Forall (λ mv, peer p mv ≠ pe) (c_pend s p) ∧ Forall (λ x, x.1 = p → x.2.1 ≠ pe) (c_net s))
          then next (c_pend s) (<[(pe, w) := s64 (c_flags s (pe, w) + flag_val)]> (c_flags s)) (c_net s)
          else None
      | GWait w v => if c_flags s (p, w) =? v then next (c_pend s) (c_flags s) (c_net s) else None
      | GReset w => next (c_pend s) (<[(p, w) := ROC_SHMEM_SYNC_VALUE]> (c_flags s)) (c_net s)
      | GFlag w pe => next (c_pend s) (c_flags s) ((p, (pe, w)) :: c_net s)
      end
  end.

Inductive cstep : cstate → cstate → Prop :=
  | c_advance p s s' : 0 ≤ p < n → advance p s = Some s' → cstep s s'
  | c_complete p s l1 mv l2 :
      0 ≤ p < n → c_pend s p = l1 ++ mv :: l2 →
      cstep s (mkC (c_progs s) (<[p := l1 ++ l2]> (c_pend s)) (c_flags s) (c_net s) (exec (c_mem s) mv) (c_done s))
  | c_deliver q x w s l1 l2 :
      c_net s = l1 ++ (q, (x, w)) :: l2 →
      cstep s (mkC (c_progs s) (c_pend s) (<[(x, w) := flag_val]> (c_flags s)) (l1 ++ l2) (c_mem s) (c_done s)).

Definition cinit (P : Z → list gop) (m : memory V) : cstate :=
  mkC P (λ _, []) (λ _, ROC_SHMEM_SYNC_VALUE) [] m (λ _, []).

Definition cfinished (s : cstate) : Prop :=
  (∀ p, 0 ≤ p < n → c_progs s p = [] ∧ c_pend s p = []) ∧ c_net s = [].

(** Every run of the programs is finite, and ends with all of them finished. *)
Definition cterminates (P : Z → list gop) (m : memory V) : Prop :=
  (∃ bound : nat, ∀ k s, nsteps cstep k (cinit P m) s → (k ≤ bound)%nat) ∧
  (∀ s, rtc cstep (cinit P m) s → cfinished s ∨ ∃ s', cstep s s').
End machine.

(** ** Every run is finite *)

Section runs.
Context {V : Type} (n : Z).

Definition cweight (s : cstate (V := V)) : nat :=
  (sum_list_with (λ p, 2 * length (c_progs s p) + length (c_pend s p)) (seqZ 0 n) + length (c_net s))%nat.

Lemma sum_list_with_ext_in {A} (f g : A → nat) l : (∀ x, x ∈ l → f x = g x) → sum_list_with f l = sum_list_with g l.
Proof.
  clear. induction l as [|x l IH]; intros H; cbn; [done|]. rewrite (H x), IH; [done|..|]; set_solver.
Qed.

(** What the weight of one member loses and the network does not gain back. *)
Lemma cweight_lt (s s' : cstate (V := V)) p :
  0 ≤ p < n → (∀ q, q ≠ p → c_progs s' q = c_progs s q ∧ c_pend s' q = c_pend s q) →
  (2 * length (c_progs s' p) + length (c_pend s' p) + length (c_net s') <
   2 * length (c_progs s p) + length (c_pend s p) + length (c_net s))%nat →
  (cweight s' < cweight s)%nat.
Proof.
  intros Hp Ho Hlt. unfold cweight.
  assert (p ∈ seqZ 0 n) as Hin by (apply elem_of_seqZ; lia).
  apply list_elem_of_split in Hin as (l1 & l2 & E). pose proof (NoDup_seqZ 0 n) as Hnd.
  rewrite E in Hnd |- *. apply NoDup_app in Hnd as (_ & Hd & [Hp2 _]%NoDup_cons). rewrite !sum_list_with_app. cbn.
  assert (∀ l, p ∉ l → sum_list_with (λ p, 2 * length (c_progs s' p) + length (c_pend s' p))%nat l =
    sum_list_with (λ p, 2 * length (c_progs s p) + length (c_pend s p))%nat l) as Hl.
  { intros l Hl. apply sum_list_with_ext_in. intros q Hq. destruct (Ho q) as [-> ->]; [by intros ->|done]. }
  rewrite !Hl; [cbn; lia|done|]. intros Hp1. apply (Hd p Hp1). set_solver.
Qed.

Lemma cstep_weight (s s' : cstate (V := V)) : cstep n s s' → (cweight s' < cweight s)%nat.
Proof.
  intros [p s0 s1 Hp Ha|p s0 l1 mv l2 Hp Hl|q x w s0 l1 l2 Hl].
  - apply (cweight_lt _ _ p Hp); unfold advance in Ha; destruct (c_progs s0 p) as [|o k] eqn:E; try done;
      destruct o; repeat case_match; simplify_eq; cbn.
    all: try (intros q Hq; by rewrite !fn_lookup_insert_ne).
    all: rewrite !fn_lookup_insert, ?length_app; cbn; lia.
  - apply (cweight_lt _ _ p Hp); cbn.
    + intros q Hq. by rewrite fn_lookup_insert_ne.
    + rewrite fn_lookup_insert, Hl, !length_app. cbn. lia.
  - unfold cweight. cbn. rewrite Hl, !length_app. cbn. lia.
Qed.

Lemma crun_bounded k (s s' : cstate (V := V)) : nsteps (cstep n) k s s' → (k + cweight s' ≤ cweight s)%nat.
Proof. induction 1 as [|k s1 s2 s3 Hs _ IH]; [lia|]. pose proof (cstep_weight _ _ Hs). lia. Qed.
End runs.

(** ** What has been done *)

(** Wherever [b] is in the program, [a] is before. *)
Definition follows (l : list gop) (b a : gop) : Prop := ∀ d k, l = d ++ b :: k → a ∈ d.

Lemma follows_done l d k b a : l = d ++ k → b ∈ d → follows l b a → a ∈ d.
Proof.
  intros -> (d1 & d2 & ->)%list_elem_of_split Hf. rewrite <- app_assoc in Hf.
  specialize (Hf d1 (d2 ++ k) eq_refl). set_solver.
Qed.

Lemma follows_intro l1 a l2 b : b ∉ l1 → b ≠ a → follows (l1 ++ a :: l2) b a.
Proof.
  intros Hb Hne d k E. symmetry in E. apply app_eq_app in E as (c & [[-> E]|[-> E]]).
  - destruct c as [|x c]; cbn in E.
    + injection E as -> _. done.
    + injection E as <- ->. set_solver.
  - destruct c as [|x c]; cbn in E.
    + by injection E as <- _.
    + injection E as <- ->. set_solver.
Qed.

Section runs.
Context {V : Type} (n : Z).
Implicit Types s : cstate (V := V).

(** What a step of a member changes. *)
Record advances (p : Z) (o : gop) (s s' : cstate (V := V)) : Prop := {
  ad_prog : ∃ k, c_progs s p = o :: k ∧ c_progs s' = <[p := k]> (c_progs s);
  ad_done : c_done s' = <[p := c_done s p ++ [o]]> (c_done s);
  ad_mem : c_mem s' = c_mem s;
  ad_pend : c_pend s' = match o with GMove mv => <[p := c_pend s p ++ [mv]]> (c_pend s) | _ => c_pend s end;
  ad_flags : c_flags s' = match o with
    | GAdd w pe => <[(pe, w) := s64 (c_flags s (pe, w) + 1)]> (c_flags s)
    | GReset w => <[(p, w) := 0]> (c_flags s)
    | _ => c_flags s end;
  ad_net : c_net s' = match o with GFlag w pe => (p, (pe, w)) :: c_net s | _ => c_net s end;
  ad_quiet : o = GQuiet → c_pend s p = [];
  ad_wait : ∀ w v, o = GWait w v → c_flags s (p, w) = v
}.

Lemma advance_advances p s s' : advance p s = Some s' → ∃ o, advances p o s s'.
Proof.
  unfold advance. intros H. destruct (c_progs s p) as [|o k] eqn:E; [done|]. exists o.
  destruct o; repeat case_match; simplify_eq; split; cbn; try done; try (by eexists); try naive_solver.
  intros ? ? [= <- <-]. by apply Z.eqb_eq.
Qed.

Section data.
Context (P : Z → list gop) (m0 : memory V) (want : Z → buffer → Z → V).

Lemma prog_done s : rtc (cstep n) (cinit P m0) s → ∀ p, P p = c_done s p ++ c_progs s p.
Proof.
  revert s. apply (rtc_invariant _ (λ s, ∀ p, P p = c_done s p ++ c_progs s p)); [done|]. intros s0 s2 Hs IH p.
  destruct Hs as [q s s' Hq Ha|q s l1 mv l2 Hq Hl|q x w s l1 l2 Hl]; cbn; [|apply IH..].
  apply advance_advances in Ha as (o & [(k & Ek & ->) -> _ _ _ _ _ _]). rewrite (IH p).
  destruct (decide (p = q)) as [->|Hne]; [|by rewrite !fn_lookup_insert_ne].
  rewrite !fn_lookup_insert, Ek, <- app_assoc. done.
Qed.

(** Every operation but the quiets occurs once. *)
Definition once : Prop := ∀ p o d k, 0 ≤ p < n → P p = d ++ o :: k → o ≠ GQuiet → o ∉ d.

(** What the memory is meant to hold: transfers carry it on, and read sources, or
    what own transfers before a quiet have brought. *)
Record data_ok : Prop := {
  do_src : ∀ x i, want x Src i = m0 x Src i;
  do_move : ∀ p mv, 0 ≤ p < n → GMove mv ∈ P p → mv_dst mv ≠ Src ∧
    ∀ i, mv_di mv ≤ i < mv_di mv + mv_n mv →
      want (mv_to mv) (mv_dst mv) i = want (mv_from mv) (mv_src mv) (mv_si mv + (i - mv_di mv));
  do_ready : ∀ p mv x a i d k, 0 ≤ p < n → P p = d ++ GMove mv :: k → reads mv x a i →
    a = Src ∨ ∃ d1 d2 mv', d = d1 ++ GQuiet :: d2 ∧ GMove mv' ∈ d1 ∧ writes mv' x a i
}.

Record cinv s : Prop := {
  ci_pend : ∀ p mv, 0 ≤ p < n → mv ∈ c_pend s p → GMove mv ∈ c_done s p;
  ci_src : ∀ x i, c_mem s x Src i = want x Src i;
  ci_moved : ∀ p mv, 0 ≤ p < n → GMove mv ∈ c_done s p →
    mv ∈ c_pend s p ∨ ∀ x a i, writes mv x a i → c_mem s x a i = want x a i;
  ci_ready : ∀ p mv x a i, 0 ≤ p < n → mv ∈ c_pend s p → reads mv x a i → c_mem s x a i = want x a i;
  ci_quiet : ∀ p d1 d2 mv, 0 ≤ p < n → c_done s p = d1 ++ GQuiet :: d2 → GMove mv ∈ d1 → mv ∉ c_pend s p
}.

Context (Honce : once) (Hdata : data_ok).

(** The quiets that have been done when one more operation is. *)
Lemma snoc_quiet_cases (c d1 d2 : list gop) o :
  c ++ [o] = d1 ++ GQuiet :: d2 → (o = GQuiet ∧ c = d1) ∨ ∃ d2', c = d1 ++ GQuiet :: d2'.
Proof.
  clear. destruct d2 as [|y d2 _] using rev_ind; intros E.
  - apply app_inj_tail in E as [-> ->]. by left.
  - rewrite app_comm_cons, app_assoc in E. apply app_inj_tail in E as [-> _]. right. by exists d2.
Qed.

Lemma cinv_advance s s' p o :
  P p = c_done s p ++ c_progs s p → 0 ≤ p < n → advances p o s s' → cinv s → cinv s'.
Proof using Honce Hdata.
  intros HP Hp [(k & Ek & _) Hd Hm Hpe _ _ Hq _] [Ip Is Im Ir Iq]. rewrite Ek in HP. split.
  - intros q mv Hq0. rewrite Hpe, Hd. destruct (decide (q = p)) as [->|Hne].
    + rewrite fn_lookup_insert. destruct o; try rewrite fn_lookup_insert; specialize (Ip p mv Hp); set_solver.
    + rewrite fn_lookup_insert_ne by done. destruct o; try rewrite fn_lookup_insert_ne by done; by apply Ip.
  - intros x i. rewrite Hm. apply Is.
  - intros q mv Hq0. rewrite Hpe, Hd, Hm. destruct (decide (q = p)) as [->|Hne].
    + rewrite fn_lookup_insert. intros [Hin|Ho%list_elem_of_singleton]%elem_of_app.
      * destruct (Im p mv Hp Hin) as [|]; [left|by right]. destruct o; try rewrite fn_lookup_insert; set_solver.
      * subst o. left. rewrite fn_lookup_insert. set_solver.
    + rewrite fn_lookup_insert_ne by done. destruct o; try rewrite fn_lookup_insert_ne by done; by apply Im.
  - intros q mv x a i Hq0 Hin Hr. rewrite Hm. rewrite Hpe in Hin.
    assert (mv ∈ c_pend s q ∨ (q = p ∧ o = GMove mv)) as [Hin'|[-> ->]].
    { destruct o; try by left. destruct (decide (q = p)) as [->|Hne].
      - rewrite fn_lookup_insert in Hin. set_solver.
      - rewrite fn_lookup_insert_ne in Hin by done. by left. }
    + by eapply Ir.
    + destruct (do_ready Hdata p mv x a i (c_done s p) k Hp HP Hr) as [->|(d1 & d2 & mv' & E & Hin' & Hw)]; [apply Is|].
      destruct (Im p mv' Hp ltac:(rewrite E; set_solver)) as [Hpend|Hall]; [destruct (Iq p d1 d2 mv' Hp E Hin' Hpend)|by apply Hall].
  - intros q d1 d2 mv Hq0. rewrite Hpe, Hd. destruct (decide (q = p)) as [->|Hne].
    2: { rewrite fn_lookup_insert_ne by done. destruct o; try rewrite fn_lookup_insert_ne by done; by apply Iq. }
    rewrite fn_lookup_insert. intros E Hin. destruct (snoc_quiet_cases _ _ _ _ E) as [[-> _]|[d2' E']].
    + rewrite (Hq eq_refl). set_solver.
    + pose proof (Iq p d1 d2' mv Hp E' Hin) as Hn. destruct o; try done. rewrite fn_lookup_insert.
      intros [?|H2%list_elem_of_singleton]%elem_of_app; [done|]. subst mv0.
      apply (Honce p (GMove mv) _ k Hp HP); [done|]. rewrite E'. set_solver.
Qed.

Lemma cinv_complete s p l1 mv l2 :
  P p = c_done s p ++ c_progs s p → 0 ≤ p < n → c_pend s p = l1 ++ mv :: l2 → cinv s →
  cinv (mkC (c_progs s) (<[p := l1 ++ l2]> (c_pend s)) (c_flags s) (c_net s) (exec (c_mem s) mv) (c_done s)).
Proof using Honce Hdata.
  intros HP Hp Hl [Ip Is Im Ir Iq].
  assert (GMove mv ∈ P p) as HmvP by (rewrite HP; apply elem_of_app; left; apply Ip; [done|rewrite Hl; set_solver]).
  destruct (do_move Hdata p mv Hp HmvP) as [Hns Hcarry].
  assert (∀ x a i, writes mv x a i → exec (c_mem s) mv x a i = want x a i) as Hnew.
  { intros x a i Hw. unfold exec. rewrite decide_True by done. destruct Hw as (-> & -> & Hi). rewrite Hcarry by done.
    apply (Ir p mv); [done|rewrite Hl; set_solver|]. split; [done|]. split; [done|lia]. }
  assert (∀ x a i, c_mem s x a i = want x a i → exec (c_mem s) mv x a i = want x a i) as Hkeep.
  { intros x a i H. destruct (decide (writes mv x a i)) as [Hw|Hw]; [by apply Hnew|].
    unfold exec. by rewrite decide_False by done. }
  assert (∀ q mv', mv' ∈ (<[p := l1 ++ l2]> (c_pend s)) q → mv' ∈ c_pend s q) as Hsub.
  { intros q mv'. destruct (decide (q = p)) as [->|Hne]; [|by rewrite fn_lookup_insert_ne].
    rewrite fn_lookup_insert, Hl. set_solver. }
  split; cbn.
  - intros q mv' Hq Hin. by apply Ip, Hsub.
  - intros x i. apply Hkeep, Is.
  - intros q mv' Hq Hin. destruct (Im q mv' Hq Hin) as [Hpe|Hall]; [|right; intros; by apply Hkeep, Hall].
    destruct (decide (mv' = mv)) as [->|Hne]; [by right|]. left.
    destruct (decide (q = p)) as [->|Hqp]; [|by rewrite fn_lookup_insert_ne].
    rewrite fn_lookup_insert. rewrite Hl in Hpe. set_solver.
  - intros q mv' x a i Hq Hin Hr. apply Hkeep. eapply Ir; [done|by apply Hsub|done].
  - intros q d1 d2 mv' Hq E Hin Hpe. eapply Iq; [done|done|done|by apply Hsub].
Qed.

Lemma cinv_reachable s : rtc (cstep n) (cinit P m0) s → cinv s.
Proof using Honce Hdata.
  revert s. apply rtc_ind_r.
  - split; cbn; [set_solver| |set_solver|set_solver|set_solver]. intros x i. symmetry. apply (do_src Hdata).
  - intros s0 s2 Hr Hs IH. destruct Hs as [p s s' Hp Ha|p s l1 mv l2 Hp Hl|q x w s l1 l2 Hl].
    + apply advance_advances in Ha as (o & Ha). eapply cinv_advance; [by apply prog_done|done|done|done].
    + apply cinv_complete; [by apply prog_done|done|done|done].
    + by destruct IH.
Qed.

(** After its quiet a transfer has arrived. *)
Lemma quiet_arrived s p d1 d2 mv x a i :
  rtc (cstep n) (cinit P m0) s → 0 ≤ p < n → c_done s p = d1 ++ GQuiet :: d2 → GMove mv ∈ d1 → writes mv x a i →
  mv ∉ c_pend s p ∧ c_mem s x a i = want x a i.
Proof using Honce Hdata.
  intros Hr Hp E Hin Hw. destruct (cinv_reachable s Hr) as [_ _ Im _ Iq].
  pose proof (Iq p d1 d2 mv Hp E Hin) as Hn. split; [done|].
  destruct (Im p mv Hp ltac:(rewrite E; set_solver)) as [?|Hall]; [done|by apply Hall].
Qed.
End data.
End runs.

(** ** Groups that meet *)

Section groups.
Context {V : Type} (n : Z) (P : Z → list gop) (m0 : memory V) (Honce : once n P).
Implicit Types s : cstate (V := V).

(** The members [ms] add to word [w] of [L]; [L] waits for all of them and then sends a
    flag to each, for which they wait. *)
Record group (w L : Z) (ms : list Z) : Prop := {
  gr_pes : Forall (λ p, 0 ≤ p < n) (L :: ms);
  gr_nodup : NoDup (L :: ms);
  gr_small : Z.of_nat (length ms) < 2 ^ 63;
  gr_add : ∀ p, 0 ≤ p < n → GAdd w L ∈ P p → p ∈ ms;
  gr_add_m : ∀ p m, 0 ≤ p < n → m ∈ ms → GAdd w m ∉ P p;
  gr_flag : ∀ p m, 0 ≤ p < n → m ∈ ms → GFlag w m ∈ P p → p = L;
  gr_flag_L : ∀ p, 0 ≤ p < n → GFlag w L ∉ P p;
  gr_wait_L : ∀ v, GWait w v ∈ P L → v = Z.of_nat (length ms);
  gr_wait_m : ∀ m v, m ∈ ms → GWait w v ∈ P m → v = 1;
  gr_reset_L : follows (P L) (GReset w) (GWait w (Z.of_nat (length ms)));
  gr_reset_m : ∀ m, m ∈ ms → follows (P m) (GReset w) (GWait w 1);
  gr_release : ∀ m, m ∈ ms → follows (P L) (GFlag w m) (GReset w)
}.

(** 1 when the operation has been done. *)
Definition has (s : cstate (V := V)) (p : Z) (o : gop) : Z := if decide (o ∈ c_done s p) then 1 else 0.
Definition coming s (x : Z * Z) : Z := flying x (snd <$> c_net s).

Lemma has_range s p o : 0 ≤ has s p o ≤ 1.
Proof using. unfold has. case_decide; lia. Qed.
Lemma has_1 s p o : has s p o = 1 ↔ o ∈ c_done s p.
Proof using. unfold has. case_decide; split; [done|done|lia|done]. Qed.

Lemma has_other s s' p o q o' : advances p o s s' → q ≠ p ∨ o' ≠ o → has s' q o' = has s q o'.
Proof using.
  intros [_ Hd _ _ _ _ _ _] H. unfold has. apply decide_ext. rewrite Hd.
  destruct (decide (q = p)) as [->|Hne]; [rewrite fn_lookup_insert|by rewrite fn_lookup_insert_ne].
  destruct H as [?|H]; [done|]. rewrite elem_of_app, list_elem_of_singleton. naive_solver.
Qed.

Lemma has_new s s' p o :
  P p = c_done s p ++ c_progs s p → 0 ≤ p < n → advances p o s s' → o ≠ GQuiet →
  has s p o = 0 ∧ has s' p o = 1.
Proof using Honce.
  intros HP Hp [(k & Ek & _) Hd _ _ _ _ _ _] Ho. rewrite Ek in HP. unfold has. rewrite Hd, fn_lookup_insert. split.
  - rewrite decide_False; [done|]. by apply (Honce p o _ k).
  - rewrite decide_True; [done|]. set_solver.
Qed.

(** An operation that is done has those done that are before it; also the one that is
    about to be done. *)
Lemma has_follows s p b a : P p = c_done s p ++ c_progs s p → follows (P p) b a → has s p b = 1 → has s p a = 1.
Proof using. intros HP Hf. rewrite !has_1. intros Hb. by eapply follows_done. Qed.

Lemma has_follows_next s s' p b a :
  P p = c_done s p ++ c_progs s p → advances p b s s' → follows (P p) b a → has s p a = 1.
Proof using.
  intros HP [(k & Ek & _) _ _ _ _ _ _ _] Hf. rewrite Ek in HP. apply has_1. by apply (Hf _ k).
Qed.

Lemma next_in_prog s s' p o : P p = c_done s p ++ c_progs s p → advances p o s s' → o ∈ P p.
Proof using. intros HP [(k & Ek & _) _ _ _ _ _ _ _]. rewrite HP, Ek. apply elem_of_app. right. left. Qed.

Record ginv (w L : Z) (ms : list Z) s : Prop := {
  gi_open : has s L (GReset w) = 0 → c_flags s (L, w) = zsum (λ m, has s m (GAdd w L)) ms;
  gi_closed : has s L (GReset w) = 1 → c_flags s (L, w) = 0;
  gi_all : has s L (GWait w (Z.of_nat (length ms))) = 1 → ∀ m, m ∈ ms → has s m (GAdd w L) = 1;
  gi_netL : coming s (L, w) = 0;
  gi_m : ∀ m, m ∈ ms → coming s (m, w) + c_flags s (m, w) = has s L (GFlag w m) - has s m (GReset w);
  gi_nonneg : ∀ m, m ∈ ms → 0 ≤ c_flags s (m, w);
  gi_wait : ∀ m, m ∈ ms → has s m (GWait w 1) = 1 → has s L (GFlag w m) = 1 ∧ coming s (m, w) = 0
}.

(** *** Each step *)

Context (w L : Z) (ms : list Z) (G : group w L ms).

Lemma member_not_L m : m ∈ ms → m ≠ L.
Proof using G. intros Hm ->. by destruct (proj1 (NoDup_cons _ _) (gr_nodup _ _ _ G)). Qed.
Lemma member_pe m : m ∈ ms → 0 ≤ m < n.
Proof using G. intros Hm. pose proof (gr_pes _ _ _ G) as H. rewrite Forall_forall in H. apply H. by right. Qed.
Lemma leader_pe : 0 ≤ L < n.
Proof using G. pose proof (gr_pes _ _ _ G) as H. rewrite Forall_forall in H. apply H. by left. Qed.

(** Nothing that the group uses changes. *)
Lemma ginv_same s s' :
  (∀ p o, o ∈ [GReset w; GAdd w L; GWait w (Z.of_nat (length ms)); GWait w 1] ++ (GFlag w <$> ms) →
     p ∈ L :: ms → has s' p o = has s p o) →
  (∀ x, x ∈ L :: ms → c_flags s' (x, w) = c_flags s (x, w) ∧ coming s' (x, w) = coming s (x, w)) →
  ginv w L ms s → ginv w L ms s'.
Proof using.
  intros Hh Hf [H1 H2 H3 H4 H5 H6 H7].
  assert (∀ m, m ∈ ms → has s' L (GFlag w m) = has s L (GFlag w m)) as HF.
  { intros m Hm. apply Hh; [|left]. apply elem_of_app. right. by apply list_elem_of_fmap_2. }
  assert (∀ p, p ∈ L :: ms → has s' p (GReset w) = has s p (GReset w) ∧ has s' p (GAdd w L) = has s p (GAdd w L) ∧
    has s' p (GWait w (Z.of_nat (length ms))) = has s p (GWait w (Z.of_nat (length ms))) ∧
    has s' p (GWait w 1) = has s p (GWait w 1)) as HO.
  { intros p Hp. split_and!; (apply Hh; [apply elem_of_app; left|done]); repeat (left || right). }
  destruct (HO L ltac:(left)) as (E1 & E2 & E3 & E4). destruct (Hf L ltac:(left)) as [E5 E6].
  split; rewrite ?E1, ?E2, ?E3, ?E4, ?E5, ?E6; try done.
  - intros H. rewrite H1 by done. apply zsum_ext_in. intros m Hm. by destruct (HO m ltac:(by right)) as (_ & -> & _).
  - intros H m Hm. destruct (HO m ltac:(by right)) as (_ & -> & _). by apply H3.
  - intros m Hm. destruct (HO m ltac:(by right)) as (-> & _). destruct (Hf m ltac:(by right)) as [-> ->].
    rewrite HF by done. by apply H5.
  - intros m Hm. destruct (Hf m ltac:(by right)) as [-> _]. by apply H6.
  - intros m Hm. destruct (HO m ltac:(by right)) as (_ & _ & _ & ->). destruct (Hf m ltac:(by right)) as [_ ->].
    rewrite HF by done. by apply H7.
Qed.

(** The operations that the group looks at. *)
Definition group_ops : list gop :=
  [GReset w; GAdd w L; GWait w (Z.of_nat (length ms)); GWait w 1] ++ (GFlag w <$> ms).

Lemma elem_of_group_ops o :
  o ∈ group_ops ↔ o = GReset w ∨ o = GAdd w L ∨ o = GWait w (Z.of_nat (length ms)) ∨ o = GWait w 1 ∨
    ∃ m, m ∈ ms ∧ o = GFlag w m.
Proof using.
  unfold group_ops. rewrite elem_of_app, list_elem_of_fmap, !elem_of_cons, elem_of_nil. clear. naive_solver.
Qed.

(** A step that is none of them. *)
Lemma ginv_other s s' p o :
  advances p o s s' → (o ∈ group_ops → p ∉ L :: ms) →
  (∀ x, x ∈ L :: ms → c_flags s' (x, w) = c_flags s (x, w) ∧ coming s' (x, w) = coming s (x, w)) →
  ginv w L ms s → ginv w L ms s'.
Proof using.
  intros Ha Ho. apply ginv_same. intros q o' Ho' Hq. apply (has_other s s' p o); [done|].
  destruct (decide (q = p)) as [->|]; [right|by left]. intros ->. by apply Ho.
Qed.

Lemma ginv_add s s' p w' pe :
  (∀ q, P q = c_done s q ++ c_progs s q) → 0 ≤ p < n → advances p (GAdd w' pe) s s' → ginv w L ms s → ginv w L ms s'.
Proof using Honce G.
  intros HP Hp Ha Hi. pose proof (next_in_prog _ _ _ _ (HP p) Ha) as Hin.
  pose proof (ad_flags _ _ _ _ Ha) as Hf. pose proof (ad_net _ _ _ _ Ha) as Hnet. cbn in Hf, Hnet.
  assert (∀ x, coming s' x = coming s x) as Hc by (intros; unfold coming; by rewrite Hnet).
  destruct (decide ((pe, w') = (L, w))) as [[= -> ->]|Hne].
  2: { eapply ginv_other; [exact Ha| |intros x Hx; split; [rewrite Hf|apply Hc]|done].
       - rewrite elem_of_group_ops. intros [|[|[|[|(m & _ & ?)]]]]; simplify_eq.
       - apply fn_lookup_insert_ne. intros [= -> ->]. apply elem_of_cons in Hx as [->|Hx]; [done|].
         by apply (gr_add_m _ _ _ G p x). }
  pose proof (gr_add _ _ _ G p Hp Hin) as Hpm. pose proof (member_not_L p Hpm) as HpL.
  destruct (has_new s s' p _ (HP p) Hp Ha ltac:(done)) as [H0 H1].
  destruct Hi as [I1 I2 I3 I4 I5 I6 I7].
  assert (has s L (GReset w) = 0) as Hopen.
  { destruct (decide (has s L (GReset w) = 1)) as [HR|HR]; [|pose proof (has_range s L (GReset w)); lia].
    pose proof (has_follows s L _ _ (HP L) (gr_reset_L _ _ _ G) HR) as HW. specialize (I3 HW p Hpm). lia. }
  assert (∀ q o, q ≠ p ∨ o ≠ GAdd w L → has s' q o = has s q o) as Ho by (intros; by eapply has_other).
  assert (zsum (λ m, has s' m (GAdd w L)) ms = zsum (λ m, has s m (GAdd w L)) ms + 1) as Hz.
  { apply (zsum_bump _ _ 1 ms p); [|done|lia|].
    - pose proof (gr_nodup _ _ _ G) as Hn. by apply NoDup_cons in Hn as [_ ?].
    - intros j _ Hj. apply Ho. by left. }
  assert (0 ≤ zsum (λ m, has s m (GAdd w L)) ms ∧ zsum (λ m, has s' m (GAdd w L)) ms ≤ Z.of_nat (length ms)) as [Hz0 Hz1].
  { split.
    - apply zsum_nonneg, Forall_forall. intros x _. apply has_range.
    - transitivity (zsum (λ _ : Z, 1) ms); [|rewrite zsum_const; lia]. apply zsum_le, Forall_forall. intros x _. apply has_range. }
  assert (∀ m, m ∈ ms → c_flags s' (m, w) = c_flags s (m, w)) as Hfm.
  { intros m Hm. rewrite Hf. apply fn_lookup_insert_ne. intros [= <-]. by apply (member_not_L L). }
  pose proof (gr_small _ _ _ G) as Hsmall.
  split; rewrite ?Hc.
  - intros _. rewrite Hf, fn_lookup_insert, (I1 Hopen), Hz. apply swrap_small; lia.
  - intros H. rewrite Ho in H by (by right). lia.
  - rewrite Ho by (by right). intros H m Hm. destruct (decide (m = p)) as [->|]; [done|].
    rewrite Ho by (by left). by apply I3.
  - done.
  - intros m Hm. rewrite Hc, Hfm, !Ho by (done || by right). by apply I5.
  - intros m Hm. rewrite Hfm by done. by apply I6.
  - intros m Hm. rewrite !Ho, Hc by (by right). by apply I7.
Qed.

Lemma ginv_wait s s' p w' v :
  (∀ q, P q = c_done s q ++ c_progs s q) → 0 ≤ p < n → advances p (GWait w' v) s s' → ginv w L ms s → ginv w L ms s'.
Proof using Honce G.
  intros HP Hp Ha Hi. pose proof (next_in_prog _ _ _ _ (HP p) Ha) as Hin.
  pose proof (ad_flags _ _ _ _ Ha) as Hf. pose proof (ad_net _ _ _ _ Ha) as Hnet. cbn in Hf, Hnet.
  pose proof (ad_wait _ _ _ _ Ha w' v eq_refl) as Hv.
  assert (∀ x, coming s' x = coming s x) as Hc by (intros; unfold coming; by rewrite Hnet).
  destruct (decide (w' = w ∧ p ∈ L :: ms)) as [[-> Hpm]|Hno].
  2: { eapply ginv_other; [exact Ha| |intros x Hx; by rewrite Hf, Hc|done].
       rewrite elem_of_group_ops. intros H Hq. apply Hno. split; [|done]. naive_solver. }
  destruct (has_new s s' p _ (HP p) Hp Ha ltac:(done)) as [H0 H1].
  assert (∀ q o, q ≠ p ∨ o ≠ GWait w v → has s' q o = has s q o) as Ho by (intros; by eapply has_other).
  destruct Hi as [I1 I2 I3 I4 I5 I6 I7]. split; rewrite ?Hf, ?Hc, ?Ho by (by right).
  - intros H. rewrite I1 by done. apply zsum_ext_in. intros m _. symmetry. apply Ho. by right.
  - done.
  - intros H m Hm. rewrite Ho by (by right).
    destruct (decide (has s L (GWait w (Z.of_nat (length ms))) = 1)) as [HW|HW]; [by apply I3|].
    assert (p = L) as ->. { destruct (decide (p = L)) as [|Hne]; [done|]. rewrite Ho in H by (left; congruence). done. }
    pose proof (gr_wait_L _ _ _ G v Hin) as ->.
    assert (has s L (GReset w) = 0) as Hopen.
    { destruct (decide (has s L (GReset w) = 1)) as [HR|HR]; [|pose proof (has_range s L (GReset w)); lia].
      pose proof (has_follows s L _ _ (HP L) (gr_reset_L _ _ _ G) HR). lia. }
    rewrite (I1 Hopen) in Hv.
    assert (zsum (λ m, 1 - has s m (GAdd w L)) ms = 0) as Hz.
    { revert Hv. clear. assert (∀ l, zsum (λ m, 1 - has s m (GAdd w L)) l = Z.of_nat (length l) - zsum (λ m, has s m (GAdd w L)) l) as Hl.
      { induction l as [|x l IH]; cbn [zsum length]; [lia|]. rewrite IH. lia. }
      intros Hv. rewrite Hl. lia. }
    pose proof (zsum_zero (λ m, 1 - has s m (GAdd w L)) ms
      ltac:(apply Forall_forall; intros x _; pose proof (has_range s x (GAdd w L)); lia) ltac:(lia)) as Hz'.
    rewrite Forall_forall in Hz'. specialize (Hz' m Hm). lia.
  - done.
  - intros m Hm. rewrite ?Hf, Hc, !Ho by (by right). by apply I5.
  - intros m Hm. rewrite ?Hf. by apply I6.
  - intros m Hm H. rewrite Hc, Ho by (by right).
    destruct (decide (has s m (GWait w 1) = 1)) as [HW|HW]; [by apply I7|].
    assert (p = m) as ->. { destruct (decide (p = m)) as [|Hne]; [done|]. rewrite Ho in H by (left; congruence). done. }
    pose proof (gr_wait_m _ _ _ G m v Hm Hin) as ->. specialize (I5 m Hm). rewrite Hv in I5.
    pose proof (flying_nonneg (m, w) (snd <$> c_net s)). unfold coming in *.
    pose proof (has_range s L (GFlag w m)). pose proof (has_range s m (GReset w)). lia.
Qed.

Lemma group_inv_reset s s' p w' :
  (∀ q, P q = c_done s q ++ c_progs s q) → 0 ≤ p < n → advances p (GReset w') s s' → ginv w L ms s → ginv w L ms s'.
Proof using Honce G.
  intros HP Hp Ha Hi.
  pose proof (ad_flags _ _ _ _ Ha) as Hf. pose proof (ad_net _ _ _ _ Ha) as Hnet. cbn in Hf, Hnet.
  assert (∀ x, coming s' x = coming s x) as Hc by (intros; unfold coming; by rewrite Hnet).
  destruct (decide (w' = w ∧ p ∈ L :: ms)) as [[-> Hpm]|Hno].
  2: { eapply ginv_other; [exact Ha| |intros x Hx; split; [rewrite Hf|apply Hc]|done].
       - rewrite elem_of_group_ops. intros H Hq. apply Hno. split; [|done]. naive_solver.
       - apply fn_lookup_insert_ne. intros [= -> ->]. by apply Hno. }
  destruct (has_new s s' p _ (HP p) Hp Ha ltac:(done)) as [H0 H1].
  assert (∀ q o, q ≠ p ∨ o ≠ GReset w → has s' q o = has s q o) as Ho by (intros; by eapply has_other).
  assert (∀ x, x ≠ p → c_flags s' (x, w) = c_flags s (x, w)) as Hfo.
  { intros x Hx. rewrite Hf. apply fn_lookup_insert_ne. congruence. }
  assert (c_flags s' (p, w) = 0) as Hf0 by (by rewrite Hf, fn_lookup_insert).
  destruct Hi as [I1 I2 I3 I4 I5 I6 I7]. split; rewrite ?Hc, ?(Ho _ (GWait _ _)) by (by right).
  - intros H. destruct (decide (p = L)) as [->|Hne]; [lia|]. rewrite Ho in H by (left; congruence).
    rewrite Hfo, I1 by congruence. apply zsum_ext_in. intros m _. symmetry. apply Ho. by right.
  - intros H. destruct (decide (p = L)) as [->|Hne]; [done|]. rewrite Ho in H by (left; congruence).
    rewrite Hfo by congruence. by apply I2.
  - intros H m Hm. rewrite Ho by (by right). by apply I3.
  - done.
  - intros m Hm. rewrite Hc, (Ho L) by (by right). destruct (decide (p = m)) as [->|Hne].
    + pose proof (has_follows_next s s' m _ _ (HP m) Ha (gr_reset_m _ _ _ G m Hm)) as HW.
      destruct (I7 m Hm HW) as [-> ->]. lia.
    + rewrite Hfo, Ho by (congruence || left; congruence). by apply I5.
  - intros m Hm. destruct (decide (p = m)) as [->|Hne]; [lia|]. rewrite Hfo by congruence. by apply I6.
  - intros m Hm. rewrite Hc, !Ho by (by right). by apply I7.
Qed.

Lemma ginv_flag s s' p w' pe :
  (∀ q, P q = c_done s q ++ c_progs s q) → 0 ≤ p < n → advances p (GFlag w' pe) s s' → ginv w L ms s → ginv w L ms s'.
Proof using Honce G.
  intros HP Hp Ha Hi. pose proof (next_in_prog _ _ _ _ (HP p) Ha) as Hin.
  pose proof (ad_flags _ _ _ _ Ha) as Hf. pose proof (ad_net _ _ _ _ Ha) as Hnet. cbn in Hf, Hnet.
  assert (∀ x, coming s' x = (if decide ((pe, w') = x) then 1 else 0) + coming s x) as Hc.
  { intros x. unfold coming. rewrite Hnet. cbn [fmap list_fmap]. by rewrite flying_cons. }
  destruct (decide (w' = w ∧ pe ∈ ms)) as [[-> Hpm]|Hno].
  2: { eapply ginv_other; [exact Ha| |intros x Hx; split; [by rewrite Hf|]|done].
       - rewrite elem_of_group_ops. intros H Hq. destruct Hno. naive_solver.
       - rewrite Hc, decide_False; [lia|]. intros [= -> ->]. apply elem_of_cons in Hx as [->|Hx]; [|naive_solver].
         by apply (gr_flag_L _ _ _ G p). }
  pose proof (gr_flag _ _ _ G p pe Hp Hpm Hin) as ->.
  destruct (has_new s s' L _ (HP L) Hp Ha ltac:(done)) as [H0 H1].
  assert (∀ q o, q ≠ L ∨ o ≠ GFlag w pe → has s' q o = has s q o) as Ho by (intros; by eapply has_other).
  assert (∀ m, m ≠ pe → coming s' (m, w) = coming s (m, w)) as Hco.
  { intros m Hm. rewrite Hc, decide_False; [lia|congruence]. }
  assert (coming s' (pe, w) = 1 + coming s (pe, w)) as Hcp by (rewrite Hc, decide_True; done).
  destruct Hi as [I1 I2 I3 I4 I5 I6 I7]. split; rewrite ?Hf, ?Ho by (by right); try done.
  - intros H. rewrite I1 by done. apply zsum_ext_in. intros m _. symmetry. apply Ho. by right.
  - intros H m Hm. rewrite Ho by (by right). by apply I3.
  - rewrite Hco; [done|]. intros <-. by apply (member_not_L L).
  - intros m Hm. rewrite ?Hf, (Ho m) by (by right). specialize (I5 m Hm).
    destruct (decide (m = pe)) as [->|Hne]; [lia|]. rewrite Hco, Ho by (done || right; congruence). done.
  - intros m Hm. rewrite Ho by (by right). intros H. destruct (I7 m Hm H) as [I71 I72].
    destruct (decide (m = pe)) as [->|Hne]; [lia|]. by rewrite Hco, Ho by (done || right; congruence).
Qed.

Lemma ginv_deliver s q x w' l1 l2 :
  c_net s = l1 ++ (q, (x, w')) :: l2 → ginv w L ms s →
  ginv w L ms (mkC (c_progs s) (c_pend s) (<[(x, w') := flag_val]> (c_flags s)) (l1 ++ l2) (c_mem s) (c_done s)).
Proof using G.
  intros Hl [I1 I2 I3 I4 I5 I6 I7]. set (s' := mkC _ _ _ _ _ _).
  assert (∀ y, coming s y = (if decide ((x, w') = y) then 1 else 0) + coming s' y) as Hc.
  { intros y. unfold coming. cbn. rewrite Hl, !fmap_app. cbn. by rewrite flying_remove. }
  assert (∀ p o, has s' p o = has s p o) as Hh by done.
  assert (∀ y, 0 ≤ coming s' y) as Hpos by (intros; apply flying_nonneg).
  assert ((x, w') ≠ (L, w)) as HL.
  { intros E. rewrite Hc, decide_True in I4 by done. specialize (Hpos (L, w)). lia. }
  assert (∀ m, m ∈ ms → (x, w') = (m, w) → coming s' (m, w) = 0 ∧ c_flags s (m, w) = 0 ∧ has s L (GFlag w m) = 1 ∧
    has s m (GReset w) = 0 ∧ has s m (GWait w 1) ≠ 1) as Hm1.
  { intros m Hm E. specialize (I5 m Hm). specialize (I6 m Hm). rewrite Hc, decide_True in I5 by done.
    pose proof (has_range s L (GFlag w m)). pose proof (has_range s m (GReset w)). specialize (Hpos (m, w)).
    split_and!; try lia. intros HW. destruct (I7 m Hm HW) as [_ I]. rewrite Hc, decide_True in I by done. lia. }
  assert (∀ y, (x, w') ≠ y → coming s' y = coming s y ∧ c_flags s' y = c_flags s y) as Hoth.
  { intros y Hy. split; [rewrite Hc, decide_False by done; lia|]. cbn. by apply fn_lookup_insert_ne. }
  destruct (Hoth (L, w) HL) as [E1 E2].
  split; rewrite ?Hh, ?E1, ?E2; try done; intros m Hm; rewrite ?Hh.
  - specialize (I5 m Hm). destruct (decide ((x, w') = (m, w))) as [E|Hne].
    + destruct (Hm1 m Hm E) as (-> & _ & -> & -> & _). rewrite <- E. subst s'. cbn. rewrite fn_lookup_insert. done.
    + by destruct (Hoth _ Hne) as [-> ->].
  - specialize (I6 m Hm). destruct (decide ((x, w') = (m, w))) as [E|Hne].
    + rewrite <- E. subst s'. cbn. rewrite fn_lookup_insert. done.
    + by destruct (Hoth _ Hne) as [_ ->].
  - intros HW. destruct (decide ((x, w') = (m, w))) as [E|Hne]; [by destruct (Hm1 m Hm E) as (_ & _ & _ & _ & ?)|].
    destruct (Hoth _ Hne) as [-> _]. by apply I7.
Qed.

Lemma group_inv_reachable s : rtc (cstep n) (cinit P m0) s → ginv w L ms s.
Proof using Honce G.
  revert s. apply rtc_ind_r.
  - split; cbn; try done.
    intros _. rewrite (zsum_ext_in _ (λ _, 0)); [by rewrite zsum_const|done].
  - intros s s' Hr Hs Hi. pose proof (prog_done n P m0 s Hr) as HP. destruct Hs as [p s s' Hp Ha|p s l1 mv l2 Hp Hl|q x w' s l1 l2 Hl].
    + apply advance_advances in Ha as (o & Ha). destruct o.
      1,2: eapply ginv_other; [exact Ha|rewrite elem_of_group_ops; naive_solver| |done];
        intros x _; unfold coming; by rewrite (ad_flags _ _ _ _ Ha), (ad_net _ _ _ _ Ha).
      * by eapply ginv_add.
      * by eapply ginv_wait.
      * by eapply group_inv_reset.
      * by eapply ginv_flag.
    + eapply ginv_same; [| |exact Hi]; done.
    + by eapply ginv_deliver.
Qed.

(** Whoever has waited is behind the arrival of all. *)
Lemma met s p v m :
  rtc (cstep n) (cinit P m0) s → p ∈ L :: ms → GWait w v ∈ c_done s p →
  GWait w (Z.of_nat (length ms)) ∈ c_done s L ∧ (m ∈ ms → GAdd w L ∈ c_done s m).
Proof using Honce G.
  intros Hr Hp Hw. pose proof (prog_done n P m0 s Hr) as HP. destruct (group_inv_reachable s Hr) as [_ _ I3 _ _ _ I7].
  assert (GWait w v ∈ P p) as HwP by (rewrite HP; apply elem_of_app; by left).
  assert (has s L (GWait w (Z.of_nat (length ms))) = 1) as HL.
  { apply elem_of_cons in Hp as [->|Hp].
    - apply has_1. by rewrite <- (gr_wait_L _ _ _ G v HwP).
    - rewrite (gr_wait_m _ _ _ G p v Hp HwP) in Hw. destruct (I7 p Hp (proj2 (has_1 s p _) Hw)) as [HF _].
      eapply has_follows; [apply HP|apply (gr_reset_L _ _ _ G)|].
      eapply has_follows; [apply HP|by apply (gr_release _ _ _ G)|done]. }
  split; [by apply has_1|]. intros Hm. by apply has_1, I3.
Qed.
End groups.

(** *** Nobody waits forever *)

Section progress.
Context {V : Type} (n : Z) (P : Z → list gop) (m0 : memory V) (Honce : once n P).
Context (grp : Z → Z → list Z → Prop) (rank : Z → nat).
Implicit Types s : cstate (V := V).

(** Every wait is one of a group; the members add before they wait for anything, and
    the leader sends its flags before it waits for a word of higher rank. *)
Record meeting : Prop := {
  me_group : ∀ w L ms, grp w L ms → group n P w L ms;
  me_wait : ∀ p w v, 0 ≤ p < n → GWait w v ∈ P p → ∃ L ms, grp w L ms ∧ p ∈ L :: ms;
  me_add : ∀ w L ms m, grp w L ms → m ∈ ms →
    GAdd w L ∈ P m ∧ ∀ w' v', GWait w' v' ∈ P m → follows (P m) (GWait w' v') (GAdd w L);
  me_flag : ∀ w L ms m, grp w L ms → m ∈ ms →
    GFlag w m ∈ P L ∧ ∀ w' v', GWait w' v' ∈ P L → (rank w < rank w')%nat → follows (P L) (GWait w' v') (GFlag w m);
  me_rank : ∀ p q w w' v v', GWait w v ∈ P p → GWait w' v' ∈ P q → rank w = rank w' → w = w'
}.
Context (Hmeet : meeting).

Definition blocked s (p w v : Z) : Prop := (∃ k, c_progs s p = GWait w v :: k) ∧ c_flags s (p, w) ≠ v.

Section stuck.
Context (s : cstate (V := V)) (Hr : rtc (cstep n) (cinit P m0) s) (Hnet : c_net s = []).
Context (Hall : ∀ p, 0 ≤ p < n → c_progs s p = [] ∨ ∃ w v, blocked s p w v).

Lemma blocked_wait p w v : blocked s p w v → GWait w v ∈ P p.
Proof using Hr. intros [[k Ek] _]. rewrite (prog_done n P m0 s Hr p), Ek. apply elem_of_app. right. left. Qed.

(** What a member that does not move has done. *)
Lemma stuck_done p o :
  0 ≤ p < n → o ∈ P p → (∀ w v, blocked s p w v → follows (P p) (GWait w v) o) → has s p o = 1.
Proof using Hr Hall.
  intros Hp Ho Hf. apply has_1. pose proof (prog_done n P m0 s Hr p) as HP.
  destruct (Hall p Hp) as [E|(w & v & Hb)]; [by rewrite E, app_nil_r in HP; rewrite <- HP|].
  destruct (Hf w v Hb (c_done s p) (tail (c_progs s p))); [|by left|by right].
  destruct Hb as [[k Ek] _]. by rewrite Ek in HP |- *.
Qed.

Lemma blocked_not_done p w v b : 0 ≤ p < n → blocked s p w v → follows (P p) b (GWait w v) → has s p b = 0.
Proof using Hr Honce.
  intros Hp [[k Ek] _] Hf. pose proof (prog_done n P m0 s Hr p) as HP. rewrite Ek in HP. unfold has.
  rewrite decide_False; [done|]. intros Hb. apply (Honce p (GWait w v) (c_done s p) k Hp HP); [done|].
  by eapply follows_done.
Qed.

Lemma leader_not_blocked w L ms v : grp w L ms → ¬ blocked s L w v.
Proof using Hr Hall Hmeet Honce.
  intros Hg Hb. pose proof (me_group Hmeet _ _ _ Hg) as G. pose proof (leader_pe _ _ _ _ _ G) as HL.
  destruct (group_inv_reachable n P m0 Honce w L ms G s Hr) as [I1 _ _ _ _ _ _].
  pose proof (gr_wait_L _ _ _ _ _ G v (blocked_wait _ _ _ Hb)) as ->.
  rewrite (zsum_ext_in _ (λ _, 1)) in I1.
  - rewrite zsum_const in I1. destruct Hb as [Hk Hne]. apply Hne. rewrite I1; [lia|].
    eapply blocked_not_done; [done|split; [exact Hk|exact Hne]|apply (gr_reset_L _ _ _ _ _ G)].
  - intros m Hm. destruct (me_add Hmeet _ _ _ _ Hg Hm) as [Hin Hf]. apply stuck_done; [|done|].
    + by apply (member_pe _ _ _ _ _ G).
    + intros w' v' Hb'. by apply Hf, blocked_wait.
Qed.

Lemma none_blocked p w v : 0 ≤ p < n → ¬ blocked s p w v.
Proof using Hr Hall Hmeet Honce Hnet.
  remember (rank w) as r eqn:Er. revert p w v Er. induction (lt_wf r) as [r _ IH]. intros p w v Er Hp Hb.
  destruct (me_wait Hmeet p w v Hp (blocked_wait _ _ _ Hb)) as (L & ms & Hg & Hpm).
  pose proof (me_group Hmeet _ _ _ Hg) as G. apply elem_of_cons in Hpm as [->|Hm]; [by eapply leader_not_blocked|].
  destruct (group_inv_reachable n P m0 Honce w L ms G s Hr) as [_ _ _ _ I5 _ _].
  pose proof (gr_wait_m _ _ _ _ _ G p v Hm (blocked_wait _ _ _ Hb)) as ->.
  pose proof (blocked_not_done p w 1 _ Hp Hb (gr_reset_m _ _ _ _ _ G p Hm)) as HR.
  specialize (I5 p Hm). destruct (me_flag Hmeet _ _ _ _ Hg Hm) as [Hin Hf].
  assert (has s L (GFlag w p) = 1) as HF.
  { apply stuck_done; [by apply (leader_pe _ _ _ _ _ G)|done|]. intros w' v' Hb'.
    destruct (decide (rank w < rank w')%nat) as [Hlt|Hge]; [by apply Hf; [apply blocked_wait|]|].
    destruct (decide (rank w' = rank w)) as [Heq|Hne].
    - pose proof (me_rank Hmeet _ _ _ _ _ _ (blocked_wait _ _ _ Hb') (blocked_wait _ _ _ Hb) Heq) as ->.
      by destruct (leader_not_blocked w L ms v' Hg).
    - destruct (IH (rank w') ltac:(lia) L w' v' eq_refl); [by apply (leader_pe _ _ _ _ _ G)|done]. }
  destruct Hb as [_ Hne]. unfold coming in I5. rewrite Hnet in I5. cbn in I5. lia.
Qed.
End stuck.

Lemma run_progress s : rtc (cstep n) (cinit P m0) s → cfinished n s ∨ ∃ s', cstep n s s'.
Proof using Hmeet Honce.
  intros Hr. destruct (c_net s) as [|[q [x w]] l] eqn:Hnet.
  2: { right. eexists. by apply (c_deliver n q x w s [] l). }
  destruct (decide (Exists (λ p, c_pend s p ≠ []) (seqZ 0 n))) as [He|He].
  { apply Exists_exists in He as (p & Hp%elem_of_seqZ & Hne). right.
    destruct (c_pend s p) as [|mv l] eqn:E; [done|]. eexists. apply (c_complete n p s [] mv l); [lia|done]. }
  assert (∀ p, 0 ≤ p < n → c_pend s p = []) as Hpend.
  { intros p Hp. destruct (decide (c_pend s p = [])) as [|Hne]; [done|]. destruct He. apply Exists_exists.
    exists p. split; [apply elem_of_seqZ; lia|done]. }
  destruct (decide (Exists (λ p, is_Some (advance p s)) (seqZ 0 n))) as [He2|He2].
  { apply Exists_exists in He2 as (p & Hp%elem_of_seqZ & [s' Hs']). right. exists s'. apply (c_advance n p); [lia|done]. }
  assert (∀ p, 0 ≤ p < n → c_progs s p = [] ∨ ∃ w v, blocked s p w v) as Hall.
  { intros p Hp. destruct (advance p s) as [s'|] eqn:Ea.
    { destruct He2. apply Exists_exists. exists p. split; [apply elem_of_seqZ; lia|]. by rewrite Ea. }
    unfold advance in Ea. destruct (c_progs s p) as [|o k] eqn:Ek; [by left|right].
    destruct o; try done.
    - rewrite decide_True in Ea; [done|]. rewrite Hpend, Hnet by done. split; [done|constructor].
    - rewrite decide_True in Ea; [done|]. rewrite Hpend, Hnet by done. split; constructor.
    - exists w, v. split; [by exists k|]. destruct (Z.eqb_spec (c_flags s (p, w)) v); [done|done]. }
  left. split; [|done]. intros p Hp. split; [|by apply Hpend].
  destruct (Hall p Hp) as [|(w & v & Hb)]; [done|]. by destruct (none_blocked s Hr Hnet Hall p w v Hp).
Qed.

Lemma meeting_terminates : cterminates n P m0.
Proof using Hmeet Honce.
  split; [|apply run_progress].
  exists (cweight n (cinit P m0)). intros k s Hk. pose proof (crun_bounded n k _ _ Hk). lia.
Qed.
End progress.

(** ** Programs in stages *)

(** Gets, puts, additions, and what belongs to the words of the cluster and the ring. *)
Definition stage (o : gop) : nat :=
  match o with
  | GMove mv => if decide (mv_dst mv = PAta) then 0 else 1
  | GQuiet => 0
  | GAdd w _ => if w =? pSync2 then 2 else 3
  | GWait w _ => if w =? pSync2 then 4 else 7
  | GReset w => if w =? pSync2 then 5 else 8
  | GFlag w _ => if w =? pSync2 then 6 else 9
  end.

Fixpoint staged (k : nat) (Ls : list (list gop)) : Prop :=
  match Ls with
  | [] => True
  | l :: Ls' => Forall (λ o, stage o = k) l ∧ NoDup l ∧ staged (S k) Ls'
  end.

Lemma staged_ge k Ls o : staged k Ls → o ∈ concat Ls → (k ≤ stage o)%nat.
Proof.
  revert k. induction Ls as [|l Ls IH]; intros k H Ho; cbn in *; [set_solver|]. destruct H as (Hl & _ & H).
  rewrite Forall_forall in Hl. apply elem_of_app in Ho as [Ho|Ho]; [rewrite (Hl o Ho); lia|].
  specialize (IH (S k) H Ho). lia.
Qed.

Lemma staged_nodup k Ls : staged k Ls → NoDup (concat Ls).
Proof.
  revert k. induction Ls as [|l Ls IH]; intros k H; cbn in *; [constructor|]. destruct H as (Hl & Hn & H).
  apply NoDup_app. split; [done|]. split; [|by eapply IH]. intros o Ho Ho2. rewrite Forall_forall in Hl.
  pose proof (staged_ge _ _ _ H Ho2). rewrite (Hl o Ho) in *. lia.
Qed.

Lemma staged_sorted k Ls : staged k Ls → StronglySorted (λ a b, stage a ≤ stage b)%nat (concat Ls).
Proof.
  revert k. induction Ls as [|l Ls IH]; intros k H; cbn in *; [constructor|]. destruct H as (Hl & Hn & H).
  apply StronglySorted_app_2; [|clear -Hl|by eapply IH].
  - intros a b Ha Hb. rewrite Forall_forall in Hl. rewrite (Hl a Ha). pose proof (staged_ge _ _ _ H Hb). lia.
  - induction Hl as [|o l Ho Hl IH]; constructor; [done|]. eapply Forall_impl; [exact Hl|]. cbn. intros x ->. lia.
Qed.

(** The quiets left out. *)
Definition loud : list gop → list gop := filter (λ o, o ≠ GQuiet).

Section staged.
Context (l : list gop) (Ls : list (list gop)) (El : loud l = concat Ls) (HLs : staged 0 Ls).

Lemma staged_once o d k : l = d ++ o :: k → o ≠ GQuiet → o ∉ d.
Proof using El HLs.
  intros -> Ho Hd. pose proof (staged_nodup _ _ HLs) as Hn. rewrite <- El in Hn. unfold loud in Hn.
  rewrite filter_app, filter_cons_True in Hn by done. apply NoDup_app in Hn as (_ & Hn & _).
  apply (Hn o); [by apply list_elem_of_filter|left].
Qed.

Lemma staged_follows a b : a ∈ l → a ≠ GQuiet → b ≠ GQuiet → (stage a < stage b)%nat → follows l b a.
Proof using El HLs.
  intros Ha Hna Hnb Hlt d k E. pose proof (staged_sorted _ _ HLs) as Hs. rewrite <- El in Hs. unfold loud in Hs.
  rewrite E in Ha, Hs. rewrite filter_app, filter_cons_True in Hs by done.
  apply elem_of_app in Ha as [|[->|Ha]%elem_of_cons]; [done|lia|].
  apply StronglySorted_app_1_r in Hs. apply StronglySorted_inv in Hs as [_ Hs]. rewrite Forall_forall in Hs.
  specialize (Hs a ltac:(by apply list_elem_of_filter)). lia.
Qed.
End staged.

(** ** [alltoall_gcen] *)

Section alltoall.
Context (n nelems : Z) (Hn : 0 < n) (Hne : 0 < nelems) (Hsq : num_clust n * clust_size n = n).
Abbreviation nc := (num_clust n).
Abbreviation cs := (clust_size n).
Abbreviation prog := (alltoall_gcen_ops n nelems).

Lemma nc_cs_pos : 0 < nc ∧ 0 < cs.
Proof using Hn Hsq.
  assert (0 < nc) as H by (unfold num_clust; apply Z.sqrt_pos; lia). nia.
Qed.

(** The place of a member. *)
Lemma place p : 0 ≤ p < n →
  clust_id n p = p / cs ∧ Z.rem p cs = p `mod` cs ∧ p = p / cs * cs + p `mod` cs ∧ 0 ≤ p / cs < nc ∧ 0 ≤ p `mod` cs < cs.
Proof using Hn Hsq.
  intros Hp. destruct nc_cs_pos as [Hnc Hcs]. unfold clust_id.
  rewrite Z.quot_div_nonneg, Z.rem_mod_nonneg by lia. pose proof (Z.div_mod p cs ltac:(lia)).
  pose proof (Z.mod_pos_bound p cs Hcs). split_and!; try done; try lia; nia.
Qed.

Lemma place_of k c : 0 ≤ c < cs → (k * cs + c) / cs = k ∧ (k * cs + c) `mod` cs = c.
Proof using Hn Hsq.
  intros Hc. destruct nc_cs_pos. rewrite Z.div_add_l, Z.div_small by lia. rewrite (Z.add_comm (k * cs)), Z.mod_add, Z.mod_small by lia. lia.
Qed.

(** The first member of the group that meets at a word, and the others. *)
Definition leader (w p : Z) : Z := if w =? pSync2 then clust_id n p * cs else Z.rem p cs.
Definition members (w L : Z) : list Z :=
  if w =? pSync2 then (λ i, L + i) <$> seqZ 1 (cs - 1) else (λ i, L + i * cs) <$> seqZ 1 (nc - 1).

Definition is_word (w : Z) : Prop := w = pSync2 ∨ w = 0.

Lemma leader_range w p : is_word w → 0 ≤ p < n → 0 ≤ leader w p < n ∧ leader w (leader w p) = leader w p.
Proof using Hn Hsq.
  intros Hw Hp. destruct nc_cs_pos. destruct (place p Hp) as (E1 & E2 & E3 & R1 & R2).
  destruct Hw as [->| ->]; unfold leader; cbn; rewrite ?E1, ?E2.
  - assert (0 ≤ p / cs * cs < n) as Hr by nia. split; [done|]. destruct (place _ Hr) as (-> & _).
    replace (p / cs * cs) with (p / cs * cs + 0) by lia. destruct (place_of (p / cs) 0) as [-> _]; lia.
  - assert (0 ≤ p `mod` cs < n) as Hr by nia. split; [done|]. destruct (place _ Hr) as (_ & -> & _). by apply Z.mod_mod; lia.
Qed.

Lemma elem_of_ring_members w L m :
  is_word w → 0 ≤ L < n → leader w L = L → m ∈ members w L ↔ 0 ≤ m < n ∧ leader w m = L ∧ m ≠ L.
Proof using Hn Hsq.
  intros Hw HL. destruct nc_cs_pos. destruct (place L HL) as (E1 & E2 & E3 & R1 & R2).
  destruct Hw as [->| ->]; unfold leader, members; cbn; rewrite ?E1, ?E2; intros EL.
  - rewrite list_elem_of_fmap. setoid_rewrite elem_of_seqZ. split.
    + intros (i & -> & Hi). replace (L + i) with (L / cs * cs + i) by lia.
      assert (0 ≤ L / cs * cs + i < n) as Hr by nia. destruct (place _ Hr) as (-> & _).
      destruct (place_of (L / cs) i) as [-> _]; [lia|]. lia.
    + intros (Hm & Em & Hne'). destruct (place m Hm) as (E1' & _ & E3' & _ & R2'). rewrite E1' in Em. exists (m - L). lia.
  - rewrite list_elem_of_fmap. setoid_rewrite elem_of_seqZ. split.
    + intros (i & -> & Hi). replace (L + i * cs) with (i * cs + L) by lia.
      assert (0 ≤ i * cs + L < n) as Hr by nia. destruct (place _ Hr) as (_ & -> & _).
      destruct (place_of i L) as [_ ->]; [lia|]. split; [done|]. split; [done|nia].
    + intros (Hm & Em & Hne'). destruct (place m Hm) as (_ & E2' & E3' & R1' & _). rewrite E2' in Em.
      exists (m / cs). split; [lia|]. assert (m / cs ≠ 0) by nia. lia.
Qed.

Lemma length_members w L : is_word w → Z.of_nat (length (members w L)) = if w =? pSync2 then cs - 1 else nc - 1.
Proof using Hn Hsq. destruct nc_cs_pos. intros [->| ->]; unfold members; cbn; rewrite length_fmap, length_seqZ; lia. Qed.

Lemma ring_members_nodup w L : NoDup (members w L).
Proof using Hn Hsq.
  destruct nc_cs_pos. unfold members. case_match; apply NoDup_fmap_2_strong; try apply NoDup_seqZ; intros x y _ _ E; nia.
Qed.

(** *** Its operations *)

Definition awaits (w : Z) (me : Z) : Z := if decide (leader w me = me) then Z.of_nat (length (members w me)) else 1.
Definition tells (w me : Z) : list gop := if decide (leader w me = me) then [] else [GAdd w (leader w me)].
Definition releases (w me : Z) : list gop := if decide (leader w me = me) then GFlag w <$> members w me else [].

Definition layers (me : Z) : list (list gop) :=
  [ GMove ∘ alltoall_get n nelems me <$> seqZ 0 n; GMove ∘ alltoall_put n nelems me <$> seqZ 0 nc;
    tells pSync2 me; tells 0 me;
    [GWait pSync2 (awaits pSync2 me)]; [GReset pSync2]; releases pSync2 me;
    [GWait 0 (awaits 0 me)]; [GReset 0]; releases 0 me ].

Lemma tell_tells me : tell_cluster n me = tells pSync2 me ∧ tell_ring n me = tells 0 me.
Proof using.
  unfold tell_cluster, tell_ring, tells, leader. cbn.
  destruct (Z.eqb_spec (clust_id n me * cs) me), (Z.eqb_spec (Z.rem me cs) me); by repeat case_decide.
Qed.

Lemma await_layers me :
  await_cluster n (me =? clust_id n me * cs) me = [GWait pSync2 (awaits pSync2 me); GReset pSync2] ++ releases pSync2 me ∧
  await_ring n me = [GWait 0 (awaits 0 me); GReset 0] ++ releases 0 me.
Proof using Hn Hsq.
  pose proof (length_members pSync2 me ltac:(by left)) as E1. pose proof (length_members 0 me ltac:(by right)) as E2.
  unfold await_cluster, await_ring, releases, awaits. rewrite E1, E2. unfold leader, members. cbn -[Z.mul flag_val].
  rewrite !(Z.eqb_sym me). rewrite <- !list_fmap_compose.
  split.
  - destruct (Z.eqb_spec (clust_id n me * cs) me); case_decide; try done. by rewrite Z.mul_1_l.
  - destruct (Z.eqb_spec (Z.rem me cs) me) as [E|]; case_decide; try done. by rewrite E.
Qed.

Lemma prog_layers me :
  prog me = (GMove ∘ alltoall_get n nelems me <$> seqZ 0 n) ++ [GQuiet]
    ++ (GMove ∘ alltoall_put n nelems me <$> seqZ 0 nc) ++ [GQuiet] ++ concat (drop 2 (layers me)).
Proof using Hn Hsq.
  unfold alltoall_gcen_ops, layers. destruct (tell_tells me) as [-> ->]. destruct (await_layers me) as [-> ->].
  cbn. by rewrite app_nil_r.
Qed.

Lemma tail_loud me : Forall (λ o, o ≠ GQuiet) (concat (drop 2 (layers me))).
Proof using.
  clear. unfold layers, tells, releases. apply Forall_concat.
  repeat case_decide; cbn; repeat apply Forall_cons_2; rewrite ?Forall_nil, ?Forall_fmap, ?Forall_singleton; try done;
    by apply Forall_forall.
Qed.

Lemma loud_all l : Forall (λ o, o ≠ GQuiet) l → loud l = l.
Proof using.
  clear. unfold loud. induction 1 as [|o l Ho _ IH]; [done|]. by rewrite filter_cons_True, IH.
Qed.

Lemma prog_loud me : loud (prog me) = concat (layers me).
Proof using Hn Hsq.
  rewrite prog_layers. unfold loud. rewrite !filter_app. rewrite (filter_cons_False _ GQuiet) by (intros Hq; by apply Hq).
  fold (loud (GMove ∘ alltoall_get n nelems me <$> seqZ 0 n)) (loud (GMove ∘ alltoall_put n nelems me <$> seqZ 0 nc))
    (loud (concat (drop 2 (layers me)))).
  rewrite (loud_all (concat _)) by apply tail_loud.
  rewrite (loud_all (_ <$> seqZ 0 n)), (loud_all (_ <$> seqZ 0 nc)) by (apply Forall_fmap, Forall_forall; done). done.
Qed.

Lemma prog_staged me : 0 ≤ me < n → staged 0 (layers me).
Proof using Hn Hsq Hne.
  intros Hme. destruct nc_cs_pos. unfold layers, tells, releases. cbn [staged].
  assert (∀ o : gop, NoDup [o]) as Hone by (intros; apply NoDup_singleton).
  split_and!; try done; try (by repeat constructor); try (by case_decide; repeat constructor);
    try (by case_decide; [constructor|apply Hone]).
  - apply Forall_fmap, Forall_forall. done.
  - apply NoDup_fmap_2_strong; [|apply NoDup_seqZ]. intros x y _ _ E. injection E as E _ E3. nia.
  - apply Forall_fmap, Forall_forall. done.
  - apply NoDup_fmap_2_strong; [|apply NoDup_seqZ]. intros x y _ _ E. injection E as _ E2. nia.
  - case_decide; [|constructor]. apply Forall_fmap, Forall_forall. done.
  - case_decide; [|constructor]. apply NoDup_fmap_2_strong; [|apply ring_members_nodup]. by intros x y _ _ [= ->].
  - case_decide; [|constructor]. apply Forall_fmap, Forall_forall. done.
  - case_decide; [|constructor]. apply NoDup_fmap_2_strong; [|apply ring_members_nodup]. by intros x y _ _ [= ->].
Qed.

Lemma prog_once : once n prog.
Proof using Hn Hsq Hne.
  intros p o d k Hp. apply (staged_once _ _ (prog_loud p) (prog_staged p Hp)).
Qed.

Lemma prog_follows p a b :
  0 ≤ p < n → a ∈ prog p → a ≠ GQuiet → b ≠ GQuiet → (stage a < stage b)%nat → follows (prog p) b a.
Proof using Hn Hsq Hne. intros Hp. apply (staged_follows _ _ (prog_loud p) (prog_staged p Hp)). Qed.

(** The operations on flags. *)
Lemma in_prog p o : o ≠ GQuiet → o ∈ prog p ↔ o ∈ concat (layers p).
Proof using Hn Hsq. intros Ho. rewrite <- prog_loud. unfold loud. rewrite list_elem_of_filter. naive_solver. Qed.

Ltac by_layers :=
  rewrite in_prog by done; unfold layers, tells, releases, is_word; cbn [concat];
  repeat case_decide; repeat setoid_rewrite elem_of_app; repeat setoid_rewrite elem_of_cons;
  repeat setoid_rewrite elem_of_nil; repeat setoid_rewrite list_elem_of_fmap; clear Hn Hsq Hne; naive_solver.

Lemma add_in_prog p w L : GAdd w L ∈ prog p ↔ is_word w ∧ L = leader w p ∧ L ≠ p.
Proof using Hn Hsq. by_layers. Qed.

Lemma wait_in_prog p w v : GWait w v ∈ prog p ↔ is_word w ∧ v = awaits w p.
Proof using Hn Hsq. by_layers. Qed.

Lemma reset_in_prog p w : GReset w ∈ prog p ↔ is_word w.
Proof using Hn Hsq. by_layers. Qed.

Lemma flag_in_prog p w m : GFlag w m ∈ prog p ↔ is_word w ∧ leader w p = p ∧ m ∈ members w p.
Proof using Hn Hsq.
  assert (∀ w', GFlag w m ∈ releases w' p ↔ w = w' ∧ leader w p = p ∧ m ∈ members w p) as Hrel.
  { intros w'. unfold releases. case_decide; rewrite ?list_elem_of_fmap, ?elem_of_nil; split; try naive_solver. }
  rewrite in_prog by done. unfold layers, is_word. cbn [concat]. rewrite !elem_of_app, !Hrel. unfold tells.
  repeat case_decide; repeat setoid_rewrite elem_of_cons; repeat setoid_rewrite elem_of_nil;
    repeat setoid_rewrite list_elem_of_fmap; clear Hn Hsq Hne Hrel; naive_solver.
Qed.
(** *** The members meet *)

Context (Hsmall : n < 2 ^ 63).

Lemma prog_group w L : is_word w → 0 ≤ L < n → leader w L = L → group n prog w L (members w L).
Proof using Hn Hsq Hne Hsmall.
  intros Hw HL EL. pose proof (λ m, elem_of_ring_members w L m Hw HL EL) as Hmem. destruct nc_cs_pos.
  assert (∀ m, m ∈ members w L → leader w m ≠ m) as Hlm by (intros m (_ & -> & ?)%Hmem; congruence).
  split.
  - apply Forall_cons. split; [done|]. apply Forall_forall. by intros m (? & _)%Hmem.
  - apply NoDup_cons. split; [intros (_ & _ & ?)%Hmem; done|apply ring_members_nodup].
  - rewrite length_members by done. case_match; nia.
  - intros p Hp (_ & -> & Hne')%add_in_prog. apply elem_of_ring_members; [done|done|done|]. naive_solver.
  - intros p m Hp Hm (_ & E & _)%add_in_prog. apply (Hlm m Hm). rewrite E. by apply leader_range.
  - intros p m Hp (Hm & Em & Hne')%Hmem (_ & Ep & Hm2)%flag_in_prog.
    apply (elem_of_ring_members w p m Hw Hp Ep) in Hm2 as (_ & E & _). congruence.
  - intros p Hp (_ & Ep & Hm)%flag_in_prog. apply (elem_of_ring_members w p L Hw Hp Ep) in Hm as (_ & E & Hne').
    congruence.
  - intros v [_ ->]%wait_in_prog. unfold awaits. by rewrite decide_True.
  - intros m v Hm [_ ->]%wait_in_prog. unfold awaits. rewrite decide_False; [done|by apply Hlm].
  - apply prog_follows; [done| |done|done|destruct Hw as [->| ->]; cbn; lia].
    apply wait_in_prog. split; [done|]. unfold awaits. by rewrite decide_True.
  - intros m Hm. apply prog_follows; [by apply Hmem in Hm as [? _]| |done|done|destruct Hw as [->| ->]; cbn; lia].
    apply wait_in_prog. split; [done|]. unfold awaits. rewrite decide_False; [done|by apply Hlm].
  - intros m Hm. apply prog_follows; [done|by apply reset_in_prog|done|done|destruct Hw as [->| ->]; cbn; lia].
Qed.

Definition meets (w L : Z) (ms : list Z) : Prop := is_word w ∧ 0 ≤ L < n ∧ leader w L = L ∧ ms = members w L.

(** Everybody is in the group of its leader. *)
Lemma in_group w p : is_word w → 0 ≤ p < n → p ∈ leader w p :: members w (leader w p).
Proof using Hn Hsq.
  intros Hw Hp. destruct (leader_range w p Hw Hp) as [HL EL]. destruct (decide (p = leader w p)) as [E|Hne']; apply elem_of_cons; [by left|].
  right. by apply elem_of_ring_members.
Qed.

Lemma prog_meeting : meeting n prog meets (λ w, if w =? pSync2 then 0%nat else 1%nat).
Proof using Hn Hsq Hne Hsmall.
  split.
  - intros w L ms (Hw & HL & EL & ->). by apply prog_group.
  - intros p w v Hp [Hw _]%wait_in_prog. destruct (leader_range w p Hw Hp) as [HL EL].
    exists (leader w p), (members w (leader w p)). split; [done|by apply in_group].
  - intros w L ms m (Hw & HL & EL & ->) Hm. pose proof (proj1 (elem_of_ring_members w L m Hw HL EL) Hm) as (Hm0 & Em & Hne').
    assert (GAdd w L ∈ prog m) as Hin by (apply add_in_prog; naive_solver). split; [done|]. intros w' v' [Hw' _]%wait_in_prog.
    apply prog_follows; [done|done|done|done|]. destruct Hw as [->| ->], Hw' as [->| ->]; cbn; lia.
  - intros w L ms m (Hw & HL & EL & ->) Hm.
    assert (GFlag w m ∈ prog L) as Hin by (by apply flag_in_prog). split; [done|]. intros w' v' [Hw' _]%wait_in_prog Hr.
    apply prog_follows; [done|done|done|done|]. destruct Hw as [->| ->], Hw' as [->| ->]; cbn in *; lia.
  - intros p q w w' v v' [Hw _]%wait_in_prog [Hw' _]%wait_in_prog. by destruct Hw as [->| ->], Hw' as [->| ->].
Qed.

(** *** The data *)

Section data.
Context {V : Type} (m0 : memory V).

(** What the arrays are meant to hold, by blocks of [nelems]. *)
Definition alltoall_want (x : Z) (a : buffer) (i : Z) : V :=
  match a with
  | PAta => let mv := alltoall_get n nelems x (i / nelems) in m0 (mv_from mv) Src (mv_si mv + i `mod` nelems)
  | Dst => m0 (i / nelems) Src (x * nelems + i `mod` nelems)
  | _ => m0 x a i
  end.

Lemma move_in_prog p mv :
  GMove mv ∈ prog p ↔ (∃ i, 0 ≤ i < n ∧ mv = alltoall_get n nelems p i) ∨ (∃ i, 0 ≤ i < nc ∧ mv = alltoall_put n nelems p i).
Proof using Hn Hsq Hne Hsmall.
  assert (∀ w, GMove mv ∉ tells w p ∧ GMove mv ∉ releases w p) as Hno.
  { intros w. unfold tells, releases. case_decide; rewrite ?list_elem_of_fmap, ?list_elem_of_singleton, ?elem_of_nil; naive_solver. }
  rewrite in_prog by done. unfold layers. cbn [concat]. rewrite !elem_of_app, !list_elem_of_fmap.
  setoid_rewrite elem_of_seqZ. pose proof (Hno pSync2). pose proof (Hno 0). split.
  - intros [(i & [= ->] & Hi)|[(i & [= ->] & Hi)|H1]]; [left; exists i; split; [lia|done]|right; exists i; split; [lia|done]|].
    exfalso. rewrite !list_elem_of_singleton, elem_of_nil in H1. naive_solver.
  - intros [(i & Hi & ->)|(i & Hi & ->)]; [left|right; left]; exists i; split; (done || lia).
Qed.

(** Block [k] of run [i] of a put is fetched by get [i * cs + k]. *)
Lemma get_of_run p i k : 0 ≤ p < n → 0 ≤ i < nc → 0 ≤ k < cs →
  mv_from (alltoall_get n nelems p (i * cs + k)) = clust_id n p * cs + k ∧
  mv_si (alltoall_get n nelems p (i * cs + k)) = (Z.rem p cs + i * cs) * nelems ∧ 0 ≤ i * cs + k < n.
Proof using Hn Hsq Hne Hsmall.
  intros Hp Hi Hk. destruct nc_cs_pos. unfold alltoall_get. cbn.
  assert (0 ≤ i * cs + k < n) as Hr by nia. rewrite Z.quot_div_nonneg, (Z.rem_mod_nonneg (i * cs + k)) by lia.
  destruct (place_of i k Hk) as [-> ->]. split; [done|]. split; [f_equal; lia|done].
Qed.

Lemma block_of i o : 0 ≤ o < nelems → (i * nelems + o) / nelems = i ∧ (i * nelems + o) `mod` nelems = o.
Proof using Hn Hsq Hne Hsmall.
  intros Ho. rewrite Z.div_add_l, Z.div_small by lia. rewrite (Z.add_comm (i * nelems)), Z.mod_add, Z.mod_small by lia. lia.
Qed.

(** A place in a run of [cs] blocks. *)
Lemma run_place t : 0 ≤ t < nelems * cs → ∃ k o, 0 ≤ k < cs ∧ 0 ≤ o < nelems ∧ t = k * nelems + o.
Proof using Hn Hsq Hne Hsmall.
  intros Ht. destruct nc_cs_pos. exists (t / nelems), (t `mod` nelems).
  pose proof (Z.div_mod t nelems ltac:(lia)). pose proof (Z.mod_pos_bound t nelems Hne). split_and!; try lia; nia.
Qed.

Lemma alltoall_data : data_ok n prog m0 alltoall_want.
Proof using Hn Hsq Hne Hsmall.
  destruct nc_cs_pos as [Hnc Hcs]. split.
  - done.
  - intros p mv Hp [(i & Hi & ->)|(i & Hi & ->)]%move_in_prog; (split; [done|]); intros j Hj; cbn in Hj |- *.
    + replace j with (i * nelems + (j - i * nelems)) by lia. destruct (block_of i (j - i * nelems)) as [-> ->]; [lia|].
      cbn. f_equal. lia.
    + destruct (run_place (j - clust_id n p * nelems * cs)) as (k & o & Hk & Ho & Et); [lia|].
      replace j with ((clust_id n p * cs + k) * nelems + o) by lia.
      destruct (block_of (clust_id n p * cs + k) o Ho) as [-> ->].
      replace (i * nelems * cs + _) with ((i * cs + k) * nelems + o) by lia.
      destruct (block_of (i * cs + k) o Ho) as [-> ->].
      destruct (get_of_run p i k Hp Hi Hk) as (E1 & E2 & _). unfold alltoall_get in E1, E2. cbn in E1, E2. by rewrite E1, E2.
  - intros p mv x a j d k Hp E Hr. assert (GMove mv ∈ prog p) as Hin by (rewrite E; set_solver).
    apply move_in_prog in Hin as [(i & Hi & ->)|(i & Hi & ->)]; [left; by destruct Hr as (_ & -> & _)|right].
    destruct Hr as (-> & -> & Hj). cbn in Hj.
    destruct (run_place (j - i * nelems * cs)) as (b & o & Hb & Ho & Et); [lia|].
    destruct (get_of_run p i b Hp Hi Hb) as (_ & _ & Hb'). rewrite prog_layers in E. symmetry in E.
    assert (GMove (alltoall_put n nelems p i) ∉ (GMove ∘ alltoall_get n nelems p <$> seqZ 0 n) ++ [GQuiet]) as Hnot.
    { rewrite elem_of_app, list_elem_of_fmap, list_elem_of_singleton. intros [(? & [=] & _)|[=]]. }
    rewrite (app_assoc _ [GQuiet]) in E.
    apply app_eq_app in E as (c & [[-> E]|[E E']]).
    + exists (GMove ∘ alltoall_get n nelems p <$> seqZ 0 n), c, (alltoall_get n nelems p (i * cs + b)).
      split; [by rewrite <- app_assoc|]. split; [apply list_elem_of_fmap; exists (i * cs + b); split; [done|apply elem_of_seqZ; lia]|].
      split; [done|]. split; [done|]. cbn. lia.
    + destruct c as [|y c]; cbn in E'; [|injection E' as <- _; destruct Hnot; rewrite E; set_solver].
      rewrite app_nil_r in E. subst d.
      exists (GMove ∘ alltoall_get n nelems p <$> seqZ 0 n), [], (alltoall_get n nelems p (i * cs + b)).
      split; [done|]. split; [apply list_elem_of_fmap; exists (i * cs + b); split; [done|apply elem_of_seqZ; lia]|].
      split; [done|]. split; [done|]. cbn. lia.
Qed.

(** *** Returning *)

(** A member with an operation on flags done has all its transfers behind it. *)
Lemma behind_quiets s r o :
  rtc (cstep n) (cinit prog m0) s → 0 ≤ r < n → o ∈ c_done s r → o ≠ GQuiet → (∀ mv, o ≠ GMove mv) →
  ∃ d1 d2, c_done s r = d1 ++ GQuiet :: d2 ∧ ∀ mv, GMove mv ∈ prog r → GMove mv ∈ d1.
Proof using Hn Hsq Hne Hsmall.
  intros Hr Hp Ho Hnq Hnm. pose proof (prog_done n prog m0 s Hr r) as HP. pose proof (prog_layers r) as HL.
  set (d1 := (GMove ∘ alltoall_get n nelems r <$> seqZ 0 n) ++ [GQuiet] ++ (GMove ∘ alltoall_put n nelems r <$> seqZ 0 nc)).
  assert (prog r = d1 ++ GQuiet :: concat (drop 2 (layers r))) as E by (rewrite HL; subst d1; by rewrite <- !app_assoc).
  assert (∀ mv, GMove mv ∈ prog r → GMove mv ∈ d1) as Hall.
  { intros mv [(i & Hi & ->)|(i & Hi & ->)]%move_in_prog; subst d1; rewrite !elem_of_app, !list_elem_of_fmap;
      [left|right; right]; exists i; (split; [done|apply elem_of_seqZ; lia]). }
  assert (o ∉ d1) as Hnot.
  { subst d1. rewrite !elem_of_app, !list_elem_of_fmap, list_elem_of_singleton. intros [(i & -> & _)|[?|(i & -> & _)]];
      [by destruct (Hnm (alltoall_get n nelems r i))|done|by destruct (Hnm (alltoall_put n nelems r i))]. }
  rewrite HP in E. apply app_eq_app in E as (c & [[Ed Ec]|[Ed Ec]]).
  - exists d1. destruct c as [|y c]; cbn in Ec; [rewrite app_nil_r in Ed; by rewrite Ed in Ho|].
    injection Ec as <- _. by exists c.
  - rewrite Ed in Hnot. set_solver.
Qed.

(** Whoever has returned knows this of its cluster and of its ring. *)
Lemma group_behind s p w r :
  rtc (cstep n) (cinit prog m0) s → 0 ≤ p < n → 0 ≤ r < n → is_word w → c_progs s p = [] → leader w r = leader w p →
  ∃ d1 d2, c_done s r = d1 ++ GQuiet :: d2 ∧ ∀ mv, GMove mv ∈ prog r → GMove mv ∈ d1.
Proof using Hn Hsq Hne Hsmall.
  intros Hr Hp Hr0 Hw Hend Hlead. pose proof (prog_done n prog m0 s Hr p) as HP. rewrite Hend, app_nil_r in HP.
  destruct (leader_range w p Hw Hp) as [HL EL]. pose proof (prog_group w _ Hw HL EL) as G.
  destruct (met n prog m0 prog_once w _ _ G s p (awaits w p) r Hr (in_group w p Hw Hp)) as [H1 H2].
  { rewrite <- HP. by apply wait_in_prog. }
  pose proof (in_group w r Hw Hr0) as Hin. rewrite Hlead in Hin. apply elem_of_cons in Hin as [->|Hin].
  - by eapply behind_quiets.
  - by eapply behind_quiets; [| |apply H2| |].
Qed.

(** A transfer of such a member is over. *)
Lemma transfer_over s r d1 d2 mv :
  rtc (cstep n) (cinit prog m0) s → 0 ≤ r < n → c_done s r = d1 ++ GQuiet :: d2 → GMove mv ∈ d1 →
  mv ∉ c_pend s r ∧ GMove mv ∉ c_progs s r.
Proof using Hn Hsq Hne Hsmall.
  intros Hr Hr0 E Hin. split.
  - by apply (ci_quiet _ _ _ (cinv_reachable n prog m0 alltoall_want prog_once (alltoall_data) s Hr) r d1 d2 mv).
  - intros (l1 & l2 & El)%list_elem_of_split. pose proof (prog_done n prog m0 s Hr r) as HP.
    rewrite El, app_assoc in HP. apply (prog_once r (GMove mv) _ _ Hr0 HP); [done|]. rewrite E. set_solver.
Qed.

Lemma returned_data s p q o :
  rtc (cstep n) (cinit prog m0) s → 0 ≤ p < n → c_progs s p = [] → 0 ≤ q < n → 0 ≤ o < nelems →
  c_mem s p Dst (q * nelems + o) = m0 q Src (p * nelems + o).
Proof using Hn Hsq Hne Hsmall.
  intros Hr Hp Hend Hq Ho. destruct nc_cs_pos.
  destruct (place p Hp) as (P1 & P2 & P3 & P4 & P5). destruct (place q Hq) as (Q1 & Q2 & Q3 & Q4 & Q5).
  set (r := q / cs * cs + p `mod` cs). assert (0 ≤ r < n) as Hr0 by (subst r; nia).
  destruct (place_of (q / cs) (p `mod` cs) P5) as [R1 R2]. fold r in R1, R2. destruct (place r Hr0) as (R3 & R4 & _).
  destruct (group_behind s p 0 r Hr Hp Hr0) as (d1 & d2 & E & Hall); [by right|done|unfold leader; cbn; congruence|].
  destruct (quiet_arrived n prog m0 alltoall_want prog_once alltoall_data s r d1 d2 (alltoall_put n nelems r (p / cs))
    p Dst (q * nelems + o) Hr Hr0 E) as [_ ->].
  - apply Hall, move_in_prog. right. by exists (p / cs).
  - unfold alltoall_put. rewrite R3, R4, R1, R2. split; [cbn; lia|]. split; [done|]. cbn. nia.
  - unfold alltoall_want. by destruct (block_of q o Ho) as [-> ->].
Qed.

Lemma returned_buffers s p q mv :
  rtc (cstep n) (cinit prog m0) s → 0 ≤ p < n → c_progs s p = [] → 0 ≤ q < n →
  mv ∈ c_pend s q ∨ GMove mv ∈ c_progs s q → ∀ i, ¬ reads mv p Src i ∧ ¬ writes mv p Dst i.
Proof using Hn Hsq Hne Hsmall.
  intros Hr Hp Hend Hq Hmv i. destruct nc_cs_pos.
  assert (GMove mv ∈ prog q) as Hin.
  { rewrite (prog_done n prog m0 s Hr q). apply elem_of_app. destruct Hmv as [Hmv|]; [left|by right].
    by apply (ci_pend _ _ _ (cinv_reachable n prog m0 alltoall_want prog_once alltoall_data s Hr) q mv). }
  assert (∀ w, is_word w → leader w q ≠ leader w p) as Hfar.
  { intros w Hw El. destruct (group_behind s p w q Hr Hp Hq Hw Hend El) as (d1 & d2 & E & Hall).
    destruct (transfer_over s q d1 d2 mv Hr Hq E (Hall mv Hin)). naive_solver. }
  destruct (place q Hq) as (Q1 & Q2 & Q3 & Q4 & Q5). destruct (place p Hp) as (P1 & P2 & P3 & P4 & P5).
  apply move_in_prog in Hin as [(k & Hk & ->)|(k & Hk & ->)]; (split; [|try by intros (_ & [=] & _)]).
  - intros (Ep & _). cbn in Ep. apply (Hfar pSync2); [by left|]. unfold leader. cbn. rewrite Q1, P1.
    rewrite Q1, Z.rem_mod_nonneg in Ep by lia. pose proof (Z.mod_pos_bound k cs ltac:(lia)) as Hm.
    destruct (place_of (q / cs) (k `mod` cs) Hm) as [E _]. rewrite <- Ep in E. by rewrite E.
  - intros (Ep & [=] & _).
  - intros (Ep & _). cbn in Ep. apply (Hfar 0); [by right|]. unfold leader. cbn. rewrite Q2, P2.
    rewrite Q2 in Ep. destruct (place_of k (q `mod` cs) Q5) as [_ E]. rewrite Z.add_comm, <- Ep in E. by rewrite E.
Qed.

(** The words are as they were. *)
Lemma finished_words s p w :
  rtc (cstep n) (cinit prog m0) s → cfinished n s → 0 ≤ p < n → is_word w → c_flags s (p, w) = 0.
Proof using Hn Hsq Hne Hsmall.
  intros Hr [Hf Hnet] Hp Hw. destruct (leader_range w p Hw Hp) as [HL EL].
  destruct (group_inv_reachable n prog m0 prog_once w _ _ (prog_group w _ Hw HL EL) s Hr) as [_ I2 _ _ I5 _ _].
  assert (∀ q o, 0 ≤ q < n → o ∈ prog q → has s q o = 1) as Hall.
  { intros q o Hq Ho. apply has_1. rewrite (prog_done n prog m0 s Hr q), (proj1 (Hf q Hq)), app_nil_r in Ho. done. }
  pose proof (in_group w p Hw Hp) as Hin. apply elem_of_cons in Hin as [E|Hin].
  - rewrite E. apply I2, Hall; [done|]. by apply reset_in_prog.
  - specialize (I5 p Hin). rewrite (Hall p), (Hall (leader w p)) in I5; [|done|by apply flag_in_prog|done|by apply reset_in_prog].
    unfold coming in I5. rewrite Hnet in I5. cbn in I5. lia.
Qed.
End data.
End alltoall.

(** C10: The clustered all-to-all [alltoall_gcen].  When the stride of the team is not a
    power of two every member stops at an assertion.  For a stride that is, a number of
    members that its clusters divide and data that fits the work array: the checks pass;
    every run of the members ends with all of them returned, no transfer or flag on its way and the words of
    [pSync] reset; and when a member [p] has returned, in whatever interleaving, then
    block [q] of its destination is block [p] of the source of member [q], for all [q], and
    no transfer that is on its way or still to be started, of any member, reads its
    source or writes its destination. *)
Theorem alltoall_gcen_correct {V} n nelems stride (m0 : memory V) :
  0 < n → 0 < nelems → n * nelems ≤ ROC_SHMEM_ATA_MAX_WRKDATA_SIZE → num_clust n * clust_size n = n →
  (¬ pow2_stride stride → ∀ me, alltoall_gcen n nelems stride me = Fail AssertFailed) ∧
  (pow2_stride stride → ∀ me, alltoall_gcen n nelems stride me = Ok (alltoall_gcen_ops n nelems me)) ∧
  cterminates n (alltoall_gcen_ops n nelems) m0 ∧
  (∀ s, rtc (cstep n) (cinit (alltoall_gcen_ops n nelems) m0) s → cfinished n s →
     ∀ p, 0 ≤ p < n → c_flags s (p, 0) = 0 ∧ c_flags s (p, pSync2) = 0) ∧
  ∀ s p, rtc (cstep n) (cinit (alltoall_gcen_ops n nelems) m0) s → 0 ≤ p < n → c_progs s p = [] →
    (∀ q o, 0 ≤ q < n → 0 ≤ o < nelems → c_mem s p Dst (q * nelems + o) = m0 q Src (p * nelems + o)) ∧
    (∀ q mv i, 0 ≤ q < n → mv ∈ c_pend s q ∨ GMove mv ∈ c_progs s q → ¬ reads mv p Src i ∧ ¬ writes mv p Dst i).
Proof.
  intros Hn Hne Hfit Hsq. unfold ROC_SHMEM_ATA_MAX_WRKDATA_SIZE in Hfit. assert (n < 2 ^ 63) as Hsmall by nia. split_and!.
  - intros Hs me. unfold alltoall_gcen, gcen_checks. by rewrite check_stride_other.
  - intros Hs me. unfold alltoall_gcen, gcen_checks. rewrite check_stride_pow2 by done.
    cbn [mbind result_bind]. rewrite swrap_small, uwrap_small by nia.
    unfold ROC_SHMEM_ATA_MAX_WRKDATA_SIZE. rewrite (proj2 (Z.ltb_ge _ _)) by lia. cbn [negb assert_ mbind result_bind].
    by rewrite Hsq, Z.eqb_refl.
  - apply (meeting_terminates n _ m0 (prog_once n nelems Hn Hne Hsq) _ _ (prog_meeting n nelems Hn Hne Hsq Hsmall)).
  - intros s Hr Hf p Hp. split; (eapply finished_words; [exact Hn|exact Hne|exact Hsq|exact Hsmall|exact Hr|exact Hf|exact Hp|]);
      [by right|by left].
  - intros s p Hr Hp Hend. split; [intros q o; by apply returned_data|].
    intros q mv i Hq Hmv. by eapply (returned_buffers n nelems Hn Hne Hsq Hsmall m0).
Qed.

(** Six members, two clusters of three. *)
Lemma alltoall_gcen_correct_witness :
  (∀ me, alltoall_gcen 6 2 4 me = Ok (alltoall_gcen_ops 6 2 me)) ∧
  cterminates 6 (alltoall_gcen_ops 6 2) (λ p _ i, p * 100 + i) ∧
  ∀ s, rtc (cstep 6) (cinit (alltoall_gcen_ops 6 2) (λ p _ i, p * 100 + i)) s → c_progs s 4 = [] → c_mem s 4 Dst (5 * 2 + 1) = 509.
Proof.
  destruct (alltoall_gcen_correct 6 2 4 (λ p _ i, p * 100 + i) ltac:(lia) ltac:(lia) ltac:(vm_compute; congruence) eq_refl)
    as (_ & Hc & Ht & _ & Hret).
  split; [exact (Hc pow2_stride_4)|].
  split; [exact Ht|]. intros s Hr Hend. destruct (Hret s 4 Hr ltac:(lia) Hend) as [Hdata _].
  exact (Hdata 5 1 ltac:(lia) ltac:(lia)).
Defined.

(** ** Runs *)

(** What happens next: a member goes on, up to [k] operations; its [i]-th transfer on
    its way completes; the [i]-th flag on its way arrives. *)
Inductive event := Go (p : Z) (k : nat) | Complete (p : Z) (i : nat) | Arrive (i : nat).

Section schedules.
Context {V : Type} (n : Z).
Implicit Types s : cstate (V := V).

Fixpoint go (k : nat) (p : Z) s : cstate (V := V) :=
  match k with
  | O => s
  | S k' => match advance p s with Some s' => go k' p s' | None => s end
  end.

Definition react (e : event) s : cstate (V := V) :=
  match e with
  | Go p k => if (0 <=? p) && (p <? n) then go k p s else s
  | Complete p i =>
      match c_pend s p !! i with
      | Some mv =>
          if (0 <=? p) && (p <? n) then
            mkC (c_progs s) (<[p := take i (c_pend s p) ++ drop (S i) (c_pend s p)]> (c_pend s)) (c_flags s) (c_net s)
              (exec (c_mem s) mv) (c_done s)
          else s
      | None => s
      end
  | Arrive i =>
      match c_net s !! i with
      | Some (q, (x, w)) =>
          mkC (c_progs s) (c_pend s) (<[(x, w) := flag_val]> (c_flags s)) (take i (c_net s) ++ drop (S i) (c_net s))
            (c_mem s) (c_done s)
      | None => s
      end
  end.

Definition schedule (l : list event) s : cstate (V := V) := foldl (λ s e, react e s) s l.

Lemma go_reaches k p s : 0 ≤ p < n → rtc (cstep n) s (go k p s).
Proof.
  intros Hp. revert s. induction k as [|k IH]; intros s; cbn; [done|].
  destruct (advance p s) as [s'|] eqn:E; [|done]. eapply rtc_l; [by apply (c_advance n p)|apply IH].
Qed.

Lemma react_reaches e s : rtc (cstep n) s (react e s).
Proof.
  destruct e as [p k|p i|i]; cbn.
  - destruct (Z.leb_spec 0 p), (Z.ltb_spec p n); cbn; try done. by apply go_reaches.
  - destruct (c_pend s p !! i) as [mv|] eqn:E; [|done]. destruct (Z.leb_spec 0 p), (Z.ltb_spec p n); cbn; try done.
    apply rtc_once, c_complete; [done|]. by rewrite take_drop_middle.
  - destruct (c_net s !! i) as [[q [x w]]|] eqn:E; [|done]. apply rtc_once, (c_deliver n q). by rewrite take_drop_middle.
Qed.

Lemma schedule_reaches l s : rtc (cstep n) s (schedule l s).
Proof.
  unfold schedule. revert s. induction l as [|e l IH]; intros s; cbn; [done|]. etrans; [apply react_reaches|apply IH].
Qed.

(** Nothing can happen any more. *)
Definition halted s : bool :=
  forallb (λ p, bool_decide (c_pend s p = []) && match advance p s with None => true | _ => false end) (seqZ 0 n)
  && bool_decide (c_net s = []).

Lemma halted_stuck s s' : halted s = true → ¬ cstep n s s'.
Proof.
  unfold halted. rewrite andb_true_iff, forallb_forall, bool_decide_eq_true. intros [Hall Hnet] Hs.
  assert (∀ p, 0 ≤ p < n → c_pend s p = [] ∧ advance p s = None) as Hp.
  { intros p Hp. specialize (Hall p). rewrite <- list_elem_of_In, elem_of_seqZ, andb_true_iff, bool_decide_eq_true in Hall.
    destruct (Hall ltac:(lia)) as [E1 E2]. by destruct (advance p s). }
  destruct Hs as [p s0 s1 Hp0 Ha|p s0 l1 mv l2 Hp0 Hl|q x w s0 l1 l2 Hl].
  - destruct (Hp p Hp0) as [_ E]. congruence.
  - destruct (Hp p Hp0) as [E _]. rewrite E in Hl. by destruct l1.
  - rewrite Hnet in Hl. by destruct l1.
Qed.
End schedules.

(** ** Where the other variants fail *)

(** A member goes on, its transfers complete, and it goes on again. *)
Definition finish (p : Z) : list event :=
  [Go p 100; Complete p 0; Complete p 0; Complete p 0; Complete p 0; Go p 100].

(** Three members, one cluster: member 2 tells the first one that it is there while
    its get from member 1 is on its way; the first one releases member 1. *)
Definition early_release : list event :=
  [Go 0 100; Go 1 100; Go 2 100; Complete 2 0; Go 2 100] ++ finish 1 ++ finish 0 ++ finish 0 ++ [Arrive 0; Arrive 0] ++ finish 1.

(** In [alltoall_gcen2] and in [fcollect_gcen] a member adds to the word of the cluster
    before it waits for its gets, so that another member can return while its source is
    still read. *)
Theorem source_released_early (m0 : memory Z) :
  (∃ s mv, rtc (cstep 3) (cinit (alltoall_gcen2_ops 3 1) m0) s ∧ c_progs s 1 = [] ∧ mv ∈ c_pend s 2 ∧ reads mv 1 Src 2) ∧
  (∃ s mv, rtc (cstep 3) (cinit (fcollect_gcen_ops 3 1) m0) s ∧ c_progs s 1 = [] ∧ mv ∈ c_pend s 2 ∧ reads mv 1 Src 0).
Proof.
  split.
  - exists (schedule 3 early_release (cinit (alltoall_gcen2_ops 3 1) m0)), (alltoall_get 3 1 2 1).
    split; [apply schedule_reaches|]. split; [by vm_compute|]. split; [|by vm_compute; split_and!].
    apply list_elem_of_In. vm_compute. tauto.
  - exists (schedule 3 early_release (cinit (fcollect_gcen_ops 3 1) m0)), (fcollect_get 3 1 2 1).
    split; [apply schedule_reaches|]. split; [by vm_compute|]. split; [|by vm_compute; split_and!].
    apply list_elem_of_In. vm_compute. tauto.
Qed.

(** Four members: member 2 has left the barrier of its cluster and member 1 has entered
    the one of its own; both set word 1 of member 0, one for the barrier of the ring, one
    for that of the cluster, before member 0 looks. *)
Definition merged_flags : list event :=
  finish 0 ++ finish 1 ++ finish 2 ++ finish 3 ++ [Arrive 0] ++ finish 2 ++ [Arrive 0] ++ finish 2
  ++ [Arrive 0; Arrive 0] ++ finish 0 ++ [Arrive 0] ++ finish 0 ++ finish 1 ++ finish 3
  ++ [Arrive 0] ++ finish 1 ++ [Arrive 0] ++ finish 3.

(** [fcollect_gcen2] uses the same words for the barrier of the cluster and for that of the
    ring, and blocks: a run of four members in which members 0 and 2 wait forever. *)
Theorem fcollect_gcen2_deadlock (m0 : memory Z) :
  ∃ s, rtc (cstep 4) (cinit (fcollect_gcen2_ops 4 1) m0) s ∧ (∀ s', ¬ cstep 4 s s') ∧
    c_progs s 0 ≠ [] ∧ c_progs s 2 ≠ [].
Proof.
  exists (schedule 4 merged_flags (cinit (fcollect_gcen2_ops 4 1) m0)). split; [apply schedule_reaches|].
  split; [intros s'; apply halted_stuck; by vm_compute|]. by vm_compute.
Qed.
