(* ===== verification/Host.v ===== *)
(** * The host interface

    [host/host.cpp], [host/host_helpers.hpp] and [host/host_templates.hpp]: the
    operations that a host thread starts, by MPI calls on the window of its
    context.  The calls go to a log.  Shown: which addresses an operation uses,
    that blocking operations and quiets wait for what they have to wait for, whose
    HDPs are flushed, the pool of windows, the communicators of active sets, and the comparisons. *)
From S2P Require Import Prelude Heap ROQueue MPITransport.

Local Open Scope Z_scope.

(** ** MPI calls *)

(** One-sided calls name the target, the displacement and the window;
    [HHdp_*] are those on the window of the HDP flush registers.  [None] as
    operation is [MPI_NO_OP]. *)
Inductive host_call :=
  | HPut (src count pe disp win : Z)
  | HGet (dst count pe disp win : Z)
  | HFetch_and_op (value : Z) (op : option MPI_Op) (pe disp win : Z)
  | HCompare_and_swap (value cond pe disp win : Z)
  | HWin_flush_local (pe win : Z)
  | HWin_flush_all (win : Z)
  | HWin_sync (win : Z)
  | HHdp_flush
  | HHdp_put (value pe : Z)
  | HHdp_win_flush (pe : Z)
  | HHdp_win_flush_all
  | HBarrier (comm : Z)
  | HComm_create_group (ranks : list Z)
  | HBcast (buffer count root comm : Z)
  | HAllreduce (in_place : bool) (src dst count : Z) (ty : MPI_Datatype) (op : MPI_Op) (comm : Z).

(** ** State *)

(** [class HostContextWindowInfo]; windows are told apart by their handle. *)
Record HostContextWindowInfo := mkHCW {
  avail_ : bool;
  win_handle : Z;
  window_info_ : WindowInfo
}.

Definition mark_avail (w : HostContextWindowInfo) : HostContextWindowInfo :=
  mkHCW true (win_handle w) (window_info_ w).
Definition mark_unavail (w : HostContextWindowInfo) : HostContextWindowInfo :=
  mkHCW false (win_handle w) (window_info_ w).

(** [class HostInterface]; the calls made so far are in [hlog]. *)
Record HostInterface := mkHost {
  my_pe_ : Z;
  num_pes_ : Z;
  host_window_context_pool_ : list HostContextWindowInfo;
  hcomm_map : gmap (Z * Z * Z) Z;
  hlog : list host_call
}.

Definition call (c : host_call) (s : HostInterface) : HostInterface :=
  mkHost (my_pe_ s) (num_pes_ s) (host_window_context_pool_ s) (hcomm_map s) (hlog s ++ [c]).
Definition calls (l : list host_call) (s : HostInterface) : HostInterface :=
  foldl (λ s c, call c s) s l.
Definition set_pool (l : list HostContextWindowInfo) (s : HostInterface) : HostInterface :=
  mkHost (my_pe_ s) (num_pes_ s) l (hcomm_map s) (hlog s).

(** The world that the interface meets: rank and size of the communicator, its
    handle, the handles of new windows and communicators, and MPI's calls on
    addresses. *)
Record world := mkWorld {
  w_rank : Z;
  w_size : Z;
  host_comm_world_ : Z;
  new_comm_handle : nat → Z;
  MPI_Comm_rank : Z → Z;
  w_Get_address : Z → Z;
  w_Aint_diff : Z → Z → Z
}.

Definition HDP_FLUSH_VAL : Z := 1.

(** The constructor: the pool has [max_num_ctxs] windows over the heap.  The
    number of processes is taken from [MPI_Comm_rank].  The log starts after its
    own calls. *)
Definition HostInterface_new (W : world) (max_num_ctxs : option Z) (heap_base heap_size : Z)
    : HostInterface :=
  mkHost (w_rank W) (w_rank W)
    ((λ i, mkHCW true i (WindowInfo_new heap_base heap_size)) <$> seqZ 0 (default 40 max_num_ctxs))
    ∅ [].

(** ** The pool of windows *)

Fixpoint find_avail_from (l : list HostContextWindowInfo) (i : nat) : result nat :=
  match l with
  | [] => Fail AssertFailed
  | w :: l' => if avail_ w then Ok i else find_avail_from l' (S i)
  end.
Definition find_avail_pool_entry (s : HostInterface) : result nat :=
  find_avail_from (host_window_context_pool_ s) 0.

Fixpoint find_win_from (handle : Z) (l : list HostContextWindowInfo) (i : nat) : result nat :=
  match l with
  | [] => Fail AssertFailed
  | w :: l' =>
      if avail_ w then find_win_from handle l' (S i)
      else if handle =? win_handle w then Ok i else find_win_from handle l' (S i)
  end.
Definition find_win_info_in_pool (handle : Z) (s : HostInterface) : result nat :=
  find_win_from handle (host_window_context_pool_ s) 0.

Definition acquire_window_context (s : HostInterface) : result (HostContextWindowInfo * HostInterface) :=
  index ← find_avail_pool_entry s;
  w ← must (host_window_context_pool_ s !! index);
  Ok (mark_unavail w, set_pool (<[index := mark_unavail w]> (host_window_context_pool_ s)) s).

Definition release_window_context (handle : Z) (s : HostInterface) : result HostInterface :=
  index ← find_win_info_in_pool handle s;
  Ok (set_pool (alter mark_avail index (host_window_context_pool_ s)) s).

(** ** One-sided operations *)

Section operations.
Context (W : world).

Definition compute_offset (dest : Z) (w : WindowInfo) : result Z :=
  _ ← assert_ ((win_start_ w <=? dest) && (dest <? win_end_ w));
  Ok (w_Aint_diff W (w_Get_address W dest) (w_Get_address W (win_start_ w))).

Definition complete_all (win : Z) (s : HostInterface) : HostInterface :=
  calls [HWin_flush_all win; HWin_sync win] s.

(** The counts of [MPI_Put] and [MPI_Get] are of type [int]. *)
Definition initiate_put (dest source nelems pe : Z) (w : HostContextWindowInfo) (s : HostInterface)
    : result HostInterface :=
  offset ← compute_offset dest (window_info_ w);
  Ok (calls [HHdp_flush; HPut source (s32 nelems) pe offset (win_handle w)] s).
Definition initiate_get (dest source nelems pe : Z) (w : HostContextWindowInfo) (s : HostInterface)
    : result HostInterface :=
  offset ← compute_offset source (window_info_ w);
  Ok (call (HGet dest (s32 nelems) pe offset (win_handle w)) s).

Definition putmem_nbi := initiate_put.
Definition getmem_nbi := initiate_get.

Definition putmem (dest source nelems pe : Z) (w : HostContextWindowInfo) (s : HostInterface)
    : result HostInterface :=
  s ← initiate_put dest source nelems pe w s;
  Ok (call (HWin_flush_local pe (win_handle w)) s).
Definition getmem (dest source nelems pe : Z) (w : HostContextWindowInfo) (s : HostInterface)
    : result HostInterface :=
  s ← initiate_get dest source nelems pe w s;
  Ok (calls [HWin_flush_local pe (win_handle w); HHdp_flush] s).

(** The typed versions; [sz] is [sizeof(T)], [value] and [ret] the addresses of
    the host variables. *)
Definition p (sz dest value pe : Z) := putmem dest value sz pe.
Definition put (sz dest source nelems pe : Z) := putmem dest source (u64 (sz * nelems)) pe.
Definition put_nbi (sz dest source nelems pe : Z) := putmem_nbi dest source (u64 (sz * nelems)) pe.
Definition get (sz dest source nelems pe : Z) := getmem dest source (u64 (sz * nelems)) pe.
Definition get_nbi (sz dest source nelems pe : Z) := getmem_nbi dest source (u64 (sz * nelems)) pe.
Definition g (sz ret source pe : Z) (w : HostContextWindowInfo) (s : HostInterface) : result HostInterface :=
  s ← getmem_nbi ret source sz pe w s;
  Ok (call (HWin_flush_local pe (win_handle w)) s).

Definition flush_remote_hdp (pe : Z) (s : HostInterface) : HostInterface :=
  calls [HHdp_put HDP_FLUSH_VAL pe; HHdp_win_flush pe] s.
Definition flush_remote_hdps (s : HostInterface) : HostInterface :=
  call HHdp_win_flush_all
    (calls (concat ((λ i, if i =? my_pe_ s then [] else [HHdp_put HDP_FLUSH_VAL i]) <$> seqZ 0 (num_pes_ s))) s).

Definition amo_fetch_add (dst value cond pe : Z) (w : HostContextWindowInfo) (s : HostInterface)
    : result HostInterface :=
  offset ← compute_offset dst (window_info_ w);
  let s := flush_remote_hdp pe s in
  Ok (calls [HFetch_and_op value (Some MPI_SUM) pe offset (win_handle w);
             HWin_flush_local pe (win_handle w)] s).
Definition amo_fetch_cas (dst value cond pe : Z) (w : HostContextWindowInfo) (s : HostInterface)
    : result HostInterface :=
  offset ← compute_offset dst (window_info_ w);
  let s := flush_remote_hdp pe s in
  Ok (calls [HCompare_and_swap value cond pe offset (win_handle w);
             HWin_flush_local pe (win_handle w)] s).
Definition amo_add := amo_fetch_add.
Definition amo_cas := amo_fetch_cas.

Definition fence (w : HostContextWindowInfo) (s : HostInterface) : HostInterface :=
  flush_remote_hdps (call HHdp_flush (complete_all (win_handle w) s)).
Definition quiet (w : HostContextWindowInfo) (s : HostInterface) : HostInterface :=
  flush_remote_hdps (call HHdp_flush (complete_all (win_handle w) s)).
Definition sync_all (w : HostContextWindowInfo) (s : HostInterface) : HostInterface :=
  calls [HWin_sync (win_handle w); HHdp_flush; HBarrier (host_comm_world_ W)] s.
Definition barrier_all (w : HostContextWindowInfo) (s : HostInterface) : HostInterface :=
  calls [HHdp_flush; HBarrier (host_comm_world_ W)] (complete_all (win_handle w) s).
Definition barrier_for_sync (s : HostInterface) : HostInterface := call (HBarrier (host_comm_world_ W)) s.
End operations.

(** ** Communicators of active sets *)

Section collectives.
Context (W : world).

(** The new communicator has a handle that depends on when it is made.  With a
    size that is not positive the first rank is written outside the array. *)
Definition get_mpi_comm (pe_start log_pe_stride pe_size : Z) (s : HostInterface)
    : result (Z * HostInterface) :=
  if (pe_start =? 0) && (log_pe_stride =? 0) && (pe_size =? w_size W) then Ok (host_comm_world_ W, s)
  else
    let key := (pe_start, log_pe_stride, pe_size) in
    match hcomm_map s !! key with
    | Some comm => Ok (comm, s)
    | None =>
        if pe_size <=? 0 then Fail BadAccess
        else
          let stride := s32 (Z.shiftl 1 log_pe_stride) in
          let active_set_ranks := group_ranks (Z.to_nat pe_size) pe_start stride in
          let comm := new_comm_handle W (length (hlog s)) in
          let s := call (HComm_create_group active_set_ranks) s in
          Ok (comm, mkHost (my_pe_ s) (num_pes_ s) (host_window_context_pool_ s)
                      (<[key := comm]> (hcomm_map s)) (hlog s))
    end.

(** ** Broadcast and reduction *)

Definition broadcast_internal (sz mpi_comm dest source nelems pe_root : Z) (s : HostInterface) : HostInterface :=
  let active_set_rank := MPI_Comm_rank W mpi_comm in
  let buffer := if pe_root =? active_set_rank then source else dest in
  calls [HHdp_flush; HBcast buffer (s32 (nelems * sz)) pe_root mpi_comm] s.

(** For an active set, and for a team with its communicator. *)
Definition broadcast (sz dest source nelems pe_root pe_start log_pe_stride pe_size : Z) (s : HostInterface)
    : result HostInterface :=
  '(mpi_comm, s) ← get_mpi_comm pe_start log_pe_stride pe_size s;
  Ok (broadcast_internal sz mpi_comm dest source nelems pe_root s).
Definition team_broadcast (sz team_mpi_comm dest source nelems pe_root : Z) (s : HostInterface) : HostInterface :=
  broadcast_internal sz team_mpi_comm dest source nelems pe_root s.

Definition get_mpi_op (Op : ROC_SHMEM_OP) : MPI_Op :=
  match Op with
  | ROC_SHMEM_SUM => MPI_SUM
  | ROC_SHMEM_MAX => MPI_MAX
  | ROC_SHMEM_MIN => MPI_MIN
  | ROC_SHMEM_PROD => MPI_PROD
  | ROC_SHMEM_AND => MPI_BAND
  | ROC_SHMEM_OR => MPI_BOR
  | ROC_SHMEM_XOR => MPI_BXOR
  end.

Definition to_all_internal (mpi_comm dest source nreduce : Z) (mpi_type : MPI_Datatype) (Op : ROC_SHMEM_OP)
    (s : HostInterface) : HostInterface :=
  calls [HHdp_flush; HAllreduce (dest =? source) source dest nreduce mpi_type (get_mpi_op Op) mpi_comm] s.

Definition to_all (dest source nreduce pe_start log_pe_stride pe_size : Z) (mpi_type : MPI_Datatype)
    (Op : ROC_SHMEM_OP) (s : HostInterface) : result HostInterface :=
  '(mpi_comm, s) ← get_mpi_comm pe_start log_pe_stride pe_size s;
  Ok (to_all_internal mpi_comm dest source nreduce mpi_type Op s).
Definition team_to_all (team_mpi_comm dest source nreduce : Z) (mpi_type : MPI_Datatype) (Op : ROC_SHMEM_OP)
    (s : HostInterface) : HostInterface :=
  to_all_internal team_mpi_comm dest source nreduce mpi_type Op s.

(** ** Waiting for a value *)

(** [enum roc_shmem_cmps]. *)
Definition ROC_SHMEM_CMP_EQ : Z := 0.
Definition ROC_SHMEM_CMP_NE : Z := 1.
Definition ROC_SHMEM_CMP_GT : Z := 2.
Definition ROC_SHMEM_CMP_GE : Z := 3.
Definition ROC_SHMEM_CMP_LT : Z := 4.
Definition ROC_SHMEM_CMP_LE : Z := 5.

Definition compare (cmp input_val target_val : Z) : result Z :=
  let int_of (b : bool) := if b then 1 else 0 in
  if cmp =? ROC_SHMEM_CMP_EQ then Ok (int_of (input_val =? target_val))
  else if cmp =? ROC_SHMEM_CMP_NE then Ok (int_of (negb (input_val =? target_val)))
  else if cmp =? ROC_SHMEM_CMP_GT then Ok (int_of (target_val <? input_val))
  else if cmp =? ROC_SHMEM_CMP_GE then Ok (int_of (target_val <=? input_val))
  else if cmp =? ROC_SHMEM_CMP_LT then Ok (int_of (input_val <? target_val))
  else if cmp =? ROC_SHMEM_CMP_LE then Ok (int_of (input_val <=? target_val))
  else
    _ ← assert_ ((ROC_SHMEM_CMP_EQ <=? cmp) && (cmp <=? ROC_SHMEM_CMP_LE));
    Ok 0.

(** [fetched_val] is what MPI fetches from the own window. *)
Definition test_and_compare (offset cmp val win fetched_val : Z) (s : HostInterface)
    : result (Z * HostInterface) :=
  let s := calls [HHdp_flush; HFetch_and_op 0 None (my_pe_ s) offset win; HWin_flush_local (my_pe_ s) win] s in
  cond_satisfied ← compare cmp fetched_val val;
  Ok (cond_satisfied, s).

Definition test (ptr cmp val : Z) (w : HostContextWindowInfo) (fetched_val : Z) (s : HostInterface)
    : result (Z * HostInterface) :=
  offset ← compute_offset W ptr (window_info_ w);
  test_and_compare offset cmp val (win_handle w) fetched_val s.

(** [values] are what the rounds of the loop fetch; it goes on when they are
    used up. *)
Fixpoint wait_loop (offset cmp val win : Z) (values : list Z) (s : HostInterface) : result HostInterface :=
  match values with
  | [] => Fail OutOfFuel
  | v :: values' =>
      '(cond_satisfied, s) ← test_and_compare offset cmp val win v s;
      if negb (cond_satisfied =? 0) then Ok s else wait_loop offset cmp val win values' s
  end.
Definition wait_until (ptr cmp val : Z) (w : HostContextWindowInfo) (values : list Z) (s : HostInterface)
    : result HostInterface :=
  offset ← compute_offset W ptr (window_info_ w);
  wait_loop offset cmp val (win_handle w) values s.
End collectives.

(** ** What is still going on *)

(** The target and the window of a one-sided call. *)
Definition rma_target (c : host_call) : option (Z * Z) :=
  match c with
  | HPut _ _ pe _ win | HGet _ _ pe _ win | HFetch_and_op _ _ pe _ win | HCompare_and_swap _ _ pe _ win =>
      Some (pe, win)
  | _ => None
  end.

(** After a call, the one-sided calls whose local buffers are in use, and those
    that may not have taken effect at the target: as the MPI standard has it,
    [MPI_Win_flush_local] ends the first for its target, [MPI_Win_flush_all] both
    for its window. *)
Definition local_after (pending : list host_call) (c : host_call) : list host_call :=
  match c with
  | HWin_flush_local pe win => filter (λ x, rma_target x ≠ Some (pe, win)) pending
  | HWin_flush_all win => filter (λ x, snd <$> rma_target x ≠ Some win) pending
  | _ => match rma_target c with Some _ => pending ++ [c] | None => pending end
  end.
Definition remote_after (pending : list host_call) (c : host_call) : list host_call :=
  match c with
  | HWin_flush_all win => filter (λ x, snd <$> rma_target x ≠ Some win) pending
  | _ => match rma_target c with Some _ => pending ++ [c] | None => pending end
  end.

(** The target and the window of a call that writes the target's memory. *)
Definition write_target (c : host_call) : option (Z * Z) :=
  match c with
  | HGet _ _ _ _ _ | HFetch_and_op _ None _ _ _ => None
  | _ => rma_target c
  end.

(** The processes that calls of [pending] on the window [win] write. *)
Definition written (win : Z) (pending : list host_call) : list Z :=
  omap (λ c, match write_target c with
             | Some (pe, w) => if w =? win then Some pe else None
             | None => None
             end) pending.

(** Writes arrive through the HDP of the target, which holds them back until it
    is flushed.  Beside the calls that may not have taken effect, these are the
    processes that have been written since their HDP was last flushed, and those
    of which a flush was asked since they were last written, a write of the
    flush register that has not been waited for.  [HHdp_flush] flushes the HDP
    of the calling process, [me]. *)
Record hdp_state := mkHdpState {
  started : list host_call;
  unflushed : list Z;
  asked : list Z
}.

Definition hdp_after (me : Z) (h : hdp_state) (c : host_call) : hdp_state :=
  let started' := remote_after (started h) c in
  match c with
  | HWin_flush_all win =>
      let now := written win (started h) in
      mkHdpState started' (unflushed h ++ now) (filter (.∉ now) (asked h))
  | HHdp_flush => mkHdpState started' (filter (.≠ me) (unflushed h)) (asked h)
  | HHdp_put _ pe => mkHdpState started' (unflushed h) (asked h ++ [pe])
  | HHdp_win_flush pe =>
      mkHdpState started' (filter (λ x, x = pe → x ∉ asked h) (unflushed h)) (filter (.≠ pe) (asked h))
  | HHdp_win_flush_all => mkHdpState started' (filter (.∉ asked h) (unflushed h)) []
  | _ => mkHdpState started' (unflushed h) (asked h)
  end.

Definition hdp_of (s : HostInterface) : hdp_state :=
  foldl (hdp_after (my_pe_ s)) (mkHdpState [] [] []) (hlog s).

(** No flush has been asked for that was not waited for. *)
Definition settled (s : HostInterface) : Prop := asked (hdp_of s) = [].

Definition local_pending (s : HostInterface) : list host_call := foldl local_after [] (hlog s).
Definition remote_pending (s : HostInterface) : list host_call := foldl remote_after [] (hlog s).

(** ** Logs *)

Lemma hlog_calls l s : hlog (calls l s) = hlog s ++ l.
Proof.
  revert s. induction l as [|c l IH]; intros s; [by rewrite app_nil_r|].
  change (calls (c :: l) s) with (calls l (call c s)). rewrite IH. cbn. by rewrite <- app_assoc.
Qed.

(** The calls of an operation. *)
Definition adds (l : list host_call) (s s' : HostInterface) : Prop :=
  hlog s' = hlog s ++ l ∧ my_pe_ s' = my_pe_ s ∧ num_pes_ s' = num_pes_ s ∧
  host_window_context_pool_ s' = host_window_context_pool_ s ∧ hcomm_map s' = hcomm_map s.

Lemma adds_calls l s : adds l s (calls l s).
Proof.
  split; [apply hlog_calls|]. revert s. induction l as [|c l IH]; intros s; [done|].
  change (calls (c :: l) s) with (calls l (call c s)).
  destruct (IH (call c s)) as (-> & -> & -> & ->). done.
Qed.

Lemma adds_trans l1 l2 s1 s2 s3 : adds l1 s1 s2 → adds l2 s2 s3 → adds (l1 ++ l2) s1 s3.
Proof. intros (E1 & ? & ? & ? & ?) (E2 & ? & ? & ? & ?). split_and!; [by rewrite E2, E1, app_assoc|congruence..]. Qed.

Lemma adds_pending l s s' :
  adds l s s' →
  local_pending s' = foldl local_after (local_pending s) l ∧
  remote_pending s' = foldl remote_after (remote_pending s) l.
Proof. intros (E & _). unfold local_pending, remote_pending. by rewrite E, !foldl_app. Qed.

(** Calls that start nothing and complete nothing. *)
Definition neutral (c : host_call) : bool :=
  match c with
  | HPut _ _ _ _ _ | HGet _ _ _ _ _ | HFetch_and_op _ _ _ _ _ | HCompare_and_swap _ _ _ _ _
  | HWin_flush_local _ _ | HWin_flush_all _ => false
  | _ => true
  end.

Lemma neutral_after l lp rp :
  forallb neutral l = true → foldl local_after lp l = lp ∧ foldl remote_after rp l = rp.
Proof.
  induction l as [|c l IH]; intros H; [done|]. cbn in H. apply andb_true_iff in H as [Hc Hl].
  cbn. by destruct c; cbn in Hc; try done; apply IH.
Qed.

(** The writes of the flush registers. *)
Definition hdp_puts (me n : Z) : list host_call :=
  concat ((λ i, if i =? me then [] else [HHdp_put HDP_FLUSH_VAL i]) <$> seqZ 0 n).

Lemma hdp_puts_neutral me n : forallb neutral (hdp_puts me n) = true.
Proof.
  apply forallb_forall. intros c Hc.
  apply in_concat in Hc as (l & Hl & Hc). apply list_elem_of_In, list_elem_of_fmap in Hl as (i & -> & _).
  destruct (i =? me); cbn in Hc; [done|]. by destruct Hc as [<-|].
Qed.

Lemma hdps_log s :
  adds (hdp_puts (my_pe_ s) (num_pes_ s) ++ [HHdp_win_flush_all]) s (flush_remote_hdps s).
Proof. eapply adds_trans; [apply adds_calls|]. apply (adds_calls [HHdp_win_flush_all]). Qed.

Lemma hdps_neutral s : ∃ l, adds l s (flush_remote_hdps s) ∧ forallb neutral l = true.
Proof. eexists. split; [apply hdps_log|]. by rewrite forallb_app, hdp_puts_neutral. Qed.

(** They ask for a flush of all processes but the own one. *)
Lemma hdp_after_puts me n h :
  foldl (hdp_after me) h (hdp_puts me n) =
  mkHdpState (started h) (unflushed h) (asked h ++ filter (.≠ me) (seqZ 0 n)).
Proof.
  unfold hdp_puts. generalize (seqZ 0 n) as l. intros l. revert h.
  induction l as [|i l IH]; intros [st un ask]; cbn [fmap list_fmap concat].
  - cbn. by rewrite app_nil_r.
  - rewrite foldl_app, IH, filter_cons. destruct (Z.eqb_spec i me).
    + by rewrite decide_False by tauto.
    + rewrite decide_True by done. cbn. by rewrite <- app_assoc.
Qed.

Lemma started_pending s : started (hdp_of s) = remote_pending s.
Proof.
  unfold hdp_of, remote_pending. change (@nil host_call) with (started (mkHdpState [] [] [])) at 2.
  generalize (mkHdpState [] [] []) as h. induction (hlog s) as [|c l IH]; intros h; [done|].
  cbn [foldl]. rewrite IH. f_equal. by destruct c.
Qed.

(** ** Addresses and completion *)

Section host_theorems.
Context (W : world).
(** The difference of two addresses is what the MPI calls compute. *)
Context (Aint_diff_spec : ∀ a b, 0 ≤ b ≤ a → a - b < 2 ^ 63 →
  w_Aint_diff W (w_Get_address W a) (w_Get_address W b) = a - b).

Lemma compute_offset_spec start size a :
  0 < start → 0 ≤ size < 2 ^ 63 → start + size < 2 ^ 64 →
  compute_offset W a (WindowInfo_new start size) =
  if (start <=? a) && (a <? start + size) then Ok (a - start) else Fail AssertFailed.
Proof using Aint_diff_spec.
  intros Hs He H63. unfold compute_offset, WindowInfo_new. cbn [win_start_ win_end_].
  rewrite uwrap_small by lia. destruct (Z.leb_spec start a), (Z.ltb_spec a (start + size)); cbn [andb];
    try done. cbn. by rewrite Aint_diff_spec by lia.
Qed.

(** The operations that start one transfer, with the local address, the remote
    one and the size. *)
Inductive transfer :=
  | TPutmem | TGetmem | TPutmem_nbi | TGetmem_nbi | TG | TFetch_add (value : Z) | TFetch_cas (value cond : Z).

Definition blocking (t : transfer) : bool :=
  match t with TPutmem_nbi | TGetmem_nbi => false | _ => true end.

Definition start_transfer (t : transfer) (local remote size pe : Z) (w : HostContextWindowInfo)
    (s : HostInterface) : result HostInterface :=
  match t with
  | TPutmem => putmem W remote local size pe w s
  | TPutmem_nbi => putmem_nbi W remote local size pe w s
  | TGetmem => getmem W local remote size pe w s
  | TGetmem_nbi => getmem_nbi W local remote size pe w s
  | TG => g W size local remote pe w s
  | TFetch_add value => amo_fetch_add W remote value 0 pe w s
  | TFetch_cas value cond => amo_fetch_cas W remote value cond pe w s
  end.

(** The MPI call that the transfer should be. *)
Definition meant (t : transfer) (local disp size pe win : Z) : host_call :=
  match t with
  | TPutmem | TPutmem_nbi => HPut local size pe disp win
  | TGetmem | TGetmem_nbi | TG => HGet local size pe disp win
  | TFetch_add value => HFetch_and_op value (Some MPI_SUM) pe disp win
  | TFetch_cas value cond => HCompare_and_swap value cond pe disp win
  end.

Lemma filter_target_app (lp : list host_call) c pe win :
  rma_target c = Some (pe, win) →
  filter (λ x, rma_target x ≠ Some (pe, win)) (lp ++ [c]) = filter (λ x, rma_target x ≠ Some (pe, win)) lp.
Proof.
  intros Hc. rewrite filter_app, filter_cons_False by tauto. by rewrite app_nil_r.
Qed.

(** The calls of a transfer: it starts the one meant with its count as an [int], and a blocking one waits. *)
Lemma transfer_log t local remote size pe w s start wsize :
  0 < start → 0 ≤ wsize < 2 ^ 63 → start + wsize < 2 ^ 64 → window_info_ w = WindowInfo_new start wsize →
  start ≤ remote < start + wsize →
  ∃ s' l1 l2, start_transfer t local remote size pe w s = Ok s' ∧
    adds (l1 ++ meant t local (remote - start) (s32 size) pe (win_handle w) ::
            (if blocking t then [HWin_flush_local pe (win_handle w)] else []) ++ l2) s s' ∧
    forallb neutral (l1 ++ l2) = true.
Proof using Aint_diff_spec.
  intros Hs Hw1 Hw2 Ew Hr.
  assert (compute_offset W remote (window_info_ w) = Ok (remote - start)) as Eo.
  { rewrite Ew, compute_offset_spec by done. rewrite (proj2 (andb_true_iff _ _)); [done|].
    rewrite Z.leb_le, Z.ltb_lt. lia. }
  destruct t; cbn [start_transfer];
    unfold g, putmem, putmem_nbi, getmem, getmem_nbi, amo_fetch_add, amo_fetch_cas, initiate_put,
      initiate_get; rewrite Eo; cbn [mbind result_bind].
  - eexists _, [HHdp_flush], []. split; [done|]. split; [apply (adds_calls [_; _; _])|done].
  - eexists _, [], [HHdp_flush]. split; [done|]. split; [apply (adds_calls [_; _; _])|done].
  - eexists _, [HHdp_flush], []. split; [done|]. split; [apply (adds_calls [_; _])|done].
  - eexists _, [], []. split; [done|]. split; [apply (adds_calls [_])|done].
  - eexists _, [], []. split; [done|]. split; [apply (adds_calls [_; _])|done].
  - eexists _, [_; _], []. split; [done|]. split; [apply (adds_calls [_; _; _; _])|done].
  - eexists _, [_; _], []. split; [done|]. split; [apply (adds_calls [_; _; _; _])|done].
Qed.

(** C39: A transfer of the host interface with an address outside of the window
    fails its assertion; with one inside it returns and starts exactly one one-sided
    call, at the distance of the address from the start of the window.  It is the
    call that is meant for a size up to [INT_MAX]; a larger size reaches the [int]
    count of the MPI call as a different number, its low 32 bits taken as signed.
    The call is added to those that may not have taken effect at the target; and a
    blocking one leaves nothing with its target and window whose local buffers
    are in use, and the rest as it was. *)
Theorem host_transfer t local remote size pe w s start wsize :
  0 < start → 0 ≤ wsize < 2 ^ 63 → start + wsize < 2 ^ 64 → window_info_ w = WindowInfo_new start wsize →
  0 ≤ size < 2 ^ 64 →
  if (start <=? remote) && (remote <? start + wsize) then
    ∃ s' c, start_transfer t local remote size pe w s = Ok s' ∧
      (size ≤ INT_MAX → c = meant t local (remote - start) size pe (win_handle w)) ∧
      (INT_MAX < size → c = meant t local (remote - start) (s32 size) pe (win_handle w) ∧ s32 size ≠ size) ∧
      omap (λ x, rma_target x ≫= λ _, Some x) (drop (length (hlog s)) (hlog s')) = [c] ∧
      remote_pending s' = remote_pending s ++ [c] ∧
      local_pending s' =
        (if blocking t then filter (λ x, rma_target x ≠ Some (pe, win_handle w)) (local_pending s)
         else local_pending s ++ [c])
  else start_transfer t local remote size pe w s = Fail AssertFailed.
Proof using Aint_diff_spec.
  intros Hs Hw1 Hw2 Ew Hsz. case_if.
  - apply andb_true_iff in Heqb as [?%Z.leb_le ?%Z.ltb_lt].
    set (c := meant t local (remote - start) (s32 size) pe (win_handle w)).
    destruct (transfer_log t local remote size pe w s start wsize Hs Hw1 Hw2 Ew ltac:(lia))
      as (s' & l1 & l2 & E & Ha & Hn). exists s', c. split; [done|].
    rewrite forallb_app in Hn. apply andb_true_iff in Hn as [H1 H2]. fold c in Ha.
    assert (rma_target c = Some (pe, win_handle w)) as Hc by (by destruct t).
    assert (∀ l, forallb neutral l = true → omap (λ x, rma_target x ≫= λ _, Some x) l = []) as Homap.
    { induction l as [|x l IH]; [done|]. cbn. intros [Hx Hl]%andb_true_iff. destruct x; cbn in *; try done; by apply IH. }
    split_and!.
    + intros ?. unfold c. by rewrite s32_small by (unfold INT_MIN, INT_MAX in *; lia).
    + intros ?. split; [done|]. rewrite s32_id_iff. lia.
    + destruct Ha as (-> & _). rewrite drop_app_length, omap_app, Homap by done. cbn [app omap list_omap].
      rewrite Hc. cbn. f_equal. rewrite omap_app, (Homap l2) by done. by destruct (blocking t).
    + destruct (adds_pending _ _ _ Ha) as [_ ->]. rewrite foldl_app. cbn [foldl].
      rewrite (proj2 (neutral_after l1 [] _ H1)), foldl_app.
      replace (remote_after (remote_pending s) c) with (remote_pending s ++ [c]) by (by destruct t).
      replace (foldl remote_after _ (if blocking t then _ else _)) with (remote_pending s ++ [c]) by (by destruct (blocking t)).
      apply (proj2 (neutral_after l2 [] _ H2)).
    + destruct (adds_pending _ _ _ Ha) as [-> _]. rewrite foldl_app. cbn [foldl].
      rewrite (proj1 (neutral_after l1 _ [] H1)), foldl_app.
      replace (local_after (local_pending s) c) with (local_pending s ++ [c]) by (by destruct t).
      destruct (blocking t); cbn [foldl local_after]; rewrite (proj1 (neutral_after l2 _ [] H2)); [|done].
      by apply filter_target_app.
  - assert (compute_offset W remote (window_info_ w) = Fail AssertFailed) as Eo
      by (rewrite Ew, compute_offset_spec, Heqb by done; done).
    destruct t; cbn [start_transfer];
      unfold g, putmem, putmem_nbi, getmem, getmem_nbi, amo_fetch_add, amo_fetch_cas, initiate_put, initiate_get;
      rewrite Eo; done.
Qed.

(** The operations that complete what a context has started. *)
Inductive completion := CQuiet | CFence | CBarrier_all.

Definition complete (o : completion) (w : HostContextWindowInfo) (s : HostInterface) : HostInterface :=
  match o with CQuiet => quiet w s | CFence => fence w s | CBarrier_all => barrier_all W w s end.

(** The processes whose HDPs the operation flushes with its own: those below
    [num_pes_], or none in a barrier. *)
Definition flushes (o : completion) (s : HostInterface) (pe : Z) : Prop :=
  match o with CQuiet | CFence => 0 ≤ pe < num_pes_ s | CBarrier_all => False end.

(** The calls of the three operations. *)
Lemma complete_log o w s :
  adds (HWin_flush_all (win_handle w) :: HWin_sync (win_handle w) :: HHdp_flush ::
    match o with
    | CBarrier_all => [HBarrier (host_comm_world_ W)]
    | _ => hdp_puts (my_pe_ s) (num_pes_ s) ++ [HHdp_win_flush_all]
    end) s (complete o w s).
Proof.
  assert (adds (HWin_flush_all (win_handle w) :: HWin_sync (win_handle w) :: HHdp_flush ::
            hdp_puts (my_pe_ s) (num_pes_ s) ++ [HHdp_win_flush_all]) s
          (flush_remote_hdps (call HHdp_flush (complete_all (win_handle w) s)))) as Hq.
  { eapply (adds_trans [_; _; _]); [apply (adds_calls [_; _; _])|].
    exact (hdps_log (call HHdp_flush (complete_all (win_handle w) s))). }
  destruct o; [exact Hq|exact Hq|apply (adds_calls [_; _; _; _])].
Qed.

Lemma neutral_complete (o : completion) me n comm :
  forallb neutral match o with CBarrier_all => [HBarrier comm] | _ => hdp_puts me n ++ [HHdp_win_flush_all] end = true.
Proof. destruct o; try done; rewrite forallb_app, hdp_puts_neutral; done. Qed.

(** What the HDPs hold back after them. *)
Lemma complete_hdp o w s :
  settled s →
  settled (complete o w s) ∧
  ∀ pe, pe ∈ unflushed (hdp_of (complete o w s)) ↔
    (pe ∈ unflushed (hdp_of s) ∨ pe ∈ written (win_handle w) (remote_pending s)) ∧
    pe ≠ my_pe_ s ∧ ¬ flushes o s pe.
Proof.
  unfold settled. intros Hset. destruct (complete_log o w s) as (E & Eme & _).
  unfold hdp_of at 1 2. rewrite E, Eme, foldl_app. fold (hdp_of s). rewrite <- started_pending.
  destruct (hdp_of s) as [st un ask]. cbn in Hset. subst ask.
  destruct o; cbn [foldl hdp_after started unflushed asked flushes];
    rewrite ?foldl_app, ?hdp_after_puts; cbn [foldl hdp_after started unflushed asked];
    (split; [done|]); intros pe;
    rewrite ?list_elem_of_filter, ?elem_of_app, ?list_elem_of_filter, ?elem_of_seqZ, ?elem_of_nil, ?Z.add_0_l;
    tauto.
Qed.

(** A fresh interface is settled, and transfers keep it so: they wait for the
    flushes that they ask for. *)
Lemma settled_new max base size : settled (HostInterface_new W max base size).
Proof. done. Qed.

Lemma settled_transfer t local remote size pe w s s' :
  settled s → start_transfer t local remote size pe w s = Ok s' → settled s'.
Proof.
  unfold settled. intros Hset. assert (filter (.≠ pe) [pe] = []) as Hf.
  { rewrite filter_cons_False by tauto. done. }
  assert (∀ l, hdp_of (calls l s) = foldl (hdp_after (my_pe_ s)) (hdp_of s) l) as Hc.
  { intros l. unfold hdp_of. destruct (adds_calls l s) as (-> & -> & _). apply foldl_app. }
  destruct t; cbn [start_transfer];
    unfold g, putmem, putmem_nbi, getmem, getmem_nbi, amo_fetch_add, amo_fetch_cas, initiate_put, initiate_get;
    destruct (compute_offset W remote (window_info_ w)) as [off|]; try done; cbn [mbind result_bind]; intros [= <-].
  1: refine (eq_trans (f_equal asked (Hc [HHdp_flush; _; _])) _); exact Hset.
  1: refine (eq_trans (f_equal asked (Hc [_; _; HHdp_flush])) _); exact Hset.
  1: refine (eq_trans (f_equal asked (Hc [HHdp_flush; _])) _); exact Hset.
  1: refine (eq_trans (f_equal asked (Hc [_])) _); exact Hset.
  1: refine (eq_trans (f_equal asked (Hc [_; _])) _); exact Hset.
  all: refine (eq_trans (f_equal asked (Hc [_; _; _; _])) _); cbn [foldl hdp_after asked]; by rewrite Hset.
Qed.

(** C29: After a quiet, a fence or a barrier of a context, whatever was started
    before: nothing that was started on its window is still under way in MPI, at the
    target or in its local buffers, and what was started on other windows is as it
    was.  Of the processes that were written since their HDP was last flushed, those
    whose HDP may still hold writes back are, after a quiet or a fence, the ones from rank
    [num_pes_] on - which the constructor sets to the rank of the calling process -,
    and after a barrier, which flushes only the own HDP, all but the calling one. *)
Theorem host_quiet_completes o w s :
  settled s →
  let s' := complete o w s in
  remote_pending s' = filter (λ x, snd <$> rma_target x ≠ Some (win_handle w)) (remote_pending s) ∧
  local_pending s' = filter (λ x, snd <$> rma_target x ≠ Some (win_handle w)) (local_pending s) ∧
  settled s' ∧
  ∀ pe, pe ∈ unflushed (hdp_of s') ↔
    (pe ∈ unflushed (hdp_of s) ∨ pe ∈ written (win_handle w) (remote_pending s)) ∧
    pe ≠ my_pe_ s ∧ ¬ flushes o s pe.
Proof.
  intros Hset s'. destruct (adds_pending _ _ _ (complete_log o w s)) as [El Er].
  pose proof (neutral_complete o (my_pe_ s) (num_pes_ s) (host_comm_world_ W)) as Hn.
  split; [|split; [|split]].
  - unfold s'. rewrite Er. exact (proj2 (neutral_after _ [] (remote_after (remote_pending s) (HWin_flush_all (win_handle w))) Hn)).
  - unfold s'. rewrite El. exact (proj1 (neutral_after _ (local_after (local_pending s) (HWin_flush_all (win_handle w))) [] Hn)).
  - by apply complete_hdp.
  - by apply complete_hdp.
Qed.

(** *** Flushing the HDPs of the others *)

(** The processes whose HDP is flushed by a list of calls. *)
Definition hdps (l : list host_call) : list Z :=
  omap (λ c, match c with HHdp_put _ pe => Some pe | _ => None end) l.

Lemma hdps_loop me l :
  hdps (concat ((λ i, if i =? me then [] else [HHdp_put HDP_FLUSH_VAL i]) <$> l)) = filter (.≠ me) l.
Proof.
  induction l as [|i l IH]; [done|]. cbn [fmap list_fmap concat]. unfold hdps. rewrite omap_app, filter_cons.
  destruct (Z.eqb_spec i me); [by rewrite decide_False by tauto|]. rewrite decide_True by done. cbn. by f_equal.
Qed.

Lemma hdps_quiet w s : hdps (hlog (quiet w s)) = hdps (hlog s) ++ filter (.≠ my_pe_ s) (seqZ 0 (num_pes_ s)).
Proof.
  unfold quiet, flush_remote_hdps. cbn [hlog call]. rewrite hlog_calls. unfold hdps at 1. rewrite !omap_app.
  unfold complete_all. cbn [call hlog]. rewrite hlog_calls, !omap_app. cbn [omap list_omap]. rewrite !app_nil_r.
  f_equal. apply hdps_loop.
Qed.

(** A quiet of a fresh interface flushes the HDPs of the processes with a lower
    rank only, and none when it is process zero: the constructor sets [num_pes_]
    by [MPI_Comm_rank]. *)
Theorem remote_hdps_flushed max base size w :
  hdps (hlog (quiet w (HostInterface_new W max base size))) = seqZ 0 (w_rank W).
Proof.
  rewrite hdps_quiet. cbn [HostInterface_new hlog my_pe_ num_pes_ hdps omap list_omap app].
  assert (∀ i, i ∈ seqZ 0 (w_rank W) → i ≠ w_rank W) as Hne by (intros i Hi%elem_of_seqZ; lia).
  revert Hne. generalize (seqZ 0 (w_rank W)) as l. induction l as [|i l IH]; intros Hne; [done|].
  rewrite filter_cons_True by set_solver. f_equal. apply IH. set_solver.
Qed.

(** *** Waiting *)

Definition holds (cmp a b : Z) : Prop :=
  (cmp = ROC_SHMEM_CMP_EQ ∧ a = b) ∨ (cmp = ROC_SHMEM_CMP_NE ∧ a ≠ b) ∨ (cmp = ROC_SHMEM_CMP_GT ∧ b < a) ∨
  (cmp = ROC_SHMEM_CMP_GE ∧ b ≤ a) ∨ (cmp = ROC_SHMEM_CMP_LT ∧ a < b) ∨ (cmp = ROC_SHMEM_CMP_LE ∧ a ≤ b).

Lemma compare_spec cmp a b :
  ROC_SHMEM_CMP_EQ ≤ cmp ≤ ROC_SHMEM_CMP_LE →
  ∃ r, compare cmp a b = Ok r ∧ (r = 1 ∧ holds cmp a b ∨ r = 0 ∧ ¬ holds cmp a b).
Proof.
  unfold compare, holds, ROC_SHMEM_CMP_EQ, ROC_SHMEM_CMP_NE, ROC_SHMEM_CMP_GT, ROC_SHMEM_CMP_GE,
    ROC_SHMEM_CMP_LT, ROC_SHMEM_CMP_LE. intros Hc.
  assert (cmp = 0 ∨ cmp = 1 ∨ cmp = 2 ∨ cmp = 3 ∨ cmp = 4 ∨ cmp = 5) as Hor by lia.
  destruct Hor as [->|[->|[->|[->|[->| ->]]]]]; cbn [Z.eqb Pos.eqb]; eexists; (split; [reflexivity|]);
    match goal with |- context [if ?t then 1 else 0] => destruct t eqn:E end; lia.
Qed.

(** The loop stops at the first value that satisfies the comparison. *)
Lemma wait_loop_spec offset cmp val win before v after s :
  ROC_SHMEM_CMP_EQ ≤ cmp ≤ ROC_SHMEM_CMP_LE → Forall (λ x, ¬ holds cmp x val) before → holds cmp v val →
  ∃ s', wait_loop offset cmp val win (before ++ v :: after) s = Ok s' ∧
    length (hlog s') = (length (hlog s) + 3 * S (length before))%nat.
Proof.
  intros Hc Hb Hv. revert s. induction Hb as [|x before Hx Hb IH]; intros s; cbn [app wait_loop];
    unfold test_and_compare.
  - destruct (compare_spec cmp v val Hc) as (r & -> & [[-> _]|[_ ?]]); [|done]. cbn [mbind result_bind].
    cbn [Z.eqb negb]. eexists. split; [done|]. rewrite hlog_calls, length_app. cbn. lia.
  - destruct (compare_spec cmp x val Hc) as (r & -> & [[_ ?]|[-> _]]); [done|]. cbn [mbind result_bind].
    cbn [Z.eqb negb]. destruct (IH (calls [HHdp_flush; HFetch_and_op 0 None (my_pe_ s) offset win;
      HWin_flush_local (my_pe_ s) win] s)) as (s' & -> & E). exists s'. split; [done|].
    rewrite E, hlog_calls, length_app. cbn. lia.
Qed.

Lemma wait_loop_goes_on offset cmp val win values s :
  ROC_SHMEM_CMP_EQ ≤ cmp ≤ ROC_SHMEM_CMP_LE → Forall (λ x, ¬ holds cmp x val) values →
  wait_loop offset cmp val win values s = Fail OutOfFuel.
Proof.
  intros Hc Hb. revert s. induction Hb as [|x values Hx Hb IH]; intros s; [done|]. cbn [wait_loop].
  unfold test_and_compare. destruct (compare_spec cmp x val Hc) as (r & -> & [[_ ?]|[-> _]]); [done|].
  apply IH.
Qed.

(** [wait_until] returns exactly when a value that it fetches satisfies the
    comparison, with the first such value, and reads nothing after it; with a
    comparison that is not one of the six it fails its assertion. *)
Theorem wait_until_correct ptr cmp val w before v after s start wsize :
  0 < start → 0 ≤ wsize < 2 ^ 63 → start + wsize < 2 ^ 64 → window_info_ w = WindowInfo_new start wsize →
  start ≤ ptr < start + wsize → Forall (λ x, ¬ holds cmp x val) before →
  if (ROC_SHMEM_CMP_EQ <=? cmp) && (cmp <=? ROC_SHMEM_CMP_LE) then
    wait_until W ptr cmp val w before s = Fail OutOfFuel ∧
    (holds cmp v val → ∃ s', wait_until W ptr cmp val w (before ++ v :: after) s = Ok s' ∧
      length (hlog s') = (length (hlog s) + 3 * S (length before))%nat)
  else wait_until W ptr cmp val w (before ++ v :: after) s = Fail AssertFailed.
Proof using Aint_diff_spec.
  intros Hs Hw1 Hw2 Ew Hp Hb.
  assert (compute_offset W ptr (window_info_ w) = Ok (ptr - start)) as Eo.
  { rewrite Ew, compute_offset_spec by done. rewrite (proj2 (andb_true_iff _ _)); [done|].
    rewrite Z.leb_le, Z.ltb_lt. lia. }
  unfold wait_until. rewrite Eo. cbn [mbind result_bind]. case_if.
  - apply andb_true_iff in Heqb as [?%Z.leb_le ?%Z.leb_le].
    split; [by apply wait_loop_goes_on|]. intros Hv. by apply wait_loop_spec.
  - destruct before as [|x before]; cbn [app wait_loop]; unfold test_and_compare, compare;
      unfold ROC_SHMEM_CMP_EQ, ROC_SHMEM_CMP_NE, ROC_SHMEM_CMP_GT, ROC_SHMEM_CMP_GE, ROC_SHMEM_CMP_LT,
        ROC_SHMEM_CMP_LE in *;
      rewrite !(proj2 (Z.eqb_neq cmp _)) by lia; by rewrite Heqb.
Qed.
End host_theorems.

(** ** The pool of windows *)

Lemma find_avail_from_spec l i :
  match find_avail_from l i with
  | Ok k => ∃ j w, k = (i + j)%nat ∧ l !! j = Some w ∧ avail_ w = true
  | Fail f => f = AssertFailed ∧ Forall (λ w, avail_ w = false) l
  end.
Proof.
  revert i. induction l as [|w l IH]; intros i; [done|]. cbn. destruct (avail_ w) eqn:Ew.
  - exists 0%nat, w. rewrite Nat.add_0_r. done.
  - specialize (IH (S i)). destruct (find_avail_from l (S i)) as [k|f].
    + destruct IH as (j & w' & -> & Hj & Hw). exists (S j), w'. split; [lia|done].
    + destruct IH as [-> Hl]. split; [done|]. by constructor.
Qed.

Lemma find_win_from_spec h l i :
  match find_win_from h l i with
  | Ok k => ∃ j w, k = (i + j)%nat ∧ l !! j = Some w ∧ avail_ w = false ∧ win_handle w = h
  | Fail f => f = AssertFailed ∧ Forall (λ w, avail_ w = true ∨ win_handle w ≠ h) l
  end.
Proof.
  revert i. induction l as [|w l IH]; intros i; [done|]. cbn.
  assert (match find_win_from h l (S i) with
    | Ok k => ∃ j w', k = (i + j)%nat ∧ (w :: l) !! j = Some w' ∧ avail_ w' = false ∧ win_handle w' = h
    | Fail f => f = AssertFailed ∧ Forall (λ w, avail_ w = true ∨ win_handle w ≠ h) l end) as Hrest.
  { specialize (IH (S i)). destruct (find_win_from h l (S i)); [|done].
    destruct IH as (j & w' & -> & Hj). exists (S j), w'. split; [lia|done]. }
  destruct (avail_ w) eqn:Ew.
  - destruct (find_win_from h l (S i)); [done|]. destruct Hrest as [-> Hl]. split; [done|]. constructor; [by left|done].
  - destruct (Z.eqb_spec h (win_handle w)) as [->|Hne].
    + exists 0%nat, w. rewrite Nat.add_0_r. done.
    + destruct (find_win_from h l (S i)); [done|]. destruct Hrest as [-> Hl]. split; [done|].
      constructor; [right; congruence|done].
Qed.

(** Contexts of the program: the handles of those that it holds. *)
Inductive pool_op := Acquire | Release (handle : Z).

Fixpoint run_pool (ops : list pool_op) (s : HostInterface) (held : list Z) : result (HostInterface * list Z) :=
  match ops with
  | [] => Ok (s, held)
  | Acquire :: ops' => '(w, s) ← acquire_window_context s; run_pool ops' s (win_handle w :: held)
  | Release h :: ops' => s ← release_window_context h s; run_pool ops' s (filter (.≠ h) held)
  end.

Record pool_ok (n : Z) (win : WindowInfo) (s : HostInterface) (held : list Z) : Prop := {
  po_length : Z.of_nat (length (host_window_context_pool_ s)) = n;
  po_handle : ∀ j w, host_window_context_pool_ s !! j = Some w → win_handle w = Z.of_nat j ∧ window_info_ w = win;
  po_nodup : NoDup held;
  po_held : ∀ h, h ∈ held ↔ ∃ j w, host_window_context_pool_ s !! j = Some w ∧ win_handle w = h ∧ avail_ w = false
}.

Section pool.
Context (n : Z) (win : WindowInfo).

Lemma pool_ok_new W base size :
  0 ≤ n → win = WindowInfo_new base size → pool_ok n win (HostInterface_new W (Some n) base size) [].
Proof.
  intros Hn ->. split; cbn.
  - rewrite length_fmap, length_seqZ. lia.
  - intros j w. rewrite list_lookup_fmap. destruct (seqZ 0 n !! j) as [x|] eqn:E; [|done].
    apply lookup_seqZ in E as [-> _]. cbn. intros [= <-]. cbn. split; [lia|done].
  - constructor.
  - intros h. split; [by intros ?%not_elem_of_nil|]. intros (j & w & Hj & _ & Ha).
    rewrite list_lookup_fmap in Hj. destruct (seqZ 0 n !! j); [|done]. cbn in Hj. by simplify_eq.
Qed.

(** Changing the availability of one entry. *)
Lemma pool_ok_insert s held held' j w a :
  pool_ok n win s held → host_window_context_pool_ s !! j = Some w → NoDup held' →
  (∀ h, h ∈ held' ↔ (h = Z.of_nat j ∧ a = false) ∨ (h ≠ Z.of_nat j ∧ h ∈ held)) →
  pool_ok n win (set_pool (<[j := mkHCW a (win_handle w) (window_info_ w)]> (host_window_context_pool_ s)) s) held'.
Proof.
  intros [Hl Hh Hnd Hheld] Hj Hnd' Hheld'. destruct (Hh j w Hj) as [Ew Ei]. split; cbn.
  - by rewrite length_insert.
  - intros k w' Hk. apply list_lookup_insert_Some in Hk as [(<- & <- & _)|[_ Hk]]; [done|by apply Hh].
  - done.
  - intros h. rewrite Hheld'. split.
    + intros [[-> ->]|[Hne (k & w' & Hk & Ek & Ha)%Hheld]].
      * eexists j, _. split; [apply list_lookup_insert_eq; by eapply lookup_lt_Some|]. done.
      * exists k, w'. rewrite list_lookup_insert_ne; [done|]. destruct (Hh k w' Hk). congruence.
    + intros (k & w' & Hk & Ek & Ha). apply list_lookup_insert_Some in Hk as [(<- & <- & _)|[Hne Hk]]; cbn in *.
      * left. split; [congruence|done].
      * right. split; [|apply Hheld; eauto]. destruct (Hh k w' Hk) as [E _]. intros ->. lia.
Qed.

Lemma acquire_spec s held :
  pool_ok n win s held →
  match acquire_window_context s with
  | Ok (w, s') => win_handle w ∉ held ∧ 0 ≤ win_handle w < n ∧ window_info_ w = win ∧
      pool_ok n win s' (win_handle w :: held)
  | Fail f => f = AssertFailed ∧ n ≤ Z.of_nat (length held)
  end.
Proof.
  intros Hok. pose proof Hok as [Hl Hh Hnd Hheld]. unfold acquire_window_context, find_avail_pool_entry.
  pose proof (find_avail_from_spec (host_window_context_pool_ s) 0) as Hf.
  destruct (find_avail_from _ 0) as [k|f]; cbn [mbind result_bind].
  - destruct Hf as (j & w & -> & Hj & Ha). rewrite Nat.add_0_l, Hj. cbn.
    destruct (Hh j w Hj) as [Ew Ei]. apply lookup_lt_Some in Hj as Hlt.
    assert (win_handle w ∉ held) as Hni.
    { intros (k & w' & Hk & Ek & Ha')%Hheld. destruct (Hh k w' Hk). assert (k = j) as -> by lia. congruence. }
    split_and!; [done|lia|lia|done|].
    apply pool_ok_insert with held; [done|done|by constructor|]. intros h. rewrite elem_of_cons, Ew.
    destruct (decide (h = Z.of_nat j)); naive_solver.
  - destruct Hf as [-> Hall]. split; [done|]. rewrite <- Hl.
    assert (seqZ 0 (Z.of_nat (length (host_window_context_pool_ s))) ⊆+ held) as Hs.
    { apply NoDup_submseteq; [apply NoDup_seqZ|]. intros h Hh'%elem_of_seqZ. apply Hheld.
      destruct (lookup_lt_is_Some_2 (host_window_context_pool_ s) (Z.to_nat h)) as [w Hw]; [lia|].
      exists (Z.to_nat h), w. destruct (Hh _ _ Hw). split; [done|]. split; [lia|].
      rewrite Forall_lookup in Hall. by eapply Hall. }
    apply submseteq_length in Hs. rewrite length_seqZ in Hs. lia.
Qed.

Lemma release_spec h s held :
  pool_ok n win s held →
  match release_window_context h s with
  | Ok s' => h ∈ held ∧ pool_ok n win s' (filter (.≠ h) held)
  | Fail f => f = AssertFailed ∧ h ∉ held
  end.
Proof.
  intros Hok. pose proof Hok as [Hl Hh Hnd Hheld]. unfold release_window_context, find_win_info_in_pool.
  pose proof (find_win_from_spec h (host_window_context_pool_ s) 0) as Hf.
  destruct (find_win_from h _ 0) as [k|f]; cbn [mbind result_bind].
  - destruct Hf as (j & w & -> & Hj & Ha & Ew). rewrite Nat.add_0_l.
    destruct (Hh j w Hj) as [Ew' Ei]. split; [apply Hheld; eauto|].
    rewrite (alter_take_drop mark_avail _ _ _ Hj), <- (insert_take_drop _ _ (mark_avail w)) by by eapply lookup_lt_Some.
    apply pool_ok_insert with held; [done|done|by apply NoDup_filter|].
    intros h'. rewrite list_elem_of_filter. rewrite <- Ew, Ew'. naive_solver.
  - destruct Hf as [-> Hall]. split; [done|]. intros (j & w & Hj & Ew & Ha)%Hheld.
    rewrite Forall_lookup in Hall. destruct (Hall j w Hj); congruence.
Qed.

Lemma pool_ok_bound s held : 0 ≤ n → pool_ok n win s held → Z.of_nat (length held) ≤ n.
Proof.
  intros Hn [Hl Hh Hnd Hheld]. assert (held ⊆+ seqZ 0 n) as Hs.
  - apply NoDup_submseteq; [done|]. intros x (j & w & Hj & <- & _)%Hheld. destruct (Hh j w Hj) as [-> _].
    apply lookup_lt_Some in Hj. apply elem_of_seqZ. lia.
  - apply submseteq_length in Hs. rewrite length_seqZ in Hs. lia.
Qed.

Lemma run_pool_ok ops s held s' held' :
  pool_ok n win s held → run_pool ops s held = Ok (s', held') → pool_ok n win s' held'.
Proof.
  revert s held. induction ops as [|[|h] ops IH]; intros s held Hok H; cbn in H.
  - by injection H as <- <-.
  - pose proof (acquire_spec s held Hok) as Ha. destruct (acquire_window_context s) as [[w s1]|]; [|done].
    destruct Ha as (_ & _ & _ & Hok1). exact (IH _ _ Hok1 H).
  - pose proof (release_spec h s held Hok) as Ha. destruct (release_window_context h s) as [s1|]; [|done].
    destruct Ha as [_ Hok1]. exact (IH _ _ Hok1 H).
Qed.
End pool.

(** Windows of host contexts, after any sequence of acquisitions and releases
    from a fresh interface: the held windows are different; an acquisition returns a
    window that is not held, over the heap, while fewer than [n] are held, and fails
    its assertion otherwise; a release returns exactly for a window that is held. *)
Theorem windows_held_once W n base size ops s held h :
  0 ≤ n → run_pool ops (HostInterface_new W (Some n) base size) [] = Ok (s, held) →
  NoDup held ∧
  match acquire_window_context s with
  | Ok (w, _) => Z.of_nat (length held) < n ∧ win_handle w ∉ held ∧ window_info_ w = WindowInfo_new base size
  | Fail f => f = AssertFailed ∧ Z.of_nat (length held) = n
  end ∧
  match release_window_context h s with
  | Ok _ => h ∈ held
  | Fail f => f = AssertFailed ∧ h ∉ held
  end.
Proof.
  intros Hn Hr.
  pose proof (run_pool_ok n (WindowInfo_new base size) _ _ _ _ _ (pool_ok_new n _ W base size Hn eq_refl) Hr) as Hok.
  pose proof (λ s held, pool_ok_bound n (WindowInfo_new base size) s held Hn) as Hle.
  split; [by apply (po_nodup _ _ _ _ Hok)|]. split.
  - pose proof (acquire_spec n _ s held Hok) as Ha. pose proof (Hle _ _ Hok).
    destruct (acquire_window_context s) as [[w s1]|f].
    + destruct Ha as (Hni & _ & Hw & Hok1). apply Hle in Hok1. cbn in Hok1. split_and!; [lia|done|done].
    + destruct Ha as [-> ?]. split; [done|lia].
  - pose proof (release_spec n _ h s held Hok) as Ha. destruct (release_window_context h s); [by destruct Ha|done].
Qed.

(** ** Communicators of active sets *)

Lemma group_ranks_strided k start stride :
  0 ≤ start → 0 ≤ stride → start + Z.of_nat k * stride ≤ INT_MAX + stride →
  group_ranks k start stride = (λ i, start + i * stride) <$> seqZ 0 (Z.of_nat k).
Proof.
  revert start. induction k as [|k IH]; intros start Hs Hst Hmax; [done|]. cbn [group_ranks].
  rewrite seqZ_cons by lia. cbn [fmap list_fmap]. f_equal; [lia|]. destruct k as [|k'].
  - cbn [group_ranks]. by rewrite seqZ_nil by lia.
  - rewrite s32_small by (unfold INT_MIN; nia). rewrite IH by nia.
    replace (Z.pred (Z.of_nat (S (S k')))) with (Z.of_nat (S k')) by lia.
    change (Z.succ 0) with (0 + 1). rewrite <- (fmap_add_seqZ 1 0) . rewrite <- list_fmap_compose.
    apply list_fmap_ext. intros i x _. cbn. lia.
Qed.

Section comms.
Context (W : world).

(** An active set whose last rank is an [int], its ranks, and the one of all
    processes. *)
Definition valid_set (k : Z * Z * Z) : Prop :=
  let '(start, log, size) := k in
  0 ≤ start ∧ 0 ≤ log ≤ 30 ∧ 0 < size ∧ start + (size - 1) * 2 ^ log ≤ INT_MAX.
Definition ranks_of (k : Z * Z * Z) : list Z :=
  let '(start, log, size) := k in (λ i, start + i * 2 ^ log) <$> seqZ 0 size.
Definition all_processes : Z * Z * Z := (0, 0, w_size W).

(** The communicators that calls for the active sets [keys] use. *)
Fixpoint run_comms (keys : list (Z * Z * Z)) (s : HostInterface) : result (list Z * HostInterface) :=
  match keys with
  | [] => Ok ([], s)
  | (start, log, size) :: keys' =>
      '(c, s) ← get_mpi_comm W start log size s;
      '(cs, s) ← run_comms keys' s;
      Ok (c :: cs, s)
  end.

(** The active sets in the order of their first use, without that of all
    processes. *)
Fixpoint first_uses (seen keys : list (Z * Z * Z)) : list (Z * Z * Z) :=
  match keys with
  | [] => []
  | k :: keys' =>
      if decide (k = all_processes ∨ k ∈ seen) then first_uses seen keys'
      else k :: first_uses (k :: seen) keys'
  end.

Definition groups (l : list host_call) : list (list Z) :=
  omap (λ c, match c with HComm_create_group ranks => Some ranks | _ => None end) l.

Definition comm_of (m : gmap (Z * Z * Z) Z) (k : Z * Z * Z) : option Z :=
  if decide (k = all_processes) then Some (host_comm_world_ W) else m !! k.

Record comms_ok (s : HostInterface) (seen : list (Z * Z * Z)) : Prop := {
  co_seen : ∀ k, k ∈ seen ↔ is_Some (hcomm_map s !! k);
  co_old : ∀ k c, hcomm_map s !! k = Some c → ∃ j, (j < length (hlog s))%nat ∧ c = new_comm_handle W j;
  co_inj : ∀ k1 k2 c, hcomm_map s !! k1 = Some c → hcomm_map s !! k2 = Some c → k1 = k2
}.

(** Handles of new communicators are new. *)
Context (Hnew : ∀ i j, new_comm_handle W i = new_comm_handle W j → i = j).
Context (Hworld : ∀ i, new_comm_handle W i ≠ host_comm_world_ W).

Lemma get_mpi_comm_spec start log size s seen :
  comms_ok s seen → valid_set (start, log, size) →
  ∃ c s', get_mpi_comm W start log size s = Ok (c, s') ∧
    groups (hlog s') = groups (hlog s) ++ (ranks_of <$> first_uses seen [(start, log, size)]) ∧
    comms_ok s' (if decide ((start, log, size) = all_processes ∨ (start, log, size) ∈ seen) then seen
                 else (start, log, size) :: seen) ∧
    hcomm_map s ⊆ hcomm_map s' ∧ comm_of (hcomm_map s') (start, log, size) = Some c.
Proof using Hnew.
  intros Hok (Hst & Hlog & Hsz & Hmax). cbn [first_uses]. unfold get_mpi_comm, comm_of.
  set (k := (start, log, size)). unfold all_processes in *.
  destruct (decide (k = (0, 0, w_size W))) as [Ek|Hk].
  { injection Ek as -> -> ->. rewrite !Z.eqb_refl. cbn [andb]. eexists _, _. split; [done|].
    rewrite !(decide_True (P := k = (0, 0, w_size W) ∨ k ∈ seen)) by auto. cbn. rewrite app_nil_r. done. }
  assert ((start =? 0) && (log =? 0) && (size =? w_size W) = false) as ->.
  { destruct (Z.eqb_spec start 0), (Z.eqb_spec log 0), (Z.eqb_spec size (w_size W)); subst; done. }
  destruct (hcomm_map s !! k) as [c|] eqn:E.
  { eexists _, _. split; [done|].
    rewrite !(decide_True (P := k = (0, 0, w_size W) ∨ k ∈ seen)) by (right; apply (co_seen _ _ Hok); eauto).
    cbn. rewrite app_nil_r. done. }
  assert (k ∉ seen) as Hns by (rewrite (co_seen _ _ Hok), E; by intros [? ?]).
  rewrite !(decide_False (P := k = (0, 0, w_size W) ∨ k ∈ seen)) by tauto.
  rewrite (proj2 (Z.leb_gt _ _)) by done.
  assert (2 ^ log ≤ 2 ^ 30) by (apply Z.pow_le_mono_r; lia). pose proof (Z.pow_pos_nonneg 2 log).
  rewrite Z.shiftl_1_l, (s32_small (2 ^ log)) by (unfold INT_MIN, INT_MAX; lia).
  rewrite group_ranks_strided by (rewrite ?Z2Nat.id by lia; lia). rewrite Z2Nat.id by lia.
  eexists _, _. split; [done|]. cbn [hlog hcomm_map call]. split_and!.
  - unfold groups. rewrite omap_app. done.
  - split; cbn [hlog hcomm_map].
    + intros k'. rewrite elem_of_cons, lookup_insert_is_Some, (co_seen _ _ Hok). destruct (decide (k' = k)); naive_solver.
    + intros k' c'. rewrite length_app. intros [[<- <-]|[_ Hc]]%lookup_insert_Some; [eexists; split; [|done]; cbn; lia|].
      apply (co_old _ _ Hok) in Hc as (j & Hj & ->). exists j. split; [lia|done].
    + intros k1 k2 c' [[<- Hc1]|[H1 Hc1]]%lookup_insert_Some [[<- Hc2]|[H2 Hc2]]%lookup_insert_Some.
      * done.
      * apply (co_old _ _ Hok) in Hc2 as (j & Hj & Ej). rewrite <- Hc1 in Ej. apply Hnew in Ej. lia.
      * apply (co_old _ _ Hok) in Hc1 as (j & Hj & Ej). rewrite <- Hc2 in Ej. apply Hnew in Ej. lia.
      * by eapply (co_inj _ _ Hok).
  - by apply insert_subseteq.
  - apply lookup_insert_eq.
Qed.

Lemma comm_of_mono m m' k c : m ⊆ m' → comm_of m k = Some c → comm_of m' k = Some c.
Proof. unfold comm_of. intros Hm. case_decide; [done|]. intros Hc. by eapply lookup_weaken. Qed.

Lemma run_comms_spec keys s seen :
  comms_ok s seen → Forall valid_set keys →
  ∃ cs s' seen', run_comms keys s = Ok (cs, s') ∧
    groups (hlog s') = groups (hlog s) ++ (ranks_of <$> first_uses seen keys) ∧
    comms_ok s' seen' ∧ hcomm_map s ⊆ hcomm_map s' ∧ length cs = length keys ∧
    ∀ i k c, keys !! i = Some k → cs !! i = Some c → comm_of (hcomm_map s') k = Some c.
Proof using Hnew.
  revert s seen. induction keys as [|k keys IH]; intros s seen Hok Hv; cbn [run_comms first_uses].
  { exists [], s, seen. cbn. rewrite app_nil_r. done. }
  apply Forall_cons in Hv as [Hk Hv]. destruct k as [[start log] size].
  destruct (get_mpi_comm_spec start log size s seen Hok Hk) as (c & s1 & -> & Hg & Hok1 & Hsub & Hc).
  destruct (IH s1 _ Hok1 Hv) as (cs & s2 & seen2 & Hr & Hg2 & Hok2 & Hsub2 & Hl & Hcs).
  cbn [mbind result_bind]. rewrite Hr. cbn [mbind result_bind]. exists (c :: cs), s2, seen2.
  split; [done|]. split; [|split; [done|split; [by etrans|split; [cbn; lia|]]]].
  - rewrite Hg2, Hg, <- app_assoc. f_equal. cbn [first_uses].
    destruct (decide ((start, log, size) = all_processes ∨ (start, log, size) ∈ seen)); done.
  - intros [|i] k c' Hi Hc'; cbn in Hi, Hc'; simplify_eq.
    + by eapply comm_of_mono.
    + by eapply Hcs.
Qed.

(** The communicators of active sets, over any sequence of collective calls
    from a fresh interface: every call gets one; the groups that are created are
    those of the different active sets other than the set of all processes, each
    once, in the order of their first use, with the ranks of the set; calls
    for the same active set use the same communicator and calls for different
    ones different communicators. *)
Theorem active_set_comms keys max base size :
  Forall valid_set keys →
  ∃ cs s', run_comms keys (HostInterface_new W max base size) = Ok (cs, s') ∧
    groups (hlog s') = ranks_of <$> first_uses [] keys ∧ length cs = length keys ∧
    ∀ i j k l c d, keys !! i = Some k → keys !! j = Some l → cs !! i = Some c → cs !! j = Some d → k = l ↔ c = d.
Proof using Hnew Hworld.
  intros Hv. destruct (run_comms_spec keys (HostInterface_new W max base size) []) as
    (cs & s' & seen' & Hr & Hg & Hok & _ & Hl & Hcs); [|done|].
  { split; cbn.
    - intros k. split; [by intros ?%not_elem_of_nil|]. intros [c Hc]. by rewrite lookup_empty in Hc.
    - intros k c Hc. by rewrite lookup_empty in Hc.
    - intros k1 k2 c Hc. by rewrite lookup_empty in Hc. }
  exists cs, s'. split; [done|]. split; [by rewrite Hg|]. split; [done|].
  intros i j k l c d Hi Hj Hc Hd. pose proof (Hcs i k c Hi Hc) as E1. pose proof (Hcs j l d Hj Hd) as E2.
  split; [intros ->; congruence|]. intros <-. unfold comm_of in *. do 2 case_decide.
  - congruence.
  - apply (co_old _ _ Hok) in E1 as (n & _ & E). destruct (Hworld n). congruence.
  - apply (co_old _ _ Hok) in E2 as (n & _ & E). destruct (Hworld n). congruence.
  - by eapply (co_inj _ _ Hok).
Qed.
End comms.

(** ** A small world *)

Definition small_world : world :=
  mkWorld 1 4 100 (λ n, 101 + Z.of_nat n) (λ c, if c =? 100 then 1 else 0) id Z.sub.
Definition small_host : HostInterface := HostInterface_new small_world (Some 2) 4096 1024.
Definition small_window : HostContextWindowInfo := mkHCW false 0 (WindowInfo_new 4096 1024).

Lemma host_transfer_witness :
  (∃ s', start_transfer small_world TPutmem 7000 4100 16 2 small_window small_host = Ok s' ∧
    remote_pending s' = [HPut 7000 16 2 4 0] ∧ local_pending s' = []) ∧
  ∃ s', start_transfer small_world TPutmem_nbi 7000 4100 (2 ^ 32 + 16) 2 small_window small_host = Ok s' ∧
    remote_pending s' = [HPut 7000 16 2 4 0].
Proof.
  assert (∀ a b, 0 ≤ b ≤ a → a - b < 2 ^ 63 →
    w_Aint_diff small_world (w_Get_address small_world a) (w_Get_address small_world b) = a - b) as Hd
    by (intros; reflexivity).
  split.
  - destruct (host_transfer small_world Hd TPutmem 7000 4100 16 2 small_window small_host 4096 1024
      ltac:(lia) ltac:(lia) ltac:(lia) eq_refl ltac:(lia)) as (s' & c & E & Hc & _ & _ & Hr & Hl).
    exists s'. rewrite Hr, Hl, Hc by (unfold INT_MAX; lia). split; [exact E|]. split; reflexivity.
  - destruct (host_transfer small_world Hd TPutmem_nbi 7000 4100 (2 ^ 32 + 16) 2 small_window small_host 4096 1024
      ltac:(lia) ltac:(lia) ltac:(lia) eq_refl ltac:(lia)) as (s' & c & E & _ & Hc & _ & Hr & _).
    destruct Hc as [-> _]; [unfold INT_MAX; lia|].
    exists s'. rewrite Hr. split; [exact E|reflexivity].
Defined.

(** Process 1 of four writes processes 0 and 2: after the quiet the HDP of
    process 2 is not flushed. *)
Lemma host_quiet_completes_witness :
  let s := calls [HPut 7000 16 0 4 0; HPut 7000 16 2 4 0] small_host in
  remote_pending s = [HPut 7000 16 0 4 0; HPut 7000 16 2 4 0] ∧
  remote_pending (quiet small_window s) = [] ∧
  0 ∉ unflushed (hdp_of (quiet small_window s)) ∧ 2 ∈ unflushed (hdp_of (quiet small_window s)).
Proof.
  intros s. split; [vm_compute; reflexivity|].
  destruct (host_quiet_completes small_world CQuiet small_window s ltac:(vm_compute; reflexivity))
    as (Hr & _ & _ & Hu). cbn [complete] in *. split; [rewrite Hr; vm_compute; reflexivity|].
  rewrite !Hu. cbn [flushes]. change (written (win_handle small_window) (remote_pending s)) with [0; 2].
  split.
  - intros (_ & _ & Hn). apply Hn. cbn. lia.
  - split; [right; set_solver|]. cbn. lia.
Defined.

Lemma windows_held_once_witness :
  ∃ s, run_pool [Acquire; Acquire; Release 0] small_host [] = Ok (s, [1]) ∧
    NoDup [1] ∧ release_window_context 0 s = Fail AssertFailed.
Proof.
  destruct (run_pool [Acquire; Acquire; Release 0] small_host []) as [[s held]|] eqn:E; [|by vm_compute in E].
  exists s. assert (held = [1]) as -> by (vm_compute in E; by injection E as _ <-).
  destruct (windows_held_once small_world 2 4096 1024 [Acquire; Acquire; Release 0] s [1] 0 ltac:(lia) E)
    as (Hn & _ & Hr). split; [done|]. split; [exact Hn|].
  destruct (release_window_context 0 s) as [s'|f].
  - exfalso. apply list_elem_of_singleton in Hr. lia.
  - destruct Hr as [-> _]. done.
Defined.

Lemma active_set_comms_witness :
  ∃ cs s', run_comms small_world [(0, 1, 2); (0, 0, 4); (0, 1, 2); (1, 1, 2)] small_host = Ok (cs, s') ∧
    groups (hlog s') = [[0; 2]; [1; 3]].
Proof.
  destruct (active_set_comms small_world ltac:(intros i j; cbn; lia) ltac:(intros i; cbn; lia)
    [(0, 1, 2); (0, 0, 4); (0, 1, 2); (1, 1, 2)] (Some 2) 4096 1024
    ltac:(repeat constructor; by vm_compute)) as (cs & s' & Hr & Hg & _).
  exists cs, s'. split; [exact Hr|]. rewrite Hg. vm_compute. reflexivity.
Defined.

Lemma wait_until_correct_witness :
  wait_until small_world 4100 ROC_SHMEM_CMP_GE 5 small_window [3; 4] small_host = Fail OutOfFuel ∧
  ∃ s', wait_until small_world 4100 ROC_SHMEM_CMP_GE 5 small_window [3; 4; 6; 2] small_host = Ok s' ∧
    length (hlog s') = 9%nat.
Proof.
  destruct (wait_until_correct small_world ltac:(intros; reflexivity) 4100 ROC_SHMEM_CMP_GE 5 small_window [3; 4] 6 [2]
    small_host 4096 1024 ltac:(lia) ltac:(lia) ltac:(lia) eq_refl ltac:(lia)) as [H1 H2].
  - repeat constructor; unfold holds, ROC_SHMEM_CMP_EQ, ROC_SHMEM_CMP_NE, ROC_SHMEM_CMP_GT, ROC_SHMEM_CMP_GE,
      ROC_SHMEM_CMP_LT, ROC_SHMEM_CMP_LE; lia.
  - split; [exact H1|]. apply H2. unfold holds, ROC_SHMEM_CMP_GE. lia.
Defined.
