(* ===== verification/IBContext.v ===== *)
(** * The device context of the InfiniBand backend

    [gpu_ib/gpu_ib_gpu.cpp], the point-to-point part of
    [gpu_ib/gpu_ib_gpu_templates.hpp] and the choice of queue pairs in
    [gpu_ib/network_policy.cpp]: each operation either works on memory shared
    between the processes of a node or calls a queue pair.  What a call does is the
    list of its effects.  Shown: a wavefront transfers exactly the bytes that its
    lanes ask for; a blocking operation waits on the queue pair that it posted to;
    contexts of different work-groups share no queue pair. *)
From S2P Require Import Prelude Coalesce Util MPITransport ROContext Endian Segments QueuePair SendQueue WGState.

Local Open Scope Z_scope.

(** ** Effects *)

(** A call of a method of [class QueuePair]. *)
Inductive qp_call :=
  | QPut (cqe : bool) (L : level) (dest source nelems pe : Z)
  | QGet (cqe : bool) (L : level) (source dest nelems pe : Z)
  | QQuiet (L : level)
  | QQuietHeavy (L : level) (pe : Z)
  | QFence (pe : Z)
  | QAtomicFetch (dest value cond pe : Z) (compare : bool)
  | QAtomicNofetch (dest value cond pe : Z) (compare : bool)
  | QHdpFlush.

(** What a thread does; [IBFlush] is [fence_.flush()], [IBSync] [__syncthreads],
    [IBLoad] the read of a returned value. *)
Inductive ib_effect :=
  | IBIpcCopy (pe dst src size : Z)
  | IBIpcCopy_wg (pe dst src size : Z)
  | IBIpcCopy_wave (pe dst src size : Z)
  | IBIpcAdd (fetch : bool) (addr value : Z)
  | IBIpcCas (fetch : bool) (addr cond value : Z)
  | IBQp (qp : Z) (call : qp_call)
  | IBFlush
  | IBSync
  | IBLoad (addr : Z).

(** ** The context *)

(** [use_dc] is the option [USE_DC]; [thread_level] the policy [THREAD]. *)
Record GPUIBContext := mkIB {
  ib_my_pe : Z;
  ib_num_pes : Z;
  base_heap : list Z;
  ib_ipcImpl_ : IpcImpl;
  ib_g_ret : Z;
  use_dc : bool;
  thread_level : level
}.

(** [NetworkOnImpl::getQueuePair], as an index into [device_qp_proxy]. *)
Definition getQueuePair (c : GPUIBContext) (pe : Z) : Z := if use_dc c then 0 else pe.
Definition getNumQueuePairs (c : GPUIBContext) : Z := if use_dc c then 1 else ib_num_pes c.
Definition getNumDest (c : GPUIBContext) : Z := ib_num_pes c.

Definition ib_available (c : GPUIBContext) (pe : Z) : bool :=
  isIpcAvailable (ib_ipcImpl_ c) (ib_my_pe c) pe.

(** [addr - base_heap[my_pe]], and the addresses that come from it. *)
Definition L_offset (c : GPUIBContext) (addr : Z) : result Z :=
  mine ← vec_at (base_heap c) (ib_my_pe c); Ok (u64 (addr - mine)).
Definition shared_address (c : GPUIBContext) (pe addr : Z) : result Z :=
  off ← L_offset c addr;
  theirs ← vec_at (ipc_bases (ib_ipcImpl_ c)) pe; Ok (u64 (theirs + off)).
Definition remote_address (c : GPUIBContext) (pe addr : Z) : result Z :=
  off ← L_offset c addr;
  theirs ← vec_at (base_heap c) pe; Ok (u64 (theirs + off)).

(** ** Operations of one thread each *)

Section lanes.
Context `{WavefrontCoalescer} (c : GPUIBContext) (wave : list (option msg)).

Definition ib_remote_lanes : list (option msg) := lanes_without (ib_available c) wave.

(** The common shape of [putmem] and [putmem_nbi]; a lane whose message another
    one sends returns at once. *)
Definition ib_put_lane (blocking : bool) (i : nat) (m : msg) : result (list ib_effect) :=
  if ib_available c (m_pe m) then
    d ← shared_address c (m_pe m) (m_dest m);
    Ok (IBIpcCopy (m_pe m) d (m_source m) (m_size m) :: (if blocking then [IBFlush] else []))
  else
    let '(must_send_message, nelems) := wf_coalesce ib_remote_lanes i m in
    if negb must_send_message then Ok []
    else
      d ← remote_address c (m_pe m) (m_dest m);
      let qp := getQueuePair c (m_pe m) in
      Ok (IBQp qp (QPut blocking (thread_level c) d (m_source m) nelems (m_pe m)) ::
          (if blocking then [IBQp qp (QQuiet (thread_level c)); IBFlush] else [])).

Definition ib_get_lane (blocking : bool) (i : nat) (m : msg) : result (list ib_effect) :=
  if ib_available c (m_pe m) then
    s ← shared_address c (m_pe m) (m_source m);
    Ok (IBIpcCopy (m_pe m) (m_dest m) s (m_size m) :: (if blocking then [IBFlush] else []))
  else
    let '(must_send_message, nelems) := wf_coalesce ib_remote_lanes i m in
    if negb must_send_message then Ok []
    else
      s ← remote_address c (m_pe m) (m_source m);
      let qp := getQueuePair c (m_pe m) in
      Ok (IBQp qp (QGet blocking (thread_level c) s (m_dest m) nelems (m_pe m)) ::
          (if blocking then [IBQp qp (QQuiet (thread_level c)); IBFlush] else [])).

Definition putmem := ib_put_lane true.
Definition putmem_nbi := ib_put_lane false.
Definition getmem := ib_get_lane true.
Definition getmem_nbi := ib_get_lane false.
End lanes.

(** The typed versions. *)
Section typed.
Context `{WavefrontCoalescer} (c : GPUIBContext) (sizeof_T : Z) (wave : list (option msg)).

Definition put (i : nat) (m : msg) := putmem c (typed_wave sizeof_T wave) i (typed sizeof_T m).
Definition put_nbi (i : nat) (m : msg) := putmem_nbi c (typed_wave sizeof_T wave) i (typed sizeof_T m).
Definition get (i : nat) (m : msg) := getmem c (typed_wave sizeof_T wave) i (typed sizeof_T m).
Definition get_nbi (i : nat) (m : msg) := getmem_nbi c (typed_wave sizeof_T wave) i (typed sizeof_T m).

(** [GPUIBContext::p]: [value_addr] is the address of the by-value argument. *)
Definition p (i : nat) (dest value_addr pe : Z) := putmem_nbi c wave i (mkMsg pe value_addr dest sizeof_T).

(** [GPUIBContext::g]: [local] is the local variable, [slot] the result buffer of
    the thread.  A lane whose message another one sends returns the local variable
    that nothing was written to. *)
Definition g (i : nat) (local source slot pe : Z) : result (list ib_effect) :=
  if ib_available c pe then
    s ← shared_address c pe source; Ok [IBIpcCopy pe local s sizeof_T; IBLoad local]
  else
    let '(must_send_message, nelems) := wf_coalesce (ib_remote_lanes c wave) i (mkMsg pe source slot sizeof_T) in
    if negb must_send_message then Ok [IBLoad local]
    else
      s ← remote_address c pe source;
      let qp := getQueuePair c pe in
      Ok [IBQp qp (QGet false (thread_level c) s slot nelems pe); IBQp qp (QQuiet (thread_level c));
          IBQp (getQueuePair c (ib_my_pe c)) QHdpFlush; IBLoad slot].
End typed.

(** ** Operations of a work-group or a wavefront: what one thread does *)

Section groups.
Context (c : GPUIBContext) (hipThreadIdx hipBlockDim : dim3).

Let threadId : Z := get_flat_block_id hipThreadIdx hipBlockDim.

(** The thread that posts, the barrier at the end of the work-group versions. *)
Definition posts (L : level) : bool :=
  match L with
  | WG => is_thread_zero_in_block hipThreadIdx
  | _ => is_thread_zero_in_wave threadId
  end.
Definition group_end (L : level) (blocking : bool) : list ib_effect :=
  (match L with WG => [IBSync] | _ => [] end) ++ (if blocking then [IBFlush] else []).

Definition ib_put_group (ipc_copy : Z → Z → Z → Z → ib_effect) (L : level) (blocking : bool)
    (dest source nelems pe : Z) : result (list ib_effect) :=
  if ib_available c pe then
    d ← shared_address c pe dest; Ok (ipc_copy pe d source nelems :: group_end L blocking)
  else
    d ← remote_address c pe dest;
    let qp := getQueuePair c pe in
    Ok ((if posts L then [IBQp qp (QPut blocking L d source nelems pe)] else []) ++
        (if blocking then [IBQp qp (QQuiet L)] else []) ++ group_end L blocking).
Definition ib_get_group (ipc_copy : Z → Z → Z → Z → ib_effect) (L : level) (blocking : bool)
    (dest source nelems pe : Z) : result (list ib_effect) :=
  if ib_available c pe then
    s ← shared_address c pe source; Ok (ipc_copy pe dest s nelems :: group_end L blocking)
  else
    s ← remote_address c pe source;
    let qp := getQueuePair c pe in
    Ok ((if posts L then [IBQp qp (QGet blocking L s dest nelems pe)] else []) ++
        (if blocking then [IBQp qp (QQuiet L)] else []) ++ group_end L blocking).

Definition putmem_wg := ib_put_group IBIpcCopy_wg WG true.
Definition getmem_wg := ib_get_group IBIpcCopy_wg WG true.
Definition putmem_nbi_wg := ib_put_group IBIpcCopy_wg WG false.
Definition getmem_nbi_wg := ib_get_group IBIpcCopy_wg WG false.
Definition putmem_wave := ib_put_group IBIpcCopy_wave WAVE true.
Definition getmem_wave := ib_get_group IBIpcCopy_wave WAVE true.
Definition putmem_nbi_wave := ib_put_group IBIpcCopy_wave WAVE false.
Definition getmem_nbi_wave := ib_get_group IBIpcCopy_wave WAVE false.

Definition put_wg sizeof_T dest source nelems := putmem_wg dest source (typed_size sizeof_T nelems).
Definition get_wg sizeof_T dest source nelems := getmem_wg dest source (typed_size sizeof_T nelems).
Definition put_nbi_wg sizeof_T dest source nelems := putmem_nbi_wg dest source (typed_size sizeof_T nelems).
Definition get_nbi_wg sizeof_T dest source nelems := getmem_nbi_wg dest source (typed_size sizeof_T nelems).
Definition put_wave sizeof_T dest source nelems := putmem_wave dest source (typed_size sizeof_T nelems).
Definition get_wave sizeof_T dest source nelems := getmem_wave dest source (typed_size sizeof_T nelems).
Definition put_nbi_wave sizeof_T dest source nelems := putmem_nbi_wave dest source (typed_size sizeof_T nelems).
Definition get_nbi_wave sizeof_T dest source nelems := getmem_nbi_wave dest source (typed_size sizeof_T nelems).

(** The result buffer of [g] for this thread. *)
Definition g_slot (global_buffer_id : Z) : Z :=
  let offset := s32 (s32 (global_buffer_id * get_flat_block_size hipBlockDim) + threadId) in
  ib_g_ret c + u64 (offset * 8).
End groups.

(** ** Ordering and atomics *)

Section ordering.
Context (c : GPUIBContext).

Definition fence : list ib_effect :=
  ((λ k, IBQp (getQueuePair c k) (QFence k)) <$> seqZ 0 (getNumDest c)) ++ [IBFlush].
Definition fence_pe (pe : Z) : list ib_effect := [IBQp (getQueuePair c pe) (QFence pe); IBFlush].
Definition quiet : list ib_effect :=
  ((λ k, IBQp (getQueuePair c k) (QQuietHeavy (thread_level c) k)) <$> seqZ 0 (getNumDest c)) ++ [IBFlush].

Definition shmem_ptr (dest pe : Z) : result Z :=
  if ib_available c pe then shared_address c pe dest else Ok nullptr.

Definition amo_fetch_add (dst value cond pe : Z) : result (list ib_effect) :=
  if ib_available c pe then a ← shared_address c pe dst; Ok [IBIpcAdd true a (u64 value)]
  else a ← remote_address c pe dst; Ok [IBQp (getQueuePair c pe) (QAtomicFetch a value cond pe false)].
Definition amo_fetch_cas (dst value cond pe : Z) : result (list ib_effect) :=
  if ib_available c pe then a ← shared_address c pe dst; Ok [IBIpcCas true a (u64 cond) (u64 value)]
  else a ← remote_address c pe dst; Ok [IBQp (getQueuePair c pe) (QAtomicFetch a value cond pe true)].
Definition amo_add (dst value cond pe : Z) : result (list ib_effect) :=
  if ib_available c pe then a ← shared_address c pe dst; Ok [IBIpcAdd false a (u64 value)]
  else a ← remote_address c pe dst; Ok [IBQp (getQueuePair c pe) (QAtomicNofetch a value cond pe false)].
Definition amo_cas (dst value cond pe : Z) : result (list ib_effect) :=
  if ib_available c pe then a ← shared_address c pe dst; Ok [IBIpcCas false a (u64 cond) (u64 value)]
  else a ← remote_address c pe dst; Ok [IBQp (getQueuePair c pe) (QAtomicNofetch a value cond pe true)].
End ordering.

(** ** The queue pairs of a context *)

(** [networkGpuInit] and [networkHostInit]: the queue pair of the backend that the
    [i]-th one of the context with buffer [buffer_id] is copied from, and its first
    slot for returned values. *)
Definition global_qp (num_wg i buffer_id : Z) : Z := num_wg * i + buffer_id.
Definition atomic_base (buffer_id : Z) : Z := max_nb_atomic * buffer_id.

Definition networkGpuInit (c : GPUIBContext) (num_wg buffer_id : Z) : list (Z * Z) :=
  (λ i, (global_qp num_wg i buffer_id, atomic_base buffer_id)) <$> seqZ 0 (getNumQueuePairs c).

(** ** Transfers *)

(** The effect copies the byte at [s] to the address [d]; the remote one of the
    two is an address of [pe] in terms of this process's own heap, and a call to a
    queue pair is one to that of [pe]. *)
Definition ib_copies (is_put : bool) (c : GPUIBContext) (e : ib_effect) (pe s d : Z) : Prop :=
  ∃ mine theirs k, vec_at (base_heap c) (ib_my_pe c) = Ok mine ∧
  match e with
  | IBIpcCopy pe' dst src size =>
      pe' = pe ∧ vec_at (ipc_bases (ib_ipcImpl_ c)) pe = Ok theirs ∧ 0 ≤ k < size ∧
      if is_put then s = src + k ∧ theirs + (d - mine) = dst + k
      else d = dst + k ∧ theirs + (s - mine) = src + k
  | IBQp qp (QPut _ _ dest source nelems pe') =>
      is_put = true ∧ pe' = pe ∧ qp = getQueuePair c pe ∧ vec_at (base_heap c) pe = Ok theirs ∧
      0 ≤ k < nelems ∧ s = source + k ∧ theirs + (d - mine) = dest + k
  | IBQp qp (QGet _ _ source dest nelems pe') =>
      is_put = false ∧ pe' = pe ∧ qp = getQueuePair c pe ∧ vec_at (base_heap c) pe = Ok theirs ∧
      0 ≤ k < nelems ∧ d = dest + k ∧ theirs + (s - mine) = source + k
  | _ => False
  end.

(** The heap of the peer is known, shared or registered, and the remote range of
    the message lies inside it. *)
Definition heap_known (is_put : bool) (c : GPUIBContext) (m : msg) : Prop :=
  ∃ mine theirs, vec_at (base_heap c) (ib_my_pe c) = Ok mine ∧
    vec_at (if ib_available c (m_pe m) then ipc_bases (ib_ipcImpl_ c) else base_heap c) (m_pe m) = Ok theirs ∧
    0 ≤ mine ≤ remote_addr is_put m ∧ 0 ≤ theirs ∧
    theirs + (remote_addr is_put m - mine) + m_size m < 2 ^ 64.

Section transfers.
Context `{HC : WavefrontCoalescer} (c : GPUIBContext).

Definition ib_lane (is_put : bool) wave (blocking : bool) :=
  if is_put then ib_put_lane c wave blocking else ib_get_lane c wave blocking.

Lemma shared_address_ok pe addr mine theirs size :
  vec_at (base_heap c) (ib_my_pe c) = Ok mine → vec_at (ipc_bases (ib_ipcImpl_ c)) pe = Ok theirs →
  0 ≤ mine ≤ addr → 0 ≤ theirs → 0 ≤ size → theirs + (addr - mine) + size < 2 ^ 64 →
  shared_address c pe addr = Ok (theirs + (addr - mine)).
Proof.
  intros Hm Ht ????. unfold shared_address, L_offset. rewrite Hm. cbn. rewrite Ht. cbn.
  rewrite (uwrap_small 64 (addr - mine)) by lia. by rewrite uwrap_small by lia.
Qed.

Lemma remote_address_ok pe addr mine theirs size :
  vec_at (base_heap c) (ib_my_pe c) = Ok mine → vec_at (base_heap c) pe = Ok theirs →
  0 ≤ mine ≤ addr → 0 ≤ theirs → 0 ≤ size → theirs + (addr - mine) + size < 2 ^ 64 →
  remote_address c pe addr = Ok (theirs + (addr - mine)).
Proof.
  intros Hm Ht ????. unfold remote_address, L_offset. rewrite Hm. cbn. rewrite Ht. cbn.
  rewrite (uwrap_small 64 (addr - mine)) by lia. by rewrite uwrap_small by lia.
Qed.

(** Effects that copy nothing. *)
Definition silent (e : ib_effect) : bool :=
  match e with
  | IBIpcCopy _ _ _ _ | IBQp _ (QPut _ _ _ _ _ _) | IBQp _ (QGet _ _ _ _ _ _) => false
  | _ => true
  end.

Lemma silent_tail is_put (e : ib_effect) (l : list ib_effect) pe s d :
  forallb silent l = true →
  (∃ x, x ∈ e :: l ∧ ib_copies is_put c x pe s d) ↔ ib_copies is_put c e pe s d.
Proof.
  intros Hl. split; [|intros H; exists e; set_solver].
  intros (x & [->|Hx]%elem_of_cons & H); [done|]. rewrite forallb_forall in Hl.
  specialize (Hl x (proj1 (list_elem_of_In _ _) Hx)). destruct H as (? & ? & ? & _ & H).
  destruct x as [| | | | |? []| | |]; done.
Qed.

Lemma ib_lane_local is_put wave blocking i m :
  ib_available c (m_pe m) = true → heap_known is_put c m → 0 ≤ m_size m →
  local_lane (ib_copies is_put c) (ib_lane is_put wave blocking) i m.
Proof.
  intros Ha (mine & theirs & Hm & Ht & H1 & H2 & H3) Hsz. rewrite Ha in Ht.
  unfold local_lane, ib_lane, remote_addr in *.
  destruct is_put; unfold ib_put_lane, ib_get_lane;
    rewrite Ha, (shared_address_ok _ _ mine theirs (m_size m)) by done; cbn [mbind result_bind];
    (eexists; split; [done|]); intros pe s d; rewrite silent_tail by (by destruct blocking);
    unfold ib_copies, copies;
    (split; [intros (mine' & theirs' & k & Hm' & <- & Ht' & Hk & Hs & Hd); rewrite Hm in Hm'; rewrite Ht in Ht';
             simplify_eq; split; [done|]; exists k; lia|
             intros (<- & k & Hk & -> & ->); exists mine, theirs, k; do 3 (split; [done|]); lia]).
Qed.

Lemma ib_lane_remote is_put wave blocking i m :
  ib_available c (m_pe m) = false → heap_known is_put c m → 0 ≤ m_size m →
  remote_lane (ib_available c) (ib_copies is_put c) (ib_lane is_put wave blocking) wave i m.
Proof.
  intros Ha (mine & theirs & Hm & Ht & H1 & H2 & H3) Hsz. rewrite Ha in Ht.
  unfold remote_lane, ib_lane, remote_addr in *.
  destruct is_put; unfold ib_put_lane, ib_get_lane; rewrite Ha; unfold ib_remote_lanes;
    destruct (wf_coalesce (lanes_without (ib_available c) wave) i m) as [[] size]; cbn [negb fst snd];
    try (exists []; split; [done|]; intros pe s d; set_solver);
    rewrite (remote_address_ok _ _ mine theirs (m_size m)) by done; cbn [mbind result_bind];
    (eexists; split; [done|]); intros pe s d; rewrite silent_tail by (by destruct blocking);
    unfold ib_copies, copies; cbn [m_pe m_source m_dest m_size];
    (split; [intros (mine' & theirs' & k & Hm' & _ & <- & _ & Ht' & Hk & Hs & Hd); rewrite Hm in Hm'; rewrite Ht in Ht';
             simplify_eq; split; [done|]; split; [done|]; exists k; lia|
             intros (_ & <- & k & Hk & -> & ->); exists mine, theirs, k; do 5 (split; [done|]); lia]).
Qed.
End transfers.

(** C18: A wavefront of 64 lanes that calls [putmem], [putmem_nbi], [getmem] or
    [getmem_nbi] of the InfiniBand context transfers exactly the bytes its active
    lanes ask for, with either coalescer: through shared memory at the translated
    address for peers of the node, by requests to the queue pair of the peer, at the
    address in the peer's heap, for the others. *)
Theorem ib_transfers (C : WavefrontCoalescer) (HC : TransparentCoalescer C)
    (c : GPUIBContext) (is_put blocking : bool) (wave : list (option msg)) :
  length wave = 64%nat →
  (∀ i m, wave !! i = Some (Some m) → msg_ok (2 ^ 25 - 1) m ∧ heap_known is_put c m) →
  ∃ effs, lanes_from (ib_lane c is_put wave blocking) 0 wave = Ok effs ∧
    ∀ pe s d, (∃ e, e ∈ effs ∧ ib_copies is_put c e pe s d) ↔
              (∃ i m, wave !! i = Some (Some m) ∧ copies m pe s d).
Proof.
  intros Hlen Hok. apply (wave_transfers (ib_available c)); [done|intros i m Hi; exact (proj1 (Hok i m Hi))|].
  intros i m Hi. destruct (Hok i m Hi) as [[Hsz _] Hk]. destruct (ib_available c (m_pe m)) eqn:Ha.
  - apply ib_lane_local; [done|done|lia].
  - apply ib_lane_remote; [done|done|lia].
Qed.

(** ** Waiting *)

Section waiting.
Context {X : Mlx5} {HX : Mlx5Laws X} (cfg : QPConfig) (qpn : Z).
Context (Hcfg : cfg_ok (C := RCConnectionImpl) cfg qpn) (Hsz : sizes_ok cfg).

(** What the calls do to the queue pair [qp] and its card, when a post finds a
    slot whose request has been executed (see [overrun_place]). *)
Inductive post_runs (L : level) (cqe : bool) (a : post_args) : QueuePair * card → QueuePair * card → Prop :=
  | post_runs_intro loads s s' k k' :
      single_caller L → request_ok cfg s a → observe cfg (qp_mem s) (polled_slot cfg s) k loads k' →
      update_posted_wqe_generic cfg false (X := X) (C := RCConnectionImpl) L cqe a [] loads s = Ok s' →
      fits cfg (doorbell (qp_mem s') (next_wqe cfg s) k') →
      post_runs L cqe a (s, k) (s', doorbell (qp_mem s') (next_wqe cfg s) k').
Inductive quiet_runs (L : level) : QueuePair * card → QueuePair * card → Prop :=
  | quiet_runs_intro loads s s' k k' :
      single_caller L → observe cfg (qp_mem s) (polled_slot cfg s) k loads k' →
      quiet_single cfg L loads s = Ok s' → quiet_runs L (s, k) (s', k').

Definition effect_runs (qp : Z) (e : ib_effect) (x y : QueuePair * card) : Prop :=
  match e with
  | IBQp qp' call =>
      if qp' =? qp then
        match call with
        | QPut cqe L dest source nelems pe => post_runs L cqe (put_args dest source nelems pe true) x y
        | QGet cqe L source dest nelems pe => post_runs L cqe (get_args source dest nelems pe true) x y
        | QQuiet L => quiet_runs L x y
        | QHdpFlush => x = y
        | _ => False
        end
      else x = y
  | _ => x = y
  end.

Fixpoint effects_run (qp : Z) (l : list ib_effect) (x y : QueuePair * card) : Prop :=
  match l with
  | [] => x = y
  | e :: l' => ∃ z, effect_runs qp e x z ∧ effects_run qp l' z y
  end.

Lemma post_quiet_runs L a s k s2 k2 z :
  sq_inv cfg s k → post_runs L true a (s, k) z → quiet_runs L z (s2, k2) →
  sq_posts k2 = sq_posts k ++ [(meant cfg qpn s a, true)] ∧ fetched k2 = sq_posts k2 ∧
  executed k2 = length (sq_posts k2).
Proof using HX Hcfg Hsz qpn.
  intros Hinv Hp Hq. inversion Hp as [loads1 ? s1 ? k1 HL Hreq Ho1 Hp1 Hfit]; subst; clear Hp.
  inversion Hq as [loads2 ? ? ? ? ? Ho2 Hq2]; subst; clear Hq.
  destruct (post_then_quiet cfg qpn Hcfg Hsz L L a loads1 loads2 s s1 s2 k k1 k2)
    as (_ & ? & ? & ? & _); done.
Qed.

(** The request of a lane that sends a message of [n] bytes for its wave. *)
Definition lane_request (is_put : bool) (addr : Z) (m : msg) (n : Z) : post_args :=
  if is_put then put_args addr (m_source m) n (m_pe m) true
  else get_args addr (m_dest m) n (m_pe m) true.

(** C19: A blocking [putmem] or [getmem] waits for its transfer: when a lane that
    sends a message has run on the queue pair of its peer, with the policies of
    a single caller and from any state that posts, waits, the card and stores
    elsewhere can reach without a request being written over one still to be
    executed, then the card has read the request of the lane, as it was meant,
    after every earlier one, and has executed them all. *)
Theorem blocking_completes {HC : WavefrontCoalescer} (c : GPUIBContext) (is_put : bool)
    (wave : list (option msg)) (i : nat) (m : msg) effs mem s k s' k' :
  ib_lane c is_put wave true i m = Ok effs →
  ib_available c (m_pe m) = false → (wf_coalesce (ib_remote_lanes c wave) i m).1 = true →
  rtc (kept_step cfg) (qp_init mem, card_init) (s, k) →
  effects_run (getQueuePair c (m_pe m)) effs (s, k) (s', k') →
  ∃ addr, remote_address c (m_pe m) (if is_put then m_dest m else m_source m) = Ok addr ∧
    sq_posts k' = sq_posts k ++
      [(meant cfg qpn s (lane_request is_put addr m (wf_coalesce (ib_remote_lanes c wave) i m).2), true)] ∧
    fetched k' = sq_posts k' ∧ executed k' = length (sq_posts k').
Proof using HX Hcfg Hsz qpn.
  intros He Ha Hs Hr Hrun. pose proof (sq_reachable cfg qpn Hcfg Hsz _ _ _ Hr) as Hinv.
  unfold ib_lane in He. destruct is_put; unfold ib_put_lane, ib_get_lane in He; rewrite Ha in He;
    destruct (wf_coalesce _ i m) as [must n]; cbn in Hs; subst must; cbn [negb] in He;
    apply bind_Ok_inv in He as (d & Hd & [= <-]); cbn [effects_run effect_runs] in Hrun;
    rewrite Z.eqb_refl in Hrun; destruct Hrun as (z1 & H1 & z2 & H2 & z3 & H3 & H4); subst;
    exists d; (split; [done|]); by eapply post_quiet_runs.
Qed.
End waiting.

(** ** An example *)

Module ExampleIB.
#[export] Existing Instance mlx5dv.

(** Process 0 of a node of two, and a process 5 elsewhere; queue pairs of
    reliable connections. *)
Definition ctx : GPUIBContext :=
  mkIB 0 6 [4096; 2 ^ 20; 2 ^ 21; 2 ^ 22; 2 ^ 23; 2 ^ 24] (mkIpc true 2 [4096; 2 ^ 30]) 0 false SingleThreadImpl.

Lemma lanes_known is_put i m :
  ExampleContext.lanes is_put !! i = Some (Some m) → msg_ok (2 ^ 25 - 1) m ∧ heap_known is_put ctx m.
Proof.
  intros H. destruct i as [|[|[|i]]].
  4: { change (replicate 61 (None : option msg) !! i = Some (Some m)) in H.
       by apply lookup_replicate in H as [? _]. }
  all: injection H as <-; unfold msg_ok, heap_known, remote_addr; destruct is_put; cbn;
    (split; [lia|]).
  all: first [exists 4096, (2 ^ 30); cbn; repeat split; lia | exists 4096, (2 ^ 24); cbn; repeat split; lia].
Qed.

(** A put of four bytes to process 1 when nothing is shared, on the queue pair of
    four slots. *)
Definition far : GPUIBContext := mkIB 0 2 [0x4000; 0x4000] (mkIpc false 1 []) 0 false SingleThreadImpl.
Definition word : msg := mkMsg 1 0x6000 0x5000 4.
Definition one_lane : list (option msg) := Some word :: replicate 63 None.

Definition put_s1 : QueuePair :=
  match update_posted_wqe_generic (C := RCConnectionImpl) qp_small false SingleThreadImpl true
          put_small [] [] qp_start with Ok s' => s' | Fail _ => qp_start end.
Definition put_s2 : QueuePair :=
  match quiet_single qp_small SingleThreadImpl [0xF0; 0] put_s1 with Ok s => s | Fail _ => put_s1 end.
Definition put_k1 : card := doorbell (qp_mem put_s1) (next_wqe qp_small qp_start) card_init.
Definition put_k2 : card := exec1 (fetch1 put_s1 put_k1).

Lemma put_post : post_runs qp_small SingleThreadImpl true put_small (qp_start, card_init) (put_s1, put_k1).
Proof.
  assert (update_posted_wqe_generic (C := RCConnectionImpl) qp_small false SingleThreadImpl true
    put_small [] [] qp_start = Ok put_s1) as H.
  { unfold put_s1. destruct (update_posted_wqe_generic _ _ _ _ _ _ _ _) as [s|e] eqn:E; [done|].
    apply (f_equal (λ r, match r with Ok _ => true | Fail _ => false end)) in E.
    vm_compute in E. discriminate. }
  apply (post_runs_intro qp_small SingleThreadImpl true put_small []);
    [by left| |constructor|done|vm_compute; discriminate].
  split; [|split; [by vm_compute|done]]. left. repeat split; try by vm_compute; by left.
Qed.

Lemma put_quiet : quiet_runs qp_small SingleThreadImpl (put_s1, put_k1) (put_s2, put_k2).
Proof.
  apply (quiet_runs_intro qp_small SingleThreadImpl [0xF0; 0]); [by left| |].
  - replace 0xF0 with (cq_op_own put_k1 (polled_slot qp_small put_s1)) by (vm_compute; reflexivity).
    apply obs_load. eapply obs_card; [apply fetch1_step; vm_compute; lia|].
    eapply obs_card; [apply exec1_step; vm_compute; lia|].
    apply obs_load_eq. vm_compute. reflexivity.
  - unfold put_s2. destruct (quiet_single _ _ _ _) as [s|e] eqn:E; [done|].
    apply (f_equal (λ r, match r with Ok _ => true | Fail _ => false end)) in E.
    vm_compute in E. discriminate.
Qed.
End ExampleIB.
Import ExampleIB.

Lemma ib_transfers_witness :
  ∃ effs, lanes_from (ib_lane (HC := ExampleContext.coalescer) ctx true (ExampleContext.lanes true) true) 0
            (ExampleContext.lanes true) = Ok effs ∧
    ∀ pe s d, (∃ e, e ∈ effs ∧ ib_copies true ctx e pe s d) ↔
              (∃ i m, ExampleContext.lanes true !! i = Some (Some m) ∧ copies m pe s d).
Proof.
  apply (ib_transfers ExampleContext.coalescer (WfCoalOn_transparent _) ctx true true (ExampleContext.lanes true)).
  - reflexivity.
  - apply lanes_known.
Defined.

Lemma blocking_completes_witness :
  ∃ addr, remote_address far 1 0x5000 = Ok addr ∧
    sq_posts put_k2 = [] ++ [(meant qp_small 0x123 qp_start (lane_request true addr word 4), true)] ∧
    fetched put_k2 = sq_posts put_k2 ∧ executed put_k2 = length (sq_posts put_k2).
Proof.
  apply (blocking_completes qp_small 0x123 qp_small_ok qp_small_sizes (HC := ExampleContext.coalescer)
    far true one_lane 0 word
    [IBQp 1 (QPut true SingleThreadImpl 0x5000 0x6000 4 1); IBQp 1 (QQuiet SingleThreadImpl); IBFlush]
    (λ _, 0) qp_start card_init put_s2 put_k2).
  - reflexivity.
  - reflexivity.
  - reflexivity.
  - apply rtc_refl.
  - exists (put_s1, put_k1). split; [exact put_post|]. exists (put_s2, put_k2).
    split; [exact put_quiet|]. by exists (put_s2, put_k2).
Defined.

(** ** A get that does not wait *)

(** With the policy of a single thread, [g] waits for nothing: it posts its read
    without asking for a completion entry, so when nothing else is outstanding the
    wait returns at once and the slot is read while the card still has the request
    to execute. *)
Theorem g_does_not_wait {X : Mlx5} {HX : Mlx5Laws X} (cfg : QPConfig) (qpn : Z) (C : WavefrontCoalescer)
    (c : GPUIBContext) sizeof_T wave i local source slot pe addr mem s k n :
  cfg_ok (C := RCConnectionImpl) cfg qpn → sizes_ok cfg →
  thread_level c = SingleThreadImpl → ib_available c pe = false → remote_address c pe source = Ok addr →
  wf_coalesce (ib_remote_lanes c wave) i (mkMsg pe source slot sizeof_T) = (true, n) →
  rtc (kept_step cfg) (qp_init mem, card_init) (s, k) → quiet_counter s = 0 →
  (n_posted k + 1) `mod` max_nwqe cfg ≠ max_nwqe cfg - 2 →
  n_posted k `mod` max_nwqe cfg ≠ max_nwqe cfg - 1 →
  request_ok cfg s (get_args addr slot n pe true) → n_posted k + 1 - Z.of_nat (executed k) ≤ max_nwqe cfg →
  ∃ effs s', g c sizeof_T wave i local source slot pe = Ok (effs ++ [IBLoad slot]) ∧
    effects_run cfg (getQueuePair c pe) effs (s, k) (s', doorbell (qp_mem s') (next_wqe cfg s) k) ∧
    card_read (qp_mem s') (next_wqe cfg s) = (meant cfg qpn s (get_args addr slot n pe true), false).
Proof.
  intros Hcfg Hsz Hth Ha Hra Hco Hr Hq H1 H2 Hreq Hfit.
  pose proof (sq_reachable cfg qpn Hcfg Hsz _ _ _ Hr) as Hinv.
  destruct (post_unflagged cfg qpn Hcfg Hsz _ s k Hreq Hinv Hq H1 H2) as (s' & Hp & Hce & Hq').
  unfold g. rewrite Ha, Hco, Hra, Hth. cbn [negb mbind result_bind].
  eexists [_; _; _], s'. split; [done|]. split; [|done]. cbn [effects_run effect_runs].
  rewrite Z.eqb_refl. exists (s', doorbell (qp_mem s') (next_wqe cfg s) k). split.
  { eapply post_runs_intro; [by left|done|constructor|exact Hp|].
    unfold fits. by rewrite n_posted_doorbell. }
  exists (s', doorbell (qp_mem s') (next_wqe cfg s) k). split.
  { apply (quiet_runs_intro cfg SingleThreadImpl [] s' s'); [by left|constructor|].
    cbn. unfold quiet_internal. by rewrite Hq'. }
  exists (s', doorbell (qp_mem s') (next_wqe cfg s) k). split; [by case_if|done].
Qed.

(** Of lanes whose reads are combined only one reads its slot; the others return
    a local variable that nothing was written to. *)
Theorem g_combined (C : WavefrontCoalescer) (c : GPUIBContext) sizeof_T wave i local source slot pe n :
  ib_available c pe = false →
  wf_coalesce (ib_remote_lanes c wave) i (mkMsg pe source slot sizeof_T) = (false, n) →
  g c sizeof_T wave i local source slot pe = Ok [IBLoad local].
Proof. intros Ha Hc. unfold g. by rewrite Ha, Hc. Qed.

(** ** Ordering *)

(** [quiet] and [fence] of a context reach every process: each has exactly one
    call for every processing element, on the queue pair that transfers to it are
    posted to, in order, and they end with the flush. *)
Theorem quiet_fence_cover (c : GPUIBContext) (pe : Z) :
  0 ≤ pe < ib_num_pes c →
  quiet c !! Z.to_nat pe = Some (IBQp (getQueuePair c pe) (QQuietHeavy (thread_level c) pe)) ∧
  fence c !! Z.to_nat pe = Some (IBQp (getQueuePair c pe) (QFence pe)) ∧
  quiet c !! Z.to_nat (ib_num_pes c) = Some IBFlush ∧ fence c !! Z.to_nat (ib_num_pes c) = Some IBFlush ∧
  0 ≤ getQueuePair c pe < getNumQueuePairs c.
Proof.
  intros Hp. assert (∀ f : Z → ib_effect,
    ((f <$> seqZ 0 (getNumDest c)) ++ [IBFlush]) !! Z.to_nat pe = Some (f pe) ∧
    ((f <$> seqZ 0 (getNumDest c)) ++ [IBFlush]) !! Z.to_nat (ib_num_pes c) = Some IBFlush) as Hf.
  { intros f. unfold getNumDest. split.
    - rewrite lookup_app_l by (rewrite length_fmap, length_seqZ; lia).
      rewrite list_lookup_fmap, lookup_seqZ_lt by lia. cbn. f_equal. f_equal. lia.
    - rewrite list_lookup_middle; [done|]. by rewrite length_fmap, length_seqZ. }
  unfold quiet, fence. do 4 (split; [apply (Hf (λ k, IBQp (getQueuePair c k) _))|]).
  unfold getQueuePair, getNumQueuePairs. case_if; lia.
Qed.

Lemma quiet_fence_cover_witness :
  quiet ctx !! 3%nat = Some (IBQp 3 (QQuietHeavy SingleThreadImpl 3)) ∧
  fence ctx !! 3%nat = Some (IBQp 3 (QFence 3)) ∧
  quiet ctx !! 6%nat = Some IBFlush ∧ fence ctx !! 6%nat = Some IBFlush ∧ 0 ≤ 3 < 6.
Proof. apply (quiet_fence_cover ctx 3). cbn. lia. Defined.

(** ** Contexts do not share *)

(** The first of the queue pairs and the slots for returned values of a context. *)
Lemma global_qp_bounds num_wg n i b :
  0 ≤ b < num_wg → 0 ≤ i < n → 0 ≤ global_qp num_wg i b < num_wg * n.
Proof. unfold global_qp. intros ? ?. nia. Qed.

Lemma global_qp_inj num_wg i j b1 b2 :
  0 ≤ b1 < num_wg → 0 ≤ b2 < num_wg →
  global_qp num_wg i b1 = global_qp num_wg j b2 → i = j ∧ b1 = b2.
Proof. unfold global_qp. intros ? ? E. assert (i = j) by nia. subst. split; [done|lia]. Qed.

(** C20: In every state of the pool of buffers that work-groups reach, whatever the
    order of their accesses, the contexts of two different work-groups share
    nothing: their queue pairs are different members of the backend's array of
    [num_wg * getNumQueuePairs()], and the slots for the values that their atomics
    return are different ones of its [max_nb_atomic * num_wg]. *)
Theorem contexts_share_nothing (c : GPUIBContext) (num_wg : Z) (p : wg_pool) (g1 g2 b1 b2 : Z) qp1 a1 qp2 a2 :
  0 < num_wg → rtc (pool_step num_wg) (mkPool (default_ctx_tokens num_wg) ∅) p →
  g1 ≠ g2 → wgs p !! g1 = Some (HasBuffer b1) → wgs p !! g2 = Some (HasBuffer b2) →
  (qp1, a1) ∈ networkGpuInit c num_wg b1 → (qp2, a2) ∈ networkGpuInit c num_wg b2 →
  qp1 ≠ qp2 ∧ 0 ≤ qp1 < num_wg * getNumQueuePairs c ∧
  (∀ k1 k2, 0 ≤ k1 < max_nb_atomic → 0 ≤ k2 < max_nb_atomic → a1 + k1 ≠ a2 + k2) ∧
  ∀ k, 0 ≤ k < max_nb_atomic → 0 ≤ a1 + k < max_nb_atomic * num_wg.
Proof.
  intros Hn Hr Hne H1 H2 Hi1 Hi2.
  destruct (pool_reachable num_wg p Hn Hr) as ([_ Hh Hi _] & _ & Hlen).
  apply list_elem_of_fmap in Hi1 as (i & [= -> ->] & Hi1). apply elem_of_seqZ in Hi1.
  apply list_elem_of_fmap in Hi2 as (j & [= -> ->] & Hi2). apply elem_of_seqZ in Hi2.
  assert (0 ≤ b1 < num_wg ∧ 0 ≤ b2 < num_wg) as [Hb1 Hb2].
  { destruct (Hh _ _ H1) as [? Hl1]. destruct (Hh _ _ H2) as [? Hl2].
    apply lookup_lt_Some in Hl1, Hl2. rewrite Hlen in *. lia. }
  assert (b1 ≠ b2) as Hb by (intros ->; apply Hne; by eapply Hi).
  split; [by intros [_ ?]%global_qp_inj|]. split; [apply global_qp_bounds; lia|].
  unfold atomic_base, QueuePair.max_nb_atomic. split; [intros; lia|]. intros. lia.
Qed.

Lemma contexts_share_nothing_witness :
  1 ≠ 6 ∧ 0 ≤ 1 < 3 * 6 ∧
  (∀ k1 k2, 0 ≤ k1 < max_nb_atomic → 0 ≤ k2 < max_nb_atomic → 4096 + k1 ≠ 0 + k2) ∧
  ∀ k, 0 ≤ k < max_nb_atomic → 0 ≤ 4096 + k < max_nb_atomic * 3.
Proof.
  apply (contexts_share_nothing ctx 3 two_groups 7 8 1 0 1 4096 6 0);
    [lia|exact two_groups_reached|lia|reflexivity|reflexivity| |].
  - apply list_elem_of_fmap. exists 0. split; [reflexivity|apply elem_of_seqZ; cbn; lia].
  - apply list_elem_of_fmap. exists 2. split; [reflexivity|apply elem_of_seqZ; cbn; lia].
Defined.

(** ** Opening and closing a context *)

(** The indices of the thread [thread_id] of a block of [block_size]. *)
Definition thread_part (n block_size thread_id : Z) : list Z := strided (Z.to_nat n) thread_id n block_size.

(** [heap_bases[i] = handle_heap_bases[i]] of the constructor, for the indices in
    the order in which the threads get to them. *)
Definition copy_heap_bases (handle_heap_bases : list Z) (order : list Z) (heap_bases : list Z)
    : result (list Z) :=
  foldl (λ r i, h ← r; b ← vec_at handle_heap_bases i; Ok (<[Z.to_nat i := b]> h)) (Ok heap_bases) order.

(** [ctx_destroy] of one thread: the queue pairs that it destroys; the destructor
    ends with [__syncthreads]. *)
Inductive close_effect := Destroy (qp : Z) | CloseSync.
#[export] Instance close_effect_eq_dec : EqDecision close_effect.
Proof. solve_decision. Defined.
Definition ctx_destroy (c : GPUIBContext) (block_size thread_id : Z) : list close_effect :=
  [CloseSync] ++
  (thread_part (getNumQueuePairs c) block_size thread_id ≫= λ i, [Destroy (getQueuePair c i); CloseSync]) ++
  [CloseSync].

Lemma elem_thread_part n block_size t x :
  0 ≤ t < block_size → x ∈ thread_part n block_size t ↔ 0 ≤ x < n ∧ x `mod` block_size = t.
Proof. intros Ht. apply elem_of_strided_mod; lia. Qed.

(** The copies of any list of indices. *)
Lemma copy_part hs l : ∀ h,
  (∀ i, i ∈ l → 0 ≤ i < Z.of_nat (length hs)) → length h = length hs →
  ∃ h', copy_heap_bases hs l h = Ok h' ∧
    length h' = length hs ∧
    ∀ j, h' !! j = if decide (Z.of_nat j ∈ l) then hs !! j else h !! j.
Proof.
  unfold copy_heap_bases. induction l as [|i l IH]; intros h Hl Hh; cbn [foldl].
  - exists h. split; [done|]. split; [done|]. intros j. rewrite decide_False; [done|apply not_elem_of_nil].
  - pose proof (Hl i ltac:(by left)) as Hi. destruct (lookup_lt_is_Some_2 hs (Z.to_nat i)) as [b Hb]; [lia|].
    rewrite (vec_at_Z hs i b) by (done || lia). cbn [mbind result_bind].
    destruct (IH (<[Z.to_nat i := b]> h)) as (h' & Hr & Hh' & Hj);
      [intros j Hj; apply Hl; by right|by rewrite length_insert|].
    exists h'. split; [done|]. split; [done|]. intros j. rewrite Hj.
    destruct (decide (Z.of_nat j ∈ l)) as [Hin|Hin];
      [rewrite decide_True; [done|by right]|].
    destruct (decide (Z.of_nat j = i)) as [<-|Hne].
    + rewrite decide_True by by left. rewrite Nat2Z.id in *. rewrite list_lookup_insert_eq by lia. done.
    + rewrite decide_False by (rewrite elem_of_cons; naive_solver).
      by rewrite list_lookup_insert_ne by lia.
Qed.

(** The threads of a block copy the table of heaps completely, in whatever
    order their stores interleave; and when the context is closed every queue pair
    of it is destroyed by exactly one thread. *)
Theorem context_open_close (c : GPUIBContext) (block_size : Z) (handle_heap_bases heap_bases order : list Z) :
  0 < block_size → length heap_bases = length handle_heap_bases →
  order ≡ₚ (seqZ 0 block_size ≫= thread_part (Z.of_nat (length handle_heap_bases)) block_size) →
  copy_heap_bases handle_heap_bases order heap_bases = Ok handle_heap_bases ∧
  ∀ i t, 0 ≤ i < getNumQueuePairs c → 0 ≤ t < block_size →
    Destroy (getQueuePair c i) ∈ ctx_destroy c block_size t ↔ t = i `mod` block_size.
Proof.
  intros Hb Hl Ho. set (n := Z.of_nat _) in Ho.
  assert (∀ i, i ∈ order ↔ 0 ≤ i < n) as Hin.
  { intros i. rewrite Ho, list_elem_of_bind. setoid_rewrite elem_of_seqZ. split.
    - intros (t & H & Ht). apply elem_thread_part in H; lia.
    - intros Hi. pose proof (Z.mod_pos_bound i block_size Hb).
      exists (i `mod` block_size). rewrite elem_thread_part by lia. lia. }
  split.
  - destruct (copy_part handle_heap_bases order heap_bases) as (h' & -> & Hl' & Hj); [by intros i ?%Hin|done|].
    f_equal. apply list_eq. intros j. rewrite Hj. destruct (decide (Z.of_nat j ∈ order)) as [|Hn]; [done|].
    rewrite Hin in Hn. rewrite !lookup_ge_None_2; [done|lia..].
  - intros i t Hi Ht. unfold ctx_destroy. rewrite !elem_of_app, list_elem_of_bind, !list_elem_of_singleton. split.
    + intros [?|[(j & Hd & Hj)|?]]; [done| |done]. apply elem_thread_part in Hj as [Hj <-]; [|done].
      apply elem_of_cons in Hd as [[= Hd]|Hd]; [|by apply list_elem_of_singleton in Hd].
      unfold getQueuePair, getNumQueuePairs in *. destruct (use_dc c); [|by rewrite Hd].
      by replace j with i by lia.
    + intros ->. right. left. exists i. split; [by left|]. by apply elem_thread_part.
Qed.

Lemma context_open_close_witness :
  copy_heap_bases [16; 32; 48] [1; 0; 2] [0; 0; 0] = Ok [16; 32; 48] ∧
  ∀ i t, 0 ≤ i < 6 → 0 ≤ t < 2 → Destroy (getQueuePair ctx i) ∈ ctx_destroy ctx 2 t ↔ t = i `mod` 2.
Proof.
  apply (context_open_close ctx 2 [16; 32; 48] [0; 0; 0] [1; 0; 2]); [lia|reflexivity|].
  change (_ ≫= _) with [0; 2; 1]. solve_Permutation.
Defined.

(** The destructor of a queue pair is a barrier of the block inside that loop:
    when there are fewer queue pairs than threads, as always with dynamic
    connections and more than one thread, threads meet different numbers of
    barriers. *)
Theorem ctx_destroy_diverges (c : GPUIBContext) (block_size : Z) :
  0 < getNumQueuePairs c < block_size →
  let barriers t := length (filter (λ e, e = CloseSync) (ctx_destroy c block_size t)) in
  barriers 0 = 3%nat ∧ barriers (getNumQueuePairs c) = 2%nat.
Proof.
  intros Hn. set (n := getNumQueuePairs c) in *. cbn zeta. unfold ctx_destroy, thread_part. fold n.
  assert (∀ fuel i, (0 < fuel)%nat → 0 ≤ i → strided fuel i n block_size = if i <? n then [i] else []) as H.
  { intros [|fuel] i Hf Hi; [lia|]. cbn [strided]. case_if; [|done]. f_equal.
    destruct fuel; [done|]. cbn [strided]. by rewrite (proj2 (Z.ltb_ge _ _)) by lia. }
  rewrite !H by lia. rewrite (proj2 (Z.ltb_lt 0 n)), Z.ltb_irrefl by lia. done.
Qed.
