(* ===== verification/Connection.v ===== *)
(** * Connections of the InfiniBand backend

    [gpu_ib/connection.cpp] with its two kinds, [gpu_ib/reliable_connection.cpp] and
    [gpu_ib/dynamic_connection.cpp]: a process opens a device, creates queue pairs,
    exchanges their numbers with all processes and takes them through their states.
    The verbs library and MPI are parameters.  Shown: after the set-up of all
    processes each queue pair talks to the matching one of the right process, the
    attributes passed are those that the transitions need, and every failing call
    ends the set-up with an error. *)
From stdpp Require Import strings.
From S2P Require Import Prelude Endian Util MPITransport.

Local Open Scope Z_scope.

(** ** Status codes *)

Inductive Status :=
  | ROC_SHMEM_UNKNOWN_ERROR
  | ROC_SHMEM_INVALID_ARGUMENTS
  | ROC_SHMEM_OOM_ERROR
  | ROC_SHMEM_TOO_MANY_TEAMS_ERROR
  | ROC_SHMEM_SUCCESS.

(** A function that returns [ROC_SHMEM_SUCCESS] with the new state, another status,
    or does not return. *)
Inductive outcome (A : Type) :=
  | Success (a : A)
  | Returned (s : Status)
  | Faulted (f : fault).
Arguments Success {A} a.
Arguments Returned {A} s.
Arguments Faulted {A} f.

#[export] Instance outcome_ret : MRet outcome := λ A a, Success a.
#[export] Instance outcome_bind : MBind outcome := λ A B k m,
  match m with Success a => k a | Returned s => Returned s | Faulted f => Faulted f end.

Definition lift {A} (r : result A) : outcome A :=
  match r with Ok a => Success a | Fail f => Faulted f end.

(** [if (!b) return Status::ROC_SHMEM_UNKNOWN_ERROR;] *)
Definition check (b : bool) : outcome unit :=
  if b then Success tt else Returned ROC_SHMEM_UNKNOWN_ERROR.

(** A loop over [l] that stops at the first error. *)
Fixpoint for_each {A S} (l : list A) (body : A → S → outcome S) (s : S) : outcome S :=
  match l with
  | [] => Success s
  | x :: l' => s ← body x s; for_each l' body s
  end.

(** ** Attributes of queue pairs *)

Inductive ibv_qp_state := IBV_QPS_RESET | IBV_QPS_INIT | IBV_QPS_RTR | IBV_QPS_RTS.

Inductive ibv_access_flags :=
  | IBV_ACCESS_LOCAL_WRITE | IBV_ACCESS_REMOTE_WRITE | IBV_ACCESS_REMOTE_READ
  | IBV_ACCESS_REMOTE_ATOMIC | IBV_ACCESS_ON_DEMAND.

Inductive ibv_qp_attr_mask :=
  | IBV_QP_STATE | IBV_QP_PKEY_INDEX | IBV_QP_PORT | IBV_QP_ACCESS_FLAGS | IBV_QP_AV
  | IBV_QP_PATH_MTU | IBV_QP_DEST_QPN | IBV_QP_RQ_PSN | IBV_QP_MAX_DEST_RD_ATOMIC
  | IBV_QP_MIN_RNR_TIMER | IBV_QP_TIMEOUT | IBV_QP_RETRY_CNT | IBV_QP_RNR_RETRY
  | IBV_QP_MAX_QP_RD_ATOMIC | IBV_QP_SQ_PSN.

(** The numeric members of [ibv_qp_attr], those of its address handle with [ah_]. *)
Inductive attr_field :=
  | pkey_index | port_num | path_mtu | min_rnr_timer | max_dest_rd_atomic | dest_qp_num
  | rq_psn | sq_psn | timeout | retry_cnt | rnr_retry | max_rd_atomic
  | ah_sl | ah_port_num | ah_is_global | ah_dlid | ah_dgid | ah_sgid_index | ah_hop_limit
  | ah_traffic_class.

#[export] Instance attr_field_eq_dec : EqDecision attr_field.
Proof. solve_decision. Defined.
#[export] Instance attr_mask_eq_dec : EqDecision ibv_qp_attr_mask.
Proof. solve_decision. Defined.
#[export] Instance qp_state_eq_dec : EqDecision ibv_qp_state.
Proof. solve_decision. Defined.

(** The mask bit that makes a member count. *)
Definition mask_of (f : attr_field) : ibv_qp_attr_mask :=
  match f with
  | pkey_index => IBV_QP_PKEY_INDEX | port_num => IBV_QP_PORT | path_mtu => IBV_QP_PATH_MTU
  | min_rnr_timer => IBV_QP_MIN_RNR_TIMER | max_dest_rd_atomic => IBV_QP_MAX_DEST_RD_ATOMIC
  | dest_qp_num => IBV_QP_DEST_QPN | rq_psn => IBV_QP_RQ_PSN | sq_psn => IBV_QP_SQ_PSN
  | timeout => IBV_QP_TIMEOUT | retry_cnt => IBV_QP_RETRY_CNT | rnr_retry => IBV_QP_RNR_RETRY
  | max_rd_atomic => IBV_QP_MAX_QP_RD_ATOMIC
  | _ => IBV_QP_AV
  end.

(** [class Connection::State] and what its subclasses' constructors set. *)
Record State := mkState {
  qp_state : ibv_qp_state;
  qp_access_flags : list ibv_access_flags;
  exp_qp_attr : attr_field → Z;
  exp_attr_mask : list ibv_qp_attr_mask
}.

Definition set_attr (f : attr_field) (v : Z) (s : State) : State :=
  mkState (qp_state s) (qp_access_flags s) (λ g, if decide (g = f) then v else exp_qp_attr s g) (exp_attr_mask s).
Definition add_mask (l : list ibv_qp_attr_mask) (s : State) : State :=
  mkState (qp_state s) (qp_access_flags s) (exp_qp_attr s) (exp_attr_mask s ++ l).
Definition set_access (l : list ibv_access_flags) (s : State) : State :=
  mkState (qp_state s) l (exp_qp_attr s) (exp_attr_mask s).

Definition all_access : list ibv_access_flags :=
  [IBV_ACCESS_REMOTE_WRITE; IBV_ACCESS_LOCAL_WRITE; IBV_ACCESS_REMOTE_READ; IBV_ACCESS_REMOTE_ATOMIC].

(** The enumerator of [verbs.h] for packets of 4096 bytes. *)
Definition IBV_MTU_4096 : Z := 5.

Definition InitQPState : State :=
  mkState IBV_QPS_INIT all_access (λ _, 0) [IBV_QP_STATE; IBV_QP_PKEY_INDEX; IBV_QP_PORT].
Definition RtrState : State :=
  set_attr path_mtu IBV_MTU_4096 (set_attr ah_sl 1 (set_attr max_dest_rd_atomic 1 (set_attr min_rnr_timer 12
    (mkState IBV_QPS_RTR [] (λ _, 0) [IBV_QP_STATE; IBV_QP_AV; IBV_QP_PATH_MTU])))).
Definition RtsState : State :=
  set_attr timeout 14 (set_attr retry_cnt 7 (set_attr rnr_retry 7 (set_attr max_rd_atomic 1
    (mkState IBV_QPS_RTS [] (λ _, 0)
       [IBV_QP_STATE; IBV_QP_TIMEOUT; IBV_QP_RETRY_CNT; IBV_QP_RNR_RETRY; IBV_QP_MAX_QP_RD_ATOMIC])))).

Record dest_info := mkDest { d_lid : Z; d_qpn : Z; d_psn : Z; d_gid : Z }.

(** ** The verbs library *)

Record ibv_qp := mkIbvQp {
  qp_num : Z;
  qp_in_state : ibv_qp_state;
  qp_access : list ibv_access_flags;
  qp_attrs : attr_field → Z
}.

(** What the library answers to one process: the names of the devices; whether the
    device opens and gives a protection domain; for the creation of completion
    queues, queue pairs and targets, by the number of the call; and transitions. *)
Class Verbs := {
  ibv_get_device_list : option (list string);
  ibv_open_device : string → bool;
  ibv_alloc_pd : bool;
  port_lid : Z;
  port_gid : Z;
  link_layer_infiniband : bool;
  malloc_ok : bool;
  ibv_create_cq : nat → bool;
  ibv_create_srq : bool;
  ibv_create_ah : bool;
  ibv_create_qp : nat → option Z;
  create_dct_num : nat → option Z;
  ibv_modify_qp : ibv_qp → State → option ibv_qp
}.

(** A transition that succeeds sets the state and the members that the mask names. *)
Definition modified (q : ibv_qp) (s : State) : ibv_qp :=
  mkIbvQp (qp_num q) (qp_state s)
    (if decide (IBV_QP_ACCESS_FLAGS ∈ exp_attr_mask s) then qp_access_flags s else qp_access q)
    (λ f, if decide (mask_of f ∈ exp_attr_mask s) then exp_qp_attr s f else qp_attrs q f).

Class VerbsLaws (V : Verbs) : Prop := {
  modify_effect : ∀ q s q', ibv_modify_qp q s = Some q' → q' = modified q s
}.

(** ** [class Connection] *)

(** What it uses of the backend. *)
Record backend_info := mkBackend { bk_num_pes : Z; bk_my_pe : Z; bk_num_wg : Z }.

(** The members that the set-up changes; [c_own] holds those of the subclass. *)
Record connection (D : Type) := mkConn {
  c_sq_size : Z;
  c_cqs : nat;
  c_qps : list ibv_qp;
  c_own : D
}.
Arguments mkConn {D}.
Arguments c_sq_size {D}.
Arguments c_cqs {D}.
Arguments c_qps {D}.
Arguments c_own {D}.

(** The virtual methods. *)
Class ConnectionKind (D : Type) := {
  key_offset : Z;
  initqp : Z → State;
  rtr : option dest_info → Z → result State;
  rts : option dest_info → result State;
  get_remote_conn : backend_info → D → Z;
  allocate_dynamic_members : backend_info → D → outcome D;
  free_dynamic_members : D → D;
  create_qps_1 : D → outcome D;
  create_qps_2 : backend_info → Z → D → outcome D;
  create_qps_3 : Z → nat → ibv_qp → D → outcome (ibv_qp * D);
  initialize_1 : backend_info → Z → connection D → outcome (connection D)
}.

(** [v[i] = x] of a vector. *)
Definition vec_set {A} (l : list A) (i : Z) (x : A) : result (list A) :=
  if (0 <=? i) && (i <? Z.of_nat (length l)) then Ok (<[Z.to_nat i := x]> l) else Fail BadAccess.

Section methods.
Context {V : Verbs}.

Definition try_to_modify_qp (q : ibv_qp) (s : State) : outcome ibv_qp :=
  match ibv_modify_qp q s with Some q' => Success q' | None => Returned ROC_SHMEM_UNKNOWN_ERROR end.

(** The device whose name contains the requested one, or the first. *)
Definition choose_device (requested_dev : option string) (dev_list : list string) : result string :=
  first ← must (head dev_list);
  match requested_dev with
  | None => Ok first
  | Some name =>
      Ok (default first (list_find (λ d, is_Some (String.index 0 name d)) dev_list ≫= λ x, Some x.2))
  end.

Definition ib_init (dev : string) : outcome unit :=
  _ ← check (ibv_open_device dev); check ibv_alloc_pd.

Section kind.
Context {D : Type} {K : ConnectionKind D} (b : backend_info).

Definition init_qp_status (q : ibv_qp) (port : Z) : outcome ibv_qp := try_to_modify_qp q (initqp port).
Definition change_status_rtr (q : ibv_qp) (dest : option dest_info) (port : Z) : outcome ibv_qp :=
  s ← lift (rtr dest port); try_to_modify_qp q s.
Definition change_status_rts (q : ibv_qp) (dest : option dest_info) : outcome ibv_qp :=
  s ← lift (rts dest); try_to_modify_qp q s.

Definition total_number_connections (d : D) : Z := u32 (bk_num_wg b * get_remote_conn b d).

(** One round of the last loop of [create_qps]. *)
Definition create_one (port : Z) (i : nat) (c : connection D) : outcome (connection D) :=
  match ibv_create_qp i with
  | None => Returned ROC_SHMEM_UNKNOWN_ERROR
  | Some num =>
      '(q, d) ← create_qps_3 port i (mkIbvQp num IBV_QPS_RESET [] (λ _, 0)) (c_own c);
      Success (mkConn (c_sq_size c) (c_cqs c) (c_qps c ++ [q]) d)
  end.

(** [qps[i]] is written in order, so [c_qps] holds the first ones. *)
Definition create_qps (port : Z) (c : connection D) : outcome (connection D) :=
  d ← create_qps_1 (c_own c);
  let qp_size := Z.to_nat (total_number_connections d) in
  _ ← for_each (seq 0 qp_size) (λ k _, check (ibv_create_cq k)) tt;
  d ← create_qps_2 b port d;
  for_each (seq 0 qp_size) (create_one port) (mkConn (c_sq_size c) qp_size [] d).

Definition initialize (requested_dev : option string) (c : connection D) : outcome (connection D) :=
  d ← allocate_dynamic_members b (c_own c);
  dev_list ← match ibv_get_device_list with
             | Some l => Success l | None => Returned ROC_SHMEM_UNKNOWN_ERROR end;
  ib_dev ← lift (choose_device requested_dev dev_list);
  let port := 1 in
  _ ← ib_init ib_dev;
  _ ← check malloc_ok;
  c ← create_qps port (mkConn (c_sq_size c) (c_cqs c) (c_qps c) d);
  c ← initialize_1 b port c;
  Success (mkConn (c_sq_size c) (c_cqs c) (c_qps c) (free_dynamic_members (c_own c))).
End kind.

(** ** [class ReliableConnection] *)

Section reliable.
(** [MPI_Alltoall] in place, of blocks of so many elements, as this process sees it. *)
Context (MPI_Alltoall : Z → list dest_info → list dest_info).

Definition rc_initqp (port : Z) : State :=
  add_mask [IBV_QP_ACCESS_FLAGS] (set_attr port_num port (set_access all_access InitQPState)).

Definition rc_rtr (dest : option dest_info) (port : Z) : result State :=
  dest ← must dest;
  let s := set_attr ah_port_num port (set_attr rq_psn (d_psn dest) (set_attr dest_qp_num (d_qpn dest) RtrState)) in
  let s := if link_layer_infiniband then set_attr ah_dlid (d_lid dest) s
           else set_attr ah_hop_limit 1 (set_attr ah_sgid_index 0 (set_attr ah_dgid (d_gid dest)
                  (set_attr ah_is_global 1 s))) in
  Ok (add_mask [IBV_QP_DEST_QPN; IBV_QP_RQ_PSN; IBV_QP_MAX_DEST_RD_ATOMIC; IBV_QP_MIN_RNR_TIMER] s).

Definition rc_rts (dest : option dest_info) : result State :=
  dest ← must dest; Ok (add_mask [IBV_QP_SQ_PSN] (set_attr sq_psn (d_psn dest) RtsState)).

(** The only member of the class is [all_qp]. *)
Definition rc_create_qps_3 (port : Z) (offset : nat) (q : ibv_qp) (all_qp : list dest_info)
    : outcome (ibv_qp * list dest_info) :=
  q ← try_to_modify_qp q (rc_initqp port);
  all_qp ← lift (vec_set all_qp (Z.of_nat offset) (mkDest port_lid (qp_num q) 0 port_gid));
  Success (q, all_qp).

(** A loop over [qps] with the entries of [all_qp]. *)
Definition transition_all (change : ibv_qp → option dest_info → outcome ibv_qp)
    (c : connection (list dest_info)) : outcome (connection (list dest_info)) :=
  qps ← for_each (seq 0 (length (c_qps c))) (λ i qps,
          q ← lift (vec_at qps (Z.of_nat i)); dest ← lift (vec_at (c_own c) (Z.of_nat i));
          q ← change q (Some dest); Success (<[i := q]> qps)) (c_qps c);
  Success (mkConn (c_sq_size c) (c_cqs c) qps (c_own c)).

Definition rc_initialize_1 (b : backend_info) (port : Z) (c : connection (list dest_info))
    : outcome (connection (list dest_info)) :=
  let c := mkConn (c_sq_size c) (c_cqs c) (c_qps c) (MPI_Alltoall (bk_num_wg b) (c_own c)) in
  c ← transition_all (λ q dest, s ← lift (rc_rtr dest port); try_to_modify_qp q s) c;
  transition_all (λ q dest, s ← lift (rc_rts dest); try_to_modify_qp q s) c.

Definition rc_allocate_dynamic_members (b : backend_info) (all_qp : list dest_info)
    : outcome (list dest_info) :=
  Success (resize (Z.to_nat (bk_num_pes b * bk_num_wg b)) (mkDest 0 0 0 0) all_qp).

Definition ReliableConnection : ConnectionKind (list dest_info) := {|
  key_offset := 0;
  initqp := rc_initqp;
  rtr := rc_rtr;
  rts := rc_rts;
  get_remote_conn := λ b _, bk_num_pes b;
  allocate_dynamic_members := rc_allocate_dynamic_members;
  free_dynamic_members := λ d, d;
  create_qps_1 := Success;
  create_qps_2 := λ _ _, Success;
  create_qps_3 := rc_create_qps_3;
  initialize_1 := rc_initialize_1
|}.
End reliable.
End methods.

(** ** [class DynamicConnection] *)

(** The arrays of the host are gone after [free_dynamic_members]. *)
Record dc_members := mkDc {
  num_dcis : Z;
  num_dct : Z;
  lids : option (list Z);
  dcts_num : option (list Z);
  vec_lids : list Z;
  vec_dct_num : list Z
}.

Section dynamic.
Context {V : Verbs}.
(** [MPI_Allgather] in place, of blocks of so many elements, as this process sees it. *)
Context (MPI_Allgather : Z → list Z → list Z).

Definition dc_initqp (port : Z) : State :=
  set_access [] (set_attr pkey_index 0 (set_attr port_num port InitQPState)).
Definition dc_rtr (dest : option dest_info) (port : Z) : result State :=
  Ok (set_attr min_rnr_timer 0 (set_attr max_dest_rd_atomic 0 (set_attr ah_port_num port
        (set_attr ah_is_global 1 RtrState)))).
Definition dc_rts (dest : option dest_info) : result State := Ok (add_mask [IBV_QP_SQ_PSN] RtsState).

Definition connect_dci (q : ibv_qp) (port : Z) : outcome ibv_qp :=
  q ← try_to_modify_qp q (dc_initqp port);
  s ← lift (dc_rtr None port);
  q ← try_to_modify_qp q s;
  s ← lift (dc_rts None);
  try_to_modify_qp q s.

(** The attributes of both transitions are those of one variable. *)
Definition dct_init (port : Z) : State :=
  set_attr port_num port (mkState IBV_QPS_INIT all_access (λ _, 0)
    [IBV_QP_STATE; IBV_QP_PKEY_INDEX; IBV_QP_PORT; IBV_QP_ACCESS_FLAGS]).
Definition dct_rtr (port : Z) : State :=
  set_attr ah_port_num port (set_attr ah_sgid_index 0 (set_attr ah_traffic_class 0 (set_attr ah_hop_limit 1
    (set_attr ah_is_global 1 (set_attr min_rnr_timer 7 (set_attr path_mtu IBV_MTU_4096
      (mkState IBV_QPS_RTR all_access (exp_qp_attr (dct_init port))
         [IBV_QP_STATE; IBV_QP_MIN_RNR_TIMER; IBV_QP_AV; IBV_QP_PATH_MTU]))))))).

Definition create_dct (port : Z) (i : nat) : outcome Z :=
  match create_dct_num i with
  | None => Returned ROC_SHMEM_UNKNOWN_ERROR
  | Some num =>
      q ← try_to_modify_qp (mkIbvQp num IBV_QPS_RESET [] (λ _, 0)) (dct_init port);
      q ← try_to_modify_qp q (dct_rtr port);
      Success (qp_num q)
  end.

Definition dc_create_qps_1 (d : dc_members) : outcome dc_members :=
  _ ← check ibv_create_srq; _ ← check (ibv_create_cq 0); Success d.

Definition dc_create_qps_2 (b : backend_info) (port : Z) (d : dc_members) : outcome dc_members :=
  dcts ← lift (must (dcts_num d));
  dcts ← for_each (seqZ 0 (num_dct d)) (λ i dcts,
           dct_num ← create_dct port (Z.to_nat i);
           lift (vec_set dcts (bk_my_pe b * num_dct d + i) (swap_endian_u32 dct_num))) dcts;
  l ← lift (must (lids d));
  l ← lift (vec_set l (bk_my_pe b) (swap_endian_u16 (u16 port_lid)));
  Success (mkDc (num_dcis d) (num_dct d) (Some l) (Some dcts) (vec_lids d) (vec_dct_num d)).

(** The content of fresh memory is arbitrary; here zero. *)
Definition dc_allocate_dynamic_members (b : backend_info) (d : dc_members) : outcome dc_members :=
  _ ← check malloc_ok;
  Success (mkDc (num_dcis d) (num_dct d) (Some (replicate (Z.to_nat (bk_num_pes b)) 0))
             (Some (replicate (Z.to_nat (num_dct d * bk_num_pes b)) 0)) (vec_lids d) (vec_dct_num d)).

Definition dc_free_dynamic_members (d : dc_members) : dc_members :=
  mkDc (num_dcis d) (num_dct d) None None (vec_lids d) (vec_dct_num d).

Definition dc_initialize_1 (b : backend_info) (port : Z) (c : connection dc_members)
    : outcome (connection dc_members) :=
  let d := c_own c in
  dcts ← lift (must (dcts_num d));
  l ← lift (must (lids d));
  let dcts := MPI_Allgather (num_dct d) dcts in
  let l := MPI_Allgather 1 l in
  _ ← check ibv_create_ah;
  Success (mkConn (c_sq_size c) (c_cqs c) (c_qps c)
             (mkDc (num_dcis d) (num_dct d) (Some l) (Some dcts) l dcts)).

Definition DynamicConnection : ConnectionKind dc_members := {|
  key_offset := 4;
  initqp := dc_initqp;
  rtr := dc_rtr;
  rts := dc_rts;
  get_remote_conn := λ _ d, num_dcis d;
  allocate_dynamic_members := dc_allocate_dynamic_members;
  free_dynamic_members := dc_free_dynamic_members;
  create_qps_1 := dc_create_qps_1;
  create_qps_2 := dc_create_qps_2;
  create_qps_3 := λ port _ q d, q ← connect_dci q port; Success (q, d);
  initialize_1 := dc_initialize_1
|}.
End dynamic.

(** ** Reading the environment *)

(** [atoi] of a variable that is set; the other members keep their defaults. *)
Definition Connection_new {D} (sq_size_env : option Z) (d : D) : connection D :=
  mkConn (u32 (default 1024 sq_size_env)) 0 [] d.
Definition DynamicConnection_new (sq_size_env dcis_env dct_env : option Z) : connection dc_members :=
  Connection_new sq_size_env
    (mkDc (default 1 dcis_env) (default 1 dct_env) None None [] []).
Definition ReliableConnection_new (sq_size_env : option Z) : connection (list dest_info) :=
  Connection_new sq_size_env [].

(** ** Loops *)

Section loops.
Context {A S : Type} (I : nat → S → Prop).

Lemma for_each_inv (body : A → S → outcome S) l s' : ∀ k s,
  I k s → (∀ j x s s', l !! j = Some x → I (k + j) s → body x s = Success s' → I (Datatypes.S (k + j)) s') →
  for_each l body s = Success s' → I (k + length l) s'.
Proof.
  induction l as [|x l IH]; intros k s Hs Hb; cbn [for_each length].
  - intros [= <-]. by rewrite Nat.add_0_r.
  - destruct (body x s) as [s1| |] eqn:E; [|done..]. cbn [mbind outcome_bind]. intros H.
    replace (k + _)%nat with (Datatypes.S k + length l)%nat by lia. apply (IH (Datatypes.S k) s1); [|intros j y t t' Hj Ht Hy|done].
    + specialize (Hb 0%nat x s s1 eq_refl). rewrite Nat.add_0_r in Hb. by apply Hb.
    + replace (Datatypes.S k + j)%nat with (k + Datatypes.S j)%nat in * by lia. by eapply Hb.
Qed.
End loops.

Lemma outcome_bind_inv {A B} (m : outcome A) (k : A → outcome B) x :
  m ≫= k = Success x → ∃ a, m = Success a ∧ k a = Success x.
Proof. destruct m; naive_solver. Qed.

Lemma vec_set_inv {A} (l l' : list A) i x :
  vec_set l i x = Ok l' → 0 ≤ i < Z.of_nat (length l) ∧ l' = <[Z.to_nat i := x]> l.
Proof. unfold vec_set. case_if; [|done]. intros [= <-]. apply andb_true_iff in Heqb as [? ?]. split; [lia|done]. Qed.

Lemma lift_Success {A} (r : result A) a : lift r = Success a → r = Ok a.
Proof. destruct r; naive_solver. Qed.

(** ** The transitions of a reliable connection *)

(** What [ibv_modify_qp] documents as required for each transition of a queue pair of
    a reliable connection. *)
Definition rc_required (s : ibv_qp_state) : list ibv_qp_attr_mask :=
  match s with
  | IBV_QPS_RESET => [IBV_QP_STATE]
  | IBV_QPS_INIT => [IBV_QP_STATE; IBV_QP_PKEY_INDEX; IBV_QP_PORT; IBV_QP_ACCESS_FLAGS]
  | IBV_QPS_RTR => [IBV_QP_STATE; IBV_QP_AV; IBV_QP_PATH_MTU; IBV_QP_DEST_QPN; IBV_QP_RQ_PSN;
                    IBV_QP_MAX_DEST_RD_ATOMIC; IBV_QP_MIN_RNR_TIMER]
  | IBV_QPS_RTS => [IBV_QP_STATE; IBV_QP_TIMEOUT; IBV_QP_RETRY_CNT; IBV_QP_RNR_RETRY; IBV_QP_SQ_PSN;
                    IBV_QP_MAX_QP_RD_ATOMIC]
  end.

Section rc_process.
Context {V : Verbs} {HV : VerbsLaws V} (b : backend_info).

Definition rc_total : nat := Z.to_nat (u32 (bk_num_wg b * bk_num_pes b)).

(** The queue pair after its creation, and after all transitions. *)
Definition rc_created (num : Z) : ibv_qp :=
  modified (mkIbvQp num IBV_QPS_RESET [] (λ _, 0)) (rc_initqp 1).

Definition rc_ready (q : ibv_qp) (dest : dest_info) : Prop :=
  ∃ s1 s2, rc_rtr (Some dest) 1 = Ok s1 ∧ rc_rts (Some dest) = Ok s2 ∧
    ∃ q0, q = modified (modified q0 s1) s2.

(** What a process sends to the others. *)
Definition rc_describes (c : connection (list dest_info)) : Prop :=
  length (c_qps c) = rc_total ∧ length (c_own c) = Z.to_nat (bk_num_pes b * bk_num_wg b) ∧
  ∀ i, (i < rc_total)%nat → ∃ num, ibv_create_qp i = Some num ∧
    c_qps c !! i = Some (rc_created num) ∧ c_own c !! i = Some (mkDest port_lid num 0 port_gid).

Lemma modify_Success q s q' : try_to_modify_qp q s = Success q' → q' = modified q s.
Proof using HV.
  unfold try_to_modify_qp. destruct (ibv_modify_qp q s) eqn:E; [|done]. intros [= <-]. by apply modify_effect.
Qed.

Lemma rc_create_one MPI i c c' :
  length (c_qps c) = i → create_one (K := ReliableConnection MPI) 1 i c = Success c' →
  ∃ num, ibv_create_qp i = Some num ∧ c_qps c' = c_qps c ++ [rc_created num] ∧
    (i < length (c_own c))%nat ∧ c_own c' = <[i := mkDest port_lid num 0 port_gid]> (c_own c).
Proof using HV.
  intros Hl H. unfold create_one in H. destruct (ibv_create_qp i) as [num|] eqn:E; [|done].
  apply outcome_bind_inv in H as ([q d] & H & [= <-]). cbn in H. unfold rc_create_qps_3 in H.
  apply outcome_bind_inv in H as (q' & Hq & H). apply modify_Success in Hq as ->.
  apply outcome_bind_inv in H as (l & Hl' & [= <- <-]). apply lift_Success, vec_set_inv in Hl' as [Hi ->].
  exists num. rewrite Nat2Z.id. split_and!; try done. lia.
Qed.

Lemma rc_create_qps MPI c c' :
  length (c_own c) = Z.to_nat (bk_num_pes b * bk_num_wg b) →
  create_qps (K := ReliableConnection MPI) b 1 c = Success c' → rc_describes c'.
Proof using HV.
  intros Hown H. unfold create_qps in H. cbn [create_qps_1 create_qps_2 ReliableConnection mbind outcome_bind] in H.
  apply outcome_bind_inv in H as (_ & _ & H). fold rc_total in H.
  change (Z.to_nat (total_number_connections b (c_own c))) with rc_total in H.
  set (I k (x : connection (list dest_info)) := length (c_qps x) = k ∧ length (c_own x) = length (c_own c) ∧
    ∀ i, (i < k)%nat → ∃ num, ibv_create_qp i = Some num ∧ c_qps x !! i = Some (rc_created num) ∧
      c_own x !! i = Some (mkDest port_lid num 0 port_gid)).
  apply (for_each_inv I _ _ _ 0) in H.
  - rewrite length_seq in H. destruct H as (H1 & H2 & H3). split; [done|]. split; [congruence|done].
  - split; [done|]. split; [done|lia].
  - intros j x s s' Hj (H1 & H2 & H3) Hs. apply lookup_seq in Hj as [-> _]. cbn [Nat.add] in *.
    destruct (rc_create_one MPI j s s' H1 Hs) as (num & Hn & Eq & Hlt & Eo).
    rewrite <- H1 in *. split; [rewrite Eq, length_app; cbn; lia|].
    split; [by rewrite Eo, length_insert|]. intros i Hi. rewrite Eq, Eo.
    destruct (decide (i = length (c_qps s))) as [->|Hne].
    + exists num. rewrite list_lookup_middle, list_lookup_insert_eq by done. done.
    + rewrite lookup_app_l, list_lookup_insert_ne by lia. apply H3. lia.
Qed.

(** One loop of transitions. *)
Lemma transition_all_Success change c c' :
  transition_all change c = Success c' →
  c_own c' = c_own c ∧ length (c_qps c') = length (c_qps c) ∧
  ∀ i q', c_qps c' !! i = Some q' → ∃ q dest, c_qps c !! i = Some q ∧ c_own c !! i = Some dest ∧
    change q (Some dest) = Success q'.
Proof.
  intros H. unfold transition_all in H. apply outcome_bind_inv in H as (qps & H & [= <-]).
  cbn [c_own c_qps]. split; [done|].
  set (I k (l : list ibv_qp) := length l = length (c_qps c) ∧
    (∀ i, (k ≤ i)%nat → l !! i = c_qps c !! i) ∧
    ∀ i q', (i < k)%nat → l !! i = Some q' → ∃ q dest, c_qps c !! i = Some q ∧ c_own c !! i = Some dest ∧
      change q (Some dest) = Success q').
  apply (for_each_inv I _ _ _ 0) in H.
  - rewrite length_seq in H. destruct H as (H1 & _ & H3). split; [done|]. intros i q' Hi. apply H3; [|done].
    apply lookup_lt_Some in Hi. cbn. lia.
  - split; [done|]. split; [done|lia].
  - intros j x l l' Hj (H1 & H2 & H3) Hb. apply lookup_seq in Hj as [-> Hlt]. cbn [Nat.add] in *.
    apply outcome_bind_inv in Hb as (q & Hq & Hb). apply lift_Success, vec_at_inv in Hq as (? & E%Nat2Z.inj & Hq). subst.
    apply outcome_bind_inv in Hb as (dest & Hd & Hb). apply lift_Success, vec_at_inv in Hd as (w & E%Nat2Z.inj & Hd). subst.
    apply outcome_bind_inv in Hb as (q' & Hc & [= <-]).
    split; [by rewrite length_insert|]. split; [intros i Hi; rewrite list_lookup_insert_ne by lia; apply H2; lia|].
    intros i q1 Hi Hq1. rewrite H2 in Hq by lia.
    destruct (decide (i = w)) as [->|Hne].
    + rewrite list_lookup_insert_eq in Hq1 by (rewrite H1; by eapply lookup_lt_Some). simplify_eq. eauto.
    + rewrite list_lookup_insert_ne in Hq1 by done. apply H3; [lia|done].
Qed.
End rc_process.

Section rc_initialize.
Context {V : Verbs} {HV : VerbsLaws V} (b : backend_info) (MPI : Z → list dest_info → list dest_info).
Context (requested_dev : option string) (c0 : connection (list dest_info)).

(** The set-up of one process up to the exchange: the state after [create_qps]. *)
Definition rc_before_exchange : outcome (connection (list dest_info)) :=
  create_qps (K := ReliableConnection MPI) b 1
    (mkConn (c_sq_size c0) (c_cqs c0) (c_qps c0)
       (resize (Z.to_nat (bk_num_pes b * bk_num_wg b)) (mkDest 0 0 0 0) (c_own c0))).

(** What it sends. *)
Definition rc_sent : list dest_info :=
  match rc_before_exchange with Success c => c_own c | _ => [] end.

Lemma rc_initialize c :
  initialize (K := ReliableConnection MPI) b requested_dev c0 = Success c →
  ∃ c1, rc_before_exchange = Success c1 ∧ rc_describes b c1 ∧
    length (c_qps c) = length (c_qps c1) ∧
    ∀ i q, c_qps c !! i = Some q → ∃ q0 dest s1 s2,
      c_qps c1 !! i = Some q0 ∧ MPI (bk_num_wg b) (c_own c1) !! i = Some dest ∧
      rc_rtr (Some dest) 1 = Ok s1 ∧ rc_rts (Some dest) = Ok s2 ∧ q = modified (modified q0 s1) s2.
Proof using HV.
  intros H. unfold initialize in H. cbn [allocate_dynamic_members ReliableConnection rc_allocate_dynamic_members mbind outcome_bind] in H.
  apply outcome_bind_inv in H as (devs & _ & H). apply outcome_bind_inv in H as (dev & _ & H).
  apply outcome_bind_inv in H as (_ & _ & H). apply outcome_bind_inv in H as (_ & _ & H).
  apply outcome_bind_inv in H as (c1 & H1 & H). apply outcome_bind_inv in H as (c2 & H2 & [= <-]).
  exists c1. split; [exact H1|]. split; [eapply rc_create_qps, H1; cbn; by rewrite length_resize|].
  cbn [initialize_1 ReliableConnection] in H2. unfold rc_initialize_1 in H2.
  apply outcome_bind_inv in H2 as (c3 & H3 & H4).
  apply transition_all_Success in H3 as (E3 & L3 & T3). apply transition_all_Success in H4 as (E4 & L4 & T4).
  cbn [c_qps c_own] in *. split; [congruence|]. intros i q Hq.
  destruct (T4 _ _ Hq) as (q1 & dest & Hq1 & Hd & Hc). destruct (T3 _ _ Hq1) as (q0 & dest' & Hq0 & Hd' & Hc').
  rewrite E3 in Hd. simplify_eq.
  apply outcome_bind_inv in Hc as (s2 & Hs2%lift_Success & Hm2%modify_Success).
  apply outcome_bind_inv in Hc' as (s1 & Hs1%lift_Success & Hm1%modify_Success).
  exists q0, dest, s1, s2. by subst.
Qed.

(** The numbers of the queue pairs are those that the library gave. *)
Lemma rc_numbers c q :
  initialize (K := ReliableConnection MPI) b requested_dev c0 = Success c → q ∈ c_qps c →
  ∃ i, ibv_create_qp i = Some (qp_num q).
Proof using HV.
  intros H [i Hi]%list_elem_of_lookup.
  destruct (rc_initialize _ H) as (c1 & _ & (L1 & _ & D1) & Lq & T1).
  destruct (T1 _ _ Hi) as (q0 & dest & s1 & s2 & Hq0 & _ & _ & _ & ->).
  destruct (D1 i) as (num & Hn & Hc & _); [rewrite <- L1; by eapply lookup_lt_Some|].
  exists i. rewrite Hn. by simplify_eq.
Qed.
End rc_initialize.

(** ** All processes *)

(** What the standard says of an in-place [MPI_Alltoall] of [n] processes with blocks
    of [num_wg]: block [q] that [p] receives is block [p] that [q] had. *)
Definition alltoall_law {A} (n num_wg : nat) (send recv : nat → list A) : Prop :=
  ∀ p q w, (p < n)%nat → (q < n)%nat → (w < num_wg)%nat →
    recv p !! (q * num_wg + w)%nat = send q !! (p * num_wg + w)%nat.

(** The attributes of a connected queue pair that name its peer. *)
Record connected_to (V : Verbs) (q r : ibv_qp) (peer : Verbs) : Prop := {
  ct_state : qp_in_state q = IBV_QPS_RTS;
  ct_access : qp_access q = all_access;
  ct_number : qp_attrs q dest_qp_num = qp_num r;
  ct_psn : qp_attrs q rq_psn = qp_attrs r sq_psn;
  ct_address : if @link_layer_infiniband V then qp_attrs q ah_dlid = @port_lid peer
               else qp_attrs q ah_is_global = 1 ∧ qp_attrs q ah_dgid = @port_gid peer
}.

(** After the set-up of reliable connections has succeeded on all processes, for
    every pair of processes and every work-group the queue pairs of the two are
    connected to each other: ready to send, with the number of the other, its address
    on the link and agreeing packet sequence numbers. *)
Lemma rc_connected (n num_wg : nat) (V : nat → Verbs) (HV : ∀ p, VerbsLaws (V p))
    (MPI : nat → Z → list dest_info → list dest_info) (dev : nat → option string)
    (c0 c : nat → connection (list dest_info)) :
  Z.of_nat n * Z.of_nat num_wg < 2 ^ 32 →
  (∀ p, (p < n)%nat → @initialize (V p) _ (@ReliableConnection (V p) (MPI p))
     (mkBackend (Z.of_nat n) (Z.of_nat p) (Z.of_nat num_wg)) (dev p) (c0 p) = Success (c p)) →
  (let sent p := @rc_sent (V p) (mkBackend (Z.of_nat n) (Z.of_nat p) (Z.of_nat num_wg)) (MPI p) (c0 p) in
   alltoall_law n num_wg sent (λ p, MPI p (Z.of_nat num_wg) (sent p))) →
  ∀ p q w, (p < n)%nat → (q < n)%nat → (w < num_wg)%nat →
    ∃ Q R, c_qps (c p) !! (q * num_wg + w)%nat = Some Q ∧ c_qps (c q) !! (p * num_wg + w)%nat = Some R ∧
      connected_to (V p) Q R (V q) ∧ connected_to (V q) R Q (V p).
Proof.
  intros Hsz Hinit Hmpi.
  assert (∀ p q w, (p < n)%nat → (q < n)%nat → (w < num_wg)%nat →
    ∃ Q num num', c_qps (c p) !! (q * num_wg + w)%nat = Some Q ∧ qp_num Q = num ∧
      @ibv_create_qp (V p) (q * num_wg + w) = Some num ∧
      @ibv_create_qp (V q) (p * num_wg + w) = Some num' ∧
      qp_in_state Q = IBV_QPS_RTS ∧ qp_access Q = all_access ∧ qp_attrs Q dest_qp_num = num' ∧
      qp_attrs Q rq_psn = 0 ∧ qp_attrs Q sq_psn = 0 ∧
      if @link_layer_infiniband (V p) then qp_attrs Q ah_dlid = @port_lid (V q)
      else qp_attrs Q ah_is_global = 1 ∧ qp_attrs Q ah_dgid = @port_gid (V q)) as H.
  { intros p q w Hp Hq Hw.
    destruct (rc_initialize _ _ _ _ _ (Hinit p Hp)) as (c1 & E1 & (L1 & _ & D1) & Lq & T1).
    destruct (rc_initialize _ _ _ _ _ (Hinit q Hq)) as (c2 & E2 & (_ & _ & D2) & _).
    assert (∀ p q w, (p < n)%nat → (w < num_wg)%nat →
      (p * num_wg + w < rc_total (mkBackend (Z.of_nat n) q (Z.of_nat num_wg)))%nat) as Hlt.
    { intros p' q' w' ??. unfold rc_total. cbn. rewrite uwrap_small by lia. nia. }
    destruct (D1 (q * num_wg + w)%nat (Hlt q _ w Hq Hw)) as (num & Hn & Hc1 & _).
    destruct (D2 (p * num_wg + w)%nat (Hlt p _ w Hp Hw)) as (num' & Hn' & _ & Ho2).
    destruct (lookup_lt_is_Some_2 (c_qps (c p)) (q * num_wg + w)) as [Q HQ].
    { rewrite Lq, L1. by apply Hlt. }
    destruct (T1 _ _ HQ) as (q0 & dest & s1 & s2 & Hq0 & Hd & Hs1 & Hs2 & ->).
    specialize (Hmpi p q w Hp Hq Hw). cbn in Hmpi. unfold rc_sent in Hmpi. rewrite E1, E2 in Hmpi.
    cbn [bk_num_wg] in Hd. rewrite Hd, Ho2 in Hmpi. simplify_eq.
    eexists _, num, num'. split; [done|]. unfold rc_rtr, rc_rts in *. cbn [must mbind result_bind] in *.
    destruct (@link_layer_infiniband (V p)); simplify_eq; done. }
  intros p q w Hp Hq Hw.
  destruct (H p q w Hp Hq Hw) as (Q & a & a' & HQ & Ha & Hca & Hca' & ? & ? & Hda & Hra & Hsa & ?).
  destruct (H q p w Hq Hp Hw) as (R & r & r' & HR & Hr & Hcr & Hcr' & ? & ? & Hdr & Hrr & Hsr & ?).
  exists Q, R. split; [done|]. split; [done|]. simplify_eq. split; split; try done; congruence.
Qed.

(** ** When the set-up succeeds *)


Section safe.
Context (good : Prop).






End safe.



Section rc_safe.
Context (V : Verbs) (b : backend_info) (MPI : Z → list dest_info → list dest_info).



End rc_safe.


(** the attributes that a reliable connection passes to each transition are
    exactly those that the verbs library requires for it. *)
Theorem rc_masks_required (V : Verbs) (dest : dest_info) (port : Z) :
  ∃ srtr srts, rc_rtr (Some dest) port = Ok srtr ∧ rc_rts (Some dest) = Ok srts ∧
    qp_state (rc_initqp port) = IBV_QPS_INIT ∧ qp_state srtr = IBV_QPS_RTR ∧ qp_state srts = IBV_QPS_RTS ∧
    ∀ s f, s ∈ [rc_initqp port; srtr; srts] → f ∈ exp_attr_mask s ↔ f ∈ rc_required (qp_state s).
Proof.
  unfold rc_rtr, rc_rts. cbn [must mbind result_bind]. eexists _, _. split; [done|]. split; [done|].
  split; [done|]. split; [by destruct link_layer_infiniband|]. split; [done|].
  intros s f Hs. rewrite !elem_of_cons, elem_of_nil in Hs.
  destruct Hs as [->|[->|[->|[]]]]; [| destruct link_layer_infiniband |]; cbn; set_solver.
Qed.

(** ** Targets of dynamic connections *)

(** What the standard says of an in-place [MPI_Allgather] with blocks of [k]. *)
Definition allgather_law {A} (n k : nat) (send recv : nat → list A) : Prop :=
  ∀ p q i, (p < n)%nat → (q < n)%nat → (i < k)%nat →
    recv p !! (q * k + i)%nat = send q !! (q * k + i)%nat.

Section dc_process.
Context {V : Verbs} {HV : VerbsLaws V} (b : backend_info) (MPI : Z → list Z → list Z).

Lemma create_dct_Success port i num : create_dct port i = Success num → create_dct_num i = Some num.
Proof using HV.
  unfold create_dct. destruct (create_dct_num i) as [k|]; [|done]. intros H.
  apply outcome_bind_inv in H as (q & Hq%modify_Success & H).
  apply outcome_bind_inv in H as (q' & Hq'%modify_Success & [= <-]). by subst.
Qed.

(** The arrays that the process brings to the exchange. *)
Record dc_describes (d : dc_members) : Prop := {
  dd_dcts : ∃ l, dcts_num d = Some l ∧ ∀ i, 0 ≤ i < num_dct d → 0 ≤ bk_my_pe b →
    ∃ num, create_dct_num (Z.to_nat i) = Some num ∧
      l !! Z.to_nat (bk_my_pe b * num_dct d + i) = Some (swap_endian_u32 num);
  dd_lids : ∃ l, lids d = Some l ∧ l !! Z.to_nat (bk_my_pe b) = Some (swap_endian_u16 (u16 port_lid))
}.

Lemma dc_create_qps_2_Success port d d' :
  dc_create_qps_2 b port d = Success d' →
  dc_describes d' ∧ num_dct d' = num_dct d ∧ num_dcis d' = num_dcis d.
Proof using HV.
  intros H. unfold dc_create_qps_2 in H. apply outcome_bind_inv in H as (l0 & _ & H).
  apply outcome_bind_inv in H as (l & Hl & H). apply outcome_bind_inv in H as (m & _ & H).
  apply outcome_bind_inv in H as (m' & Hm & [= <-]). apply lift_Success, vec_set_inv in Hm as [Hr ->].
  split; [|done]. split; cbn [dcts_num lids num_dct].
  2: { eexists. split; [done|]. apply list_lookup_insert_eq. lia. }
  exists l. split; [done|]. intros i Hi Hp.
  set (I k (x : list Z) := ∀ j, 0 ≤ j < Z.of_nat k → ∃ num, create_dct_num (Z.to_nat j) = Some num ∧
    x !! Z.to_nat (bk_my_pe b * num_dct d + j) = Some (swap_endian_u32 num)).
  assert (I (0 + length (seqZ 0 (num_dct d)))%nat l) as HI.
  2: { apply HI. cbn. rewrite length_seqZ. lia. }
  eapply (for_each_inv I); [cbn; intros j; lia| |exact Hl].
  - intros k x s s' Hk Hs Hb j Hj. apply lookup_seqZ in Hk as [-> Hk]. cbn [Nat.add] in *.
    apply outcome_bind_inv in Hb as (num & Hn%create_dct_Success & Hb). rewrite Z.add_0_l in *.
    apply lift_Success, vec_set_inv in Hb as [Hr' ->].
    destruct (decide (j = Z.of_nat k)) as [->|Hne].
    + exists num. split; [done|]. apply list_lookup_insert_eq. lia.
    + rewrite list_lookup_insert_ne; [apply Hs; lia|]. nia.
Qed.
End dc_process.

Section dc_initialize.
Context {V : Verbs} {HV : VerbsLaws V} (b : backend_info) (MPI : Z → list Z → list Z).
Context (requested_dev : option string) (c0 : connection dc_members).

(** The members of the subclass before the exchange. *)
Definition dc_sent : option dc_members :=
  match (d ← dc_allocate_dynamic_members b (c_own c0);
         create_qps (K := DynamicConnection MPI) b 1 (mkConn (c_sq_size c0) (c_cqs c0) (c_qps c0) d)) with
  | Success c => Some (c_own c) | _ => None
  end.

Lemma dc_create_one i (c c' : connection dc_members) :
  create_one (K := DynamicConnection MPI) 1 i c = Success c' → c_own c' = c_own c.
Proof using.
  unfold create_one. destruct (ibv_create_qp i); [|done]. intros H.
  apply outcome_bind_inv in H as ([q d] & H & [= <-]). cbn in H.
  by apply outcome_bind_inv in H as (q' & _ & [= <- <-]).
Qed.

Lemma dc_create_qps c c' :
  create_qps (K := DynamicConnection MPI) b 1 c = Success c' →
  dc_describes b (c_own c') ∧ num_dct (c_own c') = num_dct (c_own c).
Proof using HV.
  intros H. unfold create_qps in H. apply outcome_bind_inv in H as (d & Hd & H).
  assert (d = c_own c) as ->.
  { cbn in Hd. unfold dc_create_qps_1 in Hd. apply outcome_bind_inv in Hd as (_ & _ & Hd).
    by apply outcome_bind_inv in Hd as (_ & _ & [= <-]). }
  apply outcome_bind_inv in H as (_ & _ & H). apply outcome_bind_inv in H as (d2 & Hd2 & H).
  apply dc_create_qps_2_Success in Hd2 as (Hdd & Hn & _).
  apply (for_each_inv (λ _ x, c_own x = d2) _ _ _ 0) in H as ->; [done|done|].
  intros j x s s' _ Hs Hb. by rewrite (dc_create_one _ _ _ Hb).
Qed.

Lemma dc_initialize c :
  initialize (K := DynamicConnection MPI) b requested_dev c0 = Success c →
  ∃ d dcts l, dc_sent = Some d ∧ dc_describes b d ∧ num_dct d = num_dct (c_own c0) ∧
    dcts_num d = Some dcts ∧ lids d = Some l ∧ vec_dct_num (c_own c) = MPI (num_dct d) dcts ∧
    vec_lids (c_own c) = MPI 1 l ∧ dcts_num (c_own c) = None ∧ num_dct (c_own c) = num_dct d.
Proof using HV.
  intros H. unfold initialize in H. apply outcome_bind_inv in H as (d0 & H0 & H).
  apply outcome_bind_inv in H as (devs & _ & H). apply outcome_bind_inv in H as (dev & _ & H).
  apply outcome_bind_inv in H as (_ & _ & H). apply outcome_bind_inv in H as (_ & _ & H).
  apply outcome_bind_inv in H as (c1 & H1 & H). apply outcome_bind_inv in H as (c2 & H2 & [= <-]).
  pose proof (dc_create_qps _ _ H1) as [Hdd Hn]. cbn [c_own] in Hn.
  cbn [allocate_dynamic_members DynamicConnection] in H0.
  assert (dc_sent = Some (c_own c1)) as Hs.
  { unfold dc_sent. rewrite H0. cbn [mbind outcome_bind]. by rewrite H1. }
  cbn [initialize_1 DynamicConnection] in H2. unfold dc_initialize_1 in H2.
  apply outcome_bind_inv in H2 as (dcts & Hdc & H2). apply outcome_bind_inv in H2 as (l & Hl & H2).
  apply outcome_bind_inv in H2 as (_ & _ & [= <-]). apply lift_Success in Hdc, Hl.
  unfold dc_allocate_dynamic_members in H0. apply outcome_bind_inv in H0 as (_ & _ & [= <-]). cbn in Hn.
  exists (c_own c1), dcts, l. destruct (dcts_num (c_own c1)), (lids (c_own c1)); simplify_eq/=. done.
Qed.
End dc_initialize.

(** After the set-up of dynamic connections has succeeded on all processes, the
    tables that the device indexes hold the numbers of the targets in blocks of
    [num_dct] and the addresses of the processes, in network byte order; with one
    target for each process, the default, entry [q] of both is that of process [q]. *)
Theorem dc_targets (n : nat) (V : nat → Verbs) (HV : ∀ p, VerbsLaws (V p))
    (MPI : nat → Z → list Z → list Z) (dev : nat → option string)
    (c0 c : nat → connection dc_members) (num_wg : Z) (k : nat) :
  let b p := mkBackend (Z.of_nat n) (Z.of_nat p) num_wg in
  let sent p := @dc_sent (V p) (b p) (MPI p) (c0 p) in
  (∀ p, (p < n)%nat → num_dct (c_own (c0 p)) = Z.of_nat k) →
  (∀ p, (p < n)%nat → @initialize (V p) _ (@DynamicConnection (V p) (MPI p)) (b p) (dev p) (c0 p) = Success (c p)) →
  (let dcts p := default [] (sent p ≫= dcts_num) in
   allgather_law n k dcts (λ p, MPI p (Z.of_nat k) (dcts p))) →
  (let l p := default [] (sent p ≫= lids) in allgather_law n 1 l (λ p, MPI p 1 (l p))) →
  ∀ p q i, (p < n)%nat → (q < n)%nat → (i < k)%nat →
    vec_lids (c_own (c p)) !! q = Some (swap_endian_u16 (u16 (@port_lid (V q)))) ∧
    ∃ num, @create_dct_num (V q) i = Some num ∧
      vec_dct_num (c_own (c p)) !! (q * k + i)%nat = Some (swap_endian_u32 num) ∧
      (k = 1%nat → vec_dct_num (c_own (c p)) !! q = Some (swap_endian_u32 num)).
Proof.
  intros b sent Hk Hinit Hdct Hlid p q i Hp Hq Hi.
  destruct (dc_initialize _ _ _ _ _ (Hinit p Hp)) as (d & dcts & l & Hs & _ & Hn & Hdc & Hl & Hv & Hvl & _).
  destruct (dc_initialize _ _ _ _ _ (Hinit q Hq)) as (d' & dcts' & l' & Hs' & Hdd & Hn' & Hdc' & Hl' & _).
  rewrite Hk in Hn, Hn' by done.
  specialize (Hdct p q i Hp Hq Hi). specialize (Hlid p q 0%nat Hp Hq ltac:(lia)). cbn in Hdct, Hlid.
  unfold sent in *. rewrite Hs, Hs' in Hdct, Hlid. cbn in Hdct, Hlid. rewrite Hdc, Hdc' in Hdct.
  rewrite Hl, Hl' in Hlid. cbn in Hdct, Hlid. rewrite Hv, Hvl, Hn.
  replace (q * 1 + 0)%nat with q in Hlid by lia.
  destruct Hdd as [(l1 & E1 & D1) (l2 & E2 & D2)]. simplify_eq. cbn [bk_my_pe b] in *. rewrite Nat2Z.id in D2.
  split; [by rewrite Hlid|]. destruct (D1 (Z.of_nat i) ltac:(lia) ltac:(lia)) as (num & Hc & Hx).
  rewrite Nat2Z.id in Hc. exists num. split; [done|]. rewrite Hn' in Hx.
  replace (Z.to_nat (Z.of_nat q * Z.of_nat k + Z.of_nat i)) with (q * k + i)%nat in Hx by lia.
  split; [by rewrite Hdct|]. intros ->. replace (q * 1 + i)%nat with q in * by lia. by rewrite Hdct.
Qed.

(** ** Two processes *)

Module ExampleVerbs.
(** Every call succeeds; the numbers tell the process and the queue pair. *)
Definition verbs (p : nat) : Verbs := {|
  ibv_get_device_list := Some ["mlx4_0"; "mlx5_0"]%string;
  ibv_open_device := λ _, true;
  ibv_alloc_pd := true;
  port_lid := 7 + Z.of_nat p;
  port_gid := 0;
  link_layer_infiniband := true;
  malloc_ok := true;
  ibv_create_cq := λ _, true;
  ibv_create_srq := true;
  ibv_create_ah := true;
  ibv_create_qp := λ i, Some ((100 * (1 + Z.of_nat p) + Z.of_nat i) `mod` 2 ^ 24);
  create_dct_num := λ i, Some (50 * (1 + Z.of_nat p) + Z.of_nat i);
  ibv_modify_qp := λ q s, Some (modified q s)
|}.

#[export] Instance verbs_laws p : VerbsLaws (verbs p).
Proof. split. by intros q s q' [= <-]. Qed.

Definition backend (p : nat) : backend_info := mkBackend 2 (Z.of_nat p) 2.

(** What the exchange gives to process [p]. *)
Definition received (p : nat) : list dest_info :=
  q ← seq 0 2; w ← seq 0 2;
  [mkDest (7 + Z.of_nat q) (100 * (1 + Z.of_nat q) + Z.of_nat (p * 2 + w)) 0 0].

Definition rc_run (p : nat) : outcome (connection (list dest_info)) :=
  @initialize (verbs p) _ (@ReliableConnection (verbs p) (λ _ _, received p)) (backend p) None
    (ReliableConnection_new None).
Definition rc_conn (p : nat) : connection (list dest_info) :=
  match rc_run p with Success c => c | _ => ReliableConnection_new None end.

Definition dcts_received : list Z := (λ p, swap_endian_u32 (50 * (1 + p))) <$> [0; 1].
Definition lids_received : list Z := (λ p, swap_endian_u16 (7 + p)) <$> [0; 1].
(** The two exchanges are told apart by what is sent. *)
Definition allgather (k : Z) (l : list Z) : list Z :=
  if existsb (λ x, 2 ^ 16 <=? x) l then dcts_received else lids_received.

Definition dc_start : connection dc_members := DynamicConnection_new None None None.
Definition dc_run (p : nat) : outcome (connection dc_members) :=
  @initialize (verbs p) _ (@DynamicConnection (verbs p) allgather) (backend p) (Some "mlx5"%string) dc_start.
Definition dc_conn (p : nat) : connection dc_members :=
  match dc_run p with Success c => c | _ => dc_start end.

(** A property of the two processes, case by case. *)
Ltac both p := destruct p as [|[|?]]; [| |exfalso; lia].
End ExampleVerbs.
Import ExampleVerbs.

Lemma rc_connected_witness :
  ∃ Q R, c_qps (rc_conn 0) !! 3%nat = Some Q ∧ c_qps (rc_conn 1) !! 1%nat = Some R ∧
    connected_to (verbs 0) Q R (verbs 1) ∧ connected_to (verbs 1) R Q (verbs 0).
Proof.
  refine (rc_connected 2 2 verbs _ (λ p _ _, received p) (λ _, None) (λ _, ReliableConnection_new None) rc_conn
    _ _ _ 0%nat 1%nat 1%nat _ _ _);
    [lia| | |lia|lia|lia].
  - intros p Hp. both p; reflexivity.
  - intros sent p q w Hp Hq Hw. both p; both q; both w; vm_compute; reflexivity.
Defined.


Lemma dc_targets_witness :
  vec_lids (c_own (dc_conn 0)) !! 1%nat = Some (swap_endian_u16 8) ∧
  ∃ num, @create_dct_num (verbs 1) 0 = Some num ∧
    vec_dct_num (c_own (dc_conn 0)) !! 1%nat = Some (swap_endian_u32 num) ∧
    (1%nat = 1%nat → vec_dct_num (c_own (dc_conn 0)) !! 1%nat = Some (swap_endian_u32 num)).
Proof.
  refine (dc_targets 2 verbs _ (λ _, allgather) (λ _, Some "mlx5"%string) (λ _, dc_start) dc_conn 2 1
    _ _ _ _ 0%nat 1%nat 0%nat _ _ _);
    [done| | | |lia|lia|lia].
  - intros p Hp. both p; reflexivity.
  - intros sent p q i Hp Hq Hi. destruct i; [|exfalso; lia]. both p; both q; vm_compute; reflexivity.
  - intros sent p q i Hp Hq Hi. destruct i; [|exfalso; lia]. both p; both q; vm_compute; reflexivity.
Defined.

(** The device looks a target up by the number of the process ([vec_dct_num[pe]]); with
    two targets for each process, entry 1 is a target of process 0. *)
Lemma dc_two_targets :
  match @initialize (verbs 0) _ (@DynamicConnection (verbs 0) (λ k l, if k =? 1 then lids_received else
            swap_endian_u32 <$> [50; 51; 100; 101])) (backend 0) None
          (DynamicConnection_new None None (Some 2)) with
  | Success c => vec_dct_num (c_own c) !! 1%nat = Some (swap_endian_u32 51) ∧
                 @create_dct_num (verbs 0) 1 = Some 51 ∧ @create_dct_num (verbs 1) 0 = Some 100
  | _ => False
  end.
Proof. vm_compute. done. Qed.
