(* ===== verification/Network.v ===== *)
(** * Network set-up of the InfiniBand backend

    [gpu_ib/network_policy.cpp] with the parts of [gpu_ib/connection.cpp],
    [gpu_ib/reliable_connection.cpp] and [gpu_ib/dynamic_connection.cpp] that fill the
    send queues with a first request and make the device's queue pairs from them, and
    [atomic_return.cpp].  Shown: after the set-up of all processes every queue pair of
    the device has the number of the verbs queue pair that is connected to its process,
    the keys of that process's memory and the form that the theorems on queue pairs
    assume; the device's result buffers lie in what was allocated. *)
From S2P Require Import Prelude Endian Segments Util MPITransport QueuePair Connection.

Local Open Scope Z_scope.

(** ** Registration of memory *)

Record ibv_mr := mkMr { mr_lkey : Z; mr_rkey : Z }.

(** The keys that the verbs library gives for a region, and the addresses of what it
    and the HIP runtime allocate for the process. *)
Class Registration := {
  ibv_reg_mr : Z → Z → list ibv_access_flags → option ibv_mr;
  hdp_flush_ptr : Z;
  atomic_region : Z;
  (** The heap's allocator, for the buffer of [g]. *)
  heap_malloc : Z → Z
}.

Definition reg_mr {R : Registration} (ptr size : Z) (managed : bool) : outcome ibv_mr :=
  match ibv_reg_mr ptr size
          ([IBV_ACCESS_LOCAL_WRITE; IBV_ACCESS_REMOTE_WRITE; IBV_ACCESS_REMOTE_READ;
            IBV_ACCESS_REMOTE_ATOMIC] ++ (if managed then [IBV_ACCESS_ON_DEMAND] else [])) with
  | Some mr => Success mr
  | None => Returned ROC_SHMEM_UNKNOWN_ERROR
  end.

(** [htobe32], on the little-endian host. *)
Abbreviation htobe32 := swap_endian_u32.
Abbreviation htobe64 := swap_endian_u64.

(** ** Requests written by the host *)

(** The writers of [mlx5dv.h] and what they are documented to write. *)
Class Mlx5dv := {
  mlx5dv_set_ctrl_seg : memory → Z → Z → Z → Z → Z → Z → Z → Z → Z → memory;
  mlx5dv_set_data_seg : memory → Z → Z → Z → Z → memory
}.

Class Mlx5dvLaws {X : Mlx5} (W : Mlx5dv) : Prop := {
  ctrl_seg_only : ∀ m p pi opcode opmod qpn ce ds sig imm,
    only p 16 m (mlx5dv_set_ctrl_seg m p pi opcode opmod qpn ce ds sig imm);
  ctrl_seg_opcode : ∀ m p pi opcode opmod qpn ce ds sig imm,
    load 4 (mlx5dv_set_ctrl_seg m p pi opcode opmod qpn ce ds sig imm) (p + ctrl_opmod_idx_opcode) =
    htobe32 (Z.lor (Z.lor (Z.shiftl opmod 24) (Z.shiftl pi 8)) opcode);
  ctrl_seg_qpn_ds : ∀ m p pi opcode opmod qpn ce ds sig imm,
    load 4 (mlx5dv_set_ctrl_seg m p pi opcode opmod qpn ce ds sig imm) (p + ctrl_qpn_ds) =
    htobe32 (Z.lor (Z.shiftl qpn 8) ds);
  ctrl_seg_fm_ce_se : ∀ m p pi opcode opmod qpn ce ds sig imm,
    0 ≤ ce < 256 → mlx5dv_set_ctrl_seg m p pi opcode opmod qpn ce ds sig imm (p + ctrl_fm_ce_se) = ce;
  data_seg_only : ∀ m p len lkey addr, only p 16 m (mlx5dv_set_data_seg m p len lkey addr);
  data_seg_lkey : ∀ m p len lkey addr,
    load 4 (mlx5dv_set_data_seg m p len lkey addr) (p + data_lkey) = htobe32 lkey;
  ctrl_seg_bytes : ∀ m p pi opcode opmod qpn ce ds sig imm, (∀ x, 0 ≤ m x < 256) →
    ∀ x, 0 ≤ mlx5dv_set_ctrl_seg m p pi opcode opmod qpn ce ds sig imm x < 256;
  data_seg_bytes : ∀ m p len lkey addr, (∀ x, 0 ≤ m x < 256) →
    ∀ x, 0 ≤ mlx5dv_set_data_seg m p len lkey addr x < 256;
  (** The offsets of the two keys in their segments. *)
  raddr_rkey_offset : raddr_rkey = 8;
  data_lkey_offset : data_lkey = 4
}.

(** What [mlx5dv_init_obj] tells of a queue pair and its completion queue. *)
Record dv_obj := mkDv {
  cq_cqe_cnt : Z;
  cq_buf : Z;
  cq_dbrec : Z;
  sq_wqe_cnt : Z;
  sq_buf : Z;
  sq_dbrec : Z;
  bf_reg : Z
}.

Section requests.
Context {X : Mlx5} {W : Mlx5dv}.

Definition set_rdma_seg (m : memory) (p address rkey : Z) : memory :=
  store 4 (store 8 m (p + raddr_raddr) (htobe64 address)) (p + raddr_rkey) (htobe32 rkey).

(** The body of the loop of [post_dv_rc_wqe], at the start of the queue: with
    [nb_post] equal to one. *)
Definition rc_first_wqe (m : memory) (ptr qp_num r_address rkey lkey address : Z) : memory :=
  let m := mlx5dv_set_ctrl_seg m ptr 0 8 0 qp_num 0 3 0 0 in
  let m := set_rdma_seg m (ptr + 16) r_address rkey in
  mlx5dv_set_data_seg m (ptr + 32) 1 lkey address.

(** Offsets of [struct mlx5_wqe_av] as far as [set_dgram_seg] writes them. *)
Definition set_dgram_seg (m : memory) (p dc_key dct_num ext stat_rate_sl fl_mlid rlid : Z) : memory :=
  let m := store 8 m p (htobe64 dc_key) in
  let m := store 4 m (p + base_av_dqp_dct) (htobe32 (Z.lor (Z.shiftl ext 31) dct_num)) in
  let m := store 1 m (p + 12) stat_rate_sl in
  let m := store 1 m (p + 13) fl_mlid in
  store 2 m (p + base_av_rlid) rlid.

Definition DC_IB_KEY : Z := 0x1ee7a330.

(** The body of the loop of [post_dv_dc_wqe]. *)
Definition dc_wqe (m : memory) (ptr index qp_num dct_num stat_rate_sl fl_mlid rlid lkey : Z) : memory :=
  let m := mlx5dv_set_ctrl_seg m ptr index 8 0 qp_num 0 4 0 0 in
  let m := set_dgram_seg m (ptr + 16) DC_IB_KEY dct_num 1 stat_rate_sl fl_mlid rlid in
  let m := set_rdma_seg m (ptr + 32) 0 0 in
  mlx5dv_set_data_seg m (ptr + 48) 1 lkey 0.

(** The inner loop of [post_dv_dc_wqe]: its index is a [uint16_t]. *)
Fixpoint dc_wqes (fuel : nat) (body : memory → Z → Z → memory) (m : memory) (ptr index nb_post : Z)
    : result memory :=
  match fuel with
  | O => Fail OutOfFuel
  | S fuel' =>
      if index <? nb_post then dc_wqes fuel' body (body m ptr index) (ptr + 64) (u16 (index + 1)) nb_post
      else Ok m
  end.

(** The connections and work-groups, in the order of the two loops. *)
Definition conn_pairs (b : backend_info) : list (Z * Z) :=
  i ← seqZ 0 (bk_num_pes b); (λ j, (i, j)) <$> seqZ 0 (bk_num_wg b).

(** [post_dv_rc_wqe]: the loops over the connections and the work-groups, given
    [heap_bases], [heap_rkey] and the key of the heap's own region. *)
Definition post_dv_rc_wqe (b : backend_info) (qps : list ibv_qp) (objs : list dv_obj)
    (heap_bases heap_rkey : list Z) (lkey : Z) (m : memory) : result memory :=
  foldl (λ r ij, m ← r;
    let '(i, j) := ij in
    let qp_index := i * bk_num_wg b + j in
    o ← vec_at objs qp_index;
    q ← vec_at qps qp_index;
    r_address ← vec_at heap_bases (Z.rem (bk_my_pe b + 1) 2);
    rkey ← vec_at heap_rkey i;
    address ← vec_at heap_bases (bk_my_pe b);
    Ok (rc_first_wqe m (sq_buf o) (qp_num q) r_address rkey lkey address)) (Ok m)
    (conn_pairs b).

(** [post_dv_dc_wqe]; [remote_conn] includes the factor of [post_wqes]. *)
Definition post_dv_dc_wqe (fuel : nat) (b : backend_info) (c : connection dc_members) (objs : list dv_obj)
    (av : Z * Z * Z) (lkey : Z) (m : memory) : result memory :=
  let remote_conn := num_dcis (c_own c) * bk_num_wg b in
  let nb_post := u32 (4 * c_sq_size c) in
  foldl (λ r i, m ← r;
    o ← vec_at objs i;
    q ← vec_at (c_qps c) i;
    dcts ← must (dcts_num (c_own c));
    dct_num ← vec_at dcts i;
    dc_wqes fuel (λ m ptr index, dc_wqe m ptr index (qp_num q) dct_num av.1.1 av.1.2 av.2 lkey) m
      (sq_buf o) 0 nb_post) (Ok m) (seqZ 0 remote_conn).
End requests.

(** ** The device's queue pairs *)

(** The members of [class QueuePair] that are pointers to the completion queue, the
    doorbell records and the doorbell register. *)
Record gpu_qp := mkGpuQp {
  g_current_cq_q : Z;
  g_current_cq_q_H : Z;
  g_dbrec_cq : Z;
  g_dbrec_send : Z;
  g_current_sq_H : Z;
  g_db_ptr : Z;
  g_cfg : QPConfig
}.

(** [Connection::init_gpu_qp_from_connection]; [lock] is the address that
    [rocm_memory_lock_to_fine_grain] gives to the device. *)
Definition init_gpu_qp_from_connection (key_offset : Z) (cq_use_gpu_mem sq_use_gpu_mem : bool)
    (lock : Z → Z) (o : dv_obj) (hdp_rkey hdp_address : Z → Z) (atomic_lkey : Z) (m : memory) : gpu_qp :=
  let sq := sq_buf o in
  mkGpuQp
    (if cq_use_gpu_mem then cq_buf o else lock (cq_buf o)) (cq_buf o) (lock (cq_dbrec o))
    (if sq_use_gpu_mem then sq_dbrec o + 4 else lock (sq_dbrec o + 4)) sq (lock (bf_reg o))
    (mkQPConfig (if sq_use_gpu_mem then sq else lock sq) hdp_rkey hdp_address (λ _, nullptr) 0
       (u16 (Z.log2 (cq_cqe_cnt o))) (u16 (cq_cqe_cnt o))
       (Z.land (load 4 m (sq + 4)) 0xFFFFFF) (load 8 m (sq + 8))
       (load 4 m (sq + 4 * (6 + key_offset))) (load 4 m (sq + 4 * (9 + key_offset)))
       (u16 (sq_wqe_cnt o)) (load 8 m sq) 0 atomic_lkey).

(** ** [class NetworkOnImpl], with reliable connections *)

Record NetworkOnImpl := mkNet {
  n_conn : connection (list dest_info);
  n_hdp_rkey : list Z;
  n_hdp_address : list Z;
  n_heap_rkey : list Z;
  n_lkey : Z;
  n_atomic_lkey : Z;
  n_g_ret : Z;
  n_gpu_qps : list gpu_qp
}.

(** [assert(status == Status::ROC_SHMEM_SUCCESS)] *)
Definition asserted {A} (o : outcome A) : result A :=
  match o with Success a => Ok a | Returned _ => Fail AssertFailed | Faulted f => Fail f end.

(** The allocations of [atomic_return.cpp], in bytes. *)
Definition MAX_WG_SIZE : Z := 1024.
Definition atomic_region_bytes (num_wg : Z) : Z := u64 (max_nb_atomic * num_wg * 8).
Definition g_ret_bytes (num_wg : Z) : Z := u64 (8 * MAX_WG_SIZE * num_wg).

Definition init_g_ret {R : Registration} (num_wg : Z) : result Z :=
  let ptr := heap_malloc (g_ret_bytes num_wg) in
  _ ← assert_ (negb (ptr =? nullptr)); Ok ptr.

Section setup.
Context {X : Mlx5} {W : Mlx5dv} {V : Verbs} {R : Registration} (b : backend_info).
(** The collectives as this process sees them: of the descriptions of queue pairs, the
    keys and addresses of the HDP registers, and the keys of the heaps. *)
Context (MPI_Alltoall : Z → list dest_info → list dest_info).
Context (gather_hdp_rkey gather_hdp_address gather_heap_rkey : list Z → list Z).

(** An array with an entry for each process, its own set. *)
Definition own_entry (v : Z) : result (list Z) :=
  vec_set (replicate (Z.to_nat (bk_num_pes b)) 0) (bk_my_pe b) v.

Definition exchange_hdp_info : outcome (list Z * list Z) :=
  mr ← reg_mr hdp_flush_ptr 32 false;
  _ ← check malloc_ok;
  host_hdp_cpy ← lift (own_entry (htobe32 (mr_rkey mr)));
  host_hdp_address_cpy ← lift (own_entry hdp_flush_ptr);
  Success (gather_hdp_rkey host_hdp_cpy, gather_hdp_address host_hdp_address_cpy).

(** With [ReliableConnection::initialize_rkey_handle], which stores the key as it is. *)
Definition heap_memory_rkey (base_heap heap_size : Z) (is_managed : bool) : outcome (list Z * Z) :=
  _ ← check malloc_ok;
  mr ← reg_mr base_heap heap_size is_managed;
  heap_rkey ← lift (own_entry (mr_rkey mr));
  Success (gather_heap_rkey heap_rkey, mr_lkey mr).

Definition setup_atomic_region : outcome Z :=
  mr ← reg_mr atomic_region (8 * max_nb_atomic * bk_num_wg b) false;
  Success (htobe32 (mr_lkey mr)).

(** A table as the device indexes it. *)
Definition table (l : list Z) (i : Z) : Z := nth (Z.to_nat i) l 0.

Definition setup_gpu_qps (cq_use_gpu_mem sq_use_gpu_mem : bool) (lock : Z → Z) (objs : list dv_obj)
    (hdp_rkey hdp_address : list Z) (atomic_lkey : Z) (m : memory) : result (list gpu_qp) :=
  foldl (λ r i, qps ← r; o ← vec_at objs i;
    Ok (qps ++ [init_gpu_qp_from_connection 0 cq_use_gpu_mem sq_use_gpu_mem lock o
                  (table hdp_rkey) (table hdp_address) atomic_lkey m])) (Ok [])
    (seqZ 0 (bk_num_pes b * bk_num_wg b)).

(** [networkHostSetup] without [USE_DC].  [objs] describes the queue pairs that
    [initialize] creates, [m] is the memory before they are written to. *)
Definition networkHostSetup (requested_dev : option String.string) (c0 : connection (list dest_info))
    (heap_bases : list Z) (heap_size : Z) (is_managed : bool) (cq_use_gpu_mem sq_use_gpu_mem : bool)
    (lock : Z → Z) (objs : list dv_obj) (m : memory) : result (NetworkOnImpl * memory) :=
  c ← asserted (initialize (K := ReliableConnection MPI_Alltoall) b requested_dev c0);
  '(hdp_rkey, hdp_address) ← asserted exchange_hdp_info;
  base_heap ← vec_at heap_bases (bk_my_pe b);
  '(heap_rkey, lkey) ← asserted (heap_memory_rkey base_heap heap_size is_managed);
  atomic_lkey ← asserted setup_atomic_region;
  g_ret ← init_g_ret (bk_num_wg b);
  m ← post_dv_rc_wqe b (c_qps c) objs heap_bases heap_rkey lkey m;
  gpu_qps ← setup_gpu_qps cq_use_gpu_mem sq_use_gpu_mem lock objs hdp_rkey hdp_address atomic_lkey m;
  Ok (mkNet c hdp_rkey hdp_address heap_rkey lkey atomic_lkey g_ret gpu_qps, m).
End setup.

(** The queue pair number [i] of a context: [networkHostInit] and [networkGpuInit]
    copy one of the backend's and set what belongs to the context. *)
Definition context_qp (net : NetworkOnImpl) (num_wg num_queue_pairs buffer_id i : Z) (base_heap : Z → Z)
    (atomic_base_ptr : Z) : result QPConfig :=
  g ← vec_at (n_gpu_qps net) (num_wg * i + buffer_id);
  let cfg := g_cfg g in
  Ok (mkQPConfig (current_sq cfg) (hdp_rkey cfg) (hdp_address cfg) base_heap num_queue_pairs
        (cq_log_size cfg) (cq_size cfg) (ctrl_qp_sq cfg) (ctrl_sig cfg) (qp_rkey cfg) (qp_lkey cfg)
        (max_nwqe cfg) (db_val cfg) (atomic_base_ptr + 8 * (max_nb_atomic * buffer_id)) (atomic_lkey cfg)).

(** ** What the device reads back *)

Lemma low_word_qpn qpn : 0 ≤ qpn < 2 ^ 24 →
  Z.land (swap_endian_u32 (Z.lor (Z.shiftl qpn 8) 3)) 0xFFFFFF = swap_endian_u32 (Z.shiftl qpn 8).
Proof.
  intros Hq. apply Z.bits_inj'. intros i Hi. rewrite Z.land_spec. change 0xFFFFFF with (Z.ones 24).
  destruct (decide (i < 32)) as [Hlt|Hge].
  - rewrite Z.testbit_ones_nonneg by lia. rewrite !swap_u32_testbit, Z.lor_spec by lia.
    pose proof (conj Hi Hlt) as Hr. clear Hi Hlt. revert i Hr.
    each_bit 32; cbn -[Z.testbit Z.shiftl]; rewrite ?Z.shiftl_spec by at_bit;
      rewrite ?(Z.testbit_neg_r qpn) by at_bit; rewrite ?andb_true_r, ?andb_false_r, ?orb_false_r; done.
  - by rewrite !swap_u32_above by lia.
Qed.

Lemma byte_of_load n m a k : (∀ x, 0 ≤ m x < 256) → 0 ≤ k < n → byte_of (load n m a) k = m (a + k).
Proof.
  intros Hm Hk. unfold load. set (bs := m <$> seqZ a n).
  assert (Forall (λ b, 0 ≤ b < 256) bs) as Hb by (apply Forall_fmap, Forall_forall; intros; apply Hm).
  assert (length bs = Z.to_nat n) as Hl by (unfold bs; by rewrite length_fmap, length_seqZ).
  pose proof (nth_le_bytes (length bs) (of_le_bytes bs) (Z.to_nat k)) as H.
  rewrite le_bytes_of_le_bytes, Z2Nat.id in H by (done || lia). rewrite <- H by lia.
  apply nth_lookup_Some. unfold bs. rewrite list_lookup_fmap, lookup_seqZ_lt by lia. cbn. do 2 f_equal. lia.
Qed.

Lemma store_bytes n m a v : (∀ x, 0 ≤ m x < 256) → ∀ x, 0 ≤ store n m a v x < 256.
Proof. intros Hm x. unfold store. case_if; [apply byte_range|apply Hm]. Qed.

(** What the device's queue pair takes from a send queue. *)
Record first_request (m : memory) (sq qpn rkey lkey : Z) : Prop := {
  fr_qpn : Z.land (load 4 m (sq + 4)) 0xFFFFFF = swap_endian_u32 (Z.shiftl qpn 8);
  fr_sig : byte_of (load 8 m (sq + 8)) 3 = 0;
  fr_rkey : load 4 m (sq + 4 * (6 + 0)) = htobe32 rkey;
  fr_lkey : load 4 m (sq + 4 * (9 + 0)) = htobe32 lkey
}.

Section read_back.
Context {X : Mlx5} {L : Mlx5Laws X} {W : Mlx5dv} {LW : Mlx5dvLaws W}.

Lemma first_wqe_only m sq qpn ra rkey lkey addr : only sq 48 m (rc_first_wqe m sq qpn ra rkey lkey addr).
Proof using L LW.
  unfold rc_first_wqe, set_rdma_seg. pose proof raddr_layout.
  intros x Hx. rewrite data_seg_only by lia. rewrite !store_other by lia. apply ctrl_seg_only. lia.
Qed.

Lemma first_wqe_bytes m sq qpn ra rkey lkey addr :
  (∀ x, 0 ≤ m x < 256) → ∀ x, 0 ≤ rc_first_wqe m sq qpn ra rkey lkey addr x < 256.
Proof using LW. intros Hm. unfold rc_first_wqe. apply data_seg_bytes. do 2 apply store_bytes. by apply ctrl_seg_bytes. Qed.

Lemma first_wqe_read m sq qpn ra rkey lkey addr :
  (∀ x, 0 ≤ m x < 256) → 0 ≤ qpn < 2 ^ 24 →
  first_request (rc_first_wqe m sq qpn ra rkey lkey addr) sq qpn rkey lkey.
Proof using L LW.
  intros Hm Hq. pose proof ctrl_layout as (_ & Hds & _ & _ & Hce & _ & _). pose proof raddr_layout as (Ha & Hb & _).
  pose proof raddr_rkey_offset as Hr. pose proof data_lkey_offset as Hl.
  pose proof (first_wqe_bytes m sq qpn ra rkey lkey addr Hm) as Hbytes. split.
  - unfold rc_first_wqe, set_rdma_seg.
    rewrite (only_load 4 (sq + 4) (sq + 32) 16 _ _ (data_seg_only _ _ _ _ _)) by lia.
    rewrite !load_store_other by lia. replace (sq + 4) with (sq + ctrl_qpn_ds) by lia. rewrite ctrl_seg_qpn_ds. by apply low_word_qpn.
  - rewrite byte_of_load by (done || lia). unfold rc_first_wqe, set_rdma_seg.
    rewrite data_seg_only, !store_other by lia. replace (sq + 8 + 3) with (sq + ctrl_fm_ce_se) by lia.
    by apply ctrl_seg_fm_ce_se.
  - unfold rc_first_wqe, set_rdma_seg.
    rewrite (only_load 4 _ (sq + 32) 16 _ _ (data_seg_only _ _ _ _ _)) by lia.
    replace (sq + 4 * (6 + 0)) with (sq + 16 + raddr_rkey) by lia. rewrite load_store by lia.
    apply uwrap_small. rewrite swap_u32_eq. apply (swap_generic_range 4).
  - unfold rc_first_wqe. replace (sq + 4 * (9 + 0)) with (sq + 32 + data_lkey) by lia. apply data_seg_lkey.
Qed.
End read_back.

(** A loop in the result monad. *)
Lemma foldl_result_inv {A S} (I : list A → S → Prop) (f : A → S → result S) l s s' :
  I [] s → (∀ l1 x s s', x ∈ l → I l1 s → f x s = Ok s' → I (l1 ++ [x]) s') →
  foldl (λ r x, s ← r; f x s) (Ok s) l = Ok s' → I l s'.
Proof.
  intros H0 Hstep. revert s'. induction l as [|x l IH] using rev_ind; intros s'; [by intros [= <-]|].
  rewrite foldl_app. cbn [foldl]. intros H.
  apply bind_Ok_inv in H as (s1 & H1 & H2). apply (Hstep _ _ s1); [set_solver| |done].
  apply IH; [|done]. intros l1 y t t' Hy. apply Hstep. set_solver.
Qed.

Lemma pair_index_inj n i i' j j' :
  0 ≤ j < n → 0 ≤ j' < n → i * n + j = i' * n + j' → i = i' ∧ j = j'.
Proof. intros ?? E. assert (i = i') by nia. subst. split; [done|lia]. Qed.

Lemma first_request_ext m m' sq qpn rkey lkey :
  (∀ x, sq ≤ x < sq + 64 → m' x = m x) → first_request m sq qpn rkey lkey → first_request m' sq qpn rkey lkey.
Proof.
  intros Hx [H1 H2 H3 H4]. split; [rewrite <- H1; f_equal|rewrite <- H2; f_equal|rewrite <- H3|rewrite <- H4];
    apply load_ext; intros x ?; apply Hx; lia.
Qed.

(** The send queues of different queue pairs do not overlap. *)
Definition queues_disjoint (objs : list dv_obj) : Prop :=
  ∀ i j o o', i ≠ j → objs !! i = Some o → objs !! j = Some o' →
    sq_buf o + 64 ≤ sq_buf o' ∨ sq_buf o' + 64 ≤ sq_buf o.

Section posted.
Context {X : Mlx5} {L : Mlx5Laws X} {W : Mlx5dv} {LW : Mlx5dvLaws W}.

(** After [post_dv_rc_wqe] the queue of every connection starts with a request of its
    own number and the keys of its process. *)
Lemma post_dv_rc_wqe_read b qps objs heap_bases heap_rkey lkey m m' :
  (∀ x, 0 ≤ m x < 256) → queues_disjoint objs →
  (∀ q, q ∈ qps → 0 ≤ qp_num q < 2 ^ 24) →
  post_dv_rc_wqe b qps objs heap_bases heap_rkey lkey m = Ok m' →
  ∀ i j, 0 ≤ i < bk_num_pes b → 0 ≤ j < bk_num_wg b → ∃ o q rkey,
    vec_at objs (i * bk_num_wg b + j) = Ok o ∧ vec_at qps (i * bk_num_wg b + j) = Ok q ∧
    vec_at heap_rkey i = Ok rkey ∧ first_request m' (sq_buf o) (qp_num q) rkey lkey.
Proof using L LW.
  intros Hm Hd Hq H. unfold post_dv_rc_wqe in H. set (l := conn_pairs b) in H.
  set (P m i j := ∃ o q rkey, vec_at objs (i * bk_num_wg b + j) = Ok o ∧ vec_at qps (i * bk_num_wg b + j) = Ok q ∧
    vec_at heap_rkey i = Ok rkey ∧ first_request m (sq_buf o) (qp_num q) rkey lkey).
  assert (∀ ij, ij ∈ l → 0 ≤ ij.1 < bk_num_pes b ∧ 0 ≤ ij.2 < bk_num_wg b) as Hl.
  { intros ij Hin. apply list_elem_of_bind in Hin as (i & Hi & Hs). apply list_elem_of_fmap in Hi as (j & -> & Hj).
    apply elem_of_seqZ in Hs, Hj. cbn. lia. }
  assert ((∀ x, 0 ≤ m' x < 256) ∧ ∀ ij, ij ∈ l → ij ∈ l → P m' ij.1 ij.2) as [_ HP].
  2: { intros i j Hi Hj. assert ((i, j) ∈ l) as Hin; [|by apply (HP (i, j))].
       apply list_elem_of_bind. exists i. rewrite elem_of_seqZ. split; [|lia].
       apply list_elem_of_fmap. exists j. rewrite elem_of_seqZ. split; [done|lia]. }
  revert H. apply (foldl_result_inv (λ done m, (∀ x, 0 ≤ m x < 256) ∧
    ∀ ij, ij ∈ l → ij ∈ done → P m ij.1 ij.2) _ l m m'); [by split; [|set_solver]|].
  intros l1 [i j] m1 m2 Hij [Hb H1] Hs. destruct (Hl _ Hij) as [Hi Hj]. cbn [fst snd] in *.
  apply bind_Ok_inv in Hs as (o & Ho & Hs). apply bind_Ok_inv in Hs as (q & Hqq & Hs).
  apply bind_Ok_inv in Hs as (ra & _ & Hs). apply bind_Ok_inv in Hs as (rkey & Hr & Hs).
  apply bind_Ok_inv in Hs as (addr & _ & [= <-]). split; [by apply first_wqe_bytes|].
  intros [i' j'] Hin [Hd1|Hd1]%elem_of_app; destruct (Hl _ Hin) as [Hi' Hj']; cbn [fst snd] in *.
  - destruct (decide ((i', j') = (i, j))) as [[= -> ->]|Hne].
    + exists o, q, rkey. split_and!; try done. apply first_wqe_read; [done|].
      apply Hq. apply vec_at_inv in Hqq as (w & _ & Hw). by eapply list_elem_of_lookup_2.
    + destruct (H1 _ Hin Hd1) as (o' & q' & rkey' & Ho' & Hq' & Hr' & Hf). exists o', q', rkey'.
      split_and!; try done. eapply first_request_ext; [|exact Hf]. intros x Hx. apply first_wqe_only.
      apply vec_at_inv in Ho as (w & Ew & Ho), Ho' as (w' & Ew' & Ho').
      cbn [fst snd] in Ew'. assert (w ≠ w') as Hww by (intros ->; apply Hne; destruct (pair_index_inj (bk_num_wg b) i' i j' j) as [-> ->]; [lia|lia|congruence|done]).
      destruct (Hd _ _ _ _ Hww Ho Ho'); lia.
  - apply list_elem_of_singleton in Hd1 as [= -> ->]. exists o, q, rkey. split_and!; try done.
    apply first_wqe_read; [done|]. apply Hq. apply vec_at_inv in Hqq as (w & _ & Hw). by eapply list_elem_of_lookup_2.
Qed.
End posted.

(** ** All processes *)

(** What the environment gives to one process. *)
Record process := mkProcess {
  pr_verbs : Verbs;
  pr_reg : Registration;
  pr_alltoall : Z → list dest_info → list dest_info;
  pr_gather_hdp_rkey : list Z → list Z;
  pr_gather_hdp_address : list Z → list Z;
  pr_gather_heap_rkey : list Z → list Z;
  pr_dev : option String.string;
  pr_conn : connection (list dest_info);
  pr_heap_size : Z;
  pr_managed : bool;
  pr_cq_gpu : bool;
  pr_sq_gpu : bool;
  pr_lock : Z → Z;
  pr_objs : list dv_obj;
  pr_mem : memory
}.

Section world.
Context {X : Mlx5} {L : Mlx5Laws X} {W : Mlx5dv} {LW : Mlx5dvLaws W}.
Context (n num_wg : nat) (world : nat → process) (heap_bases : list Z).

Definition backend_of (p : nat) : backend_info := mkBackend (Z.of_nat n) (Z.of_nat p) (Z.of_nat num_wg).

Definition setup_of (p : nat) : result (NetworkOnImpl * memory) :=
  let P := world p in
  @networkHostSetup X W (pr_verbs P) (pr_reg P) (backend_of p) (pr_alltoall P) (pr_gather_hdp_rkey P)
    (pr_gather_hdp_address P) (pr_gather_heap_rkey P) (pr_dev P) (pr_conn P) heap_bases (pr_heap_size P)
    (pr_managed P) (pr_cq_gpu P) (pr_sq_gpu P) (pr_lock P) (pr_objs P) (pr_mem P).

(** The regions of a process, as registered. *)
Definition hdp_mr (p : nat) : outcome ibv_mr :=
  @reg_mr (pr_reg (world p)) (@hdp_flush_ptr (pr_reg (world p))) 32 false.
Definition heap_mr (p : nat) : outcome ibv_mr :=
  @reg_mr (pr_reg (world p)) (nth p heap_bases 0) (pr_heap_size (world p)) (pr_managed (world p)).

(** The table that a process brings to a collective. *)
Definition brings (p : nat) (v : outcome Z) : list Z :=
  match v with Success v => match own_entry (backend_of p) v with Ok l => l | Fail _ => [] end | _ => [] end.
Definition sent_hdp_rkey (p : nat) : list Z := brings p (mr ← hdp_mr p; Success (htobe32 (mr_rkey mr))).
Definition sent_hdp_address (p : nat) : list Z := brings p (Success (@hdp_flush_ptr (pr_reg (world p)))).
Definition sent_heap_rkey (p : nat) : list Z := brings p (mr ← heap_mr p; Success (mr_rkey mr)).
Definition sent_qps (p : nat) : list dest_info :=
  @rc_sent (pr_verbs (world p)) (backend_of p) (pr_alltoall (world p)) (pr_conn (world p)).

(** The collectives do what the standard says. *)
Record exchanges_ok : Prop := {
  ex_qps : alltoall_law n num_wg sent_qps (λ p, pr_alltoall (world p) (Z.of_nat num_wg) (sent_qps p));
  ex_hdp_rkey : allgather_law n 1 sent_hdp_rkey (λ p, pr_gather_hdp_rkey (world p) (sent_hdp_rkey p));
  ex_hdp_address :
    allgather_law n 1 sent_hdp_address (λ p, pr_gather_hdp_address (world p) (sent_hdp_address p));
  ex_heap_rkey : allgather_law n 1 sent_heap_rkey (λ p, pr_gather_heap_rkey (world p) (sent_heap_rkey p))
}.

(** What is assumed of the verbs library: the numbers of queue pairs have 24 bits, keys
    32, and queues do not overlap and have between 3 and 2^16 - 1 slots. *)
Record process_ok (p : nat) : Prop := {
  pk_laws : VerbsLaws (pr_verbs (world p));
  pk_numbers : ∀ i num, @ibv_create_qp (pr_verbs (world p)) i = Some num → 0 ≤ num < 2 ^ 24;
  pk_queues : queues_disjoint (pr_objs (world p));
  pk_slots : ∀ o, o ∈ pr_objs (world p) → 2 < sq_wqe_cnt o < 2 ^ 16;
  pk_bytes : ∀ x, 0 ≤ pr_mem (world p) x < 256
}.

Lemma own_entry_lookup p v l : own_entry (backend_of p) v = Ok l → (p < n)%nat ∧ l !! p = Some v.
Proof.
  intros [Hp ->]%vec_set_inv. cbn in Hp. rewrite length_replicate in Hp. cbn. rewrite Nat2Z.id in *.
  split; [lia|]. apply list_lookup_insert_eq. rewrite length_replicate. lia.
Qed.

(** A gathered table holds at [q] what [q] brought for itself. *)
Lemma gathered (sent : nat → list Z) (gather : nat → list Z → list Z) (v : nat → Z) p q l :
  allgather_law n 1 sent (λ p, gather p (sent p)) → (p < n)%nat → (q < n)%nat →
  own_entry (backend_of q) (v q) = Ok l → sent q = l → gather p (sent p) !! q = Some (v q).
Proof.
  intros Hlaw Hp Hq Hl Hs. specialize (Hlaw p q 0%nat Hp Hq ltac:(lia)). cbn in Hlaw.
  replace (q * 1 + 0)%nat with q in Hlaw by lia. rewrite Hlaw, Hs. by apply own_entry_lookup in Hl as [_ ->].
Qed.

(** The steps of a set-up that returned. *)
Record setup_steps (p : nat) (net : NetworkOnImpl) (m' : memory) : Prop := {
  ss_conn : @initialize (pr_verbs (world p)) _ (@ReliableConnection (pr_verbs (world p)) (pr_alltoall (world p)))
              (backend_of p) (pr_dev (world p)) (pr_conn (world p)) = Success (n_conn net);
  ss_hdp_rkey : ∃ mr l, hdp_mr p = Success mr ∧ own_entry (backend_of p) (htobe32 (mr_rkey mr)) = Ok l ∧
    sent_hdp_rkey p = l ∧ n_hdp_rkey net = pr_gather_hdp_rkey (world p) (sent_hdp_rkey p);
  ss_hdp_address : ∃ l, own_entry (backend_of p) (@hdp_flush_ptr (pr_reg (world p))) = Ok l ∧
    sent_hdp_address p = l ∧ n_hdp_address net = pr_gather_hdp_address (world p) (sent_hdp_address p);
  ss_heap_rkey : ∃ mr l, heap_mr p = Success mr ∧ own_entry (backend_of p) (mr_rkey mr) = Ok l ∧
    sent_heap_rkey p = l ∧ n_heap_rkey net = pr_gather_heap_rkey (world p) (sent_heap_rkey p) ∧
    n_lkey net = mr_lkey mr;
  ss_atomic : ∃ k, n_atomic_lkey net = htobe32 k;
  ss_post : post_dv_rc_wqe (backend_of p) (c_qps (n_conn net)) (pr_objs (world p)) heap_bases
              (n_heap_rkey net) (n_lkey net) (pr_mem (world p)) = Ok m';
  ss_qps : setup_gpu_qps (backend_of p) (pr_cq_gpu (world p)) (pr_sq_gpu (world p)) (pr_lock (world p))
             (pr_objs (world p)) (n_hdp_rkey net) (n_hdp_address net) (n_atomic_lkey net) m' = Ok (n_gpu_qps net)
}.

Lemma asserted_Ok {A} (o : outcome A) a : asserted o = Ok a → o = Success a.
Proof. destruct o; naive_solver. Qed.

Lemma setup_inv p net m' : setup_of p = Ok (net, m') → setup_steps p net m'.
Proof.
  unfold setup_of, networkHostSetup. intros H. apply bind_Ok_inv in H as (c & Hc%asserted_Ok & H).
  apply bind_Ok_inv in H as ([hk ha] & Hh%asserted_Ok & H). apply bind_Ok_inv in H as (base & Hbase & H).
  apply bind_Ok_inv in H as ([rk lk] & Hr%asserted_Ok & H). apply bind_Ok_inv in H as (al & Ha%asserted_Ok & H).
  apply bind_Ok_inv in H as (g & _ & H). apply bind_Ok_inv in H as (m1 & Hm & H).
  apply bind_Ok_inv in H as (qs & Hq & [= <- <-]).
  apply outcome_bind_inv in Hh as (mr & Hmr & Hh). apply outcome_bind_inv in Hh as (_ & _ & Hh).
  apply outcome_bind_inv in Hh as (l1 & Hl1%lift_Success & Hh).
  apply outcome_bind_inv in Hh as (l2 & Hl2%lift_Success & [= <- <-]).
  apply outcome_bind_inv in Hr as (_ & _ & Hr). apply outcome_bind_inv in Hr as (mr2 & Hmr2 & Hr).
  apply outcome_bind_inv in Hr as (l3 & Hl3%lift_Success & [= <- <-]).
  apply outcome_bind_inv in Ha as (mr3 & _ & [= <-]).
  assert (base = nth p heap_bases 0) as ->.
  { apply vec_at_inv in Hbase as (w & E%Nat2Z.inj & Hw). subst w. symmetry. by apply nth_lookup_Some. }
  assert (heap_mr p = Success mr2) as Hmr2' by done.
  assert (sent_hdp_rkey p = l1) as E1.
  { unfold sent_hdp_rkey. change (hdp_mr p = Success mr) in Hmr. rewrite Hmr. cbn. by rewrite Hl1. }
  assert (sent_hdp_address p = l2) as E2 by (unfold sent_hdp_address; cbn; by rewrite Hl2).
  assert (sent_heap_rkey p = l3) as E3 by (unfold sent_heap_rkey; rewrite Hmr2'; cbn; by rewrite Hl3).
  split; cbn [n_conn n_hdp_rkey n_hdp_address n_heap_rkey n_lkey n_atomic_lkey n_gpu_qps];
    [done|exists mr, l1; by rewrite E1|exists l2; by rewrite E2|exists mr2, l3; by rewrite E3|by eexists|done|done].
Qed.

(** The device's queue pair made from the description at its index. *)
Lemma setup_gpu_qps_lookup b cqg sqg lock objs hk ha al m qps i o :
  setup_gpu_qps b cqg sqg lock objs hk ha al m = Ok qps → 0 ≤ i < bk_num_pes b * bk_num_wg b →
  vec_at objs i = Ok o →
  vec_at qps i = Ok (init_gpu_qp_from_connection 0 cqg sqg lock o (table hk) (table ha) al m).
Proof.
  intros H Hi Ho.
  apply (foldl_result_inv (Forall2 (λ i g, ∃ o, vec_at objs i = Ok o ∧
    g = init_gpu_qp_from_connection 0 cqg sqg lock o (table hk) (table ha) al m))) in H; [|constructor|].
  - destruct (Forall2_lookup_l _ _ _ (Z.to_nat i) i H) as (g & Hg & o' & Ho' & ->).
    { rewrite lookup_seqZ_lt by lia. f_equal. lia. }
    rewrite Ho in Ho'. injection Ho' as <-. apply vec_at_Z; [lia|done].
  - intros l1 x s s' _ Hs Hb. apply bind_Ok_inv in Hb as (o' & Ho' & [= <-]).
    apply Forall2_app; [done|]. constructor; [by exists o'|constructor].
Qed.
End world.

Section connects.
Context {X : Mlx5} {L : Mlx5Laws X} {W : Mlx5dv} {LW : Mlx5dvLaws W}.
Context (n num_wg : nat) (world : nat → process) (heap_bases : list Z).

(** The device's queue pair of a process for the connection [q] and work-group [w]. *)
Lemma device_qp_ok p q w net m' base_heap atomic_base Q :
  Z.of_nat n * Z.of_nat num_wg < 2 ^ 31 → process_ok world p → (q < n)%nat → (w < num_wg)%nat →
  setup_steps n num_wg world heap_bases p net m' →
  c_qps (n_conn net) !! (q * num_wg + w)%nat = Some Q →
  ∃ cfg rkey, context_qp net (Z.of_nat num_wg) (Z.of_nat n) (Z.of_nat w) (Z.of_nat q) base_heap atomic_base = Ok cfg ∧
    cfg_ok (C := RCConnectionImpl) cfg (qp_num Q) ∧ n_heap_rkey net !! q = Some rkey ∧
    qp_rkey cfg = htobe32 rkey ∧ qp_lkey cfg = htobe32 (n_lkey net) ∧
    hdp_rkey cfg = table (n_hdp_rkey net) ∧ hdp_address cfg = table (n_hdp_address net).
Proof using L LW.
  intros Hsz [HV Hnum Hdis Hslots Hbytes] Hq Hw [Hc _ _ _ [ak Hak] Hpost Hqps] HQ.
  assert (∀ q, q ∈ c_qps (n_conn net) → 0 ≤ qp_num q < 2 ^ 24) as Hn.
  { intros q' Hq'. destruct (rc_numbers _ _ _ _ _ _ Hc Hq') as [i Hi]. by eapply Hnum. }
  destruct (post_dv_rc_wqe_read _ _ _ _ _ _ _ _ Hbytes Hdis Hn Hpost (Z.of_nat q) (Z.of_nat w))
    as (o & Q' & rkey & Ho & HQ' & Hr & [F1 F2 F3 F4]); [cbn; lia..|].
  cbn [bk_num_wg backend_of] in *.
  replace (Z.of_nat q * Z.of_nat num_wg + Z.of_nat w) with (Z.of_nat (q * num_wg + w)) in * by lia.
  rewrite (vec_at_lookup _ _ _ HQ) in HQ'. injection HQ' as <-.
  apply vec_at_inv in Hr as (x & E%Nat2Z.inj & Hr). subst q.
  unfold context_qp. replace (Z.of_nat num_wg * Z.of_nat x + Z.of_nat w) with (Z.of_nat (x * num_wg + w)) by lia.
  assert (0 ≤ Z.of_nat (x * num_wg + w) < Z.of_nat n * Z.of_nat num_wg) as Hi by nia.
  rewrite (setup_gpu_qps_lookup _ _ _ _ _ _ _ _ _ _ _ _ Hqps Hi Ho). cbn [mbind result_bind].
  eexists _, rkey. split; [done|]. cbn [g_cfg init_gpu_qp_from_connection qp_rkey qp_lkey hdp_rkey hdp_address].
  split; [|by rewrite F3, F4].
  assert (∀ k, 0 ≤ htobe32 k < 2 ^ 32) as Hr32 by (intros k; rewrite swap_u32_eq; apply (swap_generic_range 4)).
  assert (Q ∈ c_qps (n_conn net)) as HQin by by eapply list_elem_of_lookup_2.
  apply vec_at_inv in Ho as (i & _ & Ho). apply list_elem_of_lookup_2 in Ho.
  split; cbn [ctrl_qp_sq ctrl_sig qp_rkey qp_lkey atomic_lkey max_nwqe setRkey RCConnectionImpl]; try done.
  - by apply Hn.
  - intros _. by rewrite F3.
  - by rewrite F4.
  - by rewrite Hak.
  - rewrite uwrap_small by (specialize (Hslots _ Ho); lia). by apply Hslots.
Qed.

(** The queue pairs that the processes use for each other. *)
Lemma network_ready (net : nat → NetworkOnImpl) (mem : nat → memory) (base_heap : Z → Z) (atomic_base : Z) :
  Z.of_nat n * Z.of_nat num_wg < 2 ^ 31 → (∀ p, process_ok world p) →
  exchanges_ok n num_wg world heap_bases →
  (∀ p, (p < n)%nat → setup_of n num_wg world heap_bases p = Ok (net p, mem p)) →
  ∀ p q w, (p < n)%nat → (q < n)%nat → (w < num_wg)%nat → ∃ cfg Q R mine theirs hdp,
    context_qp (net p) (Z.of_nat num_wg) (Z.of_nat n) (Z.of_nat w) (Z.of_nat q) base_heap atomic_base = Ok cfg ∧
    c_qps (n_conn (net p)) !! (q * num_wg + w)%nat = Some Q ∧
    c_qps (n_conn (net q)) !! (p * num_wg + w)%nat = Some R ∧
    connected_to (pr_verbs (world p)) Q R (pr_verbs (world q)) ∧
    connected_to (pr_verbs (world q)) R Q (pr_verbs (world p)) ∧
    cfg_ok (C := RCConnectionImpl) cfg (qp_num Q) ∧
    heap_mr world heap_bases p = Success mine ∧ heap_mr world heap_bases q = Success theirs ∧
    hdp_mr world q = Success hdp ∧
    qp_lkey cfg = htobe32 (mr_lkey mine) ∧ qp_rkey cfg = htobe32 (mr_rkey theirs) ∧
    hdp_rkey cfg (Z.of_nat q) = htobe32 (mr_rkey hdp) ∧
    hdp_address cfg (Z.of_nat q) = @hdp_flush_ptr (pr_reg (world q)).
Proof using L LW.
  intros Hsz Hok [Eq Ek Ea Eh] Hs p q w Hp Hq Hw.
  pose proof (setup_inv _ _ _ _ _ _ _ (Hs p Hp)) as Sp. pose proof (setup_inv _ _ _ _ _ _ _ (Hs q Hq)) as Sq.
  destruct (rc_connected n num_wg (λ p, pr_verbs (world p)) (λ p, pk_laws _ _ (Hok p)) (λ p, pr_alltoall (world p))
    (λ p, pr_dev (world p)) (λ p, pr_conn (world p)) (λ p, n_conn (net p))) with p q w
    as (Q & R & HQ & HR & HQR & HRQ); [lia| |exact Eq|done..|].
  { intros p' Hp'. exact (ss_conn _ _ _ _ _ _ _ (setup_inv _ _ _ _ _ _ _ (Hs p' Hp'))). }
  destruct (device_qp_ok p q w (net p) (mem p) base_heap atomic_base Q Hsz (Hok p) Hq Hw Sp HQ)
    as (cfg & rkey & Hcfg & Hcok & Hr & Hrk & Hlk & Hhk & Hha).
  destruct (ss_heap_rkey _ _ _ _ _ _ _ Sp) as (mine & _ & Hmine & _ & _ & Hrt & Hl).
  destruct (ss_heap_rkey _ _ _ _ _ _ _ Sq) as (theirs & lt & Htheirs & Ht & Hst & _).
  destruct (ss_hdp_rkey _ _ _ _ _ _ _ Sp) as (_ & _ & _ & _ & _ & Hkt).
  destruct (ss_hdp_rkey _ _ _ _ _ _ _ Sq) as (hdp & lk & Hhdp & Hk & Hsk & _).
  destruct (ss_hdp_address _ _ _ _ _ _ _ Sp) as (_ & _ & _ & Hat).
  destruct (ss_hdp_address _ _ _ _ _ _ _ Sq) as (la & Ha & Hsa & _).
  pose proof (gathered n num_wg _ (λ p, pr_gather_heap_rkey (world p)) (λ _, mr_rkey theirs) p q lt Eh Hp Hq Ht Hst) as G1.
  pose proof (gathered n num_wg _ (λ p, pr_gather_hdp_rkey (world p)) (λ _, htobe32 (mr_rkey hdp)) p q lk Ek Hp Hq Hk Hsk) as G2.
  pose proof (gathered n num_wg _ (λ p, pr_gather_hdp_address (world p)) (λ _, @hdp_flush_ptr (pr_reg (world q))) p q la Ea Hp Hq Ha Hsa) as G3.
  exists cfg, Q, R, mine, theirs, hdp. split_and!; try done.
  - by rewrite Hlk, Hl.
  - rewrite Hrt, G1 in Hr. injection Hr as <-. done.
  - rewrite Hhk. unfold table. rewrite Nat2Z.id, Hkt. by apply nth_lookup_Some.
  - rewrite Hha. unfold table. rewrite Nat2Z.id, Hat. by apply nth_lookup_Some.
Qed.

(** C8: After the network set-up of all processes has returned, the queue pair that
    work-group [w] of process [p] uses for process [q] is ready for use: it carries the
    number of a verbs queue pair that is connected with the one that work-group [w] of
    [q] uses for [p], in both directions; the key of the heap that [q] registered, its
    own local key, and the key and the address of the HDP register of [q]; and it has
    the form that the theorems on queue pairs assume. *)
Theorem network_connects (net : nat → NetworkOnImpl) (mem : nat → memory) (base_heap : Z → Z) (atomic_base : Z) :
  Z.of_nat n * Z.of_nat num_wg < 2 ^ 31 → (∀ p, process_ok world p) →
  exchanges_ok n num_wg world heap_bases →
  (∀ p, (p < n)%nat → setup_of n num_wg world heap_bases p = Ok (net p, mem p)) →
  ∀ p q w, (p < n)%nat → (q < n)%nat → (w < num_wg)%nat → ∃ cfg Q R mine theirs hdp,
    context_qp (net p) (Z.of_nat num_wg) (Z.of_nat n) (Z.of_nat w) (Z.of_nat q) base_heap atomic_base = Ok cfg ∧
    c_qps (n_conn (net p)) !! (q * num_wg + w)%nat = Some Q ∧
    c_qps (n_conn (net q)) !! (p * num_wg + w)%nat = Some R ∧
    connected_to (pr_verbs (world p)) Q R (pr_verbs (world q)) ∧
    connected_to (pr_verbs (world q)) R Q (pr_verbs (world p)) ∧
    cfg_ok (C := RCConnectionImpl) cfg (qp_num Q) ∧
    heap_mr world heap_bases p = Success mine ∧ heap_mr world heap_bases q = Success theirs ∧
    hdp_mr world q = Success hdp ∧
    qp_lkey cfg = htobe32 (mr_lkey mine) ∧ qp_rkey cfg = htobe32 (mr_rkey theirs) ∧
    hdp_rkey cfg (Z.of_nat q) = htobe32 (mr_rkey hdp) ∧
    hdp_address cfg (Z.of_nat q) = @hdp_flush_ptr (pr_reg (world q)).
Proof using L LW. apply network_ready. Qed.
End connects.

(** ** Two processes *)

Module ExampleNetwork.
Import ExampleVerbs.

#[export] Existing Instance mlx5dv.

(** The writers as [mlx5dv.h] has them. *)
#[export] Instance writers : Mlx5dv := {|
  mlx5dv_set_ctrl_seg := λ m p pi opcode opmod qpn ce ds sig imm,
    store 4 (store 1 (store 1 (store 4 (store 4 m
      p (htobe32 (Z.lor (Z.lor (Z.shiftl opmod 24) (Z.shiftl pi 8)) opcode)))
      (p + 4) (htobe32 (Z.lor (Z.shiftl qpn 8) ds))) (p + 8) sig) (p + 11) ce) (p + 12) imm;
  mlx5dv_set_data_seg := λ m p len lkey addr,
    store 8 (store 4 (store 4 m p (htobe32 len)) (p + 4) (htobe32 lkey)) (p + 8) (htobe64 addr)
|}.

Lemma htobe32_wrap k : u32 (htobe32 k) = htobe32 k.
Proof. apply uwrap_small. rewrite swap_u32_eq. apply (swap_generic_range 4). Qed.

#[export] Instance writers_laws : Mlx5dvLaws writers.
Proof.
  split; cbn [mlx5dv_set_ctrl_seg mlx5dv_set_data_seg writers ctrl_opmod_idx_opcode ctrl_qpn_ds ctrl_fm_ce_se
              data_lkey raddr_rkey mlx5dv]; try done.
  - intros. intros x Hx. by rewrite !store_other by lia.
  - intros. rewrite Z.add_0_r. read. apply htobe32_wrap.
  - intros. read. apply htobe32_wrap.
  - intros m p pi opcode opmod qpn ce ds sig imm Hce. rewrite store_other by lia. unfold store.
    rewrite (proj2 (Z.leb_le _ _)), (proj2 (Z.ltb_lt _ _)) by lia. cbn [andb]. rewrite Z.sub_diag.
    unfold byte_of. rewrite Z.mul_0_r, Z.shiftr_0_r. change 255 with (Z.ones 8).
    rewrite Z.land_ones by lia. apply Z.mod_small. lia.
  - intros. intros x Hx. by rewrite !store_other by lia.
  - intros. read. apply htobe32_wrap.
  - intros. by repeat apply store_bytes.
  - intros. by repeat apply store_bytes.
Qed.

Definition region (p : nat) : Registration := {|
  ibv_reg_mr := λ ptr size _, Some (mkMr (1000 + Z.of_nat p) (2000 + ptr));
  hdp_flush_ptr := 64 * (1 + Z.of_nat p);
  atomic_region := 0x30000;
  heap_malloc := λ _, 0x40000
|}.

Definition example_bases : list Z := [0x100000; 0x200000].

Definition machine (p : nat) : process :=
  mkProcess (verbs p) (region p) (λ _ _, received p) (λ _, htobe32 <$> [2064; 2128]) (λ _, [64; 128])
    (λ _, [2000 + 0x100000; 2000 + 0x200000]) None (ReliableConnection_new None) 4096 false true true (λ a, a)
    ((λ i, mkDv 64 (0x8000 + 0x1000 * i) (0x7000 + 64 * i) 64 (0x10000 + 0x1000 * i) (0x6000 + 64 * i) 0x5000)
       <$> seqZ 0 4) (λ _, 0).

Definition setup_result (p : nat) : NetworkOnImpl * memory :=
  match setup_of 2 2 machine example_bases p with
  | Ok r => r
  | Fail _ => (mkNet (ReliableConnection_new None) [] [] [] 0 0 0 [], λ _, 0)
  end.

Lemma setup_ok p : (p < 2)%nat → setup_of 2 2 machine example_bases p = Ok ((setup_result p).1, (setup_result p).2).
Proof.
  intros Hp. unfold setup_result. destruct (setup_of _ _ _ _ p) as [[net m]|e] eqn:E; [done|].
  apply (f_equal (λ r, match r with Ok _ => true | Fail _ => false end)) in E.
  both p; vm_compute in E; discriminate.
Qed.

Lemma machine_ok p : process_ok machine p.
Proof.
  split; cbn [pr_verbs pr_objs pr_mem machine].
  - apply verbs_laws.
  - intros i num [= <-]. apply Z.mod_pos_bound. lia.
  - intros i j o o' Hne Hi Hj. apply list_lookup_fmap_Some in Hi as (a & -> & Ha), Hj as (b & -> & Hb).
    apply lookup_seqZ in Ha as [-> _], Hb as [-> _]. cbn. lia.
  - intros o Ho. apply list_elem_of_fmap in Ho as (i & -> & _). cbn. lia.
  - lia.
Qed.

Lemma machine_exchanges : exchanges_ok 2 2 machine example_bases.
Proof.
  split; intros p q w Hp Hq Hw.
  - both p; both q; both w; vm_compute; reflexivity.
  - destruct w; [|exfalso; lia]. both p; both q; vm_compute; reflexivity.
  - destruct w; [|exfalso; lia]. both p; both q; vm_compute; reflexivity.
  - destruct w; [|exfalso; lia]. both p; both q; vm_compute; reflexivity.
Qed.
End ExampleNetwork.
Import ExampleNetwork.

Lemma network_connects_witness :
  ∃ cfg Q R mine theirs hdp,
    context_qp (setup_result 0).1 2 2 1 1 (λ _, 0) 0x30000 = Ok cfg ∧
    c_qps (n_conn (setup_result 0).1) !! 3%nat = Some Q ∧
    c_qps (n_conn (setup_result 1).1) !! 1%nat = Some R ∧
    connected_to (ExampleVerbs.verbs 0) Q R (ExampleVerbs.verbs 1) ∧
    connected_to (ExampleVerbs.verbs 1) R Q (ExampleVerbs.verbs 0) ∧
    cfg_ok (C := RCConnectionImpl) cfg (qp_num Q) ∧
    heap_mr machine example_bases 0 = Success mine ∧ heap_mr machine example_bases 1 = Success theirs ∧
    hdp_mr machine 1 = Success hdp ∧
    qp_lkey cfg = htobe32 (mr_lkey mine) ∧ qp_rkey cfg = htobe32 (mr_rkey theirs) ∧
    hdp_rkey cfg 1 = htobe32 (mr_rkey hdp) ∧ hdp_address cfg 1 = 128.
Proof.
  refine (network_connects 2 2 machine example_bases (λ p, (setup_result p).1) (λ p, (setup_result p).2)
    (λ _, 0) 0x30000 _ machine_ok machine_exchanges setup_ok 0%nat 1%nat 1%nat _ _ _); lia.
Defined.

(** ** Corners of the set-up *)

(** Once a loop in the result monad has failed it stays so. *)
Lemma foldl_result_fail {A S} (f : A → S → result S) l e :
  foldl (λ r x, s ← r; f x s) (Fail e) l = Fail e.
Proof. by induction l. Qed.

Lemma foldl_result_first {A S} (f : A → S → result S) x l s e :
  f x s = Fail e → foldl (λ r x, s ← r; f x s) (Ok s) (x :: l) = Fail e.
Proof. intros H. cbn [foldl mbind result_bind]. rewrite H. apply foldl_result_fail. Qed.

Lemma vec_at_fail {A} (l : list A) i : (∃ x, vec_at l i = Ok x) ∨ vec_at l i = Fail BadAccess.
Proof. unfold vec_at. case_if; [by right|]. destruct (l !! _); [left; by eexists|by right]. Qed.

(** The address in the first request is that of process [(my_pe + 1) % 2]; a program of
    one process has none, and reads beyond the table. *)
Theorem single_process_fails {X : Mlx5} {W : Mlx5dv} (num_wg : Z) qps objs heap_base heap_rkey lkey m :
  0 < num_wg →
  post_dv_rc_wqe (mkBackend 1 0 num_wg) qps objs [heap_base] heap_rkey lkey m = Fail BadAccess.
Proof.
  intros Hw. unfold post_dv_rc_wqe, conn_pairs. cbn [bk_num_pes bk_num_wg].
  rewrite (seqZ_cons 0 num_wg) by lia. change (seqZ 0 1) with [0]. cbn [mbind list_bind fmap list_fmap app].
  apply foldl_result_first. cbn [bk_num_wg bk_my_pe].
  destruct (vec_at_fail objs (0 * num_wg + 0)) as [[o ->]| ->]; [|done].
  by destruct (vec_at_fail qps (0 * num_wg + 0)) as [[q ->]| ->].
Qed.

(** With dynamic connections the requests are written from the table of targets on the
    host, which [initialize] has freed. *)
Theorem dc_requests_use_freed {X : Mlx5} {W : Mlx5dv} {V : Verbs} {HV : VerbsLaws V} fuel b MPI dev c0 c objs av lkey m :
  initialize (K := DynamicConnection MPI) b dev c0 = Success c →
  0 < num_dcis (c_own c) * bk_num_wg b →
  post_dv_dc_wqe fuel b c objs av lkey m = Fail BadAccess.
Proof.
  intros Hi Hn. destruct (dc_initialize _ _ _ _ _ Hi) as (d & dcts & l & _ & _ & _ & _ & _ & _ & _ & Hfree & _).
  unfold post_dv_dc_wqe. rewrite seqZ_cons by lia. apply foldl_result_first. rewrite Hfree.
  destruct (vec_at_fail objs 0) as [[o ->]| ->]; [|done].
  by destruct (vec_at_fail (c_qps c) 0) as [[q ->]| ->].
Qed.

(** The index of the loop that writes them has 16 bits: from 2^16 requests on, four for
    each of 16384 slots, it does not end. *)
Theorem dc_requests_diverge fuel body m ptr index nb_post :
  2 ^ 16 ≤ nb_post → 0 ≤ index < 2 ^ 16 → dc_wqes fuel body m ptr index nb_post = Fail OutOfFuel.
Proof.
  intros Hn. revert m ptr index. induction fuel as [|fuel IH]; intros m ptr index Hi; [done|].
  cbn [dc_wqes]. rewrite (proj2 (Z.ltb_lt _ _)) by lia. apply IH. apply uwrap_range. lia.
Qed.
