(* ===== verification/Dispatch.v ===== *)
(** * Dispatch of the operations of a context

    [backend_type.hpp], [context_device.cpp], [context_tmpl_device.hpp],
    [context_host.cpp], [context_tmpl_host.hpp], [fence_policy.hpp] and [stats.hpp]: a
    method of [class Context] counts the call and passes it to the method of the
    backend's class, on the device under the lock of the context.  A method is the
    trace of what one thread does and its result; the result of a backend's method is
    an argument.  Shown: when results survive the dispatch and when counters survive
    their accumulation. *)
From S2P Require Import Prelude ROQueue MPITransport Host.

Local Open Scope Z_scope.

(** ** Statistics *)

Inductive roc_shmem_stats :=
  | NUM_PUT | NUM_PUT_NBI | NUM_P | NUM_GET | NUM_G | NUM_GET_NBI
  | NUM_FENCE | NUM_QUIET | NUM_TO_ALL | NUM_BARRIER_ALL | NUM_WAIT_UNTIL | NUM_FINALIZE
  | NUM_MSG_COAL | NUM_ATOMIC_FADD | NUM_ATOMIC_FCSWAP | NUM_ATOMIC_FINC | NUM_ATOMIC_FETCH
  | NUM_ATOMIC_ADD | NUM_ATOMIC_CSWAP | NUM_ATOMIC_INC | NUM_TEST | NUM_SHMEM_PTR | NUM_SYNC_ALL
  | NUM_BROADCAST | NUM_PUT_WG | NUM_PUT_NBI_WG | NUM_GET_WG | NUM_GET_NBI_WG | NUM_PUT_WAVE
  | NUM_PUT_NBI_WAVE | NUM_GET_WAVE | NUM_GET_NBI_WAVE | NUM_CREATE | NUM_ALLTOALL | NUM_FCOLLECT.

Inductive roc_shmem_host_stats :=
  | NUM_HOST_PUT | NUM_HOST_PUT_NBI | NUM_HOST_P | NUM_HOST_GET
  | NUM_HOST_G | NUM_HOST_GET_NBI | NUM_HOST_FENCE | NUM_HOST_QUIET | NUM_HOST_TO_ALL
  | NUM_HOST_BARRIER_ALL | NUM_HOST_WAIT_UNTIL | NUM_HOST_FINALIZE | NUM_HOST_ATOMIC_FADD
  | NUM_HOST_ATOMIC_FCSWAP | NUM_HOST_ATOMIC_FINC | NUM_HOST_ATOMIC_FETCH | NUM_HOST_ATOMIC_ADD
  | NUM_HOST_ATOMIC_CSWAP | NUM_HOST_ATOMIC_INC | NUM_HOST_TEST | NUM_HOST_SHMEM_PTR
  | NUM_HOST_SYNC_ALL | NUM_HOST_BROADCAST.

#[export] Instance stats_eq_dec : EqDecision roc_shmem_stats.
Proof. solve_decision. Defined.
#[export] Instance host_stats_eq_dec : EqDecision roc_shmem_host_stats.
Proof. solve_decision. Defined.

(** The enumerators in order; the value of one is its position. *)
Definition all_stats : list roc_shmem_stats :=
  [NUM_PUT; NUM_PUT_NBI; NUM_P; NUM_GET; NUM_G;
   NUM_GET_NBI; NUM_FENCE; NUM_QUIET; NUM_TO_ALL; NUM_BARRIER_ALL; NUM_WAIT_UNTIL; NUM_FINALIZE;
   NUM_MSG_COAL; NUM_ATOMIC_FADD; NUM_ATOMIC_FCSWAP; NUM_ATOMIC_FINC; NUM_ATOMIC_FETCH;
   NUM_ATOMIC_ADD; NUM_ATOMIC_CSWAP; NUM_ATOMIC_INC; NUM_TEST; NUM_SHMEM_PTR; NUM_SYNC_ALL;
   NUM_BROADCAST; NUM_PUT_WG; NUM_PUT_NBI_WG; NUM_GET_WG; NUM_GET_NBI_WG; NUM_PUT_WAVE;
   NUM_PUT_NBI_WAVE; NUM_GET_WAVE; NUM_GET_NBI_WAVE; NUM_CREATE; NUM_ALLTOALL; NUM_FCOLLECT].
Definition all_host_stats : list roc_shmem_host_stats :=
  [NUM_HOST_PUT; NUM_HOST_PUT_NBI;
   NUM_HOST_P; NUM_HOST_GET; NUM_HOST_G; NUM_HOST_GET_NBI; NUM_HOST_FENCE; NUM_HOST_QUIET;
   NUM_HOST_TO_ALL; NUM_HOST_BARRIER_ALL; NUM_HOST_WAIT_UNTIL; NUM_HOST_FINALIZE;
   NUM_HOST_ATOMIC_FADD; NUM_HOST_ATOMIC_FCSWAP; NUM_HOST_ATOMIC_FINC; NUM_HOST_ATOMIC_FETCH;
   NUM_HOST_ATOMIC_ADD; NUM_HOST_ATOMIC_CSWAP; NUM_HOST_ATOMIC_INC; NUM_HOST_TEST;
   NUM_HOST_SHMEM_PTR; NUM_HOST_SYNC_ALL; NUM_HOST_BROADCAST].
Definition stat_index (s : roc_shmem_stats) : Z :=
  Z.of_nat (default O (fst <$> list_find (s =.) all_stats)).
Definition host_stat_index (s : roc_shmem_host_stats) : Z :=
  Z.of_nat (default O (fst <$> list_find (s =.) all_host_stats)).

(** [class Stats<I>] and [class HostStats<I>]: an array of [unsigned long long].  The
    amount is an [int], which is widened with its sign. *)
Definition Stats_new (I : Z) : list Z := replicate (Z.to_nat I) 0.
Definition getStat (stats : list Z) (index : Z) : result Z := vec_at stats index.
Definition incStat (index value : Z) (stats : list Z) : result (list Z) :=
  old ← vec_at stats index;
  Ok (<[Z.to_nat index := u64 (old + s32 value)]> stats).
Definition endTimer (start now index : Z) (stats : list Z) : result (list Z) :=
  incStat index (u64 (now - start)) stats.
Definition accumulateStats (otherStats stats : list Z) : result (list Z) :=
  foldl (λ r i, stats ← r; v ← getStat otherStats i; incStat i v stats) (Ok stats)
    (seqZ 0 (Z.of_nat (length stats))).
Definition resetStats (stats : list Z) : list Z := replicate (length stats) 0.

(** ** Fences *)

Definition ROC_SHMEM_CTX_SERIALIZED : Z := 1.
Definition ROC_SHMEM_CTX_PRIVATE : Z := 2.
Definition ROC_SHMEM_CTX_NOSTORE : Z := 4.
Definition ROC_SHMEM_CTX_WG_PRIVATE : Z := 8.

(** [class Fence], by its only member. *)
Record Fence := mkFence { flush_ : bool }.
Definition Fence_new (option : Z) : Fence :=
  mkFence (if negb (Z.land option ROC_SHMEM_CTX_NOSTORE =? 0) then false else true).

(** Whether [flush] executes [__threadfence]. *)
Definition flush (f : Fence) : bool := flush_ f.

(** ** Values of element types *)

Inductive kind := Signed | Unsigned | Floating.
Record ctype := mkType { T_kind : kind; sizeof_T : Z }.
Definition T_int : ctype := mkType Signed 4.
Definition T_int64 : ctype := mkType Signed 8.
Definition T_uint64 : ctype := mkType Unsigned 8.
Definition T_double : ctype := mkType Floating 8.

(** An integer, or the floating-point number [m * 2 ^ e]. *)
Inductive cval := Int (z : Z) | Flt (m e : Z).

(** Conversion to [int]: a floating-point number is cut off towards zero, and has to
    be in range. *)
Definition to_int (v : cval) : Z :=
  match v with
  | Int z => s32 z
  | Flt m e => if 0 <=? e then m * 2 ^ e else Z.quot m (2 ^ - e)
  end.

(** Conversion of an integer to the element type. *)
Definition of_int (T : ctype) (z : Z) : cval :=
  match T_kind T with
  | Signed => Int (swrap (8 * sizeof_T T) z)
  | Unsigned => Int (uwrap (8 * sizeof_T T) z)
  | Floating => Flt z 0
  end.

(** A value of the type. *)
Definition of_type (T : ctype) (v : cval) : Prop :=
  match T_kind T, v with
  | Signed, Int z => swrap (8 * sizeof_T T) z = z
  | Unsigned, Int z => uwrap (8 * sizeof_T T) z = z
  | Floating, Flt _ _ => True
  | _, _ => False
  end.

(** ** Methods of the backends' contexts *)

Inductive BackendType := RO_BACKEND | GPU_IB_BACKEND.

Inductive func :=
  | F_threadfence_system | F_ctx_create | F_ctx_destroy
  | F_putmem (dest source nelems pe : Z)
  | F_getmem (dest source nelems pe : Z)
  | F_putmem_nbi (dest source nelems pe : Z)
  | F_getmem_nbi (dest source nelems pe : Z)
  | F_putmem_wg (dest source nelems pe : Z)
  | F_getmem_wg (dest source nelems pe : Z)
  | F_putmem_nbi_wg (dest source nelems pe : Z)
  | F_getmem_nbi_wg (dest source nelems pe : Z)
  | F_putmem_wave (dest source nelems pe : Z)
  | F_getmem_wave (dest source nelems pe : Z)
  | F_putmem_nbi_wave (dest source nelems pe : Z)
  | F_getmem_nbi_wave (dest source nelems pe : Z)
  | F_put (T : ctype) (dest source nelems pe : Z)
  | F_get (T : ctype) (dest source nelems pe : Z)
  | F_put_nbi (T : ctype) (dest source nelems pe : Z)
  | F_get_nbi (T : ctype) (dest source nelems pe : Z)
  | F_put_wg (T : ctype) (dest source nelems pe : Z)
  | F_get_wg (T : ctype) (dest source nelems pe : Z)
  | F_put_nbi_wg (T : ctype) (dest source nelems pe : Z)
  | F_get_nbi_wg (T : ctype) (dest source nelems pe : Z)
  | F_put_wave (T : ctype) (dest source nelems pe : Z)
  | F_get_wave (T : ctype) (dest source nelems pe : Z)
  | F_put_nbi_wave (T : ctype) (dest source nelems pe : Z)
  | F_get_nbi_wave (T : ctype) (dest source nelems pe : Z)
  | F_p (T : ctype) (dest : Z) (value : cval) (pe : Z)
  | F_g (T : ctype) (source pe : Z)
  | F_fence | F_fence_pe (pe : Z) | F_quiet
  | F_shmem_ptr (dest pe : Z)
  | F_barrier_all | F_sync_all | F_sync (team : Z)
  | F_amo_fetch_add (dst value cond pe : Z)
  | F_amo_add (dst value cond pe : Z)
  | F_amo_fetch_cas (dst value cond pe : Z)
  | F_amo_cas (dst value cond pe : Z)
  | F_to_all (T : ctype) (Op : ROC_SHMEM_OP) (dest source nreduce PE_start logPE_stride PE_size pWrk pSync : Z)
  | F_team_to_all (T : ctype) (Op : ROC_SHMEM_OP) (team dest source nreduce : Z)
  | F_alltoall (T : ctype) (team dest source nelems : Z)
  | F_fcollect (T : ctype) (team dest source nelems : Z)
  | F_broadcast (T : ctype) (dest source nelems pe_root pe_start log_pe_stride pe_size p_sync : Z)
  | F_team_broadcast (T : ctype) (team dest source nelems pe_root : Z)
  | F_wait_until (T : ctype) (ptr cmp val : Z)
  | F_test (T : ctype) (ptr cmp val : Z).

(** ** What a thread does *)

Inductive event :=
  | Inc (s : roc_shmem_stats)
  | HostInc (s : roc_shmem_host_stats)
  | Accumulate
  | Lock
  | Unlock
  | Call (b : BackendType) (f : func).

Definition dev (A : Type) : Type := list event * A.
#[export] Instance dev_ret : MRet dev := λ A a, ([], a).
#[export] Instance dev_bind : MBind dev := λ A B k m, let '(l1, a) := m in let '(l2, b) := k a in (l1 ++ l2, b).

Definition emit (e : event) : dev unit := ([e], tt).

(** ** Methods on the device *)

Section device.
(** The member [type] of the context, and whether the thread is the first of its block. *)
Context (type : BackendType) (is_thread_zero_in_block : bool).

Definition DISPATCH_NO_LOCK (f : func) : dev unit := emit (Call type f).
Definition DISPATCH (f : func) : dev unit := emit Lock;; emit (Call type f);; emit Unlock.

(** [auto ret_val {0}] is an [int]; [answer] is what the backend's method returns,
    and [T] the type that the method returns. *)
Definition DISPATCH_RET (T : ctype) (f : func) (answer : cval) : dev cval :=
  emit Lock;; emit (Call type f);; emit Unlock;; mret (of_int T (to_int answer)).
Definition DISPATCH_RET_PTR (f : func) (answer : Z) : dev Z :=
  emit Lock;; emit (Call type f);; emit Unlock;; mret answer.

(** [if (is_thread_zero_in_block()) ctxStats.incStat(s)] *)
Definition incStat_zero (s : roc_shmem_stats) : dev unit :=
  if is_thread_zero_in_block then emit (Inc s) else mret tt.

Definition Context_threadfence_system : dev unit := DISPATCH F_threadfence_system.
Definition Context_ctx_create : dev unit := incStat_zero NUM_CREATE;; DISPATCH F_ctx_create.
Definition Context_ctx_destroy : dev unit :=
  (if is_thread_zero_in_block then emit (Inc NUM_FINALIZE);; emit Accumulate else mret tt);;
  DISPATCH F_ctx_destroy.

Definition Context_putmem (dest source nelems pe : Z) : dev unit :=
  if nelems =? 0 then mret tt else emit (Inc NUM_PUT);; DISPATCH (F_putmem dest source nelems pe).
Definition Context_getmem (dest source nelems pe : Z) : dev unit :=
  if nelems =? 0 then mret tt else emit (Inc NUM_GET);; DISPATCH (F_getmem dest source nelems pe).
Definition Context_putmem_nbi (dest source nelems pe : Z) : dev unit :=
  if nelems =? 0 then mret tt else emit (Inc NUM_PUT_NBI);; DISPATCH (F_putmem_nbi dest source nelems pe).
Definition Context_getmem_nbi (dest source nelems pe : Z) : dev unit :=
  if nelems =? 0 then mret tt else emit (Inc NUM_GET_NBI);; DISPATCH (F_getmem_nbi dest source nelems pe).
Definition Context_putmem_wg (dest source nelems pe : Z) : dev unit :=
  if nelems =? 0 then mret tt else emit (Inc NUM_PUT_WG);; DISPATCH_NO_LOCK (F_putmem_wg dest source nelems pe).
Definition Context_getmem_wg (dest source nelems pe : Z) : dev unit :=
  if nelems =? 0 then mret tt else emit (Inc NUM_GET_WG);; DISPATCH_NO_LOCK (F_getmem_wg dest source nelems pe).
Definition Context_putmem_nbi_wg (dest source nelems pe : Z) : dev unit :=
  if nelems =? 0 then mret tt else emit (Inc NUM_PUT_NBI_WG);; DISPATCH_NO_LOCK (F_putmem_nbi_wg dest source nelems pe).
Definition Context_getmem_nbi_wg (dest source nelems pe : Z) : dev unit :=
  if nelems =? 0 then mret tt else emit (Inc NUM_GET_NBI_WG);; DISPATCH_NO_LOCK (F_getmem_nbi_wg dest source nelems pe).
Definition Context_putmem_wave (dest source nelems pe : Z) : dev unit :=
  if nelems =? 0 then mret tt else emit (Inc NUM_PUT_WAVE);; DISPATCH (F_putmem_wave dest source nelems pe).
Definition Context_getmem_wave (dest source nelems pe : Z) : dev unit :=
  if nelems =? 0 then mret tt else emit (Inc NUM_GET_WAVE);; DISPATCH (F_getmem_wave dest source nelems pe).
Definition Context_putmem_nbi_wave (dest source nelems pe : Z) : dev unit :=
  if nelems =? 0 then mret tt else emit (Inc NUM_PUT_NBI_WAVE);; DISPATCH (F_putmem_nbi_wave dest source nelems pe).
Definition Context_getmem_nbi_wave (dest source nelems pe : Z) : dev unit :=
  if nelems =? 0 then mret tt else emit (Inc NUM_GET_NBI_WAVE);; DISPATCH (F_getmem_nbi_wave dest source nelems pe).
Definition Context_put (T : ctype) (dest source nelems pe : Z) : dev unit :=
  if nelems =? 0 then mret tt else emit (Inc NUM_PUT);; DISPATCH (F_put T dest source nelems pe).
Definition Context_get (T : ctype) (dest source nelems pe : Z) : dev unit :=
  if nelems =? 0 then mret tt else emit (Inc NUM_GET);; DISPATCH (F_get T dest source nelems pe).
Definition Context_put_nbi (T : ctype) (dest source nelems pe : Z) : dev unit :=
  if nelems =? 0 then mret tt else emit (Inc NUM_PUT_NBI);; DISPATCH (F_put_nbi T dest source nelems pe).
Definition Context_get_nbi (T : ctype) (dest source nelems pe : Z) : dev unit :=
  if nelems =? 0 then mret tt else emit (Inc NUM_GET_NBI);; DISPATCH (F_get_nbi T dest source nelems pe).
Definition Context_put_wg (T : ctype) (dest source nelems pe : Z) : dev unit :=
  if nelems =? 0 then mret tt else emit (Inc NUM_PUT_WG);; DISPATCH_NO_LOCK (F_put_wg T dest source nelems pe).
Definition Context_get_wg (T : ctype) (dest source nelems pe : Z) : dev unit :=
  if nelems =? 0 then mret tt else emit (Inc NUM_GET_WG);; DISPATCH_NO_LOCK (F_get_wg T dest source nelems pe).
Definition Context_put_nbi_wg (T : ctype) (dest source nelems pe : Z) : dev unit :=
  if nelems =? 0 then mret tt else emit (Inc NUM_PUT_NBI_WG);; DISPATCH_NO_LOCK (F_put_nbi_wg T dest source nelems pe).
Definition Context_get_nbi_wg (T : ctype) (dest source nelems pe : Z) : dev unit :=
  if nelems =? 0 then mret tt else emit (Inc NUM_GET_NBI_WG);; DISPATCH_NO_LOCK (F_get_nbi_wg T dest source nelems pe).
Definition Context_put_wave (T : ctype) (dest source nelems pe : Z) : dev unit :=
  if nelems =? 0 then mret tt else emit (Inc NUM_PUT_WAVE);; DISPATCH (F_put_wave T dest source nelems pe).
Definition Context_get_wave (T : ctype) (dest source nelems pe : Z) : dev unit :=
  if nelems =? 0 then mret tt else emit (Inc NUM_GET_WAVE);; DISPATCH (F_get_wave T dest source nelems pe).
Definition Context_put_nbi_wave (T : ctype) (dest source nelems pe : Z) : dev unit :=
  if nelems =? 0 then mret tt else emit (Inc NUM_PUT_NBI_WAVE);; DISPATCH (F_put_nbi_wave T dest source nelems pe).
Definition Context_get_nbi_wave (T : ctype) (dest source nelems pe : Z) : dev unit :=
  if nelems =? 0 then mret tt else emit (Inc NUM_GET_NBI_WAVE);; DISPATCH (F_get_nbi_wave T dest source nelems pe).

Definition Context_p (T : ctype) (dest : Z) (value : cval) (pe : Z) : dev unit :=
  emit (Inc NUM_P);; DISPATCH (F_p T dest value pe).
Definition Context_g (T : ctype) (source pe : Z) (answer : func → cval) : dev cval :=
  emit (Inc NUM_G);; DISPATCH_RET T (F_g T source pe) (answer (F_g T source pe)).

Definition Context_fence : dev unit := emit (Inc NUM_FENCE);; DISPATCH F_fence.
Definition Context_fence_pe (pe : Z) : dev unit := emit (Inc NUM_FENCE);; DISPATCH (F_fence_pe pe).
Definition Context_quiet : dev unit := emit (Inc NUM_QUIET);; DISPATCH F_quiet.
Definition Context_shmem_ptr (dest pe : Z) (answer : func → Z) : dev Z :=
  emit (Inc NUM_SHMEM_PTR);; DISPATCH_RET_PTR (F_shmem_ptr dest pe) (answer (F_shmem_ptr dest pe)).
Definition Context_barrier_all : dev unit := emit (Inc NUM_BARRIER_ALL);; DISPATCH F_barrier_all.
Definition Context_sync_all : dev unit := emit (Inc NUM_SYNC_ALL);; DISPATCH F_sync_all.
Definition Context_sync (team : Z) : dev unit := emit (Inc NUM_SYNC_ALL);; DISPATCH (F_sync team).

Definition Context_amo_fetch_add (dst value cond pe : Z) (answer : func → cval) : dev cval :=
  let f := F_amo_fetch_add dst value cond pe in emit (Inc NUM_ATOMIC_FADD);; DISPATCH_RET T_int64 f (answer f).
Definition Context_amo_add (dst value cond pe : Z) : dev unit :=
  emit (Inc NUM_ATOMIC_ADD);; DISPATCH (F_amo_add dst value cond pe).
Definition Context_amo_fetch_cas (dst value cond pe : Z) (answer : func → cval) : dev cval :=
  let f := F_amo_fetch_cas dst value cond pe in emit (Inc NUM_ATOMIC_FCSWAP);; DISPATCH_RET T_int64 f (answer f).
Definition Context_amo_cas (dst value cond pe : Z) : dev unit :=
  emit (Inc NUM_ATOMIC_CSWAP);; DISPATCH (F_amo_cas dst value cond pe).

Definition Context_to_all (T : ctype) (Op : ROC_SHMEM_OP)
    (dest source nreduce PE_start logPE_stride PE_size pWrk pSync : Z) : dev unit :=
  if nreduce =? 0 then mret tt
  else incStat_zero NUM_TO_ALL;;
       DISPATCH (F_to_all T Op dest source nreduce PE_start logPE_stride PE_size pWrk pSync).
Definition Context_team_to_all (T : ctype) (Op : ROC_SHMEM_OP) (team dest source nreduce : Z) : dev unit :=
  if nreduce =? 0 then mret tt
  else incStat_zero NUM_TO_ALL;; DISPATCH (F_team_to_all T Op team dest source nreduce).
Definition Context_alltoall (T : ctype) (team dest source nelems : Z) : dev unit :=
  if nelems =? 0 then mret tt
  else incStat_zero NUM_ALLTOALL;; DISPATCH (F_alltoall T team dest source nelems).
Definition Context_fcollect (T : ctype) (team dest source nelems : Z) : dev unit :=
  if nelems =? 0 then mret tt
  else incStat_zero NUM_FCOLLECT;; DISPATCH (F_fcollect T team dest source nelems).
Definition Context_team_broadcast (T : ctype) (team dest source nelems pe_root : Z) : dev unit :=
  if nelems =? 0 then mret tt
  else incStat_zero NUM_BROADCAST;; DISPATCH (F_team_broadcast T team dest source nelems pe_root).
Definition Context_broadcast (T : ctype)
    (dest source nelems pe_root pe_start log_pe_stride pe_size p_sync : Z) : dev unit :=
  if nelems =? 0 then mret tt
  else incStat_zero NUM_BROADCAST;;
       DISPATCH (F_broadcast T dest source nelems pe_root pe_start log_pe_stride pe_size p_sync).

(** [loaded] is what the uncached load sees. *)
Definition Context_test (cmp val loaded : Z) : Z :=
  if cmp =? ROC_SHMEM_CMP_EQ then (if loaded =? val then 1 else 0)
  else if cmp =? ROC_SHMEM_CMP_NE then (if negb (loaded =? val) then 1 else 0)
  else if cmp =? ROC_SHMEM_CMP_GT then (if val <? loaded then 1 else 0)
  else if cmp =? ROC_SHMEM_CMP_GE then (if val <=? loaded then 1 else 0)
  else if cmp =? ROC_SHMEM_CMP_LT then (if loaded <? val then 1 else 0)
  else if cmp =? ROC_SHMEM_CMP_LE then (if loaded <=? val then 1 else 0)
  else 0.

(** [loads] are the values that the rounds see; it gives the rounds that are left
    when the loop ends, and goes on when they are used up. *)
Fixpoint Context_wait_until (cmp val : Z) (loads : list Z) : option (list Z) :=
  match loads with
  | [] => None
  | v :: loads' => if negb (Context_test cmp val v =? 0) then Some loads' else Context_wait_until cmp val loads'
  end.
End device.

(** ** Methods on the host *)

Section host.
Context (type : BackendType).

Definition HOST_DISPATCH (f : func) : dev unit := emit (Call type f).
Definition HOST_DISPATCH_RET (T : ctype) (f : func) (answer : cval) : dev cval :=
  emit (Call type f);; mret (of_int T (to_int answer)).

Definition Host_putmem (dest source nelems pe : Z) : dev unit :=
  if nelems =? 0 then mret tt else emit (HostInc NUM_HOST_PUT);; HOST_DISPATCH (F_putmem dest source nelems pe).
Definition Host_getmem (dest source nelems pe : Z) : dev unit :=
  if nelems =? 0 then mret tt else emit (HostInc NUM_HOST_GET);; HOST_DISPATCH (F_getmem dest source nelems pe).
Definition Host_putmem_nbi (dest source nelems pe : Z) : dev unit :=
  if nelems =? 0 then mret tt else emit (HostInc NUM_HOST_PUT_NBI);; HOST_DISPATCH (F_putmem_nbi dest source nelems pe).
Definition Host_getmem_nbi (dest source nelems pe : Z) : dev unit :=
  if nelems =? 0 then mret tt else emit (HostInc NUM_HOST_GET_NBI);; HOST_DISPATCH (F_getmem_nbi dest source nelems pe).
Definition Host_put (T : ctype) (dest source nelems pe : Z) : dev unit :=
  if nelems =? 0 then mret tt else emit (HostInc NUM_HOST_PUT);; HOST_DISPATCH (F_put T dest source nelems pe).
Definition Host_get (T : ctype) (dest source nelems pe : Z) : dev unit :=
  if nelems =? 0 then mret tt else emit (HostInc NUM_HOST_GET);; HOST_DISPATCH (F_get T dest source nelems pe).
Definition Host_put_nbi (T : ctype) (dest source nelems pe : Z) : dev unit :=
  if nelems =? 0 then mret tt else emit (HostInc NUM_HOST_PUT_NBI);; HOST_DISPATCH (F_put_nbi T dest source nelems pe).
Definition Host_get_nbi (T : ctype) (dest source nelems pe : Z) : dev unit :=
  if nelems =? 0 then mret tt else emit (HostInc NUM_HOST_GET_NBI);; HOST_DISPATCH (F_get_nbi T dest source nelems pe).
Definition Host_p (T : ctype) (dest : Z) (value : cval) (pe : Z) : dev unit :=
  emit (HostInc NUM_HOST_P);; HOST_DISPATCH (F_p T dest value pe).
Definition Host_g (T : ctype) (source pe : Z) (answer : func → cval) : dev cval :=
  emit (HostInc NUM_HOST_G);; HOST_DISPATCH_RET T (F_g T source pe) (answer (F_g T source pe)).
Definition Host_amo_fetch_add (dst value cond pe : Z) (answer : func → cval) : dev cval :=
  let f := F_amo_fetch_add dst value cond pe in
  emit (HostInc NUM_HOST_ATOMIC_FADD);; HOST_DISPATCH_RET T_int64 f (answer f).
Definition Host_amo_add (dst value cond pe : Z) : dev unit :=
  emit (HostInc NUM_HOST_ATOMIC_ADD);; HOST_DISPATCH (F_amo_add dst value cond pe).
Definition Host_amo_fetch_cas (dst value cond pe : Z) (answer : func → cval) : dev cval :=
  let f := F_amo_fetch_cas dst value cond pe in
  emit (HostInc NUM_HOST_ATOMIC_FCSWAP);; HOST_DISPATCH_RET T_int64 f (answer f).
Definition Host_amo_cas (dst value cond pe : Z) : dev unit :=
  emit (HostInc NUM_HOST_ATOMIC_CSWAP);; HOST_DISPATCH (F_amo_cas dst value cond pe).
Definition Host_fence : dev unit := emit (HostInc NUM_HOST_FENCE);; HOST_DISPATCH F_fence.
Definition Host_quiet : dev unit := emit (HostInc NUM_HOST_QUIET);; HOST_DISPATCH F_quiet.
Definition Host_sync_all : dev unit := emit (HostInc NUM_HOST_SYNC_ALL);; HOST_DISPATCH F_sync_all.
Definition Host_barrier_all : dev unit := emit (HostInc NUM_HOST_BARRIER_ALL);; HOST_DISPATCH F_barrier_all.
Definition Host_broadcast (T : ctype)
    (dest source nelems pe_root pe_start log_pe_stride pe_size p_sync : Z) : dev unit :=
  if nelems =? 0 then mret tt
  else emit (HostInc NUM_HOST_BROADCAST);;
       HOST_DISPATCH (F_broadcast T dest source nelems pe_root pe_start log_pe_stride pe_size p_sync).
Definition Host_team_broadcast (T : ctype) (team dest source nelems pe_root : Z) : dev unit :=
  if nelems =? 0 then mret tt
  else emit (HostInc NUM_HOST_BROADCAST);; HOST_DISPATCH (F_team_broadcast T team dest source nelems pe_root).
Definition Host_to_all (T : ctype) (Op : ROC_SHMEM_OP)
    (dest source nreduce PE_start logPE_stride PE_size pWrk pSync : Z) : dev unit :=
  if nreduce =? 0 then mret tt
  else emit (HostInc NUM_HOST_TO_ALL);;
       HOST_DISPATCH (F_to_all T Op dest source nreduce PE_start logPE_stride PE_size pWrk pSync).
Definition Host_team_to_all (T : ctype) (Op : ROC_SHMEM_OP) (team dest source nreduce : Z) : dev unit :=
  if nreduce =? 0 then mret tt
  else emit (HostInc NUM_HOST_TO_ALL);; HOST_DISPATCH (F_team_to_all T Op team dest source nreduce).
Definition Host_wait_until (T : ctype) (ptr cmp val : Z) : dev unit :=
  emit (HostInc NUM_HOST_WAIT_UNTIL);; HOST_DISPATCH (F_wait_until T ptr cmp val).
Definition Host_test (T : ctype) (ptr cmp val : Z) (answer : func → cval) : dev cval :=
  let f := F_test T ptr cmp val in emit (HostInc NUM_HOST_TEST);; HOST_DISPATCH_RET T_int f (answer f).
End host.
(** ** Results *)

(** The widths of the C types. *)
Definition sized (T : ctype) : Prop := sizeof_T T ∈ [1; 2; 4; 8].

(** A result is unchanged by the [int] of the dispatch exactly if its type has at
    most 32 bits or, read as a signed number, it fits into 32 bits. *)
Lemma returned_int T z :
  sized T → of_type T (Int z) →
  of_int T (to_int (Int z)) = Int z ↔ sizeof_T T ≤ 4 ∨ INT_MIN ≤ s64 z ≤ INT_MAX.
Proof.
  destruct T as [[] n]; unfold sized, of_type, of_int, to_int, INT_MIN, INT_MAX; cbn [T_kind sizeof_T];
    rewrite !elem_of_cons, elem_of_nil; intros [->|[->|[->|[->|[]]]]] Hz; [..|done|done|done|done].
  all: unfold swrap, uwrap in *; cbn in *.
  all: split; [intros [= H]|intros H; f_equal]; div_lia.
Qed.

(** Seven halves come back as three. *)
Lemma returned_fraction : of_int T_double (to_int (Flt 7 (-1))) = Flt 3 0.
Proof. reflexivity. Qed.

(** ** Counters *)

Lemma incStat_at stats i v x :
  stats !! Z.to_nat i = Some x → 0 ≤ i → 0 ≤ v < 2 ^ 31 →
  incStat i v stats = Ok (<[Z.to_nat i := u64 (x + v)]> stats).
Proof.
  intros Hx Hi Hv. unfold incStat. rewrite (vec_at_Z _ _ _ Hi Hx). cbn [mbind result_bind].
  by rewrite s32_small by (unfold INT_MIN, INT_MAX; lia).
Qed.

(** Counters below [2 ^ 31] are added as they are. *)
Lemma accumulate_sum other stats :
  length other = length stats → Forall (λ v, 0 ≤ v < 2 ^ 31) other →
  accumulateStats other stats = Ok (zip_with (λ x v, u64 (x + v)) stats other).
Proof.
  intros Hlen Hb. unfold accumulateStats, getStat.
  assert (∀ k, (k ≤ length stats)%nat →
    foldl (λ r i, stats ← r; v ← vec_at other i; incStat i v stats) (Ok stats) (seqZ 0 (Z.of_nat k)) =
    Ok (zip_with (λ x v, u64 (x + v)) (take k stats) (take k other) ++ drop k stats)) as H.
  { induction k as [|k IH]; intros Hk; [done|].
    rewrite seqZ_S. rewrite foldl_app, IH by lia. cbn [foldl mbind result_bind].
    destruct (lookup_lt_is_Some_2 other k) as [v Hv]; [lia|].
    destruct (lookup_lt_is_Some_2 stats k) as [x Hx]; [lia|].
    rewrite Z.add_0_l, (vec_at_Z other (Z.of_nat k) v) by (rewrite ?Nat2Z.id; done || lia). cbn [mbind result_bind].
    assert (length (zip_with (λ x v, u64 (x + v)) (take k stats) (take k other)) = k) as Hz.
    { rewrite length_zip_with, !length_take. lia. }
    rewrite (incStat_at _ _ _ x).
    - f_equal. rewrite Nat2Z.id, insert_app_r_alt by lia. rewrite Hz, Nat.sub_diag.
      rewrite (take_S_r _ _ _ Hx), (take_S_r _ _ _ Hv), zip_with_app by (rewrite !length_take; lia).
      rewrite (drop_S _ _ _ Hx), <- app_assoc. done.
    - rewrite Nat2Z.id, lookup_app_r by lia. rewrite Hz, Nat.sub_diag, lookup_drop, Nat.add_0_r. done.
    - lia.
    - exact (Forall_lookup_1 _ _ _ _ Hb Hv). }
  rewrite (H (length stats)) by lia. by rewrite !take_ge, drop_ge, app_nil_r by lia.
Qed.

(** A counter of [2 ^ 31] is taken away instead of added. *)
Lemma accumulate_wraps : accumulateStats [2 ^ 31] [5] = Ok [2 ^ 64 - 2 ^ 31 + 5].
Proof. vm_compute. reflexivity. Qed.

(** Contexts that are destroyed one after the other leave the sum of their counters. *)
Theorem global_stats (n : nat) (contexts : list (list Z)) :
  Forall (λ c, length c = n ∧ Forall (λ v, 0 ≤ v < 2 ^ 31) c) contexts →
  ∃ total, foldl (λ r c, g ← r; accumulateStats c g) (Ok (Stats_new (Z.of_nat n))) contexts = Ok total ∧
    length total = n ∧ ∀ i, (i < n)%nat → total !! i = Some (u64 (zsum (λ c, nth i c 0) contexts)).
Proof.
  intros Hc. induction contexts as [|c contexts IH] using rev_ind.
  - exists (Stats_new (Z.of_nat n)). unfold Stats_new. rewrite length_replicate, Nat2Z.id. split; [done|].
    split; [done|]. intros i Hi. rewrite lookup_replicate_2 by done. by rewrite uwrap_small by (cbn; lia).
  - rewrite Forall_app, Forall_singleton in Hc. destruct Hc as [Hc [Hl Hb]].
    destruct (IH Hc) as (total & Hf & Ht & Hs). rewrite foldl_app, Hf. cbn [foldl mbind result_bind].
    rewrite accumulate_sum by (congruence || done). eexists. split; [done|].
    rewrite length_zip_with. split; [lia|]. intros i Hi.
    destruct (lookup_lt_is_Some_2 c i) as [v Hv]; [lia|].
    rewrite lookup_zip_with, (Hs i Hi), Hv. cbn. f_equal.
    rewrite zsum_app. cbn [zsum]. rewrite (nth_lookup_Some _ _ _ _ Hv). unfold uwrap.
    rewrite Z.add_mod_idemp_l by lia. f_equal. lia.
Qed.

(** ** Waiting *)

(** The loop of the device ends with the first value that fulfils the condition. *)
Lemma wait_until_first cmp val loads rest :
  Context_wait_until cmp val loads = Some rest ↔
  ∃ pre v, loads = pre ++ v :: rest ∧ Forall (λ u, Context_test cmp val u = 0) pre ∧ Context_test cmp val v ≠ 0.
Proof.
  induction loads as [|u loads IH]; cbn [Context_wait_until].
  { split; [done|]. by intros ([] & v & ? & _). }
  destruct (Z.eqb_spec (Context_test cmp val u) 0) as [E|E]; cbn [negb].
  - rewrite IH. split.
    + intros (pre & v & -> & Hp & Hv). exists (u :: pre), v. split; [done|]. by split; [constructor|].
    + intros ([|u' pre] & v & [= -> ->] & Hp & Hv); [done|]. exists pre, v. by inversion Hp.
  - split.
    + intros [= <-]. by exists [], u.
    + intros ([|u' pre] & v & [= -> ->] & Hp & Hv); [done|]. by inversion Hp.
Qed.

(** Host and device compare alike. *)
Lemma test_compare cmp val v : 0 ≤ cmp ≤ 5 → compare cmp v val = Ok (Context_test cmp val v).
Proof.
  intros Hc. assert (cmp ∈ [0; 1; 2; 3; 4; 5]) as H by (rewrite !elem_of_cons; lia).
  rewrite !elem_of_cons, elem_of_nil in H. destruct H as [->|[->|[->|[->|[->|[->|[]]]]]]]; reflexivity.
Qed.
