(* ===== verification/Api.v ===== *)
(** * The public interface

    [roc_shmem_gpu.cpp] and the host functions of [roc_shmem.cpp] on transfers, atomics,
    collectives, memory and contexts: which context a call runs on, which process it
    reaches, and what it does there ([Dispatch.v]).  Shown: on a context of a team the
    transfers reach the member that is meant, through all creations and destructions of
    other contexts; every call is dispatched exactly once, under the lock; which
    results reach the caller unchanged. *)
From S2P Require Import Prelude ROQueue Teams WGState MPITransport Host Dispatch.

Local Open Scope Z_scope.

(** ** Contexts of the device *)

(** [team_opaque] points into the work-group's pool of team descriptions. *)
Record roc_shmem_ctx_t := mkCtx { ctx_opaque : Z; team_opaque : option nat }.

(** What the contexts of a work-group consist of: its private context and the one of
    the whole device, the fences of all contexts, the pool of team descriptions. *)
Record wg_contexts := mkWg {
  private_ctx : Z;
  default_ctx : Z;
  fences : gmap Z Fence;
  tinfo_pool : wg_tinfo_pool
}.

Definition ROC_SHMEM_CTX_DEFAULT (s : wg_contexts) : roc_shmem_ctx_t := mkCtx (default_ctx s) None.

Definition translate_pe (s : wg_contexts) (ctx : roc_shmem_ctx_t) (pe : Z) : result Z :=
  match team_opaque ctx with
  | Some i =>
      wg_tinfo ← must (tinfo_pool s !! i);
      let lds_tinfo := team_info_ wg_tinfo in
      Ok (s32 (pe_start lds_tinfo + s32 (stride lds_tinfo * pe)))
  | None => Ok pe
  end.

Definition setFence (ctx options : Z) (s : wg_contexts) : wg_contexts :=
  mkWg (private_ctx s) (default_ctx s) (<[ctx := Fence_new options]> (fences s)) (tinfo_pool s).
Definition set_tinfo_pool (pool : wg_tinfo_pool) (s : wg_contexts) : wg_contexts :=
  mkWg (private_ctx s) (default_ctx s) (fences s) pool.

Definition wg_ctx_create (option : Z) (s : wg_contexts) : Z * wg_contexts :=
  let phys_ctx :=
    if negb (Z.land option (Z.lor ROC_SHMEM_CTX_WG_PRIVATE ROC_SHMEM_CTX_PRIVATE) =? 0)
    then private_ctx s else default_ctx s in
  (phys_ctx, setFence phys_ctx option s).

(** With the trace of [ctx_create] of the context. *)
Definition roc_shmem_wg_ctx_create (type : BackendType) (thread_zero : bool) (option : Z) (s : wg_contexts)
    : roc_shmem_ctx_t * wg_contexts * dev unit :=
  let '(phy_ctx, s) := wg_ctx_create option s in
  (mkCtx phy_ctx None, s, Context_ctx_create type thread_zero).

(** The return value, the context and the new state; [tinfo] is what the team
    pointers lead to.  The caller's variable for the context is in shared memory. *)
Definition roc_shmem_wg_team_create_ctx (tinfo : Z → TeamInfo) (team options : Z) (s : wg_contexts)
    : result (Z * option roc_shmem_ctx_t * wg_contexts) :=
  if team =? ROC_SHMEM_TEAM_INVALID then Ok (-1, None, s)
  else
    let '(phy_ctx, s) := wg_ctx_create options s in
    '(info_wrt_world, pool) ← get_team_info tinfo team (tinfo_pool s);
    Ok (0, Some (mkCtx phy_ctx (Some info_wrt_world)), set_tinfo_pool pool s).

Definition roc_shmem_wg_ctx_destroy (ctx : roc_shmem_ctx_t) (s : wg_contexts) : result wg_contexts :=
  match team_opaque ctx with
  | Some i => pool ← remove_team_info i (tinfo_pool s); Ok (set_tinfo_pool pool s)
  | None => Ok s
  end.

(** ** Calls on the device *)

Section device.
Context (type : BackendType) (thread_zero : bool) (s : wg_contexts).

(** The context that a call runs on, and what it does there. *)
Definition on {A} (ctx : roc_shmem_ctx_t) (m : dev A) : result (Z * dev A) := Ok (ctx_opaque ctx, m).

Definition roc_shmem_ctx_putmem (ctx : roc_shmem_ctx_t) (dest source nelems pe : Z) : result (Z * dev unit) :=
  pe_in_world ← translate_pe s ctx pe; on ctx (Context_putmem type dest source nelems pe_in_world).
Definition roc_shmem_ctx_getmem (ctx : roc_shmem_ctx_t) (dest source nelems pe : Z) : result (Z * dev unit) :=
  pe_in_world ← translate_pe s ctx pe; on ctx (Context_getmem type dest source nelems pe_in_world).
Definition roc_shmem_ctx_putmem_nbi (ctx : roc_shmem_ctx_t) (dest source nelems pe : Z) : result (Z * dev unit) :=
  pe_in_world ← translate_pe s ctx pe; on ctx (Context_putmem_nbi type dest source nelems pe_in_world).
Definition roc_shmem_ctx_getmem_nbi (ctx : roc_shmem_ctx_t) (dest source nelems pe : Z) : result (Z * dev unit) :=
  pe_in_world ← translate_pe s ctx pe; on ctx (Context_getmem_nbi type dest source nelems pe_in_world).
Definition roc_shmem_ctx_put (T : ctype) (ctx : roc_shmem_ctx_t) (dest source nelems pe : Z) : result (Z * dev unit) :=
  pe_in_world ← translate_pe s ctx pe; on ctx (Context_put type T dest source nelems pe_in_world).
Definition roc_shmem_ctx_get (T : ctype) (ctx : roc_shmem_ctx_t) (dest source nelems pe : Z) : result (Z * dev unit) :=
  pe_in_world ← translate_pe s ctx pe; on ctx (Context_get type T dest source nelems pe_in_world).
Definition roc_shmem_ctx_put_nbi (T : ctype) (ctx : roc_shmem_ctx_t) (dest source nelems pe : Z) : result (Z * dev unit) :=
  pe_in_world ← translate_pe s ctx pe; on ctx (Context_put_nbi type T dest source nelems pe_in_world).
Definition roc_shmem_ctx_get_nbi (T : ctype) (ctx : roc_shmem_ctx_t) (dest source nelems pe : Z) : result (Z * dev unit) :=
  pe_in_world ← translate_pe s ctx pe; on ctx (Context_get_nbi type T dest source nelems pe_in_world).
Definition roc_shmem_ctx_p (T : ctype) (ctx : roc_shmem_ctx_t) (dest : Z) (value : cval) (pe : Z)
    : result (Z * dev unit) :=
  pe_in_world ← translate_pe s ctx pe; on ctx (Context_p type T dest value pe_in_world).
Definition roc_shmem_ctx_g (T : ctype) (ctx : roc_shmem_ctx_t) (source pe : Z) (answer : func → cval)
    : result (Z * dev cval) :=
  pe_in_world ← translate_pe s ctx pe; on ctx (Context_g type T source pe_in_world answer).

Definition roc_shmem_ctx_threadfence_system (ctx : roc_shmem_ctx_t) := on ctx (Context_threadfence_system type).
Definition roc_shmem_ctx_fence (ctx : roc_shmem_ctx_t) := on ctx (Context_fence type).
Definition roc_shmem_ctx_fence_pe (ctx : roc_shmem_ctx_t) (pe : Z) := on ctx (Context_fence_pe type pe).
Definition roc_shmem_ctx_quiet (ctx : roc_shmem_ctx_t) := on ctx (Context_quiet type).
Definition roc_shmem_ptr (dest pe : Z) (answer : func → Z) : result (Z * dev Z) :=
  on (ROC_SHMEM_CTX_DEFAULT s) (Context_shmem_ptr type dest pe answer).
Definition roc_shmem_ctx_wg_barrier_all (ctx : roc_shmem_ctx_t) := on ctx (Context_barrier_all type).
Definition roc_shmem_ctx_wg_sync_all (ctx : roc_shmem_ctx_t) := on ctx (Context_sync_all type).
Definition roc_shmem_ctx_wg_team_sync (ctx : roc_shmem_ctx_t) (team : Z) := on ctx (Context_sync type team).

(** The atomics are instantiated for [int64_t] and [uint64_t]; their operands are
    converted to [int64_t], their results to [T]. *)
Definition int64_of (v : cval) : Z := match v with Int z => s64 z | Flt m e => 0 end.
Definition cast (T : ctype) (m : dev cval) : dev cval := v ← m; mret (of_int T (int64_of v)).

Definition roc_shmem_ctx_atomic_fetch_add (T : ctype) (ctx : roc_shmem_ctx_t) (dest val pe : Z)
    (answer : func → cval) : result (Z * dev cval) :=
  on ctx (cast T (Context_amo_fetch_add type dest (s64 val) 0 pe answer)).
Definition roc_shmem_ctx_atomic_compare_swap (T : ctype) (ctx : roc_shmem_ctx_t) (dest cond val pe : Z)
    (answer : func → cval) : result (Z * dev cval) :=
  on ctx (cast T (Context_amo_fetch_cas type dest (s64 val) (s64 cond) pe answer)).
Definition roc_shmem_ctx_atomic_fetch_inc (T : ctype) (ctx : roc_shmem_ctx_t) (dest pe : Z)
    (answer : func → cval) : result (Z * dev cval) :=
  on ctx (cast T (Context_amo_fetch_add type dest 1 0 pe answer)).
Definition roc_shmem_ctx_atomic_fetch (T : ctype) (ctx : roc_shmem_ctx_t) (dest pe : Z)
    (answer : func → cval) : result (Z * dev cval) :=
  on ctx (cast T (Context_amo_fetch_add type dest 0 0 pe answer)).
Definition roc_shmem_ctx_atomic_add (ctx : roc_shmem_ctx_t) (dest val pe : Z) : result (Z * dev unit) :=
  on ctx (Context_amo_add type dest (s64 val) 0 pe).
Definition roc_shmem_ctx_atomic_inc (ctx : roc_shmem_ctx_t) (dest pe : Z) : result (Z * dev unit) :=
  on ctx (Context_amo_add type dest 1 0 pe).

(** The collectives. *)
Definition roc_shmem_wg_to_all (T : ctype) (Op : ROC_SHMEM_OP) (ctx : roc_shmem_ctx_t)
    (dest source nreduce PE_start logPE_stride PE_size pWrk pSync : Z) :=
  on ctx (Context_to_all type thread_zero T Op dest source nreduce PE_start logPE_stride PE_size pWrk pSync).
Definition roc_shmem_wg_team_to_all (T : ctype) (Op : ROC_SHMEM_OP) (ctx : roc_shmem_ctx_t)
    (team dest source nreduce : Z) :=
  on ctx (Context_team_to_all type thread_zero T Op team dest source nreduce).
Definition roc_shmem_wg_broadcast (T : ctype) (ctx : roc_shmem_ctx_t)
    (dest source nelem pe_root pe_start log_pe_stride pe_size p_sync : Z) :=
  on ctx (Context_broadcast type thread_zero T dest source nelem pe_root pe_start log_pe_stride pe_size p_sync).
Definition roc_shmem_wg_team_broadcast (T : ctype) (ctx : roc_shmem_ctx_t) (team dest source nelem pe_root : Z) :=
  on ctx (Context_team_broadcast type thread_zero T team dest source nelem pe_root).
Definition roc_shmem_wg_alltoall (T : ctype) (ctx : roc_shmem_ctx_t) (team dest source nelem : Z) :=
  on ctx (Context_alltoall type thread_zero T team dest source nelem).
Definition roc_shmem_wg_fcollect (T : ctype) (ctx : roc_shmem_ctx_t) (team dest source nelem : Z) :=
  on ctx (Context_fcollect type thread_zero T team dest source nelem).

(** The transfers of a wave or a work-group. *)
Definition roc_shmemx_ctx_putmem_wave (ctx : roc_shmem_ctx_t) (dest source nelems pe : Z) :=
  on ctx (Context_putmem_wave type dest source nelems pe).
Definition roc_shmemx_ctx_putmem_wg (ctx : roc_shmem_ctx_t) (dest source nelems pe : Z) :=
  on ctx (Context_putmem_wg type dest source nelems pe).
Definition roc_shmemx_ctx_putmem_nbi_wave (ctx : roc_shmem_ctx_t) (dest source nelems pe : Z) :=
  on ctx (Context_putmem_nbi_wave type dest source nelems pe).
Definition roc_shmemx_ctx_putmem_nbi_wg (ctx : roc_shmem_ctx_t) (dest source nelems pe : Z) :=
  on ctx (Context_putmem_nbi_wg type dest source nelems pe).
Definition roc_shmemx_ctx_getmem_wave (ctx : roc_shmem_ctx_t) (dest source nelems pe : Z) :=
  on ctx (Context_getmem_wave type dest source nelems pe).
Definition roc_shmemx_ctx_getmem_wg (ctx : roc_shmem_ctx_t) (dest source nelems pe : Z) :=
  on ctx (Context_getmem_wg type dest source nelems pe).
Definition roc_shmemx_ctx_getmem_nbi_wave (ctx : roc_shmem_ctx_t) (dest source nelems pe : Z) :=
  on ctx (Context_getmem_nbi_wave type dest source nelems pe).
Definition roc_shmemx_ctx_getmem_nbi_wg (ctx : roc_shmem_ctx_t) (dest source nelems pe : Z) :=
  on ctx (Context_getmem_nbi_wg type dest source nelems pe).
Definition roc_shmemx_ctx_put_wave (T : ctype) (ctx : roc_shmem_ctx_t) (dest source nelems pe : Z) :=
  on ctx (Context_put_wave type T dest source nelems pe).
Definition roc_shmemx_ctx_put_wg (T : ctype) (ctx : roc_shmem_ctx_t) (dest source nelems pe : Z) :=
  on ctx (Context_put_wg type T dest source nelems pe).
Definition roc_shmemx_ctx_put_nbi_wave (T : ctype) (ctx : roc_shmem_ctx_t) (dest source nelems pe : Z) :=
  on ctx (Context_put_nbi_wave type T dest source nelems pe).
Definition roc_shmemx_ctx_put_nbi_wg (T : ctype) (ctx : roc_shmem_ctx_t) (dest source nelems pe : Z) :=
  on ctx (Context_put_nbi_wg type T dest source nelems pe).
Definition roc_shmemx_ctx_get_wave (T : ctype) (ctx : roc_shmem_ctx_t) (dest source nelems pe : Z) :=
  on ctx (Context_get_wave type T dest source nelems pe).
Definition roc_shmemx_ctx_get_wg (T : ctype) (ctx : roc_shmem_ctx_t) (dest source nelems pe : Z) :=
  on ctx (Context_get_wg type T dest source nelems pe).
Definition roc_shmemx_ctx_get_nbi_wave (T : ctype) (ctx : roc_shmem_ctx_t) (dest source nelems pe : Z) :=
  on ctx (Context_get_nbi_wave type T dest source nelems pe).
Definition roc_shmemx_ctx_get_nbi_wg (T : ctype) (ctx : roc_shmem_ctx_t) (dest source nelems pe : Z) :=
  on ctx (Context_get_nbi_wg type T dest source nelems pe).

(** ** Calls on the default context *)

Definition roc_shmem_putmem (dest source nelems pe : Z) := roc_shmem_ctx_putmem (ROC_SHMEM_CTX_DEFAULT s) dest source nelems pe.
Definition roc_shmem_getmem (dest source nelems pe : Z) := roc_shmem_ctx_getmem (ROC_SHMEM_CTX_DEFAULT s) dest source nelems pe.
Definition roc_shmem_putmem_nbi (dest source nelems pe : Z) := roc_shmem_ctx_putmem_nbi (ROC_SHMEM_CTX_DEFAULT s) dest source nelems pe.
Definition roc_shmem_getmem_nbi (dest source nelems pe : Z) := roc_shmem_ctx_getmem_nbi (ROC_SHMEM_CTX_DEFAULT s) dest source nelems pe.
Definition roc_shmem_put (T : ctype) (dest source nelems pe : Z) :=
  roc_shmem_ctx_put T (ROC_SHMEM_CTX_DEFAULT s) dest source nelems pe.
Definition roc_shmem_get (T : ctype) (dest source nelems pe : Z) :=
  roc_shmem_ctx_get T (ROC_SHMEM_CTX_DEFAULT s) dest source nelems pe.
Definition roc_shmem_put_nbi (T : ctype) (dest source nelems pe : Z) :=
  roc_shmem_ctx_put_nbi T (ROC_SHMEM_CTX_DEFAULT s) dest source nelems pe.
Definition roc_shmem_get_nbi (T : ctype) (dest source nelems pe : Z) :=
  roc_shmem_ctx_get_nbi T (ROC_SHMEM_CTX_DEFAULT s) dest source nelems pe.
Definition roc_shmem_p (T : ctype) (dest : Z) (value : cval) (pe : Z) := roc_shmem_ctx_p T (ROC_SHMEM_CTX_DEFAULT s) dest value pe.
Definition roc_shmem_g (T : ctype) (source pe : Z) (answer : func → cval) :=
  roc_shmem_ctx_g T (ROC_SHMEM_CTX_DEFAULT s) source pe answer.
Definition roc_shmem_fence := roc_shmem_ctx_fence (ROC_SHMEM_CTX_DEFAULT s).
Definition roc_shmem_fence_pe (pe : Z) := roc_shmem_ctx_fence_pe (ROC_SHMEM_CTX_DEFAULT s) pe.
Definition roc_shmem_quiet := roc_shmem_ctx_quiet (ROC_SHMEM_CTX_DEFAULT s).
Definition roc_shmem_wg_barrier_all := roc_shmem_ctx_wg_barrier_all (ROC_SHMEM_CTX_DEFAULT s).
Definition roc_shmem_wg_sync_all := roc_shmem_ctx_wg_sync_all (ROC_SHMEM_CTX_DEFAULT s).
Definition roc_shmem_wg_team_sync (team : Z) := roc_shmem_ctx_wg_team_sync (ROC_SHMEM_CTX_DEFAULT s) team.
Definition roc_shmem_atomic_fetch_add (T : ctype) (dest val pe : Z) (answer : func → cval) :=
  roc_shmem_ctx_atomic_fetch_add T (ROC_SHMEM_CTX_DEFAULT s) dest val pe answer.
Definition roc_shmem_atomic_compare_swap (T : ctype) (dest cond val pe : Z) (answer : func → cval) :=
  roc_shmem_ctx_atomic_compare_swap T (ROC_SHMEM_CTX_DEFAULT s) dest cond val pe answer.
Definition roc_shmem_atomic_fetch_inc (T : ctype) (dest pe : Z) (answer : func → cval) :=
  roc_shmem_ctx_atomic_fetch_inc T (ROC_SHMEM_CTX_DEFAULT s) dest pe answer.
Definition roc_shmem_atomic_fetch (T : ctype) (dest pe : Z) (answer : func → cval) :=
  roc_shmem_ctx_atomic_fetch T (ROC_SHMEM_CTX_DEFAULT s) dest pe answer.
Definition roc_shmem_atomic_add (dest val pe : Z) := roc_shmem_ctx_atomic_add (ROC_SHMEM_CTX_DEFAULT s) dest val pe.
Definition roc_shmem_atomic_inc (dest pe : Z) := roc_shmem_ctx_atomic_inc (ROC_SHMEM_CTX_DEFAULT s) dest pe.

(** The trace of the call, with the loads that the loop has left when it ends. *)
Definition roc_shmem_wait_until (cmp val : Z) (loads : list Z) : option (Z * dev (list Z)) :=
  rest ← Context_wait_until cmp val loads; Some (default_ctx s, emit (Inc NUM_WAIT_UNTIL);; mret rest).
Definition roc_shmem_test (cmp val loaded : Z) : Z * dev Z :=
  (default_ctx s, emit (Inc NUM_TEST);; mret (Context_test cmp val loaded)).
End device.

(** ** All calls together *)

(** The transfers by their functions. *)
Inductive rma :=
  | r_putmem | r_getmem | r_putmem_nbi | r_getmem_nbi | r_put | r_get | r_put_nbi | r_get_nbi
  | r_putmem_wave | r_putmem_wg | r_putmem_nbi_wave | r_putmem_nbi_wg | r_getmem_wave | r_getmem_wg
    | r_getmem_nbi_wave | r_getmem_nbi_wg
  | r_put_wave | r_put_wg | r_put_nbi_wave | r_put_nbi_wg | r_get_wave | r_get_wg | r_get_nbi_wave
    | r_get_nbi_wg.

Inductive device_call :=
  | C_rma (r : rma) (T : ctype) (dest source nelems pe : Z)
  | C_p (T : ctype) (dest : Z) (value : cval) (pe : Z)
  | C_g (T : ctype) (source pe : Z)
  | C_threadfence_system | C_fence | C_fence_pe (pe : Z) | C_quiet
  | C_barrier_all | C_sync_all | C_team_sync (team : Z)
  | C_fetch_add (T : ctype) (dest val pe : Z)
  | C_compare_swap (T : ctype) (dest cond val pe : Z)
  | C_fetch_inc (T : ctype) (dest pe : Z)
  | C_fetch (T : ctype) (dest pe : Z)
  | C_add (dest val pe : Z)
  | C_inc (dest pe : Z)
  | C_to_all (T : ctype) (Op : ROC_SHMEM_OP) (dest source nreduce PE_start logPE_stride PE_size pWrk pSync : Z)
  | C_team_to_all (T : ctype) (Op : ROC_SHMEM_OP) (team dest source nreduce : Z)
  | C_broadcast (T : ctype) (dest source nelem pe_root pe_start log_pe_stride pe_size p_sync : Z)
  | C_team_broadcast (T : ctype) (team dest source nelem pe_root : Z)
  | C_alltoall (T : ctype) (team dest source nelem : Z)
  | C_fcollect (T : ctype) (team dest source nelem : Z).

Section calls.
Context (type : BackendType) (thread_zero : bool) (s : wg_contexts) (answer : func → cval).

Definition run_rma (r : rma) (T : ctype) (ctx : roc_shmem_ctx_t) (dest source nelems pe : Z)
    : result (Z * dev unit) :=
  match r with
  | r_putmem => roc_shmem_ctx_putmem type s ctx dest source nelems pe
  | r_getmem => roc_shmem_ctx_getmem type s ctx dest source nelems pe
  | r_putmem_nbi => roc_shmem_ctx_putmem_nbi type s ctx dest source nelems pe
  | r_getmem_nbi => roc_shmem_ctx_getmem_nbi type s ctx dest source nelems pe
  | r_put => roc_shmem_ctx_put type s T ctx dest source nelems pe
  | r_get => roc_shmem_ctx_get type s T ctx dest source nelems pe
  | r_put_nbi => roc_shmem_ctx_put_nbi type s T ctx dest source nelems pe
  | r_get_nbi => roc_shmem_ctx_get_nbi type s T ctx dest source nelems pe
  | r_putmem_wave => roc_shmemx_ctx_putmem_wave type ctx dest source nelems pe
  | r_putmem_wg => roc_shmemx_ctx_putmem_wg type ctx dest source nelems pe
  | r_putmem_nbi_wave => roc_shmemx_ctx_putmem_nbi_wave type ctx dest source nelems pe
  | r_putmem_nbi_wg => roc_shmemx_ctx_putmem_nbi_wg type ctx dest source nelems pe
  | r_getmem_wave => roc_shmemx_ctx_getmem_wave type ctx dest source nelems pe
  | r_getmem_wg => roc_shmemx_ctx_getmem_wg type ctx dest source nelems pe
  | r_getmem_nbi_wave => roc_shmemx_ctx_getmem_nbi_wave type ctx dest source nelems pe
  | r_getmem_nbi_wg => roc_shmemx_ctx_getmem_nbi_wg type ctx dest source nelems pe
  | r_put_wave => roc_shmemx_ctx_put_wave type T ctx dest source nelems pe
  | r_put_wg => roc_shmemx_ctx_put_wg type T ctx dest source nelems pe
  | r_put_nbi_wave => roc_shmemx_ctx_put_nbi_wave type T ctx dest source nelems pe
  | r_put_nbi_wg => roc_shmemx_ctx_put_nbi_wg type T ctx dest source nelems pe
  | r_get_wave => roc_shmemx_ctx_get_wave type T ctx dest source nelems pe
  | r_get_wg => roc_shmemx_ctx_get_wg type T ctx dest source nelems pe
  | r_get_nbi_wave => roc_shmemx_ctx_get_nbi_wave type T ctx dest source nelems pe
  | r_get_nbi_wg => roc_shmemx_ctx_get_nbi_wg type T ctx dest source nelems pe
  end.

(** The context that a call runs on and its trace. *)
Definition traced {A} (r : result (Z * dev A)) : result (Z * list event) := '(c, m) ← r; Ok (c, m.1).

Definition run_call (c : device_call) (ctx : roc_shmem_ctx_t) : result (Z * list event) :=
  match c with
  | C_rma r T dest source nelems pe => traced (run_rma r T ctx dest source nelems pe)
  | C_p T dest value pe => traced (roc_shmem_ctx_p type s T ctx dest value pe)
  | C_g T source pe => traced (roc_shmem_ctx_g type s T ctx source pe answer)
  | C_threadfence_system => traced (roc_shmem_ctx_threadfence_system type ctx)
  | C_fence => traced (roc_shmem_ctx_fence type ctx)
  | C_fence_pe pe => traced (roc_shmem_ctx_fence_pe type ctx pe)
  | C_quiet => traced (roc_shmem_ctx_quiet type ctx)
  | C_barrier_all => traced (roc_shmem_ctx_wg_barrier_all type ctx)
  | C_sync_all => traced (roc_shmem_ctx_wg_sync_all type ctx)
  | C_team_sync team => traced (roc_shmem_ctx_wg_team_sync type ctx team)
  | C_fetch_add T dest val pe => traced (roc_shmem_ctx_atomic_fetch_add type T ctx dest val pe answer)
  | C_compare_swap T dest cond val pe =>
      traced (roc_shmem_ctx_atomic_compare_swap type T ctx dest cond val pe answer)
  | C_fetch_inc T dest pe => traced (roc_shmem_ctx_atomic_fetch_inc type T ctx dest pe answer)
  | C_fetch T dest pe => traced (roc_shmem_ctx_atomic_fetch type T ctx dest pe answer)
  | C_add dest val pe => traced (roc_shmem_ctx_atomic_add type ctx dest val pe)
  | C_inc dest pe => traced (roc_shmem_ctx_atomic_inc type ctx dest pe)
  | C_to_all T Op dest source nreduce PE_start logPE_stride PE_size wrk sync =>
      traced (roc_shmem_wg_to_all type thread_zero T Op ctx dest source nreduce PE_start logPE_stride PE_size
                wrk sync)
  | C_team_to_all T Op team dest source nreduce =>
      traced (roc_shmem_wg_team_to_all type thread_zero T Op ctx team dest source nreduce)
  | C_broadcast T dest source nelem pe_root pe_start log_pe_stride pe_size p_sync =>
      traced (roc_shmem_wg_broadcast type thread_zero T ctx dest source nelem pe_root pe_start log_pe_stride
                pe_size p_sync)
  | C_team_broadcast T team dest source nelem pe_root =>
      traced (roc_shmem_wg_team_broadcast type thread_zero T ctx team dest source nelem pe_root)
  | C_alltoall T team dest source nelem => traced (roc_shmem_wg_alltoall type thread_zero T ctx team dest source nelem)
  | C_fcollect T team dest source nelem => traced (roc_shmem_wg_fcollect type thread_zero T ctx team dest source nelem)
  end.
End calls.

(** ** What is expected of a call *)

(** The number of elements, for calls that have one. *)
Definition call_size (c : device_call) : option Z :=
  match c with
  | C_rma _ _ _ _ n _ | C_to_all _ _ _ _ n _ _ _ _ _ | C_team_to_all _ _ _ _ _ n
  | C_broadcast _ _ _ n _ _ _ _ _ | C_team_broadcast _ _ _ _ n _ | C_alltoall _ _ _ _ n
  | C_fcollect _ _ _ _ n => Some n
  | _ => None
  end.

(** The process that the caller names. *)
Definition call_pe (c : device_call) : option Z :=
  match c with
  | C_rma _ _ _ _ _ pe | C_p _ _ _ pe | C_g _ _ pe | C_fence_pe pe | C_fetch_add _ _ _ pe
  | C_compare_swap _ _ _ _ pe | C_fetch_inc _ _ pe | C_fetch _ _ pe | C_add _ _ pe | C_inc _ pe => Some pe
  | _ => None
  end.

(** The method that a call is for, with the process it is to be given. *)
Definition rma_method (r : rma) (T : ctype) (dest source nelems pe : Z) : func :=
  match r with
  | r_putmem => F_putmem dest source nelems pe
  | r_getmem => F_getmem dest source nelems pe
  | r_putmem_nbi => F_putmem_nbi dest source nelems pe
  | r_getmem_nbi => F_getmem_nbi dest source nelems pe
  | r_put => F_put T dest source nelems pe
  | r_get => F_get T dest source nelems pe
  | r_put_nbi => F_put_nbi T dest source nelems pe
  | r_get_nbi => F_get_nbi T dest source nelems pe
  | r_putmem_wave => F_putmem_wave dest source nelems pe
  | r_putmem_wg => F_putmem_wg dest source nelems pe
  | r_putmem_nbi_wave => F_putmem_nbi_wave dest source nelems pe
  | r_putmem_nbi_wg => F_putmem_nbi_wg dest source nelems pe
  | r_getmem_wave => F_getmem_wave dest source nelems pe
  | r_getmem_wg => F_getmem_wg dest source nelems pe
  | r_getmem_nbi_wave => F_getmem_nbi_wave dest source nelems pe
  | r_getmem_nbi_wg => F_getmem_nbi_wg dest source nelems pe
  | r_put_wave => F_put_wave T dest source nelems pe
  | r_put_wg => F_put_wg T dest source nelems pe
  | r_put_nbi_wave => F_put_nbi_wave T dest source nelems pe
  | r_put_nbi_wg => F_put_nbi_wg T dest source nelems pe
  | r_get_wave => F_get_wave T dest source nelems pe
  | r_get_wg => F_get_wg T dest source nelems pe
  | r_get_nbi_wave => F_get_nbi_wave T dest source nelems pe
  | r_get_nbi_wg => F_get_nbi_wg T dest source nelems pe
  end.
Definition method_of (c : device_call) (pe : Z) : func :=
  match c with
  | C_rma r T dest source nelems _ => rma_method r T dest source nelems pe
  | C_p T dest value _ => F_p T dest value pe
  | C_g T source _ => F_g T source pe
  | C_threadfence_system => F_threadfence_system
  | C_fence => F_fence
  | C_fence_pe _ => F_fence_pe pe
  | C_quiet => F_quiet
  | C_barrier_all => F_barrier_all
  | C_sync_all => F_sync_all
  | C_team_sync team => F_sync team
  | C_fetch_add _ dest val _ => F_amo_fetch_add dest (s64 val) 0 pe
  | C_compare_swap _ dest cond val _ => F_amo_fetch_cas dest (s64 val) (s64 cond) pe
  | C_fetch_inc _ dest _ => F_amo_fetch_add dest 1 0 pe
  | C_fetch _ dest _ => F_amo_fetch_add dest 0 0 pe
  | C_add dest val _ => F_amo_add dest (s64 val) 0 pe
  | C_inc dest _ => F_amo_add dest 1 0 pe
  | C_to_all T Op dest source n start stride size wrk sync => F_to_all T Op dest source n start stride size wrk sync
  | C_team_to_all T Op team dest source n => F_team_to_all T Op team dest source n
  | C_broadcast T dest source n root start stride size sync => F_broadcast T dest source n root start stride size sync
  | C_team_broadcast T team dest source n root => F_team_broadcast T team dest source n root
  | C_alltoall T team dest source n => F_alltoall T team dest source n
  | C_fcollect T team dest source n => F_fcollect T team dest source n
  end.

(** The calls by which the source takes the process as a member of the context's team. *)
Definition translates (c : device_call) : bool :=
  match c with
  | C_rma (r_putmem | r_getmem | r_putmem_nbi | r_getmem_nbi | r_put | r_get | r_put_nbi
    | r_get_nbi) _ _ _ _ _ | C_p _ _ _ _ | C_g _ _ _ => true
  | _ => false
  end.

(** The transfers of a work-group are not locked. *)
Definition locked (c : device_call) : bool :=
  match c with
  | C_rma (r_putmem_wg | r_putmem_nbi_wg | r_getmem_wg | r_getmem_nbi_wg | r_put_wg | r_put_nbi_wg
    | r_get_wg | r_get_nbi_wg) _ _ _ _ _ => false
  | _ => true
  end.

(** Who counts a call: every thread, the first of the block, nobody. *)
Definition counted (thread_zero : bool) (c : device_call) : bool :=
  match c with
  | C_to_all _ _ _ _ _ _ _ _ _ _ | C_team_to_all _ _ _ _ _ _ | C_broadcast _ _ _ _ _ _ _ _ _
  | C_team_broadcast _ _ _ _ _ _ | C_alltoall _ _ _ _ _ | C_fcollect _ _ _ _ _ => thread_zero
  | C_threadfence_system => false
  | _ => true
  end.

(** ** Dispatch *)

(** A trace that counts as told and runs [f] once. *)
Definition dispatched (type : BackendType) (lock count : bool) (f : func) (tr : list event) : Prop :=
  ∃ st, tr = (if count then [Inc st] else []) ++ (if lock then [Lock; Call type f; Unlock] else [Call type f]).

Definition no_size (c : device_call) : bool :=
  match call_size c with Some n => n =? 0 | None => false end.

(** The calls after the process has been translated. *)
Lemma call_dispatched (ty : BackendType) thread_zero s answer c ctx pe' :
  (∀ pe, call_pe c = Some pe → translate_pe s ctx pe = Ok pe') →
  ∃ tr, run_call ty thread_zero s answer c ctx = Ok (ctx_opaque ctx, tr) ∧
    if no_size c then tr = []
    else dispatched ty (locked c) (counted thread_zero c)
           (method_of c (if translates c then pe' else default 0 (call_pe c))) tr.
Proof.
  intros Ht. destruct thread_zero; destruct c; try (destruct r);
    lazy -[translate_pe Z.eqb uwrap swrap dispatched call_pe ctx_opaque] in *;
    try rewrite (Ht _ eq_refl);
    try match goal with |- context [?n =? 0] => destruct (n =? 0) end; eexists; (split; [reflexivity|]);
    first [reflexivity|exists NUM_PUT; reflexivity|eexists; reflexivity].
Qed.

(** The target of a context of the world needs no description of a team. *)
Lemma translate_world s ctx pe : team_opaque ctx = None → translate_pe s ctx pe = Ok pe.
Proof. unfold translate_pe. by intros ->. Qed.

(** ** Opening and closing contexts *)

Section contexts.
Context (tinfo : Z → TeamInfo).

(** The contexts that are open, each with the team it was made for. *)
Record ctx_state := mkState { st : wg_contexts; open : list (roc_shmem_ctx_t * option Z) }.

Inductive ctx_step : ctx_state → ctx_state → Prop :=
  | step_create ty tz option s l ctx s' tr :
      roc_shmem_wg_ctx_create ty tz option s = (ctx, s', tr) →
      ctx_step (mkState s l) (mkState s' ((ctx, None) :: l))
  | step_team_create team options s l ctx s' :
      refs (tinfo_pool s) team < 2 ^ 64 - 1 →
      roc_shmem_wg_team_create_ctx tinfo team options s = Ok (0, Some ctx, s') →
      ctx_step (mkState s l) (mkState s' ((ctx, Some team) :: l))
  | step_destroy ctx team s s' l1 l2 :
      roc_shmem_wg_ctx_destroy ctx s = Ok s' →
      ctx_step (mkState s (l1 ++ (ctx, team) :: l2)) (mkState s' (l1 ++ l2)).

(** The open contexts that point to an entry of the pool. *)
Definition uses (i : nat) (l : list (roc_shmem_ctx_t * option Z)) : Z :=
  Z.of_nat (length (filter (λ x, team_opaque x.1 = Some i) l)).

(** An open context points to the entry of its team. *)
Definition described_in (pool : wg_tinfo_pool) (y : roc_shmem_ctx_t * option Z) : Prop :=
  match y.2 with
  | None => team_opaque y.1 = None
  | Some team => ∃ i e, team_opaque y.1 = Some i ∧ pool !! i = Some e ∧ team_ e = team
  end.

Definition ctx_inv (x : ctx_state) : Prop :=
  policy_ok tinfo (tinfo_pool (st x)) ∧
  (∀ i e, tinfo_pool (st x) !! i = Some e → ref_count_ e = uses i (open x)) ∧
  Forall (described_in (tinfo_pool (st x))) (open x).

Lemma uses_cons i y l : uses i (y :: l) = (if decide (team_opaque y.1 = Some i) then 1 else 0) + uses i l.
Proof. unfold uses. rewrite filter_cons. case_decide; cbn [length]; lia. Qed.

Lemma uses_app i l1 l2 : uses i (l1 ++ l2) = uses i l1 + uses i l2.
Proof. unfold uses. rewrite filter_app, length_app. lia. Qed.

Lemma uses_pos i l y : y ∈ l → team_opaque y.1 = Some i → 1 ≤ uses i l.
Proof.
  intros Hy Hi. unfold uses. assert (y ∈ filter (λ x, team_opaque x.1 = Some i) l) as Hf
    by (by apply list_elem_of_filter). destruct (filter _ l); [by apply elem_of_nil in Hf|cbn; lia].
Qed.

(** An entry keeps its team while its number of uses is positive. *)
Lemma open_kept (pool : wg_tinfo_pool) (i : nat) e e' l :
  pool !! i = Some e → team_ e' = team_ e ∨ Forall (λ y, team_opaque y.1 ≠ Some i) l →
  Forall (described_in pool) l → Forall (described_in (<[i := e']> pool)) l.
Proof.
  intros Hi He Hl. pose proof (lookup_lt_Some _ _ _ Hi) as Hlt. apply Forall_forall. intros [c [team|]] Hy;
    pose proof (proj1 (Forall_forall _ _) Hl _ Hy) as H; unfold described_in in *; cbn in *; [|done].
  destruct H as (j & f & Hj & Hf & Ht). destruct (decide (i = j)) as [<-|Hne].
  - rewrite Hi in Hf. injection Hf as <-. destruct He as [He|He].
    + exists i, e'. rewrite list_lookup_insert_eq by done. by rewrite He.
    + destruct (proj1 (Forall_forall _ _) He _ Hy Hj).
  - exists j, f. by rewrite list_lookup_insert_ne.
Qed.

Lemma ctx_step_inv x y : ctx_step x y → ctx_inv x → ctx_inv y.
Proof.
  intros Hs (Hok & Hc & Ho). destruct Hs as [ty tz option s l ctx s' tr Hcr|team options s l ctx s' Hb Hcr|ctx team s s' l1 l2 Hd];
    cbn [st open] in *.
  - injection Hcr as <- <- _. unfold ctx_inv, setFence. cbn [st open tinfo_pool]. split; [done|]. split.
    + intros i e Hi. rewrite uses_cons. cbn. by apply Hc.
    + by constructor.
  - unfold roc_shmem_wg_team_create_ctx in Hcr. destruct (team =? _); [done|].
    cbn [wg_ctx_create setFence tinfo_pool] in Hcr.
    destruct (get_team_info tinfo team (tinfo_pool s)) as [[i pool]|] eqn:Hg; [|done].
    injection Hcr as <- <-. unfold ctx_inv. cbn [st open set_tinfo_pool tinfo_pool].
    destruct (get_team_info_inv _ _ _ _ _ Hok Hb Hg) as (e & Hi & -> & Hn & Hl & Hu).
    pose proof (lookup_lt_Some _ _ _ Hi) as Hlt. split; [|split].
    + eapply policy_ok_insert; [done|done|cbn; lia|]. intros _. cbn. split; [done|]. apply Hu.
    + intros j f. rewrite list_lookup_insert_Some. rewrite uses_cons. cbn [fst team_opaque].
      intros [(<- & <- & _)|[Hne Hj]].
      * rewrite decide_True by done. cbn [ref_count_]. rewrite (Hc _ _ Hi). lia.
      * rewrite decide_False by congruence. by apply Hc.
    + constructor.
      * eexists i, _. cbn [fst snd team_opaque]. rewrite list_lookup_insert_eq by done. done.
      * eapply open_kept; [done| |done]. cbn. destruct (decide (live e)) as [Hle|Hd]; [left; by rewrite Hl|].
        right. apply Forall_forall. intros y Hy Hyi. pose proof (uses_pos _ _ _ Hy Hyi) as Hp.
        rewrite <- (Hc _ _ Hi) in Hp. unfold live in Hd. lia.
  - unfold roc_shmem_wg_ctx_destroy in Hd. rewrite Forall_app, Forall_cons in Ho. destruct Ho as (Ho1 & Hcx & Ho2).
    unfold described_in in Hcx. cbn in Hcx. destruct (team_opaque ctx) as [i|] eqn:Ei.
    + destruct team as [team|]; [|done]. destruct Hcx as (i' & e & [= <-] & Hi & Ht).
      assert (1 ≤ ref_count_ e) as Hp.
      { rewrite (Hc _ _ Hi). eapply (uses_pos _ _ (ctx, Some team)); [set_solver|done]. }
      destruct (remove_team_info_ok tinfo i (tinfo_pool s) e Hok Hi ltac:(unfold live; lia)) as (pool' & Hr & Hok' & _).
      rewrite Hr in Hd. injection Hd as <-. unfold ctx_inv. cbn [st open set_tinfo_pool tinfo_pool].
      pose proof (Forall_lookup_1 _ _ _ _ (py_counts _ _ Hok) Hi) as Hce. cbn in Hce.
      unfold remove_team_info in Hr. rewrite Hi in Hr. cbn [must mbind result_bind] in Hr.
      rewrite (proj2 (Z.ltb_lt _ _)) in Hr by lia. cbn [assert_ mbind result_bind] in Hr.
      unfold dec_ref in Hr. cbn [ref_count_] in Hr. rewrite uwrap_small in Hr by lia. injection Hr as <-.
      pose proof (lookup_lt_Some _ _ _ Hi) as Hlt.
      assert (ref_count_ e = 1 + (uses i l1 + uses i l2)) as Hu.
      { rewrite (Hc _ _ Hi), uses_app, uses_cons. cbn [fst]. rewrite Ei, decide_True by done. lia. }
      split; [done|]. split.
      * intros j f. rewrite list_lookup_insert_Some, uses_app. intros [(<- & <- & _)|[Hne Hj]].
        { case_if; cbn; lia. }
        rewrite (Hc _ _ Hj), uses_app, uses_cons. cbn [fst]. rewrite Ei, decide_False by congruence. lia.
      * eapply open_kept; [done| |by rewrite Forall_app]. case_if; [|by left].
        right. apply Forall_forall. intros y Hy Hyi. pose proof (uses_pos _ _ _ Hy Hyi) as H1.
        rewrite uses_app in H1. lia.
    + injection Hd as <-. destruct team as [team|]; [by destruct Hcx as (? & ? & ? & _)|].
      unfold ctx_inv. cbn [st open]. split; [done|]. split; [|by rewrite Forall_app].
      intros j f Hj. rewrite (Hc _ _ Hj), !uses_app, uses_cons. cbn [fst]. rewrite Ei, decide_False by done. lia.
Qed.

(** The state when the work-group starts. *)
Definition ctx_start (private default : Z) (max_num_teams : Z) : ctx_state :=
  mkState (mkWg private default ∅ (policy_init max_num_teams)) [].

Lemma ctx_start_inv private default n : ctx_inv (ctx_start private default n).
Proof.
  unfold ctx_inv, ctx_start, policy_init. cbn. split; [|split; [|constructor]].
  - split.
    + apply Forall_replicate. cbn. lia.
    + intros i e [-> _]%lookup_replicate Hl. by destruct Hl.
    + intros i j e f [-> _]%lookup_replicate _ Hl. by destruct Hl.
  - intros i e [-> _]%lookup_replicate. done.
Qed.

Lemma reachable_inv private default n x : rtc ctx_step (ctx_start private default n) x → ctx_inv x.
Proof. revert x. apply rtc_invariant; [apply ctx_start_inv|eauto using ctx_step_inv]. Qed.

Lemma open_translate x ctx team t pe :
  ctx_inv x → (ctx, Some team) ∈ open x → tinfo_wrt_world t = tinfo team →
  translate_pe (st x) ctx pe = Ok (get_pe_in_world t pe).
Proof.
  intros (Hok & Hc & Ho) Hin Ht. pose proof (proj1 (Forall_forall _ _) Ho _ Hin) as (i & e & Hi & He & Hte).
  cbn in Hi. unfold translate_pe. rewrite Hi, He. cbn [must mbind result_bind].
  rewrite (py_info _ _ Hok _ _ He), Hte; [unfold described, get_pe_in_world; by rewrite Ht|].
  unfold live. rewrite (Hc _ _ He). pose proof (uses_pos _ _ _ Hin Hi). lia.
Qed.
End contexts.

(** ** Calls on open contexts *)

(** The process of the world that a call names on an open context, if it names one. *)
Definition meant (team_of : Z → Team) (team : option Z) (c : device_call) : Z :=
  let pe := default 0 (call_pe c) in
  match team with
  | Some team => if translates c then get_pe_in_world (team_of team) pe else pe
  | None => pe
  end.

Lemma open_call (team_of : Z → Team) x ctx team ty tz answer c :
  ctx_inv (λ t, tinfo_wrt_world (team_of t)) x → (ctx, team) ∈ open x →
  ∃ tr, run_call ty tz (st x) answer c ctx = Ok (ctx_opaque ctx, tr) ∧
    if no_size c then tr = []
    else dispatched ty (locked c) (counted tz c) (method_of c (meant team_of team c)) tr.
Proof.
  intros Hr Hin.
  assert (∃ pe', (∀ pe, call_pe c = Some pe → translate_pe (st x) ctx pe = Ok pe') ∧
    ∀ pe, call_pe c = Some pe → pe' = match team with Some t => get_pe_in_world (team_of t) pe | None => pe end)
    as (pe' & Ht & Hpe).
  { destruct (call_pe c) as [pe|]; [|by exists 0]. destruct team as [team|].
    - exists (get_pe_in_world (team_of team) pe). split; [|by intros ? [= <-]]. intros ? [= <-].
      by eapply open_translate.
    - exists pe. split; [|by intros ? [= <-]]. intros ? [= <-]. apply translate_world.
      destruct Hr as (_ & _ & Ho). exact (proj1 (Forall_forall _ _) Ho _ Hin). }
  destruct (call_dispatched ty tz (st x) answer c ctx pe' Ht) as (tr & Hrun & Hd). exists tr. split; [done|].
  destruct (no_size c); [done|]. unfold meant. destruct (call_pe c) as [pe|] eqn:Ep.
  - rewrite (Hpe pe eq_refl) in Hd. by destruct team, (translates c).
  - replace (method_of c _) with (method_of c (if translates c then pe' else default 0 None)) by by destruct c. done.
Qed.

(** C14: In every state that a work-group reaches by opening and closing contexts, each
    call on an open context returns and runs on that context: a call without
    elements does nothing; every other is counted at most once and runs the method of
    the backend that it is for, once, with the arguments of the call, under the lock
    unless it is a transfer of a work-group; and transfers of a thread on a context of
    a team are given the world's number of the member that is named. *)
Theorem device_call_correct (team_of : Z → Team) private shared max_num_teams x ctx team ty tz answer c :
  rtc (ctx_step (λ t, tinfo_wrt_world (team_of t))) (ctx_start private shared max_num_teams) x →
  (ctx, team) ∈ open x →
  ∃ tr, run_call ty tz (st x) answer c ctx = Ok (ctx_opaque ctx, tr) ∧
    if no_size c then tr = []
    else dispatched ty (locked c) (counted tz c) (method_of c (meant team_of team c)) tr.
Proof. intros Hr. by apply open_call, (reachable_inv _ private shared max_num_teams). Qed.

(** An example: a context for the team of every second process. *)
Definition one_team (team : Z) : Team := even_team.
Definition team_ctx : roc_shmem_ctx_t := mkCtx 2 (Some O).
Definition one_open : ctx_state :=
  mkState (mkWg 1 2 {[2 := Fence_new 0]}
             [mkWGTeamInfo 1 10 (described (λ t, tinfo_wrt_world (one_team t)) 10); WGTeamInfo_default])
    [(team_ctx, Some 10)].

Lemma one_open_reached : rtc (ctx_step (λ t, tinfo_wrt_world (one_team t))) (ctx_start 1 2 2) one_open.
Proof. apply rtc_once, (step_team_create _ 10 0); reflexivity. Qed.

Definition one_put : device_call := C_rma r_putmem T_int 4096 8192 8 1.

Lemma device_call_correct_witness :
  ∃ tr, run_call GPU_IB_BACKEND true (st one_open) (λ _, Int 0) one_put team_ctx = Ok (ctx_opaque team_ctx, tr) ∧
    if no_size one_put then tr = []
    else dispatched GPU_IB_BACKEND (locked one_put) (counted true one_put) (F_putmem 4096 8192 8 2) tr.
Proof.
  apply (device_call_correct one_team 1 2 2 one_open team_ctx (Some 10) GPU_IB_BACKEND true (λ _, Int 0) one_put);
    [exact one_open_reached|]. apply list_elem_of_singleton. reflexivity.
Defined.

(** Atomics, the fence of one process and the transfers of waves and work-groups take
    the number of the process as it is, also on a context of a team: with the member 1
    of the team, process 2, a put reaches process 2 and the others process 1. *)
Theorem team_calls_misdirected answer :
  let run c := run_call GPU_IB_BACKEND true (st one_open) answer c team_ctx in
  run one_put = Ok (2, [Inc NUM_PUT; Lock; Call GPU_IB_BACKEND (F_putmem 4096 8192 8 2); Unlock]) ∧
  run (C_add 4096 7 1) = Ok (2, [Inc NUM_ATOMIC_ADD; Lock; Call GPU_IB_BACKEND (F_amo_add 4096 7 0 1); Unlock]) ∧
  run (C_fence_pe 1) = Ok (2, [Inc NUM_FENCE; Lock; Call GPU_IB_BACKEND (F_fence_pe 1); Unlock]) ∧
  run (C_rma r_putmem_wg T_int 4096 8192 8 1) =
    Ok (2, [Inc NUM_PUT_WG; Call GPU_IB_BACKEND (F_putmem_wg 4096 8192 8 1)]).
Proof. repeat split; reflexivity. Qed.

(** ** Results of calls *)

(** The two conversions of a fetched value. *)
Lemma cast_result {A} T v (c : A) (l : list event) :
  sizeof_T T = 8 → T_kind T ≠ Floating → of_type T_int64 (Int v) →
  (∃ tr, Ok (c, (l, of_int T (int64_of (of_int T_int64 (to_int (Int v)))))) = Ok (c, (tr, of_int T v))) ↔
  INT_MIN ≤ v ≤ INT_MAX.
Proof.
  destruct T as [k n]. cbn. intros -> Hk Hv.
  assert ((∃ tr, Ok (c, (l, of_int (mkType k 8) (int64_of (of_int T_int64 (to_int (Int v)))))) =
                 Ok (c, (tr, of_int (mkType k 8) v))) ↔
          of_int (mkType k 8) (s64 (s64 (s32 v))) = of_int (mkType k 8) v) as ->.
  { split; [by intros [tr [= _ H]]|]. intros H. exists l. cbn -[of_int]. do 3 f_equal. exact H. }
  unfold of_type in Hv. destruct k; [..|done]; unfold of_int, INT_MIN, INT_MAX, swrap, uwrap in *; cbn in *;
    (split; [intros [= H]|intros H; f_equal]; div_lia).
Qed.

(** A fetching atomic on [int64_t] or [uint64_t] returns the value that the backend
    has fetched, in the type of the call, exactly if the value fits into 32 bits; [g]
    returns the value that was read exactly if its type has at most 32 bits or the
    value, read as a signed number, fits into 32 bits. *)
Theorem device_results ty s T ctx dest val cond source pe (answer : func → cval) v :
  sized T → (∀ f, answer f = Int v) →
  (sizeof_T T = 8 → T_kind T ≠ Floating → of_type T_int64 (Int v) →
   ((∃ tr, roc_shmem_ctx_atomic_fetch_add ty T ctx dest val pe answer = Ok (ctx_opaque ctx, (tr, of_int T v))) ↔
    INT_MIN ≤ v ≤ INT_MAX) ∧
   ((∃ tr, roc_shmem_ctx_atomic_compare_swap ty T ctx dest cond val pe answer =
           Ok (ctx_opaque ctx, (tr, of_int T v))) ↔ INT_MIN ≤ v ≤ INT_MAX)) ∧
  (∀ pe', translate_pe s ctx pe = Ok pe' → of_type T (Int v) →
   (∃ tr, roc_shmem_ctx_g ty s T ctx source pe answer = Ok (ctx_opaque ctx, (tr, Int v))) ↔
   sizeof_T T ≤ 4 ∨ INT_MIN ≤ s64 v ≤ INT_MAX).
Proof.
  intros HT Ha. split.
  - intros H8 Hk Hv. unfold roc_shmem_ctx_atomic_fetch_add, roc_shmem_ctx_atomic_compare_swap,
      Context_amo_fetch_add, Context_amo_fetch_cas, on, cast. cbn beta zeta.
    rewrite (Ha (F_amo_fetch_add dest (s64 val) 0 pe)), (Ha (F_amo_fetch_cas dest (s64 val) (s64 cond) pe)).
    cbn [mbind dev_bind mret dev_ret emit DISPATCH_RET]. split; apply cast_result; done.
  - intros pe' Hpe Hv. unfold roc_shmem_ctx_g, Context_g, on. rewrite Hpe. cbn [mbind result_bind]. rewrite (Ha (F_g T source pe')).
    rewrite <- (returned_int T v HT Hv). cbn [mbind dev_bind mret dev_ret emit DISPATCH_RET].
    split; [intros [tr [= _ H]]; exact H|]. intros H. eexists. rewrite H. reflexivity.
Qed.

Lemma device_results_witness :
  ((∃ tr, roc_shmem_ctx_atomic_fetch_add GPU_IB_BACKEND T_uint64 team_ctx 4096 1 1 (λ _, Int 41) =
          Ok (2, (tr, Int 41))) ↔ INT_MIN ≤ 41 ≤ INT_MAX) ∧
  (∃ tr, roc_shmem_ctx_g GPU_IB_BACKEND (st one_open) T_uint64 team_ctx 8192 1 (λ _, Int 41) = Ok (2, (tr, Int 41))).
Proof.
  destruct (device_results GPU_IB_BACKEND (st one_open) T_uint64 team_ctx 4096 1 0 8192 1 (λ _, Int 41) 41)
    as [H1 H2].
  - apply elem_of_cons. right. apply elem_of_cons. right. apply elem_of_cons. right. apply elem_of_cons. by left.
  - reflexivity.
  - split; [apply H1; done|]. apply (H2 2); [reflexivity|reflexivity|]. right. vm_compute. split; discriminate.
Defined.

(** A fetch of [2 ^ 32] returns zero, and [g] of the fraction 7/2 returns 3. *)
Theorem results_truncated :
  roc_shmem_ctx_atomic_fetch GPU_IB_BACKEND T_uint64 team_ctx 4096 1 (λ _, Int (2 ^ 32)) =
    Ok (2, ([Inc NUM_ATOMIC_FADD; Lock; Call GPU_IB_BACKEND (F_amo_fetch_add 4096 0 0 1); Unlock], Int 0)) ∧
  roc_shmem_ctx_g GPU_IB_BACKEND (st one_open) T_double team_ctx 8192 1 (λ _, Flt 7 (-1)) =
    Ok (2, ([Inc NUM_G; Lock; Call GPU_IB_BACKEND (F_g T_double 8192 2); Unlock], Flt 3 0)).
Proof. split; reflexivity. Qed.

(** ** Options of contexts *)

(** The context is the private one exactly if an option asks for it, its fence is as
    the options say, and the fences of other contexts stay as they are. *)
Lemma ctx_create_options option s :
  let '(ctx, s') := wg_ctx_create option s in
  ctx = (if Z.testbit option 1 || Z.testbit option 3 then private_ctx s else default_ctx s) ∧
  fences s' !! ctx = Some (mkFence (negb (Z.testbit option 2))) ∧
  tinfo_pool s' = tinfo_pool s ∧ ∀ c, c ≠ ctx → fences s' !! c = fences s !! c.
Proof.
  unfold wg_ctx_create. cbn zeta. split; [|split; [|split]].
  - assert (Z.land option (Z.lor ROC_SHMEM_CTX_WG_PRIVATE ROC_SHMEM_CTX_PRIVATE) = 0 ↔
            Z.testbit option 1 = false ∧ Z.testbit option 3 = false) as H.
    { split.
      - intros H. pose proof (f_equal (λ z, Z.testbit z 1) H) as H1. pose proof (f_equal (λ z, Z.testbit z 3) H) as H3.
        cbn beta in H1, H3. rewrite Z.land_spec in H1, H3. cbn in H1, H3. by rewrite !andb_true_r in *.
      - intros [H1 H3]. apply Z.bits_inj'. intros n Hn. rewrite Z.land_spec, Z.bits_0.
        destruct (decide (n = 1)) as [->|]; [by rewrite H1|]. destruct (decide (n = 3)) as [->|]; [by rewrite H3|].
        replace (Z.testbit (Z.lor _ _) n) with false; [by rewrite andb_false_r|].
        change (Z.lor _ _) with (Z.lor (2 ^ 3) (2 ^ 1)). rewrite Z.lor_spec, !Z.pow2_bits_false by lia. done. }
    destruct (Z.eqb_spec (Z.land option (Z.lor ROC_SHMEM_CTX_WG_PRIVATE ROC_SHMEM_CTX_PRIVATE)) 0) as [E|E]; cbn [negb].
    + apply H in E as [-> ->]. done.
    + destruct (Z.testbit option 1) eqn:E1; [done|]. destruct (Z.testbit option 3) eqn:E3; [done|]. by destruct E; apply H.
  - cbn [setFence fences]. rewrite lookup_insert_eq. unfold Fence_new. do 2 f_equal.
    change ROC_SHMEM_CTX_NOSTORE with (2 ^ 2). destruct (Z.testbit option 2) eqn:E.
    + case_match eqn:H; [done|]. rewrite negb_false_iff, Z.eqb_eq in H.
      pose proof (f_equal (λ z, Z.testbit z 2) H) as H2. cbn beta in H2. by rewrite Z.land_spec, E in H2.
    + replace (Z.land option (2 ^ 2)) with 0; [done|]. symmetry. apply Z.bits_inj'. intros n Hn.
      rewrite Z.land_spec, Z.bits_0. destruct (decide (n = 2)) as [->|]; [by rewrite E|].
      rewrite Z.pow2_bits_false by lia. apply andb_false_r.
  - done.
  - intros c Hc. cbn [setFence fences]. by rewrite lookup_insert_ne.
Qed.

(** A work-group that asks for a shared context without fences takes the fences away
    from the context that all work-groups share, whoever else uses it. *)
Theorem shared_nostore :
  let s := mkWg 1 2 {[2 := Fence_new 0]} [] in
  let '(ctx, s', _) := roc_shmem_wg_ctx_create GPU_IB_BACKEND true ROC_SHMEM_CTX_NOSTORE s in
  ctx = ROC_SHMEM_CTX_DEFAULT s ∧ (flush <$> fences s !! 2) = Some true ∧ (flush <$> fences s' !! 2) = Some false.
Proof. repeat split. Qed.
