(* ===== verification/HostApi.v ===== *)
(** * The public interface on the host

    The host functions of [roc_shmem.cpp] and the contexts that they run on,
    [gpu_ib/gpu_ib_host.cpp], [gpu_ib/gpu_ib_host_templates.hpp] and
    [reverse_offload/context_ro_host.cpp]: initialisation, memory, contexts, transfers,
    atomics, synchronisation and collectives, down to the calls of [Host.v].  Shown:
    what a barrier of the host completes with either backend, that allocation and
    release are separated by barriers, the life of the library and of its contexts. *)
From S2P Require Import Prelude AddressRecord Bins Pow2Bins Heap ROQueue Teams WGState MPITransport Host Dispatch Api.

Local Open Scope Z_scope.

(** ** Contexts of the host *)

(** The constructors of [GPUIBHostContext] and [ROHostContext], and their destructors;
    the one of [ROHostContext] does not return the window. *)
Definition HostContext_new (s : HostInterface) : result (HostContextWindowInfo * HostInterface) :=
  acquire_window_context s.
Definition HostContext_delete (type : BackendType) (window : HostContextWindowInfo) (s : HostInterface)
    : result HostInterface :=
  match type with
  | GPU_IB_BACKEND => release_window_context (win_handle window) s
  | RO_BACKEND => Ok s
  end.

Section host_context.
Context (W : world) (type : BackendType).
(** The communicators of teams and the MPI types of element types; the address of the
    local variable that a method uses; what the rounds of a wait fetch. *)
Context (team_comm : Z → Z) (mpi_type : ctype → MPI_Datatype) (local : Z) (values : list Z).

(** The methods of a host context with window [w]: the templates, *)
Definition host_template (w : HostContextWindowInfo) (f : func) (s : HostInterface) : result HostInterface :=
  match f with
  | F_put T dest source nelems pe => Host.put W (sizeof_T T) dest source nelems pe w s
  | F_get T dest source nelems pe => Host.get W (sizeof_T T) dest source nelems pe w s
  | F_put_nbi T dest source nelems pe => Host.put_nbi W (sizeof_T T) dest source nelems pe w s
  | F_get_nbi T dest source nelems pe => Host.get_nbi W (sizeof_T T) dest source nelems pe w s
  | F_p T dest value pe => Host.p W (sizeof_T T) dest local pe w s
  | F_g T source pe => Host.g W (sizeof_T T) local source pe w s
  | F_broadcast T dest source nelems pe_root pe_start log_pe_stride pe_size _ =>
      Host.broadcast W (sizeof_T T) dest source nelems pe_root pe_start log_pe_stride pe_size s
  | F_team_broadcast T team dest source nelems pe_root =>
      Ok (Host.team_broadcast W (sizeof_T T) (team_comm team) dest source nelems pe_root s)
  | F_to_all T Op dest source nreduce pe_start log_pe_stride pe_size _ _ =>
      Host.to_all W dest source nreduce pe_start log_pe_stride pe_size (mpi_type T) Op s
  | F_team_to_all T Op team dest source nreduce =>
      Ok (Host.team_to_all (team_comm team) dest source nreduce (mpi_type T) Op s)
  | F_wait_until T ptr cmp val => Host.wait_until W ptr cmp val w values s
  | F_test T ptr cmp val => '(_, s) ← Host.test W ptr cmp val w (default 0 (head values)) s; Ok s
  | _ => Fail BadAccess
  end.

(** the barrier, in which the backends differ, *)
Definition HostContext_barrier_all (w : HostContextWindowInfo) (s : HostInterface) : HostInterface :=
  match type with
  | GPU_IB_BACKEND => Host.barrier_all W w s
  | RO_BACKEND => Host.barrier_for_sync W (Host.fence w s)
  end.

(** and all others. *)
Definition host_method (w : HostContextWindowInfo) (f : func) (s : HostInterface) : result HostInterface :=
  match f with
  | F_putmem dest source nelems pe => Host.putmem W dest source nelems pe w s
  | F_getmem dest source nelems pe => Host.getmem W dest source nelems pe w s
  | F_putmem_nbi dest source nelems pe => Host.putmem_nbi W dest source nelems pe w s
  | F_getmem_nbi dest source nelems pe => Host.getmem_nbi W dest source nelems pe w s
  | F_amo_add dst value cond pe => Host.amo_add W dst value cond pe w s
  | F_amo_cas dst value cond pe => Host.amo_cas W dst value cond pe w s
  | F_amo_fetch_add dst value cond pe => Host.amo_fetch_add W dst value cond pe w s
  | F_amo_fetch_cas dst value cond pe => Host.amo_fetch_cas W dst value cond pe w s
  | F_fence => Ok (Host.fence w s)
  | F_quiet => Ok (Host.quiet w s)
  | F_sync_all => Ok (Host.sync_all W w s)
  | F_barrier_all => Ok (HostContext_barrier_all w s)
  | _ => host_template w f s
  end.

(** What the trace of a method of [Context] does to the host interface. *)
Definition host_event (w : HostContextWindowInfo) (e : event) (s : HostInterface) : result HostInterface :=
  match e with Call _ f => host_method w f s | _ => Ok s end.
Definition host_run {A} (w : HostContextWindowInfo) (m : dev A) (s : HostInterface) : result HostInterface :=
  foldl (λ r e, s ← r; host_event w e s) (Ok s) m.1.
End host_context.

(** ** Calls *)

Section host_calls.
Context (type : BackendType) (ROC_SHMEM_HOST_CTX_DEFAULT : roc_shmem_ctx_t).

(** The context of a call and what is done on it; for typed functions [T] is the type. *)
Definition host_on {A} (ctx : roc_shmem_ctx_t) (m : dev A) : Z * dev A := (ctx_opaque ctx, m).

Definition host_ctx_putmem (ctx : roc_shmem_ctx_t) (dest source nelems pe : Z) :=
  host_on ctx (Host_putmem type dest source nelems pe).
Definition host_ctx_getmem (ctx : roc_shmem_ctx_t) (dest source nelems pe : Z) :=
  host_on ctx (Host_getmem type dest source nelems pe).
Definition host_ctx_putmem_nbi (ctx : roc_shmem_ctx_t) (dest source nelems pe : Z) :=
  host_on ctx (Host_putmem_nbi type dest source nelems pe).
Definition host_ctx_getmem_nbi (ctx : roc_shmem_ctx_t) (dest source nelems pe : Z) :=
  host_on ctx (Host_getmem_nbi type dest source nelems pe).
Definition host_ctx_put (T : ctype) (ctx : roc_shmem_ctx_t) (dest source nelems pe : Z) :=
  host_on ctx (Host_put type T dest source nelems pe).
Definition host_ctx_get (T : ctype) (ctx : roc_shmem_ctx_t) (dest source nelems pe : Z) :=
  host_on ctx (Host_get type T dest source nelems pe).
Definition host_ctx_put_nbi (T : ctype) (ctx : roc_shmem_ctx_t) (dest source nelems pe : Z) :=
  host_on ctx (Host_put_nbi type T dest source nelems pe).
Definition host_ctx_get_nbi (T : ctype) (ctx : roc_shmem_ctx_t) (dest source nelems pe : Z) :=
  host_on ctx (Host_get_nbi type T dest source nelems pe).
Definition host_ctx_p (T : ctype) (ctx : roc_shmem_ctx_t) (dest : Z) (value : cval) (pe : Z) :=
  host_on ctx (Host_p type T dest value pe).
Definition host_ctx_g (T : ctype) (ctx : roc_shmem_ctx_t) (source pe : Z) (answer : func → cval) :=
  host_on ctx (Host_g type T source pe answer).
Definition host_ctx_atomic_fetch_add (T : ctype) (ctx : roc_shmem_ctx_t) (dest val pe : Z) (answer : func → cval) :=
  host_on ctx (cast T (Host_amo_fetch_add type dest (s64 val) 0 pe answer)).
Definition host_ctx_atomic_compare_swap (T : ctype) (ctx : roc_shmem_ctx_t) (dest cond val pe : Z)
    (answer : func → cval) :=
  host_on ctx (cast T (Host_amo_fetch_cas type dest (s64 val) (s64 cond) pe answer)).
Definition host_ctx_atomic_fetch_inc (T : ctype) (ctx : roc_shmem_ctx_t) (dest pe : Z) (answer : func → cval) :=
  host_on ctx (cast T (Host_amo_fetch_add type dest 1 0 pe answer)).
Definition host_ctx_atomic_fetch (T : ctype) (ctx : roc_shmem_ctx_t) (dest pe : Z) (answer : func → cval) :=
  host_on ctx (cast T (Host_amo_fetch_add type dest 0 0 pe answer)).
Definition host_ctx_atomic_add (ctx : roc_shmem_ctx_t) (dest val pe : Z) :=
  host_on ctx (Host_amo_add type dest (s64 val) 0 pe).
Definition host_ctx_atomic_inc (ctx : roc_shmem_ctx_t) (dest pe : Z) := host_on ctx (Host_amo_add type dest 1 0 pe).
Definition host_ctx_fence (ctx : roc_shmem_ctx_t) := host_on ctx (Host_fence type).
Definition host_ctx_quiet (ctx : roc_shmem_ctx_t) := host_on ctx (Host_quiet type).

(** On the default context: the collectives ignore the context that they are given. *)
Definition host_barrier_all := host_on ROC_SHMEM_HOST_CTX_DEFAULT (Host_barrier_all type).
Definition host_sync_all := host_on ROC_SHMEM_HOST_CTX_DEFAULT (Host_sync_all type).
Definition host_broadcast (T : ctype) (ctx : roc_shmem_ctx_t)
    (dest source nelem pe_root pe_start log_pe_stride pe_size p_sync : Z) :=
  host_on ROC_SHMEM_HOST_CTX_DEFAULT
    (Host_broadcast type T dest source nelem pe_root pe_start log_pe_stride pe_size p_sync).
Definition host_team_broadcast (T : ctype) (ctx : roc_shmem_ctx_t) (team dest source nelem pe_root : Z) :=
  host_on ROC_SHMEM_HOST_CTX_DEFAULT (Host_team_broadcast type T team dest source nelem pe_root).
Definition host_to_all (T : ctype) (Op : ROC_SHMEM_OP) (ctx : roc_shmem_ctx_t)
    (dest source nreduce PE_start logPE_stride PE_size pWrk pSync : Z) :=
  host_on ROC_SHMEM_HOST_CTX_DEFAULT
    (Host_to_all type T Op dest source nreduce PE_start logPE_stride PE_size pWrk pSync).
Definition host_team_to_all (T : ctype) (Op : ROC_SHMEM_OP) (ctx : roc_shmem_ctx_t) (team dest source nreduce : Z) :=
  host_on ROC_SHMEM_HOST_CTX_DEFAULT (Host_team_to_all type T Op team dest source nreduce).
Definition host_wait_until (T : ctype) (ptr cmp val : Z) :=
  host_on ROC_SHMEM_HOST_CTX_DEFAULT (Host_wait_until type T ptr cmp val).
Definition host_test (T : ctype) (ptr cmp val : Z) (answer : func → cval) :=
  host_on ROC_SHMEM_HOST_CTX_DEFAULT (Host_test type T ptr cmp val answer).

Definition host_putmem (dest source nelems pe : Z) := host_ctx_putmem ROC_SHMEM_HOST_CTX_DEFAULT dest source nelems pe.
Definition host_getmem (dest source nelems pe : Z) := host_ctx_getmem ROC_SHMEM_HOST_CTX_DEFAULT dest source nelems pe.
Definition host_putmem_nbi (dest source nelems pe : Z) := host_ctx_putmem_nbi ROC_SHMEM_HOST_CTX_DEFAULT dest source nelems pe.
Definition host_getmem_nbi (dest source nelems pe : Z) := host_ctx_getmem_nbi ROC_SHMEM_HOST_CTX_DEFAULT dest source nelems pe.
Definition host_put (T : ctype) (dest source nelems pe : Z) :=
  host_ctx_put T ROC_SHMEM_HOST_CTX_DEFAULT dest source nelems pe.
Definition host_get (T : ctype) (dest source nelems pe : Z) :=
  host_ctx_get T ROC_SHMEM_HOST_CTX_DEFAULT dest source nelems pe.
Definition host_put_nbi (T : ctype) (dest source nelems pe : Z) :=
  host_ctx_put_nbi T ROC_SHMEM_HOST_CTX_DEFAULT dest source nelems pe.
Definition host_get_nbi (T : ctype) (dest source nelems pe : Z) :=
  host_ctx_get_nbi T ROC_SHMEM_HOST_CTX_DEFAULT dest source nelems pe.
Definition host_p (T : ctype) (dest : Z) (value : cval) (pe : Z) := host_ctx_p T ROC_SHMEM_HOST_CTX_DEFAULT dest value pe.
Definition host_g (T : ctype) (source pe : Z) (answer : func → cval) := host_ctx_g T ROC_SHMEM_HOST_CTX_DEFAULT source pe answer.
Definition host_atomic_fetch_add (T : ctype) (dest val pe : Z) (answer : func → cval) :=
  host_ctx_atomic_fetch_add T ROC_SHMEM_HOST_CTX_DEFAULT dest val pe answer.
Definition host_atomic_compare_swap (T : ctype) (dest cond val pe : Z) (answer : func → cval) :=
  host_ctx_atomic_compare_swap T ROC_SHMEM_HOST_CTX_DEFAULT dest cond val pe answer.
Definition host_atomic_fetch_inc (T : ctype) (dest pe : Z) (answer : func → cval) :=
  host_ctx_atomic_fetch_inc T ROC_SHMEM_HOST_CTX_DEFAULT dest pe answer.
Definition host_atomic_fetch (T : ctype) (dest pe : Z) (answer : func → cval) :=
  host_ctx_atomic_fetch T ROC_SHMEM_HOST_CTX_DEFAULT dest pe answer.
Definition host_atomic_add (dest val pe : Z) := host_ctx_atomic_add ROC_SHMEM_HOST_CTX_DEFAULT dest val pe.
Definition host_atomic_inc (dest pe : Z) := host_ctx_atomic_inc ROC_SHMEM_HOST_CTX_DEFAULT dest pe.
Definition host_fence := host_ctx_fence ROC_SHMEM_HOST_CTX_DEFAULT.
Definition host_quiet := host_ctx_quiet ROC_SHMEM_HOST_CTX_DEFAULT.
End host_calls.

(** ** The library *)

(** What the pointer [backend] leads to.  [lb_ctxs] has the windows of the contexts
    that the program has created, in the order of [list_of_ctxs]. *)
Record lib_backend (W : Type) := mkLib {
  lb_type : BackendType;
  lb_heap : SingleHeap W;
  lb_host : HostInterface;
  lb_default : HostContextWindowInfo;
  lb_ctxs : list HostContextWindowInfo
}.
Arguments mkLib {W}.
Arguments lb_type {W}.
Arguments lb_heap {W}.
Arguments lb_host {W}.
Arguments lb_default {W}.
Arguments lb_ctxs {W}.

Inductive backend_ptr (W : Type) := NoBackend | Backend_at (b : lib_backend W) | Freed.
Arguments NoBackend {W}.
Arguments Backend_at {W} b.
Arguments Freed {W}.

Definition EXIT_FAILURE : Z := 1.
Definition ROC_SHMEM_UNKNOWN_ERROR : Z := 0.

Section library.
Context {A : Type} (W : world).

(** [VERIFY_BACKEND()] followed by a use of [backend]. *)
Definition VERIFY_BACKEND (p : backend_ptr A) : result (lib_backend A) :=
  match p with
  | NoBackend => Fail (ExitProgram EXIT_FAILURE)
  | Backend_at b => Ok b
  | Freed => Fail BadAccess
  end.

(** [count] is what [hipGetDeviceCount] gives, [None] when it fails; [ro] whether
    [ROC_SHMEM_RO] is set; [construct] is the constructor of the backend. *)
Definition library_init (count : option Z) (ro : bool) (construct : BackendType → result (lib_backend A))
    (p : backend_ptr A) : result (Z * backend_ptr A) :=
  _ ← match p with NoBackend => Ok tt | _ => Fail AssertFailed end;
  match count with
  | None => Fail (ExitProgram (- ROC_SHMEM_UNKNOWN_ERROR))
  | Some count =>
      if count =? 0 then Fail (ExitProgram (-1))
      else b ← construct (if ro then RO_BACKEND else GPU_IB_BACKEND); Ok (ROC_SHMEM_SUCCESS, Backend_at b)
  end.

Definition lib_barrier (b : lib_backend A) : result (lib_backend A) :=
  h ← host_run W (lb_type b) (λ t, t) (λ _, MPI_INT) 0 [] (lb_default b) (Host_barrier_all (lb_type b)) (lb_host b);
  Ok (mkLib (lb_type b) (lb_heap b) h (lb_default b) (lb_ctxs b)).

(** [addr] is the address of the local variable. *)
Definition roc_shmem_malloc (addr size : Z) (p : backend_ptr A) : result (Z * backend_ptr A) :=
  b ← VERIFY_BACKEND p;
  '(ptr, heap) ← malloc (lb_heap b) addr size;
  b ← lib_barrier (mkLib (lb_type b) heap (lb_host b) (lb_default b) (lb_ctxs b));
  Ok (ptr, Backend_at b).

Definition roc_shmem_free (ptr : Z) (p : backend_ptr A) : result (backend_ptr A) :=
  b ← VERIFY_BACKEND p;
  b ← lib_barrier b;
  heap ← heap_free (lb_heap b) ptr;
  Ok (Backend_at (mkLib (lb_type b) heap (lb_host b) (lb_default b) (lb_ctxs b))).

Definition lib_ctx_create (p : backend_ptr A) : result (HostContextWindowInfo * backend_ptr A) :=
  match p with
  | Backend_at b =>
      '(w, h) ← HostContext_new (lb_host b);
      Ok (w, Backend_at (mkLib (lb_type b) (lb_heap b) h (lb_default b) (lb_ctxs b ++ [w])))
  | _ => Fail BadAccess
  end.

(** Destruction of the context number [i] of those that exist. *)
Definition lib_ctx_destroy (i : nat) (p : backend_ptr A) : result (backend_ptr A) :=
  match p with
  | Backend_at b =>
      w ← must (lb_ctxs b !! i);
      h ← HostContext_delete (lb_type b) w (lb_host b);
      Ok (Backend_at (mkLib (lb_type b) (lb_heap b) h (lb_default b) (delete i (lb_ctxs b))))
  | _ => Fail BadAccess
  end.

(** The contexts that remain are destroyed from the last one on, then the teams
    ([Teams.v]) and the backend; the pointer keeps its value. *)
Definition roc_shmem_finalize (p : backend_ptr A) : result (Z * backend_ptr A) :=
  b ← VERIFY_BACKEND p;
  _ ← foldr (λ w r, h ← r; HostContext_delete (lb_type b) w h) (Ok (lb_host b)) (lb_ctxs b);
  Ok (ROC_SHMEM_SUCCESS, Freed).
End library.

(** ** Barriers of the host *)

(** The calls of a barrier: all of the window is completed first. *)
Lemma barrier_run W type team_comm mpi_type local values w s :
  ∃ s' l, host_run W type team_comm mpi_type local values w (Host_barrier_all type) s = Ok s' ∧
    hlog s' = hlog s ++ (HWin_flush_all (win_handle w) :: l) ++ [HBarrier (host_comm_world_ W)] ∧
    forallb neutral l = true.
Proof.
  destruct type; unfold host_run; cbn [Host_barrier_all mbind dev_bind emit HOST_DISPATCH foldl fst app host_event
    result_bind host_method HostContext_barrier_all].
  - unfold fence, barrier_for_sync. set (s1 := call HHdp_flush (complete_all (win_handle w) s)).
    destruct (hdps_neutral s1) as (l & Ha & Hl).
    eexists _, ([HWin_sync (win_handle w); HHdp_flush] ++ l). split; [done|]. split; [|exact Hl].
    cbn [call hlog]. destruct Ha as [-> _]. unfold s1, complete_all. cbn [call hlog].
    rewrite hlog_calls, <- !app_assoc. reflexivity.
  - eexists _, [HWin_sync (win_handle w); HHdp_flush]. split; [done|]. split; [|done].
    unfold barrier_all, complete_all. rewrite !hlog_calls, <- app_assoc. reflexivity.
Qed.

(** A barrier of the host on a context, with either backend, returns; before its
    last call, the barrier of all processes, everything that was started on the
    window of the context has taken effect at its target and left its local buffers,
    and what was started on other windows is as it was. *)
Theorem host_barrier_completes W type team_comm mpi_type local values w s :
  ∃ s' l, host_run W type team_comm mpi_type local values w (Host_barrier_all type) s = Ok s' ∧
    hlog s' = hlog s ++ l ++ [HBarrier (host_comm_world_ W)] ∧
    foldl remote_after (remote_pending s) l =
      filter (λ x, snd <$> rma_target x ≠ Some (win_handle w)) (remote_pending s) ∧
    foldl local_after (local_pending s) l =
      filter (λ x, snd <$> rma_target x ≠ Some (win_handle w)) (local_pending s).
Proof.
  destruct (barrier_run W type team_comm mpi_type local values w s) as (s' & l & Hr & Hl & Hn).
  exists s', (HWin_flush_all (win_handle w) :: l). split; [done|]. split; [done|]. cbn [foldl].
  split; [apply (neutral_after l [] _ Hn)|apply (neutral_after l _ [] Hn)].
Qed.

(** ** Memory *)

Section memory.
Context {A : Type} (W : world).

Lemma lib_barrier_spec (b : lib_backend A) :
  ∃ h l, lib_barrier W b = Ok (mkLib (lb_type b) (lb_heap b) h (lb_default b) (lb_ctxs b)) ∧
    hlog h = hlog (lb_host b) ++ l ++ [HBarrier (host_comm_world_ W)].
Proof.
  destruct (barrier_run W (lb_type b) (λ t, t) (λ _, MPI_INT) 0 [] (lb_default b) (lb_host b)) as (s' & l & Hr & Hl & _).
  unfold lib_barrier. rewrite Hr. cbn [mbind result_bind]. eauto.
Qed.

(** Allocation and release are those of the heap; an allocation ends with a barrier of
    all processes, and a release happens after one.  Without initialisation both exit. *)
Theorem memory_calls (b : lib_backend A) addr size ptr :
  (∃ h l, hlog h = hlog (lb_host b) ++ l ++ [HBarrier (host_comm_world_ W)] ∧
    roc_shmem_malloc W addr size (Backend_at b) =
      ('(p, heap) ← malloc (lb_heap b) addr size;
       Ok (p, Backend_at (mkLib (lb_type b) heap h (lb_default b) (lb_ctxs b)))) ∧
    roc_shmem_free W ptr (Backend_at b) =
      (heap ← heap_free (lb_heap b) ptr;
       Ok (Backend_at (mkLib (lb_type b) heap h (lb_default b) (lb_ctxs b))))) ∧
  roc_shmem_malloc W addr size (@NoBackend A) = Fail (ExitProgram EXIT_FAILURE) ∧
  roc_shmem_free W ptr (@NoBackend A) = Fail (ExitProgram EXIT_FAILURE).
Proof.
  split; [|done]. destruct (lib_barrier_spec b) as (h & l & Hb & Hl). exists h, l. split; [done|].
  unfold roc_shmem_malloc, roc_shmem_free. cbn [VERIFY_BACKEND mbind result_bind]. rewrite Hb. cbn [mbind result_bind].
  split; [|done]. destruct (malloc (lb_heap b) addr size) as [[p heap]|]; [|done]. cbn [mbind result_bind].
  unfold lib_barrier in *. cbn [lb_type lb_default lb_host lb_heap lb_ctxs] in *.
  destruct (host_run _ _ _ _ _ _ _ _ _) as [h'|]; [|done]. cbn [mbind result_bind] in *. by injection Hb as ->.
Qed.

(** The pointer is not reset by [roc_shmem_finalize]: a call after it uses memory that
    is gone instead of being reported, and the library cannot be started again. *)
Theorem finalize_leaves_pointer (b : lib_backend A) h addr size construct :
  foldr (λ w r, h ← r; HostContext_delete (lb_type b) w h) (Ok (lb_host b)) (lb_ctxs b) = Ok h →
  ∃ p, roc_shmem_finalize (Backend_at b) = Ok (ROC_SHMEM_SUCCESS, p) ∧
    roc_shmem_malloc W addr size p = Fail BadAccess ∧
    library_init (Some 1) false construct p = Fail AssertFailed.
Proof. intros Hf. unfold roc_shmem_finalize. cbn [VERIFY_BACKEND mbind result_bind]. rewrite Hf. by exists Freed. Qed.
End memory.

(** ** Contexts of the host over time *)

Inductive lib_op := Create | Destroy (i : nat).

#[export] Instance lib_op_eq_dec : EqDecision lib_op.
Proof. solve_decision. Defined.

Section lib_contexts.
Context {A : Type}.

Definition lib_step (o : lib_op) (p : backend_ptr A) : result (backend_ptr A) :=
  match o with
  | Create => '(_, p) ← lib_ctx_create p; Ok p
  | Destroy i => lib_ctx_destroy i p
  end.
Definition lib_run (ops : list lib_op) (p : backend_ptr A) : result (backend_ptr A) :=
  foldl (λ r o, p ← r; lib_step o p) (Ok p) ops.

Definition creations (ops : list lib_op) : Z := Z.of_nat (length (filter (λ o, o = Create) ops)).

Lemma creations_app ops o : creations (ops ++ [o]) = creations ops + match o with Create => 1 | Destroy _ => 0 end.
Proof.
  unfold creations. rewrite filter_app, length_app. destruct o.
  - rewrite (filter_cons_True _ Create) by done. rewrite filter_nil. cbn [length]. lia.
  - rewrite (filter_cons_False _ (Destroy i)) by done. rewrite filter_nil. cbn [length]. lia.
Qed.

(** The windows that are taken: with the InfiniBand backend those of the default
    context and of the contexts that exist, with the other one for each creation. *)
Definition windows_taken (type : BackendType) (ops : list lib_op) (b : lib_backend A) : Z :=
  match type with GPU_IB_BACKEND => 1 + Z.of_nat (length (lb_ctxs b)) | RO_BACKEND => 1 + creations ops end.

Definition lib_ok (n : Z) (win : WindowInfo) (type : BackendType) (ops : list lib_op) (b : lib_backend A) : Prop :=
  lb_type b = type ∧ ∃ held, pool_ok n win (lb_host b) held ∧ Z.of_nat (length held) = windows_taken type ops b ∧
    (type = GPU_IB_BACKEND → held ≡ₚ win_handle <$> lb_default b :: lb_ctxs b).

Lemma filter_ne_NoDup (x : Z) (l : list Z) : x ∉ l → filter (.≠ x) l = l.
Proof.
  induction l as [|y l IH]; intros Hx; [done|]. rewrite not_elem_of_cons in Hx. destruct Hx as [Hy Hl].
  rewrite filter_cons_True by congruence. by rewrite IH.
Qed.

Lemma lib_run_ok n win type ops b0 p :
  lb_type b0 = type → lib_ok n win type [] b0 → lib_run ops (Backend_at b0) = Ok p →
  ∃ b, p = Backend_at b ∧ lib_ok n win type ops b.
Proof.
  intros Ht H0. revert p. induction ops as [|o ops IH] using rev_ind; intros p Hr.
  { injection Hr as <-. eauto. }
  unfold lib_run in Hr. rewrite foldl_app in Hr. cbn [foldl] in Hr. fold (lib_run ops (Backend_at b0)) in Hr.
  destruct (lib_run ops (Backend_at b0)) as [p1|] eqn:E1; [|done]. cbn [mbind result_bind] in Hr.
  destruct (IH p1 eq_refl) as (b & -> & Hty & held & Hok & Hlen & Hp). destruct o as [|i]; cbn in Hr.
  - unfold HostContext_new in Hr. pose proof (acquire_spec n win _ _ Hok) as Ha.
    destruct (acquire_window_context (lb_host b)) as [[w h]|]; [|done]. injection Hr as <-.
    destruct Ha as (_ & _ & _ & Hok'). eexists. split; [done|]. split; [done|]. cbn.
    exists (win_handle w :: held). split; [done|]. split.
    + unfold windows_taken in *. cbn [lb_ctxs length]. rewrite creations_app, length_app.
      destruct type; cbn [length]; lia.
    + intros Hg. rewrite fmap_app, (Hp Hg). cbn. rewrite Permutation_swap. f_equiv.
      by rewrite Permutation_app_comm.
  - destruct (lb_ctxs b !! i) as [w|] eqn:Ew; [|done]. cbn [must mbind result_bind] in Hr. rewrite Hty in Hr.
    unfold HostContext_delete in Hr. destruct type; cbn in Hr.
    + injection Hr as <-. eexists. split; [done|]. split; [done|]. exists held. cbn. split; [done|]. split; [|done].
      unfold windows_taken in *. rewrite creations_app. lia.
    + pose proof (release_spec n win (win_handle w) _ _ Hok) as Ha.
      destruct (release_window_context (win_handle w) (lb_host b)) as [h|]; [|done]. injection Hr as <-.
      destruct Ha as [_ Hok']. eexists. split; [done|]. split; [done|]. cbn. eexists. split; [done|].
      specialize (Hp eq_refl). pose proof (po_nodup _ _ _ _ Hok) as Hnd.
      assert (filter (.≠ win_handle w) held ≡ₚ win_handle <$> lb_default b :: delete i (lb_ctxs b)) as Hf.
      { assert (held ≡ₚ win_handle w :: (win_handle <$> lb_default b :: delete i (lb_ctxs b))) as E.
        { rewrite Hp. cbn. rewrite Permutation_swap. f_equiv. rewrite (delete_Permutation _ _ _ Ew) at 1. done. }
        rewrite E in Hnd |- *. apply NoDup_cons in Hnd as [Hni _].
        rewrite filter_cons_False by (intros []; reflexivity). by rewrite filter_ne_NoDup. }
      split; [|done]. rewrite Hf. cbn [windows_taken lb_ctxs]. rewrite length_fmap. cbn [length]. lia.
Qed.

(** With a pool of [n] windows, after any creations and destructions of host
    contexts that return, a further creation returns exactly if windows are left; with
    the InfiniBand backend those of existing contexts are taken, with reverse offload
    those of all contexts ever created. *)
Theorem host_contexts W (n base size : Z) (type : BackendType) (heap : SingleHeap A) w0 h0 ops p :
  0 ≤ n → HostContext_new (HostInterface_new W (Some n) base size) = Ok (w0, h0) →
  lib_run ops (Backend_at (mkLib type heap h0 w0 [])) = Ok p →
  ∃ b, p = Backend_at b ∧
    ((∃ r, lib_ctx_create p = Ok r) ↔ windows_taken type ops b < n) ∧
    (n ≤ windows_taken type ops b → lib_ctx_create p = Fail AssertFailed).
Proof.
  intros Hn H0 Hr. set (win := WindowInfo_new base size).
  pose proof (acquire_spec n win _ _ (pool_ok_new n win W base size Hn eq_refl)) as Ha.
  unfold HostContext_new in H0. rewrite H0 in Ha. destruct Ha as (_ & _ & _ & Hok0).
  destruct (lib_run_ok n win type ops (mkLib type heap h0 w0 []) p) as (b & -> & Hty & held & Hok & Hlen & _);
    [done| |done|].
  { split; [done|]. exists [win_handle w0]. split; [done|]. split; [by destruct type|]. done. }
  exists b. split; [done|]. unfold lib_ctx_create, HostContext_new.
  pose proof (acquire_spec n win _ _ Hok) as Ha.
  destruct (acquire_window_context (lb_host b)) as [[w h]|f]; cbn [mbind result_bind].
  - destruct Ha as (_ & _ & _ & Hok'). pose proof (pool_ok_bound n win _ _ Hn Hok') as Hb. cbn in Hb.
    split; [split; [lia|eauto]|lia].
  - destruct Ha as [-> Hb]. split; [split; [by intros []|lia]|done].
Qed.
End lib_contexts.

(** An example: two windows, one of them of the default context. *)
Definition example_heap : SingleHeap unit :=
  mkSingleHeap (mkHeapMemory (MA_hip_flags (λ w _ _, (0, Some 4096, w)) (λ w _, (0, w)) 1) 4096 1000)
    small_heap.
Definition one_taken : HostInterface :=
  mkHost 1 1 [mkHCW false 0 (WindowInfo_new 4096 1000); mkHCW true 1 (WindowInfo_new 4096 1000)] ∅ [].
Definition example_lib (type : BackendType) : lib_backend unit :=
  mkLib type example_heap one_taken (mkHCW false 0 (WindowInfo_new 4096 1000)) [].
Definition after_one : lib_backend unit :=
  mkLib RO_BACKEND example_heap
    (mkHost 1 1 [mkHCW false 0 (WindowInfo_new 4096 1000); mkHCW false 1 (WindowInfo_new 4096 1000)] ∅ [])
    (mkHCW false 0 (WindowInfo_new 4096 1000)) [].

Lemma host_contexts_witness :
  lib_run [Create; Destroy 0] (Backend_at (example_lib RO_BACKEND)) = Ok (Backend_at after_one) ∧
  lib_ctx_create (Backend_at after_one) = Fail AssertFailed.
Proof.
  assert (lib_run [Create; Destroy 0] (Backend_at (example_lib RO_BACKEND)) = Ok (Backend_at after_one)) as Hr
    by reflexivity.
  split; [exact Hr|].
  destruct (host_contexts small_world 2 4096 1000 RO_BACKEND example_heap _ one_taken [Create; Destroy 0]
    (Backend_at after_one) ltac:(lia) eq_refl Hr) as (b & _ & _ & Hf).
  apply Hf. vm_compute. discriminate.
Defined.

(** With the default pool of 40 windows, 39 contexts of reverse offload that are
    created and destroyed one after the other use up the pool; the InfiniBand backend
    goes on. *)
Theorem ro_contexts_leak :
  let start type :=
    '(w, h) ← HostContext_new (HostInterface_new small_world None 4096 1000);
    Ok (Backend_at (mkLib type example_heap h w [])) in
  let rounds k := concat (replicate k [Create; Destroy 0]) in
  (p ← start RO_BACKEND; lib_run (rounds 40%nat) p) = Fail AssertFailed ∧
  match p ← start GPU_IB_BACKEND; lib_run (rounds 40%nat) p with Ok _ => True | Fail _ => False end.
Proof. vm_compute. split; [reflexivity|exact I]. Qed.
