(* ===== verification/Delivery.v ===== *)
(** * From a call on the device to the network

    The layers together: a thread calls a function of the public interface on a context
    ([Api.v]) and the dispatch runs a method of the backend's context ([Dispatch.v]).
    With InfiniBand ([IBContext.v]) it posts a request to a queue pair ([QueuePair.v])
    that the set-up of the network has connected ([Network.v], [Connection.v]); with
    reverse offload ([ROContext.v]) its command goes through the ring ([ROQueue.v]) to
    the transport, which calls MPI ([MPITransport.v]).  Shown for both: what the card
    reads, or what MPI is called with, is the transfer that the caller asked for, with
    the process that the member of the team stands for. *)
From S2P Require Import Prelude ROQueue Teams Util MPITransport Coalesce ROContext Endian Segments QueuePair WGState IBContext Connection Network Dispatch Api.

Local Open Scope Z_scope.

(** ** The methods of the contexts *)

(** What a thread brings to a method: the messages of its wavefront, its lane and the
    flat numbers of the lanes, its place in the work-group, an address of its own, the
    buffer of the work-group. *)
Record thread := mkThread {
  th_wave : list (option msg);
  th_lane : nat;
  th_flat : nat → Z;
  th_idx : dim3;
  th_dim : dim3;
  th_local : Z;
  th_buffer_id : Z
}.

(** [static_cast<GPUIBContext *>(this)->func]; the methods that are not made of
    transfers to one process are modelled as programs of their own. *)
Definition ib_method `{WavefrontCoalescer} (c : GPUIBContext) (t : thread) (f : func)
    : option (result (list ib_effect)) :=
  let w := th_wave t in
  let i := th_lane t in
  let x := th_idx t in
  let d := th_dim t in
  match f with
  | F_putmem dest source nelems pe => Some (IBContext.putmem c w i (mkMsg pe source dest nelems))
  | F_getmem dest source nelems pe => Some (IBContext.getmem c w i (mkMsg pe source dest nelems))
  | F_putmem_nbi dest source nelems pe => Some (IBContext.putmem_nbi c w i (mkMsg pe source dest nelems))
  | F_getmem_nbi dest source nelems pe => Some (IBContext.getmem_nbi c w i (mkMsg pe source dest nelems))
  | F_put T dest source nelems pe => Some (IBContext.put c (sizeof_T T) w i (mkMsg pe source dest nelems))
  | F_get T dest source nelems pe => Some (IBContext.get c (sizeof_T T) w i (mkMsg pe source dest nelems))
  | F_put_nbi T dest source nelems pe => Some (IBContext.put_nbi c (sizeof_T T) w i (mkMsg pe source dest nelems))
  | F_get_nbi T dest source nelems pe => Some (IBContext.get_nbi c (sizeof_T T) w i (mkMsg pe source dest nelems))
  | F_putmem_wg dest source nelems pe => Some (IBContext.putmem_wg c x d dest source nelems pe)
  | F_getmem_wg dest source nelems pe => Some (IBContext.getmem_wg c x d dest source nelems pe)
  | F_putmem_nbi_wg dest source nelems pe => Some (IBContext.putmem_nbi_wg c x d dest source nelems pe)
  | F_getmem_nbi_wg dest source nelems pe => Some (IBContext.getmem_nbi_wg c x d dest source nelems pe)
  | F_putmem_wave dest source nelems pe => Some (IBContext.putmem_wave c x d dest source nelems pe)
  | F_getmem_wave dest source nelems pe => Some (IBContext.getmem_wave c x d dest source nelems pe)
  | F_putmem_nbi_wave dest source nelems pe => Some (IBContext.putmem_nbi_wave c x d dest source nelems pe)
  | F_getmem_nbi_wave dest source nelems pe => Some (IBContext.getmem_nbi_wave c x d dest source nelems pe)
  | F_put_wg T dest source nelems pe => Some (IBContext.put_wg c x d (sizeof_T T) dest source nelems pe)
  | F_get_wg T dest source nelems pe => Some (IBContext.get_wg c x d (sizeof_T T) dest source nelems pe)
  | F_put_nbi_wg T dest source nelems pe => Some (IBContext.put_nbi_wg c x d (sizeof_T T) dest source nelems pe)
  | F_get_nbi_wg T dest source nelems pe => Some (IBContext.get_nbi_wg c x d (sizeof_T T) dest source nelems pe)
  | F_put_wave T dest source nelems pe => Some (IBContext.put_wave c x d (sizeof_T T) dest source nelems pe)
  | F_get_wave T dest source nelems pe => Some (IBContext.get_wave c x d (sizeof_T T) dest source nelems pe)
  | F_put_nbi_wave T dest source nelems pe => Some (IBContext.put_nbi_wave c x d (sizeof_T T) dest source nelems pe)
  | F_get_nbi_wave T dest source nelems pe => Some (IBContext.get_nbi_wave c x d (sizeof_T T) dest source nelems pe)
  | F_p T dest value pe => Some (IBContext.p c (sizeof_T T) w i dest (th_local t) pe)
  | F_g T source pe =>
      Some (IBContext.g c (sizeof_T T) w i (th_local t) source (g_slot c x d (th_buffer_id t)) pe)
  | F_fence => Some (Ok (IBContext.fence c))
  | F_fence_pe pe => Some (Ok (IBContext.fence_pe c pe))
  | F_quiet => Some (Ok (IBContext.quiet c))
  | F_amo_fetch_add dst value cond pe => Some (IBContext.amo_fetch_add c dst value cond pe)
  | F_amo_add dst value cond pe => Some (IBContext.amo_add c dst value cond pe)
  | F_amo_fetch_cas dst value cond pe => Some (IBContext.amo_fetch_cas c dst value cond pe)
  | F_amo_cas dst value cond pe => Some (IBContext.amo_cas c dst value cond pe)
  | _ => None
  end.

Definition ro_method `{WavefrontCoalescer} (c : ROContext) (t : thread) (f : func) : option (result (list effect)) :=
  let w := th_wave t in
  let fl := th_flat t in
  let i := th_lane t in
  let x := th_idx t in
  let d := th_dim t in
  match f with
  | F_putmem dest source nelems pe => Some (ROContext.putmem c w fl i (mkMsg pe source dest nelems))
  | F_getmem dest source nelems pe => Some (ROContext.getmem c w fl i (mkMsg pe source dest nelems))
  | F_putmem_nbi dest source nelems pe => Some (ROContext.putmem_nbi c w fl i (mkMsg pe source dest nelems))
  | F_getmem_nbi dest source nelems pe => Some (ROContext.getmem_nbi c w fl i (mkMsg pe source dest nelems))
  | F_put T dest source nelems pe => Some (ROContext.put c (sizeof_T T) w fl i (mkMsg pe source dest nelems))
  | F_get T dest source nelems pe => Some (ROContext.get c (sizeof_T T) w fl i (mkMsg pe source dest nelems))
  | F_put_nbi T dest source nelems pe => Some (ROContext.put_nbi c (sizeof_T T) w fl i (mkMsg pe source dest nelems))
  | F_get_nbi T dest source nelems pe => Some (ROContext.get_nbi c (sizeof_T T) w fl i (mkMsg pe source dest nelems))
  | F_putmem_wg dest source nelems pe => Some (ROContext.putmem_wg c x d dest source nelems pe)
  | F_getmem_wg dest source nelems pe => Some (ROContext.getmem_wg c x d dest source nelems pe)
  | F_putmem_nbi_wg dest source nelems pe => Some (ROContext.putmem_nbi_wg c x d dest source nelems pe)
  | F_getmem_nbi_wg dest source nelems pe => Some (ROContext.getmem_nbi_wg c x d dest source nelems pe)
  | F_putmem_wave dest source nelems pe => Some (ROContext.putmem_wave c x d dest source nelems pe)
  | F_getmem_wave dest source nelems pe => Some (ROContext.getmem_wave c x d dest source nelems pe)
  | F_putmem_nbi_wave dest source nelems pe => Some (ROContext.putmem_nbi_wave c x d dest source nelems pe)
  | F_getmem_nbi_wave dest source nelems pe => Some (ROContext.getmem_nbi_wave c x d dest source nelems pe)
  | F_put_wg T dest source nelems pe => Some (ROContext.put_wg c x d (sizeof_T T) dest source nelems pe)
  | F_get_wg T dest source nelems pe => Some (ROContext.get_wg c x d (sizeof_T T) dest source nelems pe)
  | F_put_nbi_wg T dest source nelems pe => Some (ROContext.put_nbi_wg c x d (sizeof_T T) dest source nelems pe)
  | F_get_nbi_wg T dest source nelems pe => Some (ROContext.get_nbi_wg c x d (sizeof_T T) dest source nelems pe)
  | F_put_wave T dest source nelems pe => Some (ROContext.put_wave c x d (sizeof_T T) dest source nelems pe)
  | F_get_wave T dest source nelems pe => Some (ROContext.get_wave c x d (sizeof_T T) dest source nelems pe)
  | F_put_nbi_wave T dest source nelems pe => Some (ROContext.put_nbi_wave c x d (sizeof_T T) dest source nelems pe)
  | F_get_nbi_wave T dest source nelems pe => Some (ROContext.get_nbi_wave c x d (sizeof_T T) dest source nelems pe)
  | F_fence => Some (Ok (ROContext.fence c x d))
  | F_fence_pe pe => Some (Ok (ROContext.fence_pe c x d pe))
  | F_quiet => Some (Ok (ROContext.quiet c x d))
  | F_barrier_all => Some (Ok (ROContext.barrier_all c x d))
  | F_sync_all => Some (Ok (ROContext.sync_all c x d))
  | _ => None
  end.

(** ** Transfers *)

Definition rma_of (is_put blocking : bool) : rma :=
  match is_put, blocking with
  | true, true => r_putmem
  | true, false => r_putmem_nbi
  | false, true => r_getmem
  | false, false => r_getmem_nbi
  end.

(** The request of a transfer between [raddr] at the peer and [laddr] here. *)
Definition transfer_args `{Mlx5} (is_put : bool) (raddr laddr size pe : Z) : post_args :=
  if is_put then put_args raddr laddr size pe true else get_args raddr laddr size pe true.
Definition transfer_call (is_put blocking : bool) (L : level) (raddr laddr size pe : Z) : qp_call :=
  if is_put then QPut blocking L raddr laddr size pe else QGet blocking L raddr laddr size pe.

Lemma transfer_args_fields `{Mlx5} is_put raddr laddr size pe :
  0 < size < 2 ^ 31 →
  let a := transfer_args is_put raddr laddr size pe in
  a = mkPost pe size laddr raddr (if is_put then MLX5_OPCODE_RDMA_WRITE else MLX5_OPCODE_RDMA_READ) 0 0 true 0 false.
Proof.
  intros Hs. cbv zeta. unfold transfer_args, put_args, get_args. rewrite s32_small by (unfold INT_MIN, INT_MAX; lia).
  by destruct is_put.
Qed.

Lemma rma_method_ib `{WavefrontCoalescer} c t is_put blocking T dest source nelems pe :
  ib_method c t (rma_method (rma_of is_put blocking) T dest source nelems pe) =
    Some (ib_lane c is_put (th_wave t) blocking (th_lane t) (mkMsg pe source dest nelems)).
Proof. by destruct is_put, blocking. Qed.

(** What a lane posts that has to send. *)
Lemma lane_posts `{WavefrontCoalescer} c is_put wave blocking i m size :
  ib_available c (m_pe m) = false → heap_known is_put c m → 0 ≤ m_size m →
  wf_coalesce (ib_remote_lanes c wave) i m = (true, size) →
  ∃ mine theirs, vec_at (base_heap c) (ib_my_pe c) = Ok mine ∧ vec_at (base_heap c) (m_pe m) = Ok theirs ∧
    0 ≤ theirs + (remote_addr is_put m - mine) < 2 ^ 64 ∧
    ib_lane c is_put wave blocking i m =
      Ok (IBQp (getQueuePair c (m_pe m))
            (transfer_call is_put blocking (thread_level c) (theirs + (remote_addr is_put m - mine))
               (if is_put then m_source m else m_dest m) size (m_pe m)) ::
          if blocking then [IBQp (getQueuePair c (m_pe m)) (QQuiet (thread_level c)); IBFlush] else []).
Proof.
  intros Ha (mine & theirs & Hm & Ht & H1 & H2 & H3) Hsz Hco. rewrite Ha in Ht. exists mine, theirs.
  split; [done|]. split; [done|]. split; [lia|]. unfold ib_lane, remote_addr in *.
  destruct is_put; unfold ib_put_lane, ib_get_lane; rewrite Ha, Hco; cbn [negb];
    by rewrite (remote_address_ok _ _ _ mine theirs (m_size m)) by done.
Qed.

Section delivery.
Context {X : Mlx5} {L : Mlx5Laws X} {W : Mlx5dv} {LW : Mlx5dvLaws W} {HC : WavefrontCoalescer}.
Context (n num_wg : nat) (world : nat → process) (heap_bases : list Z).

(** The set-up of all processes has returned. *)
Record network_up (net : nat → NetworkOnImpl) (mem : nat → Segments.memory) : Prop := {
  up_size : Z.of_nat n * Z.of_nat num_wg < 2 ^ 31;
  up_processes : ∀ p, process_ok world p;
  up_exchanges : exchanges_ok n num_wg world heap_bases;
  up_setup : ∀ p, (p < n)%nat → setup_of n num_wg world heap_bases p = Ok (net p, mem p)
}.

(** A context of process [p] with reliable connections. *)
Definition context_of (p : nat) (c : GPUIBContext) : Prop := use_dc c = false ∧ ib_my_pe c = Z.of_nat p.

(** C6: On a network whose set-up has returned, let a thread of work-group [w] of process
    [p] call [roc_shmem_ctx_putmem], [_getmem] or their non-blocking versions on an open
    context of a team, for a member that is process [q], not of the same node, and let
    the lane be one that sends.  Then the call runs the method on its context, which
    posts one request to the queue pair for [q]; that queue pair is connected with the
    one that [q] uses for [p] in work-group [w]; and when the post returns, the card
    reads in its slot a transfer in the right direction, on that connection, to the
    address in the heap of [q] at the offset that the caller's address has in the own
    heap, with the key of the heap of [q], and the local buffer of the caller. *)
Theorem transfer_reaches_member net mem (team_of : Z → Team) private shared max_num_teams x ctx team tz answer
    is_put blocking T dest source nelems pe p q w c t size bases atomic_base :
  network_up net mem → (p < n)%nat → (q < n)%nat → (w < num_wg)%nat →
  rtc (ctx_step (λ t, tinfo_wrt_world (team_of t))) (ctx_start private shared max_num_teams) x →
  (ctx, team) ∈ open x →
  let call := C_rma (rma_of is_put blocking) T dest source nelems pe in
  let m := mkMsg (Z.of_nat q) source dest nelems in
  let laddr := if is_put then source else dest in
  meant team_of team call = Z.of_nat q →
  context_of p c → ib_available c (Z.of_nat q) = false → heap_known is_put c m →
  wf_coalesce (ib_remote_lanes c (th_wave t)) (th_lane t) m = (true, size) → 0 < nelems ≤ size → size < 2 ^ 31 →
  0 < laddr < 2 ^ 64 →
  ∃ tr effs cfg Q R key mine theirs,
    run_call GPU_IB_BACKEND tz (st x) answer call ctx = Ok (ctx_opaque ctx, tr) ∧
    dispatched GPU_IB_BACKEND true true (method_of call (Z.of_nat q)) tr ∧
    ib_method c t (method_of call (Z.of_nat q)) = Some (Ok effs) ∧
    vec_at (base_heap c) (Z.of_nat p) = Ok mine ∧ vec_at (base_heap c) (Z.of_nat q) = Ok theirs ∧
    let raddr := theirs + (remote_addr is_put m - mine) in
    effs = IBQp (Z.of_nat q) (transfer_call is_put blocking (thread_level c) raddr laddr size (Z.of_nat q)) ::
           (if blocking then [IBQp (Z.of_nat q) (QQuiet (thread_level c)); IBFlush] else []) ∧
    context_qp (net p) (Z.of_nat num_wg) (Z.of_nat n) (Z.of_nat w) (Z.of_nat q) bases atomic_base = Ok cfg ∧
    c_qps (n_conn (net p)) !! (q * num_wg + w)%nat = Some Q ∧
    c_qps (n_conn (net q)) !! (p * num_wg + w)%nat = Some R ∧
    connected_to (pr_verbs (world p)) Q R (pr_verbs (world q)) ∧ heap_mr world heap_bases q = Success key ∧
    ∀ thr loads s s', let a := transfer_args is_put raddr laddr size (Z.of_nat q) in
      update_posted_wqe_generic cfg thr (C := RCConnectionImpl) (thread_level c) blocking a [] loads s = Ok s' →
      laddr + size ≤ next_wqe cfg s ∨ next_wqe cfg s + 128 ≤ laddr → 0 ≤ sq_counter s < 2 ^ 32 →
      (thread_level c = MultiThreadImpl → Z.of_nat q < num_cqs cfg) →
      card_request (C := RCConnectionImpl) (qp_mem s') (next_wqe cfg s) =
        mkRequest (if is_put then MLX5_OPCODE_RDMA_WRITE else MLX5_OPCODE_RDMA_READ) (u16 (sq_counter s)) (qp_num Q)
          (mkRemote raddr (htobe32 (mr_rkey key)))
          (if is_put && (size <=? inline_threshold) then PInline (qp_mem s <$> seqZ source size)
           else PLocal (mkLocal laddr size (qp_lkey cfg))).
Proof using L LW.
  intros [Hsz Hok Hex Hset] Hp Hq Hw Hx Hopen call m laddr Hmeant [Hdc Hmy] Hav Hknown Hco Hsize Hmax Hladdr.
  apply reachable_inv in Hx.
  destruct (open_call team_of x ctx team GPU_IB_BACKEND tz answer call Hx Hopen) as (tr & Hrun & Hd).
  assert (no_size call = false) as Hns by (unfold no_size, call; cbn; apply Z.eqb_neq; lia).
  rewrite Hns, Hmeant in Hd. replace (locked call) with true in Hd by by destruct is_put, blocking.
  destruct (lane_posts c is_put (th_wave t) blocking (th_lane t) m size Hav Hknown ltac:(cbn; lia) Hco)
    as (mine & theirs & Hmine & Htheirs & Hraddr & Heff).
  destruct (network_ready n num_wg world heap_bases net mem bases atomic_base Hsz Hok Hex Hset p q w Hp Hq Hw)
    as (cfg & Q & R & mk & key & _ & Hcfg & HQ & HR & Hcon & _ & Hcok & _ & Hkey & _ & _ & Hrkey & _).
  rewrite Hmy in Hmine. eexists tr, _, cfg, Q, R, key, mine, theirs. split; [exact Hrun|]. split; [exact Hd|].
  split. { unfold call. cbn [method_of]. rewrite rma_method_ib. f_equal. exact Heff. }
  split; [exact Hmine|]. split; [exact Htheirs|]. cbv zeta.
  split. { unfold getQueuePair. rewrite Hdc. reflexivity. }
  split; [exact Hcfg|]. split; [exact HQ|]. split; [exact HR|]. split; [exact Hcon|]. split; [exact Hkey|].
  intros thr loads s s' Hpost Hapart Hcnt Hmulti. set (raddr := theirs + _) in *. clearbody raddr.
  rewrite transfer_args_fields in Hpost by lia.
  destruct (post_posted cfg (qp_num Q) Hcok thr _ _ _ _ _ _ Hpost) as [Hposted _].
  - left. unfold transfer_ok. cbn. split; [by destruct is_put; auto|]. split; [lia|]. done.
  - done.
  - done.
  - done.
  - intros Hm. specialize (Hmulti Hm). cbn. lia.
  - rewrite (ps_request _ _ _ _ _ _ _ Hposted). unfold meant_payload. cbn. rewrite Hrkey.
    destruct opcodes_distinct as (Hwr & Haw & Har & _). unfold laddr.
    destruct is_put; [rewrite Haw, Z.eqb_refl, andb_true_r|rewrite Har, (proj2 (Z.eqb_neq _ _)), andb_false_r by congruence];
      done.
Qed.
End delivery.

(** ** The same with reverse offload *)

Section offload.
Context {HC : WavefrontCoalescer}.

(** The command of a transfer. *)
Definition transfer_cmd (is_put blocking : bool) : ro_net_cmds :=
  match is_put, blocking with
  | true, true => RO_NET_PUT
  | true, false => RO_NET_PUT_NBI
  | false, true => RO_NET_GET
  | false, false => RO_NET_GET_NBI
  end.

Lemma rma_method_ro c t is_put blocking T dest source nelems pe size :
  let m := mkMsg pe source dest nelems in
  ipc_available c pe = false → wf_coalesce (remote_lanes c (th_wave t)) (th_lane t) m = (true, size) →
  ro_method c t (rma_method (rma_of is_put blocking) T dest source nelems pe) =
    Some (Ok [ECommand (th_flat t (th_lane t))
                (rma_args c (transfer_cmd is_put blocking) dest source size pe blocking)]).
Proof.
  intros m Ha Hco. destruct is_put, blocking; cbn;
    unfold ROContext.putmem, ROContext.getmem, ROContext.putmem_nbi, ROContext.getmem_nbi, put_lane, get_lane;
    cbn [m_pe]; rewrite Ha; fold m; by rewrite Hco.
Qed.

(** What the transport does with the command of a transfer. *)
Lemma transfer_served E tr c (is_put blocking : bool) dest source size pe threadId queue_idx off k :
  0 ≤ size < 2 ^ 31 →
  offset E queue_idx (if is_put then dest else source) = Ok off → vec_at (outstanding tr) queue_idx = Ok k →
  ∃ tr', serve E tr (rma_args c (transfer_cmd is_put blocking) dest source size pe blocking) threadId queue_idx = Ok tr' ∧
    log tr' = log tr ++ (if is_put then
                           (if gpu_queue E then [] else [CHdp_flush]) ++
                           [CRput source size MPI_CHAR pe off queue_idx; CWin_flush_all queue_idx]
                         else [CRget dest size MPI_CHAR pe off queue_idx]) ∧
    outstanding tr' = <[Z.to_nat queue_idx := k + 1]> (outstanding tr) ∧
    req_prop_vec tr' = req_prop_vec tr ++
      [mkProps threadId queue_idx blocking (if is_put then source else nullptr) false].
Proof.
  intros Hs Hoff Hk. destruct tr as [tq twg trv tpv tout twq tcm tst thb tlog tfr]. cbn in Hk. unfold serve, requested.
  destruct is_put, blocking; cbn [rma_args transfer_cmd a_type a_dst a_src a_size a_pe];
    rewrite s32_small by (unfold INT_MIN, INT_MAX; lia); unfold putMem, getMem, add_request, add_outstanding, hdp_flush_if.
  1, 2: rewrite Hoff; cbn [mbind result_bind]; destruct (gpu_queue E); cbn;
    rewrite Hk; cbn; eexists; (split; [reflexivity|]); cbn; rewrite <- ?app_assoc; done.
  1, 2: cbn; rewrite Hk; cbn [mbind result_bind]; rewrite Hoff; cbn; eexists; (split; [reflexivity|]); done.
Qed.

(** C7: The same call with reverse offload: it runs the method on its context, which gives
    the host one command; whatever the slot of the ring held before, when the transport
    takes the command for a work-group whose window covers the remote address, it makes
    one MPI transfer, of the right direction and size, between the local buffer and the
    process that is meant, at the offset of the remote address in the window; it counts
    one more outstanding request and remembers thread, queue and whether it blocks. *)
Theorem offloaded_transfer_reaches_member (team_of : Z → Team) private shared max_num_teams x ctx team tz answer
    (is_put blocking : bool) T dest source nelems pe c t size :
  rtc (ctx_step (λ t, tinfo_wrt_world (team_of t))) (ctx_start private shared max_num_teams) x →
  (ctx, team) ∈ open x →
  let call := C_rma (rma_of is_put blocking) T dest source nelems pe in
  let to := meant team_of team call in
  let tid := th_flat t (th_lane t) in
  ipc_available c to = false →
  wf_coalesce (remote_lanes c (th_wave t)) (th_lane t) (mkMsg to source dest nelems) = (true, size) →
  0 < nelems ≤ size → size < 2 ^ 31 →
  ∃ tr a,
    run_call RO_BACKEND tz (st x) answer call ctx = Ok (ctx_opaque ctx, tr) ∧
    dispatched RO_BACKEND true true (method_of call to) tr ∧
    ro_method c t (method_of call to) = Some (Ok [ECommand tid a]) ∧
    ∀ (E : env) (host : transport) (old : queue_element) queue_idx off k,
      offset E queue_idx (if is_put then dest else source) = Ok off → vec_at (outstanding host) queue_idx = Ok k →
      ∃ host', dispatch E host (set_valid true (pack a tid old)) queue_idx = Ok host' ∧
        log host' = log host ++ (if is_put then
                                   (if gpu_queue E then [] else [CHdp_flush]) ++
                                   [CRput source size MPI_CHAR to off queue_idx; CWin_flush_all queue_idx]
                                 else [CRget dest size MPI_CHAR to off queue_idx]) ∧
        outstanding host' = <[Z.to_nat queue_idx := k + 1]> (outstanding host) ∧
        req_prop_vec host' = req_prop_vec host ++
          [mkProps tid queue_idx blocking (if is_put then source else nullptr) false].
Proof.
  intros Hx Hopen call to tid Hav Hco Hsize Hmax. apply reachable_inv in Hx.
  destruct (open_call team_of x ctx team RO_BACKEND tz answer call Hx Hopen) as (tr & Hrun & Hd).
  assert (no_size call = false) as Hns by (unfold no_size, call; cbn; apply Z.eqb_neq; lia).
  rewrite Hns in Hd. replace (locked call) with true in Hd by by destruct is_put, blocking.
  eexists tr, _. split; [exact Hrun|]. split; [exact Hd|]. split; [by apply rma_method_ro|].
  intros E host old queue_idx off k Hoff Hk. rewrite command_fields by by destruct is_put, blocking.
  by apply transfer_served; [lia|..].
Qed.
End offload.

(** ** An example *)

Module ExampleDelivery.
Import ExampleNetwork.

(** Both processes as a team, and a context of work-group 1 of process 0 for it. *)
Definition both_team (team : Z) : Team := mkTeam 2 0 (mkTeamInfo 100 0 1 2) (mkTeamInfo 100 0 1 2) 2 0 0 1.
Definition both_ctx : roc_shmem_ctx_t := mkCtx 2 (Some O).
Definition both_open : ctx_state :=
  mkState (mkWg 1 2 {[2 := Fence_new 0]}
             [mkWGTeamInfo 1 10 (described (λ t, tinfo_wrt_world (both_team t)) 10); WGTeamInfo_default])
    [(both_ctx, Some 10)].

Lemma both_open_reached : rtc (ctx_step (λ t, tinfo_wrt_world (both_team t))) (ctx_start 1 2 2) both_open.
Proof. apply rtc_once, (step_team_create _ 10 0); reflexivity. Qed.

Definition near : GPUIBContext := mkIB 0 2 example_bases (mkIpc false 1 []) 0 false SingleThreadImpl.
Definition one_thread : thread :=
  mkThread (Some (mkMsg 1 0x300000 0x101000 8) :: replicate 63 None) 0 Z.of_nat (mkDim 0 0 0) (mkDim 64 1 1) 0 0.
End ExampleDelivery.
Import ExampleNetwork ExampleDelivery.

Lemma transfer_reaches_member_witness :
  ∃ tr effs cfg Q R key,
    run_call GPU_IB_BACKEND true (st both_open) (λ _, Int 0) (C_rma r_putmem T_int 0x101000 0x300000 8 1) both_ctx = Ok (2, tr) ∧
    ib_method (H := WfCoalOff) near one_thread (F_putmem 0x101000 0x300000 8 1) = Some (Ok effs) ∧
    effs = [IBQp 1 (QPut true SingleThreadImpl 0x201000 0x300000 8 1); IBQp 1 (QQuiet SingleThreadImpl); IBFlush] ∧
    context_qp (ExampleNetwork.setup_result 0).1 2 2 1 1 (λ _, 0) 0x30000 = Ok cfg ∧
    c_qps (n_conn (ExampleNetwork.setup_result 0).1) !! 3%nat = Some Q ∧ c_qps (n_conn (ExampleNetwork.setup_result 1).1) !! 1%nat = Some R ∧
    connected_to (ExampleVerbs.verbs 0) Q R (ExampleVerbs.verbs 1) ∧
    heap_mr ExampleNetwork.machine ExampleNetwork.example_bases 1 = Success key.
Proof.
  destruct (transfer_reaches_member (HC := WfCoalOff) 2 2 ExampleNetwork.machine ExampleNetwork.example_bases
    (λ p, (ExampleNetwork.setup_result p).1) (λ p, (ExampleNetwork.setup_result p).2) both_team 1 2 2 both_open both_ctx
    (Some 10) true (λ _, Int 0) true true T_int 0x101000 0x300000 8 1 0%nat 1%nat 1%nat near one_thread 8 (λ _, 0) 0x30000)
    as (tr & effs & cfg & Q & R & key & mine & theirs & H1 & _ & H3 & H4 & H5 & H6 & H7 & H8 & H9 & H10 & H11 & _).
  - split; [lia|apply ExampleNetwork.machine_ok|apply ExampleNetwork.machine_exchanges|apply ExampleNetwork.setup_ok].
  - lia.
  - lia.
  - lia.
  - exact both_open_reached.
  - apply list_elem_of_singleton. reflexivity.
  - reflexivity.
  - split; reflexivity.
  - reflexivity.
  - exists 0x100000, 0x200000. split_and!; try reflexivity; cbn; lia.
  - reflexivity.
  - lia.
  - lia.
  - lia.
  - exists tr, effs, cfg, Q, R, key. cbn in H4, H5. injection H4 as <-. injection H5 as <-.
    split; [exact H1|]. split; [exact H3|]. split; [exact H6|]. split; [exact H7|]. split; [exact H8|].
    split; [exact H9|]. split; [exact H10|exact H11].
Defined.

Lemma offloaded_transfer_reaches_member_witness :
  ∃ tr a, run_call RO_BACKEND true (st both_open) (λ _, Int 0) (C_rma r_putmem_nbi T_int 4200 100000 8 1) both_ctx = Ok (2, tr) ∧
    ro_method (H := WfCoalOff) (mkROContext 0 (mkIpc false 1 []) (-1) 0 0 0) one_thread (F_putmem_nbi 4200 100000 8 1) =
      Some (Ok [ECommand 0 a]) ∧
    ∃ host', dispatch host_env (initTransport 1) (set_valid true (pack a 0 empty_element)) 0 = Ok host' ∧
      log host' = [CRput 100000 8 MPI_CHAR 1 104 0; CWin_flush_all 0].
Proof.
  destruct (offloaded_transfer_reaches_member (HC := WfCoalOff) both_team 1 2 2 both_open both_ctx (Some 10) true (λ _, Int 0)
    true false T_int 4200 100000 8 1 (mkROContext 0 (mkIpc false 1 []) (-1) 0 0 0) one_thread 8)
    as (tr & a & H1 & _ & H3 & H4).
  - exact both_open_reached.
  - apply list_elem_of_singleton. reflexivity.
  - reflexivity.
  - reflexivity.
  - lia.
  - lia.
  - exists tr, a. split; [exact H1|]. split; [exact H3|].
    destruct (H4 host_env (initTransport 1) empty_element 0 104 0) as (host' & Hd & Hl & _); [reflexivity..|].
    exists host'. split; [exact Hd|exact Hl].
Defined.
