(* ===== verification/Ipc.v ===== *)
(** * Memory shared between the processes of a node

    [ipc_policy.cpp], [ipc_policy.hpp]: the processes of a node exchange handles of
    their heaps and map the heaps of the others; the device keeps a copy of the table
    of mapped heaps for every work-group.  Shown: after the exchange each process finds
    the heap of each other one at the address in its table, so that the addresses that
    both backends compute from it are those of the same offset in the peer's heap; and
    where the table does not fit its use. *)
From S2P Require Import Prelude Heap Util MPITransport ROContext QueuePair WGState IBContext Connection.

Local Open Scope Z_scope.

(** ** The HIP runtime *)

(** Handles of device memory; both functions answer an error code first. *)
Class HipIpc (hipIpcMemHandle_t : Type) := {
  hipIpcGetMemHandle : Z → Z * hipIpcMemHandle_t;
  hipIpcOpenMemHandle : hipIpcMemHandle_t → Z * Z
}.

(** ** [class IpcOnImpl] on the host *)

Definition sizeof_uintptr_t : Z := 8.

Definition ipc_get_DynamicShared (USE_IPC : bool) (Shm_size : Z) : Z :=
  if USE_IPC then u32 (Shm_size * sizeof_uintptr_t) else 0.

Section host.
Context {hipIpcMemHandle_t : Type} {P : HipIpc hipIpcMemHandle_t}.
(** [MPI_Allgather] on the array of handles, of which entries may not be set. *)
Context (MPI_Allgather : list (option hipIpcMemHandle_t) → list (option hipIpcMemHandle_t)).

(** The loop that opens the handles of the others. *)
Fixpoint open_handles (base_heap shm_rank : Z) (vec_ipc_handle : list (option hipIpcMemHandle_t)) (l : list Z)
    : result (list Z) :=
  match l with
  | [] => Ok []
  | i :: l' =>
      ipc_base_i ←
        (if negb (i =? shm_rank) then
           slot ← vec_at vec_ipc_handle i;
           handle ← must slot;
           let '(error, ipc_base_i) := hipIpcOpenMemHandle handle in
           _ ← CHECK_HIP error; Ok ipc_base_i
         else Ok base_heap);
      rest ← open_handles base_heap shm_rank vec_ipc_handle l';
      Ok (ipc_base_i :: rest)
  end.

(** [error_malloc] is what [hipMalloc] of the table answers. *)
Definition ipcHostInit (my_pe : Z) (heap_bases : list Z) (Shm_size shm_rank : Z) (error_malloc : Z) : result IpcImpl :=
  let shm_size := u32 Shm_size in
  base_heap ← vec_at heap_bases my_pe;
  let '(error, handle) := hipIpcGetMemHandle base_heap in
  _ ← CHECK_HIP error;
  let vec_ipc_handle :=
    MPI_Allgather (<[Z.to_nat shm_rank := Some handle]> (replicate (Z.to_nat shm_size) None)) in
  _ ← CHECK_HIP error_malloc;
  ipc_base ← open_handles base_heap shm_rank vec_ipc_handle (seqZ 0 shm_size);
  Ok (mkIpc true shm_size ipc_base).
End host.

(** ** On the device *)

(** [for (size_t i = thread_id; i < shm_size; i++) ipc_base_lds[i] = ipc_bases[i]]: what one
    thread does to the table of its work-group. *)
Definition ipcGpuInit_thread (backend : IpcImpl) (thread_id : Z) (lds : list Z) : result (list Z) :=
  foldl (λ r i, lds ← r; x ← vec_at (ipc_bases backend) i; Ok (<[Z.to_nat i := x]> lds)) (Ok lds)
    (seqZ thread_id (shm_size backend - thread_id)).

(** All threads of a block, in the order of the list, on the memory that the first of
    them finds; then the policy of the context. *)
Definition ipcGpuInit (backend : IpcImpl) (threads : list Z) (garbage : Z → Z) (dynamicPtr : Z)
    : result (IpcImpl * Z) :=
  let mem_in_bytes := u64 (shm_size backend * sizeof_uintptr_t) in
  let '(dyn_mem, dynamicPtr) := allocateDynamicShared mem_in_bytes dynamicPtr in
  ipc_base_lds ← foldl (λ r t, lds ← r; ipcGpuInit_thread backend t lds) (Ok (garbage <$> seqZ 0 (shm_size backend))) threads;
  Ok (mkIpc true (shm_size backend) ipc_base_lds, dynamicPtr).

(** The default contexts, which the host constructs, take the table only; [shm_size]
    keeps its initial value. *)
Definition host_context_ipc (backend : IpcImpl) : IpcImpl := mkIpc (ipc_on backend) 0 (ipc_bases backend).

(** Copies and atomics on mapped memory. *)
Definition ipcCopy (m : memory) (dst src size : Z) : memory := memcpy m dst src size.
Definition ipcCopy_wave (thread_id dst src size : Z) : list chunk := memcpy_wave thread_id dst src size.
Definition ipcCopy_wg (thread_id block_size dst src size : Z) : list chunk := memcpy_wg thread_id block_size dst src size.

(** [atomicAdd] and [atomicCAS] on a variable of [w] bits: the old and the new value. *)
Definition ipcAMOFetchAdd (w old value : Z) : Z * Z := (old, uwrap w (old + value)).
Definition ipcAMOFetchCas (w old cond value : Z) : Z * Z := (old, if old =? cond then value else old).
Definition ipcAMOAdd (w old value : Z) : Z := (ipcAMOFetchAdd w old value).2.
Definition ipcAMOCas (w old cond value : Z) : Z := (ipcAMOFetchCas w old cond value).2.

(** ** The exchange *)

Lemma open_handles_lookup {T} {P : HipIpc T} base rank vec l bases :
  open_handles base rank vec l = Ok bases →
  length bases = length l ∧
  ∀ k i, l !! k = Some i →
    if decide (i = rank) then bases !! k = Some base
    else ∃ h a, vec_at vec i = Ok (Some h) ∧ hipIpcOpenMemHandle h = (hipSuccess, a) ∧ bases !! k = Some a.
Proof.
  revert bases. induction l as [|i l IH]; intros bases H; cbn in H.
  - injection H as <-. done.
  - apply bind_Ok_inv in H as (b & Hb & H). apply bind_Ok_inv in H as (rest & Hrest & [= <-]).
    destruct (IH rest Hrest) as [Hlen Hl]. split; [cbn; by rewrite Hlen|]. intros [|k] j Hj; cbn in Hj.
    + injection Hj as <-. case_decide as Hir.
      * subst. rewrite Z.eqb_refl in Hb. by injection Hb as <-.
      * rewrite (proj2 (Z.eqb_neq _ _) Hir) in Hb. cbn in Hb. apply bind_Ok_inv in Hb as (o & Ho & Hb).
        apply bind_Ok_inv in Hb as (h & Hh & Hb). destruct o as [h'|]; [|done]. injection Hh as ->.
        destruct (hipIpcOpenMemHandle h) as [e a] eqn:Eo. unfold CHECK_HIP in Hb.
        destruct (Z.eqb_spec e hipSuccess) as [->|]; [|done]. cbn in Hb. injection Hb as <-. eauto.
    + exact (Hl k j Hj).
Qed.

(** *** The table of a work-group *)

(** One thread leaves the table as it is or right from its number on. *)
Lemma gpu_init_thread backend t lds :
  0 ≤ t → length lds = length (ipc_bases backend) → shm_size backend = Z.of_nat (length lds) →
  ∃ lds', ipcGpuInit_thread backend t lds = Ok lds' ∧ length lds' = length lds ∧
    ∀ i : nat, lds' !! i = if decide (t ≤ Z.of_nat i) then ipc_bases backend !! i else lds !! i.
Proof.
  intros Ht Hlen Hshm. unfold ipcGpuInit_thread.
  destruct (decide (t < shm_size backend)) as [Hlt|Hge].
  2: { rewrite seqZ_nil by lia. exists lds. split; [done|]. split; [done|]. intros i. case_decide; [|done].
       rewrite !lookup_ge_None_2 by lia. done. }
  enough (∀ n : nat, t + Z.of_nat n ≤ shm_size backend →
    ∃ lds', foldl (λ r i, lds ← r; x ← vec_at (ipc_bases backend) i; Ok (<[Z.to_nat i := x]> lds)) (Ok lds)
              (seqZ t (Z.of_nat n)) = Ok lds' ∧ length lds' = length lds ∧
      ∀ i : nat, lds' !! i = if decide (t ≤ Z.of_nat i < t + Z.of_nat n) then ipc_bases backend !! i else lds !! i) as Hall.
  { destruct (Hall (Z.to_nat (shm_size backend - t))) as (lds' & E & Hl & Hi); [lia|].
    rewrite Z2Nat.id in E by lia. exists lds'. split; [exact E|]. split; [done|]. intros i. rewrite Hi.
    destruct (decide (t ≤ Z.of_nat i)); [|by rewrite decide_False by lia].
    case_decide; [done|]. rewrite !lookup_ge_None_2 by lia. done. }
  induction n as [|n IH]; intros Hn.
  - exists lds. split; [done|]. split; [done|]. intros i. by rewrite decide_False by lia.
  - destruct IH as (lds' & E & Hl & Hi); [lia|]. rewrite Nat2Z.inj_succ, <- Z.add_1_r, seqZ_app by lia.
    destruct (lookup_lt_is_Some_2 (ipc_bases backend) (Z.to_nat (t + Z.of_nat n))) as [x Hx]; [lia|].
    assert (vec_at (ipc_bases backend) (t + Z.of_nat n) = Ok x) as Hv.
    { rewrite <- (Z2Nat.id (t + Z.of_nat n)) by lia. by apply vec_at_lookup. }
    rewrite foldl_app, E, (seqZ_cons _ 1), seqZ_nil by lia. cbn [foldl mbind result_bind]. rewrite Hv. cbn [mbind result_bind].
    eexists. split; [reflexivity|]. split; [by rewrite length_insert|]. intros i.
    destruct (decide (i = Z.to_nat (t + Z.of_nat n))) as [->|Hne].
    + rewrite list_lookup_insert_eq by lia. by rewrite decide_True by lia.
    + rewrite list_lookup_insert_ne, Hi by done. apply decide_ext. lia.
Qed.

(** When the threads of the block, the first one among them, have run in any order,
    the policy of the context is that of the backend. *)
Lemma gpu_init_copies backend threads garbage dynamicPtr :
  ipc_on backend = true → shm_size backend = Z.of_nat (length (ipc_bases backend)) →
  Forall (λ t, 0 ≤ t) threads → 0 ∈ threads →
  ∃ d, ipcGpuInit backend threads garbage dynamicPtr = Ok (backend, d).
Proof.
  intros Hon Hshm Hall Hin. unfold ipcGpuInit. destruct (allocateDynamicShared _ _) as [p d]. exists d.
  enough (∀ lds, length lds = length (ipc_bases backend) →
    (∀ i : nat, 0 ∉ threads → lds !! i = ipc_bases backend !! i) →
    foldl (λ r t, lds ← r; ipcGpuInit_thread backend t lds) (Ok lds) threads = Ok (ipc_bases backend)) as H.
  { rewrite (H (garbage <$> _)); [by destruct backend; cbn in *; subst|rewrite length_fmap, length_seqZ; lia|done]. }
  clear Hin. induction Hall as [|t ts Ht Hts IH]; intros lds Hl Hi; cbn.
  - f_equal. apply list_eq. intros i. apply Hi. set_solver.
  - destruct (gpu_init_thread backend t lds) as (lds' & -> & Hl' & Hi'); [lia|done|lia|]. apply IH; [lia|].
    intros i Hnin. rewrite Hi'. case_decide; [done|]. apply Hi. apply not_elem_of_cons. split; [lia|done].
Qed.

(** ** A node *)

Section node.
(** The processes of a node, [s] of them, from number [first] of the world on. *)
Context {T : Type} (s first : nat) (world : nat → HipIpc T) (heap_bases : list Z) (heap_size : Z).
Context (gather : nat → list (option T) → list (option T)).
(** Address [x] of process [p] is address [y] of process [q]. *)
Context (sees : nat → Z → nat → Z → Prop).

(** The array that a process brings to the exchange. *)
Definition sent_handles (p : nat) : list (option T) :=
  <[p := Some (hipIpcGetMemHandle (HipIpc := world p) (nth (first + p) heap_bases 0)).2]> (replicate s None).

(** What HIP says of handles, and MPI of the exchange. *)
Record node_laws : Prop := {
  nl_own : ∀ p x, sees p x p x;
  nl_open : ∀ p q base h a, hipIpcGetMemHandle (HipIpc := world q) base = (hipSuccess, h) →
    hipIpcOpenMemHandle (HipIpc := world p) h = (hipSuccess, a) → ∀ k, 0 ≤ k < heap_size → sees p (a + k) q (base + k);
  nl_gather : allgather_law s 1 sent_handles (λ p, gather p (sent_handles p))
}.

Definition init_of (p : nat) : result IpcImpl :=
  ipcHostInit (P := world p) (gather p) (Z.of_nat (first + p)) heap_bases (Z.of_nat s) (Z.of_nat p) hipSuccess.

(** What a process needs of HIP for its set-up. *)
Lemma init_of_inv p ipc :
  Z.of_nat s < 2 ^ 32 → (p < s)%nat → init_of p = Ok ipc →
  ∃ b, heap_bases !! (first + p)%nat = Some b ∧
    (hipIpcGetMemHandle (HipIpc := world p) b).1 = hipSuccess ∧
    ipc_on ipc = true ∧ shm_size ipc = Z.of_nat s ∧ length (ipc_bases ipc) = s ∧
    ∀ q, (q < s)%nat →
      if decide (q = p) then ipc_bases ipc !! q = Some b
      else ∃ h a, gather p (sent_handles p) !! q = Some (Some h) ∧
             hipIpcOpenMemHandle (HipIpc := world p) h = (hipSuccess, a) ∧ ipc_bases ipc !! q = Some a.
Proof.
  intros Hs Hp H. unfold init_of, ipcHostInit in H. rewrite uwrap_small in H by lia.
  apply bind_Ok_inv in H as (b & Hb & H). apply vec_at_inv in Hb as (i & Ei%Nat2Z.inj & Hb). subst i.
  destruct (hipIpcGetMemHandle b) as [e h] eqn:Eg. apply bind_Ok_inv in H as ([] & He & H).
  apply bind_Ok_inv in H as ([] & _ & H). apply bind_Ok_inv in H as (l & Hl & [= <-]).
  rewrite !Nat2Z.id in Hl.
  replace (<[p := Some h]> (replicate s None)) with (sent_handles p) in Hl.
  2: { unfold sent_handles. rewrite (nth_lookup_Some _ _ _ _ Hb), Eg. done. }
  destruct (open_handles_lookup _ _ _ _ _ Hl) as [Hlen Hall]. rewrite length_seqZ, Nat2Z.id in Hlen.
  exists b. split; [done|]. split.
  { unfold CHECK_HIP in He. destruct (Z.eqb_spec e hipSuccess) as [->|]; [by rewrite Eg|done]. }
  split; [done|]. split; [done|]. split; [done|]. intros q Hq.
  specialize (Hall q (Z.of_nat q)). rewrite lookup_seqZ_lt in Hall by lia. specialize (Hall eq_refl).
  destruct (decide (q = p)) as [->|Hne]; [by rewrite decide_True in Hall by done|].
  rewrite decide_False in Hall by lia. destruct Hall as (h' & a & Hv & Ho & Hla).
  apply vec_at_inv in Hv as (j & Ej%Nat2Z.inj & Hv). subst j. eauto.
Qed.

(** Each process finds the heap of each other one where its table says. *)
Lemma table_maps (ipc : nat → IpcImpl) p q :
  node_laws → Z.of_nat s < 2 ^ 32 → (∀ p, (p < s)%nat → init_of p = Ok (ipc p)) → (p < s)%nat → (q < s)%nat →
  ∃ a b, ipc_bases (ipc p) !! q = Some a ∧ heap_bases !! (first + q)%nat = Some b ∧
    (q = p → a = b) ∧ ∀ k, 0 ≤ k < heap_size → sees p (a + k) q (b + k).
Proof.
  intros [Hown Hopen Hg] Hs Hinit Hp Hq.
  destruct (init_of_inv p _ Hs Hp (Hinit p Hp)) as (bp & Hbp & _ & _ & _ & _ & Htab).
  destruct (init_of_inv q _ Hs Hq (Hinit q Hq)) as (bq & Hbq & Hget & _).
  specialize (Htab q Hq). destruct (decide (q = p)) as [->|Hne].
  - exists bp, bp. split; [done|]. split; [done|]. split; [done|]. auto.
  - destruct Htab as (h & a & Hh & Ho & Ha). exists a, bq. split; [done|]. split; [done|]. split; [done|].
    specialize (Hg p q 0%nat Hp Hq ltac:(lia)). replace (q * 1 + 0)%nat with q in Hg by lia. cbn in Hg. rewrite Hh in Hg.
    unfold sent_handles in Hg. rewrite list_lookup_insert_eq in Hg by (by rewrite length_replicate).
    injection Hg as ->. rewrite (nth_lookup_Some _ _ _ _ Hbq) in Ho.
    apply (Hopen p q bq (hipIpcGetMemHandle (HipIpc := world q) bq).2 a); [|exact Ho].
    by destruct (hipIpcGetMemHandle (HipIpc := world q) bq) as [e h]; cbn in Hget |- *; subst.
Qed.
End node.

(** C25: On the first node of a run, with the processes that share memory numbered from 0
    on, let all processes have exchanged the handles of their heaps and let the threads
    of a work-group have copied the table.  Then for each pair of processes the peer is
    found to be on the node, and the address that either backend computes for an address
    of the own heap is one at which the process sees the same offset of the heap of the
    peer. *)
Theorem shared_heap {T : Type} (s : nat) (world : nat → HipIpc T) heap_bases heap_size gather sees (ipc : nat → IpcImpl)
    p q threads garbage dynamicPtr b addr (c : GPUIBContext) (ro : ROContext) :
  node_laws s 0 world heap_bases heap_size gather sees → Z.of_nat s < 2 ^ 31 →
  (∀ p, (p < s)%nat → init_of s 0 world heap_bases gather p = Ok (ipc p)) → (p < s)%nat → (q < s)%nat →
  Forall (λ t, 0 ≤ t) threads → 0 ∈ threads →
  heap_bases !! p = Some b → 0 ≤ b ≤ addr → addr < b + heap_size →
  (∀ a, a ∈ ipc_bases (ipc p) → 0 ≤ a ∧ a + heap_size < 2 ^ 64) →
  ∃ dev d mine x, ipcGpuInit (ipc p) threads garbage dynamicPtr = Ok (dev, d) ∧
    isIpcAvailable dev (Z.of_nat p) (Z.of_nat q) = true ∧
    heap_bases !! q = Some mine ∧ sees p x q (mine + (addr - b)) ∧
    (base_heap c = heap_bases → ib_my_pe c = Z.of_nat p → ib_ipcImpl_ c = dev →
     shared_address c (Z.of_nat q) addr = Ok x) ∧
    (ROContext.my_pe ro = Z.of_nat p → ipcImpl_ ro = dev → ipc_address ro (Z.of_nat q) addr = Ok x).
Proof.
  intros Hlaws Hs Hinit Hp Hq Hth H0 Hb Hab Hend Hrange. assert (Z.of_nat s < 2 ^ 32) as Hs' by lia.
  destruct (init_of_inv s 0 world heap_bases gather p _ Hs' Hp (Hinit p Hp)) as (b' & Hb' & _ & Hon & Hshm & Hlen & Htab).
  cbn in Hb'. rewrite Hb in Hb'. injection Hb' as <-.
  destruct (gpu_init_copies (ipc p) threads garbage dynamicPtr Hon ltac:(lia) Hth H0) as [d Hd].
  destruct (table_maps s 0 world heap_bases heap_size gather sees ipc p q Hlaws Hs' Hinit Hp Hq)
    as (a & bq & Ha & Hbq & Hself & Hsees).
  destruct (Hrange a (list_elem_of_lookup_2 _ _ _ Ha)) as [Ha0 Ha1].
  exists (ipc p), d, bq, (a + (addr - b)). split; [exact Hd|]. split.
  { unfold isIpcAvailable. rewrite Hon, Hshm, !uwrap_small by lia. cbn. rewrite !Z.div_small by lia. done. }
  split; [exact Hbq|]. split; [apply Hsees; lia|]. split.
  - intros Eh Em Ei. apply (shared_address_ok c _ _ b a 0); try lia; [rewrite Eh, Em; by apply vec_at_lookup|].
    rewrite Ei. by apply vec_at_lookup.
  - intros Em Ei. unfold ipc_address, ipc_base. rewrite Em, Ei, (vec_at_lookup _ _ _ Ha).
    specialize (Htab p Hp). rewrite decide_True in Htab by done. rewrite (vec_at_lookup _ _ _ Htab). cbn.
    rewrite (uwrap_small 64 (addr - b)) by lia. by rewrite uwrap_small by lia.
Qed.

(** The default contexts keep the initial [shm_size], by which [isIpcAvailable] divides. *)
Theorem default_context_no_size backend : shm_size (host_context_ipc backend) = 0.
Proof. done. Qed.

(** Two processes; one sees the heap of the other at [65536] above its address there. *)
Definition demo_shift (p q : nat) : Z := if decide (p = q) then 0 else 65536.
Definition demo_world (p : nat) : HipIpc (nat * Z) := {|
  hipIpcGetMemHandle base := (hipSuccess, (p, base));
  hipIpcOpenMemHandle h := (hipSuccess, h.2 + demo_shift p h.1)
|}.
Definition demo_sees (p : nat) (x : Z) (q : nat) (y : Z) : Prop := x = y + demo_shift p q.
Definition demo_gather (p : nat) (l : list (option (nat * Z))) : list (option (nat * Z)) :=
  [Some (0%nat, 4096); Some (1%nat, 8192)].
Definition demo_ipc (p : nat) : IpcImpl :=
  mkIpc true 2 [4096 + demo_shift p 0; 8192 + demo_shift p 1].

Lemma demo_node_laws : node_laws 2 0 demo_world [4096; 8192] 100 demo_gather demo_sees.
Proof.
  split.
  - intros p x. unfold demo_sees, demo_shift. rewrite decide_True by done. lia.
  - intros p q base h a [= <-] [= <-] k _. unfold demo_sees. cbn. lia.
  - intros p q i Hp Hq Hi. assert (i = 0)%nat as -> by lia. by destruct q as [|[|q]]; [| |lia].
Qed.

Lemma shared_heap_witness :
  ∃ dev d mine x, ipcGpuInit (demo_ipc 0) [3; 0; 1] (λ i, i) 0 = Ok (dev, d) ∧
    isIpcAvailable dev 0 1 = true ∧
    [4096; 8192] !! 1%nat = Some mine ∧ demo_sees 0 x 1 (mine + (4100 - 4096)) ∧
    (base_heap (mkIB 0 2 [4096; 8192] (demo_ipc 0) 0 false SingleThreadImpl) = [4096; 8192] → 0 = 0 → demo_ipc 0 = dev →
     shared_address (mkIB 0 2 [4096; 8192] (demo_ipc 0) 0 false SingleThreadImpl) 1 4100 = Ok x) ∧
    (0 = 0 → demo_ipc 0 = dev → ipc_address (mkROContext 0 (demo_ipc 0) 0 0 0 0) 1 4100 = Ok x).
Proof.
  apply (shared_heap 2 demo_world [4096; 8192] 100 demo_gather demo_sees demo_ipc 0%nat 1%nat [3; 0; 1] (λ i, i) 0 4096 4100
    (mkIB 0 2 [4096; 8192] (demo_ipc 0) 0 false SingleThreadImpl) (mkROContext 0 (demo_ipc 0) 0 0 0 0)).
  - exact demo_node_laws.
  - lia.
  - intros [|[|p]] Hp; [reflexivity|reflexivity|lia].
  - lia.
  - lia.
  - repeat constructor; lia.
  - right. left.
  - reflexivity.
  - lia.
  - lia.
  - intros a Ha. apply list_elem_of_In in Ha. destruct Ha as [E|[E|[]]]; vm_compute in E; subst a; lia.
Defined.
