(* ===== verification/ROBackend.v ===== *)
(** * Set-up of the reverse-offload backend

    [reverse_offload/backend_ro.cpp] and the proxies for device memory that it owns
    ([queue_proxy.hpp], [queue_desc_proxy.hpp], [profiler_proxy.hpp],
    [win_pool_bitmask_proxy.hpp], [context_pool_proxy.hpp]), and the handles that contexts
    take from it.  Shown: what the constructor accepts, that the contexts in use have
    rings and status bytes of their own, each ring served by one worker; and where the
    fixed sizes do not fit the settings. *)
From stdpp Require Import strings.
From S2P Require Import Prelude Heap ROQueue MPITransport ROContext WGState Connection Network Ipc.

Local Open Scope Z_scope.

(** ** Memory for the device *)

Definition MAX_NUM_BLOCKS : Z := 65536.
Definition QUEUE_SIZE : Z := 1024.
Definition TOTAL_QUEUE_ELEMENTS : Z := QUEUE_SIZE * MAX_NUM_BLOCKS.
Definition MAX_THREADS_PER_BLOCK : Z := 1024.
Definition MAX_THREADS : Z := MAX_NUM_BLOCKS * MAX_THREADS_PER_BLOCK.
Definition MAX_NUM_CTXS : Z := 32.
Definition DEFAULT_QUEUE_SIZE : Z := 64.
(** Two cache lines of fields after the one with the valid flag. *)
Definition sizeof_queue_element_t : Z := 192.

(** [QueueProxy::QueueProxy]: the addresses of the rings, in the memory at
    [per_block_queue], whose elements are cleared. *)
Definition QueueProxy_new (per_block_queue : Z) : list Z :=
  (λ i, per_block_queue + i * QUEUE_SIZE * sizeof_queue_element_t) <$> seqZ 0 MAX_NUM_BLOCKS.

Record queue_desc_t := mkDesc { desc_read_idx : Z; desc_write_idx : Z; desc_status : Z }.

(** [QueueDescProxy::QueueDescProxy], with the status bytes at [status]. *)
Definition QueueDescProxy_new (status : Z) : list queue_desc_t :=
  (λ i, mkDesc 0 0 (status + i * MAX_THREADS_PER_BLOCK)) <$> seqZ 0 MAX_NUM_BLOCKS.

(** [ProfilerProxy]: the number of blocks it is for. *)
Definition ProfilerProxy_new (num_blocks : Z) : result Z :=
  assert_ (num_blocks <=? MAX_NUM_BLOCKS);; Ok num_blocks.
Definition ProfilerProxy_get (num_elem_ i : Z) : result Z := assert_ (i <? num_elem_);; Ok i.

Definition WinPoolBitmaskProxy_new : list Z := replicate (Z.to_nat MAX_NUM_CTXS) 0.

Definition ContextPoolProxy_new (local_heap_base heap_size : Z) : list WindowInfo :=
  replicate (Z.to_nat MAX_NUM_CTXS) (WindowInfo_new local_heap_base heap_size).

(** ** The backend *)

(** [struct BackendRegister]. *)
Record BackendRegister := mkRegister {
  queues : list Z;
  queue_descs : list queue_desc_t;
  num_threads : Z;
  done_flag : bool;
  reg_queue_size : Z;
  reg_g_ret : Z;
  heap_window_info : list WindowInfo;
  reg_atomic_base_ptr : Z;
  reg_atomic_counter : Z;
  gpu_queue : bool;
  max_num_ctxs : Z;
  reg_win_pool : list Z
}.

(** [struct ro_net_wg_handle] as far as it is used; the policy of the HDP may not be set. *)
Record ro_net_wg_handle := mkHandle {
  queue : Z;
  h_read_idx : Z;
  h_write_idx : Z;
  h_queue_size : Z;
  h_status : Z;
  h_g_ret : Z;
  h_atomic_base_ptr : Z;
  h_atomic_counter : Z;
  h_hdp_policy : bool
}.

Record ROBackend := mkROBackend {
  num_wg : Z;
  ro_bufferTokens : list Z;
  profiler_elems : Z;
  reg : BackendRegister;
  ipcImpl : IpcImpl;
  transport_ : transport;
  default_ctx : ro_net_wg_handle;
  worker_threads : list Z
}.

(** The part of the handle that both constructors of [ROContext] copy for a buffer. *)
Definition handle_for (r : BackendRegister) (buffer_id counter : Z) (hdp : bool) : result ro_net_wg_handle :=
  d ← vec_at (queue_descs r) buffer_id;
  q ← vec_at (queues r) buffer_id;
  Ok (mkHandle q (desc_read_idx d) (desc_write_idx d) (reg_queue_size r) (desc_status d) (reg_g_ret r)
        (reg_atomic_base_ptr r) counter hdp).

(** [ROContext::ROContext] on the host, for the default context, and on the device, for the
    buffer that the work-group has. *)
Definition ROContext_host (r : BackendRegister) (num_wg : Z) : result ro_net_wg_handle :=
  handle_for r (num_wg - 1) 0 false.
Definition ROContext_device (r : BackendRegister) (buffer_id : Z) : result ro_net_wg_handle :=
  handle_for r buffer_id (reg_atomic_counter r) true.

(** [ROContext::ctx_destroy] leaves the write index for the next user of the queue. *)
Definition save_write_idx (r : BackendRegister) (buffer_id : Z) (h : ro_net_wg_handle) : result BackendRegister :=
  d ← vec_at (queue_descs r) buffer_id;
  Ok (mkRegister (queues r)
        (<[Z.to_nat buffer_id := mkDesc (desc_read_idx d) (h_write_idx h) (desc_status d)]> (queue_descs r))
        (num_threads r) (done_flag r) (reg_queue_size r) (reg_g_ret r) (heap_window_info r) (reg_atomic_base_ptr r)
        (reg_atomic_counter r) (gpu_queue r) (max_num_ctxs r) (reg_win_pool r)).

Section setup.
Context {T : Type} {P : HipIpc T} {R : Registration}.
(** What the process finds: the environment, a variable as [atoi] reads it; the device; its
    place among the processes; its heap; memory that the proxies and [hipMalloc] gave. *)
Context (getenv : string → option Z) (num_cus : Z).
Context (MPI_Allgather : list (option T) → list (option T)) (my_pe Shm_size shm_rank : Z) (heap_bases : list Z).
Context (local_heap_base heap_size per_block_queue status atomic_base atomic_counter : Z).

(** [ROBackend::initIPC]. *)
Definition initIPC : result IpcImpl := ipcHostInit MPI_Allgather my_pe heap_bases Shm_size shm_rank hipSuccess.

Definition env_queue_size : result Z :=
  match getenv "RO_NET_QUEUE_SIZE" with
  | Some value => let queue_size := u64 value in assert_ (negb (queue_size =? 0));; Ok queue_size
  | None => Ok DEFAULT_QUEUE_SIZE
  end.
Definition env_max_num_ctxs (num_wgs : Z) : Z :=
  match getenv "RO_NET_MAX_NUM_CONTEXTS" with Some value => value | None => s32 num_wgs end.
Definition env_num_threads : Z := match getenv "RO_NET_NUM_THREADS" with Some value => value | None => 1 end.

(** [exit(-static_cast<int>(Status::ROC_SHMEM_INVALID_ARGUMENTS))] *)
Definition check_threads (num_wg num_threads : Z) : result unit :=
  if (0 <? num_threads) && ((num_wg <? num_threads) || negb (Z.rem num_wg num_threads =? 0))
  then Fail (ExitProgram (-1)) else Ok tt.

Definition ROBackend_new (num_wgs : Z) : result ROBackend :=
  let num_wg := Backend_num_wg num_wgs num_cus in
  num_elem_ ← ProfilerProxy_new num_wgs;
  let gpu_queue := match getenv "RO_NET_CPU_QUEUE" with Some _ => false | None => true end in
  queue_size ← env_queue_size;
  profiler ← ProfilerProxy_get num_elem_ 0;
  ipcImpl ← initIPC;
  g_ret ← init_g_ret num_wg;
  let num_threads := env_num_threads in
  let r := mkRegister (QueueProxy_new per_block_queue) (QueueDescProxy_new status) num_threads false queue_size g_ret
             (ContextPoolProxy_new local_heap_base heap_size) atomic_base atomic_counter gpu_queue
             (env_max_num_ctxs num_wgs) WinPoolBitmaskProxy_new in
  ctx ← ROContext_host r num_wg;
  check_threads num_wg num_threads;;
  Ok (mkROBackend num_wg (default_ctx_tokens num_wg) num_elem_ r ipcImpl (initTransport (Z.to_nat num_wg)) ctx
        (seqZ 0 (u64 num_threads))).
End setup.

(** The queues that a worker visits in a round of [ROBackend::ro_net_poll]. *)
Definition served_by (b : ROBackend) (thread_id : Z) : list Z :=
  poll_indices (Z.to_nat (num_wg b)) thread_id (num_threads (reg b)) (num_wg b).

(** [ROBackend::reset_backend_stats]: the statistics it resets. *)
Definition reset_indices (b : ROBackend) : list Z := seqZ 0 (num_wg b).

(** ** What the constructor gives *)

Lemma seqZ_vec_at {A} (f : Z → A) n i : 0 ≤ i < n → vec_at (f <$> seqZ 0 n) i = Ok (f i).
Proof.
  intros Hi. rewrite <- (Z2Nat.id i) at 1 by lia. apply vec_at_lookup. rewrite list_lookup_fmap, lookup_seqZ_lt by lia.
  cbn. do 2 f_equal. lia.
Qed.

(** The ring and the status bytes of a buffer. *)
Definition ring_address (per_block_queue i : Z) : Z := per_block_queue + i * QUEUE_SIZE * sizeof_queue_element_t.
Definition status_address (status i : Z) : Z := status + i * MAX_THREADS_PER_BLOCK.

Section constructed.
Context {T : Type} {P : HipIpc T} {R : Registration}.
Context (getenv : string → option Z) (num_cus : Z).
Context (MPI_Allgather : list (option T) → list (option T)) (my_pe Shm_size shm_rank : Z) (heap_bases : list Z).
Context (local_heap_base heap_size per_block_queue status atomic_base atomic_counter : Z).
Abbreviation construct := (ROBackend_new getenv num_cus MPI_Allgather my_pe Shm_size shm_rank heap_bases
  local_heap_base heap_size per_block_queue status atomic_base atomic_counter).

(** A backend that has been constructed. *)
Record well_constructed (num_wgs : Z) (b : ROBackend) : Prop := {
  wc_num_wg : num_wg b = Backend_num_wg num_wgs num_cus;
  wc_tokens : ro_bufferTokens b = default_ctx_tokens (num_wg b);
  wc_elems : profiler_elems b = num_wgs ∧ 0 < num_wgs ≤ MAX_NUM_BLOCKS;
  wc_queues : queues (reg b) = QueueProxy_new per_block_queue;
  wc_descs : queue_descs (reg b) = QueueDescProxy_new status;
  wc_size : env_queue_size getenv = Ok (reg_queue_size (reg b));
  wc_ctxs : max_num_ctxs (reg b) = env_max_num_ctxs getenv num_wgs ∧ length (reg_win_pool (reg b)) = Z.to_nat MAX_NUM_CTXS;
  wc_atomic : reg_atomic_base_ptr (reg b) = atomic_base ∧ reg_atomic_counter (reg b) = atomic_counter;
  wc_ipc : initIPC MPI_Allgather my_pe Shm_size shm_rank heap_bases = Ok (ipcImpl b);
  wc_default : ROContext_host (reg b) (num_wg b) = Ok (default_ctx b);
  wc_threads : num_threads (reg b) = env_num_threads getenv ∧ check_threads (num_wg b) (num_threads (reg b)) = Ok tt;
  wc_workers : worker_threads b = seqZ 0 (u64 (num_threads (reg b)));
  wc_transport : transport_ b = initTransport (Z.to_nat (num_wg b))
}.

Lemma construct_inv num_wgs b : construct num_wgs = Ok b → well_constructed num_wgs b.
Proof.
  unfold ROBackend_new, ProfilerProxy_new, ProfilerProxy_get. intros H.
  apply bind_Ok_inv in H as (e & He & H). apply bind_Ok_inv in He as ([] & He1%assert_Ok_inv & [= <-]).
  apply bind_Ok_inv in H as (qs & Hqs & H).
  apply bind_Ok_inv in H as (pr & Hpr & H). apply bind_Ok_inv in Hpr as ([] & Hpr1%assert_Ok_inv & _).
  apply bind_Ok_inv in H as (ipc & Hipc & H). apply bind_Ok_inv in H as (g & _ & H).
  apply bind_Ok_inv in H as (ctx & Hctx & H). apply bind_Ok_inv in H as ([] & Hth & [= <-]).
  split; cbn; try done. split; [done|]. lia.
Qed.

(** When it returns. *)
Lemma construct_intro num_wgs qs ipc g ctx :
  let nw := Backend_num_wg num_wgs num_cus in
  let nt := env_num_threads getenv in
  let r := mkRegister (QueueProxy_new per_block_queue) (QueueDescProxy_new status) nt false qs g
             (ContextPoolProxy_new local_heap_base heap_size) atomic_base atomic_counter
             (match getenv "RO_NET_CPU_QUEUE" with Some _ => false | None => true end)
             (env_max_num_ctxs getenv num_wgs) WinPoolBitmaskProxy_new in
  0 < num_wgs ≤ MAX_NUM_BLOCKS → env_queue_size getenv = Ok qs →
  initIPC MPI_Allgather my_pe Shm_size shm_rank heap_bases = Ok ipc → init_g_ret nw = Ok g →
  ROContext_host r nw = Ok ctx → check_threads nw nt = Ok tt →
  construct num_wgs =
    Ok (mkROBackend nw (default_ctx_tokens nw) num_wgs r ipc (initTransport (Z.to_nat nw)) ctx (seqZ 0 (u64 nt))).
Proof.
  intros nw nt r Hw Hqs Hipc Hg Hctx Hth. unfold ROBackend_new, ProfilerProxy_new, ProfilerProxy_get.
  rewrite (proj2 (Z.leb_le _ _)) by lia. cbn [assert_ mbind result_bind]. rewrite Hqs. cbn [mbind result_bind].
  rewrite (proj2 (Z.ltb_lt _ _)) by lia. cbn [assert_ mbind result_bind]. rewrite Hipc. cbn [mbind result_bind].
  fold nw. rewrite Hg. cbn [mbind result_bind]. fold nt r. rewrite Hctx. cbn [mbind result_bind]. by rewrite Hth.
Qed.

Section ready.
Context (num_wgs : Z) (b : ROBackend) (Hb : well_constructed num_wgs b).
Context (Hcus : 0 ≤ num_cus) (Hblocks : num_wg b ≤ MAX_NUM_BLOCKS).

Lemma num_wg_pos : 0 < num_wg b.
Proof using Hb Hcus.
  rewrite (wc_num_wg _ _ Hb). destruct (wc_elems _ _ Hb) as [_ ?]. unfold Backend_num_wg. case_match; lia.
Qed.

Lemma handle_of_buffer i counter hdp :
  0 ≤ i < num_wg b →
  ∃ h, handle_for (reg b) i counter hdp = Ok h ∧ queue h = ring_address per_block_queue i ∧
    h_status h = status_address status i ∧ h_queue_size h = reg_queue_size (reg b) ∧
    h_read_idx h = 0 ∧ h_write_idx h = 0 ∧ h_atomic_base_ptr h = atomic_base ∧ h_atomic_counter h = counter.
Proof using Hb Hblocks.
  intros Hi. unfold handle_for. rewrite (wc_queues _ _ Hb), (wc_descs _ _ Hb). unfold QueueProxy_new, QueueDescProxy_new.
  rewrite !seqZ_vec_at by lia. cbn. eexists. split; [reflexivity|]. cbn. split_and!; try done. apply (wc_atomic _ _ Hb).
Qed.

(** The workers share the queues out. *)
Lemma one_worker i :
  0 < num_threads (reg b) < 2 ^ 31 → 0 ≤ i < num_wg b →
  ∃ t, t ∈ worker_threads b ∧ i ∈ served_by b t ∧ ∀ t', t' ∈ worker_threads b → i ∈ served_by b t' → t' = t.
Proof using Hb.
  intros Ht Hi. unfold served_by. rewrite (wc_workers _ _ Hb), uwrap_small by lia.
  assert (∀ t, t ∈ seqZ 0 (num_threads (reg b)) →
    i ∈ poll_indices (Z.to_nat (num_wg b)) t (num_threads (reg b)) (num_wg b) ↔ t = i `mod` num_threads (reg b)) as H.
  { intros t Hs%elem_of_seqZ. apply poll_indices_mod; lia. }
  assert (i `mod` num_threads (reg b) ∈ seqZ 0 (num_threads (reg b))) as Hin.
  { apply elem_of_seqZ. pose proof (Z.mod_pos_bound i (num_threads (reg b))). lia. }
  exists (i `mod` num_threads (reg b)). split; [done|]. split; [by apply H|]. intros t' Ht' Hi'. by apply H.
Qed.

(** *** Contexts in use *)

(** The default context, and those of work-groups that have a buffer. *)
Inductive holder := Default | Group (g : Z).

Definition holds (p : wg_pool) (x : holder) (i : Z) : Prop :=
  match x with Default => i = num_wg b - 1 | Group g => wgs p !! g = Some (HasBuffer i) end.

(** The handle it works with, when the register is [r]. *)
Definition handle_in_use (r : BackendRegister) (x : holder) (i : Z) : result ro_net_wg_handle :=
  match x with Default => Ok (default_ctx b) | Group _ => ROContext_device r i end.

(** Contexts that were closed have left their write indices. *)
Definition saves (r r' : BackendRegister) : Prop := ∃ i h, save_write_idx r i h = Ok r'.

(** What closing contexts keeps. *)
Record same_rings (r r' : BackendRegister) : Prop := {
  sr_queues : queues r' = queues r;
  sr_size : reg_queue_size r' = reg_queue_size r;
  sr_status : desc_status <$> queue_descs r' = desc_status <$> queue_descs r
}.

Lemma save_same_rings r r' : saves r r' → same_rings r r'.
Proof using.
  intros (i & h & H). unfold save_write_idx in H. apply bind_Ok_inv in H as (d & Hd & [= <-]).
  apply vec_at_inv in Hd as (k & -> & Hk). split; try done. cbn. rewrite Nat2Z.id.
  rewrite list_fmap_insert. cbn. apply list_insert_id. by rewrite list_lookup_fmap, Hk.
Qed.

Lemma saves_same_rings r : rtc saves (reg b) r → same_rings (reg b) r.
Proof using.
  revert r. apply (rtc_invariant saves (same_rings (reg b))); [done|]. intros r r' Hs%save_same_rings [E1 E2 E3].
  destruct Hs as [F1 F2 F3]. split; congruence.
Qed.

Lemma handle_rings r x i p :
  rtc saves (reg b) r → rtc (pool_step (num_wg b)) (mkPool (ro_bufferTokens b) ∅) p → holds p x i →
  0 ≤ i < num_wg b ∧ ∃ h, handle_in_use r x i = Ok h ∧ queue h = ring_address per_block_queue i ∧
    h_status h = status_address status i ∧ h_queue_size h = reg_queue_size (reg b).
Proof using Hb Hcus Hblocks.
  intros [S1 S2 S3]%saves_same_rings Hr Hx. pose proof num_wg_pos as Hpos. rewrite (wc_tokens _ _ Hb) in Hr.
  destruct (pool_reachable (num_wg b) p Hpos Hr) as ([_ Hheld _ _] & _ & Hlen).
  assert (0 ≤ i < num_wg b) as Hi.
  { destruct x as [|g]; cbn in Hx; [lia|]. destruct (Hheld g i Hx) as [H0 Hl]. apply lookup_lt_Some in Hl. lia. }
  split; [done|]. destruct x as [|g]; cbn.
  - pose proof (wc_default _ _ Hb) as Hd. unfold ROContext_host in Hd. cbn in Hx. subst i.
    destruct (handle_of_buffer (num_wg b - 1) 0 false Hi) as (h & Eh & H1 & H2 & H3 & _). rewrite Eh in Hd. injection Hd as <-.
    by exists h.
  - unfold ROContext_device, handle_for. rewrite S1, S2, (wc_queues _ _ Hb). unfold QueueProxy_new.
    rewrite seqZ_vec_at by lia.
    assert (desc_status <$> queue_descs r = (λ i, status_address status i) <$> seqZ 0 MAX_NUM_BLOCKS) as Es.
    { rewrite S3, (wc_descs _ _ Hb). unfold QueueDescProxy_new. rewrite <- list_fmap_compose. done. }
    assert (∃ d, queue_descs r !! Z.to_nat i = Some d ∧ desc_status d = status_address status i) as (d & Hd & Ed).
    { assert ((desc_status <$> queue_descs r) !! Z.to_nat i = Some (status_address status i)) as Hl.
      { rewrite Es, list_lookup_fmap, lookup_seqZ_lt by lia. cbn. do 2 f_equal. lia. }
      rewrite list_lookup_fmap in Hl. destruct (queue_descs r !! Z.to_nat i) as [d|]; [|done]. injection Hl as ?. by exists d. }
    rewrite (vec_at_Z _ _ d) by (done || lia). cbn. eexists. split; [reflexivity|]. cbn. by rewrite Ed.
Qed.

Lemma holders_apart p x y i j :
  rtc (pool_step (num_wg b)) (mkPool (ro_bufferTokens b) ∅) p → x ≠ y → holds p x i → holds p y j → i ≠ j.
Proof using Hb Hcus.
  intros Hr Hxy Hx Hy ->. pose proof num_wg_pos as Hpos. rewrite (wc_tokens _ _ Hb) in Hr.
  destruct (pool_reachable (num_wg b) p Hpos Hr) as ([_ _ Hinj _] & [_ Hd] & _).
  destruct x as [|g], y as [|g']; cbn in Hx, Hy; [done|subst; by eapply Hd|subst; by eapply Hd|].
  apply Hxy. f_equal. by eapply Hinj.
Qed.
End ready.

(** ** Rings of their own *)

(** C21: The set-up of the reverse-offload backend.  Let the constructor have returned, with
    a queue size of at most 1024, at most 65536 buffers and at least one worker, and let
    work-groups have taken and returned buffers in any order, those that returned one
    having left their write index.  Then any two contexts in use, of work-groups or the
    default one, have handles whose rings share no element and whose status bytes are
    apart, all within the memory allocated for them; and the ring of each of them is
    served by exactly one of the worker threads. *)
Theorem contexts_own_rings num_wgs b r p x y i j :
  construct num_wgs = Ok b →
  0 ≤ num_cus → num_wg b ≤ MAX_NUM_BLOCKS → reg_queue_size (reg b) ≤ QUEUE_SIZE → 0 < num_threads (reg b) < 2 ^ 31 →
  rtc (pool_step (num_wg b)) (mkPool (ro_bufferTokens b) ∅) p → rtc saves (reg b) r →
  x ≠ y → holds b p x i → holds b p y j →
  ∃ h h', handle_in_use b r x i = Ok h ∧ handle_in_use b r y j = Ok h' ∧
    (∀ a c, 0 ≤ a < h_queue_size h → 0 ≤ c < h_queue_size h' →
       let e := queue h + a * sizeof_queue_element_t in
       let e' := queue h' + c * sizeof_queue_element_t in
       (e + sizeof_queue_element_t ≤ e' ∨ e' + sizeof_queue_element_t ≤ e) ∧
       per_block_queue ≤ e ∧ e + sizeof_queue_element_t ≤ per_block_queue + TOTAL_QUEUE_ELEMENTS * sizeof_queue_element_t) ∧
    (∀ t t', 0 ≤ t < MAX_THREADS_PER_BLOCK → 0 ≤ t' < MAX_THREADS_PER_BLOCK →
       h_status h + t ≠ h_status h' + t' ∧ status ≤ h_status h + t < status + MAX_THREADS) ∧
    ∃ t, t ∈ worker_threads b ∧ i ∈ served_by b t ∧ ∀ t', t' ∈ worker_threads b → i ∈ served_by b t' → t' = t.
Proof.
  intros Hb%construct_inv Hcus Hblocks Hsize Hth Hp Hr Hxy Hx Hy.
  destruct (handle_rings num_wgs b Hb Hcus Hblocks r x i p Hr Hp Hx) as (Hi & h & Eh & Hq & Hs & Hz).
  destruct (handle_rings num_wgs b Hb Hcus Hblocks r y j p Hr Hp Hy) as (Hj & h' & Eh' & Hq' & Hs' & Hz').
  pose proof (holders_apart num_wgs b Hb Hcus p x y i j Hp Hxy Hx Hy) as Hij.
  exists h, h'. split; [done|]. split; [done|]. rewrite Hq, Hq', Hs, Hs', Hz, Hz'. split_and!.
  - unfold ring_address, TOTAL_QUEUE_ELEMENTS, MAX_NUM_BLOCKS, QUEUE_SIZE, sizeof_queue_element_t in *. intros a c Ha Hc. split; nia.
  - unfold status_address, MAX_THREADS, MAX_NUM_BLOCKS, MAX_THREADS_PER_BLOCK in *. intros t t' Ht Ht'. split; nia.
  - by eapply one_worker.
Qed.

(** A queue is taken up where its last user left it. *)
Theorem write_idx_kept r i h r' :
  save_write_idx r i h = Ok r' → 0 ≤ i → is_Some (queues r !! Z.to_nat i) →
  ∃ h', ROContext_device r' i = Ok h' ∧ h_write_idx h' = h_write_idx h.
Proof.
  intros H Hi [q Hq]. unfold save_write_idx in H. apply bind_Ok_inv in H as (d & Hd & [= <-]).
  apply vec_at_inv in Hd as (k & -> & Hk). unfold ROContext_device, handle_for. cbn. rewrite Nat2Z.id in *.
  rewrite (vec_at_lookup _ k (mkDesc (desc_read_idx d) (h_write_idx h) (desc_status d)))
    by (apply list_lookup_insert_eq; by eapply lookup_lt_Some). cbn.
  rewrite (vec_at_lookup _ k q) by done. cbn. by eexists.
Qed.

(** ** Settings that do not fit *)

(** Called without a number of work-groups, for which the interface takes as many as the
    device holds, the constructor fails in the proxy of the profiler, whatever else. *)
Theorem default_init_fails :
  getenv "RO_NET_QUEUE_SIZE" = None →
  construct 0 = Fail AssertFailed.
Proof. intros Henv. unfold ROBackend_new, env_queue_size. by rewrite Henv. Qed.

(** The rings have 1024 elements each, whatever [RO_NET_QUEUE_SIZE] says: with more, element
    1024 of a ring is the first one of the next. *)
Theorem large_rings_overlap i :
  ring_address per_block_queue i + QUEUE_SIZE * sizeof_queue_element_t = ring_address per_block_queue (i + 1).
Proof. unfold ring_address. lia. Qed.

(** There are 32 windows, but [ctx_create] looks for one among [max_num_ctxs], by default
    the number of work-groups. *)
Theorem window_pool_too_small num_wgs b :
  construct num_wgs = Ok b →
  getenv "RO_NET_MAX_NUM_CONTEXTS" = None → 32 < num_wgs →
  Z.of_nat (length (reg_win_pool (reg b))) < max_num_ctxs (reg b).
Proof.
  intros Hb%construct_inv Henv Hw. destruct (wc_ctxs _ _ Hb) as [-> ->]. destruct (wc_elems _ _ Hb) as [_ He].
  unfold env_max_num_ctxs, MAX_NUM_CTXS, MAX_NUM_BLOCKS in *. rewrite Henv, swrap_small by lia. lia.
Qed.

(** All contexts return the results of atomics through the same words: the first atomic
    of one work-group and the first one of another have the same slot. *)
Theorem atomic_results_shared num_wgs b i j :
  construct num_wgs = Ok b →
  0 ≤ num_cus → num_wg b ≤ MAX_NUM_BLOCKS → 0 ≤ i < num_wg b → 0 ≤ j < num_wg b →
  ∃ h h', ROContext_device (reg b) i = Ok h ∧ ROContext_device (reg b) j = Ok h' ∧
    ∀ pe ipc win g, (next_atomic (mkROContext pe ipc win (h_atomic_base_ptr h) (h_atomic_counter h) g)).1 =
                    (next_atomic (mkROContext pe ipc win (h_atomic_base_ptr h') (h_atomic_counter h') g)).1.
Proof.
  intros Hb%construct_inv Hcus Hblocks Hi Hj.
  destruct (handle_of_buffer num_wgs b Hb Hblocks i (reg_atomic_counter (reg b)) true Hi) as (h & E & _ & _ & _ & _ & _ & A & C).
  destruct (handle_of_buffer num_wgs b Hb Hblocks j (reg_atomic_counter (reg b)) true Hj) as (h' & E' & _ & _ & _ & _ & _ & A' & C').
  exists h, h'. split; [exact E|]. split; [exact E'|]. intros. by rewrite A, A', C, C'.
Qed.

(** Without workers nobody serves the rings; the constructor accepts it. *)
Theorem no_workers num_wgs b :
  construct num_wgs = Ok b →
  getenv "RO_NET_NUM_THREADS" = Some 0 → worker_threads b = [].
Proof.
  intros Hb%construct_inv Henv. rewrite (wc_workers _ _ Hb).
  destruct (wc_threads _ _ Hb) as [-> _]. unfold env_num_threads. by rewrite Henv.
Qed.
End constructed.

(** The first of two processes, with two work-groups on a small device. *)
Definition demo_registration : Registration := {|
  ibv_reg_mr _ _ _ := None; hdp_flush_ptr := 0; atomic_region := 2 ^ 21; heap_malloc _ := 4096
|}.
Definition demo_register : BackendRegister :=
  mkRegister (QueueProxy_new (2 ^ 22)) (QueueDescProxy_new (2 ^ 36)) 1 false 64 4096 (ContextPoolProxy_new 4096 100) (2 ^ 21) 0
    true 2 WinPoolBitmaskProxy_new.
Definition demo_backend : ROBackend :=
  mkROBackend 3 (default_ctx_tokens 3) 2 demo_register (demo_ipc 0) (initTransport 3)
    (mkHandle (2 ^ 22 + 2 * QUEUE_SIZE * sizeof_queue_element_t) 0 0 64 (2 ^ 36 + 2 * MAX_THREADS_PER_BLOCK) 4096 (2 ^ 21) 0 false)
    [0].

Lemma demo_default : ROContext_host demo_register 3 = Ok (default_ctx demo_backend).
Proof.
  unfold ROContext_host, handle_for, demo_register, QueueDescProxy_new, QueueProxy_new. cbn [queue_descs queues].
  rewrite !seqZ_vec_at by (unfold MAX_NUM_BLOCKS; lia). reflexivity.
Qed.

Lemma demo_constructed :
  ROBackend_new (P := demo_world 0) (R := demo_registration) (λ _, None) 1 (demo_gather 0) 0 2 0 [4096; 8192]
    4096 100 (2 ^ 22) (2 ^ 36) (2 ^ 21) 0 2 = Ok demo_backend.
Proof.
  rewrite (construct_intro (P := demo_world 0) (R := demo_registration) (λ _, None) 1 (demo_gather 0) 0 2 0 [4096; 8192]
    4096 100 (2 ^ 22) (2 ^ 36) (2 ^ 21) 0 2 64 (demo_ipc 0) 4096 (default_ctx demo_backend));
    [done|vm_compute; split; congruence|done..|exact demo_default|done].
Qed.

Lemma contexts_own_rings_witness :
  ∃ h h', handle_in_use demo_backend demo_register (Group 7) 1 = Ok h ∧
    handle_in_use demo_backend demo_register Default 2 = Ok h' ∧ h_status h + 3 ≠ h_status h' + 5.
Proof.
  destruct (contexts_own_rings (P := demo_world 0) (R := demo_registration) (λ _, None) 1 (demo_gather 0) 0 2 0 [4096; 8192]
    4096 100 (2 ^ 22) (2 ^ 36) (2 ^ 21) 0 2 demo_backend demo_register two_groups (Group 7) Default 1 2 demo_constructed)
    as (h & h' & E & E' & _ & Hs & _).
  - lia.
  - cbn [num_wg demo_backend]. unfold MAX_NUM_BLOCKS. lia.
  - cbn [reg demo_backend reg_queue_size demo_register]. unfold QUEUE_SIZE. lia.
  - cbn [reg demo_backend num_threads demo_register]. lia.
  - exact two_groups_reached.
  - apply rtc_refl.
  - discriminate.
  - reflexivity.
  - reflexivity.
  - exists h, h'. split; [exact E|]. split; [exact E'|]. apply Hs; unfold MAX_THREADS_PER_BLOCK; lia.
Defined.
