(* ===== verification/Lifecycle.v ===== *)
(** * Threads of the reverse-offload backend

    The threads on the host from construction to destruction: the one that calls
    [ROBackend::ROBackend] and [ROBackend::ro_net_free_runtime], the workers in
    [ROBackend::ro_net_poll] ([reverse_offload/backend_ro.cpp]) and the engine in
    [MPITransport::threadProgressEngine] ([reverse_offload/mpi_transport.cpp]), as a step
    relation over the flags they share, the rings and the one [queue_element_cache_].
    Commands are numbers here, a ring is the list of all slots ever published, and the
    device publishes a slot in one step: what happens within a slot and within the
    transport is the subject of [ROQueue.v] and [Progress.v].  Shown: nothing gets stuck,
    the teardown ends in every run with all threads stopped, when no command is lost or
    done twice on the way and when some are, and which ones are left behind. *)
From S2P Require Import Prelude ROQueue.

Local Open Scope Z_scope.

(** ** State *)

(** Where a worker is in [ro_net_process_queue]: before the copy into the cache, the test
    of the flag, [insertRequest], the reset of the flag, the increment of the read index. *)
Inductive visit_pc := VFetch | VTest | VInsert | VClear | VAdvance.

(** A worker before [while (!bp->done_flag)], at queue [i] with [req_count] calls done, or
    returned. *)
Inductive worker_pc := WTest | WVisit (i : Z) (req_count : nat) (v : visit_pc) | WExit.

(** The engine before [transport_up = true], before the test, before
    [submitRequestsToMPI], before [progress], before [transport_up = false], returned. *)
Inductive engine_pc := EStart | ETest | ESubmit | EProgress | EDown | EExit.

(** The main thread: before the engine starts, waiting for it, starting worker [k], with
    the backend in use, joining worker [k], waiting for the engine to go down, joining
    it, done. *)
Inductive main_pc := MStart | MWaitUp | MSpawn (k : nat) | MRun | MJoin (k : nat) | MWaitDown | MJoinEngine | MDone.

#[export] Instance visit_pc_eq_dec : EqDecision visit_pc.
Proof. solve_decision. Defined.
#[export] Instance worker_pc_eq_dec : EqDecision worker_pc.
Proof. solve_decision. Defined.
#[export] Instance engine_pc_eq_dec : EqDecision engine_pc.
Proof. solve_decision. Defined.
#[export] Instance main_pc_eq_dec : EqDecision main_pc.
Proof. solve_decision. Defined.

(** A ring: the commands in the order of their slots, each with its valid flag, and
    [read_idx] of its descriptor. *)
Record ring := mkRing { slots : list (Z * bool); ring_read : nat }.

Definition ring_cmds (r : ring) : list Z := (slots r).*1.

(** [l_cache]: the element in [queue_element_cache_], when it is valid; [l_q]: the commands
    that were passed to the transport; [l_req_vec]: those given to MPI; [completed]: those
    that are complete. *)
Record life := mkLife {
  main : main_pc;
  l_done_flag : bool;
  transport_up : bool;
  l_workers : list worker_pc;
  l_engine : option engine_pc;
  rings : list ring;
  l_cache : option Z;
  l_q : list Z;
  l_req_vec : list Z;
  completed : list Z
}.

Section threads.
Context (gpu_queue : bool) (num_threads : nat) (num_wg : Z).

(** ** The threads *)

Definition set_main (s : life) (m : main_pc) : life :=
  mkLife m (l_done_flag s) (transport_up s) (l_workers s) (l_engine s) (rings s) (l_cache s) (l_q s) (l_req_vec s) (completed s).

(** [MPITransport::initTransport]: starts the engine, then waits for it. *)
Definition initTransport_step (s : life) : option life :=
  match main s with
  | MStart =>
      Some (mkLife MWaitUp (l_done_flag s) false (l_workers s) (Some EStart) (rings s) (l_cache s) (l_q s) (l_req_vec s) (completed s))
  | MWaitUp => if transport_up s then Some (set_main s (MSpawn 0)) else None
  | _ => None
  end.

(** The loop of the constructor that starts the workers. *)
Definition spawn_step (s : life) : option life :=
  match main s with
  | MSpawn k =>
      if (k <? num_threads)%nat then
        Some (mkLife (MSpawn (S k)) (l_done_flag s) (transport_up s) (l_workers s ++ [WTest]) (l_engine s) (rings s)
                (l_cache s) (l_q s) (l_req_vec s) (completed s))
      else Some (set_main s MRun)
  | _ => None
  end.

(** [ro_net_free_runtime]: sets the flag, joins the workers, waits until [readyForFinalize],
    and joins the engine in [finalizeTransport]. *)
Definition free_runtime_step (s : life) : option life :=
  match main s with
  | MRun =>
      Some (mkLife (MJoin 0) true (transport_up s) (l_workers s) (l_engine s) (rings s) (l_cache s) (l_q s) (l_req_vec s) (completed s))
  | MJoin k =>
      if (k <? num_threads)%nat then
        match l_workers s !! k with Some WExit => Some (set_main s (MJoin (S k))) | _ => None end
      else Some (set_main s MWaitDown)
  | MWaitDown => if transport_up s then None else Some (set_main s MJoinEngine)
  | MJoinEngine => if decide (l_engine s = Some EExit) then Some (set_main s MDone) else None
  | _ => None
  end.

(** The main thread; [None] while it waits. *)
Definition main_advance (s : life) : option life :=
  match main s with
  | MStart | MWaitUp => initTransport_step s
  | MSpawn _ => spawn_step s
  | _ => free_runtime_step s
  end.

Definition set_worker (s : life) (k : nat) (w : worker_pc) (rs : list ring) (cache : option Z) (q : list Z) : life :=
  mkLife (main s) (l_done_flag s) (transport_up s) (<[k := w]> (l_workers s)) (l_engine s) rs cache q (l_req_vec s)
    (completed s).

(** The element in the slot at the read index, when it is valid. *)
Definition at_read_idx (r : ring) : option Z :=
  match slots r !! ring_read r with Some (x, true) => Some x | _ => None end.

(** [next_element]: a pointer to the cache, or to the slot. *)
Definition the_next (s : life) (r : ring) : option Z :=
  if gpu_queue then l_cache s else at_read_idx r.

(** [valid = 0] of the slot at the read index, and [read_idx++]. *)
Definition clear_slot (r : ring) : ring := mkRing (alter (λ p, (p.1, false)) (ring_read r) (slots r)) (ring_read r).
Definition advance_idx (r : ring) : ring := mkRing (slots r) (S (ring_read r)).

(** The [for] loop of [ro_net_poll] at queue [i]. *)
Definition for_queues (i : Z) : worker_pc := if i <? num_wg then WVisit i 0 VFetch else WTest.

(** [ro_net_poll] of worker [k], one access to shared memory at a time. *)
Definition worker_advance (k : nat) (s : life) : option life :=
  w ← l_workers s !! k;
  match w with
  | WTest =>
      Some (set_worker s k (if l_done_flag s then WExit else for_queues (Z.of_nat k)) (rings s) (l_cache s) (l_q s))
  | WVisit i c v =>
      let next_queue := for_queues (i + Z.of_nat num_threads) in
      r ← rings s !! Z.to_nat i;
      match v with
      | VFetch =>
          Some (set_worker s k (WVisit i c VTest) (rings s) (if gpu_queue then at_read_idx r else l_cache s) (l_q s))
      | VTest =>
          Some (set_worker s k (match the_next s r with Some _ => WVisit i c VInsert | None => next_queue end)
                  (rings s) (l_cache s) (l_q s))
      | VInsert =>
          Some (set_worker s k (WVisit i c VClear) (rings s) (l_cache s)
                  (l_q s ++ match the_next s r with Some x => [x] | None => [] end))
      | VClear => Some (set_worker s k (WVisit i c VAdvance) (<[Z.to_nat i := clear_slot r]> (rings s)) (l_cache s) (l_q s))
      | VAdvance =>
          Some (set_worker s k (if (S c <? 64)%nat then WVisit i (S c) VFetch else next_queue)
                  (<[Z.to_nat i := advance_idx r]> (rings s)) (l_cache s) (l_q s))
      end
  | WExit => None
  end.

Definition set_engine (s : life) (up : bool) (e : engine_pc) (q req_vec completed : list Z) : life :=
  mkLife (main s) (l_done_flag s) up (l_workers s) (Some e) (rings s) (l_cache s) q req_vec completed.

(** [threadProgressEngine]; [progress] finds the requests at [found] complete. *)
Definition engine_advance (found : list Z) (s : life) : option life :=
  e ← l_engine s;
  match e with
  | EStart => Some (set_engine s true ETest (l_q s) (l_req_vec s) (completed s))
  | ETest => Some (set_engine s (transport_up s) (if l_done_flag s then EDown else ESubmit) (l_q s) (l_req_vec s) (completed s))
  | ESubmit =>
      Some (match l_q s with
            | [] => set_engine s (transport_up s) EProgress [] (l_req_vec s) (completed s)
            | x :: q => set_engine s (transport_up s) EProgress q (l_req_vec s ++ [x]) (completed s)
            end)
  | EProgress =>
      Some (set_engine s (transport_up s) ETest (l_q s) (filter (λ x, x ∉ found) (l_req_vec s))
              (completed s ++ filter (λ x, x ∈ found) (l_req_vec s)))
  | EDown => Some (set_engine s false EExit (l_q s) (l_req_vec s) (completed s))
  | EExit => None
  end.

(** Steps; the device adds commands while the backend is in use. *)
Inductive lstep : life → life → Prop :=
  | l_main s s' : main_advance s = Some s' → lstep s s'
  | l_worker k s s' : worker_advance k s = Some s' → lstep s s'
  | l_eng found s s' : engine_advance found s = Some s' → lstep s s'
  | l_device s i r x :
      main s = MRun → rings s !! i = Some r →
      lstep s (mkLife (main s) (l_done_flag s) (transport_up s) (l_workers s) (l_engine s)
                 (<[i := mkRing (slots r ++ [(x, true)]) (ring_read r)]> (rings s)) (l_cache s)
                 (l_q s) (l_req_vec s) (completed s)).

Definition life_init : life :=
  mkLife MStart false false [] None (replicate (Z.to_nat num_wg) (mkRing [] 0)) None [] [] [].

(** ** Invariant *)

(** Whether the engine has said that it is up. *)
Definition engine_up (e : option engine_pc) : bool :=
  match e with Some (ETest | ESubmit | EProgress | EDown) => true | _ => false end.

Record life_ok (s : life) : Prop := {
  lo_engine : l_engine s = None ↔ main s = MStart;
  lo_up : transport_up s = engine_up (l_engine s);
  lo_flag : l_done_flag s = match main s with MJoin _ | MWaitDown | MJoinEngine | MDone => true | _ => false end;
  lo_running : l_done_flag s = false → l_engine s ≠ Some EDown ∧ l_engine s ≠ Some EExit ∧ WExit ∉ l_workers s;
  lo_workers : length (l_workers s) = match main s with
    | MStart | MWaitUp => 0%nat | MSpawn k => k | _ => num_threads end;
  lo_spawn : ∀ k, main s = MSpawn k → (k ≤ num_threads)%nat;
  lo_started : match main s with MStart | MWaitUp => True | _ => l_engine s ≠ Some EStart end;
  lo_joined : match main s with
    | MJoin k => (k ≤ num_threads)%nat ∧ ∀ j, (j < k)%nat → l_workers s !! j = Some WExit
    | MWaitDown | MJoinEngine | MDone => ∀ j, (j < num_threads)%nat → l_workers s !! j = Some WExit
    | _ => True end;
  lo_down : match main s with MJoinEngine => l_engine s = Some EExit | MDone => l_engine s = Some EExit | _ => True end;
  lo_rings : length (rings s) = Z.to_nat num_wg;
  lo_visit : ∀ k i c v, l_workers s !! k = Some (WVisit i c v) →
    0 ≤ i < num_wg ∧ i `mod` Z.of_nat num_threads = Z.of_nat k ∧ (c < 64)%nat
}.

#[local] Arguments Nat.ltb : simpl never.

Lemma life_init_ok : life_ok life_init.
Proof.
  split; cbn; try done.
  - intros _. split_and!; [done|done|set_solver].
  - by rewrite length_replicate.
Qed.

(** The engine stays started, once it is. *)
Ltac life_split H1 := split; cbn; try done; try (by split; intros; simplify_eq); try (by split; [intros E; apply H1 in E|]).

Lemma main_ok s s' : life_ok s → main_advance s = Some s' → life_ok s'.
Proof.
  intros [H1 H2 H3 H4 H5 H6 H7 H8 H9 H10 H11] H. unfold main_advance, initTransport_step, spawn_step, free_runtime_step in H. destruct (main s) eqn:Em; cbn in *.
  - injection H as <-. life_split H1. intros Hf. split_and!; [done|done|]. by destruct (H4 Hf) as (_ & _ & ?).
  - destruct (transport_up s) eqn:Eu; [|done]. injection H as <-. life_split H1.
    + by rewrite Eu.
    + intros k [= <-]. lia.
    + intros E. by rewrite E in H2.
  - destruct (Nat.ltb_spec k num_threads); injection H as <-; life_split H1.
    + intros Hf. destruct (H4 Hf) as (? & ? & ?). split_and!; [done|done|set_solver].
    + rewrite length_app, H5. cbn. lia.
    + intros k' [= <-]. lia.
    + intros j i c v [Hl|[Hj Hl]]%lookup_app_Some; [by eapply H11|]. destruct (j - _)%nat; by cbn in Hl.
    + rewrite H5. specialize (H6 k eq_refl). lia.
  - injection H as <-. life_split H1. split; [lia|]. intros j Hj. lia.
  - destruct (Nat.ltb_spec k num_threads).
    + destruct (l_workers s !! k) as [[]|] eqn:Ew; try done. injection H as <-. life_split H1.
      destruct H8 as [_ H8]. split; [lia|]. intros j Hj. destruct (decide (j = k)) as [->|]; [done|]. apply H8. lia.
    + injection H as <-. life_split H1. destruct H8 as [Hk H8]. intros j Hj. apply H8. lia.
  - destruct (transport_up s) eqn:Eu; [done|]. injection H as <-. life_split H1.
    + by rewrite Eu.
    + destruct (l_engine s) as [[]|] eqn:Ee; try done. discriminate (proj1 H1 eq_refl).
  - case_decide; [|done]. injection H as <-. life_split H1.
  - done.
Qed.

(** A worker that has not returned goes on, to return only after [done_flag]. *)
Lemma set_worker_ok s k w w' rs ca q :
  life_ok s → l_workers s !! k = Some w → w ≠ WExit → (w' = WExit → l_done_flag s = true) →
  (∀ i c v, w' = WVisit i c v → 0 ≤ i < num_wg ∧ i `mod` Z.of_nat num_threads = Z.of_nat k ∧ (c < 64)%nat) →
  length rs = length (rings s) → life_ok (set_worker s k w' rs ca q).
Proof.
  intros [H1 H2 H3 H4 H5 H6 H7 H8 H9 H10 H11] Ew Hw Hx Hv Hl.
  assert (∀ j, l_workers s !! j = Some WExit → (<[k := w']> (l_workers s)) !! j = Some WExit) as Hkeep.
  { intros j Hj. rewrite list_lookup_insert_ne; [done|]. intros ->. congruence. }
  split; cbn; try done.
  - intros Hf. destruct (H4 Hf) as (? & ? & Hn). split_and!; [done|done|].
    intros (j & Hj)%list_elem_of_lookup. apply list_lookup_insert_Some in Hj as [(_ & -> & _)|[_ Hj]].
    + rewrite Hx in Hf; done.
    + apply Hn. by eapply list_elem_of_lookup_2.
  - by rewrite length_insert.
  - destruct (main s); try done; [destruct H8 as [? H8]; split; [done|]|..]; intros j Hj; apply Hkeep, H8, Hj.
  - congruence.
  - intros j i c v Hj. apply list_lookup_insert_Some in Hj as [(-> & -> & _)|[_ Hj]]; [by eapply Hv|by eapply H11].
Qed.

(** The queues of a worker. *)
Lemma for_queues_visit i j c v :
  for_queues i = WVisit j c v → j = i ∧ c = 0%nat ∧ v = VFetch ∧ i < num_wg.
Proof. unfold for_queues. destruct (Z.ltb_spec i num_wg); [|done]. by intros [= <- <- <-]. Qed.

Lemma worker_lt s k w : life_ok s → l_workers s !! k = Some w → (k < num_threads)%nat.
Proof.
  intros Hok Hk%lookup_lt_Some. pose proof (lo_workers _ Hok) as Hl. pose proof (lo_spawn _ Hok) as Hs.
  destruct (main s); try lia. specialize (Hs _ eq_refl). lia.
Qed.

(** The queue after [i] in its round. *)
Lemma next_queue_visit s k i c v :
  life_ok s → l_workers s !! k = Some (WVisit i c v) → ∀ i' c' v',
  for_queues (i + Z.of_nat num_threads) = WVisit i' c' v' →
  0 ≤ i' < num_wg ∧ i' `mod` Z.of_nat num_threads = Z.of_nat k ∧ (c' < 64)%nat.
Proof.
  intros Hok Ew i' c' v' (-> & -> & _ & Hlt)%for_queues_visit.
  destruct (lo_visit _ Hok k i c v Ew) as (Hi & Hm & _). pose proof (worker_lt _ _ _ Hok Ew).
  split_and!; [lia|lia| |lia].
  rewrite <- Hm, <- (Z_mod_plus_full i 1). f_equal. lia.
Qed.

Lemma worker_ok k s s' : life_ok s → worker_advance k s = Some s' → life_ok s'.
Proof.
  intros Hok H. unfold worker_advance in H. destruct (l_workers s !! k) as [w|] eqn:Ew; [|done]. cbn in H.
  pose proof (worker_lt _ _ _ Hok Ew) as Hk. destruct w as [|i c v|]; [| |done].
  - injection H as <-. eapply set_worker_ok; try done.
    + unfold for_queues. by destruct (l_done_flag s); [|destruct (_ <? _)].
    + intros i c v. destruct (l_done_flag s); [done|]. intros (-> & -> & _ & Hlt)%for_queues_visit.
      split_and!; [lia|lia|apply Z.mod_small; lia|lia].
  - destruct (rings s !! Z.to_nat i) as [r|] eqn:Er; [|done]. cbn in H.
    pose proof (next_queue_visit s k i c v Hok Ew) as Hnext. pose proof (lo_visit _ Hok k i c v Ew) as Hv.
    assert (for_queues (i + Z.of_nat num_threads) ≠ WExit) as Hx by (unfold for_queues; by destruct (_ <? _)).
    destruct v; injection H as <-; eapply set_worker_ok; rewrite ?length_insert; try done;
      try (by intros ? ? ? [= <- <- <-]).
    + by case_match.
    + case_match; [by intros ? ? ? [= <- <- <-]|done].
    + by case_match.
    + destruct (Nat.ltb_spec (S c) 64); [|done]. intros ? ? ? [= <- <- <-]. split_and!; [lia|lia|apply Hv|lia].
Qed.

Lemma set_engine_ok s e up e' q req_vec comp :
  life_ok s → l_engine s = Some e → e ≠ EExit → up = engine_up (Some e') →
  (e' = EDown ∨ e' = EExit → l_done_flag s = true) → e' ≠ EStart → life_ok (set_engine s up e' q req_vec comp).
Proof.
  intros [H1 H2 H3 H4 H5 H6 H7 H8 H9 H10 H11] Ee He Hup Hd Hs. rewrite Ee in *.
  split; cbn; try done.
  - split; [done|]. intros E. by apply H1 in E.
  - intros Hf. destruct (H4 Hf) as (_ & _ & ?). split_and!; [intros [= ->]|intros [= ->]|done]; rewrite Hd in Hf; auto; done.
  - destruct (main s); try done; by intros [= ->].
  - destruct (main s); try done; by injection H9 as ->.
Qed.

Lemma engine_ok found s s' : life_ok s → engine_advance found s = Some s' → life_ok s'.
Proof.
  intros Hok H. pose proof (lo_up _ Hok) as Hup. pose proof (lo_running _ Hok) as Hrun.
  unfold engine_advance in H. destruct (l_engine s) as [e|] eqn:Ee; [|done]. cbn in H, Hup.
  destruct e; try done; try injection H as <-.
  - eapply set_engine_ok; try done. by intros [].
  - eapply set_engine_ok; try done; [by destruct (l_done_flag s)|by destruct (l_done_flag s); [|intros []]|by destruct (l_done_flag s)].
  - destruct (l_q s); (eapply set_engine_ok; try done; by intros []).
  - eapply set_engine_ok; try done. by intros [].
  - eapply set_engine_ok; try done. intros _. destruct (l_done_flag s); [done|]. by destruct (Hrun eq_refl).
Qed.

Lemma lstep_ok s s' : lstep s s' → life_ok s → life_ok s'.
Proof.
  intros Hs Hok. destruct Hs as [s s' H|k s s' H|found s s' H|s i r x Hm Hr].
  - by eapply main_ok.
  - by eapply worker_ok.
  - by eapply engine_ok.
  - destruct Hok as [H1 H2 H3 H4 H5 H6 H7 H8 H9 H10 H11]. split; cbn; try done. by rewrite length_insert.
Qed.

Lemma life_reachable s : rtc lstep life_init s → life_ok s.
Proof. revert s. apply rtc_invariant; [apply life_init_ok|apply lstep_ok]. Qed.

(** ** The teardown *)

(** The steps of a call that are behind the worker. *)
Definition visit_done (v : visit_pc) : Z :=
  match v with VFetch => 0 | VTest => 1 | VInsert => 2 | VClear => 3 | VAdvance => 4 end.
(** At most 64 calls of five steps for each queue of the round. *)
Definition worker_left (w : worker_pc) : Z :=
  match w with
  | WTest => 1
  | WVisit i c v => 1 + 320 * (num_wg - i) - (5 * Z.of_nat c + visit_done v)
  | WExit => 0
  end.
Definition engine_left (e : option engine_pc) : Z :=
  match e with Some EStart => 5 | Some ESubmit => 4 | Some EProgress => 3 | Some ETest => 2 | Some EDown => 1 | _ => 0 end.
Definition main_left (m : main_pc) : Z :=
  match m with MJoin k => 3 + Z.of_nat (num_threads - k) | MWaitDown => 2 | MJoinEngine => 1 | _ => 0 end.
Definition life_left (s : life) : Z :=
  main_left (main s) + zsum worker_left (l_workers s) + engine_left (l_engine s).

Lemma life_left_nonneg s : life_ok s → 0 ≤ life_left s.
Proof.
  intros Hok. unfold life_left.
  assert (0 ≤ zsum worker_left (l_workers s)).
  { apply zsum_nonneg, Forall_lookup. intros k w Hw. destruct w as [|i c v|]; cbn [worker_left]; [lia| |lia].
    pose proof (lo_visit _ Hok k i c v Hw). destruct v; cbn [visit_done]; lia. }
  assert (0 ≤ main_left (main s) ∧ 0 ≤ engine_left (l_engine s)) as [? ?]; [|lia].
  split; [destruct (main s); cbn; lia|destruct (l_engine s) as [[]|]; cbn; lia].
Qed.

Lemma teardown_step s s' :
  life_ok s → l_done_flag s = true → lstep s s' → l_done_flag s' = true ∧ life_left s' < life_left s.
Proof.
  intros Hok Hf Hs. pose proof (lo_flag _ Hok) as Hm. rewrite Hf in Hm. unfold life_left.
  destruct Hs as [s s' H|k s s' H|found s s' H|s i r x Hr _].
  - unfold main_advance, initTransport_step, spawn_step, free_runtime_step in H. destruct (main s) eqn:Em; try done; cbn [main_left].
    + destruct (Nat.ltb_spec k num_threads); [|injection H as <-; split; [done|cbn; lia]].
      destruct (l_workers s !! k) as [[]|]; try done. injection H as <-.
      split; [done|]. cbn [set_main main l_workers l_engine main_left]. lia.
    + destruct (transport_up s); [done|]. injection H as <-. split; [done|cbn; lia].
    + case_decide; [|done]. injection H as <-. split; [done|cbn; lia].
  - unfold worker_advance in H. destruct (l_workers s !! k) as [w|] eqn:Ew; [|done]. cbn in H.
    assert (∀ w' rs ca q, worker_left w' < worker_left w → l_done_flag (set_worker s k w' rs ca q) = true ∧
      main_left (main s) + zsum worker_left (<[k := w']> (l_workers s)) + engine_left (l_engine s) <
      main_left (main s) + zsum worker_left (l_workers s) + engine_left (l_engine s)) as Hset.
    { intros w' rs ca q Hlt. split; [done|]. rewrite (zsum_insert _ _ _ _ _ Ew). lia. }
    pose proof (worker_lt _ _ _ Hok Ew) as Hk. destruct w as [|i c v|]; [| |done].
    + injection H as <-. rewrite Hf. apply Hset. cbn. lia.
    + destruct (rings s !! Z.to_nat i) as [r|]; [|done]. cbn in H.
      pose proof (lo_visit _ Hok k i c v Ew) as (Hi & _ & Hc).
      assert (worker_left (for_queues (i + Z.of_nat num_threads)) < worker_left (WVisit i c v)) as Hnext.
      { unfold for_queues. destruct (Z.ltb_spec (i + Z.of_nat num_threads) num_wg); destruct v;
          cbn [worker_left visit_done]; lia. }
      destruct v; injection H as <-; apply Hset; repeat case_match; try done; cbn [worker_left visit_done]; lia.
  - unfold engine_advance in H. destruct (l_engine s) as [e|] eqn:Ee; [|done]. cbn in H.
    destruct e; try done; [..|destruct (l_q s)| |]; injection H as <-; (split; [done|cbn; rewrite ?Hf; cbn; lia]).
  - by rewrite Hr in Hm.
Qed.

Lemma teardown_bounded k s s' :
  life_ok s → l_done_flag s = true → nsteps lstep k s s' → Z.of_nat k + life_left s' ≤ life_left s ∧ life_ok s'.
Proof.
  intros Hok Hf H. revert Hok Hf. induction H as [s|k s1 s2 s3 Hs H IH]; intros Hok Hf; [split; [lia|done]|].
  destruct (teardown_step _ _ Hok Hf Hs) as [Hf2 Hlt]. destruct (IH (lstep_ok _ _ Hs Hok) Hf2) as [Hk ?]. split; [lia|done].
Qed.

(** Somebody can go on until everything is joined. *)
Lemma life_not_stuck s : life_ok s → main s = MDone ∨ ∃ s', lstep s s'.
Proof.
  intros Hok. destruct Hok as [H1 H2 H3 H4 H5 H6 H7 H8 H9 H10 H11].
  assert (∀ e, l_engine s = Some e → e ≠ EExit → ∃ s', lstep s s') as Heng.
  { intros e Ee He. destruct (engine_advance [] s) as [s'|] eqn:E; [eexists; by eapply l_eng|].
    unfold engine_advance in E. rewrite Ee in E. cbn in E. by destruct e. }
  assert (∀ k w, l_workers s !! k = Some w → w ≠ WExit → ∃ s', lstep s s') as Hwork.
  { intros k w Ew Hw. destruct (worker_advance k s) as [s'|] eqn:E; [eexists; by eapply l_worker|].
    unfold worker_advance in E. rewrite Ew in E. cbn in E. destruct w as [|i c v|]; [done| |done].
    destruct (lookup_lt_is_Some_2 (rings s) (Z.to_nat i)) as [r Hr]; [specialize (H11 k i c v Ew); lia|].
    rewrite Hr in E. by destruct v. }
  destruct (main_advance s) as [s'|] eqn:E; [right; eexists; by eapply l_main|].
  unfold main_advance, initTransport_step, spawn_step, free_runtime_step in E. destruct (main s) eqn:Em; try done; [| | | | |by left]; right.
  - destruct (transport_up s); [done|]. destruct (l_engine s) as [e|] eqn:Ee; [|discriminate (proj1 H1 eq_refl)].
    apply (Heng e eq_refl). intros ->. by destruct (H4 H3) as (_ & ? & _).
  - by destruct (k <? num_threads)%nat.
  - destruct (Nat.ltb_spec k num_threads); [|done].
    destruct (lookup_lt_is_Some_2 (l_workers s) k) as [w Hw]; [lia|]. apply (Hwork k w Hw). intros ->. by rewrite Hw in E.
  - destruct (transport_up s) eqn:Eu; [|done]. destruct (l_engine s) as [e|] eqn:Ee; [|done].
    apply (Heng e eq_refl). intros ->. done.
  - by rewrite decide_True in E.
Qed.

(** ** The commands *)

(** What the transport has: its queue, the outstanding requests, the completed ones. *)
Definition in_transport (s : life) : list Z := l_q s ++ l_req_vec s ++ completed s.

(** Whether a worker has passed on the command at the read index of queue [i] and not yet
    counted it, and whether it has reset the flag. *)
Definition hand_of (w : worker_pc) (i : nat) : nat :=
  match w with WVisit j _ (VClear | VAdvance) => if j =? Z.of_nat i then 1 else 0 | _ => 0 end.
Definition cleared_of (w : worker_pc) (i : nat) : nat :=
  match w with WVisit j _ VAdvance => if j =? Z.of_nat i then 1 else 0 | _ => 0 end.

(** Queue [i] belongs to worker [i mod num_threads]. *)
Definition of_worker (f : worker_pc → nat → nat) (s : life) (i : nat) : nat :=
  match l_workers s !! (i `mod` num_threads)%nat with Some w => f w i | None => 0%nat end.
Definition in_hand := of_worker hand_of.
Definition cleared := of_worker cleared_of.

(** The commands of a ring that have been passed on, and those of all rings. *)
Definition passed (s : life) (i : nat) (r : ring) : list Z := take (ring_read r + in_hand s i) (ring_cmds r).
Definition all_passed (s : life) : list (list Z) := imap (passed s) (rings s).

(** Nobody else writes the cache while a worker uses it. *)
Definition own_cache : Prop := gpu_queue = false ∨ (num_threads ≤ 1)%nat.

(** The flags of a ring. *)
Definition ring_ok (s : life) (i : nat) (r : ring) : Prop :=
  (ring_read r + in_hand s i ≤ length (slots r))%nat ∧
  ∀ j x b, slots r !! j = Some (x, b) → b = bool_decide (ring_read r + cleared s i ≤ j)%nat.

(** What a worker has read. *)
Definition worker_read (s : life) (v : visit_pc) (r : ring) : Prop :=
  match v with
  | VTest => gpu_queue = true → is_Some (l_cache s) → l_cache s = at_read_idx r
  | VInsert => the_next s r = at_read_idx r ∧ is_Some (at_read_idx r)
  | _ => True
  end.

Record cmds_ok (s : life) : Prop := {
  co_rings : ∀ i r, rings s !! i = Some r → ring_ok s i r;
  co_passed : in_transport s ≡ₚ concat (all_passed s);
  co_read : ∀ k i c v r, l_workers s !! k = Some (WVisit i c v) → rings s !! Z.to_nat i = Some r → worker_read s v r
}.

Lemma filter_split_perm (f : list Z) (l : list Z) : filter (λ x, x ∉ f) l ++ filter (λ x, x ∈ f) l ≡ₚ l.
Proof.
  induction l as [|x l IH]; [done|]. rewrite !filter_cons. destruct (decide (x ∈ f)).
  - rewrite decide_False by (intros Hn; by apply Hn). by rewrite <- Permutation_middle, IH.
  - rewrite decide_True by done. cbn. by rewrite IH.
Qed.

Lemma concat_insert_snoc (l : list (list Z)) i b x :
  l !! i = Some b → concat (<[i := b ++ [x]]> l) ≡ₚ concat l ++ [x].
Proof.
  intros Hi. rewrite <- (take_drop_middle l i b Hi) at 2.
  rewrite insert_take_drop by (by eapply lookup_lt_Some). rewrite !concat_app. cbn. solve_Permutation.
Qed.

Lemma all_passed_lookup s i : all_passed s !! i = passed s i <$> rings s !! i.
Proof. apply list_lookup_imap. Qed.

Lemma all_passed_same s s' :
  (∀ i, passed s' i <$> rings s' !! i = passed s i <$> rings s !! i) → all_passed s' = all_passed s.
Proof. intros H. apply list_eq. intros i. by rewrite !all_passed_lookup. Qed.

(** A worker goes on: what it does at queue [i], and nothing at the others. *)
Definition only_at (w : worker_pc) (i : nat) : Prop :=
  ∀ j, j ≠ i → hand_of w j = 0%nat ∧ cleared_of w j = 0%nat.

Lemma only_at_visit i c v : 0 ≤ i → only_at (WVisit i c v) (Z.to_nat i).
Proof. intros Hi j Hj. destruct v; cbn; rewrite ?(proj2 (Z.eqb_neq _ _)) by lia; done. Qed.

Lemma only_at_for i j : only_at (for_queues i) j.
Proof. intros j' _. unfold for_queues. by destruct (i <? num_wg). Qed.

Lemma of_worker_other f s k i w w' rs ca q :
  l_workers s !! k = Some w → f w i = 0%nat → f w' i = 0%nat →
  of_worker f (set_worker s k w' rs ca q) i = of_worker f s i.
Proof.
  intros Hw E E'. unfold of_worker. cbn. destruct (decide (k = i `mod` num_threads)%nat) as [<-|Hne].
  - rewrite list_lookup_insert_eq by (by eapply lookup_lt_Some). by rewrite Hw, E, E'.
  - by rewrite list_lookup_insert_ne.
Qed.

Lemma of_worker_at f s k i w w' rs ca q :
  l_workers s !! k = Some w → (i `mod` num_threads)%nat = k →
  of_worker f (set_worker s k w' rs ca q) i = f w' i ∧ of_worker f s i = f w i.
Proof.
  intros Hw <-. unfold of_worker. cbn. rewrite list_lookup_insert_eq by (by eapply lookup_lt_Some). by rewrite Hw.
Qed.

Lemma visit_mod s k i c v :
  life_ok s → l_workers s !! k = Some (WVisit i c v) → (Z.to_nat i `mod` num_threads)%nat = k.
Proof.
  intros Hok Hw. destruct (lo_visit _ Hok k i c v Hw) as (Hi & Hm & _). pose proof (worker_lt _ _ _ Hok Hw).
  apply Nat2Z.inj. rewrite Nat2Z.inj_mod, Z2Nat.id by lia. done.
Qed.

(** Two workers are at different queues. *)
Lemma visits_apart s k k' i i' c c' v v' :
  life_ok s → l_workers s !! k = Some (WVisit i c v) → l_workers s !! k' = Some (WVisit i' c' v') → k' ≠ k →
  Z.to_nat i' ≠ Z.to_nat i.
Proof.
  intros Hok Hw Hw' Hne E. apply Hne. rewrite <- (visit_mod _ _ _ _ _ Hok Hw), <- (visit_mod _ _ _ _ _ Hok Hw'). by rewrite E.
Qed.

(** A step of worker [k] at queue [i], from the facts about that queue and the cache. *)
Lemma visit_cmds_ok s k i c v r r' w' ca q :
  life_ok s → own_cache → cmds_ok s → l_workers s !! k = Some (WVisit i c v) → rings s !! Z.to_nat i = Some r →
  let s' := set_worker s k w' (<[Z.to_nat i := r']> (rings s)) ca q in
  only_at w' (Z.to_nat i) → (ca = l_cache s ∨ gpu_queue = true) → ring_ok s' (Z.to_nat i) r' →
  (passed s' (Z.to_nat i) r' = passed s (Z.to_nat i) r ∧ q = l_q s ∨
   ∃ x, passed s' (Z.to_nat i) r' = passed s (Z.to_nat i) r ++ [x] ∧ q = l_q s ++ [x]) →
  (∀ j c' v', w' = WVisit j c' v' → v' = VFetch ∨ j = i ∧ worker_read s' v' r') → cmds_ok s'.
Proof.
  intros Hok Hoc [Hrings Hpass Hread] Hw Hr s' Hat Hca Hring Hq Hv.
  destruct (lo_visit _ Hok k i c v Hw) as (Hi & _ & _). set (n := Z.to_nat i) in *.
  pose proof (only_at_visit i c v (proj1 Hi)) as Hat0. fold n in Hat0.
  assert (∀ j, j ≠ n → in_hand s' j = in_hand s j ∧ cleared s' j = cleared s j) as Hother.
  { intros j Hj. destruct (Hat j Hj), (Hat0 j Hj). unfold in_hand, cleared, s'.
    split; by eapply of_worker_other. }
  assert (∀ j, j ≠ n → rings s' !! j = rings s !! j) as Hrs by (intros j Hj; cbn; by rewrite list_lookup_insert_ne).
  assert (rings s' !! n = Some r') as Hrn by (cbn; by rewrite list_lookup_insert_eq by (by eapply lookup_lt_Some)).
  split.
  - intros j r0 Hj. destruct (decide (j = n)) as [->|Hne]; [rewrite Hrn in Hj; by injection Hj as <-|].
    rewrite Hrs in Hj by done. destruct (Hrings j r0 Hj) as [H1 H2]. destruct (Hother j Hne) as [E1 E2].
    split; [by rewrite E1|]. intros m x b Hm. rewrite E2. by eapply H2.
  - assert (∀ j, j ≠ n → passed s' j <$> rings s' !! j = passed s j <$> rings s !! j) as Hps.
    { intros j Hj. rewrite Hrs by done. unfold passed. by rewrite (proj1 (Hother j Hj)). }
    destruct Hq as [[Ep ->]|(x & Ep & ->)].
    + rewrite (all_passed_same s s'); [done|]. intros j. destruct (decide (j = n)) as [->|]; [|by apply Hps].
      by rewrite Hrn, Hr; cbn; rewrite Ep.
    + assert (all_passed s' = <[n := passed s n r ++ [x]]> (all_passed s)) as ->.
      { apply list_eq. intros j. destruct (decide (j = n)) as [->|Hj].
        - rewrite list_lookup_insert_eq, all_passed_lookup, Hrn; [cbn; by rewrite Ep|].
          apply (lookup_lt_Some _ _ (passed s n r)). by rewrite all_passed_lookup, Hr.
        - rewrite list_lookup_insert_ne, !all_passed_lookup by done. by apply Hps. }
      rewrite concat_insert_snoc by (by rewrite all_passed_lookup, Hr). rewrite <- Hpass.
      unfold in_transport. cbn. solve_Permutation.
  - intros k' i' c' v' r0 Hw' Hr0. cbn in Hw'. apply list_lookup_insert_Some in Hw' as [(-> & -> & _)|[Hne Hw']].
    + destruct (Hv _ _ _ eq_refl) as [->|[-> Hread']]; [done|]. fold n in Hr0. rewrite Hrn in Hr0. by injection Hr0 as <-.
    + pose proof (visits_apart _ _ _ _ _ _ _ _ _ Hok Hw Hw' (not_eq_sym Hne)) as Hq'.
      rewrite Hrs in Hr0 by done. pose proof (Hread _ _ _ _ _ Hw' Hr0) as Hrd.
      destruct Hoc as [Hg|HT].
      * unfold worker_read, the_next in *. rewrite Hg in *. by destruct v'.
      * pose proof (worker_lt _ _ _ Hok Hw). pose proof (worker_lt _ _ _ Hok Hw'). lia.
Qed.

Lemma visit_cmds_ok_same s k i c v r w' ca q :
  life_ok s → own_cache → cmds_ok s → l_workers s !! k = Some (WVisit i c v) → rings s !! Z.to_nat i = Some r →
  let s' := set_worker s k w' (rings s) ca q in
  only_at w' (Z.to_nat i) → (ca = l_cache s ∨ gpu_queue = true) → ring_ok s' (Z.to_nat i) r →
  (passed s' (Z.to_nat i) r = passed s (Z.to_nat i) r ∧ q = l_q s ∨
   ∃ x, passed s' (Z.to_nat i) r = passed s (Z.to_nat i) r ++ [x] ∧ q = l_q s ++ [x]) →
  (∀ j c' v', w' = WVisit j c' v' → v' = VFetch ∨ j = i ∧ worker_read s' v' r) → cmds_ok s'.
Proof.
  intros Hok Hoc Hco Hw Hr. pose proof (visit_cmds_ok s k i c v r r w' ca q Hok Hoc Hco Hw Hr) as H.
  cbv zeta in H. by rewrite list_insert_id in H.
Qed.

Lemma at_read_Some r x :
  at_read_idx r = Some x ↔ slots r !! ring_read r = Some (x, true).
Proof. unfold at_read_idx. destruct (slots r !! ring_read r) as [[y []]|]; naive_solver. Qed.

(** The steps of [ro_net_process_queue]. *)
Section visit.
Context (s : life) (k : nat) (i : Z) (c : nat) (v : visit_pc) (r : ring).
Context (Hok : life_ok s) (Hoc : own_cache) (Hco : cmds_ok s).
Context (Hw : l_workers s !! k = Some (WVisit i c v)) (Hr : rings s !! Z.to_nat i = Some r).

Let n := Z.to_nat i.
Let next_queue := for_queues (i + Z.of_nat num_threads).

Lemma visit_of f w' rs ca q :
  of_worker f (set_worker s k w' rs ca q) n = f w' n ∧ of_worker f s n = f (WVisit i c v) n.
Proof using Hok Hw. apply of_worker_at; [done|]. by eapply visit_mod. Qed.

Lemma visit_only w' : w' = next_queue ∨ (∃ c' v', w' = WVisit i c' v') → only_at w' n.
Proof using Hok Hw.
  pose proof (lo_visit _ Hok k i c v Hw). intros [->|(c' & v' & ->)]; [apply only_at_for|].
  apply only_at_visit. lia.
Qed.

Lemma next_queue_zero : hand_of next_queue n = 0%nat ∧ cleared_of next_queue n = 0%nat.
Proof. unfold next_queue, for_queues. by destruct (_ <? num_wg). Qed.

Lemma visit_index : Z.of_nat n = i.
Proof using Hok Hw. pose proof (lo_visit _ Hok k i c v Hw). unfold n. lia. Qed.

Ltac at_queue w0 :=
  unfold ring_ok, passed, in_hand, cleared in *;
  rewrite ?(proj1 (visit_of _ _ _ _ _)), ?(proj2 (visit_of _ w0 [] None [])) in *.

Lemma ring_visit :
  (ring_read r + hand_of (WVisit i c v) n ≤ length (slots r))%nat ∧
  ∀ j x b, slots r !! j = Some (x, b) → b = bool_decide (ring_read r + cleared_of (WVisit i c v) n ≤ j)%nat.
Proof using Hok Hco Hw Hr.
  pose proof (co_rings _ Hco _ _ Hr) as H. fold n in H. at_queue (WVisit i c v). exact H.
Qed.

Lemma fetch_cmds_ok :
  v = VFetch →
  cmds_ok (set_worker s k (WVisit i c VTest) (rings s) (if gpu_queue then at_read_idx r else l_cache s) (l_q s)).
Proof using Hok Hoc Hco Hw Hr.
  intros Ev. pose proof ring_visit as Hring. rewrite Ev in Hring. cbn [hand_of cleared_of] in Hring.
  eapply (visit_cmds_ok_same s k i c v r); try done; fold n; at_queue (WVisit i c v); rewrite ?Ev; try done.
  - destruct gpu_queue; auto.
  - by left.
  - intros j c' v' [= <- <- <-]. right. split; [done|]. cbn. intros Hg. by rewrite Hg.
Qed.

Lemma test_cmds_ok :
  v = VTest →
  cmds_ok (set_worker s k (match the_next s r with Some _ => WVisit i c VInsert | None => next_queue end)
             (rings s) (l_cache s) (l_q s)).
Proof using Hok Hoc Hco Hw Hr.
  intros Ev. pose proof ring_visit as Hring. pose proof (co_read _ Hco _ _ _ _ _ Hw Hr) as Hrd.
  rewrite Ev in Hring, Hrd. cbn [hand_of cleared_of] in Hring. destruct next_queue_zero as [Hz1 Hz2].
  eapply (visit_cmds_ok_same s k i c v r); try done; fold n; at_queue (WVisit i c v); rewrite ?Ev.
  - apply visit_only. case_match; eauto.
  - by left.
  - destruct (the_next s r); [done|]. by rewrite Hz1, Hz2.
  - left. split; [|done]. destruct (the_next s r); [done|]. by rewrite Hz1.
  - intros j c' v'. destruct (the_next s r) as [x|] eqn:En; [|intros (_ & _ & -> & _)%for_queues_visit; by left].
    intros [= <- <- <-]. right. split; [done|]. unfold worker_read, the_next in *. cbn.
    destruct gpu_queue; [|by rewrite En].
    assert (l_cache s = at_read_idx r) as <- by (apply Hrd; [done|by rewrite En]). by rewrite En.
Qed.

Lemma insert_cmds_ok :
  v = VInsert →
  cmds_ok (set_worker s k (WVisit i c VClear) (rings s) (l_cache s)
             (l_q s ++ match the_next s r with Some x => [x] | None => [] end)).
Proof using Hok Hoc Hco Hw Hr.
  intros Ev. pose proof ring_visit as Hring. pose proof (co_read _ Hco _ _ _ _ _ Hw Hr) as Hrd.
  rewrite Ev in Hring, Hrd. cbn [hand_of cleared_of] in Hring. destruct Hrd as [En [x Hx]]. rewrite En, Hx.
  apply at_read_Some in Hx. pose proof (lookup_lt_Some _ _ _ Hx). pose proof visit_index as Ei.
  eapply (visit_cmds_ok_same s k i c v r); try done; fold n; at_queue (WVisit i c v); rewrite ?Ev;
    cbn [hand_of cleared_of]; rewrite ?Ei, ?Z.eqb_refl.
  - apply visit_only. eauto.
  - by left.
  - split; [lia|apply Hring].
  - right. exists x. split; [|done]. rewrite Nat.add_0_r, Nat.add_1_r. apply take_S_r.
    unfold ring_cmds. by rewrite list_lookup_fmap, Hx.
  - intros j c' v' [= <- <- <-]. by right.
Qed.

Lemma clear_cmds_ok :
  v = VClear →
  cmds_ok (set_worker s k (WVisit i c VAdvance) (<[n := clear_slot r]> (rings s)) (l_cache s) (l_q s)).
Proof using Hok Hoc Hco Hw Hr.
  intros Ev. pose proof ring_visit as [Hlen Hflag]. rewrite Ev in Hlen, Hflag. cbn [hand_of cleared_of] in Hlen, Hflag.
  pose proof visit_index as Ei. rewrite Ei, ?Z.eqb_refl in *.
  eapply (visit_cmds_ok s k i c v r (clear_slot r)); try done; fold n; at_queue (WVisit i c v); rewrite ?Ev;
    cbn [hand_of cleared_of]; rewrite ?Ei, ?Z.eqb_refl.
  - apply visit_only. eauto.
  - by left.
  - unfold clear_slot. cbn. rewrite length_alter. split; [done|]. intros j x b Hj.
    destruct (decide (j = ring_read r)) as [->|Hne].
    + rewrite list_lookup_alter_eq in Hj. destruct (slots r !! ring_read r) as [[y b']|]; [|done].
      cbn in Hj. injection Hj as <- <-. symmetry. apply bool_decide_eq_false. lia.
    + rewrite list_lookup_alter_ne in Hj by done. rewrite (Hflag _ _ _ Hj). apply bool_decide_ext. lia.
  - left. split; [|done]. unfold clear_slot, ring_cmds. cbn. f_equal.
    apply list_eq. intros j. rewrite !list_lookup_fmap. destruct (decide (j = ring_read r)) as [->|Hne].
    + rewrite list_lookup_alter_eq. by destruct (slots r !! ring_read r) as [[]|].
    + by rewrite list_lookup_alter_ne.
  - intros j c' v' [= <- <- <-]. by right.
Qed.

Lemma advance_cmds_ok :
  v = VAdvance →
  cmds_ok (set_worker s k (if (S c <? 64)%nat then WVisit i (S c) VFetch else next_queue)
             (<[n := advance_idx r]> (rings s)) (l_cache s) (l_q s)).
Proof using Hok Hoc Hco Hw Hr.
  intros Ev. pose proof ring_visit as [Hlen Hflag]. rewrite Ev in Hlen, Hflag. cbn [hand_of cleared_of] in Hlen, Hflag.
  pose proof visit_index as Ei. rewrite Ei, ?Z.eqb_refl in *. set (w' := if (S c <? 64)%nat then _ else _).
  assert (hand_of w' n = 0%nat ∧ cleared_of w' n = 0%nat) as [Hz1 Hz2].
  { unfold w'. destruct (S c <? 64)%nat; [done|apply next_queue_zero]. }
  eapply (visit_cmds_ok s k i c v r (advance_idx r)); try done; fold n; at_queue (WVisit i c v); rewrite ?Ev;
    rewrite ?Hz1, ?Hz2; cbn [hand_of cleared_of]; rewrite ?Ei, ?Z.eqb_refl.
  - apply visit_only. unfold w'. destruct (S c <? 64)%nat; eauto.
  - by left.
  - cbn. split; [lia|]. intros j x b Hj. rewrite (Hflag _ _ _ Hj). apply bool_decide_ext. lia.
  - left. split; [|done]. unfold ring_cmds. cbn. f_equal. lia.
  - intros j c' v'. unfold w'. destruct (S c <? 64)%nat; [intros [= <- <- <-]; by left|].
    intros (_ & _ & -> & _)%for_queues_visit. by left.
Qed.
End visit.

(** The test of [done_flag]. *)
Lemma poll_cmds_ok s k :
  cmds_ok s → l_workers s !! k = Some WTest →
  cmds_ok (set_worker s k (if l_done_flag s then WExit else for_queues (Z.of_nat k)) (rings s) (l_cache s) (l_q s)).
Proof.
  intros [Hrings Hpass Hread] Hw. set (w' := if l_done_flag s then WExit else for_queues (Z.of_nat k)).
  assert (∀ j, hand_of w' j = 0%nat ∧ cleared_of w' j = 0%nat) as Hz.
  { intros j. unfold w', for_queues. destruct (l_done_flag s); [done|]. by case_match. }
  assert (∀ j, in_hand (set_worker s k w' (rings s) (l_cache s) (l_q s)) j = in_hand s j ∧
               cleared (set_worker s k w' (rings s) (l_cache s) (l_q s)) j = cleared s j) as Hsame.
  { intros j. destruct (Hz j). unfold in_hand, cleared. split; by eapply of_worker_other. }
  split.
  - intros j r Hj. destruct (Hrings j r Hj) as [H1 H2]. destruct (Hsame j) as [E1 E2].
    split; [by rewrite E1|]. intros m x b Hm. rewrite E2. by eapply H2.
  - rewrite (all_passed_same s); [done|]. intros j. unfold passed. cbn. by rewrite (proj1 (Hsame j)).
  - intros k' i c v r Hw' Hr. cbn in Hw', Hr.
    apply list_lookup_insert_Some in Hw' as [(-> & E & _)|[_ Hw']]; [|by eapply Hread].
    unfold w', for_queues in E. destruct (l_done_flag s); [done|]. case_match; [|done]. by injection E as <- <- <-.
Qed.

Lemma worker_cmds_ok k s s' :
  life_ok s → own_cache → cmds_ok s → worker_advance k s = Some s' → cmds_ok s'.
Proof.
  intros Hok Hoc Hco H. unfold worker_advance in H. destruct (l_workers s !! k) as [w|] eqn:Hw; [|done]. cbn in H.
  destruct w as [|i c v|]; [| |done].
  { injection H as <-. by apply poll_cmds_ok. }
  destruct (rings s !! Z.to_nat i) as [r|] eqn:Hr; [|done]. cbn in H.
  destruct v; injection H as <-.
  - by eapply fetch_cmds_ok.
  - by eapply test_cmds_ok.
  - by eapply insert_cmds_ok.
  - by eapply clear_cmds_ok.
  - by eapply advance_cmds_ok.
Qed.

(** Threads that touch neither the workers nor the rings. *)
Lemma keep_cmds_ok s s' :
  cmds_ok s → rings s' = rings s → l_cache s' = l_cache s →
  (l_workers s' = l_workers s ∨ l_workers s' = l_workers s ++ [WTest]) →
  in_transport s' ≡ₚ in_transport s → cmds_ok s'.
Proof.
  intros [Hrings Hpass Hread] Hr Hc Hw Ht.
  assert (∀ f i, (∀ j, f WTest j = 0%nat) → of_worker f s' i = of_worker f s i) as Hof.
  { intros f i Hf. unfold of_worker. destruct Hw as [-> | ->]; [done|].
    destruct (decide ((i `mod` num_threads)%nat < length (l_workers s))%nat).
    - by rewrite lookup_app_l.
    - rewrite lookup_app_r by lia. rewrite (lookup_ge_None_2 (l_workers s)) by lia.
      destruct (_ - _)%nat as [|m]; [cbn; by rewrite Hf|]. by destruct m. }
  split.
  - intros i r Hi. rewrite Hr in Hi. destruct (Hrings i r Hi) as [H1 H2]. unfold ring_ok, in_hand, cleared in *.
    by rewrite !Hof.
  - rewrite (all_passed_same s); [by rewrite Ht|]. intros i. rewrite Hr. unfold passed, in_hand. by rewrite Hof.
  - intros k i c v r Hk Hi. rewrite Hr in Hi. assert (l_workers s !! k = Some (WVisit i c v)) as Hk'.
    { destruct Hw as [E|E]; rewrite E in Hk; [done|]. apply lookup_app_Some in Hk as [Hk|[_ Hk]]; [done|].
      destruct (k - _)%nat as [|[|]]; done. }
    pose proof (Hread _ _ _ _ _ Hk' Hi) as H. unfold worker_read, the_next in *. rewrite Hc. by destruct v.
Qed.

Lemma device_cmds_ok s i r x :
  cmds_ok s → rings s !! i = Some r →
  cmds_ok (mkLife (main s) (l_done_flag s) (transport_up s) (l_workers s) (l_engine s)
             (<[i := mkRing (slots r ++ [(x, true)]) (ring_read r)]> (rings s)) (l_cache s)
             (l_q s) (l_req_vec s) (completed s)).
Proof.
  intros [Hrings Hpass Hread] Hi. destruct (Hrings i r Hi) as [Hlen Hflag]. set (r' := mkRing _ _).
  pose proof (lookup_lt_Some _ _ _ Hi) as Hlt. split.
  - intros j r0 Hj. cbn in Hj. apply list_lookup_insert_Some in Hj as [(<- & <- & _)|[_ Hj]]; [|by apply Hrings].
    split; [cbn; rewrite length_app; cbn; unfold in_hand, of_worker in *; cbn; lia|].
    intros m y b [Hm|[Hm E]]%lookup_app_Some; [by eapply Hflag|].
    destruct (m - _)%nat as [|[|]] eqn:Em; try done. injection E as <- <-. symmetry. apply bool_decide_eq_true.
    assert (cleared s i ≤ in_hand s i)%nat; [|unfold cleared, in_hand, of_worker in *; cbn; lia].
    unfold cleared, in_hand, of_worker. case_match; [|done]. destruct w as [|? ? []|]; cbn; lia || (case_match; lia).
  - rewrite (all_passed_same s); [done|]. intros j. destruct (decide (j = i)) as [->|Hj].
    + cbn. rewrite list_lookup_insert_eq, Hi by done. cbn. f_equal. unfold passed, ring_cmds. cbn.
      rewrite fmap_app, take_app_le; [done|]. rewrite length_fmap. exact Hlen.
    + cbn. by rewrite list_lookup_insert_ne.
  - intros k i' c v r0 Hk Hi'. cbn in Hk, Hi'. apply list_lookup_insert_Some in Hi' as [(E & <- & _)|[_ Hi']];
      [|by eapply Hread].
    rewrite E in Hi. pose proof (Hread _ _ _ _ _ Hk Hi) as H.
    assert (∀ y, at_read_idx r = Some y → at_read_idx r' = Some y) as Hat.
    { intros y. rewrite !at_read_Some. cbn. intros Hy. by apply lookup_app_l_Some. }
    destruct v; cbn in H |- *; try done.
    + intros Hg Hy. symmetry. specialize (H Hg Hy). destruct Hy as [y Hy]. rewrite Hy in *. by apply Hat.
    + destruct H as [H1 [y Hy]]. rewrite (Hat y Hy). split; [|done]. unfold the_next in *. cbn.
      destruct gpu_queue; [by rewrite H1|by apply Hat].
Qed.

Lemma lstep_cmds_ok s s' : life_ok s → own_cache → lstep s s' → cmds_ok s → cmds_ok s'.
Proof.
  intros Hok Hoc Hs Hco. destruct Hs as [s0 s0' H|k s0 s0' H|found s0 s0' H|s0 i r x Hm Hr].
  - unfold main_advance, initTransport_step, spawn_step, free_runtime_step in H.
    destruct (main s0); repeat case_match; simplify_eq; (apply (keep_cmds_ok s0); [done..| |done]; cbn; auto).
  - by eapply worker_cmds_ok.
  - unfold engine_advance in H. destruct (l_engine s0) as [e|]; [|done]. cbn in H.
    destruct e; try done; try (injection H as <-; apply (keep_cmds_ok s0); by auto).
    + destruct (l_q s0) as [|x q] eqn:Eq; injection H as <-; (apply (keep_cmds_ok s0); [done..|by left|]);
        unfold in_transport; cbn; rewrite Eq; [done|]. solve_Permutation.
    + injection H as <-. apply (keep_cmds_ok s0); [done..|by left|]. unfold in_transport. cbn.
      rewrite <- (filter_split_perm found (l_req_vec s0)) at 3. solve_Permutation.
  - by apply device_cmds_ok.
Qed.

Lemma life_init_cmds : cmds_ok life_init.
Proof.
  assert (∀ i, passed life_init i <$> rings life_init !! i = (λ _, []) <$> rings life_init !! i) as Hp.
  { intros i. cbn. destruct (replicate _ _ !! i) as [r|] eqn:E; [|done].
    apply lookup_replicate in E as [-> _]. cbn. unfold passed. by rewrite take_nil. }
  split.
  - intros i r [-> _]%lookup_replicate. done.
  - assert (∀ l, (∀ i b, l !! i = Some b → b = []) → concat l = ([] : list Z)) as Hc.
    { induction l as [|b l IH]; intros Hl; [done|]. cbn. rewrite (Hl 0%nat b eq_refl). apply IH.
      intros i. apply (Hl (S i)). }
    rewrite Hc; [done|]. intros i b Hb. rewrite all_passed_lookup, Hp in Hb.
    by destruct (rings life_init !! i); simplify_eq/=.
  - intros k i c v r Hk. done.
Qed.

Lemma cmds_reachable s : own_cache → rtc lstep life_init s → cmds_ok s.
Proof.
  intros Hoc Hr. enough (life_ok s ∧ cmds_ok s) by tauto. revert s Hr.
  apply rtc_invariant; [split; [apply life_init_ok|apply life_init_cmds]|].
  intros s s' Hs [Hok Hco]. split; [by eapply lstep_ok|by eapply lstep_cmds_ok].
Qed.

Lemma life_left_bound s :
  life_ok s → l_done_flag s = true → 0 ≤ num_wg →
  life_left s ≤ Z.of_nat num_threads * (320 * num_wg + 2) + 8.
Proof.
  intros Hok Hf Hwg. pose proof (lo_flag _ Hok) as Hm. pose proof (lo_workers _ Hok) as Hl. rewrite Hf in Hm.
  assert (∀ ws, (∀ k i c v, ws !! k = Some (WVisit i c v) → 0 ≤ i) →
    zsum worker_left ws ≤ Z.of_nat (length ws) * (320 * num_wg + 1)) as Hsum.
  { induction ws as [|w ws IH]; intros Hw; [done|]. specialize (IH (λ k, Hw (S k))).
    assert (worker_left w ≤ 320 * num_wg + 1); [|cbn -[Z.mul Z.of_nat worker_left]; lia].
    destruct w as [|i c v|]; cbn [worker_left]; [lia| |lia].
    specialize (Hw 0%nat i c v eq_refl). destruct v; cbn [visit_done]; lia. }
  specialize (Hsum (l_workers s) (λ k i c v Hk, proj1 (proj1 (lo_visit _ Hok k i c v Hk)))).
  assert (length (l_workers s) = num_threads) as El by (destruct (main s); done). rewrite El in Hsum.
  assert (main_left (main s) ≤ Z.of_nat num_threads + 3) by (destruct (main s); cbn; lia).
  assert (engine_left (l_engine s) ≤ 5) by (destruct (l_engine s) as [[]|]; cbn; lia).
  unfold life_left. lia.
Qed.

Lemma life_done_stopped s :
  life_ok s → main s = MDone →
  Forall (.= WExit) (l_workers s) ∧ l_engine s = Some EExit ∧ transport_up s = false ∧ ∀ s', ¬ lstep s s'.
Proof.
  intros [H1 H2 H3 H4 H5 H6 H7 H8 H9 H10 H11] Hm. rewrite Hm in *. rewrite H9 in *.
  assert (∀ j w, l_workers s !! j = Some w → w = WExit) as Hall.
  { intros j w Hj. apply lookup_lt_Some in Hj as Hlt. specialize (H8 j). rewrite H5 in Hlt. specialize (H8 Hlt). congruence. }
  split_and!; [by apply Forall_lookup|done|done|]. intros s' Hs.
  destruct Hs as [s s' H|k s s' H|found s s' H|s i r x Hr _].
  - unfold main_advance, initTransport_step, spawn_step, free_runtime_step in H. by rewrite Hm in H.
  - unfold worker_advance in H. destruct (l_workers s !! k) as [w|] eqn:Ew; [|done]. by rewrite (Hall _ _ Ew) in H.
  - unfold engine_advance in H. by rewrite H9 in H.
  - by rewrite Hm in Hr.
Qed.

(** Whether [ro_net_free_runtime] has begun. *)
Definition in_teardown (m : main_pc) : bool :=
  match m with MJoin _ | MWaitDown | MJoinEngine | MDone => true | _ => false end.

(** C22: Neither construction nor teardown of the reverse-offload backend gets stuck, in any
    interleaving of the main thread, the workers' accesses to the rings and to the one
    [queue_element_cache_], and the progress engine: some thread can go on until
    [ro_net_free_runtime] has returned.  Once that has begun, every run ends within a
    number of steps that depends on the threads and queues only (no fairness is needed, and
    the commands still queued do not prolong it).  When it has returned, all workers and the
    engine have returned and nothing moves any more.  With the queues in host memory, or
    with one worker (the default), no command is lost or passed on twice, at any time: what
    the transport has in its queue, outstanding or completed is exactly the first commands
    of each ring, up to its read index.  With several workers and the queues in GPU memory
    this fails (see [shared_cache_race]). *)
Theorem teardown_ends s :
  0 ≤ num_wg → rtc lstep life_init s →
  (main s = MDone ∨ ∃ s', lstep s s') ∧
  (in_teardown (main s) = true → ∀ k s', nsteps lstep k s s' →
     Z.of_nat k ≤ Z.of_nat num_threads * (320 * num_wg + 2) + 8) ∧
  (main s = MDone →
     Forall (.= WExit) (l_workers s) ∧ l_engine s = Some EExit ∧ transport_up s = false ∧ ∀ s', ¬ lstep s s') ∧
  (own_cache → in_transport s ≡ₚ concat (imap (passed s) (rings s)) ∧
     ∀ i r, rings s !! i = Some r → (ring_read r + in_hand s i ≤ length (slots r))%nat).
Proof.
  intros Hwg Hr. pose proof (life_reachable _ Hr) as Hok.
  split_and!; [by apply life_not_stuck| |by apply life_done_stopped|].
  - intros Ht k s' Hs. assert (l_done_flag s = true) as Hf by (rewrite (lo_flag _ Hok); exact Ht).
    destruct (teardown_bounded _ _ _ Hok Hf Hs) as [Hk Hok'].
    pose proof (life_left_bound _ Hok Hf Hwg). pose proof (life_left_nonneg _ Hok'). lia.
  - intros Hoc. pose proof (cmds_reachable _ Hoc Hr) as Hco. split; [apply (co_passed _ Hco)|].
    intros i r Hi. apply (co_rings _ Hco _ _ Hi).
Qed.
End threads.

(** ** Runs *)

(** Who takes the next step. *)
Inductive mover := Main | Worker (k : nat) | Engine (found : list Z) | Device (i : nat) (x : Z).

Definition move (g : bool) (T : nat) (n : Z) (s : life) (m : mover) : option life :=
  match m with
  | Main => main_advance T s
  | Worker k => worker_advance g T n k s
  | Engine found => engine_advance found s
  | Device i x =>
      if decide (main s = MRun) then
        r ← rings s !! i;
        Some (mkLife (main s) (l_done_flag s) (transport_up s) (l_workers s) (l_engine s)
          (<[i := mkRing (slots r ++ [(x, true)]) (ring_read r)]> (rings s)) (l_cache s) (l_q s) (l_req_vec s) (completed s))
      else None
  end.

Fixpoint moves (g : bool) (T : nat) (n : Z) (s : life) (l : list mover) : option life :=
  match l with [] => Some s | m :: l' => s' ← move g T n s m; moves g T n s' l' end.

Lemma moves_sound g T n l : ∀ s s', moves g T n s l = Some s' → rtc (lstep g T n) s s'.
Proof.
  induction l as [|m l IH]; intros s s' H; cbn in H; [by injection H as <-|].
  destruct (move g T n s m) as [s1|] eqn:E; [|done]. cbn in H. eapply rtc_l; [|by apply IH].
  destruct m as [|k|found|i x]; cbn in E; [by apply l_main|by eapply l_worker|by eapply l_eng|].
  case_decide as Hm; [|done]. destruct (rings s !! i) as [r|] eqn:Er; [|done]. injection E as <-. by apply l_device.
Qed.

(** Construction with [T] workers. *)
Definition start (T : nat) : list mover := [Main; Engine []; Main] ++ replicate (S T) Main.

(** [done_flag] stops the threads where they are: with one queue and one worker, a command
    can be left in the ring, one in the transport's queue and one with MPI when
    [ro_net_free_runtime] has returned. *)
Theorem commands_left_behind :
  ∃ s, rtc (lstep true 1 1) (life_init 1) s ∧ main s = MDone ∧
       concat (ring_cmds <$> rings s) = [7; 8; 9] ∧ ring_read <$> rings s = [2%nat] ∧
       l_q s = [8] ∧ l_req_vec s = [7] ∧ completed s = [].
Proof.
  eexists. split.
  - apply (moves_sound _ _ _ (start 1 ++ [Device 0 7; Device 0 8] ++ replicate 12 (Worker 0) ++ [Device 0 9] ++
      [Worker 0; Engine []; Engine []; Engine []; Main; Worker 0; Engine []; Engine []; Main; Main; Main; Main])).
    vm_compute. reflexivity.
  - split_and!; reflexivity.
Qed.

(** The default memory for the queues and two workers: while worker 0 is about to pass on
    command 7 of queue 0, worker 1 copies command 8 of queue 1 into the cache.  Command 7
    is lost and command 8 is passed on twice. *)
Theorem shared_cache_race :
  ∃ s, rtc (lstep true 2 2) (life_init 2) s ∧ main s = MRun ∧
       ring_cmds <$> rings s = [[7]; [8]] ∧ ring_read <$> rings s = [1%nat; 1%nat] ∧ in_transport s = [8; 8].
Proof.
  eexists. split.
  - apply (moves_sound _ _ _ (start 2 ++ [Device 0 7; Device 1 8; Worker 0; Worker 0; Worker 0; Worker 1; Worker 1] ++
      replicate 3 (Worker 0) ++ replicate 4 (Worker 1))).
    vm_compute. reflexivity.
  - split_and!; reflexivity.
Qed.

(** The state after [done_flag] is set with a worker in the middle of a queue. *)
Definition stopping_run : list mover := start 1 ++ [Device 0 7; Worker 0; Worker 0; Worker 0; Worker 0; Main].
Definition stopping : life :=
  mkLife (MJoin 0) true true [WVisit 0 0 VClear] (Some ETest) [mkRing [(7, true)] 0] (Some 7) [7] [] [].

Lemma teardown_ends_witness :
  rtc (lstep true 1 1) (life_init 1) stopping ∧
  (∀ k s', nsteps (lstep true 1 1) k stopping s' → Z.of_nat k ≤ 330) ∧
  in_transport stopping ≡ₚ concat (imap (passed 1 stopping) (rings stopping)).
Proof.
  assert (rtc (lstep true 1 1) (life_init 1) stopping) as Hr.
  { apply (moves_sound _ _ _ stopping_run). vm_compute. reflexivity. }
  split; [exact Hr|]. destruct (teardown_ends true 1 1 stopping ltac:(lia) Hr) as (_ & H & _ & Hc).
  split; [intros k s' Hs; exact (H eq_refl k s' Hs)|]. apply Hc. right. lia.
Defined.
