(* ===== verification/IBBackend.v ===== *)
(** * Set-up of the InfiniBand backend

    [gpu_ib/backend_ib.cpp] from the constructor to the destructor: the start of MPI, the
    host interface and its default context, the team of all processes, the
    synchronisation arrays and work arrays in the symmetric heap, shared memory, network
    and default device context, in the order of the code; and the constructor of
    [GPUIBTeam] ([gpu_ib/gpu_ib_team.cpp]).  Shown: what the arrays are after the set-up,
    that the teardown gives their memory back, and that neither the team of all processes
    nor the default settings have usable arrays. *)
From S2P Require Import Prelude AddressRecord Bins Pow2Bins AllocatorStrategy Endian Segments QueuePair Connection Network ROContext IBContext Ipc ROQueue Barrier Heap WGState MPITransport Host Dispatch Api HostApi Teams.

Local Open Scope Z_scope.

(** ** Work arrays *)

(** The pools in the order in which they are allocated, and those with synchronisation
    variables. *)
Definition work_arrays : list work_array := [barrier_pSync; reduce_pSync; bcast_pSync; alltoall_pSync; pWrk; pAta].
Definition sync_arrays : list work_array := [barrier_pSync; reduce_pSync; bcast_pSync; alltoall_pSync].

#[export] Instance work_array_eq_dec : EqDecision work_array.
Proof. solve_decision. Defined.

(** The members of [GPUIBTeam] beyond those of [Team]: where its arrays are. *)
Record GPUIBTeam := mkGPUIBTeam { ib_team : Team; ib_arrays : work_array → Z }.

Definition GPUIBTeam_new (pools : work_array → Z) (t : Team) : GPUIBTeam :=
  mkGPUIBTeam t (array_address pools (pool_index_ t)).

(** The symmetric heap as words of eight bytes; [base[i] = ROC_SHMEM_SYNC_VALUE] for [i]
    below [n]. *)
Definition store (mem : Z → Z) (address value : Z) : Z → Z := λ x, if x =? address then value else mem x.
Definition store_sync (mem : Z → Z) (base n : Z) : result (Z → Z) :=
  if (0 <? n) && (base =? nullptr) then Fail BadAccess
  else Ok (foldl (λ m i, store m (base + sizeof_long * i) ROC_SHMEM_SYNC_VALUE) mem (seqZ 0 n)).

Section backend.
Context {A : Type} (W : world).
(** The address of a local variable, as an argument of [malloc]. *)
Context (local : Z).

(** ** [GPUIBBackend::roc_shmem_collective_init] *)

Definition set_heap (lib : lib_backend A) (heap : SingleHeap A) : lib_backend A :=
  mkLib (lb_type lib) heap (lb_host lib) (lb_default lib) (lb_ctxs lib).

Definition roc_shmem_collective_init (num_pes : Z) (lib : lib_backend A) (mem : Z → Z)
    : result (Z * lib_backend A * (Z → Z)) :=
  '(barrier_sync, heap) ← malloc (lb_heap lib) local (sizeof_long * ROC_SHMEM_BARRIER_SYNC_SIZE);
  mem ← store_sync mem barrier_sync num_pes;
  Ok (barrier_sync, set_heap lib heap, mem).

(** ** [GPUIBBackend::teams_init], [GPUIBBackend::teams_destroy] *)

(** The allocations; the pointer [backend] leads to the object under construction. *)
Fixpoint alloc_pools (max_num_teams : Z) (l : list work_array) (p : backend_ptr A)
    : result (list Z * backend_ptr A) :=
  match l with
  | [] => Ok ([], p)
  | a :: l' =>
      '(ptr, p) ← roc_shmem_malloc W local (u64 (pool_bytes max_num_teams a)) p;
      '(ptrs, p) ← alloc_pools max_num_teams l' p;
      Ok (ptr :: ptrs, p)
  end.

(** The pointer for each pool, from those in the order of [work_arrays]. *)
Definition pool_of (ptrs : list Z) (a : work_array) : Z :=
  match a with
  | barrier_pSync => nth 0 ptrs nullptr
  | reduce_pSync => nth 1 ptrs nullptr
  | bcast_pSync => nth 2 ptrs nullptr
  | alltoall_pSync => nth 3 ptrs nullptr
  | pWrk => nth 4 ptrs nullptr
  | pAta => nth 5 ptrs nullptr
  end.

(** The arrays of the team with number [team_i]. *)
Definition init_team_sync (pools : work_array → Z) (team_i : Z) (mem : Z → Z) : result (Z → Z) :=
  foldl (λ r a, mem ← r; store_sync mem (array_address pools team_i a) (Z.quot (array_bytes a) sizeof_long))
    (Ok mem) sync_arrays.

Definition teams_init (max_num_teams : Z) (p : backend_ptr A) (mem : Z → Z)
    : result ((work_array → Z) * backend_ptr A * (Z → Z) * list Z) :=
  '(ptrs, p) ← alloc_pools max_num_teams work_arrays p;
  let pools := pool_of ptrs in
  mem ← foldl (λ r team_i, mem ← r; init_team_sync pools team_i mem) (Ok mem) (seqZ 0 max_num_teams);
  mask ← init_bitmask max_num_teams;
  Ok (pools, p, mem, mask).

Definition teams_destroy (pools : work_array → Z) (p : backend_ptr A) : result (backend_ptr A) :=
  foldl (λ r a, p ← r; roc_shmem_free W (pools a) p) (Ok p) work_arrays.
End backend.

(** ** The backend *)

(** The default context of the device: its queue pairs, heap bases and shared memory. *)
Record default_context := mkDefault {
  dc_device_qp_proxy : list QPConfig;
  dc_base_heap : list Z;
  dc_barrier_sync : Z;
  dc_ipcImpl_ : IpcImpl
}.

Record GPUIBBackend (A : Type) := mkGPUIBBackend {
  ib_num_wg : Z;
  ib_bufferTokens : list Z;
  ib_lib : lib_backend A;
  ib_teams : Backend;
  ib_team_world : GPUIBTeam;
  ib_barrier_sync : Z;
  ib_pools : work_array → Z;
  ib_mem : Z → Z;
  ib_ipcImpl : IpcImpl;
  networkImpl : NetworkOnImpl;
  default_ctx_ : default_context
}.
Arguments mkGPUIBBackend {A}.
Arguments ib_num_wg {A}.
Arguments ib_bufferTokens {A}.
Arguments ib_lib {A}.
Arguments ib_teams {A}.
Arguments ib_team_world {A}.
Arguments ib_barrier_sync {A}.
Arguments ib_pools {A}.
Arguments ib_mem {A}.
Arguments ib_ipcImpl {A}.
Arguments networkImpl {A}.
Arguments default_ctx_ {A}.

Definition MPI_SUCCESS : Z := 0.

(** [GPUIBBackend::init_mpi_once]: the results of [MPI_Initialized], with the flag it
    sets, and of [MPI_Init_thread]. *)
Definition init_mpi_once (initialized : Z) (init_done : bool) (init_thread : Z) : Z :=
  if (initialized =? MPI_SUCCESS) && init_done then ROC_SHMEM_SUCCESS
  else if negb (init_thread =? MPI_SUCCESS) then ROC_SHMEM_UNKNOWN_ERROR else ROC_SHMEM_SUCCESS.

(** [NetworkOnImpl::networkHostInit]: the queue pairs of a context. *)
Definition networkHostInit (net : NetworkOnImpl) (num_wg num_queue_pairs buffer_id : Z) (base_heap : list Z)
    (atomic_base_ptr : Z) : result (list QPConfig) :=
  foldl (λ r i, qps ← r; qp ← context_qp net num_wg num_queue_pairs buffer_id i (table base_heap) atomic_base_ptr;
    Ok (qps ++ [qp])) (Ok []) (seqZ 0 num_queue_pairs).

(** [GPUIBContext::GPUIBContext] on the host. *)
Definition GPUIBContext_host (net : NetworkOnImpl) (num_wg num_pes : Z) (heap_bases : list Z) (atomic_base barrier_sync : Z)
    (ipc : IpcImpl) : result default_context :=
  qps ← networkHostInit net num_wg num_pes (num_wg - 1) heap_bases atomic_base;
  Ok (mkDefault qps heap_bases barrier_sync (host_context_ipc ipc)).

Section construct.
Context {A T : Type} {P : HipIpc T} {X : Mlx5} {D : Mlx5dv}.
(** What the process finds: MPI and its place in the world; the device; the settings; its
    heap and those of the others; addresses of new objects; what HIP, the verbs library
    and MPI give to shared memory and network. *)
Context (W : world) (initialized : Z) (init_done : bool) (init_thread num_cus : Z).
Context (max_num_contexts max_num_teams : option Z).
Context (heap : SingleHeap A) (heap_bases : list Z) (mem : Z → Z) (local team_world atomic_base : Z).
Context (MPI_Allgather : list (option T) → list (option T)) (Shm_size shm_rank : Z) (net_env : process).

(** [GPUIBBackend::initialize_ipc], [GPUIBBackend::initialize_network]. *)
Definition initialize_ipc : result IpcImpl :=
  ipcHostInit MPI_Allgather (w_rank W) heap_bases Shm_size shm_rank hipSuccess.
Definition initialize_network (num_wg : Z) : result (NetworkOnImpl * memory) :=
  @networkHostSetup X D (pr_verbs net_env) (pr_reg net_env) (Connection.mkBackend (w_size W) (w_rank W) num_wg)
    (pr_alltoall net_env) (pr_gather_hdp_rkey net_env) (pr_gather_hdp_address net_env) (pr_gather_heap_rkey net_env)
    (pr_dev net_env) (pr_conn net_env) heap_bases (heap_get_size heap) (pr_managed net_env) (pr_cq_gpu net_env)
    (pr_sq_gpu net_env) (pr_lock net_env) (pr_objs net_env) (pr_mem net_env).

(** [GPUIBBackend::setup_team_world]: at this point the pools are still null. *)
Definition setup_team_world (pools : work_array → Z) : GPUIBTeam :=
  GPUIBTeam_new pools (Teams.world_team (w_size W) (w_rank W) team_world).

(** [GPUIBBackend::GPUIBBackend]; the last part is [thread_func_internal]. *)
Definition GPUIBBackend_new (num_wgs : Z) : result (GPUIBBackend A) :=
  let num_wg := Backend_num_wg num_wgs num_cus in
  assert_ (init_mpi_once initialized init_done init_thread =? ROC_SHMEM_SUCCESS);;
  let host_interface := HostInterface_new W max_num_contexts (get_base_ptr heap) (heap_get_size heap) in
  '(default_host_ctx_, host_interface) ← HostContext_new host_interface;
  let lib := mkLib GPU_IB_BACKEND heap host_interface default_host_ctx_ [] in
  let tracker := TeamTracker_new max_num_teams in
  let world := setup_team_world (λ _, nullptr) in
  '(barrier_sync, lib, mem) ← roc_shmem_collective_init local (w_size W) lib mem;
  '(pools, p, mem, mask) ← teams_init W local (max_num_teams_ tracker) (Backend_at lib) mem;
  lib ← VERIFY_BACKEND p;
  ipc ← initialize_ipc;
  '(net, _) ← initialize_network num_wg;
  ctx ← GPUIBContext_host net num_wg (w_size W) heap_bases atomic_base barrier_sync ipc;
  Ok (mkGPUIBBackend num_wg (default_ctx_tokens num_wg) lib
        (mkBackend (w_size W) (w_rank W) (mkTeamTracker [] (max_num_teams_ tracker) team_world) mask
           {[ team_world := ib_team world ]})
        world barrier_sync pools mem ipc net ctx).

(** [GPUIBBackend::~GPUIBBackend]: what becomes of heap and host interface. *)
Definition GPUIBBackend_delete (b : GPUIBBackend A) : result (SingleHeap A * HostInterface) :=
  p ← teams_destroy W (ib_pools b) (Backend_at (ib_lib b));
  lib ← VERIFY_BACKEND p;
  h ← HostContext_delete GPU_IB_BACKEND (lb_default lib) (lb_host lib);
  Ok (lb_heap lib, h).
End construct.

(** ** Synchronisation variables *)

(** The words of an array of [n] words. *)
Definition in_words (base n x : Z) : Prop := ∃ i, 0 ≤ i < n ∧ x = base + sizeof_long * i.

Lemma fold_store_sync mem base l x :
  let mem' := foldl (λ m i, store m (base + sizeof_long * i) ROC_SHMEM_SYNC_VALUE) mem l in
  (mem x = ROC_SHMEM_SYNC_VALUE ∨ (∃ i, i ∈ l ∧ x = base + sizeof_long * i) → mem' x = ROC_SHMEM_SYNC_VALUE) ∧
  ((∀ i, i ∈ l → x ≠ base + sizeof_long * i) → mem' x = mem x).
Proof.
  revert mem. induction l as [|i l IH]; intros mem; cbn [foldl].
  - split; [|done]. intros [?|(i & Hi & _)]; [done|]. by apply not_elem_of_nil in Hi.
  - destruct (IH (store mem (base + sizeof_long * i) ROC_SHMEM_SYNC_VALUE)) as [H1 H2]. split.
    + intros H. apply H1. unfold store. destruct (Z.eqb_spec x (base + sizeof_long * i)); [by left|].
      destruct H as [?|(j & [->|Hj]%elem_of_cons & ->)]; [by left|done|eauto].
    + intros Hn. rewrite H2 by (intros j Hj; apply Hn; by right). unfold store.
      rewrite (proj2 (Z.eqb_neq _ _)); [done|]. apply Hn. by left.
Qed.

(** The words in [R] are initialised, all others are kept. *)
Definition syncs (R : Z → Prop) (mem mem' : Z → Z) : Prop :=
  ∀ x, (mem x = ROC_SHMEM_SYNC_VALUE ∨ R x → mem' x = ROC_SHMEM_SYNC_VALUE) ∧ (¬ R x → mem' x = mem x).

Lemma store_sync_spec mem base n :
  match store_sync mem base n with
  | Ok mem' => (0 < n → base ≠ nullptr) ∧ syncs (in_words base n) mem mem'
  | Fail e => e = BadAccess ∧ 0 < n ∧ base = nullptr
  end.
Proof.
  unfold store_sync. destruct (Z.ltb_spec 0 n), (Z.eqb_spec base nullptr); cbn [andb]; try (by split_and!);
    (split; [intros; first [done|lia]|]; intros x; destruct (fold_store_sync mem base (seqZ 0 n) x) as [H1 H2]; split;
     [intros [?|(i & Hi & ->)]; apply H1; [by left|right; exists i; split; [apply elem_of_seqZ; lia|done]]
     |intros Hn; apply H2; intros i Hi%elem_of_seqZ ->; apply Hn; exists i; split; [lia|done]]).
Qed.

Lemma foldl_Fail {B C} (f : B → C → result C) l e : foldl (λ r x, c ← r; f x c) (Fail e) l = Fail e.
Proof. by induction l. Qed.

(** A loop over steps that each initialise a region, and why it can fail. *)
Lemma syncs_fold {B} (f : B → (Z → Z) → result (Z → Z)) (R : B → Z → Prop) (bad : B → Prop) l mem :
  (∀ b m, b ∈ l → match f b m with Ok m' => ¬ bad b ∧ syncs (R b) m m' | Fail e => e = BadAccess ∧ bad b end) →
  match foldl (λ r b, m ← r; f b m) (Ok mem) l with
  | Ok mem' => (∀ b, b ∈ l → ¬ bad b) ∧ syncs (λ x, ∃ b, b ∈ l ∧ R b x) mem mem'
  | Fail e => e = BadAccess ∧ ∃ b, b ∈ l ∧ bad b
  end.
Proof.
  revert mem. induction l as [|b l IH]; intros mem Hf; cbn [foldl].
  - split; [intros b Hb; by apply not_elem_of_nil in Hb|]. intros x. split; [|done].
    intros [?|(b & Hb & _)]; [done|]. by apply not_elem_of_nil in Hb.
  - cbn [mbind result_bind]. pose proof (Hf b mem ltac:(left)) as Hb. destruct (f b mem) as [m1|e1].
    + specialize (IH m1 (λ b' m Hb', Hf b' m (list_elem_of_further _ _ _ Hb'))). destruct Hb as [Hnb Hb].
      destruct (foldl _ _ _) as [m2|e2].
      * destruct IH as [Hnl Hl]. split; [intros b' [->|?]%elem_of_cons; auto|]. intros x.
        destruct (Hb x) as [H1 H2], (Hl x) as [H3 H4]. split.
        -- intros [?|(b' & [->|?]%elem_of_cons & ?)]; apply H3; [left; auto|left; auto|right; eauto].
        -- intros Hn. rewrite H4, H2; [done|..].
           ++ intros ?. apply Hn. exists b. split; [left|done].
           ++ intros (b' & ? & ?). apply Hn. exists b'. split; [by right|done].
      * destruct IH as (-> & b' & ? & ?). split; [done|]. exists b'. split; [by right|done].
    + rewrite foldl_Fail. destruct Hb as [-> ?]. split; [done|]. exists b. split; [left|done].
Qed.

(** The synchronisation variables of one team. *)
Definition sync_words (a : work_array) : Z := Z.quot (array_bytes a) sizeof_long.
Definition in_team_sync (pools : work_array → Z) (team_i x : Z) : Prop :=
  ∃ a, a ∈ sync_arrays ∧ in_words (array_address pools team_i a) (sync_words a) x.

Lemma sync_words_pos a : 0 < sync_words a.
Proof. by destruct a. Qed.

Lemma init_team_sync_spec pools team_i mem :
  match init_team_sync pools team_i mem with
  | Ok mem' => (∀ a, a ∈ sync_arrays → array_address pools team_i a ≠ nullptr) ∧ syncs (in_team_sync pools team_i) mem mem'
  | Fail e => e = BadAccess ∧ ∃ a, a ∈ sync_arrays ∧ array_address pools team_i a = nullptr
  end.
Proof.
  apply (syncs_fold (λ a mem, store_sync mem (array_address pools team_i a) (sync_words a))
    (λ a, in_words (array_address pools team_i a) (sync_words a)) (λ a, array_address pools team_i a = nullptr)).
  intros a m _. pose proof (store_sync_spec m (array_address pools team_i a) (sync_words a)) as H.
  pose proof (sync_words_pos a). destruct (store_sync _ _ _); naive_solver.
Qed.

(** All teams. *)
Lemma init_teams_sync_spec pools n mem :
  (∀ a, 0 ≤ pools a) →
  match foldl (λ r team_i, mem ← r; init_team_sync pools team_i mem) (Ok mem) (seqZ 0 n) with
  | Ok mem' => (0 < n → ∀ a, a ∈ sync_arrays → pools a ≠ nullptr) ∧
      syncs (λ x, ∃ i, 0 ≤ i < n ∧ in_team_sync pools i x) mem mem'
  | Fail e => e = BadAccess ∧ ∃ a, a ∈ sync_arrays ∧ pools a = nullptr
  end.
Proof.
  intros Hp.
  pose proof (syncs_fold (init_team_sync pools) (in_team_sync pools)
    (λ i, ∃ a, a ∈ sync_arrays ∧ array_address pools i a = nullptr) (seqZ 0 n) mem) as H.
  assert (∀ a i, 0 ≤ i → array_address pools i a = nullptr → pools a = nullptr) as Hnull.
  { intros a i Hi. unfold array_address, nullptr. specialize (Hp a). assert (0 < array_bytes a) by (by destruct a). nia. }
  ospecialize (H _).
  { intros i m _. pose proof (init_team_sync_spec pools i m) as Hi. destruct (init_team_sync pools i m); naive_solver. }
  destruct (foldl _ _ _) as [mem'|e].
  - destruct H as [Hn Hs]. split.
    + intros H0 a Ha E. apply (Hn 0); [apply elem_of_seqZ; lia|]. exists a. split; [done|]. unfold array_address. rewrite E.
      unfold nullptr. lia.
    + intros x. destruct (Hs x) as [H1 H2]. split.
      * intros [?|(i & Hi & ?)]; apply H1; [by left|right]. exists i. split; [apply elem_of_seqZ; lia|done].
      * intros Hni. apply H2. intros (i & Hi%elem_of_seqZ & ?). apply Hni. exists i. split; [lia|done].
  - destruct H as (-> & i & Hi%elem_of_seqZ & a & Ha & E). split; [done|]. exists a. split; [done|]. apply (Hnull a i); [lia|done].
Qed.

(** ** The pools *)

Section pools.
Context {A : Type} (W : world) (local : Z).

(** Calls of [malloc] and [free] by the library change the heap as the heap's do. *)
Lemma roc_shmem_malloc_spec (b : lib_backend A) size :
  heap_ok (lb_heap b) → local ≠ nullptr →
  returns (roc_shmem_malloc W local size (Backend_at b)) (λ '(ptr, p), ∃ b', p = Backend_at b' ∧
    heap_ok (lb_heap b') ∧ heap_mem_ (lb_heap b') = heap_mem_ (lb_heap b) ∧ lb_type b' = lb_type b ∧
    lb_default b' = lb_default b ∧ lb_ctxs b' = lb_ctxs b ∧
    alloc_outcome (heap_arena (lb_heap b)) (strat_ (lb_heap b)) size (ptr, strat_ (lb_heap b'))).
Proof.
  intros Hok Hl. destruct (memory_calls W b local size nullptr) as [(h & l & _ & -> & _) _].
  eapply returns_bind; [by apply malloc_spec|]. intros [ptr heap] (? & ? & ?). cbn. eexists. split; [done|]. by split_and!.
Qed.

Lemma roc_shmem_free_spec (b : lib_backend A) ptr :
  heap_ok (lb_heap b) → ptr = nullptr ∨ is_Some (proffered_ (strat_ (lb_heap b)) !! ptr) →
  returns (roc_shmem_free W ptr (Backend_at b)) (λ p, ∃ b', p = Backend_at b' ∧
    heap_ok (lb_heap b') ∧ lb_type b' = lb_type b ∧
    lb_default b' = lb_default b ∧ lb_ctxs b' = lb_ctxs b ∧
    ∀ q, proffered_ (strat_ (lb_heap b')) !! q =
         if decide (q = ptr ∧ ptr ≠ nullptr) then None else proffered_ (strat_ (lb_heap b)) !! q).
Proof.
  intros Hok Hp. destruct (memory_calls W b local 0 ptr) as [(h & l & _ & _ & ->) _].
  eapply returns_bind; [by apply heap_free_spec|]. intros heap (? & ? & Hn & Hd). cbn. eexists. split; [done|].
  split_and!; try done. cbn. intros q. destruct (decide (ptr = nullptr)) as [E|E].
  - rewrite decide_False by tauto. by rewrite Hn.
  - rewrite Hd by done. case_decide as Hq; [destruct Hq as [-> _]; apply lookup_delete_eq|].
    apply lookup_delete_ne. intros ->. by apply Hq.
Qed.

(** What a request for each of [l] leaves of the heap: every pointer is null or a new
    block that is large enough; nothing else changes. *)
Record pools_in (n : Z) (l : list work_array) (h : SingleHeap A) (ptrs : list Z) (h' : SingleHeap A) : Prop := {
  pi_length : length ptrs = length l;
  pi_block : ∀ i a p, l !! i = Some a → ptrs !! i = Some p → p ≠ nullptr →
    ∃ r, proffered_ (strat_ h') !! p = Some r ∧ address_ r = p ∧ u64 (pool_bytes n a) ≤ size_ r ∧
         proffered_ (strat_ h) !! p = None;
  pi_inj : ∀ i j p, ptrs !! i = Some p → ptrs !! j = Some p → p ≠ nullptr → i = j;
  pi_rest : ∀ q, q = nullptr ∨ q ∉ ptrs → proffered_ (strat_ h') !! q = proffered_ (strat_ h) !! q;
  pi_pos : Forall (λ p, 0 ≤ p) ptrs
}.

Lemma null_not_live (h : SingleHeap A) : heap_ok h → proffered_ (strat_ h) !! nullptr = None.
Proof.
  intros (_ & _ & _ & Hwf). destruct (_ !! nullptr) as [r|] eqn:E; [|done].
  destruct (wf_proffered _ _ Hwf _ _ E) as [Ha _]. pose proof (wf_arena _ _ Hwf) as Har.
  rewrite (records_delete _ _ _ E) in Har. apply Forall_cons in Har as [[[Hpos _] _] _]. rewrite Ha in Hpos. by unfold nullptr in Hpos.
Qed.

(** A request before the others. *)
Lemma pools_in_cons n a l (h h1 h2 : SingleHeap A) ptr ptrs :
  heap_ok h1 → alloc_outcome (heap_arena h) (strat_ h) (u64 (pool_bytes n a)) (ptr, strat_ h1) →
  pools_in n l h1 ptrs h2 → pools_in n (a :: l) h (ptr :: ptrs) h2.
Proof.
  intros Hok1 Hout [P1 P2 P3 P4 P5].
  assert (∀ q r, proffered_ (strat_ h1) !! q = Some r → q ∉ ptrs) as Hnew.
  { intros q r Hq (j & Hj)%list_elem_of_lookup. destruct (decide (q = nullptr)) as [->|Hq0].
    - by rewrite (null_not_live _ Hok1) in Hq.
    - destruct (lookup_lt_is_Some_2 l j) as [a' Ha']; [rewrite <- P1; by eapply lookup_lt_Some|].
      destruct (P2 _ _ _ Ha' Hj Hq0) as (_ & _ & _ & _ & Hnone). congruence. }
  assert (ptr = nullptr ∧ strat_ h1 = strat_ h ∨ ptr ≠ nullptr ∧ 0 < ptr ∧ ∃ r,
    address_ r = ptr ∧ u64 (pool_bytes n a) ≤ size_ r ∧ proffered_ (strat_ h) !! ptr = None ∧
    proffered_ (strat_ h1) = <[ptr := r]> (proffered_ (strat_ h))) as Hcase.
  { destruct Hout as [(-> & E & _)|(r & -> & (((Hr & _) & _) & Hn & _) & _ & Hf & Hins & _)]; [by left|right].
    split; [unfold nullptr; lia|]. split; [lia|]. exists r. by split_and!. }
  split.
  - cbn. by rewrite P1.
  - intros [|i] a' p Ha Hp Hp0; cbn in Ha, Hp; simplify_eq.
    + destruct Hcase as [[? _]|(_ & _ & r & Hr & Hs & Hf & Hins)]; [done|]. exists r.
      assert (proffered_ (strat_ h1) !! p = Some r) as H1 by (rewrite Hins; apply lookup_insert_eq).
      split_and!; try done. rewrite P4; [done|]. right. by eapply Hnew.
    + destruct (P2 _ _ _ Ha Hp Hp0) as (r & ? & ? & ? & Hn). exists r. split_and!; try done.
      destruct Hcase as [[_ E]|(_ & _ & r' & _ & _ & _ & Hins)]; [by rewrite <- E|].
      rewrite Hins in Hn. apply lookup_insert_None in Hn as [? _]. done.
  - assert (∀ j p, ptrs !! j = Some p → p ≠ nullptr → p ≠ ptr) as Hne.
    { intros j p Hj Hp0 ->. destruct Hcase as [[? _]|(_ & _ & r & _ & _ & _ & Hins)]; [done|].
      eapply (Hnew ptr r); [rewrite Hins; apply lookup_insert_eq|by eapply list_elem_of_lookup_2]. }
    intros [|i] [|j] p Hi Hj Hp0; cbn in Hi, Hj; simplify_eq; [done|by destruct (Hne j p)|by destruct (Hne i p)|].
    f_equal. by eapply P3.
  - intros q Hq. rewrite P4 by (destruct Hq as [?|Hq]; [by left|right; set_solver]).
    destruct Hcase as [[_ ->]|(? & _ & r & _ & _ & _ & ->)]; [done|]. apply lookup_insert_ne. intros ->.
    destruct Hq as [?|Hq]; [done|]. apply Hq. left.
  - constructor; [|done]. destruct Hcase as [[-> _]|(_ & ? & _)]; [done|lia].
Qed.

Lemma alloc_pools_spec n l (b : lib_backend A) :
  heap_ok (lb_heap b) → local ≠ nullptr →
  returns (alloc_pools W local n l (Backend_at b)) (λ '(ptrs, p), ∃ b', p = Backend_at b' ∧
    heap_ok (lb_heap b') ∧ heap_mem_ (lb_heap b') = heap_mem_ (lb_heap b) ∧ lb_type b' = lb_type b ∧
    lb_default b' = lb_default b ∧ lb_ctxs b' = lb_ctxs b ∧ pools_in n l (lb_heap b) ptrs (lb_heap b')).
Proof.
  intros Hok Hl. revert b Hok. induction l as [|a l IH]; intros b Hok; cbn [alloc_pools].
  { cbn. exists b. by split_and!. }
  eapply returns_bind; [by apply roc_shmem_malloc_spec|]. intros [ptr p] (b1 & -> & Hok1 & Hm1 & Ht1 & Hd1 & Hc1 & Hout).
  eapply returns_bind; [by apply IH|]. intros [ptrs p] (b2 & -> & Hok2 & Hm2 & Ht2 & Hd2 & Hc2 & Hin).
  cbn. exists b2. split_and!; try congruence; try done. exact (pools_in_cons _ _ _ _ _ _ _ _ Hok1 Hout Hin).
Qed.

(** Releasing pointers that are null or live, no pointer twice. *)
Lemma free_all_spec ptrs (b : lib_backend A) :
  heap_ok (lb_heap b) →
  (∀ p, p ∈ ptrs → p ≠ nullptr → is_Some (proffered_ (strat_ (lb_heap b)) !! p)) →
  (∀ i j p, ptrs !! i = Some p → ptrs !! j = Some p → p ≠ nullptr → i = j) →
  returns (foldl (λ r ptr, p ← r; roc_shmem_free W ptr p) (Ok (Backend_at b)) ptrs) (λ p, ∃ b', p = Backend_at b' ∧
    heap_ok (lb_heap b') ∧ lb_type b' = lb_type b ∧ lb_default b' = lb_default b ∧ lb_ctxs b' = lb_ctxs b ∧
    ∀ q, proffered_ (strat_ (lb_heap b')) !! q =
         if decide (q ∈ ptrs ∧ q ≠ nullptr) then None else proffered_ (strat_ (lb_heap b)) !! q).
Proof.
  revert b. induction ptrs as [|ptr ptrs IH]; intros b Hok Hlive Hinj; cbn [foldl].
  { by exists b. }
  pose proof (roc_shmem_free_spec b ptr Hok) as Hf. ospecialize (Hf _).
  { destruct (decide (ptr = nullptr)); [by left|right]. apply Hlive; [left|done]. }
  cbn [mbind result_bind]. apply returns_iff in Hf as (p & -> & b1 & -> & Hok1 & Ht1 & Hd1 & Hc1 & Hq1).
  assert (ptr ≠ nullptr → ptr ∉ ptrs) as Hni.
  { intros H0 (j & Hj)%list_elem_of_lookup. discriminate (Hinj 0%nat (S j) ptr eq_refl Hj H0). }
  eapply returns_mono; [apply (IH b1 Hok1)|].
  - intros p Hp Hp0. rewrite Hq1, decide_False; [apply Hlive; [by right|done]|]. intros [-> ?]. by apply Hni.
  - intros i j p Hi Hj Hp. by injection (Hinj (S i) (S j) p Hi Hj Hp).
  - intros p (b2 & -> & Hok2 & Ht2 & Hd2 & Hc2 & Hq2). exists b2. split_and!; try congruence; try done.
    intros q. rewrite Hq2, Hq1. repeat case_decide; set_solver.
Qed.
End pools.

(** ** The arrays of the teams *)

Section arrays.
Context {A : Type} (W : world) (local : Z).

Definition array_block (pools : work_array → Z) (i : Z) (a : work_array) : AddressRecord :=
  AR (array_address pools i a) (array_bytes a).

Lemma pool_of_lookup ptrs a :
  length ptrs = length work_arrays → ∃ k, work_arrays !! k = Some a ∧ ptrs !! k = Some (pool_of ptrs a).
Proof.
  intros Hl. do 6 (destruct ptrs as [|? ptrs]; [done|]). destruct ptrs; [|done].
  destruct a; [exists 0%nat|exists 1%nat|exists 2%nat|exists 3%nat|exists 4%nat|exists 5%nat]; done.
Qed.

Lemma pool_of_all ptrs : length ptrs = length work_arrays → pool_of ptrs <$> work_arrays = ptrs.
Proof. intros Hl. do 6 (destruct ptrs as [|? ptrs]; [done|]). by destruct ptrs. Qed.

Section allocated.
Context (n : Z) (h h' : SingleHeap A) (ptrs : list Z).
Context (Hn : 1 ≤ n ≤ INT_MAX) (Hok : heap_ok h') (Hin : pools_in n work_arrays h ptrs h').

(** The block of a pool. *)
Lemma pool_block a :
  pool_of ptrs a ≠ nullptr →
  ∃ r, proffered_ (strat_ h') !! pool_of ptrs a = Some r ∧ proffered_ (strat_ h) !! pool_of ptrs a = None ∧
    ∀ i, 0 ≤ i < n → inside (array_block (pool_of ptrs) i a) r.
Proof using Hin Hn.
  intros H0. destruct (pool_of_lookup ptrs a (pi_length _ _ _ _ _ Hin)) as (k & Hk & Hp).
  destruct (pi_block _ _ _ _ _ Hin _ _ _ Hk Hp H0) as (r & Hr & Ha & Hs & Hf). exists r. split_and!; [done..|].
  intros i Hi. unfold INT_MAX in Hn. assert (0 < array_bytes a ≤ 2 ^ 25) by (by destruct a).
  unfold pool_bytes in Hs. rewrite uwrap_small in Hs by nia. unfold inside, array_block, array_address. cbn. nia.
Qed.

Lemma pool_inj a a' : pool_of ptrs a = pool_of ptrs a' → pool_of ptrs a ≠ nullptr → a = a'.
Proof using Hin.
  intros E H0. destruct (pool_of_lookup ptrs a (pi_length _ _ _ _ _ Hin)) as (k & Hk & Hp).
  destruct (pool_of_lookup ptrs a' (pi_length _ _ _ _ _ Hin)) as (k' & Hk' & Hp'). rewrite <- E in Hp'.
  rewrite (pi_inj _ _ _ _ _ Hin _ _ _ Hp Hp' H0) in Hk. congruence.
Qed.

Lemma array_in_heap a i : pool_of ptrs a ≠ nullptr → 0 ≤ i < n → inside (array_block (pool_of ptrs) i a) (heap_arena h').
Proof using Hn Hok Hin.
  intros H0 Hi. destruct (pool_block a H0) as (r & Hr & _ & Hin'). eapply inside_trans; [by apply Hin'|].
  destruct Hok as (_ & _ & _ & Hwf). pose proof (wf_arena _ _ Hwf) as Har.
  rewrite (records_delete _ _ _ Hr) in Har. apply Forall_cons in Har as [Hb _]. apply Hb.
Qed.

Lemma arrays_disjoint a a' i i' :
  pool_of ptrs a ≠ nullptr → pool_of ptrs a' ≠ nullptr → 0 ≤ i < n → 0 ≤ i' < n → (a, i) ≠ (a', i') →
  disj (array_block (pool_of ptrs) i a) (array_block (pool_of ptrs) i' a').
Proof using Hn Hok Hin.
  intros H0 H0' Hi Hi' Hne. destruct (decide (a = a')) as [<-|Ha].
  - assert (i ≠ i') by congruence. assert (0 < array_bytes a) by (by destruct a).
    unfold disj, array_block, array_address. cbn. destruct (decide (i < i')); [left|right]; nia.
  - destruct (pool_block a H0) as (r & Hr & _ & Hin1), (pool_block a' H0') as (r' & Hr' & _ & Hin2).
    eapply disj_inside; [by apply Hin1|]. symmetry. eapply disj_inside; [by apply Hin2|]. symmetry.
    destruct Hok as (_ & _ & _ & Hwf). eapply (proffered_disj _ _ _ _ _ _ Hwf Hr Hr'). intros E. by apply Ha, pool_inj.
Qed.

(** Nor do they touch what was handed out before. *)
Lemma arrays_fresh a i q r :
  heap_ok h → pool_of ptrs a ≠ nullptr → 0 ≤ i < n → proffered_ (strat_ h) !! q = Some r →
  disj (array_block (pool_of ptrs) i a) r.
Proof using Hn Hok Hin.
  intros Hok0 H0 Hi Hq. destruct (pool_block a H0) as (r1 & Hr1 & Hnone & Hin1).
  eapply disj_inside; [by apply Hin1|]. destruct Hok as (_ & _ & _ & Hwf).
  assert (q ∉ ptrs ∨ q = nullptr) as Hnq.
  { destruct (decide (q = nullptr)); [by right|left]. intros (k & Hk)%list_elem_of_lookup.
    destruct (lookup_lt_is_Some_2 work_arrays k) as [a' Ha']; [rewrite <- (pi_length _ _ _ _ _ Hin); by eapply lookup_lt_Some|].
    destruct (pi_block _ _ _ _ _ Hin _ _ _ Ha' Hk ltac:(done)) as (_ & _ & _ & _ & ?). congruence. }
  assert (proffered_ (strat_ h') !! q = Some r) as Hq' by (rewrite (pi_rest _ _ _ _ _ Hin); [done|tauto]).
  eapply (proffered_disj _ _ _ _ _ _ Hwf Hr1 Hq'). intros <-. congruence.
Qed.
End allocated.

(** [teams_destroy] gives everything back. *)
Lemma teams_destroy_spec n (h : SingleHeap A) ptrs (b : lib_backend A) :
  heap_ok h → heap_ok (lb_heap b) → pools_in n work_arrays h ptrs (lb_heap b) →
  returns (teams_destroy W (pool_of ptrs) (Backend_at b)) (λ p, ∃ b', p = Backend_at b' ∧ heap_ok (lb_heap b') ∧
    lb_default b' = lb_default b ∧ proffered_ (strat_ (lb_heap b')) = proffered_ (strat_ h)).
Proof.
  intros Hok0 Hok Hin. unfold teams_destroy.
  assert (foldl (λ r a, p ← r; roc_shmem_free W (pool_of ptrs a) p) (Ok (Backend_at b)) work_arrays =
    foldl (λ r ptr, p ← r; roc_shmem_free W ptr p) (Ok (Backend_at b)) ptrs) as ->.
  { pose proof (foldl_fmap (λ r ptr, p ← r; roc_shmem_free W ptr p) (Ok (Backend_at b)) work_arrays (pool_of ptrs)) as E.
    rewrite (pool_of_all ptrs (pi_length _ _ _ _ _ Hin)) in E. by rewrite E. }
  assert (∀ p, p ∈ ptrs → p ≠ nullptr → is_Some (proffered_ (strat_ (lb_heap b)) !! p) ∧ proffered_ (strat_ h) !! p = None) as Hl.
  { intros p (k & Hk)%list_elem_of_lookup H0.
    destruct (lookup_lt_is_Some_2 work_arrays k) as [a Ha]; [rewrite <- (pi_length _ _ _ _ _ Hin); by eapply lookup_lt_Some|].
    destruct (pi_block _ _ _ _ _ Hin _ _ _ Ha Hk H0) as (r & ? & _ & _ & ?). eauto. }
  eapply returns_mono; [apply free_all_spec|].
  - exact 0.
  - done.
  - intros p Hp H0. by apply Hl.
  - apply (pi_inj _ _ _ _ _ Hin).
  - intros p (b' & -> & Hok' & _ & Hd & _ & Hq). exists b'. split_and!; try done. apply map_eq. intros q. rewrite Hq.
    case_decide as Hc; [destruct Hc as [Hc1 Hc2]; by destruct (Hl q Hc1 Hc2)|]. apply (pi_rest _ _ _ _ _ Hin).
    destruct (decide (q = nullptr)); [by left|]. right. intros ?. by apply Hc.
Qed.
End arrays.

(** ** The windows of the host *)

Section host.
Context {A : Type} (W : world) (local : Z).

(** Allocation and release leave the contexts of the host alone. *)
Definition same_host (b b' : lib_backend A) : Prop :=
  lb_type b' = lb_type b ∧ lb_default b' = lb_default b ∧
  host_window_context_pool_ (lb_host b') = host_window_context_pool_ (lb_host b).

#[local] Instance same_host_trans : Transitive same_host.
Proof. intros b1 b2 b3 (? & ? & ?) (? & ? & ?). split_and!; congruence. Qed.

Lemma lib_barrier_same (b : lib_backend A) :
  lb_type b = GPU_IB_BACKEND → returns (lib_barrier W b) (λ b', same_host b b' ∧ lb_heap b' = lb_heap b).
Proof.
  intros Ht. destruct b as [t heap host w ctxs]. cbn in Ht. subst t. by cbn.
Qed.

Lemma malloc_same (b : lib_backend A) n ptr p :
  lb_type b = GPU_IB_BACKEND → roc_shmem_malloc W local n (Backend_at b) = Ok (ptr, p) →
  ∃ b', p = Backend_at b' ∧ same_host b b'.
Proof.
  intros Ht H. unfold roc_shmem_malloc in H. cbn [VERIFY_BACKEND mbind result_bind] in H.
  apply bind_Ok_inv in H as ([q heap] & _ & H). apply bind_Ok_inv in H as (b' & Hb & [= _ <-]).
  pose proof (lib_barrier_same (mkLib (lb_type b) heap (lb_host b) (lb_default b) (lb_ctxs b)) Ht) as Hs.
  rewrite Hb in Hs. exists b'. split; [done|]. apply Hs.
Qed.

Lemma free_same (b : lib_backend A) ptr p :
  lb_type b = GPU_IB_BACKEND → roc_shmem_free W ptr (Backend_at b) = Ok p → ∃ b', p = Backend_at b' ∧ same_host b b'.
Proof.
  intros Ht H. unfold roc_shmem_free in H. cbn [VERIFY_BACKEND mbind result_bind] in H.
  apply bind_Ok_inv in H as (b' & Hb & H). apply bind_Ok_inv in H as (heap & _ & [= <-]).
  pose proof (lib_barrier_same b Ht) as Hs. rewrite Hb in Hs. eexists. split; [done|]. apply Hs.
Qed.

Lemma alloc_pools_same n l (b : lib_backend A) ptrs p :
  lb_type b = GPU_IB_BACKEND → alloc_pools W local n l (Backend_at b) = Ok (ptrs, p) →
  ∃ b', p = Backend_at b' ∧ same_host b b'.
Proof.
  revert b ptrs. induction l as [|a l IH]; intros b ptrs Ht H; cbn [alloc_pools] in H.
  { injection H as _ <-. exists b. split; [done|]. by split_and!. }
  apply bind_Ok_inv in H as ([ptr p1] & H1 & H). apply bind_Ok_inv in H as ([ptrs1 p2] & H2 & [= _ <-]).
  destruct (malloc_same _ _ _ _ Ht H1) as (b1 & -> & Hs1). destruct (IH b1 ptrs1) as (b2 & -> & Hs2); [by destruct Hs1 as [-> _]|done|].
  exists b2. split; [done|]. by transitivity b1.
Qed.

Lemma teams_destroy_same pools (b : lib_backend A) p :
  lb_type b = GPU_IB_BACKEND → teams_destroy W pools (Backend_at b) = Ok p → ∃ b', p = Backend_at b' ∧ same_host b b'.
Proof.
  unfold teams_destroy. generalize work_arrays as l. intros l. revert b.
  induction l as [|a l IH]; intros b Ht H; cbn [foldl] in H.
  { injection H as <-. exists b. split; [done|]. by split_and!. }
  cbn [mbind result_bind] in H. destruct (roc_shmem_free W (pools a) (Backend_at b)) as [p1|e] eqn:E1.
  - destruct (free_same _ _ _ Ht E1) as (b1 & -> & Hs1). destruct (IH b1) as (b2 & -> & Hs2); [by destruct Hs1 as [-> _]|done|].
    exists b2. split; [done|]. by transitivity b1.
  - by rewrite (foldl_Fail (λ a p, roc_shmem_free W (pools a) p)) in H.
Qed.
End host.

Section results.
Context {A : Type} (W : world) (local : Z).

(** C23: The arrays of the teams in the InfiniBand backend.  From any heap with its
    invariant and a number of teams that is a positive [int], [teams_init] either stops at
    a null pointer, when the heap could not serve one of the pools of synchronisation
    variables, or returns; then the pools of synchronisation variables exist, and of the
    pools that exist, all arrays of all teams lie in the heap, are pairwise disjoint and
    disjoint from everything handed out before; all synchronisation variables of all
    teams have their initial value and no other word of the heap was changed; the bit mask
    offers every number but 0; and [teams_destroy] returns and leaves exactly the blocks
    handed out that were before. *)
Theorem teams_init_correct n (b : lib_backend A) mem :
  heap_ok (lb_heap b) → local ≠ nullptr → 1 ≤ n ≤ INT_MAX →
  match teams_init W local n (Backend_at b) mem with
  | Fail e => e = BadAccess ∧ ∃ ptrs p a, alloc_pools W local n work_arrays (Backend_at b) = Ok (ptrs, p) ∧
      a ∈ sync_arrays ∧ pool_of ptrs a = nullptr
  | Ok (pools, p, mem', mask) =>
      ∃ b', p = Backend_at b' ∧ heap_ok (lb_heap b') ∧
        (∀ a, a ∈ sync_arrays → pools a ≠ nullptr) ∧
        (∀ a i, pools a ≠ nullptr → 0 ≤ i < n →
           inside (array_block pools i a) (heap_arena (lb_heap b)) ∧
           (∀ q r, proffered_ (strat_ (lb_heap b)) !! q = Some r → disj (array_block pools i a) r) ∧
           ∀ a' i', pools a' ≠ nullptr → 0 ≤ i' < n → (a, i) ≠ (a', i') → disj (array_block pools i a) (array_block pools i' a')) ∧
        syncs (λ x, ∃ i, 0 ≤ i < n ∧ in_team_sync pools i x) mem mem' ∧
        (∀ j, 0 ≤ j → bit_of mask j = (1 <=? j) && (j <? n)) ∧
        returns (teams_destroy W pools p) (λ p', ∃ b'', p' = Backend_at b'' ∧ heap_ok (lb_heap b'') ∧
          proffered_ (strat_ (lb_heap b'')) = proffered_ (strat_ (lb_heap b)))
  end.
Proof.
  intros Hok Hl Hn. unfold teams_init. pose proof (alloc_pools_spec W local n work_arrays b Hok Hl) as Ha.
  destruct (alloc_pools W local n work_arrays (Backend_at b)) as [[ptrs p]|]; [|done].
  destruct Ha as (b' & -> & Hok' & Hmem & _ & _ & _ & Hin). cbn [mbind result_bind].
  assert (∀ a, 0 ≤ pool_of ptrs a) as Hpos.
  { intros a. destruct (pool_of_lookup ptrs a (pi_length _ _ _ _ _ Hin)) as (k & _ & Hk).
    by eapply (Forall_lookup_1 _ _ _ _ (pi_pos _ _ _ _ _ Hin) Hk). }
  pose proof (init_teams_sync_spec (pool_of ptrs) n mem Hpos) as Hs.
  destruct (foldl _ _ _) as [mem'|e]; cbn [mbind result_bind].
  - pose proof (init_bitmask_spec n ltac:(lia)) as Hb. destruct (init_bitmask n) as [mask|]; [|done]. cbn [mbind result_bind].
    destruct Hs as [Hnn Hs], Hb as [_ Hb]. exists b'. split_and!; try done; [apply Hnn; lia| |].
    + intros a i H0 Hi. split_and!.
      * assert (heap_arena (lb_heap b) = heap_arena (lb_heap b')) as ->; [|by eapply array_in_heap].
        unfold heap_arena, get_base_ptr, heap_get_size. by rewrite Hmem.
      * intros q r Hq. by eapply arrays_fresh.
      * intros a' i' H0' Hi' Hne. by eapply arrays_disjoint.
    + eapply returns_mono; [exact (teams_destroy_spec W n _ ptrs b' Hok Hok' Hin)|]. intros p (b'' & ? & ? & _ & ?). eauto.
  - destruct Hs as (-> & a & Ha & E). split; [done|]. by exists ptrs, (Backend_at b'), a.
Qed.
End results.

(** ** The whole set-up *)

Section whole.
Context {A T : Type} {P : HipIpc T} {X : Mlx5} {D : Mlx5dv}.
Context (W : world) (initialized : Z) (init_done : bool) (init_thread num_cus : Z).
Context (max_num_contexts max_num_teams : option Z).
Context (heap : SingleHeap A) (heap_bases : list Z) (mem : Z → Z) (local team_world atomic_base : Z).
Context (MPI_Allgather : list (option T) → list (option T)) (Shm_size shm_rank : Z) (net_env : process).
Abbreviation construct := (GPUIBBackend_new W initialized init_done init_thread num_cus max_num_contexts max_num_teams
  heap heap_bases mem local team_world atomic_base MPI_Allgather Shm_size shm_rank net_env).
Context (Hheap : heap_ok heap) (Hlocal : local ≠ nullptr).

Lemma teams_init_inv n (b : lib_backend A) m pools p m' mask :
  heap_ok (lb_heap b) → lb_type b = GPU_IB_BACKEND → teams_init W local n (Backend_at b) m = Ok (pools, p, m', mask) →
  ∃ ptrs b', pools = pool_of ptrs ∧ p = Backend_at b' ∧ heap_ok (lb_heap b') ∧
    heap_mem_ (lb_heap b') = heap_mem_ (lb_heap b) ∧ same_host b b' ∧
    pools_in n work_arrays (lb_heap b) ptrs (lb_heap b') ∧ init_bitmask n = Ok mask ∧
    ∀ x, m x = ROC_SHMEM_SYNC_VALUE → m' x = ROC_SHMEM_SYNC_VALUE.
Proof using Hlocal.
  intros Hok Ht H. unfold teams_init in H. apply bind_Ok_inv in H as ([ptrs p1] & Ha & H).
  apply bind_Ok_inv in H as (m1 & Hm & H). apply bind_Ok_inv in H as (mask1 & Hmask & [= <- <- <- <-]).
  destruct (alloc_pools_same _ _ _ _ _ _ _ Ht Ha) as (b' & -> & Hs).
  pose proof (alloc_pools_spec W local n work_arrays b Hok Hlocal) as Hsp. rewrite Ha in Hsp.
  destruct Hsp as (b1 & [= <-] & Hok' & Hhm & _ & _ & _ & Hin). exists ptrs, b'. split_and!; try done.
  intros x Hx. pose proof (init_teams_sync_spec (pool_of ptrs) n m) as Hi. rewrite Hm in Hi.
  destruct Hi as [_ Hi]; [|apply Hi; by left].
  intros a. destruct (pool_of_lookup ptrs a (pi_length _ _ _ _ _ Hin)) as (k & _ & Hk).
  by eapply (Forall_lookup_1 _ _ _ _ (pi_pos _ _ _ _ _ Hin) Hk).
Qed.

(** The variables of the barrier of all processes. *)
Lemma collective_init_inv n (b b' : lib_backend A) m bs m' :
  heap_ok (lb_heap b) → 1 ≤ n → roc_shmem_collective_init local n b m = Ok (bs, b', m') →
  heap_ok (lb_heap b') ∧ heap_mem_ (lb_heap b') = heap_mem_ (lb_heap b) ∧ lb_type b' = lb_type b ∧
  lb_default b' = lb_default b ∧ lb_host b' = lb_host b ∧
  (∃ r, proffered_ (strat_ (lb_heap b')) = <[bs := r]> (proffered_ (strat_ (lb_heap b))) ∧
        proffered_ (strat_ (lb_heap b)) !! bs = None ∧ sizeof_long * ROC_SHMEM_BARRIER_SYNC_SIZE ≤ size_ r) ∧
  syncs (in_words bs n) m m'.
Proof using Hlocal.
  intros Hok Hn H. unfold roc_shmem_collective_init in H. apply bind_Ok_inv in H as ([q h] & Hm & H).
  apply bind_Ok_inv in H as (m1 & Hs & [= <- <- <-]).
  pose proof (malloc_spec (lb_heap b) local (sizeof_long * ROC_SHMEM_BARRIER_SYNC_SIZE) Hok Hlocal) as Hsp. rewrite Hm in Hsp.
  destruct Hsp as (Hok' & Hhm & Hout). pose proof (store_sync_spec m q n) as Hss. rewrite Hs in Hss. destruct Hss as [H0 Hss].
  split_and!; try done. destruct Hout as [(-> & _)|(r & -> & (_ & Hsz & _) & _ & Hf & Hins & _)].
  - by destruct H0; [lia|].
  - exists r. split_and!; [done|done|lia].
Qed.

Lemma gpuib_construct_inv num_wgs b :
  construct num_wgs = Ok b →
  ∃ w host lib1 lib2 m1 m2 mask,
    HostContext_new (HostInterface_new W max_num_contexts (get_base_ptr heap) (heap_get_size heap)) = Ok (w, host) ∧
    roc_shmem_collective_init local (w_size W) (mkLib GPU_IB_BACKEND heap host w []) mem = Ok (ib_barrier_sync b, lib1, m1) ∧
    teams_init W local (default 40 max_num_teams) (Backend_at lib1) m1 = Ok (ib_pools b, Backend_at lib2, m2, mask) ∧
    ib_lib b = lib2 ∧ ib_mem b = m2 ∧ ib_team_world b = setup_team_world W team_world (λ _, nullptr) ∧
    ib_teams b = mkBackend (w_size W) (w_rank W) (mkTeamTracker [] (default 40 max_num_teams) team_world) mask
                   {[ team_world := Teams.world_team (w_size W) (w_rank W) team_world ]}.
Proof.
  intros H. unfold GPUIBBackend_new in H. apply bind_Ok_inv in H as ([] & _ & H).
  apply bind_Ok_inv in H as ([w host] & Hh & H). apply bind_Ok_inv in H as ([[bs lib1] m1] & Hc & H).
  apply bind_Ok_inv in H as ([[[pools p] m2] mask] & Ht & H). apply bind_Ok_inv in H as (lib2 & Hv & H).
  apply bind_Ok_inv in H as (ipc & _ & H). apply bind_Ok_inv in H as ([net m3] & _ & H).
  apply bind_Ok_inv in H as (ctx & _ & [= <-]). destruct p as [|lib|]; try done. injection Hv as ->.
  by exists w, host, lib1, lib2, m1, m2, mask.
Qed.

(** C24: Set-up and teardown of the InfiniBand backend.  When the constructor has returned,
    the state of the teams is the initial one of [Teams.v], and the variables of the
    barrier of all processes have their initial value, whatever was in memory.  The
    destructor then returns: of the symmetric heap, only the block of these variables is
    handed out beyond what was before the set-up, and the host interface has all its
    windows back. *)
Theorem setup_and_teardown num_wgs b :
  1 ≤ w_size W → 1 ≤ default 40 max_num_teams → 0 ≤ default 40 max_num_contexts →
  construct num_wgs = Ok b →
  Backend_new (w_size W) (w_rank W) team_world max_num_teams = Ok (ib_teams b) ∧
  (∀ i, 0 ≤ i < w_size W → ib_mem b (ib_barrier_sync b + sizeof_long * i) = ROC_SHMEM_SYNC_VALUE) ∧
  returns (GPUIBBackend_delete W b) (λ '(heap', host), heap_ok heap' ∧
    (∃ r, proffered_ (strat_ heap') = <[ib_barrier_sync b := r]> (proffered_ (strat_ heap)) ∧
          proffered_ (strat_ heap) !! ib_barrier_sync b = None) ∧
    Host.pool_ok (default 40 max_num_contexts) (WindowInfo_new (get_base_ptr heap) (heap_get_size heap)) host []).
Proof using Hheap Hlocal.
  intros Hn Hmax Hctx H. destruct (gpuib_construct_inv _ _ H) as (w & host & lib1 & lib2 & m1 & m2 & mask & Hh & Hc & Ht & El & Em & _ & Et).
  destruct (collective_init_inv (w_size W) (mkLib GPU_IB_BACKEND heap host w []) lib1 mem _ m1 Hheap Hn Hc) as (Hok1 & _ & Ht1 & Hd1 & Hh1 & (r & Hr & Hrn & _) & Hs).
  destruct (teams_init_inv _ _ _ _ _ _ _ Hok1 Ht1 Ht) as (ptrs & b' & Ep & [= <-] & Hok2 & _ & Hs2 & Hin & Hmask & Hkeep).
  split_and!.
  - unfold Backend_new. cbn [TeamTracker_new max_num_teams_]. rewrite Hmask. by rewrite Et.
  - intros i Hi. rewrite Em. apply Hkeep, Hs. right. by exists i.
  - unfold GPUIBBackend_delete. rewrite El, Ep.
    pose proof (teams_destroy_spec W _ _ ptrs lib2 Hok1 Hok2 Hin) as Hd.
    destruct (teams_destroy W (pool_of ptrs) (Backend_at lib2)) as [p|] eqn:Ed; [|done].
    destruct Hs2 as (Ht2 & Hd2 & Hp2). rewrite Ht1 in Ht2. destruct (teams_destroy_same _ _ _ _ Ht2 Ed) as (b3 & -> & _ & Hd3 & Hp3).
    destruct Hd as (b4 & [= <-] & Hok3 & _ & Hpr). cbn [mbind result_bind VERIFY_BACKEND HostContext_delete].
    rewrite Hd3, Hd2, Hd1. cbn [lb_default].
    assert (Host.pool_ok (default 40 max_num_contexts) (WindowInfo_new (get_base_ptr heap) (heap_get_size heap)) (lb_host b3)
      [win_handle w]) as Hpool.
    { pose proof (acquire_spec (default 40 max_num_contexts) _ _ [] (pool_ok_new (default 40 max_num_contexts) _ W (get_base_ptr heap) (heap_get_size heap) Hctx eq_refl)) as Hac.
      change (HostInterface_new W (Some (default 40 max_num_contexts))) with (HostInterface_new W max_num_contexts) in Hac.
      unfold HostContext_new in Hh. rewrite Hh in Hac. destruct Hac as (_ & _ & _ & [Q1 Q2 Q3 Q4]).
      rewrite Hh1 in Hp2. split; rewrite ?Hp3, ?Hp2; done. }
    pose proof (release_spec _ _ (win_handle w) _ _ Hpool) as Hrel. cbn [lb_default].
    destruct (release_window_context (win_handle w) (lb_host b3)) as [h|e]; [|by destruct Hrel as [_ []]; left].
    cbn. destruct Hrel as [_ Hrel]. rewrite filter_cons_False in Hrel by tauto. split_and!; [done| |done].
    exists r. by rewrite Hpr, Hr.
Qed.

(** The team of all processes is made before the pools are allocated: its arrays are null. *)
Theorem world_arrays_null num_wgs b a : construct num_wgs = Ok b → ib_arrays (ib_team_world b) a = nullptr.
Proof.
  intros H. destruct (gpuib_construct_inv _ _ H) as (w & host & lib1 & lib2 & m1 & m2 & mask & _ & _ & _ & _ & _ & -> & _).
  unfold setup_team_world, GPUIBTeam_new, Teams.world_team, array_address. cbn [ib_arrays pool_index_]. unfold nullptr. lia.
Qed.

(** A pool that is larger than the heap does not exist. *)
Theorem pool_too_large num_wgs b a :
  1 ≤ w_size W → 1 ≤ default 40 max_num_teams ≤ INT_MAX → construct num_wgs = Ok b →
  heap_get_size heap < pool_bytes (default 40 max_num_teams) a → ib_pools b a = nullptr.
Proof using Hheap Hlocal.
  intros Hn Hmax H Hsize. destruct (gpuib_construct_inv _ _ H) as (w & host & lib1 & lib2 & m1 & m2 & mask & Hh & Hc & Ht & _).
  destruct (collective_init_inv (w_size W) (mkLib GPU_IB_BACKEND heap host w []) lib1 mem _ m1 Hheap Hn Hc) as (Hok1 & Hm1 & Ht1 & _).
  destruct (teams_init_inv _ _ _ _ _ _ _ Hok1 Ht1 Ht) as (ptrs & b' & -> & [= <-] & Hok2 & Hm2 & _ & Hin & _ & _).
  destruct (decide (pool_of ptrs a = nullptr)) as [|H0]; [done|]. exfalso.
  destruct (array_in_heap _ _ _ ptrs Hmax Hok2 Hin a 0 H0 ltac:(lia)) as [Hlo _].
  destruct (array_in_heap _ _ _ ptrs Hmax Hok2 Hin a (default 40 max_num_teams - 1) H0 ltac:(lia)) as [_ Hhi].
  unfold heap_arena, get_base_ptr, heap_get_size in Hlo, Hhi, Hsize. rewrite Hm2, Hm1 in Hlo, Hhi.
  unfold array_block, array_address, pool_bytes in *. cbn in Hlo, Hhi. nia.
Qed.
End whole.

(** With the default heap and the default number of teams, the pool for the all-to-all
    operations is larger than the heap. *)
Lemma default_ata_pool : 2 ^ 30 < pool_bytes 40 pAta.
Proof. done. Qed.

(** [roc_shmem_collective_init] initialises a variable for each process, but allocates
    [ROC_SHMEM_BARRIER_SYNC_SIZE]: with more processes it writes behind the array. *)
Theorem barrier_sync_overrun {A} local n (b b' : lib_backend A) mem bs mem' :
  ROC_SHMEM_BARRIER_SYNC_SIZE < n → roc_shmem_collective_init local n b mem = Ok (bs, b', mem') →
  mem' (bs + sizeof_long * ROC_SHMEM_BARRIER_SYNC_SIZE) = ROC_SHMEM_SYNC_VALUE.
Proof.
  unfold ROC_SHMEM_BARRIER_SYNC_SIZE. intros Hn H. unfold roc_shmem_collective_init in H.
  apply bind_Ok_inv in H as ([q h] & _ & H). apply bind_Ok_inv in H as (m1 & Hs & [= <- _ <-]).
  pose proof (store_sync_spec mem q n) as Hss. rewrite Hs in Hss. destruct Hss as [_ Hss]. apply Hss. right.
  exists 256. split; [lia|done].
Qed.

(** ** A small system *)

(** The first of two processes, with a heap of 64 MiB and one team. *)
Definition demo_st : Pow2Bins := match Pow2Bins_new 0x100000 (2 ^ 26) with Ok st => st | Fail _ => mkPow2Bins [] ∅ end.
Definition demo_heap : SingleHeap Z := mkSingleHeap (mkHeapMemory bump_allocator 0x100000 (2 ^ 26)) demo_st.
Definition demo_mpi : world := mkWorld 0 2 5 (λ k, Z.of_nat k) (λ c, c) (λ a, a) (λ a b, a - b).
Definition demo_lib : lib_backend Z :=
  mkLib GPU_IB_BACKEND demo_heap (HostInterface_new demo_mpi None 0x100000 (2 ^ 26))
    (mkHCW false 0 (WindowInfo_new 0x100000 (2 ^ 26))) [].

Lemma demo_heap_ok : heap_ok demo_heap.
Proof.
  split; [by vm_compute|]. split; [by vm_compute|]. split; [by vm_compute|].
  pose proof (Pow2Bins_new_spec 0x100000 (2 ^ 26) ltac:(lia) ltac:(by vm_compute) ltac:(lia)) as H.
  unfold demo_heap, demo_st. cbn [strat_]. destruct (Pow2Bins_new 0x100000 (2 ^ 26)) as [st|]; [apply H|done].
Qed.

Lemma teams_init_correct_witness :
  returns (teams_init demo_mpi 1 1 (Backend_at demo_lib) (λ _, 77)) (λ '(pools, p, mem, mask),
    disj (array_block pools 0 barrier_pSync) (array_block pools 0 reduce_pSync) ∧
    mem (pools barrier_pSync) = ROC_SHMEM_SYNC_VALUE).
Proof.
  pose proof (teams_init_correct demo_mpi 1 1 demo_lib (λ _, 77) demo_heap_ok ltac:(done) ltac:(unfold INT_MAX; lia)) as H.
  destruct (teams_init demo_mpi 1 1 (Backend_at demo_lib) (λ _, 77)) as [[[[pools p] mem] mask]|e].
  - destruct H as (b' & _ & _ & Hnn & Har & Hs & _).
    assert (pools barrier_pSync ≠ nullptr) as H1 by (apply Hnn; left).
    assert (pools reduce_pSync ≠ nullptr) as H2 by (apply Hnn; right; left).
    split.
    + apply (Har barrier_pSync 0 H1 ltac:(lia)); [exact H2|lia|discriminate].
    + apply Hs. right. exists 0. split; [lia|]. exists barrier_pSync. split; [left|]. exists 0. split; [vm_compute; by split|].
      unfold array_address. lia.
  - destruct H as (_ & ptrs & p & a & Ha & Hin & H0).
    apply (f_equal (λ r, match r with Ok (l, _) => l | Fail _ => [] end)) in Ha. vm_compute in Ha. subst ptrs.
    destruct a; vm_compute in H0; discriminate.
Defined.

(** The constructor with the network of [Network.v] and the shared memory of [Ipc.v]. *)
#[local] Abbreviation demo_new := (
  GPUIBBackend_new (P := demo_world 0) (X := QueuePair.mlx5dv) (D := ExampleNetwork.writers)
    demo_mpi 0 true 0 1 None (Some 1) demo_heap ExampleNetwork.example_bases (λ _, 77) 1 4096 0x30000
    (demo_gather 0) 2 0 (ExampleNetwork.machine 0) 1).

Lemma demo_new_ok : ∃ b, demo_new = Ok b.
Proof.
  destruct demo_new as [b|e] eqn:E; [eauto|].
  apply (f_equal (λ r, match r with Ok _ => true | Fail _ => false end)) in E. vm_compute in E. discriminate.
Qed.

Lemma setup_and_teardown_witness :
  ∃ b, demo_new = Ok b ∧ ib_mem b (ib_barrier_sync b + 8) = ROC_SHMEM_SYNC_VALUE ∧
    returns (GPUIBBackend_delete demo_mpi b) (λ '(heap', _), heap_ok heap').
Proof.
  destruct demo_new_ok as [b Hb]. exists b. split; [exact Hb|].
  destruct (setup_and_teardown (P := demo_world 0) (X := QueuePair.mlx5dv) (D := ExampleNetwork.writers)
    demo_mpi 0 true 0 1 None (Some 1) demo_heap ExampleNetwork.example_bases (λ _, 77) 1 4096 0x30000
    (demo_gather 0) 2 0 (ExampleNetwork.machine 0) demo_heap_ok ltac:(discriminate) 1 b ltac:(cbn; lia) ltac:(cbn; lia)
    ltac:(cbn; lia) Hb) as (_ & Hs & Hd).
  split; [apply (Hs 1); cbn; lia|]. eapply returns_mono; [exact Hd|]. intros [heap' host] [H _]. exact H.
Defined.
